(* ===== verification/_CoqProject ===== *)
-Q . S2P
Prelude.v
Decimal.v
Types.v
Auction.v
Events.v
Book.v
FileStore.v
FileCompact.v
Field.v
Merkle.v
EngineState.v
Engine.v
Admission.v
Witness.v
Tick.v
Batch.v
Machine.v
Rounds.v
Provable.v
Examples.v
Snapshot.v
PgStore.v
Recover.v
Replay.v
Recovery.v
RecoveryExamples.v
Prime.v
Poly.v
Groth16.v
Groth16Facts.v
Groth16Examples.v
Circuit.v
CircuitFacts.v
Folding.v
Evm.v
PoseidonConstants.v
PoseidonBN254.v
Groth16Verifier.v
DarkPool.v
VerifierProxy.v
PoolFunds.v
PoolSafety.v
Settlement.v
EndToEnd.v
Resubmit.v
Binding.v
PoolExamples.v
VerifierExamples.v
EndToEndExamples.v
Text.v
SnapshotFiles.v
RateLimit.v
Client.v
Siwe.v
Auth.v
Keys.v
Api.v
OrderProof.v
OrderGroth16.v
OrderProofExamples.v
ZkCli.v
OrderClient.v
Sse.v
Server.v
ApiSafety.v
Boot.v
Transport.v
Shipped.v
ApiExamples.v
OrderClientExamples.v
SnapshotFilesExamples.v
PgStoreExamples.v
ZkCliExamples.v
TransportExamples.v
