(* ===== verification/Prelude.v ===== *)
(** * DarkPool-Exchange

    A verification development of the dark pool exchange: the matching engine
    with its event log, its HTTP server, the step circuit that proves its
    rounds, and the contract that settles them.

    ** The program

    A trader signs in with a wallet ([dp-api]), proves an order in the browser
    ([dp-zk-wasm], with the vendored [ark-groth16]), encrypts it to the
    operator's key ([dp-client]) and places it.  The engine ([dp-engine])
    decrypts it ([dp-crypto]), checks its proof, its funds and that it is new,
    appends an
    event ([dp-event]) and inserts it in the book ([dp-book]).  A periodic tick
    expires orders and runs one auction per pair ([dp-auction]): all matches of
    a round clear at one price.  The matches of a round, in chunks, become the
    inputs of a step circuit ([dp-zk]) that extends a chain of hashes over the
    settled trades; an aggregator ([dp-aggregator]) folds the steps and
    finalizes a proof; a submitter ([dp-settlement]) sends it with the matches
    to the contract ([DarkPool.sol]), which checks the proof through a proxy
    ([VerifierProxy.sol]) at a verifier ([Groth16Verifier.sol]), recomputes the
    chain and moves reserved funds.  After a restart the engine is rebuilt from
    a snapshot and the event log.

    ** Files

    - [Prelude]: what all files share: panics and errors as values, machine
      integers, strings, iteration over hash maps, stable sorting, tactics.
    - [Decimal], [Types]: the interface of [rust_decimal] with its laws and an
      instance, and [dp-types].
    - [Auction]: [dp-auction/src/lib.rs], [run] and everything below it.
    - [Events], [Book], [FileStore]: [dp-event] (events, the [Store] trait,
      [mem_store.rs], [file_store.rs]) and [dp-book/src/book.rs].
      [FileCompact] is the compaction of the file step by step.
      [PgStore]: [pg_store.rs] and [pg_snapshot.rs] over their tables.
      [SnapshotFiles]: [file_snapshot.rs] over a directory.
    - [Field], [Merkle], [Prime]: the scalar field, [encoding.rs] and
      [merkle.rs] of [dp-zk].
    - [EngineState], [Engine], [Admission], [Witness], [Tick], [Batch]:
      [state.rs], [engine.rs], [tick.rs] and [batch.rs] of [dp-engine]; a
      function that releases the state lock in the middle is the composition of
      its lock scopes.  [Machine] is the engine as a state machine whose steps
      are those scopes, with its invariant; [Rounds] and [Provable] are about
      the ticks and the inputs of the proofs.
    - [Snapshot], [Recover]: [snapshot.rs], [recover.rs] and the cipher.
      [Replay] defines what a log tells of an engine and shows that recovery
      computes it; [Recovery] shows that every operation logs what it changes.
    - [Circuit], [CircuitFacts]: [step_circuit.rs] as constraints over the
      field and what they accept.  [Folding]: [folding.rs] and [dp-aggregator].
    - [Evm], [PoseidonConstants], [PoseidonBN254], [DarkPool]: the Solidity
      sources; [PoolFunds], [PoolSafety] and [Binding] are about the contract
      as a state machine whose steps include the callbacks of tokens.
      [Groth16Verifier] is the verifier contract over the precompiles;
      [VerifierProxy] is the proxy, the stub decider and the deployment script.
    - [Poly], [Groth16], [Groth16Facts]: the vendored [ark-groth16] (reduction,
      setup, prover, verifier) over abstract groups, a pairing and an
      evaluation domain, and its completeness.  [OrderGroth16] makes it the
      proof system of [OrderProof].
    - [Settlement], [EndToEnd], [Resubmit]: [dp-settlement], and the way of a
      chunk from the engine to the contract.
    - [Text], [RateLimit], [Client], [Siwe], [Auth], [Keys], [Api], [Sse],
      [Server], [ApiSafety], [Boot]: [dp-api] ([ratelimit.rs], [siwe.rs],
      [auth.rs], [handler.rs], [admin.rs], [conv.rs], [validation.rs],
      [rest.rs], [config.rs], [main.rs]) and the decrypters of [dp-crypto].
      [Shipped] is about the server that [main.rs] wires.  [Transport]:
      [tls.rs] with the reload on a signal, and [signer.rs].
    - [OrderProof]: [commitment_circuit.rs], the verifier of [dp-engine]
      ([order_proof.rs]) and the prover of the browser ([dp-zk-wasm]).
      [OrderClient]: [dp-client], what the trader sends.  [ZkCli]: [dp-zk-cli]
      and the aggregator that runs it as a child process.
    - [Examples] and the files whose names end in it ([RecoveryExamples],
      [Groth16Examples], [PoolExamples], [VerifierExamples],
      [EndToEndExamples], [OrderProofExamples], [ApiExamples],
      [OrderClientExamples], [SnapshotFilesExamples], [PgStoreExamples],
      [ZkCliExamples], [TransportExamples]): concrete instances of every
      interface, and runs on which the theorems apply.

    ** Theorems

    - Auctions: the clearing price maximises the volume; matches respect the
      limits, the priorities and the sizes; the auction never panics.
    - Book and log: the book implements a map of orders, as long as an id is
      not inserted in a second place; a crash during an append loses nothing
      that a log without a write failure before it had acknowledged; the table
      in Postgres is a log up to rounded instants and lost acknowledgements; a
      directory and a table of snapshots behave as a map, the directory through
      power losses that keep only what was synced; a restart over the log, or
      over a captured state and the events past it, rebuilds the orders, the
      registry, the auction log and the spent sets of the engine, after runs
      the log can tell ([Recovery.op_recorded]).  The configurations a server
      registers are among those ([Boot.served_configs_recorded]).
    - Engine: in every interleaving of its lock scopes the invariant holds and
      nothing panics; placements are all or nothing and never admit an order
      twice, over every store that keeps the laws of the trait; a tick records
      exactly the fills of its matches.
    - Proofs: the vendored prover is complete; an order the client prepares is
      read by the engine as the trader meant it, field by field of its JSON; every honest order passes the
      proof gate and every admitted one was proved; the setup writes keys that
      belong together or no pair; the circuit accepts exactly the sound and funded rounds; the
      membership trees are complete and sound; the first round of a pair of a
      reachable engine is accepted and settled by the contract, end to end, if
      it is funded and can be encoded.
    - Contract: it never owes more than it holds; rounds settle once; a
      settlement moves exactly its amounts; a proven session fixes the traders,
      prices and sizes it can settle.  The verifier contract accepts a proof
      exactly when the vendored verifier does, the batch check accepts a bad
      batch for few challenges only, a settled batch was proved, and a
      deployment off the test chains has a real decider and is offered to the
      named owners, who alone can take it over.
    - API: authority and visibility follow the authenticated identity; sessions
      come from signatures; rotation loses no order; rate and stream limits
      bound what they limit; a server that starts is closed, and its listeners
      keep their posture through every reload of certificates.
    - Some theorems state what goes wrong: the second round of a pair reverts,
      rounds off the cadence are not submitted, the wired aggregators do not
      settle, a snapshot of an engine with a pair cannot be read back, a
      lost acknowledgement makes the engine admit an order twice, an append
      after a torn one is lost, and a compaction that fails in its last step
      loses the appends after it.

    ** Conventions

    Panics are [Panic] of [outcome], errors are [Err] of [result].  Integers
    are [Z] with their wrap-around written where it can occur.  A decimal is a
    parameter with the laws of [rust_decimal] that the code relies on; so are
    the field, the groups with their pairing and evaluation domains, the
    precompiles, the hashes, the folding scheme, bincode, the text of JSON, AEAD, ECIES,
    PEM and rustls, the RPC node, the base contracts of OpenZeppelin and the tokens.
    Postgres is the documented meaning of the statements the code sends.  A
    statement that rests on a hash names the inputs that would collide.  Iteration over a
    hash map is in an arbitrary order ([HashIter]).  What the outside answers
    during one operation is an argument of it ([StoreEnv], [PlaceEnv],
    [ServeEnv], [BootEnv], ...).  Replay loops take fuel; they return once the
    fuel exceeds the number of events of the log ([Book.replay_total],
    [Replay.replay_loop_spec], [Recovery.recovery_rebuilds_engine]).

    ** Not modelled

    The gRPC transport (tonic's layers around the same handlers), tracing and
    metrics, the parsing of flags and durations, the shutdown and the periodic
    gauge of [main.rs]: glue over third-party code with no state of its own.
    [constraints.rs] of the vendored crate (a verifier as a circuit) is built
    by no crate of the repository.  The exporter of Poseidon's constants and
    the script that funds a trader of a test chain produce texts and test
    tokens.  Faults of reads of the event file and of Postgres, more than one process that
    writes to one Postgres table, the connection pool, the ping and the size
    gauge of the stores are left out. *)

From stdpp Require Export base gmap list sorting strings.
From Stdlib Require Export ZArith Lia.

Declare Scope dp_scope.
Delimit Scope dp_scope with dp.
Open Scope Z_scope.

(** ** Panics and errors

    A Rust function either returns or panics.  Fallible functions return a
    [result] on top of that. *)

Inductive outcome (A : Type) : Type :=
| Ret (a : A)
| Panic.
Arguments Ret {A} a.
Arguments Panic {A}.

Inductive result (A E : Type) : Type :=
| Ok (a : A)
| Err (e : E).
Arguments Ok {A E} a.
Arguments Err {A E} e.

#[export] Instance outcome_ret : MRet outcome := fun A a => Ret a.

#[export] Instance outcome_bind : MBind outcome :=
  fun A B f m => match m with Ret a => f a | Panic => Panic end.

#[export] Instance outcome_eq_dec {A} `{EqDecision A} : EqDecision (outcome A).
Proof. solve_decision. Defined.

#[export] Instance result_eq_dec {A E} `{EqDecision A} `{EqDecision E} :
  EqDecision (result A E).
Proof. solve_decision. Defined.

#[export] Instance result_ret {E} : MRet (fun A => result A E) := fun A a => Ok a.

#[export] Instance result_bind {E} : MBind (fun A => result A E) :=
  fun A B f m => match m with Ok a => f a | Err e => Err e end.

(** The operator [?] on a result. *)
Notation "'let?' x := r 'in' k" := (match r with Ok x => k | Err e => Err e end)
  (at level 200, x name, k at level 200, format "'let?'  x  :=  r  'in' '//' k").

(** The same in a function that may panic. *)
Notation "'let!' x := r 'in' k" :=
  (match r with Ret (Ok x) => k | Ret (Err e) => Ret (Err e) | Panic => Panic end)
  (at level 200, x name, k at level 200, format "'let!'  x  :=  r  'in' '//' k").

(** Lifts a partial third-party operation: [None] is its panic. *)
Definition or_panic {A} (o : option A) : outcome A :=
  match o with Some a => Ret a | None => Panic end.

Definition is_ok {A E} (r : result A E) : bool :=
  match r with Ok _ => true | Err _ => false end.

(** A loop that folds a panicking body over a list. *)
Fixpoint foldM {S A} (f : S -> A -> outcome S) (s : S) (l : list A) : outcome S :=
  match l with
  | [] => Ret s
  | x :: l' => s' ← f s x; foldM f s' l'
  end.

Lemma outcome_bind_Ret {A B} (f : A -> outcome B) (m : outcome A) (b : B) :
  (m ≫= f) = Ret b <-> exists a, m = Ret a /\ f a = Ret b.
Proof. destruct m; naive_solver. Qed.

Lemma result_bind_Ok {A B E} (f : A -> result B E) (m : result A E) (b : B) :
  (@mbind (fun A => result A E) _ _ _ f m) = Ok b <-> exists a, m = Ok a /\ f a = Ok b.
Proof. destruct m; naive_solver. Qed.

Lemma foldM_app {S A} (f : S -> A -> outcome S) s l1 l2 :
  foldM f s (l1 ++ l2) = (s' ← foldM f s l1; foldM f s' l2).
Proof.
  revert s; induction l1 as [|x l1 IH]; intros s; simpl; [done|].
  destruct (f s x); simpl; auto.
Qed.

(** An invariant of the body is an invariant of the loop. *)
Lemma foldM_invariant {S A} (P : S -> Prop) (f : S -> A -> outcome S) s s' l :
  (forall s x s', x ∈ l -> P s -> f s x = Ret s' -> P s') ->
  P s -> foldM f s l = Ret s' -> P s'.
Proof.
  revert s; induction l as [|x l IH]; intros s Hf HP; simpl; [naive_solver|].
  intros (s1 & H1 & H2)%outcome_bind_Ret.
  eapply IH; [|eapply Hf; [left| |exact H1]; done|exact H2].
  intros ???; eauto using list_elem_of_further.
Qed.

(** A body that returns on every state of an invariant makes the loop return. *)
Lemma foldM_total {S A} (P : S -> Prop) (f : S -> A -> outcome S) s l :
  (forall s x, x ∈ l -> P s -> exists s', f s x = Ret s' /\ P s') ->
  P s -> exists s', foldM f s l = Ret s' /\ P s'.
Proof.
  revert s; induction l as [|x l IH]; intros s Hf HP; simpl; [by eauto|].
  destruct (Hf s x) as (s1 & -> & H1); [left|done|]; simpl.
  apply IH; [|done]; eauto using list_elem_of_further.
Qed.

(** ** Filtered lists *)

Lemma Forall_List_filter {A} (P : A -> Prop) (f : A -> bool) l : Forall P l -> Forall P (List.filter f l).
Proof. induction 1 as [|x l Hx _ IH]; cbn [List.filter]; [constructor|]. destruct (f x); [by constructor|done]. Qed.

Lemma StronglySorted_List_filter {A} (R : A -> A -> Prop) (f : A -> bool) l : StronglySorted R l -> StronglySorted R (List.filter f l).
Proof.
  induction 1 as [|x l Hl IH Hx]; cbn [List.filter]; [constructor|]. destruct (f x); [|done]. constructor; [done|by apply Forall_List_filter].
Qed.

(** ** Machine integers *)

Definition u32_max : Z := 2 ^ 32 - 1.
Definition u64_max : Z := 2 ^ 64 - 1.

Definition wrap32 (z : Z) : Z := z mod 2 ^ 32.
Definition wrap64 (z : Z) : Z := z mod 2 ^ 64.

Lemma wrap64_id z : 0 <= z <= u64_max -> wrap64 z = z.
Proof. unfold wrap64, u64_max. intros. apply Z.mod_small. lia. Qed.

Lemma wrap32_id z : 0 <= z <= u32_max -> wrap32 z = z.
Proof. unfold wrap32, u32_max. intros. apply Z.mod_small. lia. Qed.

(** ** Bytes and strings

    A byte is a [Z] in [0, 256).  A Rust string is its sequence of Unicode
    scalar values. *)

Notation bytes := (list Z).
Notation Str := (list Z).

Definition str (s : string) : Str := map (fun a => Z.of_N (Ascii.N_of_ascii a)) (String.list_ascii_of_string s).
Arguments str s%_string.

(** ** Iteration over a hash map

    [HashMap] iterates in an unspecified order.  Every definition that iterates
    one takes the order from this class, so its theorems hold for any order. *)

Class HashIter := {
  hm_iter : forall {K V : Type} `{Countable K}, gmap K V -> list (K * V);
  hm_iter_perm : forall {K V : Type} `{Countable K} (m : gmap K V),
    hm_iter m ≡ₚ map_to_list m
}.

Definition hm_values `{HashIter} {K V} `{Countable K} (m : gmap K V) : list V := (hm_iter m).*2.
Definition hm_keys `{HashIter} {K V} `{Countable K} (m : gmap K V) : list K := (hm_iter m).*1.

(** The iteration order of [gmap] itself is one instance. *)
Definition canonical_iter : HashIter := {| hm_iter := fun _ _ _ _ m => map_to_list m; hm_iter_perm := fun _ _ _ _ _ => reflexivity _ |}.

Section hash_iter.
Context `{HashIter} {K V : Type} `{Countable K}.
Implicit Types m : gmap K V.

Lemma elem_of_hm_iter m k v : (k, v) ∈ hm_iter m <-> m !! k = Some v.
Proof. rewrite hm_iter_perm. apply elem_of_map_to_list. Qed.

Lemma elem_of_hm_values m v : v ∈ hm_values m <-> exists k, m !! k = Some v.
Proof.
  unfold hm_values. rewrite list_elem_of_fmap. split.
  - intros ([k v'] & -> & Hin). exists k. by apply elem_of_hm_iter.
  - intros (k & Hk). exists (k, v). split; [done|]. by apply elem_of_hm_iter.
Qed.

Lemma elem_of_hm_keys m k : k ∈ hm_keys m <-> is_Some (m !! k).
Proof.
  unfold hm_keys. rewrite list_elem_of_fmap. split.
  - intros ([k' v] & -> & Hin). exists v. by apply elem_of_hm_iter.
  - intros (v & Hk). exists (k, v). split; [done|]. by apply elem_of_hm_iter.
Qed.

Lemma NoDup_hm_keys m : NoDup (hm_keys m).
Proof. unfold hm_keys. rewrite hm_iter_perm. apply NoDup_fst_map_to_list. Qed.

Lemma length_hm_iter m : length (hm_iter m) = size m.
Proof. rewrite hm_iter_perm. apply length_map_to_list. Qed.

Lemma length_hm_values m : length (hm_values m) = size m.
Proof. unfold hm_values. rewrite length_fmap. apply length_hm_iter. Qed.
End hash_iter.

(** ** Lists *)

Lemma list_min {A} (f : A -> Z) (l : list A) :
  l <> [] -> exists m, m ∈ l /\ forall y, y ∈ l -> f m <= f y.
Proof.
  induction l as [|x l IH]; [done|]. intros _.
  destruct l as [|x' l]; [exists x; set_solver by lia|].
  destruct IH as (m & Hm & Hmin); [done|].
  destruct (Z_le_gt_dec (f x) (f m)).
  - exists x. split; [left|]. intros y [->|Hy]%elem_of_cons; [lia|]. specialize (Hmin y Hy). lia.
  - exists m. split; [by right|]. intros y [->|Hy]%elem_of_cons; [lia|auto].
Qed.

Lemma filter_bool_perm {A} (f : A -> bool) (l1 l2 : list A) : l1 ≡ₚ l2 -> List.filter f l1 ≡ₚ List.filter f l2.
Proof. induction 1; simpl; repeat case_match; eauto using Permutation. Qed.

Lemma NoDup_filter_bool {A} (f : A -> bool) (l : list A) : NoDup l -> NoDup (List.filter f l).
Proof.
  induction 1 as [|x l Hx _ IH]; simpl; [constructor|]. destruct (f x); [|done]. constructor; [|done].
  rewrite list_elem_of_In in *. intros [? _]%filter_In. auto.
Qed.

Lemma elem_of_list_filter_bool {A} (f : A -> bool) (l : list A) x :
  x ∈ List.filter f l <-> x ∈ l /\ f x = true.
Proof. rewrite !list_elem_of_In. apply filter_In. Qed.

Lemma Forall2_impl_in {A B} (P Q : A -> B -> Prop) l k :
  Forall2 P l k -> (forall x y, x ∈ l -> y ∈ k -> P x y -> Q x y) -> Forall2 Q l k.
Proof.
  induction 1; intros HPQ; constructor.
  - apply HPQ; [left|left|done].
  - apply IHForall2. intros ????. apply HPQ; by right.
Qed.

Lemma Forall2_compose {A B C} (P : A -> B -> Prop) (Q : B -> C -> Prop) (R : A -> C -> Prop) l1 l2 l3 :
  (forall x y z, P x y -> Q y z -> R x z) -> Forall2 P l1 l2 -> Forall2 Q l2 l3 -> Forall2 R l1 l3.
Proof.
  intros Htr HP. revert l3; induction HP; intros l3 HQ; inversion HQ; subst; constructor; eauto.
Qed.

Lemma Forall2_elem_l {A B} (P : A -> B -> Prop) l k x :
  Forall2 P l k -> x ∈ l -> exists y, y ∈ k /\ P x y.
Proof.
  induction 1; intros Hx; [by apply not_elem_of_nil in Hx|].
  apply elem_of_cons in Hx as [->|Hx]; [eexists; split; [left|done]|].
  destruct IHForall2 as (y' & ? & ?); [done|]. exists y'. split; [by right|done].
Qed.

Lemma Forall2_elem_r {A B} (P : A -> B -> Prop) l k y :
  Forall2 P l k -> y ∈ k -> exists x, x ∈ l /\ P x y.
Proof.
  induction 1; intros Hx; [by apply not_elem_of_nil in Hx|].
  apply elem_of_cons in Hx as [->|Hx]; [eexists; split; [left|done]|].
  destruct IHForall2 as (y' & ? & ?); [done|]. exists y'. split; [by right|done].
Qed.

(** [x] occurs before [y] in [l]. *)
Definition before {A} (l : list A) (x y : A) : Prop :=
  exists l1 l2 l3, l = l1 ++ x :: l2 ++ y :: l3.

Lemma before_cons {A} (z : A) l x y :
  before (z :: l) x y <-> (x = z /\ y ∈ l) \/ before l x y.
Proof.
  split.
  - intros ([|z' l1] & l2 & l3 & Heq); simplify_eq/=.
    + left. split; [done|]. set_solver.
    + right. by exists l1, l2, l3.
  - intros [[-> (l2 & l3 & ->)%list_elem_of_split]|(l1 & l2 & l3 & ->)].
    + by exists [], l2, l3.
    + by exists (z :: l1), l2, l3.
Qed.

Lemma before_nil {A} (x y : A) : ~ before [] x y.
Proof. by intros ([|??] & l2 & l3 & ?). Qed.

Lemma before_elem {A} (l : list A) x y : before l x y -> x ∈ l /\ y ∈ l.
Proof. intros (l1 & l2 & l3 & ->). set_solver. Qed.

Lemma before_Forall2 {A B} (P : A -> B -> Prop) l k x y :
  Forall2 P l k -> before l x y -> exists x' y', before k x' y' /\ P x x' /\ P y y'.
Proof.
  intros HP (l1 & l2 & l3 & ->).
  apply Forall2_app_inv_l in HP as (k1 & k2 & _ & HP & ->).
  apply Forall2_cons_inv_l in HP as (x' & k3 & Hx & HP & ->).
  apply Forall2_app_inv_l in HP as (k4 & k5 & _ & HP & ->).
  apply Forall2_cons_inv_l in HP as (y' & k6 & Hy & _ & ->).
  exists x', y'. split; [|done]. by exists k1, k4, k6.
Qed.

Lemma NoDup_map_inj {A B} (f : A -> B) l x y :
  NoDup (map f l) -> x ∈ l -> y ∈ l -> f x = f y -> x = y.
Proof.
  induction l as [|z l IH]; simpl; [set_solver|].
  intros [Hz Hnd]%NoDup_cons Hx Hy Hf.
  apply elem_of_cons in Hx as [->|Hx], Hy as [->|Hy]; [done|..].
  - destruct Hz. rewrite Hf. by apply list_elem_of_fmap_2.
  - destruct Hz. rewrite <- Hf. by apply list_elem_of_fmap_2.
  - auto.
Qed.

(** ** Stable sorting

    [sort_by] of the standard library: the unique stable rearrangement of a
    list that a comparator puts in order. *)

Section sort_by.
Context {A : Type} (cmp : A -> A -> comparison).

Fixpoint insert_by (x : A) (l : list A) : list A :=
  match l with
  | [] => [x]
  | y :: l' => match cmp x y with Gt => y :: insert_by x l' | _ => x :: l end
  end.

Fixpoint sort_by (l : list A) : list A :=
  match l with
  | [] => []
  | x :: l' => insert_by x (sort_by l')
  end.

(** [a] does not come after [b]. *)
Definition cmp_le (a b : A) : Prop := cmp a b <> Gt.

Lemma insert_by_perm x l : insert_by x l ≡ₚ x :: l.
Proof.
  induction l as [|y l IH]; simpl; [done|].
  destruct (cmp x y); try done. rewrite IH. constructor.
Qed.

Lemma sort_by_perm l : sort_by l ≡ₚ l.
Proof.
  induction l as [|x l IH]; simpl; [done|]. by rewrite insert_by_perm, IH.
Qed.

(** The comparators of the program order by keys, hence these two facts. *)
Context (cmp_total : forall a b, cmp a b = Gt -> cmp b a = Lt)
        (cmp_trans : forall a b c, cmp_le a b -> cmp_le b c -> cmp_le a c).

Lemma insert_by_sorted x l :
  StronglySorted cmp_le l -> StronglySorted cmp_le (insert_by x l).
Proof.
  induction 1 as [|y l Hl IH Hy]; simpl; [repeat constructor|].
  destruct (cmp x y) eqn:Hxy.
  3: { constructor; [done|]. rewrite insert_by_perm. constructor; [|done].
       unfold cmp_le. by rewrite (cmp_total _ _ Hxy). }
  all: assert (cmp_le x y) by (unfold cmp_le; congruence);
    constructor; [by constructor|]; constructor; [done|];
    eapply Forall_impl; [exact Hy|]; eauto.
Qed.

Lemma sort_by_sorted l : StronglySorted cmp_le (sort_by l).
Proof.
  induction l as [|x l IH]; simpl; [constructor|]. by apply insert_by_sorted.
Qed.

(** Two sorted permutations of one another coincide when the comparator
    separates their elements. *)
Lemma sorted_perm_unique l1 l2 :
  l1 ≡ₚ l2 -> StronglySorted cmp_le l1 -> StronglySorted cmp_le l2 ->
  (forall a b, a ∈ l1 -> b ∈ l1 -> cmp_le a b -> cmp_le b a -> a = b) ->
  l1 = l2.
Proof.
  intros Hp H1; revert l2 Hp; induction H1 as [|x l1 H1 IH Hx]; intros l2 Hp H2 Hanti.
  { by apply Permutation_nil_l in Hp. }
  destruct H2 as [|y l2 H2 Hy]; [by apply Permutation_nil_r in Hp|].
  assert (x = y) as ->.
  { assert (y ∈ x :: l1) as Hyin by (rewrite Hp; left).
    assert (x ∈ y :: l2) as Hxin by (rewrite <- Hp; left).
    rewrite Forall_forall in Hx, Hy.
    apply elem_of_cons in Hyin as [->|Hyin]; [done|].
    apply elem_of_cons in Hxin as [->|Hxin]; [done|].
    apply Hanti; [left|by right|auto|auto]. }
  f_equal. apply (Permutation_cons_inv (a:=y)) in Hp. apply IH; [done..|].
  intros a b Ha Hb. apply Hanti; by right.
Qed.

Lemma sort_by_perm_eq l1 l2 :
  l1 ≡ₚ l2 ->
  (forall a b, a ∈ l1 -> b ∈ l1 -> cmp_le a b -> cmp_le b a -> a = b) ->
  sort_by l1 = sort_by l2.
Proof.
  intros Hp Hanti. apply sorted_perm_unique; [|apply sort_by_sorted..|].
  - by rewrite !sort_by_perm.
  - intros a b. rewrite sort_by_perm. apply Hanti.
Qed.
End sort_by.
