(* ===== verification/Decimal.v ===== *)
(** * Decimals

    The interface of the decimal type the program computes with.  The type
    itself comes from the crate [rust_decimal], which is not part of the
    sources, so it is a parameter: [DecimalOps] names the operations the program
    calls and [DecimalLaws] what the crate documents of them.  A value is a
    96-bit integer mantissa and a scale of at most 28 decimal places; [units]
    is the value counted in units of [10^-28], so that all reasoning is in [Z].

    [dec_instance] is a concrete implementation of the interface.  It shows the
    laws can hold together and lets the definitions of the development run. *)

From S2P Require Import Prelude.
From Stdlib Require Import Znumtheory.
Open Scope Z_scope.

(** [z] units are the value of some mantissa and scale. *)
Definition representable (z : Z) : Prop :=
  exists m s, 0 <= s <= 28 /\ Z.abs m < 2 ^ 96 /\ z = m * 10 ^ (28 - s).

(** Nearest integer, halves to even. *)
Definition round_half_even (z d : Z) : Z :=
  let q := z / d in
  let r := z mod d in
  match Z.compare (2 * r) d with
  | Lt => q
  | Gt => q + 1
  | Eq => if Z.even q then q else q + 1
  end.

Class DecimalOps (D : Type) := {
  units : D -> Z;
  dec_zero : D;
  dec_of_Z : Z -> D;
  dec_cmp : D -> D -> comparison;
  dec_add : D -> D -> option D;
  dec_sub : D -> D -> option D;
  dec_mul : D -> D -> option D;
  dec_div : D -> D -> option D;
  dec_rem : D -> D -> option D;
  dec_round_dp : D -> Z -> D;
  dec_normalize : D -> D;
  dec_trunc : D -> D;
  dec_fract : D -> D;
  dec_scale : D -> Z;
  dec_is_sign_negative : D -> bool;
  dec_to_i128 : D -> option Z;
  dec_to_string : D -> Str;
  dec_new : Z -> Z -> D
}.

(** [None] is the overflow (or zero divisor) on which the operator panics and
    its [checked_] variant returns [None]. *)
Class DecimalLaws (D : Type) `{DecimalOps D} := {
  units_representable : forall a, representable (units a);
  units_zero : units dec_zero = 0;
  units_of_Z : forall z, Z.abs z < 2 ^ 96 -> units (dec_of_Z z) = z * 10 ^ 28;
  dec_cmp_units : forall a b, dec_cmp a b = Z.compare (units a) (units b);
  dec_add_exact : forall a b, representable (units a + units b) ->
    exists c, dec_add a b = Some c /\ units c = units a + units b;
  dec_sub_exact : forall a b, representable (units a - units b) ->
    exists c, dec_sub a b = Some c /\ units c = units a - units b;
  dec_mul_exact : forall a b q, representable q -> q * 10 ^ 28 = units a * units b ->
    exists c, dec_mul a b = Some c /\ units c = q;
  dec_mul_overflow : forall a b, 2 ^ 96 * 10 ^ 56 <= Z.abs (units a * units b) ->
    dec_mul a b = None;
  dec_div_exact : forall a b q, units b <> 0 -> representable q ->
    q * units b = units a * 10 ^ 28 ->
    exists c, dec_div a b = Some c /\ units c = q;
  dec_rem_exact : forall a b, units b <> 0 ->
    exists c, dec_rem a b = Some c /\ units c = Z.rem (units a) (units b);
  dec_round_dp_units : forall a n, 0 <= n <= 28 ->
    units (dec_round_dp a n) = round_half_even (units a) (10 ^ (28 - n)) * 10 ^ (28 - n);
  dec_normalize_units : forall a, units (dec_normalize a) = units a;
  dec_normalize_canonical : forall a b, units a = units b -> dec_normalize a = dec_normalize b;
  dec_trunc_units : forall a, units (dec_trunc a) = Z.quot (units a) (10 ^ 28) * 10 ^ 28;
  dec_fract_units : forall a, units (dec_fract a) = Z.rem (units a) (10 ^ 28);
  dec_scale_range : forall a, 0 <= dec_scale a <= 28;
  dec_scale_zero : forall a, dec_scale a = 0 -> Z.rem (units a) (10 ^ 28) = 0;
  dec_sign_negative : forall a, units a < 0 -> dec_is_sign_negative a = true;
  dec_sign_positive : forall a, 0 < units a -> dec_is_sign_negative a = false;
  dec_to_i128_units : forall a, dec_to_i128 a = Some (Z.quot (units a) (10 ^ 28));
  dec_new_units : forall m s, Z.abs m < 2 ^ 63 -> 0 <= s <= 28 -> units (dec_new m s) = m * 10 ^ (28 - s)
}.

(** ** Operations derived from the interface, as the traits derive them *)

Section derived.
Context {D : Type} `{!DecimalOps D}.

Definition dec_ltb (a b : D) : bool := match dec_cmp a b with Lt => true | _ => false end.
Definition dec_leb (a b : D) : bool := match dec_cmp a b with Gt => false | _ => true end.
Definition dec_gtb (a b : D) : bool := dec_ltb b a.
Definition dec_geb (a b : D) : bool := dec_leb b a.
Definition dec_eqb (a b : D) : bool := match dec_cmp a b with Eq => true | _ => false end.
Definition dec_is_zero (a : D) : bool := dec_eqb a dec_zero.

(** [Ord::min] keeps its receiver on a tie. *)
Definition dec_min (a b : D) : D := if dec_ltb b a then b else a.

(** The iterator's [sum]: additions from zero, left to right. *)
Definition dec_sum (l : list D) : outcome D :=
  foldM (fun acc x => or_panic (dec_add acc x)) dec_zero l.
End derived.

(** ** Values of eight decimal places

    [dp8 d] holds of a decimal with at most eight decimal places; [eighths d] is
    its value in units of [10^-8].  Values of the program stay far below the
    96-bit capacity of the mantissa, where addition is exact. *)

Definition ULP : Z := 10 ^ 20.

Section dp8.
Context {D : Type} `{!DecimalOps D}.

Definition dp8 (d : D) : Prop := (ULP | units d).
Definition eighths (d : D) : Z := units d / ULP.
End dp8.

Lemma ULP_pos : 0 < ULP.
Proof. reflexivity. Qed.

Lemma representable_dp8 z : (ULP | z) -> Z.abs z < 2 ^ 96 * ULP -> representable z.
Proof.
  intros [k ->] Hb. exists k, 8. split; [lia|]. split; [|reflexivity].
  rewrite Z.abs_mul in Hb. pose proof ULP_pos. nia.
Qed.

Lemma representable_dp9 z : (10 ^ 19 | z) -> Z.abs z < 2 ^ 96 * 10 ^ 19 -> representable z.
Proof.
  intros [k ->] Hb. exists k, 9. split; [lia|]. split; [|reflexivity].
  rewrite Z.abs_mul in Hb. assert (0 < 10 ^ 19) by reflexivity. nia.
Qed.

(** Rounding stays between two multiples of the rounding unit. *)
Lemma round_half_even_bounds z d lo hi :
  0 < d -> lo * d <= z <= hi * d -> lo <= round_half_even z d <= hi.
Proof.
  intros Hd Hz. unfold round_half_even.
  pose proof (Z.div_mod z d ltac:(lia)) as Hdm.
  pose proof (Z.mod_pos_bound z d Hd) as Hm.
  assert (lo <= z / d) by (apply Z.div_le_lower_bound; lia).
  assert (z / d <= hi) by (apply Z.div_le_upper_bound; lia).
  assert (0 < z mod d -> z / d < hi) by nia.
  destruct (Z.compare_spec (2 * (z mod d)) d); [destruct (Z.even _)|..]; lia.
Qed.

Section dec_lemmas.
Context {D : Type} `{!DecimalOps D, !DecimalLaws D}.
Implicit Types a b d : D.

Lemma dec_ltb_spec a b : dec_ltb a b = true <-> units a < units b.
Proof. unfold dec_ltb. rewrite dec_cmp_units. destruct (Z.compare_spec (units a) (units b)); split; (done || lia). Qed.

Lemma dec_ltb_ge a b : dec_ltb a b = false <-> units b <= units a.
Proof. unfold dec_ltb. rewrite dec_cmp_units. destruct (Z.compare_spec (units a) (units b)); split; (done || lia). Qed.

Lemma dec_leb_spec a b : dec_leb a b = true <-> units a <= units b.
Proof. unfold dec_leb. rewrite dec_cmp_units. destruct (Z.compare_spec (units a) (units b)); split; (done || lia). Qed.

Lemma dec_leb_gt a b : dec_leb a b = false <-> units b < units a.
Proof. unfold dec_leb. rewrite dec_cmp_units. destruct (Z.compare_spec (units a) (units b)); split; (done || lia). Qed.

Lemma dec_eqb_spec a b : dec_eqb a b = true <-> units a = units b.
Proof. unfold dec_eqb. rewrite dec_cmp_units. destruct (Z.compare_spec (units a) (units b)); split; (done || lia). Qed.

Lemma dec_eqb_neq a b : dec_eqb a b = false <-> units a <> units b.
Proof. unfold dec_eqb. rewrite dec_cmp_units. destruct (Z.compare_spec (units a) (units b)); split; (done || lia). Qed.

Lemma units_min a b : units (dec_min a b) = Z.min (units a) (units b).
Proof. unfold dec_min. destruct (dec_ltb b a) eqn:E; [apply dec_ltb_spec in E|apply dec_ltb_ge in E]; lia. Qed.

Lemma dec_add_dp8 a b :
  dp8 a -> dp8 b -> Z.abs (units a + units b) < 2 ^ 96 * ULP ->
  exists c, dec_add a b = Some c /\ units c = units a + units b.
Proof. intros Ha Hb Hs. apply dec_add_exact, representable_dp8; [by apply Z.divide_add_r|done]. Qed.

Lemma dec_sub_dp8 a b :
  dp8 a -> dp8 b -> Z.abs (units a - units b) < 2 ^ 96 * ULP ->
  exists c, dec_sub a b = Some c /\ units c = units a - units b.
Proof. intros Ha Hb Hs. apply dec_sub_exact, representable_dp8; [by apply Z.divide_sub_r|done]. Qed.

Lemma dp8_min a b : dp8 a -> dp8 b -> dp8 (dec_min a b).
Proof. unfold dp8. rewrite units_min. intros. destruct (Z.min_spec (units a) (units b)) as [[_ ->]|[_ ->]]; done. Qed.

Lemma dp8_units_eq a b : units a = units b -> dp8 a -> dp8 b.
Proof. unfold dp8. by intros ->. Qed.
End dec_lemmas.

(** ** Sums *)

Definition zsum (l : list Z) : Z := foldr Z.add 0 l.

Lemma zsum_app l1 l2 : zsum (l1 ++ l2) = zsum l1 + zsum l2.
Proof. induction l1; simpl; lia. Qed.

Lemma zsum_nonneg l : Forall (fun z => 0 <= z) l -> 0 <= zsum l.
Proof. induction 1; simpl; lia. Qed.

#[export] Instance zsum_perm : Proper ((≡ₚ) ==> (=)) zsum.
Proof. intros l1 l2 Hp. induction Hp; simpl; lia. Qed.

Lemma zsum_bound l b :
  Forall (fun z => 0 <= z <= b) l -> 0 <= zsum l <= Z.of_nat (length l) * b.
Proof. induction 1; simpl length; simpl; lia. Qed.

Section dec_sum.
Context {D : Type} `{!DecimalOps D, !DecimalLaws D}.

(** A sum of eight-place non-negative values below the mantissa's capacity does
    not panic and is exact. *)
Lemma dec_sum_exact (l : list D) :
  Forall dp8 l -> Forall (fun d => 0 <= units d) l ->
  zsum (map units l) < 2 ^ 96 * ULP ->
  exists c, dec_sum l = Ret c /\ units c = zsum (map units l) /\ dp8 c.
Proof.
  unfold dec_sum. intros Hdp Hnn Hb.
  cut (forall acc : D, dp8 acc -> 0 <= units acc ->
    units acc + zsum (map units l) < 2 ^ 96 * ULP ->
    exists c, foldM (fun acc x => or_panic (dec_add acc x)) acc l = Ret c /\
      units c = units acc + zsum (map units l) /\ dp8 c).
  { intros Hcut. destruct (Hcut dec_zero) as (c & ? & Hc & ?).
    - unfold dp8. rewrite units_zero. apply Z.divide_0_r.
    - rewrite units_zero; lia.
    - rewrite units_zero; lia.
    - exists c. rewrite units_zero in Hc. split_and!; [done|lia|done]. }
  clear Hb. induction l as [|x l IH]; intros acc Hacc Hacc0 Hb; simpl in *.
  { exists acc. split_and!; [done|lia|done]. }
  apply Forall_cons in Hdp as [Hx Hdp], Hnn as [Hx0 Hnn].
  assert (0 <= zsum (map units l)) by (by apply zsum_nonneg, Forall_map).
  destruct (dec_add_dp8 acc x) as (c & Hadd & Hc); [done..|lia|].
  rewrite Hadd; simpl.
  destruct (IH Hdp Hnn c) as (c' & ? & ? & ?); [|lia..|].
  - unfold dp8. rewrite Hc. by apply Z.divide_add_r.
  - exists c'. split_and!; [done|lia|done].
Qed.
End dec_sum.

(** ** A concrete implementation

    A decimal is its count of units; counts that are not representable are read
    as zero. *)

(** [existsb] that stops at the first hit when run. *)
Fixpoint exists_first {A} (f : A -> bool) (l : list A) : bool :=
  match l with
  | [] => false
  | x :: l' => if f x then true else exists_first f l'
  end.

Lemma exists_first_eq {A} (f : A -> bool) l : exists_first f l = existsb f l.
Proof. induction l as [|x l IH]; simpl; [done|]. by destruct (f x). Qed.

Definition representableb (z : Z) : bool :=
  exists_first (fun s => (z mod 10 ^ (28 - Z.of_nat s) =? 0) && (Z.abs (z / 10 ^ (28 - Z.of_nat s)) <? 2 ^ 96))%bool
    (seq 0 29).

Lemma representableb_spec z : representableb z = true <-> representable z.
Proof.
  unfold representableb. rewrite exists_first_eq, existsb_exists. split.
  - intros (s & Hs & Hz). apply in_seq in Hs. apply andb_true_iff in Hz as [Hz Hb].
    exists (z / 10 ^ (28 - Z.of_nat s)), (Z.of_nat s).
    split; [lia|]. split; [lia|].
    apply Z.eqb_eq in Hz. rewrite Z.mul_comm. apply Z.div_exact; [|done].
    apply Z.pow_nonzero; lia.
  - intros (m & s & Hs & Hm & ->). exists (Z.to_nat s). split; [apply in_seq; lia|].
    rewrite Z2Nat.id by lia.
    assert (10 ^ (28 - s) <> 0) by (apply Z.pow_nonzero; lia).
    rewrite Z.mod_mul, Z.div_mul by done. simpl. lia.
Qed.

Definition dec_units (z : Z) : Z := if representableb z then z else 0.

Definition dec_make (z : Z) : option Z := if representableb z then Some z else None.

#[export] Instance dec_instance : DecimalOps Z := {|
  units := dec_units;
  dec_zero := 0;
  dec_of_Z z := z * 10 ^ 28;
  dec_cmp a b := Z.compare (dec_units a) (dec_units b);
  dec_add a b := dec_make (dec_units a + dec_units b);
  dec_sub a b := dec_make (dec_units a - dec_units b);
  dec_mul a b := let p := dec_units a * dec_units b in
    if (p mod 10 ^ 28 =? 0)%Z then dec_make (p / 10 ^ 28) else None;
  dec_div a b := if (dec_units b =? 0)%Z then None
    else let p := dec_units a * 10 ^ 28 in
      if (p mod dec_units b =? 0)%Z then dec_make (p / dec_units b) else None;
  dec_rem a b := if (dec_units b =? 0)%Z then None else Some (Z.rem (dec_units a) (dec_units b));
  dec_round_dp a n := round_half_even (dec_units a) (10 ^ (28 - n)) * 10 ^ (28 - n);
  dec_normalize a := dec_units a;
  dec_trunc a := Z.quot (dec_units a) (10 ^ 28) * 10 ^ 28;
  dec_fract a := Z.rem (dec_units a) (10 ^ 28);
  dec_scale a := if (Z.rem (dec_units a) (10 ^ 28) =? 0)%Z then 0 else 28;
  dec_is_sign_negative a := (dec_units a <? 0)%Z;
  dec_to_i128 a := Some (Z.quot (dec_units a) (10 ^ 28));
  dec_to_string a := [dec_units a];
  dec_new m s := m * 10 ^ (28 - s)
|}.

Lemma dec_units_repr z : representable (dec_units z).
Proof.
  unfold dec_units. destruct (representableb z) eqn:E; [by apply representableb_spec|].
  exists 0, 0. lia.
Qed.

Lemma dec_units_id z : representable z -> dec_units z = z.
Proof. intros Hz%representableb_spec. unfold dec_units. by rewrite Hz. Qed.

Lemma dec_make_repr z : representable z -> exists c, dec_make z = Some c /\ dec_units c = z.
Proof.
  intros Hz. exists z. split; [|by apply dec_units_id].
  unfold dec_make. by rewrite (proj2 (representableb_spec z) Hz).
Qed.

Lemma representable_int z : Z.abs z < 2 ^ 96 -> representable (z * 10 ^ 28).
Proof. intros Hz. exists z, 0. split_and!; [lia..|done|reflexivity]. Qed.

Lemma representable_trunc z : representable z -> representable (Z.quot z (10 ^ 28) * 10 ^ 28).
Proof.
  intros (m & s & Hs & Hm & ->). apply representable_int.
  assert (0 < 10 ^ (28 - s)) by (apply Z.pow_pos_nonneg; lia).
  assert (10 ^ (28 - s) <= 10 ^ 28) by (apply Z.pow_le_mono_r; lia).
  rewrite <- Z.quot_abs, (Z.abs_eq (10 ^ 28)), Z.abs_mul, (Z.abs_eq (10 ^ (28 - s))) by lia.
  eapply Z.le_lt_trans; [|exact Hm]. rewrite Z.quot_div_nonneg by nia.
  apply Z.div_le_upper_bound; nia.
Qed.

Lemma representable_small z : Z.abs z < 2 ^ 96 -> representable z.
Proof. intros Hz. exists z, 28. split_and!; [lia..|done|]. change (10 ^ (28 - 28)) with 1. lia. Qed.

Lemma representable_rem a b : representable a -> representable b -> representable (Z.rem a b).
Proof.
  intros (m & s & Hs & Hm & ->) (n & t & Ht & Hn & ->).
  destruct (Z.eq_dec n 0) as [->|Hn0].
  { rewrite Z.mul_0_l, Z.rem_0_r_ext by done. by exists m, s. }
  pose proof (Z.pow_pos_nonneg 10 (28 - s) ltac:(lia) ltac:(lia)).
  pose proof (Z.pow_pos_nonneg 10 (28 - t) ltac:(lia) ltac:(lia)).
  destruct (Z.le_gt_cases s t) as [Hle|Hlt].
  - replace (10 ^ (28 - s)) with (10 ^ (t - s) * 10 ^ (28 - t))
      by (rewrite <- Z.pow_add_r by lia; f_equal; lia).
    rewrite Z.mul_assoc, Z.mul_rem_distr_r by lia.
    exists (Z.rem (m * 10 ^ (t - s)) n), t. split; [lia|]. split; [|done].
    pose proof (Z.rem_bound_abs (m * 10 ^ (t - s)) n Hn0). lia.
  - replace (10 ^ (28 - t)) with (10 ^ (s - t) * 10 ^ (28 - s))
      by (rewrite <- Z.pow_add_r by lia; f_equal; lia).
    pose proof (Z.pow_pos_nonneg 10 (s - t) ltac:(lia) ltac:(lia)).
    rewrite Z.mul_assoc, Z.mul_rem_distr_r by nia.
    exists (Z.rem m (n * 10 ^ (s - t))), s. split; [lia|]. split; [|done].
    pose proof (Z.rem_le (Z.abs m) (Z.abs (n * 10 ^ (s - t)))).
    rewrite <- Z.rem_abs by nia. nia.
Qed.

Lemma round_half_even_multiple k d : 0 < d -> round_half_even (k * d) d = k.
Proof. intros Hd. pose proof (round_half_even_bounds (k * d) d k k Hd). lia. Qed.

Lemma representable_round a n : 0 <= n <= 28 -> representable a ->
  representable (round_half_even a (10 ^ (28 - n)) * 10 ^ (28 - n)).
Proof.
  intros Hn (m & s & Hs & Hm & ->).
  pose proof (Z.pow_pos_nonneg 10 (28 - n) ltac:(lia) ltac:(lia)).
  pose proof (Z.pow_pos_nonneg 10 (28 - s) ltac:(lia) ltac:(lia)).
  destruct (Z.le_gt_cases s n) as [Hle|Hlt].
  - replace (10 ^ (28 - s)) with (10 ^ (n - s) * 10 ^ (28 - n))
      by (rewrite <- Z.pow_add_r by lia; f_equal; lia).
    rewrite Z.mul_assoc, round_half_even_multiple by lia.
    exists m, s. split; [lia|]. split; [done|].
    rewrite <- Z.mul_assoc, <- Z.pow_add_r by lia. do 2 f_equal. lia.
  - exists (round_half_even (m * 10 ^ (28 - s)) (10 ^ (28 - n))), n.
    split; [lia|]. split; [|done].
    pose proof (round_half_even_bounds (m * 10 ^ (28 - s)) (10 ^ (28 - n))
      (- Z.abs m) (Z.abs m) ltac:(lia)) as Hb.
    pose proof (Z.pow_le_mono_r 10 (28 - s) (28 - n) ltac:(lia) ltac:(lia)).
    assert (- Z.abs m <= round_half_even (m * 10 ^ (28 - s)) (10 ^ (28 - n)) <= Z.abs m)
      by (apply Hb; nia). lia.
Qed.

#[export] Instance dec_laws : DecimalLaws Z.
Proof.
  split; simpl; intros.
  - apply dec_units_repr.
  - reflexivity.
  - by apply dec_units_id, representable_int.
  - reflexivity.
  - by apply dec_make_repr.
  - by apply dec_make_repr.
  - rewrite <- H0, Z.mod_mul, Z.div_mul by done. simpl. by apply dec_make_repr.
  - unfold dec_make. destruct (Z.eqb_spec ((dec_units a * dec_units b) mod 10 ^ 28) 0); [|done].
    destruct (representableb _) eqn:E; [|done]. exfalso.
    apply representableb_spec in E as (m & s & Hs & Hm & Hz).
    pose proof (Z.div_exact (dec_units a * dec_units b) (10 ^ 28) ltac:(done)) as [_ Hd].
    specialize (Hd e). rewrite Hz in Hd.
    pose proof (Z.pow_pos_nonneg 10 (28 - s) ltac:(lia) ltac:(lia)).
    pose proof (Z.pow_le_mono_r 10 (28 - s) 28 ltac:(lia) ltac:(lia)).
    rewrite Hd, !Z.abs_mul in H.
    rewrite (Z.abs_eq (10 ^ 28)), (Z.abs_eq (10 ^ (28 - s))) in H by lia.
    change (10 ^ 56) with (10 ^ 28 * 10 ^ 28) in H. nia.
  - destruct (Z.eqb_spec (dec_units b) 0); [done|].
    rewrite <- H1, Z.mod_mul, Z.div_mul by done. simpl. by apply dec_make_repr.
  - destruct (Z.eqb_spec (dec_units b) 0); [done|]. eexists; split; [done|].
    apply dec_units_id, representable_rem; apply dec_units_repr.
  - apply dec_units_id, representable_round; [done|apply dec_units_repr].
  - apply dec_units_id, dec_units_repr.
  - done.
  - apply dec_units_id, representable_trunc, dec_units_repr.
  - apply dec_units_id, representable_rem; [apply dec_units_repr|].
    by apply representable_small.
  - destruct (_ =? _); lia.
  - destruct (Z.eqb_spec (Z.rem (dec_units a) (10 ^ 28)) 0); [done|lia].
  - lia.
  - lia.
  - done.
  - apply dec_units_id. exists m, s. split_and!; [lia..|done].
Qed.
