(* ===== verification/Types.v ===== *)
(** * Types shared by the crates

    The data of [dp-types]: sides, orders, fills, event types, errors, and the
    canonical form of a trading pair ([pair.rs]). *)

From S2P Require Import Prelude Decimal.
Open Scope Z_scope.

(** Identifiers are the 128-bit values of a [Uuid]; an address is its twenty
    bytes; an instant is its nanoseconds since the epoch, and the epoch is the
    default instant. *)
Notation Uuid := Z.
Notation Address := (list Z).
Notation DateTime := Z.

Definition nil_uuid : Uuid := 0.
Definition default_time : DateTime := 0.

Inductive Side := Buy | Sell.

#[export] Instance Side_eq_dec : EqDecision Side.
Proof. solve_decision. Defined.

Definition canonical_str (s : Side) : Str :=
  match s with Buy => str "0" | Sell => str "1" end.

Definition side_display (s : Side) : Str :=
  match s with Buy => str "BUY" | Sell => str "SELL" end.

Record Order (D : Type) := mkOrder {
  o_id : Uuid;
  o_trader : Address;
  o_pair : Str;
  o_side : Side;
  o_price : D;
  o_size : D;
  o_remaining_size : D;
  o_commitment_key : Str;
  o_encrypted_payload : bytes;
  o_submitted_at : DateTime;
  o_expires_at : DateTime;
  o_seq : Z
}.
Arguments mkOrder {D}.
Arguments o_id {D}.
Arguments o_trader {D}.
Arguments o_pair {D}.
Arguments o_side {D}.
Arguments o_price {D}.
Arguments o_size {D}.
Arguments o_remaining_size {D}.
Arguments o_commitment_key {D}.
Arguments o_encrypted_payload {D}.
Arguments o_submitted_at {D}.
Arguments o_expires_at {D}.
Arguments o_seq {D}.

(** An assignment to the field [remaining_size]. *)
Definition set_remaining {D} (o : Order D) (r : D) : Order D :=
  mkOrder (o_id o) (o_trader o) (o_pair o) (o_side o) (o_price o) (o_size o) r
    (o_commitment_key o) (o_encrypted_payload o) (o_submitted_at o) (o_expires_at o) (o_seq o).

(** The bounds the commitment encoding puts on every admitted order: eight
    decimal places and sixty bits. *)
Definition MAX_UNITS : Z := 2 ^ 60 * ULP.

Definition bounded_order {D} `{DecimalOps D} (o : Order D) : Prop :=
  dp8 (o_price o) /\ 0 < units (o_price o) < MAX_UNITS /\
  dp8 (o_remaining_size o) /\ 0 <= units (o_remaining_size o) < MAX_UNITS.

Record Fill (D : Type) := mkFill { fill_order_id : Uuid; fill_size : D }.
Arguments mkFill {D}.
Arguments fill_order_id {D}.
Arguments fill_size {D}.

Inductive EventType :=
| TOrderPlaced | TOrderCancelled | TOrderExpired | TAuctionExecuted
| TOrderMatched | TBatchSubmitted | TBatchConfirmed | TBatchSettled
| TPairRegistered | TPairSuspended | TPairDelisted | TBatchFolded.

#[export] Instance EventType_eq_dec : EqDecision EventType.
Proof. solve_decision. Defined.

(** The discriminants of the wire format. *)
Definition event_type_repr (t : EventType) : Z :=
  match t with
  | TOrderPlaced => 1 | TOrderCancelled => 2 | TOrderExpired => 3
  | TAuctionExecuted => 4 | TOrderMatched => 5 | TBatchSubmitted => 6
  | TBatchConfirmed => 7 | TBatchSettled => 8 | TPairRegistered => 9
  | TPairSuspended => 10 | TPairDelisted => 11 | TBatchFolded => 12
  end.

Inductive DarkPoolError :=
| PairRequired
| PriceMustBePositive
| SizeMustBePositive
| CommitmentKeyRequired
| LimitMustBePositive
| OrderNotFound
| PairNotRegistered (p : Str)
| PairNotAccepting (p : Str)
| OrderSizeBelowMinimum (p min : Str)
| OrderPriceNotOnTick (p tick : Str)
| InvalidPair (p : Str)
| PairAlreadyRegistered (p : Str)
| CannotSuspendDelistedPair (p : Str)
| TraderAddressMismatch (expected found : Str)
| DuplicateOrder
| SaltInvalid
| OrderNonceInvalid
| OrderExpiryInvalid
| OrderExpired
| OrderExpiryTooFar (max_seconds : Z)
| InvalidOrderProof
| EncryptedPayloadTooLarge (max : Z)
| TooManyRestingOrdersForTrader (max : Z)
| OrderBookCapacityExceeded (max : Z).

#[export] Instance DarkPoolError_eq_dec : EqDecision DarkPoolError.
Proof. solve_decision. Defined.

(** ** Trading pairs *)

Module Pair.

(** [char::is_whitespace]: the property White_Space of Unicode. *)
Definition is_whitespace (c : Z) : bool :=
  ((9 <=? c) && (c <=? 13)) || (c =? 32) || (c =? 133) || (c =? 160) || (c =? 5760)
  || ((8192 <=? c) && (c <=? 8202)) || (c =? 8232) || (c =? 8233) || (c =? 8239)
  || (c =? 8287) || (c =? 12288).

Fixpoint trim_start (s : Str) : Str :=
  match s with
  | c :: s' => if is_whitespace c then trim_start s' else s
  | [] => []
  end.

Definition trim (s : Str) : Str := reverse (trim_start (reverse (trim_start s))).

Definition to_ascii_uppercase_char (c : Z) : Z :=
  if (97 <=? c) && (c <=? 122) then c - 32 else c.

Definition to_ascii_uppercase (s : Str) : Str := map to_ascii_uppercase_char s.

Definition is_ascii_alphanumeric (c : Z) : bool :=
  ((48 <=? c) && (c <=? 57)) || ((65 <=? c) && (c <=? 90)) || ((97 <=? c) && (c <=? 122)).

(** The separators [/], [-] and [_]. *)
Definition is_sep (c : Z) : bool := (c =? 47) || (c =? 45) || (c =? 95).

(** [find] with a set of characters. *)
Fixpoint find_sep (s : Str) : option nat :=
  match s with
  | [] => None
  | c :: s' => if is_sep c then Some 0%nat else S <$> find_sep s'
  end.

Definition parse (input : Str) : result Str DarkPoolError :=
  let trimmed := trim input in
  if bool_decide (trimmed = []) then Err PairRequired
  else
    let upper := to_ascii_uppercase trimmed in
    match find_sep upper with
    | None => Err (InvalidPair input)
    | Some sep_idx =>
      let base := take sep_idx upper in
      let quote := drop 1 (drop sep_idx upper) in
      if bool_decide (base = []) || bool_decide (quote = []) then Err (InvalidPair input)
      else if forallb (fun c => is_ascii_alphanumeric c || is_sep c) upper
      then Ok upper
      else Err (InvalidPair input)
    end.

(** A character of a canonical pair. *)
Definition canonical_char (c : Z) : Prop :=
  48 <= c <= 57 \/ 65 <= c <= 90 \/ is_sep c = true.

(** The canonical form [parse] documents: uppercase letters, digits and
    separators, with a separator that splits it into two non-empty parts. *)
Definition canonical (p : Str) : Prop :=
  Forall canonical_char p /\
  exists base s quote, p = base ++ s :: quote /\ is_sep s = true /\ base <> [] /\ quote <> [] /\
    Forall (fun c => is_sep c = false) base.

Lemma is_sep_spec c : is_sep c = true <-> c = 47 \/ c = 45 \/ c = 95.
Proof. unfold is_sep. rewrite !orb_true_iff, !Z.eqb_eq. tauto. Qed.

Lemma find_sep_Some s i :
  find_sep s = Some i <->
  exists base c quote, s = base ++ c :: quote /\ is_sep c = true /\ length base = i /\
    Forall (fun c => is_sep c = false) base.
Proof.
  revert i; induction s as [|c s IH]; intros i; simpl.
  { split; [done|]. by intros ([|??] & ? & ? & ? & _). }
  destruct (is_sep c) eqn:Hc; split.
  - intros [= <-]. by exists [], c, s.
  - intros ([|b base] & c' & quote & [= -> ->] & Hc' & <- & Hf); [done|].
    by apply Forall_cons in Hf as [? _]; congruence.
  - intros (j & Hj & ->)%fmap_Some. apply IH in Hj as (base & c' & quote & -> & ? & <- & ?).
    exists (c :: base), c', quote. split_and!; auto.
  - intros ([|b base] & c' & quote & [= -> ->] & Hc' & <- & Hf); [congruence|].
    apply fmap_Some. exists (length base). split; [|done].
    apply Forall_cons in Hf as [_ Hf]. apply IH. eauto 10.
Qed.

Lemma canonical_char_not_ws c : canonical_char c -> is_whitespace c = false.
Proof. unfold canonical_char. rewrite is_sep_spec. unfold is_whitespace. lia. Qed.

Lemma trim_start_no_ws s : Forall (fun c => is_whitespace c = false) s -> trim_start s = s.
Proof. destruct 1 as [|c s Hc Hs]; simpl; [done|by rewrite Hc]. Qed.

Lemma trim_no_ws s : Forall (fun c => is_whitespace c = false) s -> trim s = s.
Proof.
  intros Hs. unfold trim. rewrite (trim_start_no_ws s Hs), trim_start_no_ws.
  - by rewrite reverse_involutive.
  - by apply Forall_reverse.
Qed.

Lemma upper_canonical_char c :
  is_ascii_alphanumeric (to_ascii_uppercase_char c) || is_sep (to_ascii_uppercase_char c) = true <->
  canonical_char (to_ascii_uppercase_char c).
Proof.
  unfold canonical_char. rewrite orb_true_iff, is_sep_spec.
  unfold is_ascii_alphanumeric, to_ascii_uppercase_char.
  destruct ((97 <=? c) && (c <=? 122)) eqn:E; lia.
Qed.

Lemma upper_of_canonical p : Forall canonical_char p -> to_ascii_uppercase p = p.
Proof.
  induction 1 as [|c p Hc Hp IH]; simpl; [done|]. f_equal; [|done].
  unfold canonical_char in Hc. rewrite is_sep_spec in Hc.
  unfold to_ascii_uppercase_char. destruct ((97 <=? c) && (c <=? 122)) eqn:E; lia.
Qed.

Lemma forallb_upper s :
  forallb (fun c => is_ascii_alphanumeric c || is_sep c) (to_ascii_uppercase s) = true <->
  Forall canonical_char (to_ascii_uppercase s).
Proof.
  induction s as [|c s IH]; simpl; [by split|].
  rewrite andb_true_iff, Forall_cons, upper_canonical_char. tauto.
Qed.

(** [parse] accepts exactly the inputs whose trimmed uppercase form is canonical. *)
Lemma parse_Ok input p :
  parse input = Ok p <-> canonical p /\ p = to_ascii_uppercase (trim input).
Proof.
  unfold parse, canonical. case_bool_decide as Ht.
  { split; [done|]. intros [(_ & base & s & q & Hp & _) ->]. rewrite Ht in Hp. by destruct base. }
  pose proof (forallb_upper (trim input)) as Hall. revert Hall.
  generalize (to_ascii_uppercase (trim input)) as u. intros u Hall.
  destruct (find_sep u) as [i|] eqn:Hf.
  - pose proof Hf as (base & s & quote & -> & Hs & <- & Hb)%find_sep_Some.
    rewrite take_app_length, drop_app_length; simpl. rewrite drop_0.
    destruct (forallb _ _) eqn:E; [|destruct (_ || _); (split; [done|]); intros [[? _] ->]; exfalso; by apply Hall in H].
    assert (Forall canonical_char (base ++ s :: quote)) by tauto.
    destruct (bool_decide (base = [])) eqn:E1; [|destruct (bool_decide (quote = [])) eqn:E2]; simpl.
    3: { apply bool_decide_eq_false in E1, E2. split; [intros [= <-]|intros [_ ->]; done]. eauto 15. }
    all: split; [done|]; intros [(_ & base' & s' & q' & -> & Hs' & Hb' & Hq' & Hnb) Hp].
    all: assert (find_sep (base' ++ s' :: q') = Some (length base')) as Hf'
          by (apply find_sep_Some; eauto 10).
    all: rewrite Hp, Hf in Hf'; injection Hf' as Hl; apply app_inj_1 in Hp as [-> [= -> ->]]; [|done].
    all: by rewrite ?bool_decide_eq_true in *.
  - split; [done|]. intros [(_ & base & s & q & Hp & Hs & _ & _ & Hnb) ->].
    assert (find_sep u = Some (length base)); [|congruence].
    apply find_sep_Some. eauto 10.
Qed.

Lemma canonical_parse p : canonical p -> parse p = Ok p.
Proof.
  intros Hp. apply parse_Ok. split; [done|]. destruct Hp as [Hall _].
  rewrite trim_no_ws.
  - by rewrite upper_of_canonical.
  - eapply Forall_impl; [exact Hall|]. apply canonical_char_not_ws.
Qed.

End Pair.
