(* ===== verification/Auction.v ===== *)
(** * The batch auction

    [dp-auction/src/lib.rs]: a uniform-price auction over the resting orders of
    one pair.  The clearing price maximises the executable volume; matching is
    greedy under strict price-time priority and skips self-trades. *)

From S2P Require Import Prelude Decimal Types.
Open Scope Z_scope.

Definition CLEARING_PRICE_DP : Z := 8.

Record Match (D : Type) := mkMatch {
  match_bid_fill : Fill D;
  match_ask_fill : Fill D;
  match_price : D;
  match_size : D
}.
Arguments mkMatch {D}.
Arguments match_bid_fill {D}.
Arguments match_ask_fill {D}.
Arguments match_price {D}.
Arguments match_size {D}.

Record AuctionResult (D : Type) := mkAuctionResult {
  auction_id : Uuid;
  auction_pair : Str;
  clearing_price : D;
  matched_volume : D;
  matches : list (Match D)
}.
Arguments mkAuctionResult {D}.
Arguments auction_id {D}.
Arguments auction_pair {D}.
Arguments clearing_price {D}.
Arguments matched_volume {D}.
Arguments matches {D}.

Section auction.
Context {D : Type} `{!DecimalOps D}.
Implicit Types (o bid ask : Order D) (p : D).

(** [Ordering::then]. *)
Definition cmp_then (c1 c2 : comparison) : comparison :=
  match c1 with Eq => c2 | _ => c1 end.

(** Best price first, then earliest placement. *)
Definition bid_cmp (a b : Order D) : comparison :=
  cmp_then (dec_cmp (o_price b) (o_price a)) (Z.compare (o_seq a) (o_seq b)).

Definition ask_cmp (a b : Order D) : comparison :=
  cmp_then (dec_cmp (o_price a) (o_price b)) (Z.compare (o_seq a) (o_seq b)).

Definition cumulative_volume (orders : list (Order D)) (pred : Order D -> bool) : outcome D :=
  dec_sum (map o_remaining_size (List.filter pred orders)).

(** Insertion into a [BTreeSet]: ascending, an equal element is kept. *)
Fixpoint btree_insert (p : D) (s : list D) : list D :=
  match s with
  | [] => [p]
  | q :: s' => match dec_cmp p q with
               | Lt => p :: s
               | Eq => s
               | Gt => q :: btree_insert p s'
               end
  end.

Definition candidate_prices (bids asks : list (Order D)) : list D :=
  fold_left (fun s o => btree_insert (o_price o) s) asks
    (fold_left (fun s o => btree_insert (o_price o) s) bids []).

(** One candidate of the loop: the best volume so far and the prices tied at it. *)
Definition clearing_step (bids asks : list (Order D)) (st : D * list D) (p : D) : outcome (D * list D) :=
  let '(best_volume, tied_prices) := st in
  bid_vol ← cumulative_volume bids (fun o => dec_geb (o_price o) p);
  ask_vol ← cumulative_volume asks (fun o => dec_leb (o_price o) p);
  let matched := dec_min bid_vol ask_vol in
  if dec_gtb matched best_volume then Ret (matched, [p])
  else if dec_eqb matched best_volume && dec_gtb matched dec_zero
  then Ret (best_volume, tied_prices ++ [p])
  else Ret (best_volume, tied_prices).

Definition midpoint (lo hi : D) : outcome D :=
  sum ← or_panic (dec_add lo hi);
  half ← or_panic (dec_div sum (dec_of_Z 2));
  Ret (dec_normalize (dec_round_dp half CLEARING_PRICE_DP)).

Definition compute_clearing_price (bids asks : list (Order D)) : outcome D :=
  st ← foldM (clearing_step bids asks) (dec_zero, []) (candidate_prices bids asks);
  match snd st with
  | [] => Ret dec_zero
  | lo :: rest => midpoint lo (List.last (lo :: rest) lo)
  end.

(** The inner loop: one bid against the asks in priority order. *)
Fixpoint match_bid (p : D) (bid : Order D) (asks : list (Order D)) :
    outcome (Order D * list (Order D) * list (Match D)) :=
  match asks with
  | [] => Ret (bid, [], [])
  | ask :: rest =>
    if dec_leb (o_remaining_size bid) dec_zero then Ret (bid, asks, [])
    else if dec_leb (o_remaining_size ask) dec_zero then
      '(bid', rest', ms) ← match_bid p bid rest; Ret (bid', ask :: rest', ms)
    else if bool_decide (o_trader bid = o_trader ask) then
      '(bid', rest', ms) ← match_bid p bid rest; Ret (bid', ask :: rest', ms)
    else
      let fill := dec_min (o_remaining_size bid) (o_remaining_size ask) in
      let m := mkMatch (mkFill (o_id bid) fill) (mkFill (o_id ask) fill) p fill in
      bid_rem ← or_panic (dec_sub (o_remaining_size bid) fill);
      ask_rem ← or_panic (dec_sub (o_remaining_size ask) fill);
      '(bid', rest', ms) ← match_bid p (set_remaining bid bid_rem) rest;
      Ret (bid', set_remaining ask ask_rem :: rest', m :: ms)
  end.

(** The outer loop: the bids in priority order. *)
Fixpoint match_bids (p : D) (bids asks : list (Order D)) :
    outcome (list (Order D) * list (Order D) * list (Match D)) :=
  match bids with
  | [] => Ret ([], asks, [])
  | bid :: rest =>
    '(bid', asks1, ms1) ← match_bid p bid asks;
    '(rest', asks2, ms2) ← match_bids p rest asks1;
    Ret (bid' :: rest', asks2, ms1 ++ ms2)
  end.

Definition eligible_bids (bids : list (Order D)) (p : D) : list (Order D) :=
  List.filter (fun b => dec_geb (o_price b) p && dec_gtb (o_remaining_size b) dec_zero) bids.

Definition eligible_asks (asks : list (Order D)) (p : D) : list (Order D) :=
  List.filter (fun a => dec_leb (o_price a) p && dec_gtb (o_remaining_size a) dec_zero) asks.

Definition match_orders (bids asks : list (Order D)) (p : D) : outcome (list (Match D)) :=
  '(_, _, ms) ← match_bids p (eligible_bids bids p) (eligible_asks asks p);
  Ret ms.

Definition run (aid : Uuid) (pr : Str) (bids asks : list (Order D)) : outcome (option (AuctionResult D)) :=
  match bids, asks with
  | [], _ | _, [] => Ret None
  | _, _ =>
    match sort_by bid_cmp bids, sort_by ask_cmp asks with
    | (best_bid :: _) as bids, (best_ask :: _) as asks =>
      if dec_ltb (o_price best_bid) (o_price best_ask) then Ret None
      else
        cp ← compute_clearing_price bids asks;
        if dec_leb cp dec_zero then Ret None
        else
          ms ← match_orders bids asks cp;
          match ms with
          | [] => Ret None
          | _ :: _ =>
            vol ← dec_sum (map match_size ms);
            Ret (Some (mkAuctionResult aid pr cp vol ms))
          end
    | _, _ => Panic
    end
  end.
End auction.

(** ** What the auction promises, in units

    [demand] and [supply] are the volumes bid at or above a price and offered at
    or below it; [executable] is the volume that could trade at it. *)

Section spec.
Context {D : Type} `{!DecimalOps D}.
Implicit Types (o bid ask : Order D).

Definition rem_units (o : Order D) : Z := units (o_remaining_size o).

Definition demand (bids : list (Order D)) (z : Z) : Z :=
  zsum (map rem_units (List.filter (fun o => z <=? units (o_price o)) bids)).

Definition supply (asks : list (Order D)) (z : Z) : Z :=
  zsum (map rem_units (List.filter (fun o => units (o_price o) <=? z) asks)).

Definition executable (bids asks : list (Order D)) (z : Z) : Z :=
  Z.min (demand bids z) (supply asks z).

(** A side of the book the auction can compute with: bounded orders, and few
    enough of them that no sum leaves the mantissa. *)
Definition auction_side (l : list (Order D)) : Prop :=
  Forall bounded_order l /\ Z.of_nat (length l) <= 2 ^ 32.

(** What a match list gives to one bid and takes from one ask. *)
Definition bid_filled (ms : list (Match D)) (i : Uuid) : Z :=
  zsum (map (fun m => units (match_size m)) (List.filter (fun m => fill_order_id (match_bid_fill m) =? i) ms)).

Definition ask_filled (ms : list (Match D)) (i : Uuid) : Z :=
  zsum (map (fun m => units (match_size m)) (List.filter (fun m => fill_order_id (match_ask_fill m) =? i) ms)).
End spec.

Section clearing.
Context {D : Type} `{!DecimalOps D, !DecimalLaws D}.
Implicit Types (o bid ask : Order D) (bids asks : list (Order D)).

Lemma cumulative_volume_exact l pred :
  auction_side l ->
  exists c, cumulative_volume l pred = Ret c /\
    units c = zsum (map rem_units (List.filter pred l)) /\ dp8 c /\ 0 <= units c.
Proof.
  intros [Hb Hlen]. unfold cumulative_volume.
  assert (Forall bounded_order (List.filter pred l)) as Hf.
  { apply List.Forall_forall. intros o [Ho _]%filter_In.
    rewrite List.Forall_forall in Hb. auto. }
  pose proof (filter_length_le pred l) as Hle.
  assert (Forall (fun z => 0 <= z <= MAX_UNITS) (map rem_units (List.filter pred l))) as Hz.
  { apply Forall_map. eapply Forall_impl; [exact Hf|]. unfold bounded_order, rem_units. simpl; lia. }
  pose proof (zsum_bound _ _ Hz) as Hsum. rewrite length_map in Hsum.
  destruct (dec_sum_exact (map o_remaining_size (List.filter pred l))) as (c & Hc & Hu & Hd).
  - apply Forall_map. eapply Forall_impl; [exact Hf|]. by intros o (? & ? & ? & ?).
  - apply Forall_map. eapply Forall_impl; [exact Hf|]. unfold bounded_order; simpl; lia.
  - rewrite map_map. fold (@rem_units D _). unfold MAX_UNITS, ULP in *. nia.
  - exists c. rewrite map_map in Hu. split_and!; [done|exact Hu|done|].
    rewrite Hu. fold (@rem_units D _). lia.
Qed.

Lemma demand_antitone bids z1 z2 :
  Forall bounded_order bids -> z1 <= z2 -> demand bids z2 <= demand bids z1.
Proof.
  intros Hb Hz. unfold demand. induction Hb as [|o l Ho Hb IH]; simpl; [done|].
  unfold bounded_order, rem_units in *.
  destruct (Z.leb_spec z2 (units (o_price o))), (Z.leb_spec z1 (units (o_price o))); simpl; lia.
Qed.

Lemma supply_monotone asks z1 z2 :
  Forall bounded_order asks -> z1 <= z2 -> supply asks z1 <= supply asks z2.
Proof.
  intros Hb Hz. unfold supply. induction Hb as [|o l Ho Hb IH]; simpl; [done|].
  unfold bounded_order, rem_units in *.
  destruct (Z.leb_spec (units (o_price o)) z1), (Z.leb_spec (units (o_price o)) z2); simpl; lia.
Qed.

Lemma demand_nonneg bids z : Forall bounded_order bids -> 0 <= demand bids z.
Proof.
  intros Hb. unfold demand. induction Hb as [|o l Ho Hb IH]; simpl; [done|].
  unfold bounded_order, rem_units in *. destruct (_ <=? _); simpl; lia.
Qed.

Lemma supply_nonneg asks z : Forall bounded_order asks -> 0 <= supply asks z.
Proof.
  intros Hb. unfold supply. induction Hb as [|o l Ho Hb IH]; simpl; [done|].
  unfold bounded_order, rem_units in *. destruct (_ <=? _); simpl; lia.
Qed.

(** Between two prices the executable volume is at least the smaller of theirs. *)
Lemma executable_between bids asks lo z hi :
  Forall bounded_order bids -> Forall bounded_order asks -> lo <= z <= hi ->
  Z.min (executable bids asks lo) (executable bids asks hi) <= executable bids asks z.
Proof.
  intros Hb Ha Hz. unfold executable.
  pose proof (demand_antitone bids z hi Hb). pose proof (supply_monotone asks lo z Ha). lia.
Qed.

(** The least bid price at or above [z], if any. *)
Lemma least_bid_above bids z :
  0 < demand bids z ->
  exists b, b ∈ bids /\ z <= units (o_price b) /\ demand bids (units (o_price b)) = demand bids z.
Proof.
  intros Hpos.
  destruct (list_min (fun o => units (o_price o)) (List.filter (fun o => z <=? units (o_price o)) bids))
    as (b & [Hb Hz]%elem_of_list_filter_bool & Hmin).
  { unfold demand in Hpos. intros Hnil. rewrite Hnil in Hpos. simpl in Hpos. lia. }
  exists b. split_and!; [done|lia|]. unfold demand. do 2 f_equal.
  apply filter_ext_in. intros b' Hb'%list_elem_of_In.
  assert (z <= units (o_price b') -> units (o_price b) <= units (o_price b')).
  { intros. apply Hmin, elem_of_list_filter_bool. split; [done|lia]. }
  destruct (Z.leb_spec (units (o_price b)) (units (o_price b'))), (Z.leb_spec z (units (o_price b'))); try done; lia.
Qed.

(** Every executable volume is reached at some bid price. *)
Lemma executable_at_bid bids asks z :
  Forall bounded_order bids -> Forall bounded_order asks -> 0 < executable bids asks z ->
  exists b, b ∈ bids /\ executable bids asks z <= executable bids asks (units (o_price b)).
Proof.
  intros Hb Ha Hpos. unfold executable in *.
  destruct (least_bid_above bids z) as (b & Hin & Hz & Heq); [lia|].
  exists b. split; [done|]. pose proof (supply_monotone asks z (units (o_price b)) Ha Hz). lia.
Qed.

(** *** Candidate prices *)

Lemma elem_of_btree_insert p q (s : list D) :
  q ∈ btree_insert p s -> q = p \/ q ∈ s.
Proof.
  induction s as [|x s IH]; simpl; [set_solver|].
  destruct (dec_cmp p x); set_solver.
Qed.

Lemma btree_insert_units p (s : list D) :
  exists q, q ∈ btree_insert p s /\ units q = units p.
Proof.
  induction s as [|x s IH]; simpl; [exists p; set_solver|].
  rewrite dec_cmp_units. destruct (Z.compare_spec (units p) (units x)).
  - exists x. set_solver.
  - exists p. set_solver.
  - destruct IH as (q & ? & ?). exists q. set_solver.
Qed.

Lemma btree_insert_keeps p q (s : list D) : q ∈ s -> q ∈ btree_insert p s.
Proof.
  induction s as [|x s IH]; simpl; [set_solver|]. destruct (dec_cmp p x); set_solver.
Qed.

Definition price_lt (p q : D) : Prop := units p < units q.

Lemma btree_insert_sorted p (s : list D) :
  StronglySorted price_lt s -> StronglySorted price_lt (btree_insert p s).
Proof.
  induction 1 as [|x s Hs IH Hx]; simpl; [repeat constructor|].
  rewrite dec_cmp_units. destruct (Z.compare_spec (units p) (units x)).
  - by constructor.
  - constructor; [by constructor|]. constructor; [done|].
    eapply Forall_impl; [exact Hx|]. unfold price_lt. simpl; lia.
  - constructor; [done|]. rewrite Forall_forall in *.
    intros y [->|Hy]%elem_of_btree_insert; [done|auto].
Qed.

Lemma fold_btree_insert l (s : list D) :
  let s' := fold_left (fun s o => btree_insert (o_price o) s) l s in
  (StronglySorted price_lt s -> StronglySorted price_lt s') /\
  (forall q, q ∈ s -> q ∈ s') /\
  (forall q, q ∈ s' -> q ∈ s \/ exists o, o ∈ l /\ q = o_price o) /\
  (forall o, o ∈ l -> exists q, q ∈ s' /\ units q = units (o_price o)).
Proof.
  revert s; induction l as [|o l IH]; intros s; simpl; [set_solver|].
  destruct (IH (btree_insert (o_price o) s)) as (H1 & H2 & H3 & H4). split_and!.
  - eauto using btree_insert_sorted.
  - eauto using btree_insert_keeps.
  - intros q [Hq|(o' & ? & ?)]%H3; [|right; exists o'; set_solver].
    apply elem_of_btree_insert in Hq as [->|?]; [right; exists o; set_solver|by left].
  - intros o' [->|Ho']%elem_of_cons; [|eauto].
    destruct (btree_insert_units (o_price o) s) as (q & ? & ?). eauto.
Qed.

(** The candidates are the distinct prices of the orders, ascending. *)
Lemma candidate_prices_spec bids asks :
  StronglySorted price_lt (candidate_prices bids asks) /\
  (forall q, q ∈ candidate_prices bids asks -> exists o, o ∈ bids ++ asks /\ q = o_price o) /\
  (forall o, o ∈ bids ++ asks -> exists q, q ∈ candidate_prices bids asks /\ units q = units (o_price o)).
Proof.
  unfold candidate_prices.
  destruct (fold_btree_insert bids []) as (A1 & A2 & A3 & A4).
  destruct (fold_btree_insert asks (fold_left (fun s o => btree_insert (o_price o) s) bids []))
    as (B1 & B2 & B3 & B4).
  split_and!.
  - apply B1, A1. constructor.
  - intros q [[Hq%not_elem_of_nil|(o & ? & ->)]%A3|(o & ? & ->)]%B3; [done|..]; exists o; set_solver.
  - intros o [Ho|Ho]%elem_of_app; [|eauto].
    destruct (A4 o Ho) as (q & ? & ?). eauto.
Qed.

(** *** The loop over the candidates *)

(** What the loop knows after the candidates [ps]. *)
Definition clearing_inv bids asks (ps : list D) (st : D * list D) : Prop :=
  let f p := executable bids asks (units p) in
  0 <= units st.1 /\ Forall (fun p => f p <= units st.1) ps /\
  st.2 ⊆ ps /\ Forall (fun p => f p = units st.1 /\ 0 < f p) st.2 /\
  (0 < units st.1 -> st.2 <> []) /\
  StronglySorted price_lt st.2.

Lemma clearing_step_inv bids asks ps p st :
  auction_side bids -> auction_side asks ->
  clearing_inv bids asks ps st -> Forall (fun q => price_lt q p) ps ->
  exists st', clearing_step bids asks st p = Ret st' /\ clearing_inv bids asks (ps ++ [p]) st'.
Proof.
  intros Hb Ha Hinv Hlt. destruct st as [best tied].
  destruct (cumulative_volume_exact bids (fun o => dec_geb (o_price o) p) Hb) as (bv & Hbv & Ubv & _ & Nbv).
  destruct (cumulative_volume_exact asks (fun o => dec_leb (o_price o) p) Ha) as (av & Hav & Uav & _ & Nav).
  assert (units (dec_min bv av) = executable bids asks (units p)) as Hf.
  { rewrite units_min, Ubv, Uav. unfold executable, demand, supply. f_equal; do 2 f_equal; apply filter_ext; intros o.
    - unfold dec_geb. apply eq_true_iff_eq. rewrite dec_leb_spec. lia.
    - apply eq_true_iff_eq. rewrite dec_leb_spec. lia. }
  unfold clearing_step. rewrite Hbv, Hav; simpl.
  destruct Hinv as (I0 & I1 & I2 & I3 & I4 & I5); simpl in *.
  assert (forall l, l ⊆ ps -> Forall (fun q => price_lt q p) l) as Hsub.
  { intros l Hl. rewrite Forall_forall in *. auto. }
  unfold dec_gtb. destruct (dec_ltb best (dec_min bv av)) eqn:E1.
  - apply dec_ltb_spec in E1. eexists; split; [done|]. unfold clearing_inv; simpl. rewrite Hf in *.
    split_and!; [lia| |set_solver| |done|repeat constructor].
    + rewrite Forall_app, Forall_singleton. split; [|lia].
      eapply Forall_impl; [exact I1|]. simpl; lia.
    + rewrite Forall_singleton. lia.
  - apply dec_ltb_ge in E1. destruct (dec_eqb (dec_min bv av) best && dec_ltb dec_zero (dec_min bv av)) eqn:E2.
    + apply andb_true_iff in E2 as [E2 E3]. apply dec_eqb_spec in E2. apply dec_ltb_spec in E3.
      rewrite units_zero in E3. eexists; split; [done|]. unfold clearing_inv; simpl.
      rewrite Hf in *. split_and!; [done| |set_solver| |by destruct tied|].
      * rewrite Forall_app, Forall_singleton. split; [done|lia].
      * rewrite Forall_app, Forall_singleton. split; [done|lia].
      * apply StronglySorted_app_2; [|done|repeat constructor].
        intros x y Hx ->%list_elem_of_singleton. specialize (Hsub tied I2).
        rewrite Forall_forall in Hsub. auto.
    + eexists; split; [done|]. unfold clearing_inv; simpl. rewrite Hf in *.
      split_and!; [done| |set_solver|done|done|done].
      rewrite Forall_app, Forall_singleton. split; [done|lia].
Qed.

Lemma clearing_loop bids asks ps st todo :
  auction_side bids -> auction_side asks ->
  StronglySorted price_lt (ps ++ todo) -> clearing_inv bids asks ps st ->
  exists st', foldM (clearing_step bids asks) st todo = Ret st' /\
    clearing_inv bids asks (ps ++ todo) st'.
Proof.
  intros Hb Ha. revert ps st; induction todo as [|p todo IH]; intros ps st Hs Hinv; simpl.
  { exists st. by rewrite app_nil_r. }
  destruct (clearing_step_inv bids asks ps p st) as (st1 & -> & H1); [done..| |].
  { apply Forall_forall. intros q Hq. eapply StronglySorted_app_1_elem_of; [exact Hs|done|left]. }
  simpl. destruct (IH (ps ++ [p]) st1) as (st2 & -> & H2); [by rewrite <- app_assoc|done|].
  exists st2. by rewrite <- app_assoc in H2.
Qed.

Lemma midpoint_spec (lo hi : D) :
  dp8 lo -> dp8 hi -> 0 <= units lo <= units hi -> units hi < MAX_UNITS ->
  exists c, midpoint lo hi = Ret c /\ dp8 c /\ units lo <= units c <= units hi.
Proof.
  intros Hlo Hhi Hle Hmax. unfold midpoint.
  assert (units (dec_of_Z (D:=D) 2) = 2 * 10 ^ 28) as H2 by (apply units_of_Z; lia).
  destruct (dec_add_dp8 lo hi) as (sum & -> & Hsum); [done..|unfold MAX_UNITS in *; lia|]; simpl.
  destruct Hlo as [l Hl], Hhi as [h Hh].
  assert (ULP = 2 * (5 * 10 ^ 19)) as HU by (vm_compute; reflexivity).
  destruct (dec_div_exact sum (dec_of_Z 2) ((l + h) * (5 * 10 ^ 19))) as (half & -> & Hhalf).
  - lia.
  - apply representable_dp9.
    + exists ((l + h) * 5). lia.
    + unfold MAX_UNITS in Hmax. nia.
  - rewrite H2, Hsum, Hl, Hh, HU. lia.
  - simpl. eexists; split; [done|]. unfold dp8.
    rewrite dec_normalize_units, dec_round_dp_units by (unfold CLEARING_PRICE_DP; lia).
    change (10 ^ (28 - CLEARING_PRICE_DP)) with ULP. split; [apply Z.divide_factor_r|].
    rewrite Hl, Hh in *. pose proof ULP_pos.
    assert (l <= round_half_even (units half) ULP <= h) by (apply round_half_even_bounds; nia). nia.
Qed.

Lemma last_sorted (x : D) l :
  StronglySorted price_lt (x :: l) ->
  List.last (x :: l) x ∈ x :: l /\ units x <= units (List.last (x :: l) x).
Proof.
  intros Hs. assert (List.last (x :: l) x ∈ x :: l) as Hin.
  { destruct (exists_last (l:=x :: l)) as (l' & y & Heq); [done|].
    rewrite Heq, last_last. set_solver. }
  split; [done|]. apply StronglySorted_inv in Hs as [_ Hs]. rewrite Forall_forall in Hs.
  apply elem_of_cons in Hin as [->|Hin]; [done|]. specialize (Hs _ Hin). unfold price_lt in Hs. lia.
Qed.

(** The clearing price is computed without panicking; it is zero when nothing
    is executable, and otherwise an eight-place price of maximal volume. *)
Lemma compute_clearing_price_spec bids asks :
  auction_side bids -> auction_side asks ->
  exists c, compute_clearing_price bids asks = Ret c /\ dp8 c /\
    ((units c = 0 /\ forall z, executable bids asks z <= 0) \/
     (0 < units c < MAX_UNITS /\ 0 < executable bids asks (units c) /\
      forall z, executable bids asks z <= executable bids asks (units c))).
Proof.
  intros Hb Ha. pose proof Hb as [Hbb _]. pose proof Ha as [Hab _].
  destruct (candidate_prices_spec bids asks) as (Hsort & Hcand & Hall).
  destruct (clearing_loop bids asks [] (dec_zero, []) (candidate_prices bids asks))
    as ([best tied] & Hloop & I0 & I1 & I2 & I3 & I4 & I5); [done..| |].
  { unfold clearing_inv; simpl. rewrite units_zero. split_and!; (done || constructor || lia). }
  simpl in *. unfold compute_clearing_price. rewrite Hloop. cbn [mbind outcome_bind snd].
  assert (forall z, executable bids asks z <= units best) as Hmax.
  { intros z. destruct (Z_le_gt_dec (executable bids asks z) 0); [lia|].
    destruct (executable_at_bid bids asks z) as (b & Hbin & Hle); [done..|lia|].
    destruct (Hall b) as (q & Hq & Hqu); [set_solver|].
    rewrite Forall_forall in I1. specialize (I1 q Hq). rewrite Hqu in I1. lia. }
  assert (forall q, q ∈ tied -> dp8 q /\ 0 < units q < MAX_UNITS) as Hprice.
  { intros q Hq. destruct (Hcand q) as (o & Ho & ->); [auto|].
    assert (bounded_order o) as (? & ? & _); [|done].
    rewrite Forall_forall in Hbb, Hab. apply elem_of_app in Ho as [?|?]; auto. }
  destruct tied as [|lo rest].
  - exists dec_zero. rewrite units_zero. split_and!; [done|unfold dp8; rewrite units_zero; apply Z.divide_0_r|].
    left. split; [done|]. intros z. specialize (Hmax z). destruct (Z_lt_ge_dec 0 (units best)); [|lia].
    by apply I4 in l.
  - destruct (last_sorted lo rest I5) as [Hin Hle]. set (hi := List.last (lo :: rest) lo) in *.
    destruct (Hprice lo) as [Dlo Blo]; [left|]. destruct (Hprice hi Hin) as [Dhi Bhi].
    destruct (midpoint_spec lo hi) as (c & -> & Dc & Hc); [done..|lia|lia|].
    exists c. split_and!; [done|done|]. right.
    rewrite Forall_forall in I3.
    destruct (I3 lo ltac:(left)) as [Elo Plo]. destruct (I3 hi Hin) as [Ehi _].
    pose proof (executable_between bids asks _ _ _ Hbb Hab Hc). split_and!; [lia..|].
    intros z. specialize (Hmax z). lia.
Qed.
End clearing.

(** ** Matching *)

Section matching.
Context {D : Type} `{!DecimalOps D, !DecimalLaws D}.
Implicit Types (o bid ask : Order D) (bids asks : list (Order D)) (ms : list (Match D)).

Definition fills ms : Z := zsum (map (fun m => units (match_size m)) ms).

Lemma ask_filled_cons m ms i :
  ask_filled (m :: ms) i =
  (if fill_order_id (match_ask_fill m) =? i then units (match_size m) else 0) + ask_filled ms i.
Proof. unfold ask_filled; simpl. by destruct (_ =? _). Qed.

Lemma ask_filled_app ms1 ms2 i : ask_filled (ms1 ++ ms2) i = ask_filled ms1 i + ask_filled ms2 i.
Proof. unfold ask_filled. by rewrite List.filter_app, map_app, zsum_app. Qed.

Lemma bid_filled_app ms1 ms2 i : bid_filled (ms1 ++ ms2) i = bid_filled ms1 i + bid_filled ms2 i.
Proof. unfold bid_filled. by rewrite List.filter_app, map_app, zsum_app. Qed.

Lemma ask_filled_none ms i :
  Forall (fun m => fill_order_id (match_ask_fill m) <> i) ms -> ask_filled ms i = 0.
Proof.
  induction 1 as [|m ms Hm Hms IH]; [done|]. rewrite ask_filled_cons, IH.
  by rewrite (proj2 (Z.eqb_neq _ _) Hm).
Qed.

Lemma bid_filled_none ms i :
  Forall (fun m => fill_order_id (match_bid_fill m) <> i) ms -> bid_filled ms i = 0.
Proof.
  unfold bid_filled. induction 1 as [|m ms Hm Hms IH]; simpl; [done|].
  by rewrite (proj2 (Z.eqb_neq _ _) Hm).
Qed.

Lemma bid_filled_all ms i :
  Forall (fun m => fill_order_id (match_bid_fill m) = i) ms -> bid_filled ms i = fills ms.
Proof.
  unfold bid_filled, fills. induction 1 as [|m ms Hm Hms IH]; simpl; [done|].
  rewrite (proj2 (Z.eqb_eq _ _) Hm); simpl. lia.
Qed.

(** [o'] is [o] with [taken] units less remaining. *)
Definition reduced (o o' : Order D) (taken : Z) : Prop :=
  (exists r, o' = set_remaining o r) /\ bounded_order o' /\ rem_units o' = rem_units o - taken.

(** A match a bid may make against one of the asks. *)
Definition good_match (p : D) bid asks (m : Match D) : Prop :=
  fill_order_id (match_bid_fill m) = o_id bid /\
  match_price m = p /\ fill_size (match_bid_fill m) = match_size m /\
  fill_size (match_ask_fill m) = match_size m /\
  0 < units (match_size m) < MAX_UNITS /\ dp8 (match_size m) /\
  exists ask, ask ∈ asks /\ fill_order_id (match_ask_fill m) = o_id ask /\
    o_trader bid <> o_trader ask /\ 0 < rem_units ask.

Lemma reduced_refl o : bounded_order o -> reduced o o 0.
Proof.
  intros Ho. split_and!; [|done|lia]. exists (o_remaining_size o). by destruct o.
Qed.

Lemma reduced_trans o1 o2 o3 t1 t2 :
  reduced o1 o2 t1 -> reduced o2 o3 t2 -> reduced o1 o3 (t1 + t2).
Proof.
  intros ([r1 ->] & ? & ?) ([r2 ->] & ? & ?). split_and!; [by exists r2|done|lia].
Qed.

Lemma reduced_sub o r t :
  bounded_order o -> dec_sub (o_remaining_size o) t = Some r ->
  dp8 t -> 0 <= units t <= rem_units o -> units r = rem_units o - units t ->
  reduced o (set_remaining o r) (units t).
Proof.
  unfold rem_units. intros (H1 & H2 & H3 & H4) Hs Ht Hle Hr. split_and!; [by exists r| |done].
  unfold bounded_order; simpl. split_and!; try done; try lia.
  unfold dp8. rewrite Hr. by apply Z.divide_sub_r.
Qed.

(** One fill between two bounded orders does not panic and empties one of them. *)
Lemma fill_exact bid ask :
  bounded_order bid -> bounded_order ask -> 0 < rem_units bid -> 0 < rem_units ask ->
  let f := dec_min (o_remaining_size bid) (o_remaining_size ask) in
  exists br ar, dec_sub (o_remaining_size bid) f = Some br /\ dec_sub (o_remaining_size ask) f = Some ar /\
    reduced bid (set_remaining bid br) (units f) /\ reduced ask (set_remaining ask ar) (units f) /\
    0 < units f < MAX_UNITS /\ dp8 f /\ (units br = 0 \/ units ar = 0).
Proof.
  intros Hb Ha Pb Pa f. unfold rem_units in Pb, Pa.
  assert (units f = Z.min (units (o_remaining_size bid)) (units (o_remaining_size ask))) as Hf
    by apply units_min.
  pose proof Hb as (_ & _ & Db & Rb). pose proof Ha as (_ & _ & Da & Ra).
  assert (dp8 f) as Df by (by apply dp8_min).
  unfold MAX_UNITS, ULP in *.
  destruct (dec_sub_dp8 (o_remaining_size bid) f) as (br & Hbr & Ubr); [done..|unfold ULP; lia|].
  destruct (dec_sub_dp8 (o_remaining_size ask) f) as (ar & Har & Uar); [done..|unfold ULP; lia|].
  exists br, ar. split_and!; [done|done| | |lia|lia|done|lia].
  - apply reduced_sub; unfold rem_units; (done || lia).
  - apply reduced_sub; unfold rem_units; (done || lia).
Qed.

Lemma reduced_id o o' t : reduced o o' t -> o_id o' = o_id o.
Proof. by intros ([r ->] & _). Qed.

Lemma reduced_trader o o' t : reduced o o' t -> o_trader o' = o_trader o.
Proof. by intros ([r ->] & _). Qed.

Lemma reduced_nonneg o o' t : reduced o o' t -> t <= rem_units o.
Proof. intros (_ & (_ & _ & _ & ?) & Ht). unfold rem_units in *. lia. Qed.

(** What one pass of the inner loop does. *)
Definition pass_result (p : D) bid asks bid' asks' ms : Prop :=
  reduced bid bid' (fills ms) /\
  Forall2 (fun a a' => reduced a a' (ask_filled ms (o_id a))) asks asks' /\
  Forall (good_match p bid asks) ms /\
  (forall a', a' ∈ asks' -> o_trader bid <> o_trader a' -> rem_units bid' = 0 \/ rem_units a' = 0) /\
  (forall a1 a2 m, before asks a1 a2 -> m ∈ ms -> fill_order_id (match_ask_fill m) = o_id a2 ->
     o_trader bid <> o_trader a1 -> ask_filled ms (o_id a1) = rem_units a1).

Lemma good_match_mono p bid bid' asks asks' m :
  o_id bid' = o_id bid -> o_trader bid' = o_trader bid -> asks ⊆ asks' ->
  good_match p bid asks m -> good_match p bid' asks' m.
Proof.
  intros Hid Htr Hsub (? & ? & ? & ? & ? & ? & a & ? & ? & ? & ?). unfold good_match.
  rewrite Hid, Htr. split_and!; try done; try lia. exists a. auto.
Qed.

Lemma good_matches_not_ask p bid asks ms i :
  Forall (good_match p bid asks) ms -> i ∉ map o_id asks ->
  Forall (fun m => fill_order_id (match_ask_fill m) <> i) ms.
Proof.
  intros Hms Hi. eapply Forall_impl; [exact Hms|].
  intros m (_ & _ & _ & _ & _ & _ & a & Ha & -> & _) <-. apply Hi. by apply list_elem_of_fmap_2.
Qed.

Lemma fills_nonneg p bid asks ms : Forall (good_match p bid asks) ms -> 0 <= fills ms.
Proof.
  intros Hms. apply zsum_nonneg, Forall_map. eapply Forall_impl; [exact Hms|].
  intros m (_ & _ & _ & _ & ? & _); simpl; lia.
Qed.

Lemma fills_pos p bid asks ms m : Forall (good_match p bid asks) ms -> m ∈ ms -> 0 < fills ms.
Proof.
  intros Hms Hm. apply list_elem_of_split in Hm as (l1 & l2 & ->).
  apply Forall_app in Hms as [H1 [H2 H3]%Forall_cons].
  apply fills_nonneg in H1, H3. destruct H2 as (_ & _ & _ & _ & ? & _).
  unfold fills in *. rewrite map_app, zsum_app; simpl. lia.
Qed.

(** A pass that leaves its first ask alone. *)
Lemma pass_skip p bid ask asks bid' asks' ms :
  bounded_order ask -> NoDup (map o_id (ask :: asks)) ->
  rem_units ask <= 0 \/ o_trader bid = o_trader ask ->
  pass_result p bid asks bid' asks' ms ->
  pass_result p bid (ask :: asks) bid' (ask :: asks') ms.
Proof.
  intros Hask [Hnin Hnd]%NoDup_cons Hskip (H1 & H2 & H3 & H4 & H5).
  assert (ask_filled ms (o_id ask) = 0) as Hz
    by (by eapply ask_filled_none, good_matches_not_ask).
  unfold bounded_order in Hask. split_and!.
  - done.
  - constructor; [rewrite Hz; by apply reduced_refl|done].
  - eapply Forall_impl; [exact H3|]. intros m. by apply good_match_mono; [..|set_solver].
  - intros a' [->|Ha']%elem_of_cons Htr; [|auto]. destruct Hskip; [|done].
    right. unfold rem_units in *. lia.
  - intros a1 a2 m [[-> _]|Hb]%before_cons Hm Hid Htr; [|eauto].
    destruct Hskip; [|done]. rewrite Hz. unfold rem_units in *. lia.
Qed.

(** A pass whose first ask is filled. *)
Lemma pass_fill p bid ask asks br ar bid' asks' ms :
  let f := dec_min (o_remaining_size bid) (o_remaining_size ask) in
  let m := mkMatch (mkFill (o_id bid) f) (mkFill (o_id ask) f) p f in
  NoDup (map o_id (ask :: asks)) -> o_trader bid <> o_trader ask -> 0 < rem_units ask ->
  reduced bid (set_remaining bid br) (units f) -> reduced ask (set_remaining ask ar) (units f) ->
  0 < units f < MAX_UNITS -> dp8 f -> units br = 0 \/ units ar = 0 ->
  pass_result p (set_remaining bid br) asks bid' asks' ms ->
  pass_result p bid (ask :: asks) bid' (set_remaining ask ar :: asks') (m :: ms).
Proof.
  intros f m [Hnin Hnd]%NoDup_cons Htr Hpos Hb Ha Hf Hdp Hz (H1 & H2 & H3 & H4 & H5).
  assert (ask_filled ms (o_id ask) = 0) as Hask
    by (by eapply ask_filled_none, good_matches_not_ask).
  assert (forall a, a ∈ asks -> ask_filled (m :: ms) (o_id a) = ask_filled ms (o_id a)) as Hrest.
  { intros a Hin. rewrite ask_filled_cons; simpl. destruct (Z.eqb_spec (o_id ask) (o_id a)) as [Heq|]; [|lia].
    destruct Hnin. simpl. rewrite Heq. by apply list_elem_of_fmap_2. }
  assert (ask_filled (m :: ms) (o_id ask) = units f) as Hfst.
  { rewrite ask_filled_cons, Hask; simpl. rewrite Z.eqb_refl. lia. }
  split_and!.
  - exact (reduced_trans _ _ _ _ _ Hb H1).
  - constructor; [by rewrite Hfst|]. eapply Forall2_impl_in; [exact H2|].
    intros a a' Hin _ Hred. by rewrite Hrest.
  - constructor.
    + unfold good_match; simpl. split_and!; try done; try lia. exists ask. split_and!; [left|done..].
    + eapply Forall_impl; [exact H3|]. intros m'. by apply good_match_mono; [..|set_solver].
  - intros a' [->|Ha']%elem_of_cons Ht; [|auto].
    destruct Hz as [Hz|Hz]; [left|right; done].
    pose proof (reduced_nonneg _ _ _ H1) as Hn. destruct H1 as (_ & (_ & _ & _ & ?) & Hr).
    pose proof (fills_nonneg _ _ _ _ H3). unfold rem_units in *; simpl in *; lia.
  - intros a1 a2 m' [[-> Hin]|Hb']%before_cons Hm' Hid Ht.
    + rewrite Hfst. destruct Ha as (_ & _ & Har). unfold rem_units in *; simpl in *.
      destruct Hz as [Hz|Hz]; [|lia]. exfalso.
      (* the bid was empty, yet a later ask was matched *)
      assert (m' ∈ ms) as Hms.
      { apply elem_of_cons in Hm' as [->|?]; [|done]. simpl in Hid. destruct Hnin.
        simpl. rewrite Hid. by apply list_elem_of_fmap_2. }
      pose proof (reduced_nonneg _ _ _ H1) as Hn. unfold rem_units in Hn; simpl in Hn.
      pose proof (fills_pos _ _ _ _ _ H3 Hms). lia.
    + apply before_elem in Hb' as Hin. rewrite Hrest by tauto.
      apply elem_of_cons in Hm' as [->|Hm']; [|by eapply H5].
      simpl in Hid. destruct Hnin. simpl. rewrite Hid. apply list_elem_of_fmap_2. tauto.
Qed.

Lemma match_bid_spec p bid asks :
  bounded_order bid -> Forall bounded_order asks -> NoDup (map o_id asks) ->
  exists bid' asks' ms, match_bid p bid asks = Ret (bid', asks', ms) /\
    pass_result p bid asks bid' asks' ms.
Proof.
  revert bid; induction asks as [|ask asks IH]; intros bid Hb Ha Hnd; simpl.
  { exists bid, [], []. split; [done|].
    split_and!; [by apply reduced_refl|constructor|constructor|set_solver|].
    by intros ??? ?%before_nil. }
  apply Forall_cons in Ha as [Ha Has]. pose proof Hnd as [_ Hnd']%NoDup_cons.
  destruct (dec_leb (o_remaining_size bid) dec_zero) eqn:E1.
  { apply dec_leb_spec in E1. rewrite units_zero in E1.
    exists bid, (ask :: asks), []. split; [done|].
    assert (rem_units bid = 0) by (unfold bounded_order, rem_units in *; lia).
    split_and!; [by apply reduced_refl| |constructor|auto|set_solver].
    apply Forall2_same_length_lookup_2; [done|]. intros i a a' H1 H2.
    rewrite H1 in H2. injection H2 as <-. apply reduced_refl.
    apply list_elem_of_lookup_2 in H1. rewrite Forall_forall in Has.
    apply elem_of_cons in H1 as [->|?]; auto. }
  apply dec_leb_gt in E1. rewrite units_zero in E1.
  destruct (dec_leb (o_remaining_size ask) dec_zero) eqn:E2;
    [|case_bool_decide as E3].
  - apply dec_leb_spec in E2. rewrite units_zero in E2.
    destruct (IH bid) as (bid' & asks' & ms & -> & Hres); [done..|]; simpl.
    do 3 eexists. split; [done|]. apply pass_skip; auto.
  - destruct (IH bid) as (bid' & asks' & ms & -> & Hres); [done..|]; simpl.
    do 3 eexists. split; [done|]. apply pass_skip; auto.
  - apply dec_leb_gt in E2. rewrite units_zero in E2.
    destruct (fill_exact bid ask) as (br & ar & -> & -> & Rb & Ra & Hf & Hdp & Hz); [done..|]; simpl.
    destruct (IH (set_remaining bid br)) as (bid' & asks' & ms & -> & Hres); [apply Rb|done..|]; simpl.
    do 3 eexists. split; [done|]. by eapply pass_fill.
Qed.

(** What the whole loop does. *)
Definition matching_result (p : D) bids asks bids' asks' ms : Prop :=
  Forall2 (fun b b' => reduced b b' (bid_filled ms (o_id b))) bids bids' /\
  Forall2 (fun a a' => reduced a a' (ask_filled ms (o_id a))) asks asks' /\
  Forall (fun m => exists b, b ∈ bids /\ good_match p b asks m) ms /\
  (forall b' a', b' ∈ bids' -> a' ∈ asks' -> o_trader b' <> o_trader a' -> rem_units b' = 0 \/ rem_units a' = 0) /\
  (forall b1 b2 a m, before bids b1 b2 -> a ∈ asks -> m ∈ ms ->
     fill_order_id (match_bid_fill m) = o_id b2 -> fill_order_id (match_ask_fill m) = o_id a ->
     o_trader b1 <> o_trader a -> bid_filled ms (o_id b1) = rem_units b1) /\
  (forall b a1 a2 m, b ∈ bids -> before asks a1 a2 -> m ∈ ms ->
     fill_order_id (match_bid_fill m) = o_id b -> fill_order_id (match_ask_fill m) = o_id a2 ->
     o_trader b <> o_trader a1 -> ask_filled ms (o_id a1) = rem_units a1).

Lemma ask_filled_nonneg p ms asks i :
  Forall (fun m => exists b, good_match p b asks m) ms -> 0 <= ask_filled ms i.
Proof.
  intros Hms. apply zsum_nonneg, Forall_map, List.Forall_forall.
  intros m [Hm _]%filter_In. rewrite List.Forall_forall in Hms.
  destruct (Hms m Hm) as (b & _ & _ & _ & _ & ? & _). lia.
Qed.

Lemma reduced_ids l l' f :
  Forall2 (fun o o' => reduced o o' (f o)) l l' -> map o_id l' = map o_id l.
Proof. induction 1 as [|o o' l l' Ho _ IH]; simpl; [done|]. by rewrite IH, (reduced_id _ _ _ Ho). Qed.

Lemma reduced_bounded l l' f :
  Forall2 (fun o o' => reduced o o' (f o)) l l' -> Forall bounded_order l'.
Proof. induction 1 as [|o o' l l' Ho _ IH]; constructor; [apply Ho|done]. Qed.

(** The first bid's pass followed by the others' loop. *)
Section first_bid.
Context (p : D) (bid bid' : Order D) (bids bids' asks asks1 asks2 : list (Order D)) (ms1 ms2 : list (Match D)).
Hypothesis Hndb : NoDup (map o_id (bid :: bids)).
Hypothesis Hnda : NoDup (map o_id asks).
Hypothesis Hpass : pass_result p bid asks bid' asks1 ms1.
Hypothesis Hloop : matching_result p bids asks1 bids' asks2 ms2.

Lemma first_not_rest b : b ∈ bids -> o_id b <> o_id bid.
Proof.
  intros Hb Heq. apply NoDup_cons in Hndb as [Hnin _]. apply Hnin. simpl. rewrite <- Heq.
  by apply list_elem_of_fmap_2.
Qed.

Lemma first_matches m : m ∈ ms1 -> fill_order_id (match_bid_fill m) = o_id bid.
Proof. destruct Hpass as (_ & _ & P3 & _). rewrite Forall_forall in P3. intros Hm. by destruct (P3 m Hm). Qed.

Lemma rest_matches m : m ∈ ms2 -> exists b, b ∈ bids /\ good_match p b asks1 m.
Proof. destruct Hloop as (_ & _ & M3 & _). rewrite Forall_forall in M3. auto. Qed.

Lemma rest_match_bid m b : m ∈ ms1 ++ ms2 -> b ∈ bids -> fill_order_id (match_bid_fill m) = o_id b -> m ∈ ms2.
Proof.
  intros [Hm|Hm]%elem_of_app Hb Hid; [|done]. apply first_matches in Hm.
  destruct (first_not_rest b Hb). congruence.
Qed.

Lemma first_filled : bid_filled (ms1 ++ ms2) (o_id bid) = fills ms1.
Proof.
  rewrite bid_filled_app, (bid_filled_all ms1), (bid_filled_none ms2); [lia|..].
  - apply Forall_forall. intros m (b & Hb & Hid & _)%rest_matches. rewrite Hid. by apply first_not_rest.
  - apply Forall_forall. apply first_matches.
Qed.

Lemma rest_filled b : b ∈ bids -> bid_filled (ms1 ++ ms2) (o_id b) = bid_filled ms2 (o_id b).
Proof.
  intros Hb. rewrite bid_filled_app, (bid_filled_none ms1); [lia|].
  apply Forall_forall. intros m Hm%first_matches Heq. apply (first_not_rest b Hb). congruence.
Qed.

Lemma later_fill_nonneg i : 0 <= ask_filled ms2 i.
Proof.
  apply (ask_filled_nonneg p ms2 asks1). apply Forall_forall.
  intros m (b & _ & Hm)%rest_matches. eauto.
Qed.

(** An ask left over by the first pass was there before it, with more size. *)
Lemma leftover a1 : a1 ∈ asks1 -> exists a, a ∈ asks /\ reduced a a1 (ask_filled ms1 (o_id a)) /\
  o_id a1 = o_id a /\ o_trader a1 = o_trader a /\ rem_units a1 <= rem_units a.
Proof.
  destruct Hpass as (_ & P2 & P3 & _). intros Ha1.
  destruct (Forall2_elem_r _ _ _ _ P2 Ha1) as (a & Ha & Hred). exists a.
  pose proof (reduced_id _ _ _ Hred). pose proof (reduced_trader _ _ _ Hred).
  split_and!; [done..|]. destruct Hred as (_ & _ & ->).
  assert (0 <= ask_filled ms1 (o_id a)); [|lia].
  apply (ask_filled_nonneg p ms1 asks). eapply Forall_impl; [exact P3|]. naive_solver.
Qed.

Lemma good_match_earlier m b : good_match p b asks1 m -> good_match p b asks m.
Proof.
  intros (? & ? & ? & ? & ? & ? & a1 & Ha1 & Hid & Htr & Hpos).
  destruct (leftover a1 Ha1) as (a & Ha & _ & Hid' & Htr' & Hle).
  unfold good_match. split_and!; try done; try lia. exists a. split_and!; [done|congruence|congruence|lia].
Qed.

Lemma cons_no_cross b' a' :
  b' ∈ bid' :: bids' -> a' ∈ asks2 -> o_trader b' <> o_trader a' -> rem_units b' = 0 \/ rem_units a' = 0.
Proof.
  pose proof Hpass as (P1 & _ & _ & P4 & _). pose proof Hloop as (_ & M2 & _ & M4 & _).
  intros [->|Hb']%elem_of_cons Ha' Htr; [|auto].
  destruct (Forall2_elem_r _ _ _ _ M2 Ha') as (a1 & Ha1 & R).
  rewrite (reduced_trader _ _ _ P1), (reduced_trader _ _ _ R) in Htr.
  destruct (P4 a1 Ha1 Htr) as [?|Hz]; [by left|right].
  pose proof (later_fill_nonneg (o_id a1)).
  destruct R as (_ & (_ & _ & _ & ?) & Hr). unfold rem_units in *. lia.
Qed.

Lemma cons_bid_priority b1 b2 a m :
  before (bid :: bids) b1 b2 -> a ∈ asks -> m ∈ ms1 ++ ms2 ->
  fill_order_id (match_bid_fill m) = o_id b2 -> fill_order_id (match_ask_fill m) = o_id a ->
  o_trader b1 <> o_trader a -> bid_filled (ms1 ++ ms2) (o_id b1) = rem_units b1.
Proof.
  pose proof Hpass as (P1 & P2 & _ & P4 & _). pose proof Hloop as (_ & _ & _ & _ & M5 & _).
  intros [[-> Hin]|Hbf]%before_cons Ha Hm Hid Hida Htr.
  - apply (rest_match_bid m b2) in Hm; [|done..]. rewrite first_filled.
    destruct (rest_matches m Hm) as (b & _ & _ & _ & _ & _ & _ & _ & a1 & Ha1 & Hida1 & _ & Hpos).
    destruct (leftover a1 Ha1) as (a0 & Ha0 & _ & Hid0 & Htr0 & _).
    assert (a0 = a) as -> by (apply (NoDup_map_inj o_id asks); [done..|congruence]).
    destruct (P4 a1 Ha1) as [Hz|Hz]; [congruence| |lia]. destruct P1 as (_ & _ & Hr). lia.
  - apply before_elem in Hbf as Hin. rewrite rest_filled by tauto.
    apply (rest_match_bid m b2) in Hm; [|tauto|done].
    destruct (Forall2_elem_l _ _ _ _ P2 Ha) as (a1 & Ha1 & R).
    apply (M5 b1 b2 a1 m); try done.
    + by rewrite (reduced_id _ _ _ R).
    + by rewrite (reduced_trader _ _ _ R).
Qed.

Lemma cons_ask_priority b a1 a2 m :
  b ∈ bid :: bids -> before asks a1 a2 -> m ∈ ms1 ++ ms2 ->
  fill_order_id (match_bid_fill m) = o_id b -> fill_order_id (match_ask_fill m) = o_id a2 ->
  o_trader b <> o_trader a1 -> ask_filled (ms1 ++ ms2) (o_id a1) = rem_units a1.
Proof.
  pose proof Hpass as (_ & P2 & _ & _ & P5). pose proof Hloop as (_ & M2 & _ & _ & _ & M6).
  intros Hb Hbf Hm Hid Hida Htr. rewrite ask_filled_app.
  destruct (before_Forall2 _ _ _ _ _ P2 Hbf) as (a1' & a2' & Hbf' & R1 & R2).
  pose proof (reduced_id _ _ _ R1) as I1. pose proof R1 as (_ & _ & Hr1).
  apply elem_of_cons in Hb as [->|Hb].
  - apply elem_of_app in Hm as [Hm|Hm].
    2: { destruct (rest_matches m Hm) as (b & Hb & Hid' & _).
         destruct (first_not_rest b Hb). congruence. }
    rewrite (P5 a1 a2 m) in * by done.
    destruct (before_elem _ _ _ Hbf') as [Hin1 _].
    destruct (Forall2_elem_l _ _ _ _ M2 Hin1) as (a1'' & _ & R).
    pose proof (later_fill_nonneg (o_id a1)). pose proof (reduced_nonneg _ _ _ R) as Hn.
    rewrite I1, Hr1 in Hn. lia.
  - apply (rest_match_bid m b) in Hm; [|done..].
    assert (ask_filled ms2 (o_id a1') = rem_units a1') as Hf.
    { apply (M6 b a1' a2' m); try done.
      - by rewrite (reduced_id _ _ _ R2).
      - by rewrite (reduced_trader _ _ _ R1). }
    rewrite I1 in Hf. lia.
Qed.

Lemma matching_cons : matching_result p (bid :: bids) asks (bid' :: bids') asks2 (ms1 ++ ms2).
Proof.
  pose proof Hpass as (P1 & P2 & P3 & _). pose proof Hloop as (M1 & M2 & M3 & _).
  split_and!; eauto using cons_no_cross, cons_bid_priority, cons_ask_priority.
  - constructor; [by rewrite first_filled|]. eapply Forall2_impl_in; [exact M1|].
    intros b b' Hin _ Hred. by rewrite rest_filled.
  - eapply Forall2_compose; [|exact P2|exact M2]. intros a a1 a2 R1 R2; cbn in R1, R2 |- *.
    rewrite ask_filled_app. rewrite (reduced_id _ _ _ R1) in R2. by eapply reduced_trans.
  - apply Forall_app. split; apply Forall_forall.
    + rewrite Forall_forall in P3. intros m Hm. exists bid. split; [left|auto].
    + intros m (b & Hb & Hm)%rest_matches. exists b. split; [by right|by apply good_match_earlier].
Qed.
End first_bid.

Lemma match_bids_spec p bids asks :
  Forall bounded_order bids -> Forall bounded_order asks ->
  NoDup (map o_id bids) -> NoDup (map o_id asks) ->
  exists bids' asks' ms, match_bids p bids asks = Ret (bids', asks', ms) /\
    matching_result p bids asks bids' asks' ms.
Proof.
  revert asks; induction bids as [|bid bids IH]; intros asks Hb Ha Hndb Hnda; simpl.
  { exists [], asks, []. split; [done|]. split_and!; [constructor| |constructor|set_solver..].
    apply Forall2_same_length_lookup_2; [done|]. intros i a a' E1 E2.
    rewrite E1 in E2. injection E2 as <-. apply reduced_refl.
    apply list_elem_of_lookup_2 in E1. rewrite Forall_forall in Ha. auto. }
  apply Forall_cons in Hb as [Hb Hbs].
  destruct (match_bid_spec p bid asks) as (bid' & asks1 & ms1 & -> & Hpass); [done..|]; simpl.
  pose proof Hpass as (_ & P2 & _).
  destruct (IH asks1) as (bids' & asks2 & ms2 & -> & Hres).
  - done.
  - apply (reduced_bounded _ _ _ P2).
  - by apply NoDup_cons in Hndb as [_ ?].
  - by rewrite (reduced_ids _ _ _ P2).
  - do 3 eexists. split; [done|]. by eapply matching_cons.
Qed.
End matching.

(** ** The whole auction *)

Section run.
Context {D : Type} `{!DecimalOps D, !DecimalLaws D}.
Implicit Types (o bid ask : Order D) (bids asks : list (Order D)) (ms : list (Match D)).

Lemma cmp_then_gt (a b c d : Z) :
  cmp_then (Z.compare a b) (Z.compare c d) = Gt <-> b < a \/ (a = b /\ d < c).
Proof.
  unfold cmp_then. destruct (Z.compare_spec a b), (Z.compare_spec c d); split; intros; try done; lia.
Qed.

Lemma cmp_then_lt (a b c d : Z) :
  cmp_then (Z.compare a b) (Z.compare c d) = Lt <-> a < b \/ (a = b /\ c < d).
Proof.
  unfold cmp_then. destruct (Z.compare_spec a b), (Z.compare_spec c d); split; intros; try done; lia.
Qed.

Lemma bid_cmp_gt (a b : Order D) :
  bid_cmp a b = Gt <-> units (o_price a) < units (o_price b) \/ (units (o_price a) = units (o_price b) /\ o_seq b < o_seq a).
Proof. unfold bid_cmp. rewrite dec_cmp_units, cmp_then_gt. lia. Qed.

Lemma ask_cmp_gt (a b : Order D) :
  ask_cmp a b = Gt <-> units (o_price b) < units (o_price a) \/ (units (o_price a) = units (o_price b) /\ o_seq b < o_seq a).
Proof. unfold ask_cmp. rewrite dec_cmp_units, cmp_then_gt. lia. Qed.

Lemma bid_cmp_lt (a b : Order D) :
  bid_cmp a b = Lt <-> units (o_price b) < units (o_price a) \/ (units (o_price a) = units (o_price b) /\ o_seq a < o_seq b).
Proof. unfold bid_cmp. rewrite dec_cmp_units, cmp_then_lt. lia. Qed.

Lemma ask_cmp_lt (a b : Order D) :
  ask_cmp a b = Lt <-> units (o_price a) < units (o_price b) \/ (units (o_price a) = units (o_price b) /\ o_seq a < o_seq b).
Proof. unfold ask_cmp. rewrite dec_cmp_units, cmp_then_lt. lia. Qed.

Lemma bid_cmp_total a b : bid_cmp a b = Gt -> bid_cmp b a = Lt.
Proof. rewrite bid_cmp_gt, bid_cmp_lt. lia. Qed.

Lemma ask_cmp_total a b : ask_cmp a b = Gt -> ask_cmp b a = Lt.
Proof. rewrite ask_cmp_gt, ask_cmp_lt. lia. Qed.

Lemma bid_cmp_trans a b c : cmp_le bid_cmp a b -> cmp_le bid_cmp b c -> cmp_le bid_cmp a c.
Proof. unfold cmp_le. rewrite !bid_cmp_gt. lia. Qed.

Lemma ask_cmp_trans a b c : cmp_le ask_cmp a b -> cmp_le ask_cmp b c -> cmp_le ask_cmp a c.
Proof. unfold cmp_le. rewrite !ask_cmp_gt. lia. Qed.

Lemma sorted_bids bids : StronglySorted (cmp_le bid_cmp) (sort_by bid_cmp bids).
Proof. apply sort_by_sorted; [apply bid_cmp_total|apply bid_cmp_trans]. Qed.

Lemma sorted_asks asks : StronglySorted (cmp_le ask_cmp) (sort_by ask_cmp asks).
Proof. apply sort_by_sorted; [apply ask_cmp_total|apply ask_cmp_trans]. Qed.

(** Distinct placement numbers make the priority order strict. *)
Lemma sort_bids_perm bids1 bids2 :
  bids1 ≡ₚ bids2 -> NoDup (map o_seq bids1) -> sort_by bid_cmp bids1 = sort_by bid_cmp bids2.
Proof.
  intros Hp Hnd. apply sort_by_perm_eq; [apply bid_cmp_total|apply bid_cmp_trans|done|].
  intros a b Ha Hb. unfold cmp_le. rewrite !bid_cmp_gt. intros.
  apply (NoDup_map_inj o_seq bids1); [done..|lia].
Qed.

Lemma sort_asks_perm asks1 asks2 :
  asks1 ≡ₚ asks2 -> NoDup (map o_seq asks1) -> sort_by ask_cmp asks1 = sort_by ask_cmp asks2.
Proof.
  intros Hp Hnd. apply sort_by_perm_eq; [apply ask_cmp_total|apply ask_cmp_trans|done|].
  intros a b Ha Hb. unfold cmp_le. rewrite !ask_cmp_gt. intros.
  apply (NoDup_map_inj o_seq asks1); [done..|lia].
Qed.

#[export] Instance filter_perm {A} (f : A -> bool) : Proper ((≡ₚ) ==> (≡ₚ)) (List.filter f).
Proof.
  intros l1 l2 Hp. induction Hp; simpl; repeat destruct (f _); try (by constructor); try done.
  by etrans.
Qed.

#[export] Instance map_perm {A B} (f : A -> B) : Proper ((≡ₚ) ==> (≡ₚ)) (map f).
Proof. intros l1 l2 Hp. by apply Permutation_map. Qed.

Lemma executable_perm bids1 bids2 asks1 asks2 z :
  bids1 ≡ₚ bids2 -> asks1 ≡ₚ asks2 -> executable bids1 asks1 z = executable bids2 asks2 z.
Proof. intros Hb Ha. unfold executable, demand, supply. by rewrite Hb, Ha. Qed.

Lemma auction_side_perm l1 l2 : l1 ≡ₚ l2 -> auction_side l1 -> auction_side l2.
Proof. intros Hp [Hb Hl]. split; by rewrite <- Hp. Qed.

Lemma NoDup_map_filter {A B} (f : A -> B) (g : A -> bool) l :
  NoDup (map f l) -> NoDup (map f (List.filter g l)).
Proof.
  induction l as [|x l IH]; simpl; [done|]. intros [Hx Hnd]%NoDup_cons.
  destruct (g x); simpl; [|auto]. apply NoDup_cons. split; [|auto].
  contradict Hx. apply list_elem_of_fmap in Hx as (y & -> & [Hy _]%elem_of_list_filter_bool).
  by apply list_elem_of_fmap_2.
Qed.

Lemma Forall_filter_bool {A} (P : A -> Prop) (g : A -> bool) l :
  Forall P l -> Forall P (List.filter g l).
Proof. rewrite !Forall_forall. intros HP x [Hx _]%elem_of_list_filter_bool. auto. Qed.

Lemma elem_of_eligible_bids bids p b :
  b ∈ eligible_bids bids p <-> b ∈ bids /\ units p <= units (o_price b) /\ 0 < rem_units b.
Proof.
  unfold eligible_bids, rem_units. rewrite elem_of_list_filter_bool, andb_true_iff.
  unfold dec_geb, dec_gtb. by rewrite dec_leb_spec, dec_ltb_spec, units_zero.
Qed.

Lemma elem_of_eligible_asks asks p a :
  a ∈ eligible_asks asks p <-> a ∈ asks /\ units (o_price a) <= units p /\ 0 < rem_units a.
Proof.
  unfold eligible_asks, rem_units. rewrite elem_of_list_filter_bool, andb_true_iff.
  unfold dec_gtb. by rewrite dec_leb_spec, dec_ltb_spec, units_zero.
Qed.

Lemma demand_eligible bids p :
  Forall bounded_order bids -> demand bids (units p) = zsum (map rem_units (eligible_bids bids p)).
Proof.
  intros Hb. unfold demand, eligible_bids, dec_geb, dec_gtb. induction Hb as [|o l (_ & _ & _ & Ho) Hb IH]; simpl; [done|].
  destruct (Z.leb_spec (units p) (units (o_price o))), (dec_leb p (o_price o)) eqn:E1,
    (dec_ltb dec_zero (o_remaining_size o)) eqn:E2; simpl;
  rewrite ?dec_leb_spec, ?dec_leb_gt in E1; rewrite ?dec_ltb_spec, ?dec_ltb_ge, units_zero in E2;
  unfold rem_units in *; lia.
Qed.

Lemma supply_eligible asks p :
  Forall bounded_order asks -> supply asks (units p) = zsum (map rem_units (eligible_asks asks p)).
Proof.
  intros Ha. unfold supply, eligible_asks, dec_gtb. induction Ha as [|o l (_ & _ & _ & Ho) Ha IH]; simpl; [done|].
  destruct (Z.leb_spec (units (o_price o)) (units p)), (dec_leb (o_price o) p) eqn:E1,
    (dec_ltb dec_zero (o_remaining_size o)) eqn:E2; simpl;
  rewrite ?dec_leb_spec, ?dec_leb_gt in E1; rewrite ?dec_ltb_spec, ?dec_ltb_ge, units_zero in E2;
  unfold rem_units in *; lia.
Qed.

Lemma zsum_pos_elem {A} (f : A -> Z) l : 0 < zsum (map f l) -> exists x, x ∈ l /\ 0 < f x.
Proof.
  induction l as [|x l IH]; simpl; [lia|]. intros.
  destruct (Z_lt_ge_dec 0 (f x)); [exists x; set_solver|].
  destruct IH as (y & ? & ?); [lia|]. exists y. set_solver.
Qed.

Lemma zsum_elem_le {A} (f : A -> Z) l x :
  Forall (fun y => 0 <= f y) l -> x ∈ l -> f x <= zsum (map f l).
Proof.
  induction 1 as [|y l Hy Hl IH]; [set_solver|]. simpl.
  assert (0 <= zsum (map f l)) by (by apply zsum_nonneg, Forall_map).
  intros [->|Hx]%elem_of_cons; [lia|]. specialize (IH Hx). lia.
Qed.

Lemma demand_pos bids z :
  0 < demand bids z -> exists b, b ∈ bids /\ z <= units (o_price b) /\ 0 < rem_units b.
Proof. intros (b & [Hb ?]%elem_of_list_filter_bool & ?)%zsum_pos_elem. exists b. split_and!; (done || lia). Qed.

Lemma supply_pos asks z :
  0 < supply asks z -> exists a, a ∈ asks /\ units (o_price a) <= z /\ 0 < rem_units a.
Proof. intros (b & [Hb ?]%elem_of_list_filter_bool & ?)%zsum_pos_elem. exists b. split_and!; (done || lia). Qed.

(** Some volume is executable exactly when two live orders cross. *)
Lemma executable_crossing bids asks :
  Forall bounded_order bids -> Forall bounded_order asks ->
  (exists z, 0 < executable bids asks z) <->
  exists b a, b ∈ bids /\ a ∈ asks /\ units (o_price a) <= units (o_price b) /\ 0 < rem_units b /\ 0 < rem_units a.
Proof.
  intros Hb Ha. unfold executable. split.
  - intros (z & Hz). destruct (demand_pos bids z) as (b & ? & ? & ?); [lia|].
    destruct (supply_pos asks z) as (a & ? & ? & ?); [lia|]. exists b, a. split_and!; (done || lia).
  - intros (b & a & Hbin & Hain & Hp & Hrb & Hra). exists (units (o_price b)).
    assert (rem_units b <= demand bids (units (o_price b))).
    { apply (zsum_elem_le rem_units).
      - apply Forall_filter_bool. eapply Forall_impl; [exact Hb|]. unfold bounded_order, rem_units. simpl; lia.
      - apply elem_of_list_filter_bool. split; [done|lia]. }
    assert (rem_units a <= supply asks (units (o_price b))); [|lia].
    apply (zsum_elem_le rem_units).
    + apply Forall_filter_bool. eapply Forall_impl; [exact Ha|]. unfold bounded_order, rem_units. simpl; lia.
    + apply elem_of_list_filter_bool. split; [done|lia].
Qed.

Lemma zsum_indicator ids i v :
  NoDup ids -> i ∈ ids -> zsum (map (fun j => if i =? j then v else 0) ids) = v.
Proof.
  induction 1 as [|j ids Hj Hnd IH]; [set_solver|]. simpl.
  intros [->|Hi]%elem_of_cons.
  - rewrite Z.eqb_refl. assert (zsum (map (fun k => if j =? k then v else 0) ids) = 0); [|lia].
    clear IH Hnd. induction ids as [|k ids IH]; simpl; [done|].
    destruct (Z.eqb_spec j k); [set_solver|]. rewrite IH; set_solver.
  - destruct (Z.eqb_spec i j); [set_solver|]. rewrite IH; [lia|done].
Qed.

Lemma zsum_map_add {A} (f g : A -> Z) l :
  zsum (map (fun x => f x + g x) l) = zsum (map f l) + zsum (map g l).
Proof. induction l; simpl; lia. Qed.

(** Every match is counted once on each side. *)
Lemma bid_filled_total bids ms :
  NoDup (map o_id bids) -> Forall (fun m => fill_order_id (match_bid_fill m) ∈ map o_id bids) ms ->
  zsum (map (fun b => bid_filled ms (o_id b)) bids) = fills ms.
Proof.
  intros Hnd. induction 1 as [|m ms Hm Hms IH].
  { unfold bid_filled, fills; simpl. clear. induction bids; simpl; lia. }
  unfold fills in *; simpl. rewrite <- IH, <- (zsum_indicator _ _ (units (match_size m)) Hnd Hm).
  rewrite map_map, <- zsum_map_add. f_equal. apply map_ext. intros b.
  unfold bid_filled; simpl. by destruct (_ =? _).
Qed.

Lemma ask_filled_total asks ms :
  NoDup (map o_id asks) -> Forall (fun m => fill_order_id (match_ask_fill m) ∈ map o_id asks) ms ->
  zsum (map (fun a => ask_filled ms (o_id a)) asks) = fills ms.
Proof.
  intros Hnd. induction 1 as [|m ms Hm Hms IH].
  { unfold ask_filled, fills; simpl. clear. induction asks; simpl; lia. }
  unfold fills in *; simpl. rewrite <- IH, <- (zsum_indicator _ _ (units (match_size m)) Hnd Hm).
  rewrite map_map, <- zsum_map_add. f_equal. apply map_ext. intros a.
  by rewrite ask_filled_cons.
Qed.

Lemma zsum_reduced l l' f :
  Forall2 (fun o o' => reduced o o' (f o)) l l' ->
  zsum (map rem_units l') = zsum (map rem_units l) - zsum (map f l).
Proof. induction 1 as [|o o' l l' (_ & _ & Ho) _ IH]; simpl; lia. Qed.

Lemma zsum_rem_nonneg (l : list (Order D)) : Forall bounded_order l -> 0 <= zsum (map rem_units l).
Proof.
  intros Hl. apply zsum_nonneg, Forall_map. eapply Forall_impl; [exact Hl|].
  unfold bounded_order, rem_units. simpl; lia.
Qed.

Section accounting.
Context (p : D) (bids bids' asks asks' : list (Order D)) (ms : list (Match D)).
Hypothesis Hndb : NoDup (map o_id bids).
Hypothesis Hnda : NoDup (map o_id asks).
Hypothesis Hres : matching_result p bids asks bids' asks' ms.

(** The volume matched is what left each side. *)
Lemma matching_conserves :
  zsum (map rem_units bids') = zsum (map rem_units bids) - fills ms /\
  zsum (map rem_units asks') = zsum (map rem_units asks) - fills ms.
Proof.
  destruct Hres as (M1 & M2 & M3 & _). split.
  - rewrite (zsum_reduced _ _ _ M1), bid_filled_total; [done|done|].
    eapply Forall_impl; [exact M3|]. intros m (b & Hb & -> & _). by apply list_elem_of_fmap_2.
  - rewrite (zsum_reduced _ _ _ M2), ask_filled_total; [done|done|].
    eapply Forall_impl; [exact M3|]. intros m (b & _ & _ & _ & _ & _ & _ & _ & a & Ha & -> & _).
    by apply list_elem_of_fmap_2.
Qed.

Lemma matching_fills_le : fills ms <= zsum (map rem_units bids) /\ fills ms <= zsum (map rem_units asks).
Proof.
  destruct matching_conserves as [Hb Ha]. destruct Hres as (M1 & M2 & _).
  apply reduced_bounded, zsum_rem_nonneg in M1, M2. lia.
Qed.

(** Without self-crossing the matched volume is the smaller side. *)
Lemma matching_fills_max :
  (forall b a, b ∈ bids -> a ∈ asks -> o_trader b <> o_trader a) ->
  fills ms = Z.min (zsum (map rem_units bids)) (zsum (map rem_units asks)).
Proof.
  intros Hself. pose proof matching_fills_le. destruct matching_conserves as [Hb Ha].
  pose proof Hres as (M1 & M2 & _ & M4 & _).
  pose proof (zsum_rem_nonneg _ (reduced_bounded _ _ _ M1)).
  pose proof (zsum_rem_nonneg _ (reduced_bounded _ _ _ M2)).
  destruct (Z_lt_ge_dec 0 (zsum (map rem_units bids'))) as [Hpb|]; [|lia].
  destruct (Z_lt_ge_dec 0 (zsum (map rem_units asks'))) as [Hpa|]; [|lia].
  exfalso. apply zsum_pos_elem in Hpb as (b' & Hb' & ?), Hpa as (a' & Ha' & ?).
  destruct (Forall2_elem_r _ _ _ _ M1 Hb') as (b & Hbin & Rb).
  destruct (Forall2_elem_r _ _ _ _ M2 Ha') as (a & Hain & Ra).
  destruct (M4 b' a'); [done..| |lia|lia].
  rewrite (reduced_trader _ _ _ Rb), (reduced_trader _ _ _ Ra). auto.
Qed.
End accounting.

(** The two sides of one pair's book as the auction receives them. *)
Definition auction_input bids asks : Prop :=
  auction_side bids /\ auction_side asks /\ NoDup (map o_id bids) /\ NoDup (map o_id asks).

(** A result the auction may return: an optimal clearing price and the outcome
    of the matching loop at it. *)
Definition auction_done bids asks (r : AuctionResult D) bids' asks' : Prop :=
  let cp := clearing_price r in
  dp8 cp /\ 0 < units cp < MAX_UNITS /\
  (forall z, executable bids asks z <= executable bids asks (units cp)) /\
  matches r <> [] /\ units (matched_volume r) = fills (matches r) /\ dp8 (matched_volume r) /\
  matching_result cp (eligible_bids (sort_by bid_cmp bids) cp) (eligible_asks (sort_by ask_cmp asks) cp)
    bids' asks' (matches r).

Lemma best_prices_do_not_cross bids asks bid bs ask as_ :
  sort_by bid_cmp bids = bid :: bs -> sort_by ask_cmp asks = ask :: as_ ->
  units (o_price bid) < units (o_price ask) -> forall z, executable bids asks z <= 0.
Proof.
  intros Hb Ha Hlt z. apply Z.nlt_ge. intros Hz. unfold executable in Hz.
  destruct (demand_pos bids z) as (b & Hbin & ? & _); [lia|].
  destruct (supply_pos asks z) as (a & Hain & ? & _); [lia|].
  pose proof (sorted_bids bids) as Sb. pose proof (sorted_asks asks) as Sa.
  rewrite <- (sort_by_perm bid_cmp), Hb in Hbin. rewrite <- (sort_by_perm ask_cmp), Ha in Hain.
  rewrite Hb in Sb. rewrite Ha in Sa.
  apply StronglySorted_inv in Sb as [_ Sb], Sa as [_ Sa]. rewrite Forall_forall in Sb, Sa.
  assert (units (o_price b) <= units (o_price bid)).
  { apply elem_of_cons in Hbin as [->|Hbin]; [done|]. specialize (Sb b Hbin).
    unfold cmp_le in Sb. rewrite bid_cmp_gt in Sb. lia. }
  assert (units (o_price ask) <= units (o_price a)); [|lia].
  apply elem_of_cons in Hain as [->|Hain]; [done|]. specialize (Sa a Hain).
  unfold cmp_le in Sa. rewrite ask_cmp_gt in Sa. lia.
Qed.

Lemma sum_of_matches p bids asks bids' asks' ms :
  auction_side bids -> auction_side asks -> NoDup (map o_id bids) -> NoDup (map o_id asks) ->
  matching_result p bids asks bids' asks' ms ->
  exists vol, dec_sum (map match_size ms) = Ret vol /\ units vol = fills ms /\ dp8 vol.
Proof.
  intros [Hb Hlen] _ Hndb Hnda Hres. pose proof (matching_fills_le _ _ _ _ _ _ Hndb Hnda Hres) as [Hle _].
  destruct Hres as (_ & _ & M3 & _).
  destruct (dec_sum_exact (map match_size ms)) as (vol & ? & Hvol & ?).
  - apply Forall_map. eapply Forall_impl; [exact M3|]. by intros m (b & _ & _ & _ & _ & _ & _ & ? & _).
  - apply Forall_map. eapply Forall_impl; [exact M3|]. intros m (b & _ & _ & _ & _ & _ & ? & _). simpl; lia.
  - rewrite map_map. fold (fills ms).
    assert (Forall (fun z => 0 <= z <= MAX_UNITS) (map rem_units bids)) as Hz.
    { apply Forall_map. eapply Forall_impl; [exact Hb|]. unfold bounded_order, rem_units. simpl; lia. }
    pose proof (zsum_bound _ _ Hz) as Hsum. rewrite length_map in Hsum. unfold MAX_UNITS, ULP in *. nia.
  - exists vol. rewrite map_map in Hvol. eauto.
Qed.

Lemma no_match_one_trader p bids asks bids' asks' b a :
  matching_result p bids asks bids' asks' [] -> b ∈ bids -> a ∈ asks ->
  0 < rem_units b -> 0 < rem_units a -> o_trader b = o_trader a.
Proof.
  intros (M1 & M2 & _ & M4 & _) Hb Ha Pb Pa.
  destruct (Forall2_elem_l _ _ _ _ M1 Hb) as (b' & Hb' & Rb).
  destruct (Forall2_elem_l _ _ _ _ M2 Ha) as (a' & Ha' & Ra).
  destruct (decide (o_trader b = o_trader a)) as [?|Hne]; [done|exfalso].
  rewrite <- (reduced_trader _ _ _ Rb), <- (reduced_trader _ _ _ Ra) in Hne.
  destruct Rb as (_ & _ & Rb), Ra as (_ & _ & Ra). unfold bid_filled, ask_filled in *; simpl in *.
  destruct (M4 b' a' Hb' Ha' Hne); lia.
Qed.

Lemma auction_side_filter l g : auction_side l -> auction_side (List.filter g l).
Proof.
  intros [Hb Hl]. split; [by apply Forall_filter_bool|]. pose proof (filter_length_le g l). lia.
Qed.

(** The auction never panics on such inputs.  It returns nothing only when no
    volume is executable, or when every order eligible at the clearing price
    belongs to one trader. *)
Lemma run_cases aid pr bids asks :
  auction_input bids asks ->
  (run aid pr bids asks = Ret None /\
    ((forall z, executable bids asks z <= 0) \/
     exists cp, (forall z, executable bids asks z <= executable bids asks (units cp)) /\
       forall b a, b ∈ eligible_bids bids cp -> a ∈ eligible_asks asks cp -> o_trader b = o_trader a)) \/
  (exists r bids' asks', run aid pr bids asks = Ret (Some r) /\ auction_id r = aid /\ auction_pair r = pr /\
    auction_done bids asks r bids' asks').
Proof.
  intros (Hb & Ha & Hndb & Hnda). unfold run.
  destruct bids as [|b0 bids0] eqn:Eb; [left; split; [done|left]; intros z; unfold executable, demand; simpl; lia|].
  destruct asks as [|a0 asks0] eqn:Ea; [left; split; [done|left]; intros z; unfold executable, supply; simpl; lia|].
  rewrite <- Eb, <- Ea in *.
  pose proof (sort_by_perm bid_cmp bids) as Pb. pose proof (sort_by_perm ask_cmp asks) as Pa.
  destruct (sort_by bid_cmp bids) as [|bid bs] eqn:Sb; [rewrite Eb in Pb; by apply Permutation_nil_l in Pb|].
  destruct (sort_by ask_cmp asks) as [|ask as_] eqn:Sa; [rewrite Ea in Pa; by apply Permutation_nil_l in Pa|].
  rewrite <- Sb, <- Sa in *.
  destruct (dec_ltb (o_price bid) (o_price ask)) eqn:E1.
  { apply dec_ltb_spec in E1. left. split; [done|left]. by eapply best_prices_do_not_cross. }
  assert (auction_side (sort_by bid_cmp bids)) as Hsb by (by eapply auction_side_perm).
  assert (auction_side (sort_by ask_cmp asks)) as Hsa by (by eapply auction_side_perm).
  destruct (compute_clearing_price_spec _ _ Hsb Hsa) as (cp & -> & Dcp & Hcp); simpl.
  assert (forall z, executable (sort_by bid_cmp bids) (sort_by ask_cmp asks) z = executable bids asks z) as Hex
    by (intros; by apply executable_perm).
  destruct (dec_leb cp dec_zero) eqn:E2.
  { apply dec_leb_spec in E2. rewrite units_zero in E2. left. split; [done|left].
    destruct Hcp as [[_ Hz]|[? _]]; [|lia]. intros z. by rewrite <- Hex. }
  apply dec_leb_gt in E2. rewrite units_zero in E2. destruct Hcp as [[? _]|(Bcp & _ & Hmax)]; [lia|].
  assert (NoDup (map o_id (eligible_bids (sort_by bid_cmp bids) cp))) as Neb
    by (apply NoDup_map_filter; by rewrite Pb).
  assert (NoDup (map o_id (eligible_asks (sort_by ask_cmp asks) cp))) as Nea
    by (apply NoDup_map_filter; by rewrite Pa).
  destruct (match_bids_spec cp (eligible_bids (sort_by bid_cmp bids) cp) (eligible_asks (sort_by ask_cmp asks) cp))
    as (bids' & asks' & ms & Hms & Hres); [apply Forall_filter_bool, Hsb|apply Forall_filter_bool, Hsa|done|done|].
  unfold match_orders. rewrite Hms. cbn [mbind outcome_bind].
  assert (forall z, executable bids asks z <= executable bids asks (units cp)) as Hopt
    by (intros; rewrite <- !Hex; auto).
  destruct ms as [|m ms].
  - left. split; [done|right]. exists cp. split; [done|]. intros b a Hbe Hae.
    rewrite elem_of_eligible_bids, <- Pb, <- elem_of_eligible_bids in Hbe.
    rewrite elem_of_eligible_asks, <- Pa, <- elem_of_eligible_asks in Hae.
    eapply no_match_one_trader; [exact Hres|done..| |].
    + by apply elem_of_eligible_bids in Hbe as (_ & _ & ?).
    + by apply elem_of_eligible_asks in Hae as (_ & _ & ?).
  - right. edestruct sum_of_matches as (vol & Hvol & Uvol & Dvol); [..|exact Hres|]; try done;
      [by apply auction_side_filter|by apply auction_side_filter|].
    rewrite Hvol; simpl.
    do 3 eexists. split; [done|]. split_and!; [done..|]. unfold auction_done; simpl. split_and!; try done; lia.
Qed.
End run.

(** ** Concrete books *)

(** Decides [auction_input] for the concrete decimals. *)
Definition bounded_orderb (o : Order Z) : bool :=
  (units (o_price o) mod ULP =? 0) && (0 <? units (o_price o)) && (units (o_price o) <? MAX_UNITS) &&
  (units (o_remaining_size o) mod ULP =? 0) && (0 <=? units (o_remaining_size o)) &&
  (units (o_remaining_size o) <? MAX_UNITS).

Definition auction_inputb (bids asks : list (Order Z)) : bool :=
  forallb bounded_orderb (bids ++ asks) && (length bids <=? 1000)%nat && (length asks <=? 1000)%nat &&
  bool_decide (NoDup (map o_id bids)) && bool_decide (NoDup (map o_id asks)).

(** An order of whole units. *)
Definition sample_order (i : Uuid) (t : Z) (s : Side) (p sz sq : Z) : Order Z :=
  mkOrder i [t] (str "BTC/USD") s (p * 10 ^ 28) (sz * 10 ^ 28) (sz * 10 ^ 28) (str "k") [] 0 0 sq.

Definition sample_bids : list (Order Z) :=
  [sample_order 1 1 Buy 100 5 1; sample_order 2 2 Buy 103 4 4; sample_order 3 3 Buy 103 2 3].
Definition sample_asks : list (Order Z) :=
  [sample_order 4 4 Sell 101 3 2; sample_order 5 5 Sell 99 2 5; sample_order 6 6 Sell 104 9 6].

(** Trader 1 quotes on both sides; trader 2's bid crosses trader 1's ask. *)
Definition blocked_bids : list (Order Z) := [sample_order 1 1 Buy 100 10 1; sample_order 2 2 Buy 50 5 2].
Definition blocked_asks : list (Order Z) := [sample_order 3 1 Sell 40 10 3].

Lemma bounded_orderb_spec o : bounded_orderb o = true -> bounded_order o.
Proof.
  unfold bounded_orderb, bounded_order, dp8. rewrite !andb_true_iff, !Z.eqb_eq, !Z.ltb_lt, Z.leb_le.
  intros (((((? & ?) & ?) & ?) & ?) & ?). pose proof ULP_pos.
  split_and!; try lia; apply Z.mod_divide; lia.
Qed.

Lemma auction_inputb_spec bids asks : auction_inputb bids asks = true -> auction_input bids asks.
Proof.
  unfold auction_inputb. rewrite !andb_true_iff, !bool_decide_eq_true, !Nat.leb_le, forallb_app, andb_true_iff.
  intros (((((Hb & Ha) & ?) & ?) & ?) & ?).
  split_and!; try done; split; try (assert (1000 < 2 ^ 32) by lia; lia).
  - apply List.Forall_forall. intros o Ho. rewrite forallb_forall in Hb. by apply bounded_orderb_spec, Hb.
  - apply List.Forall_forall. intros o Ho. rewrite forallb_forall in Ha. by apply bounded_orderb_spec, Ha.
Qed.

(** ** Properties *)

Section properties.
Context {D : Type} `{!DecimalOps D, !DecimalLaws D}.
Implicit Types (o bid ask : Order D) (bids asks : list (Order D)) (ms : list (Match D)).

Lemma run_done aid pr bids asks r :
  auction_input bids asks -> run aid pr bids asks = Ret (Some r) ->
  exists bids' asks', auction_done bids asks r bids' asks'.
Proof.
  intros Hin Hrun. destruct (run_cases aid pr bids asks Hin) as [[H1 _]|(r' & bids' & asks' & H1 & _ & _ & Hd)];
    rewrite Hrun in H1; simplify_eq; eauto.
Qed.

Lemma eligible_sorted_bids bids p b :
  b ∈ eligible_bids (sort_by bid_cmp bids) p <-> b ∈ bids /\ units p <= units (o_price b) /\ 0 < rem_units b.
Proof. by rewrite elem_of_eligible_bids, sort_by_perm. Qed.

Lemma eligible_sorted_asks asks p a :
  a ∈ eligible_asks (sort_by ask_cmp asks) p <-> a ∈ asks /\ units (o_price a) <= units p /\ 0 < rem_units a.
Proof. by rewrite elem_of_eligible_asks, sort_by_perm. Qed.

Lemma done_bid_filled bids asks r bids' asks' b :
  auction_input bids asks -> auction_done bids asks r bids' asks' -> b ∈ bids ->
  bid_filled (matches r) (o_id b) <= rem_units b.
Proof.
  intros ([Hbb _] & _ & Hndb & _) (_ & _ & _ & _ & _ & _ & M1 & _ & M3 & _) Hb.
  rewrite Forall_forall in M3; rewrite Forall_forall in Hbb. destruct (Hbb b Hb) as (_ & _ & _ & Hr).
  destruct (decide (units (clearing_price r) <= units (o_price b) /\ 0 < rem_units b)) as [[]|He].
  - destruct (Forall2_elem_l _ _ _ b M1) as (b' & _ & R); [by apply eligible_sorted_bids|].
    by apply reduced_nonneg in R.
  - rewrite bid_filled_none; [unfold rem_units; lia|].
    apply Forall_forall. intros m Hin Hid. destruct (M3 m Hin) as (b2 & Hb2 & Hid2 & _).
    apply eligible_sorted_bids in Hb2 as (Hb2 & ? & ?). apply He.
    assert (b = b2) as ->; [|done]. apply (NoDup_map_inj o_id bids); [done..|congruence].
Qed.

Lemma done_ask_filled bids asks r bids' asks' a :
  auction_input bids asks -> auction_done bids asks r bids' asks' -> a ∈ asks ->
  ask_filled (matches r) (o_id a) <= rem_units a.
Proof.
  intros (_ & [Hab _] & _ & Hnda) (_ & _ & _ & _ & _ & _ & _ & M2 & M3 & _) Ha.
  rewrite Forall_forall in M3; rewrite Forall_forall in Hab. destruct (Hab a Ha) as (_ & _ & _ & Hr).
  destruct (decide (units (o_price a) <= units (clearing_price r) /\ 0 < rem_units a)) as [[]|He].
  - destruct (Forall2_elem_l _ _ _ a M2) as (a' & _ & R); [by apply eligible_sorted_asks|].
    by apply reduced_nonneg in R.
  - rewrite ask_filled_none; [unfold rem_units; lia|].
    apply Forall_forall. intros m Hin Hid.
    destruct (M3 m Hin) as (_ & _ & _ & _ & _ & _ & _ & _ & a2 & Ha2 & Hid2 & _).
    apply eligible_sorted_asks in Ha2 as (Ha2 & ? & ?). apply He.
    assert (a = a2) as ->; [|done]. apply (NoDup_map_inj o_id asks); [done..|congruence].
Qed.

(** Two sorted orders of different priority occur in that order. *)
Lemma sorted_before {A} (cmp : A -> A -> comparison) l x y :
  StronglySorted (cmp_le cmp) l -> (forall a b, cmp a b = Lt -> cmp b a = Gt) ->
  x ∈ l -> y ∈ l -> cmp x y = Lt -> before l x y.
Proof.
  intros Hs Hc. induction Hs as [|z l Hs IH Hz]; [set_solver|]. intros Hx Hy Hlt.
  rewrite before_cons. apply elem_of_cons in Hx as [->|Hx], Hy as [->|Hy].
  - pose proof (Hc _ _ Hlt). congruence.
  - by left.
  - rewrite Forall_forall in Hz. destruct (Hz x Hx). auto.
  - right. auto.
Qed.

Lemma StronglySorted_filter {A} (R : A -> A -> Prop) (f : A -> bool) l :
  StronglySorted R l -> StronglySorted R (List.filter f l).
Proof.
  induction 1 as [|x l Hs IH Hx]; simpl; [constructor|].
  destruct (f x); [|done]. constructor; [done|]. by apply Forall_filter_bool.
Qed.

Lemma bid_cmp_flip (a b : Order D) : bid_cmp a b = Lt -> bid_cmp b a = Gt.
Proof. rewrite bid_cmp_lt, bid_cmp_gt. lia. Qed.

Lemma ask_cmp_flip (a b : Order D) : ask_cmp a b = Lt -> ask_cmp b a = Gt.
Proof. rewrite ask_cmp_lt, ask_cmp_gt. lia. Qed.

(** C1: the clearing price maximises the executable volume over all prices, not
    only those quoted, and has at most eight decimal places, so that it can be
    encoded for settlement. *)
Theorem run_clearing_price_optimal aid pr bids asks r :
  auction_input bids asks -> run aid pr bids asks = Ret (Some r) ->
  dp8 (clearing_price r) /\ 0 < units (clearing_price r) /\
  forall z, executable bids asks z <= executable bids asks (units (clearing_price r)).
Proof.
  intros Hin Hrun. destruct (run_done _ _ _ _ _ Hin Hrun) as (? & ? & ? & ? & ? & _).
  split_and!; (done || lia).
Qed.

(** C2: every match is a legal trade: it joins a bid and an ask of the book whose
    limits admit the clearing price, of two different traders, at the clearing
    price and for one positive size; no order is filled beyond its remaining
    size, and the reported volume is the sum of the fills. *)
Theorem run_matches_sound aid pr bids asks r :
  auction_input bids asks -> run aid pr bids asks = Ret (Some r) ->
  (forall m, m ∈ matches r ->
    match_price m = clearing_price r /\ 0 < units (match_size m) /\
    fill_size (match_bid_fill m) = match_size m /\ fill_size (match_ask_fill m) = match_size m /\
    exists b a, b ∈ bids /\ a ∈ asks /\ o_trader b <> o_trader a /\
      fill_order_id (match_bid_fill m) = o_id b /\ fill_order_id (match_ask_fill m) = o_id a /\
      units (o_price a) <= units (clearing_price r) <= units (o_price b)) /\
  (forall b, b ∈ bids -> bid_filled (matches r) (o_id b) <= rem_units b) /\
  (forall a, a ∈ asks -> ask_filled (matches r) (o_id a) <= rem_units a) /\
  units (matched_volume r) = fills (matches r).
Proof.
  intros Hin Hrun. destruct (run_done _ _ _ _ _ Hin Hrun) as (bids' & asks' & Hd).
  split_and!; [|by eauto using done_bid_filled|by eauto using done_ask_filled|apply Hd].
  destruct Hd as (_ & _ & _ & _ & _ & _ & _ & _ & M3 & _). rewrite Forall_forall in M3.
  intros m Hm. destruct (M3 m Hm) as (b & Hb & Hid & ? & ? & ? & ? & _ & a & Ha & Hida & Htr & _).
  apply eligible_sorted_bids in Hb as (? & ? & _). apply eligible_sorted_asks in Ha as (? & ? & _).
  split_and!; [done|lia|done..|]. exists b, a. split_and!; done.
Qed.

(** C3: strict price-time priority.  When a bid trades against an ask, every bid
    with a better price, or the same price and an earlier placement, is filled
    completely, unless it belongs to the ask's trader; the same holds for the
    asks. *)
Theorem run_price_time_priority aid pr bids asks r m b a :
  auction_input bids asks -> run aid pr bids asks = Ret (Some r) ->
  m ∈ matches r -> b ∈ bids -> a ∈ asks ->
  fill_order_id (match_bid_fill m) = o_id b -> fill_order_id (match_ask_fill m) = o_id a ->
  (forall b1, b1 ∈ bids -> bid_cmp b1 b = Lt -> o_trader b1 <> o_trader a ->
     bid_filled (matches r) (o_id b1) = rem_units b1) /\
  (forall a1, a1 ∈ asks -> ask_cmp a1 a = Lt -> o_trader a1 <> o_trader b ->
     ask_filled (matches r) (o_id a1) = rem_units a1).
Proof.
  intros Hin Hrun Hm Hb Ha Hidb Hida. destruct (run_done _ _ _ _ _ Hin Hrun) as (bids' & asks' & Hd).
  pose proof Hin as ([Hbb _] & [Hab _] & Hndb & Hnda).
  pose proof Hd as (_ & _ & _ & _ & _ & _ & _ & _ & M3 & _ & M5 & M6). rewrite Forall_forall in M3; rewrite Forall_forall in Hbb; rewrite Forall_forall in Hab.
  destruct (M3 m Hm) as (b' & Hb' & Hidb' & _ & _ & _ & _ & _ & a' & Ha' & Hida' & _).
  pose proof Hb' as (Hbin & Hbp & _)%eligible_sorted_bids. pose proof Ha' as (Hain & Hap & _)%eligible_sorted_asks.
  assert (b' = b) as -> by (apply (NoDup_map_inj o_id bids); [done..|congruence]).
  assert (a' = a) as -> by (apply (NoDup_map_inj o_id asks); [done..|congruence]).
  split.
  - intros b1 Hb1 Hlt Htr. destruct (Z_lt_ge_dec 0 (rem_units b1)) as [Hpos|Hz].
    + apply (M5 b1 b a m); try done. apply (sorted_before bid_cmp); try done.
      * apply StronglySorted_filter, sorted_bids.
      * apply bid_cmp_flip.
      * apply eligible_sorted_bids. apply bid_cmp_lt in Hlt. split_and!; (done || lia).
    + pose proof (done_bid_filled _ _ _ _ _ b1 Hin Hd Hb1). destruct (Hbb b1 Hb1) as (_ & _ & _ & ?).
      assert (0 <= bid_filled (matches r) (o_id b1)); [|unfold rem_units in *; lia].
      apply zsum_nonneg, Forall_map, Forall_filter_bool, Forall_forall. intros m' Hm'.
      destruct (M3 m' Hm') as (? & _ & _ & _ & _ & _ & ? & _). lia.
  - intros a1 Ha1 Hlt Htr. destruct (Z_lt_ge_dec 0 (rem_units a1)) as [Hpos|Hz].
    + apply (M6 b a1 a m); try done. apply (sorted_before ask_cmp); try done.
      * apply StronglySorted_filter, sorted_asks.
      * apply ask_cmp_flip.
      * apply eligible_sorted_asks. apply ask_cmp_lt in Hlt. split_and!; (done || lia).
    + pose proof (done_ask_filled _ _ _ _ _ a1 Hin Hd Ha1). destruct (Hab a1 Ha1) as (_ & _ & _ & ?).
      assert (0 <= ask_filled (matches r) (o_id a1)); [|unfold rem_units in *; lia].
      apply zsum_nonneg, Forall_map, Forall_filter_bool, Forall_forall. intros m' Hm'.
      destruct (M3 m' Hm') as (? & _ & _ & _ & _ & _ & ? & _). lia.
Qed.

(** C33: when no trader quotes on both sides, the auction trades as much as any
    single price allows. *)
Theorem run_volume_maximal aid pr bids asks r :
  auction_input bids asks -> (forall b a, b ∈ bids -> a ∈ asks -> o_trader b <> o_trader a) ->
  run aid pr bids asks = Ret (Some r) ->
  units (matched_volume r) = executable bids asks (units (clearing_price r)) /\
  forall z, executable bids asks z <= units (matched_volume r).
Proof.
  intros Hin Hself Hrun. destruct (run_done _ _ _ _ _ Hin Hrun) as (bids' & asks' & Hd).
  destruct Hin as (Hb & Ha & Hndb & Hnda).
  destruct Hd as (_ & _ & Hopt & _ & Hvol & _ & Hres).
  assert (units (matched_volume r) = executable bids asks (units (clearing_price r))) as Heq.
  { rewrite Hvol. erewrite matching_fills_max; [| | |exact Hres|].
    - rewrite <- (executable_perm (sort_by bid_cmp bids) bids (sort_by ask_cmp asks) asks)
        by apply sort_by_perm.
      unfold executable. rewrite demand_eligible, supply_eligible; [done|..].
      + rewrite sort_by_perm. apply Ha.
      + rewrite sort_by_perm. apply Hb.
    - apply NoDup_map_filter. by rewrite sort_by_perm.
    - apply NoDup_map_filter. by rewrite sort_by_perm.
    - intros b a (? & _)%eligible_sorted_bids (? & _)%eligible_sorted_asks. auto. }
  split; [done|]. intros z. rewrite Heq. apply Hopt.
Qed.

(** C34: the auction never panics, and when no trader quotes on both sides it
    returns a result exactly when some live bid and ask cross. *)
Theorem run_total_and_complete aid pr bids asks :
  auction_input bids asks ->
  (exists res, run aid pr bids asks = Ret res) /\
  ((forall b a, b ∈ bids -> a ∈ asks -> o_trader b <> o_trader a) ->
   (exists r, run aid pr bids asks = Ret (Some r)) <->
   exists b a, b ∈ bids /\ a ∈ asks /\ units (o_price a) <= units (o_price b) /\ 0 < rem_units b /\ 0 < rem_units a).
Proof.
  intros Hin. pose proof (run_cases aid pr bids asks Hin) as Hcases.
  split; [destruct Hcases as [[? _]|(r & _ & _ & ? & _)]; eauto|].
  intros Hself. pose proof Hin as ([Hb _] & [Ha _] & _). rewrite <- executable_crossing by done. split.
  - intros (r & Hrun). destruct (run_done _ _ _ _ _ Hin Hrun) as (bids' & asks' & Hd).
    destruct Hd as (_ & _ & _ & Hne & _ & _ & _ & _ & M3 & _).
    destruct (matches r) as [|m ms]; [done|]. apply Forall_cons in M3 as [M3 _].
    destruct M3 as (b & Hbe & _ & _ & _ & _ & _ & _ & a & Hae & _).
    apply eligible_sorted_bids in Hbe as (? & ? & ?). apply eligible_sorted_asks in Hae as (? & ? & ?).
    apply executable_crossing; [done..|]. exists b, a. split_and!; (done || lia).
  - intros (z & Hz). destruct Hcases as [[_ [Hno|(cp & Hopt & Hone)]]|(r & _ & _ & Hrun & _)]; [| |eauto].
    + specialize (Hno z). lia.
    + exfalso. specialize (Hopt z). unfold executable in *.
      destruct (demand_pos bids (units cp)) as (b & ? & ? & ?); [lia|].
      destruct (supply_pos asks (units cp)) as (a & ? & ? & ?); [lia|].
      apply (Hself b a); [done..|]. apply Hone; [by apply elem_of_eligible_bids|by apply elem_of_eligible_asks].
Qed.

(** The result does not depend on the order in which the book hands over its
    orders, because placement numbers are distinct. *)
Theorem run_order_independent aid pr bids1 bids2 asks1 asks2 :
  bids1 ≡ₚ bids2 -> asks1 ≡ₚ asks2 -> NoDup (map o_seq bids1) -> NoDup (map o_seq asks1) ->
  run aid pr bids1 asks1 = run aid pr bids2 asks2.
Proof.
  intros Hb Ha Nb Na. unfold run. rewrite (sort_bids_perm _ _ Hb Nb), (sort_asks_perm _ _ Ha Na).
  destruct bids1, bids2; try (by apply Permutation_nil_l in Hb); try (by apply Permutation_nil_r in Hb); try done.
  destruct asks1, asks2; try (by apply Permutation_nil_l in Ha); try (by apply Permutation_nil_r in Ha); done.
Qed.
End properties.

(** ** Witnesses on a concrete book *)

Definition sample_result : AuctionResult Z :=
  mkAuctionResult 7 (str "BTC/USD") (102 * 10 ^ 28) (5 * 10 ^ 28)
    [mkMatch (mkFill 3 (2 * 10 ^ 28)) (mkFill 5 (2 * 10 ^ 28)) (102 * 10 ^ 28) (2 * 10 ^ 28);
     mkMatch (mkFill 2 (3 * 10 ^ 28)) (mkFill 4 (3 * 10 ^ 28)) (102 * 10 ^ 28) (3 * 10 ^ 28)].

Lemma sample_run : run 7 (str "BTC/USD") sample_bids sample_asks = Ret (Some sample_result).
Proof. vm_compute. reflexivity. Qed.

Lemma sample_input : auction_input sample_bids sample_asks.
Proof. apply auction_inputb_spec. vm_compute. reflexivity. Qed.

Lemma sample_no_self : forall b a, b ∈ sample_bids -> a ∈ sample_asks -> o_trader b <> o_trader a.
Proof.
  intros b a Hb Ha. unfold sample_bids, sample_asks in *.
  rewrite !elem_of_cons in Hb, Ha. destruct Hb as [->|[->|[->|Hb]]]; [..|by apply not_elem_of_nil in Hb];
  destruct Ha as [->|[->|[->|Ha]]]; try done; by apply not_elem_of_nil in Ha.
Qed.

Lemma run_clearing_price_optimal_witness :
  run 7 (str "BTC/USD") sample_bids sample_asks = Ret (Some sample_result) /\
  executable sample_bids sample_asks (100 * 10 ^ 28) <= executable sample_bids sample_asks (102 * 10 ^ 28).
Proof.
  split; [exact sample_run|].
  exact (proj2 (proj2 (run_clearing_price_optimal 7 (str "BTC/USD") sample_bids sample_asks sample_result
    sample_input sample_run)) (100 * 10 ^ 28)).
Defined.

Lemma run_matches_sound_witness : units (matched_volume sample_result) = fills (matches sample_result).
Proof.
  exact (proj2 (proj2 (proj2 (run_matches_sound 7 (str "BTC/USD") sample_bids sample_asks sample_result
    sample_input sample_run)))).
Defined.

Lemma run_price_time_priority_witness : bid_filled (matches sample_result) 3 = 2 * 10 ^ 28.
Proof.
  refine (proj1 (run_price_time_priority 7 (str "BTC/USD") sample_bids sample_asks sample_result
    (mkMatch (mkFill 2 (3 * 10 ^ 28)) (mkFill 4 (3 * 10 ^ 28)) (102 * 10 ^ 28) (3 * 10 ^ 28))
    (sample_order 2 2 Buy 103 4 4) (sample_order 4 4 Sell 101 3 2)
    sample_input sample_run _ _ _ eq_refl eq_refl) (sample_order 3 3 Buy 103 2 3) _ eq_refl _); try done.
  - right; left.
  - right; left.
  - left.
  - right; right; left.
Defined.

Lemma run_volume_maximal_witness :
  units (matched_volume sample_result) = executable sample_bids sample_asks (units (clearing_price sample_result)).
Proof.
  exact (proj1 (run_volume_maximal 7 (str "BTC/USD") sample_bids sample_asks sample_result
    sample_input sample_no_self sample_run)).
Defined.

Lemma run_total_and_complete_witness : exists res, run 7 (str "BTC/USD") sample_bids sample_asks = Ret res.
Proof. exact (proj1 (run_total_and_complete 7 (str "BTC/USD") sample_bids sample_asks sample_input)). Defined.

Lemma run_order_independent_witness :
  run 7 (str "BTC/USD") sample_bids sample_asks = run 7 (str "BTC/USD") (reverse sample_bids) (reverse sample_asks).
Proof.
  apply (run_order_independent 7 (str "BTC/USD")).
  - by rewrite reverse_Permutation.
  - by rewrite reverse_Permutation.
  - apply (bool_decide_unpack _). vm_compute. exact I.
  - apply (bool_decide_unpack _). vm_compute. exact I.
Defined.

(** A trader who quotes on both sides can stop the auction of a pair.  The
    volume-maximising price is computed as if self-trades were possible, so the
    auction returns nothing although two orders of different traders cross. *)
Theorem run_blocked_by_self_cross :
  auction_input blocked_bids blocked_asks /\
  run 7 (str "BTC/USD") blocked_bids blocked_asks = Ret None /\
  exists b a, b ∈ blocked_bids /\ a ∈ blocked_asks /\ o_trader b <> o_trader a /\
    units (o_price a) < units (o_price b) /\ 0 < rem_units b /\ 0 < rem_units a.
Proof.
  split_and!.
  - apply auction_inputb_spec. vm_compute. reflexivity.
  - vm_compute. reflexivity.
  - exists (sample_order 2 2 Buy 50 5 2), (sample_order 3 1 Sell 40 10 3).
    split_and!; [right; left|left|done|by vm_compute..].
Qed.

(** ** The size of a result

    A bid meets each ask at most once. *)

Section match_count.
Context {D : Type} `{!DecimalOps D}.

Lemma match_bid_length (p : D) bid asks bid' asks' ms :
  match_bid p bid asks = Ret (bid', asks', ms) -> length asks' = length asks /\ (length ms <= length asks)%nat.
Proof.
  revert bid bid' asks' ms; induction asks as [|ask rest IH]; intros bid bid' asks' ms; cbn [match_bid].
  { intros [= _ <- <-]. done. }
  destruct (dec_leb (o_remaining_size bid) dec_zero); [intros [= _ <- <-]; simpl; lia|].
  assert (forall ask' b pre, (r ← match_bid p b rest; let '(b', rest', ms') := r in Ret (b', ask' :: rest', pre ++ ms')) =
    Ret (bid', asks', ms) -> (length pre <= 1)%nat ->
    length asks' = length (ask :: rest) /\ (length ms <= length (ask :: rest))%nat) as Hrec.
  { intros ask' b pre (((b1 & r1) & m1) & Hm & [= _ <- <-])%outcome_bind_Ret Hpre.
    apply IH in Hm as [? ?]. rewrite length_app. simpl. lia. }
  destruct (dec_leb (o_remaining_size ask) dec_zero); [intros Hm; apply (Hrec ask bid []); [exact Hm|simpl; lia]|].
  case_bool_decide; [intros Hm; apply (Hrec ask bid []); [exact Hm|simpl; lia]|].
  intros (br & _ & (ar & _ & Hm)%outcome_bind_Ret)%outcome_bind_Ret.
  apply (Hrec (set_remaining ask ar) (set_remaining bid br) [mkMatch (mkFill (o_id bid) (dec_min (o_remaining_size bid) (o_remaining_size ask)))
    (mkFill (o_id ask) (dec_min (o_remaining_size bid) (o_remaining_size ask))) p (dec_min (o_remaining_size bid) (o_remaining_size ask))]);
    [exact Hm|simpl; lia].
Qed.

Lemma match_bids_length (p : D) bids asks bids' asks' ms :
  match_bids p bids asks = Ret (bids', asks', ms) -> (length ms <= length bids * length asks)%nat.
Proof.
  revert asks bids' asks' ms; induction bids as [|bid rest IH]; intros asks bids' asks' ms; cbn [match_bids].
  { intros [= _ _ <-]. done. }
  intros (((b1 & a1) & m1) & [Hl ?]%match_bid_length & (((b2 & a2) & m2) & Hm2%IH & [= _ _ <-])%outcome_bind_Ret)%outcome_bind_Ret.
  rewrite length_app. simpl. rewrite Hl in Hm2. lia.
Qed.

Lemma run_length aid pr (bids asks : list (Order D)) r :
  run aid pr bids asks = Ret (Some r) -> (length (matches r) <= length bids * length asks)%nat.
Proof.
  unfold run. destruct bids as [|b bs]; [done|]. destruct asks as [|a as_]; [done|].
  rewrite <- (Permutation_length (sort_by_perm bid_cmp (b :: bs))), <- (Permutation_length (sort_by_perm ask_cmp (a :: as_))).
  destruct (sort_by bid_cmp (b :: bs)) as [|b' bs']; [done|]. destruct (sort_by ask_cmp (a :: as_)) as [|a' as']; [done|].
  destruct (dec_ltb _ _); [done|]. intros (cp & _ & Hrun)%outcome_bind_Ret. destruct (dec_leb cp dec_zero); [done|].
  apply outcome_bind_Ret in Hrun as (ms & Hm & Hrun).
  unfold match_orders in Hm. apply outcome_bind_Ret in Hm as (((x & y) & ms') & Hm & [= ->]).
  apply match_bids_length in Hm. assert ((length ms <= length (b' :: bs') * length (a' :: as'))%nat) as Hle.
  { etransitivity; [exact Hm|]. apply Nat.mul_le_mono; apply filter_length_le. }
  destruct ms as [|m0 ms]; [done|]. apply outcome_bind_Ret in Hrun as (vol & _ & [= <-]). exact Hle.
Qed.
End match_count.
