(* ===== verification/Events.v ===== *)
(** * Events and the event log

    [dp-event]: the events of the engine, the trait [Store] as an interface, and
    the in-memory store.  A store assigns sequence numbers and instants; the
    clock and the outcome of its I/O are the environment of the call. *)

From S2P Require Import Prelude Decimal Types.
Open Scope Z_scope.

Inductive EventData (D : Type) :=
| OrderPlaced (order_id : Uuid) (commitment proof ciphertext : bytes)
| OrderCancelled (order_id : Uuid) (reason : Str)
| OrderExpiredEv (order_id : Uuid)
| AuctionExecuted (auction_id : Uuid) (pair : Str) (clearing_price matched_volume : D)
    (match_count : Z) (timestamp : DateTime)
| OrderMatched (auction_id : Uuid) (bid ask : Fill D) (price size : D)
| BatchSubmitted (batch_id auction_id : Uuid) (tx_hash : Str) (match_count : Z) (proof : bytes)
| BatchConfirmed (batch_id : Uuid) (tx_hash : Str)
| BatchSettled (batch_id : Uuid) (block_number : Z) (tx_hash : Str)
| PairRegistered (pair base_token quote_token : Str) (min_order_size tick_size : D)
    (auction_interval_ms : option Z) (base_decimals quote_decimals : Z)
| PairSuspended (pair : Str)
| PairDelisted (pair : Str)
| BatchFolded (batch_id : Uuid) (round_index : Z) (pair : Str) (input_root : bytes).
Arguments OrderPlaced {D}.
Arguments OrderCancelled {D}.
Arguments OrderExpiredEv {D}.
Arguments AuctionExecuted {D}.
Arguments OrderMatched {D}.
Arguments BatchSubmitted {D}.
Arguments BatchConfirmed {D}.
Arguments BatchSettled {D}.
Arguments PairRegistered {D}.
Arguments PairSuspended {D}.
Arguments PairDelisted {D}.
Arguments BatchFolded {D}.

Record Event (D : Type) := mkEvent {
  ev_seq : Z;
  ev_type : EventType;
  ev_timestamp : DateTime;
  ev_data : EventData D
}.
Arguments mkEvent {D}.
Arguments ev_seq {D}.
Arguments ev_type {D}.
Arguments ev_timestamp {D}.
Arguments ev_data {D}.

Definition event_type {D} (d : EventData D) : EventType :=
  match d with
  | OrderPlaced _ _ _ _ => TOrderPlaced
  | OrderCancelled _ _ => TOrderCancelled
  | OrderExpiredEv _ => TOrderExpired
  | AuctionExecuted _ _ _ _ _ _ => TAuctionExecuted
  | OrderMatched _ _ _ _ _ => TOrderMatched
  | BatchSubmitted _ _ _ _ _ => TBatchSubmitted
  | BatchConfirmed _ _ => TBatchConfirmed
  | BatchSettled _ _ _ => TBatchSettled
  | PairRegistered _ _ _ _ _ _ _ _ => TPairRegistered
  | PairSuspended _ => TPairSuspended
  | PairDelisted _ => TPairDelisted
  | BatchFolded _ _ _ _ => TBatchFolded
  end.

(** An event before a store has numbered it. *)
Definition new_event {D} (ts : DateTime) (d : EventData D) : Event D :=
  mkEvent 0 (event_type d) ts d.

Inductive EventError :=
| EvLimitMustBePositive
| EvIo
| EvBincode
| EvCorruptEvent (offset : Z)
| EvSqlx
| EvMigrate
| EvTimeout.

#[export] Instance EventError_eq_dec : EqDecision EventError.
Proof. solve_decision. Defined.

(** The environment of a store call.  [env_clock n] is what the clock reads when
    the event numbered [n] is stamped.  [env_io] is [None] when all I/O
    succeeds; [Some (k, b)] when it fails after [k] bytes reached the medium
    and [b] bytes, those included, were accepted by the writer. *)
Record StoreEnv := mkStoreEnv { env_clock : Z -> DateTime; env_io : option (nat * nat) }.

(** ** [store.rs] *)

Section store.
Context {D : Type}.

Definition assign_seq_and_timestamp (clock : Z -> DateTime) (e : Event D) (sq : Z) : Event D * Z :=
  let sq' := wrap64 (sq + 1) in
  let ts := if ev_timestamp e =? default_time then clock sq' else ev_timestamp e in
  (mkEvent sq' (ev_type e) ts (ev_data e), sq').

Fixpoint assign_all (clock : Z -> DateTime) (evs : list (Event D)) (sq : Z) : list (Event D) * Z :=
  match evs with
  | [] => ([], sq)
  | e :: evs' =>
    let '(e', sq1) := assign_seq_and_timestamp clock e sq in
    let '(evs'', sq2) := assign_all clock evs' sq1 in
    (e' :: evs'', sq2)
  end.

(** [partition_point] of a list whose elements that satisfy [f] come first. *)
Fixpoint partition_point {A} (f : A -> bool) (l : list A) : nat :=
  match l with
  | x :: l' => if f x then S (partition_point f l') else 0
  | [] => 0
  end.

Definition index_after (evs : list (Event D)) (after_seq : Z) : nat :=
  if after_seq =? 0 then 0%nat
  else partition_point (fun e => ev_seq e <=? after_seq) evs.

(** The read both in-process stores perform on their cached events. *)
Definition read_slice (evs : list (Event D)) (after_seq limit : Z) :
    outcome (result (list (Event D)) EventError) :=
  if limit =? 0 then Ret (Err EvLimitMustBePositive)
  else
    let start := Z.of_nat (index_after evs after_seq) in
    let len := Z.of_nat (length evs) in
    if len <=? start then Ret (Ok [])
    else
      let stop := Z.min (wrap64 (start + limit)) len in
      if stop <? start then Panic
      else Ret (Ok (take (Z.to_nat (stop - start)) (drop (Z.to_nat start) evs))).
End store.

(** ** The trait [Store]

    [st_log] is the log a store holds, oldest event first; [st_wf] its
    invariant. *)

Class StoreOps (D S : Type) := {
  st_append : StoreEnv -> S -> list (Event D) -> S * result (list (Event D)) EventError;
  st_read_from : S -> Z -> Z -> outcome (result (list (Event D)) EventError);
  st_last_seq : S -> Z;
  st_compact_before : StoreEnv -> S -> Z -> S * result unit EventError;
  st_log : S -> list (Event D);
  st_wf : S -> Prop
}.

(** [e'] is [e] with a number and, if it had none, an instant. *)
Definition stamped {D} (clock : Z -> DateTime) (e e' : Event D) : Prop :=
  ev_type e' = ev_type e /\ ev_data e' = ev_data e /\
  ev_timestamp e' = (if ev_timestamp e =? default_time then clock (ev_seq e') else ev_timestamp e).

(** The log's numbers grow strictly, from at least 1 to at most [last]. *)
Definition log_ordered {D} (log : list (Event D)) (last : Z) : Prop :=
  StronglySorted (fun e1 e2 => ev_seq e1 < ev_seq e2) log /\
  Forall (fun e => 1 <= ev_seq e <= last) log /\ 0 <= last <= u64_max.

(** What the engine relies on. *)
Class StoreLaws (D S : Type) `{!StoreOps D S} := {
  st_wf_ordered : forall s, st_wf s -> log_ordered (st_log s) (st_last_seq s);
  st_append_ok : forall env s evs s' evs',
    st_wf s -> st_last_seq s + Z.of_nat (length evs) <= u64_max ->
    st_append env s evs = (s', Ok evs') ->
    st_wf s' /\ st_log s' = st_log s ++ evs' /\ Forall2 (stamped (env_clock env)) evs evs' /\
    Forall (fun e => st_last_seq s < ev_seq e) evs' /\
    st_last_seq s <= st_last_seq s' <= st_last_seq s + Z.of_nat (length evs);
  st_append_err : forall env s evs s' e,
    st_wf s -> st_last_seq s + Z.of_nat (length evs) <= u64_max ->
    st_append env s evs = (s', Err e) ->
    st_wf s' /\ st_log s' = st_log s /\
    st_last_seq s <= st_last_seq s' <= st_last_seq s + Z.of_nat (length evs);
  st_read_ok : forall s after limit,
    st_wf s -> 0 < limit -> Z.of_nat (length (st_log s)) + limit <= u64_max ->
    st_read_from s after limit =
      Ret (Ok (take (Z.to_nat limit) (List.filter (fun e => after <? ev_seq e) (st_log s))));
  st_compact_ok : forall env s before s' u,
    st_wf s -> st_compact_before env s before = (s', Ok u) ->
    st_wf s' /\ st_last_seq s' = st_last_seq s /\
    st_log s' = List.filter (fun e => (before =? 0) || (before <=? ev_seq e)) (st_log s);
  st_compact_err : forall env s before s' e,
    st_wf s -> st_compact_before env s before = (s', Err e) ->
    st_wf s' /\ st_last_seq s' = st_last_seq s /\ st_log s' = st_log s
}.

(** ** [mem_store.rs] *)

Module MemStore.

Record Inner (D : Type) := mkInner { events : list (Event D); seq : Z }.
Arguments mkInner {D}.
Arguments events {D}.
Arguments seq {D}.

Section mem_store.
Context {D : Type}.

Definition new : Inner D := mkInner [] 0.

(** The loop numbers an event and pushes it. *)
Fixpoint append_loop (clock : Z -> DateTime) (s : Inner D) (evs : list (Event D)) : Inner D * list (Event D) :=
  match evs with
  | [] => (s, [])
  | e :: evs' =>
    let '(e', sq) := assign_seq_and_timestamp clock e (seq s) in
    let '(s', evs'') := append_loop clock (mkInner (events s ++ [e']) sq) evs' in
    (s', e' :: evs'')
  end.

Definition append (env : StoreEnv) (s : Inner D) (evs : list (Event D)) :
    Inner D * result (list (Event D)) EventError :=
  let '(s', evs') := append_loop (env_clock env) s evs in (s', Ok evs').

Definition read_from (s : Inner D) (after_seq limit : Z) : outcome (result (list (Event D)) EventError) :=
  read_slice (events s) after_seq limit.

Definition last_seq (s : Inner D) : Z := seq s.

Definition compact_before (s : Inner D) (before_seq : Z) : Inner D * result unit EventError :=
  if before_seq =? 0 then (s, Ok tt)
  else (mkInner (List.filter (fun e => before_seq <=? ev_seq e) (events s)) (seq s), Ok tt).

Definition wf (s : Inner D) : Prop := log_ordered (events s) (seq s).
End mem_store.

#[global] Instance mem_store_ops D : StoreOps D (Inner D) := {|
  st_append := append;
  st_read_from := read_from;
  st_last_seq := last_seq;
  st_compact_before := fun _ => compact_before;
  st_log := events;
  st_wf := wf
|}.
End MemStore.

(** ** Facts about numbering and slicing shared by the stores *)

Section log_lemmas.
Context {D : Type}.
Implicit Types (e : Event D) (evs : list (Event D)).

Lemma assign_all_spec clock evs sq evs' sq' :
  0 <= sq -> sq + Z.of_nat (length evs) <= u64_max -> assign_all clock evs sq = (evs', sq') ->
  Forall2 (stamped clock) evs evs' /\ sq' = sq + Z.of_nat (length evs) /\
  map ev_seq evs' = map (fun i => sq + 1 + Z.of_nat i) (List.seq 0 (length evs)).
Proof.
  revert sq evs'; induction evs as [|e evs IH]; intros sq evs' H0 Hb; simpl.
  { intros [= <- <-]. split_and!; [constructor|lia|done]. }
  simpl length in Hb. destruct (assign_all clock evs (wrap64 (sq + 1))) as [evs1 sq1] eqn:E.
  intros [= <- <-]. rewrite wrap64_id in * by lia.
  destruct (IH (sq + 1) evs1) as (H1 & H2 & H3); [lia..|done|].
  split_and!.
  - constructor; [|done]. by unfold stamped.
  - lia.
  - simpl. f_equal; [lia|]. rewrite H3, <- seq_shift, map_map. apply map_ext. lia.
Qed.

(** The numbers of a run of assigned events. *)
Lemma assigned_bounds evs sq n :
  map ev_seq evs = map (fun i => sq + 1 + Z.of_nat i) (List.seq 0 n) ->
  StronglySorted (fun e1 e2 => ev_seq e1 < ev_seq e2) evs /\
  Forall (fun e => sq + 1 <= ev_seq e <= sq + Z.of_nat n) evs.
Proof.
  revert evs sq; induction n as [|n IH]; intros [|e evs] sq; simpl; try done.
  { intros _. split; constructor. }
  intros [= He Hevs]. rewrite <- seq_shift, map_map in Hevs.
  destruct (IH evs (sq + 1)) as [H1 H2].
  { rewrite Hevs. apply map_ext. lia. }
  split.
  - constructor; [done|]. eapply Forall_impl; [exact H2|]. simpl; lia.
  - constructor; [lia|]. eapply Forall_impl; [exact H2|]. simpl; lia.
Qed.

Lemma log_ordered_app evs1 evs2 last last' :
  log_ordered evs1 last -> last <= last' <= u64_max ->
  StronglySorted (fun e1 e2 => ev_seq e1 < ev_seq e2) evs2 ->
  Forall (fun e => last < ev_seq e <= last') evs2 -> log_ordered (evs1 ++ evs2) last'.
Proof.
  intros (S1 & F1 & B1) Hl S2 F2. split_and!; [| |lia..].
  - apply StronglySorted_app_2; [|done|done]. intros e1 e2 H1 H2.
    rewrite Forall_forall in F1. rewrite Forall_forall in F2. specialize (F1 e1 H1). specialize (F2 e2 H2). lia.
  - apply Forall_app. split; (eapply Forall_impl; [eassumption|simpl; lia]).
Qed.

Lemma sorted_after evs after :
  StronglySorted (fun e1 e2 => ev_seq e1 < ev_seq e2) evs ->
  drop (partition_point (fun e => ev_seq e <=? after) evs) evs =
    List.filter (fun e => after <? ev_seq e) evs.
Proof.
  induction 1 as [|e evs Hs IH Hlt]; simpl; [done|].
  destruct (Z.leb_spec (ev_seq e) after), (Z.ltb_spec after (ev_seq e)); try lia; [done|].
  simpl. f_equal. symmetry. apply forallb_filter_id, forallb_forall. intros e' He'.
  rewrite List.Forall_forall in Hlt. specialize (Hlt e' He'). lia.
Qed.

Lemma filter_all evs (f : Event D -> bool) : Forall (fun e => f e = true) evs -> List.filter f evs = evs.
Proof. induction 1 as [|e evs He _ IH]; simpl; [done|]. by rewrite He, IH. Qed.

Lemma drop_index_after evs after last :
  log_ordered evs last ->
  drop (index_after evs after) evs = List.filter (fun e => after <? ev_seq e) evs.
Proof.
  intros (Hs & Hb & _). unfold index_after. destruct (Z.eqb_spec after 0) as [->|]; [|by apply sorted_after].
  rewrite drop_0, filter_all; [done|]. eapply Forall_impl; [exact Hb|]. simpl; lia.
Qed.

Lemma partition_point_le {A} (f : A -> bool) l : (partition_point f l <= length l)%nat.
Proof. induction l as [|x l IH]; simpl; [lia|]. destruct (f x); lia. Qed.

Lemma index_after_le evs after : (index_after evs after <= length evs)%nat.
Proof. unfold index_after. destruct (_ =? _); [lia|]. apply partition_point_le. Qed.

(** A read returns the first [limit] events past [after]. *)
Lemma read_slice_spec evs after limit last :
  log_ordered evs last -> 0 < limit -> Z.of_nat (length evs) + limit <= u64_max ->
  read_slice evs after limit =
    Ret (Ok (take (Z.to_nat limit) (List.filter (fun e => after <? ev_seq e) evs))).
Proof.
  intros Ho Hl Hb. unfold read_slice. rewrite <- (drop_index_after evs after last Ho).
  pose proof (index_after_le evs after) as Hi.
  destruct (Z.eqb_spec limit 0); [lia|]. destruct (Z.leb_spec (Z.of_nat (length evs)) (Z.of_nat (index_after evs after))).
  - rewrite drop_ge by lia. by rewrite take_nil.
  - rewrite wrap64_id by lia. destruct (Z.ltb_spec (Z.min (Z.of_nat (index_after evs after) + limit) (Z.of_nat (length evs)))
      (Z.of_nat (index_after evs after))); [lia|].
    rewrite Nat2Z.id. do 2 f_equal. set (i := index_after evs after) in *.
    destruct (Z_le_gt_dec (Z.of_nat i + limit) (Z.of_nat (length evs))).
    + rewrite Z.min_l by lia. f_equal. lia.
    + rewrite Z.min_r by lia. rewrite !take_ge; [done|rewrite length_drop; lia..].
Qed.

Lemma log_ordered_filter evs last (f : Event D -> bool) :
  log_ordered evs last -> log_ordered (List.filter f evs) last.
Proof.
  intros (Hs & Hb & Hl). split_and!; [| |lia..].
  - clear Hb. induction Hs as [|e evs Hs IH He]; simpl; [constructor|].
    destruct (f e); [|done]. constructor; [done|].
    apply List.Forall_forall. intros e' [He' _]%filter_In. rewrite List.Forall_forall in He. auto.
  - apply List.Forall_forall. intros e' [He' _]%filter_In. rewrite List.Forall_forall in Hb. auto.
Qed.
End log_lemmas.

Module MemStoreFacts.
Import MemStore.
Section mem_facts.
Context {D : Type}.

Lemma append_loop_assign clock (s : Inner D) evs :
  append_loop clock s evs =
    let '(evs', sq) := assign_all clock evs (MemStore.seq s) in (mkInner (events s ++ evs') sq, evs').
Proof.
  revert s; induction evs as [|e evs IH]; intros s; simpl; [by rewrite app_nil_r; destruct s|].
  rewrite IH; simpl. destruct (assign_all _ _ _) as [evs' sq]. by rewrite <- app_assoc.
Qed.

#[global] Instance mem_store_laws : StoreLaws D (Inner D).
Proof.
  split; simpl; unfold wf, last_seq; [done|..].
  - intros env s evs s' evs' Hwf Hb. unfold append. rewrite append_loop_assign.
    destruct (assign_all _ _ _) as [evs1 sq1] eqn:E. intros [= <- <-]; simpl.
    pose proof Hwf as (_ & _ & ?).
    apply assign_all_spec in E as (H1 & -> & H3); [|lia..]. apply assigned_bounds in H3 as [H3 H4].
    split_and!; [|done..| |lia|lia].
    + eapply log_ordered_app; [exact Hwf|lia|done|]. eapply Forall_impl; [exact H4|]. simpl; lia.
    + eapply Forall_impl; [exact H4|]. simpl; lia.
  - intros env s evs s' e _ _. unfold append. by destruct (append_loop _ _ _).
  - intros s after limit Hwf Hl Hb. by eapply read_slice_spec.
  - intros env s before s' u Hwf. unfold compact_before.
    destruct (Z.eqb_spec before 0); intros [= <-]; simpl.
    + split_and!; try done. symmetry. apply filter_all, Forall_true. done.
    + split_and!; try done. by apply log_ordered_filter.
  - intros env s before s' e _. unfold compact_before. by destruct (_ =? _).
Qed.
End mem_facts.
End MemStoreFacts.
