(* ===== verification/Book.v ===== *)
(** * The order book

    [dp-book/src/book.rs]: one sub-book of bids and asks per pair, keyed by order
    id, with the number of the last applied event.  The abstract book is a
    finite map from ids to orders; [represents] relates the two and the lemmas
    show that every operation implements its abstract counterpart, for any
    iteration order of the hash maps. *)

From S2P Require Import Prelude Decimal Types Events Auction.
Open Scope Z_scope.

Record PerPairBook (D : Type) := mkPerPairBook {
  ppb_bids : gmap Uuid (Order D);
  ppb_asks : gmap Uuid (Order D)
}.
Arguments mkPerPairBook {D}.
Arguments ppb_bids {D}.
Arguments ppb_asks {D}.

Record Inner (D : Type) := mkInner {
  books : gmap Str (PerPairBook D);
  book_seq : Z
}.
Arguments mkInner {D}.
Arguments books {D}.
Arguments book_seq {D}.

(** A snapshot is a copy of the state. *)
Record BookSnapshot (D : Type) := mkBookSnapshot { snap_inner : Inner D }.
Arguments mkBookSnapshot {D}.
Arguments snap_inner {D}.

Section book.
Context {D : Type} `{!DecimalOps D} {HI : HashIter}.
Implicit Types (inner : Inner D) (b : PerPairBook D) (o : Order D).

Definition ppb_default : PerPairBook D := mkPerPairBook ∅ ∅.

Definition is_empty (b : PerPairBook D) : bool :=
  bool_decide (ppb_bids b = ∅) && bool_decide (ppb_asks b = ∅).

Definition new : Inner D := mkInner ∅ 0.

Definition to_snapshot (inner : Inner D) : BookSnapshot D := mkBookSnapshot inner.
Definition restore_from (inner : Inner D) (snap : BookSnapshot D) : Inner D := snap_inner snap.
Definition applied_seq (inner : Inner D) : Z := book_seq inner.

Definition insert_order (inner : Inner D) (o : Order D) : Inner D :=
  let b := default ppb_default (books inner !! o_pair o) in
  let b' := match o_side o with
            | Buy => mkPerPairBook (<[o_id o := o]> (ppb_bids b)) (ppb_asks b)
            | Sell => mkPerPairBook (ppb_bids b) (<[o_id o := o]> (ppb_asks b))
            end in
  mkInner (<[o_pair o := b']> (books inner)) (book_seq inner).

(** Sorted sides of one pair. *)
Definition bids (inner : Inner D) (pr : Str) : list (Order D) :=
  match books inner !! pr with
  | None => []
  | Some b => sort_by bid_cmp (hm_values (ppb_bids b))
  end.

Definition asks (inner : Inner D) (pr : Str) : list (Order D) :=
  match books inner !! pr with
  | None => []
  | Some b => sort_by ask_cmp (hm_values (ppb_asks b))
  end.

Definition sub_orders (b : PerPairBook D) : list (Order D) :=
  hm_values (ppb_bids b) ++ hm_values (ppb_asks b).

Definition iter_all (inner : Inner D) : list (Order D) :=
  flat_map sub_orders (hm_values (books inner)).

Definition pairs (inner : Inner D) : list Str := hm_keys (books inner).

Definition is_expired (now : DateTime) (o : Order D) : bool :=
  negb (o_expires_at o =? default_time) && (o_expires_at o <=? now).

Definition collect_expired (inner : Inner D) (now : DateTime) : list (Event D) :=
  flat_map (fun b => map (fun o => mkEvent 0 TOrderExpired default_time (OrderExpiredEv (o_id o)))
      (List.filter (is_expired now) (sub_orders b)))
    (hm_values (books inner)).

Fixpoint find_in (i : Uuid) (l : list (PerPairBook D)) : option (Order D) :=
  match l with
  | [] => None
  | b :: l' =>
    match ppb_bids b !! i with
    | Some o => Some o
    | None => match ppb_asks b !! i with
              | Some o => Some o
              | None => find_in i l'
              end
    end
  end.

Definition find_order (inner : Inner D) (i : Uuid) : option (Order D) :=
  find_in i (hm_values (books inner)).

Definition has_order (inner : Inner D) (i : Uuid) : bool :=
  existsb (fun b => bool_decide (is_Some (ppb_bids b !! i)) || bool_decide (is_Some (ppb_asks b !! i)))
    (hm_values (books inner)).

Definition nat_sum (l : list nat) : nat := foldr Nat.add 0%nat l.

Definition active_order_count (inner : Inner D) : nat :=
  nat_sum (map (fun b => (size (ppb_bids b) + size (ppb_asks b))%nat) (hm_values (books inner))).

Definition active_order_count_for_trader (inner : Inner D) (t : Address) : nat :=
  nat_sum (map (fun b =>
      (length (List.filter (fun o => bool_decide (o_trader o = t)) (hm_values (ppb_bids b))) +
       length (List.filter (fun o => bool_decide (o_trader o = t)) (hm_values (ppb_asks b))))%nat)
    (hm_values (books inner))).

Definition len_for (inner : Inner D) (pr : Str) : nat :=
  match books inner !! pr with
  | Some b => (size (ppb_bids b) + size (ppb_asks b))%nat
  | None => 0%nat
  end.

Definition order_ids_for (inner : Inner D) (pr : Str) : list Uuid :=
  match books inner !! pr with
  | None => []
  | Some b => hm_keys (ppb_bids b) ++ hm_keys (ppb_asks b)
  end.

(** Stores a sub-book back, or drops it when it has become empty. *)
Definition put_or_drop (bs : gmap Str (PerPairBook D)) (pr : Str) (b : PerPairBook D) : gmap Str (PerPairBook D) :=
  if is_empty b then delete pr bs else <[pr := b]> bs.

(** The loop of [remove_order]: the first sub-book with the order, without it. *)
Fixpoint remove_in (i : Uuid) (l : list (Str * PerPairBook D)) : option (Str * PerPairBook D) :=
  match l with
  | [] => None
  | (pr, b) :: l' =>
    if bool_decide (is_Some (ppb_bids b !! i)) then Some (pr, mkPerPairBook (delete i (ppb_bids b)) (ppb_asks b))
    else if bool_decide (is_Some (ppb_asks b !! i)) then Some (pr, mkPerPairBook (ppb_bids b) (delete i (ppb_asks b)))
    else remove_in i l'
  end.

Definition remove_order (inner : Inner D) (i : Uuid) : Inner D :=
  match remove_in i (hm_iter (books inner)) with
  | None => inner
  | Some (pr, b) => mkInner (put_or_drop (books inner) pr b) (book_seq inner)
  end.

(** A fill of one order in its side: [None] is a rejected overfill. *)
Definition fill_side (m : gmap Uuid (Order D)) (o : Order D) (f : Fill D) : outcome (option (gmap Uuid (Order D))) :=
  if dec_gtb (fill_size f) (o_remaining_size o) then Ret None
  else
    r ← or_panic (dec_sub (o_remaining_size o) (fill_size f));
    if dec_leb r dec_zero then Ret (Some (delete (fill_order_id f) m))
    else Ret (Some (<[fill_order_id f := set_remaining o r]> m)).

(** The loop of [apply_fill]. *)
Fixpoint fill_in (f : Fill D) (l : list (Str * PerPairBook D)) : outcome (option (Str * PerPairBook D)) :=
  match l with
  | [] => Ret None
  | (pr, b) :: l' =>
    match ppb_bids b !! fill_order_id f with
    | Some o =>
      m ← fill_side (ppb_bids b) o f;
      Ret (option_map (fun m' => (pr, mkPerPairBook m' (ppb_asks b))) m)
    | None =>
      match ppb_asks b !! fill_order_id f with
      | Some o =>
        m ← fill_side (ppb_asks b) o f;
        Ret (option_map (fun m' => (pr, mkPerPairBook (ppb_bids b) m')) m)
      | None => fill_in f l'
      end
    end
  end.

Definition apply_fill (inner : Inner D) (f : Fill D) : outcome (Inner D) :=
  hit ← fill_in f (hm_iter (books inner));
  Ret match hit with
      | None => inner
      | Some (pr, b) => mkInner (put_or_drop (books inner) pr b) (book_seq inner)
      end.

Definition apply (inner : Inner D) (e : Event D) : outcome (Inner D) :=
  if negb (ev_seq e =? 0) && (ev_seq e <=? book_seq inner) then Ret inner
  else
    let inner := if book_seq inner <? ev_seq e then mkInner (books inner) (ev_seq e) else inner in
    match ev_data e with
    | OrderCancelled i _ | OrderExpiredEv i => Ret (remove_order inner i)
    | OrderMatched _ bid ask _ _ =>
      inner ← apply_fill inner bid;
      apply_fill inner ask
    | _ => Ret inner
    end.

Definition BATCH : Z := 1024.

(** [replay] reads batches past the applied number until one is empty. *)
Fixpoint replay {St} `{!StoreOps D St} (fuel : nat) (inner : Inner D) (store : St) :
    outcome (option (result (Inner D) EventError)) :=
  match fuel with
  | O => Ret None
  | S fuel' =>
    r ← st_read_from store (book_seq inner) BATCH;
    match r with
    | Err e => Ret (Some (Err e))
    | Ok [] => Ret (Some (Ok inner))
    | Ok evs => inner' ← foldM apply inner evs; replay fuel' inner' store
    end
  end.
End book.

(** ** The abstract book *)

Section spec.
Context {D : Type} `{!DecimalOps D} {HI : HashIter}.
Implicit Types (inner : Inner D) (b : PerPairBook D) (o : Order D) (m : gmap Uuid (Order D)).

Definition side_map (b : PerPairBook D) (s : Side) : gmap Uuid (Order D) :=
  match s with Buy => ppb_bids b | Sell => ppb_asks b end.

Definition set_side (b : PerPairBook D) (s : Side) (m : gmap Uuid (Order D)) : PerPairBook D :=
  match s with
  | Buy => mkPerPairBook m (ppb_asks b)
  | Sell => mkPerPairBook (ppb_bids b) m
  end.

(** The order a sub-book holds on a side under an id. *)
Definition side_at (bs : gmap Str (PerPairBook D)) (pr : Str) (s : Side) (i : Uuid) : option (Order D) :=
  match bs !! pr with Some b => side_map b s !! i | None => None end.

(** The invariant and the abstraction in one: the sub-books are not empty, an
    order lies where its id, pair and side say, and the map holds exactly the
    orders of the sub-books. *)
Definition represents (inner : Inner D) (m : gmap Uuid (Order D)) : Prop :=
  (forall pr b, books inner !! pr = Some b -> is_empty b = false) /\
  (forall pr s i o, side_at (books inner) pr s i = Some o -> o_id o = i /\ o_pair o = pr /\ o_side o = s) /\
  (forall i o, m !! i = Some o <-> side_at (books inner) (o_pair o) (o_side o) i = Some o).

Definition spec_fill (m : gmap Uuid (Order D)) (f : Fill D) : outcome (gmap Uuid (Order D)) :=
  match m !! fill_order_id f with
  | None => Ret m
  | Some o => m' ← fill_side m o f; Ret (default m m')
  end.

Definition spec_apply (st : Z * gmap Uuid (Order D)) (e : Event D) : outcome (Z * gmap Uuid (Order D)) :=
  let '(sq, m) := st in
  if negb (ev_seq e =? 0) && (ev_seq e <=? sq) then Ret (sq, m)
  else
    let sq' := Z.max sq (ev_seq e) in
    match ev_data e with
    | OrderCancelled i _ | OrderExpiredEv i => Ret (sq', delete i m)
    | OrderMatched _ bid ask _ _ => m1 ← spec_fill m bid; m2 ← spec_fill m1 ask; Ret (sq', m2)
    | _ => Ret (sq', m)
    end.
End spec.

Section refinement.
Context {D : Type} `{!DecimalOps D} {HI : HashIter}.
Implicit Types (inner : Inner D) (b : PerPairBook D) (o : Order D) (m : gmap Uuid (Order D)).

Lemma side_map_set b s s' m : side_map (set_side b s m) s' = if decide (s = s') then m else side_map b s'.
Proof. by destruct s, s'. Qed.

Lemma is_empty_spec b : is_empty b = true <-> forall s, side_map b s = ∅.
Proof.
  unfold is_empty. rewrite andb_true_iff, !bool_decide_eq_true. split.
  - intros [H1 H2] []; done.
  - intros Hs. split; [apply (Hs Buy)|apply (Hs Sell)].
Qed.

Lemma side_at_put bs pr b pr' s i :
  side_at (put_or_drop bs pr b) pr' s i = if decide (pr = pr') then side_map b s !! i else side_at bs pr' s i.
Proof.
  unfold side_at, put_or_drop. destruct (is_empty b) eqn:E; destruct (decide (pr = pr')) as [<-|Hne].
  - rewrite lookup_delete_eq. apply is_empty_spec with (s:=s) in E. by rewrite E.
  - by rewrite lookup_delete_ne.
  - by rewrite lookup_insert_eq.
  - by rewrite lookup_insert_ne.
Qed.

Lemma put_or_drop_nonempty bs pr b :
  (forall p b, bs !! p = Some b -> is_empty b = false) ->
  forall p b', put_or_drop bs pr b !! p = Some b' -> is_empty b' = false.
Proof.
  intros Hne p b'. unfold put_or_drop. destruct (is_empty b) eqn:E.
  - intros [_ ?]%lookup_delete_Some. eauto.
  - intros [[_ <-]|[_ ?]]%lookup_insert_Some; eauto.
Qed.

Lemma side_at_default inner pr s i :
  side_map (default ppb_default (books inner !! pr)) s !! i = side_at (books inner) pr s i.
Proof. unfold side_at. destruct (books inner !! pr); [done|]. by destruct s. Qed.

(** Changing one id in the place the order belongs to changes just that id. *)
Lemma represents_alter inner m pr s i upd sq :
  let b := default ppb_default (books inner !! pr) in
  represents inner m ->
  (forall o', upd = Some o' -> o_id o' = i /\ o_pair o' = pr /\ o_side o' = s) ->
  (forall o, m !! i = Some o -> o_pair o = pr /\ o_side o = s) ->
  represents (mkInner (put_or_drop (books inner) pr (set_side b s (partial_alter (fun _ => upd) i (side_map b s)))) sq)
    (partial_alter (fun _ => upd) i m).
Proof.
  intros b (Hne & Hloc & Hiff) Hupd Hm.
  assert (forall pr' s' j, side_at (put_or_drop (books inner) pr
      (set_side b s (partial_alter (fun _ => upd) i (side_map b s)))) pr' s' j =
    if decide (pr = pr' /\ s = s' /\ i = j) then upd else side_at (books inner) pr' s' j) as Hside.
  { intros pr' s' j. rewrite side_at_put.
    destruct (decide (pr = pr')) as [<-|]; [|by rewrite decide_False by tauto].
    rewrite side_map_set. destruct (decide (s = s')) as [<-|].
    2: { rewrite decide_False by tauto. apply side_at_default. }
    destruct (decide (i = j)) as [<-|].
    - by rewrite lookup_partial_alter_eq, decide_True by done.
    - rewrite lookup_partial_alter_ne, decide_False by (tauto || done). apply side_at_default. }
  split_and!; simpl.
  - by apply put_or_drop_nonempty.
  - intros pr' s' j o. rewrite Hside. case_decide as Hd; [|eauto].
    destruct Hd as (-> & -> & ->). apply Hupd.
  - intros j o. rewrite Hside. destruct (decide (i = j)) as [<-|Hij].
    + rewrite lookup_partial_alter_eq. case_decide as Hd; [done|]. split.
      * intros Ho. destruct (Hupd o Ho) as (? & ? & ?). naive_solver.
      * intros Ho. apply Hiff, Hm in Ho. naive_solver.
    + rewrite lookup_partial_alter_ne by done. rewrite decide_False by tauto. apply Hiff.
Qed.

Lemma represents_new : represents (D:=D) new ∅.
Proof.
  split_and!; simpl.
  - intros pr b. by rewrite lookup_empty.
  - intros pr s i o. unfold side_at. by rewrite lookup_empty.
  - intros i o. unfold side_at. by rewrite !lookup_empty.
Qed.

Lemma insert_nonempty b s i o : is_empty (set_side b s (<[i := o]> (side_map b s))) = false.
Proof.
  apply not_true_iff_false. rewrite is_empty_spec. intros Hs. specialize (Hs s).
  rewrite side_map_set, decide_True in Hs by done. by apply insert_non_empty in Hs.
Qed.

Lemma insert_order_put inner o :
  let b := default ppb_default (books inner !! o_pair o) in
  insert_order inner o = mkInner (put_or_drop (books inner) (o_pair o)
    (set_side b (o_side o) (<[o_id o := o]> (side_map b (o_side o))))) (book_seq inner).
Proof. cbv zeta. unfold put_or_drop. rewrite insert_nonempty. unfold insert_order, set_side. by destruct (o_side o). Qed.

(** An order can be inserted when its id is not in the book, or is there on the
    same pair and side. *)
Definition placeable m o : Prop :=
  match m !! o_id o with Some o' => o_pair o' = o_pair o /\ o_side o' = o_side o | None => True end.

(** Placing such an order sets it in the map. *)
Lemma insert_order_represents_at inner m o :
  represents inner m -> placeable m o -> represents (insert_order inner o) (<[o_id o := o]> m).
Proof.
  intros Hrep Hp. rewrite insert_order_put.
  apply (represents_alter inner m (o_pair o) (o_side o) (o_id o) (Some o)); [done|by intros ? [= <-]|].
  intros o' Ho'. unfold placeable in Hp. by rewrite Ho' in Hp.
Qed.

Lemma insert_order_represents inner m o :
  represents inner m -> m !! o_id o = None -> represents (insert_order inner o) (<[o_id o := o]> m).
Proof. intros Hrep Hn. apply insert_order_represents_at; [done|]. unfold placeable. by rewrite Hn. Qed.

(** No other insertion keeps the book a map: the id is then in two places. *)
Lemma insert_order_two_places inner m o m' : represents inner m -> ~ placeable m o -> ~ represents (insert_order inner o) m'.
Proof.
  unfold placeable. intros Hrep Hp Hrep'. destruct (m !! o_id o) as [o'|] eqn:Ho'; [|done].
  pose proof (proj1 (proj2 (proj2 Hrep) _ _) Ho') as Hat. rewrite insert_order_put in Hrep'. destruct Hrep' as (_ & _ & Hiff). simpl in Hiff.
  assert (m' !! o_id o = Some o) as H1.
  { apply Hiff. by rewrite side_at_put, decide_True, side_map_set, decide_True, lookup_insert_eq by done. }
  assert (m' !! o_id o = Some o') as H2; [|rewrite H1 in H2; by injection H2 as ->; destruct Hp].
  apply Hiff. rewrite side_at_put. destruct (decide (o_pair o = o_pair o')) as [E|]; [|done].
  rewrite side_map_set. destruct (decide (o_side o = o_side o')) as [E'|]; [by destruct Hp|]. by rewrite side_at_default, E.
Qed.

(** *** Removal *)

Lemma remove_in_spec i (l : list (Str * PerPairBook D)) :
  match remove_in i l with
  | None => forall pr b s, (pr, b) ∈ l -> side_map b s !! i = None
  | Some (pr, b') => exists b s, (pr, b) ∈ l /\ is_Some (side_map b s !! i) /\
      b' = set_side b s (delete i (side_map b s))
  end.
Proof.
  induction l as [|[pr b] l IH]; simpl; [set_solver|].
  case_bool_decide as H1; [exists b, Buy; split; [left|done]|].
  case_bool_decide as H2; [exists b, Sell; split; [left|done]|].
  destruct (remove_in i l) as [[pr' b']|].
  - destruct IH as (b0 & s & ? & ?). exists b0, s. split; [by right|done].
  - intros pr' b' s [[= -> ->]|Hin]%elem_of_cons; [|eauto].
    rewrite <- eq_None_not_Some in H1, H2. by destruct s.
Qed.

Lemma represents_lookup inner m pr b s i o :
  represents inner m -> books inner !! pr = Some b -> side_map b s !! i = Some o ->
  m !! i = Some o /\ o_pair o = pr /\ o_side o = s /\ o_id o = i.
Proof.
  intros (_ & Hloc & Hiff) Hb Ho.
  assert (side_at (books inner) pr s i = Some o) as Hs by (unfold side_at; by rewrite Hb).
  destruct (Hloc _ _ _ _ Hs) as (? & <- & <-). split_and!; try done. by apply Hiff.
Qed.

Lemma represents_located inner m i o :
  represents inner m -> m !! i = Some o ->
  exists b, books inner !! o_pair o = Some b /\ side_map b (o_side o) !! i = Some o /\ o_id o = i.
Proof.
  intros (_ & Hloc & Hiff) Ho%Hiff. destruct (Hloc _ _ _ _ Ho) as (? & _ & _).
  unfold side_at in Ho. destruct (books inner !! o_pair o) as [b|]; [|done]. by exists b.
Qed.

Lemma remove_order_represents inner m i :
  represents inner m -> represents (remove_order inner i) (delete i m).
Proof.
  intros Hrep. unfold remove_order. pose proof (remove_in_spec i (hm_iter (books inner))) as Hspec.
  destruct (remove_in i _) as [[pr b']|].
  - destruct Hspec as (b & s & Hin%elem_of_hm_iter & [o Ho] & ->).
    destruct (represents_lookup _ _ _ _ _ _ _ Hrep Hin Ho) as (Hm & Hp & Hs & _).
    assert (b = default ppb_default (books inner !! pr)) as -> by (by rewrite Hin).
    apply (represents_alter inner m pr s i None); [done|done|].
    intros o'. rewrite Hm. by intros [= <-].
  - rewrite delete_id; [done|]. destruct (m !! i) as [o|] eqn:Ho; [|done].
    destruct (represents_located _ _ _ _ Hrep Ho) as (b & Hb & Hs & _).
    rewrite (Hspec (o_pair o) b (o_side o)) in Hs; [done|]. by apply elem_of_hm_iter.
Qed.

(** *** Fills *)

Lemma fill_in_spec f (l : list (Str * PerPairBook D)) :
  (fill_in f l = Ret None /\ forall pr b s, (pr, b) ∈ l -> side_map b s !! fill_order_id f = None) \/
  (exists pr b s o, (pr, b) ∈ l /\ side_map b s !! fill_order_id f = Some o /\
    fill_in f l = (m' ← fill_side (side_map b s) o f; Ret (option_map (fun m' => (pr, set_side b s m')) m'))).
Proof.
  induction l as [|[pr b] l IH]; simpl; [left; set_solver|].
  destruct (ppb_bids b !! fill_order_id f) as [o|] eqn:H1.
  { right. exists pr, b, Buy, o. split_and!; [left|done..]. }
  destruct (ppb_asks b !! fill_order_id f) as [o|] eqn:H2.
  { right. exists pr, b, Sell, o. split_and!; [left|done..]. }
  destruct IH as [[-> IH]|(pr' & b' & s & o & ? & ? & ?)].
  - left. split; [done|]. intros pr' b' s [[= -> ->]|Hin]%elem_of_cons; [|eauto]. by destruct s.
  - right. exists pr', b', s, o. split_and!; [by right|done..].
Qed.

(** A fill does the same to a side as to the abstract book. *)
Lemma fill_side_cases (m1 m2 : gmap Uuid (Order D)) o f :
  (fill_side m1 o f = Panic /\ fill_side m2 o f = Panic) \/
  (fill_side m1 o f = Ret None /\ fill_side m2 o f = Ret None) \/
  (exists upd, fill_side m1 o f = Ret (Some (partial_alter (fun _ => upd) (fill_order_id f) m1)) /\
     fill_side m2 o f = Ret (Some (partial_alter (fun _ => upd) (fill_order_id f) m2)) /\
     forall o', upd = Some o' -> exists r, o' = set_remaining o r).
Proof.
  unfold fill_side. destruct (dec_gtb _ _); [by right; left|].
  destruct (dec_sub _ _) as [r|]; simpl; [|by left]. right; right.
  destruct (dec_leb r dec_zero).
  - exists None. split_and!; done.
  - exists (Some (set_remaining o r)). split_and!; [done..|]. intros o' [= <-]. eauto.
Qed.

Lemma apply_fill_represents inner m f :
  represents inner m ->
  (apply_fill inner f = Panic /\ spec_fill m f = Panic) \/
  (exists inner' m', apply_fill inner f = Ret inner' /\ spec_fill m f = Ret m' /\
     represents inner' m' /\ book_seq inner' = book_seq inner).
Proof.
  intros Hrep. unfold apply_fill, spec_fill.
  destruct (fill_in_spec f (hm_iter (books inner))) as [[-> Hnone]|(pr & b & s & o & Hin & Ho & ->)]; simpl.
  - right. destruct (m !! fill_order_id f) as [o|] eqn:Ho; [|by eauto 10].
    destruct (represents_located _ _ _ _ Hrep Ho) as (b & Hb & Hs & _).
    rewrite (Hnone (o_pair o) b (o_side o)) in Hs; [done|]. by apply elem_of_hm_iter.
  - apply elem_of_hm_iter in Hin. destruct (represents_lookup _ _ _ _ _ _ _ Hrep Hin Ho) as (Hm & Hp & Hs & Hid).
    rewrite Hm. destruct (fill_side_cases (side_map b s) m o f) as [[-> ->]|[[-> ->]|(upd & -> & -> & Hupd)]]; simpl.
    + by left.
    + right. eauto 10.
    + right. do 2 eexists. split_and!; [done..| |done].
      assert (b = default ppb_default (books inner !! pr)) as -> by (by rewrite Hin).
      apply represents_alter; [done| |].
      * intros o' Ho'. destruct (Hupd o' Ho') as [r ->]. done.
      * intros o'. rewrite Hm. by intros [= <-].
Qed.

(** *** Events *)

Lemma represents_seq inner m sq : represents inner m -> represents (mkInner (books inner) sq) m.
Proof. done. Qed.

Lemma apply_represents inner m e :
  represents inner m ->
  (apply inner e = Panic /\ spec_apply (book_seq inner, m) e = Panic) \/
  (exists inner' m', apply inner e = Ret inner' /\ spec_apply (book_seq inner, m) e = Ret (book_seq inner', m') /\
     represents inner' m').
Proof.
  intros Hrep. unfold apply, spec_apply. destruct (negb _ && _); [by eauto 10|].
  set (inner1 := if book_seq inner <? ev_seq e then _ else _).
  assert (represents inner1 m) as Hrep1 by (unfold inner1; by destruct (_ <? _)).
  assert (Z.max (book_seq inner) (ev_seq e) = book_seq inner1) as ->
    by (unfold inner1; destruct (Z.ltb_spec (book_seq inner) (ev_seq e)); simpl; lia).
  assert (forall i, book_seq (remove_order inner1 i) = book_seq inner1) as Hrs.
  { intros i. unfold remove_order. by destruct (remove_in _ _) as [[]|]. }
  destruct (ev_data e); try (by right; eauto 10).
  - right. exists (remove_order inner1 order_id), (delete order_id m). rewrite Hrs.
    split_and!; [done..|by apply remove_order_represents].
  - right. exists (remove_order inner1 order_id), (delete order_id m). rewrite Hrs.
    split_and!; [done..|by apply remove_order_represents].
  - destruct (apply_fill_represents inner1 m bid Hrep1) as [[-> ->]|(i1 & m1 & -> & -> & R1 & S1)]; [by left|]; simpl.
    destruct (apply_fill_represents i1 m1 ask R1) as [[-> ->]|(i2 & m2 & -> & -> & R2 & S2)]; [by left|]; simpl.
    right. exists i2, m2. split_and!; [done| |done]. do 2 f_equal. congruence.
Qed.

(** *** Queries *)

Definition orders_of (m : gmap Uuid (Order D)) : list (Order D) := (map_to_list m).*2.

Lemma elem_of_sub_orders b o : o ∈ sub_orders b <-> exists s i, side_map b s !! i = Some o.
Proof.
  unfold sub_orders. rewrite elem_of_app, !elem_of_hm_values. split.
  - intros [[i Hi]|[i Hi]]; [exists Buy, i|exists Sell, i]; done.
  - intros ([] & i & Hi); [left|right]; by exists i.
Qed.

Lemma elem_of_orders_of inner m o :
  represents inner m -> o ∈ orders_of m <-> m !! o_id o = Some o.
Proof.
  intros Hrep. unfold orders_of. rewrite list_elem_of_fmap. split.
  - intros ([i o'] & -> & Hi%elem_of_map_to_list).
    destruct (represents_located _ _ _ _ Hrep Hi) as (_ & _ & _ & Hid). simpl. by rewrite Hid.
  - intros Ho. exists (o_id o, o). split; [done|]. by apply elem_of_map_to_list.
Qed.

Lemma NoDup_orders_of inner m : represents inner m -> NoDup (map o_id (orders_of m)).
Proof.
  intros Hrep. unfold orders_of. rewrite <- list_fmap_compose.
  rewrite (list_fmap_ext _ fst); [apply NoDup_fst_map_to_list|].
  intros j [i o] Hj%list_elem_of_lookup_2%elem_of_map_to_list; simpl.
  by destruct (represents_located _ _ _ _ Hrep Hj) as (_ & _ & _ & ?).
Qed.

Lemma NoDup_map_1 {A B} (f : A -> B) l : NoDup (map f l) -> NoDup l.
Proof. apply NoDup_fmap_1. Qed.

Lemma sub_orders_at inner m pr b o :
  represents inner m -> books inner !! pr = Some b ->
  o ∈ sub_orders b <-> m !! o_id o = Some o /\ o_pair o = pr.
Proof.
  intros Hrep Hb. rewrite elem_of_sub_orders. split.
  - intros (s & i & Hi). destruct (represents_lookup _ _ _ _ _ _ _ Hrep Hb Hi) as (? & ? & ? & Hid). by rewrite Hid.
  - intros [Ho <-]. destruct (represents_located _ _ _ _ Hrep Ho) as (b' & Hb' & Hs & _).
    rewrite Hb in Hb'. injection Hb' as <-. eauto.
Qed.

(** The keys of a side are the ids of its orders. *)
Lemma side_ids inner m pr b s :
  represents inner m -> books inner !! pr = Some b ->
  NoDup (map o_id (hm_values (side_map b s))).
Proof.
  intros Hrep Hb. unfold hm_values. rewrite <- list_fmap_compose.
  rewrite (list_fmap_ext _ fst); [apply NoDup_hm_keys|].
  intros j [i o] Hj%list_elem_of_lookup_2%elem_of_hm_iter; simpl.
  by destruct (represents_lookup _ _ _ _ _ _ _ Hrep Hb Hj) as (_ & _ & _ & ?).
Qed.

Lemma elem_of_side inner m pr b s o :
  represents inner m -> books inner !! pr = Some b ->
  o ∈ hm_values (side_map b s) <-> m !! o_id o = Some o /\ o_pair o = pr /\ o_side o = s.
Proof.
  intros Hrep Hb. rewrite elem_of_hm_values. split.
  - intros (i & Hi). destruct (represents_lookup _ _ _ _ _ _ _ Hrep Hb Hi) as (? & ? & ? & Hid). by rewrite Hid.
  - intros (Ho & <- & <-). destruct (represents_located _ _ _ _ Hrep Ho) as (b' & Hb' & Hs & _).
    rewrite Hb in Hb'. injection Hb' as <-. eauto.
Qed.

Lemma NoDup_sub_orders inner m pr b :
  represents inner m -> books inner !! pr = Some b -> NoDup (sub_orders b).
Proof.
  intros Hrep Hb. apply NoDup_app. split_and!.
  - by eapply NoDup_map_1, (side_ids _ _ _ _ Buy).
  - intros o H1 H2. apply (elem_of_side _ _ _ _ Buy o Hrep Hb) in H1.
    apply (elem_of_side _ _ _ _ Sell o Hrep Hb) in H2.
    destruct H1 as (_ & _ & H1), H2 as (_ & _ & H2). congruence.
  - by eapply NoDup_map_1, (side_ids _ _ _ _ Sell).
Qed.

Lemma iter_all_bind inner : iter_all inner = hm_iter (books inner) ≫= (fun pb => sub_orders pb.2).
Proof.
  unfold iter_all, hm_values. induction (hm_iter (books inner)) as [|[pr b] l IH]; csimpl; [done|].
  by rewrite IH.
Qed.

(** The orders the book iterates over are those of the map, each once. *)
Lemma iter_all_perm inner m : represents inner m -> iter_all inner ≡ₚ orders_of m.
Proof.
  intros Hrep. apply NoDup_Permutation.
  - rewrite iter_all_bind. apply NoDup_bind.
    + intros [p1 b1] [p2 b2] o H1%elem_of_hm_iter H2%elem_of_hm_iter; simpl.
      rewrite (sub_orders_at _ _ _ _ _ Hrep H1), (sub_orders_at _ _ _ _ _ Hrep H2).
      intros [_ <-] [_ <-]. f_equal. congruence.
    + intros [pr b] Hb%elem_of_hm_iter. by eapply NoDup_sub_orders.
    + rewrite hm_iter_perm. apply NoDup_map_to_list.
  - by eapply NoDup_map_1, NoDup_orders_of.
  - intros o. rewrite (elem_of_orders_of _ _ _ Hrep), iter_all_bind, list_elem_of_bind. split.
    + intros ([pr b] & Ho & Hb%elem_of_hm_iter). by apply (sub_orders_at _ _ _ _ _ Hrep Hb) in Ho as [? _].
    + intros Ho. destruct (represents_located _ _ _ _ Hrep Ho) as (b & Hb & _).
      exists (o_pair o, b). rewrite elem_of_hm_iter. split; [|done].
      by apply (sub_orders_at _ _ _ _ _ Hrep Hb).
Qed.

Lemma length_flat_map_sum {A B} (f : A -> list B) l : length (flat_map f l) = nat_sum (map (fun x => length (f x)) l).
Proof. induction l as [|x l IH]; simpl; [done|]. by rewrite length_app, IH. Qed.

Lemma active_order_count_size inner m : represents inner m -> active_order_count inner = size m.
Proof.
  intros Hrep. rewrite <- length_map_to_list, <- (length_fmap snd (map_to_list m)).
  fold (orders_of m). rewrite <- (iter_all_perm _ _ Hrep). unfold iter_all, active_order_count.
  rewrite length_flat_map_sum. f_equal. apply map_ext. intros b.
  unfold sub_orders. by rewrite length_app, !length_hm_values.
Qed.

Lemma filter_flat_map {A B} (g : B -> bool) (f : A -> list B) l :
  List.filter g (flat_map f l) = flat_map (fun x => List.filter g (f x)) l.
Proof. induction l as [|x l IH]; simpl; [done|]. by rewrite List.filter_app, IH. Qed.

Lemma active_order_count_for_trader_spec inner m t :
  represents inner m ->
  active_order_count_for_trader inner t =
    length (List.filter (fun o => bool_decide (o_trader o = t)) (orders_of m)).
Proof.
  intros Hrep. rewrite <- (iter_all_perm _ _ Hrep). unfold iter_all.
  rewrite filter_flat_map, length_flat_map_sum. unfold active_order_count_for_trader. f_equal.
  apply map_ext. intros b. unfold sub_orders. by rewrite List.filter_app, length_app.
Qed.

Lemma flat_map_map_filter {A B C} (h : B -> C) (g : B -> bool) (f : A -> list B) l :
  flat_map (fun x => map h (List.filter g (f x))) l = map h (List.filter g (flat_map f l)).
Proof.
  induction l as [|x l IH]; simpl; [done|]. by rewrite List.filter_app, map_app, IH.
Qed.

Lemma collect_expired_perm inner m now :
  represents inner m ->
  collect_expired inner now ≡ₚ
    map (fun o => mkEvent 0 TOrderExpired default_time (OrderExpiredEv (o_id o)))
      (List.filter (is_expired now) (orders_of m)).
Proof.
  intros Hrep. unfold collect_expired. rewrite flat_map_map_filter. fold (iter_all inner).
  by rewrite (iter_all_perm _ _ Hrep).
Qed.

Lemma find_in_spec i l :
  match find_in i l with
  | Some o => exists b s, b ∈ l /\ side_map b s !! i = Some o
  | None => forall b s, b ∈ l -> side_map b s !! i = None
  end.
Proof.
  induction l as [|b l IH]; simpl; [set_solver|].
  destruct (ppb_bids b !! i) as [o|] eqn:H1; [exists b, Buy; split; [left|done]|].
  destruct (ppb_asks b !! i) as [o|] eqn:H2; [exists b, Sell; split; [left|done]|].
  destruct (find_in i l) as [o|].
  - destruct IH as (b' & s & ? & ?). exists b', s. split; [by right|done].
  - intros b' s [->|Hin]%elem_of_cons; [by destruct s|auto].
Qed.

Lemma find_order_lookup inner m i : represents inner m -> find_order inner i = m !! i.
Proof.
  intros Hrep. unfold find_order. pose proof (find_in_spec i (hm_values (books inner))) as Hf.
  destruct (find_in _ _) as [o|].
  - destruct Hf as (b & s & [pr Hb]%elem_of_hm_values & Hi).
    by destruct (represents_lookup _ _ _ _ _ _ _ Hrep Hb Hi) as (-> & _).
  - destruct (m !! i) as [o|] eqn:Ho; [|done].
    destruct (represents_located _ _ _ _ Hrep Ho) as (b & Hb & Hi & _).
    rewrite (Hf b (o_side o)) in Hi; [done|]. apply elem_of_hm_values. eauto.
Qed.

Lemma has_order_find inner i : has_order inner i = bool_decide (is_Some (find_order inner i)).
Proof.
  unfold has_order, find_order. induction (hm_values (books inner)) as [|b l IH]; simpl; [done|].
  rewrite IH. destruct (ppb_bids b !! i), (ppb_asks b !! i); simpl; rewrite ?bool_decide_true by eauto; done.
Qed.
End refinement.

(** ** Sequences of operations *)

Inductive BookOp (D : Type) :=
| OpInsert (o : Order D)
| OpApply (e : Event D).
Arguments OpInsert {D}.
Arguments OpApply {D}.

Section ops.
Context {D : Type} `{!DecimalOps D} {HI : HashIter}.

Definition book_step (inner : Inner D) (op : BookOp D) : outcome (Inner D) :=
  match op with
  | OpInsert o => Ret (insert_order inner o)
  | OpApply e => apply inner e
  end.

Definition spec_step (st : Z * gmap Uuid (Order D)) (op : BookOp D) : outcome (Z * gmap Uuid (Order D)) :=
  match op with
  | OpInsert o => Ret (st.1, <[o_id o := o]> st.2)
  | OpApply e => spec_apply st e
  end.

(** No insertion uses an id that the book holds at that point on another pair
    or another side. *)
Fixpoint placeable_ops (st : Z * gmap Uuid (Order D)) (ops : list (BookOp D)) : Prop :=
  match ops with
  | [] => True
  | op :: ops' =>
    match op with OpInsert o => placeable st.2 o | OpApply _ => True end /\
    match spec_step st op with Ret st' => placeable_ops st' ops' | Panic => True end
  end.
End ops.

(** ** Fills on the abstract book *)

Section fills.
Context {D : Type} `{!DecimalOps D, !DecimalLaws D}.
Implicit Types (o : Order D) (m : gmap Uuid (Order D)) (fs : list (Fill D)).

Definition live m : Prop := forall i o, m !! i = Some o -> bounded_order o /\ 0 < rem_units o /\ o_id o = i.

Definition fill_total fs (i : Uuid) : Z :=
  zsum (map (fun f => units (fill_size f)) (List.filter (fun f => fill_order_id f =? i) fs)).

Definition good_fill (f : Fill D) : Prop := dp8 (fill_size f) /\ 0 < units (fill_size f).

(** What a list of fills leaves of one order. *)
Definition filled_by fs (i : Uuid) (before after : option (Order D)) : Prop :=
  match before with
  | None => after = None
  | Some o =>
    (fill_total fs i = rem_units o /\ after = None) \/
    (fill_total fs i < rem_units o /\
     exists r, after = Some (set_remaining o r) /\ units r = rem_units o - fill_total fs i)
  end.

Lemma fill_total_cons f fs i :
  fill_total (f :: fs) i = (if fill_order_id f =? i then units (fill_size f) else 0) + fill_total fs i.
Proof. unfold fill_total; simpl. by destruct (_ =? _). Qed.

Lemma fill_total_nonneg fs i : Forall good_fill fs -> 0 <= fill_total fs i.
Proof.
  induction 1 as [|f fs [_ ?] Hfs IH]; [done|]. rewrite fill_total_cons. destruct (_ =? _); lia.
Qed.

(** One fill within the remaining size is exact and removes an order it exhausts. *)
Lemma spec_fill_good m f :
  live m -> good_fill f -> (forall o, m !! fill_order_id f = Some o -> units (fill_size f) <= rem_units o) ->
  exists m', spec_fill m f = Ret m' /\ live m' /\ forall i, filled_by [f] i (m !! i) (m' !! i).
Proof.
  intros Hlive [Hdp Hpos] Hle. unfold spec_fill.
  assert (forall i, fill_total [f] i = if fill_order_id f =? i then units (fill_size f) else 0) as Htot.
  { intros i. rewrite fill_total_cons. unfold fill_total; simpl. lia. }
  assert (forall i, i <> fill_order_id f -> filled_by [f] i (m !! i) (m !! i)) as Hother.
  { intros i Hi. unfold filled_by. destruct (m !! i) as [o|] eqn:Ho; [|done]. right.
    rewrite Htot. destruct (Z.eqb_spec (fill_order_id f) i); [congruence|].
    destruct (Hlive i o Ho) as (_ & ? & _). split; [lia|]. exists (o_remaining_size o).
    split; [by destruct o|]. unfold rem_units. lia. }
  destruct (m !! fill_order_id f) as [o|] eqn:Ho.
  2: { exists m. split_and!; [done..|]. intros i. destruct (decide (i = fill_order_id f)) as [->|]; [|auto].
       by rewrite Ho. }
  destruct (Hlive _ _ Ho) as ((Hdp1 & Hb1 & Hdp2 & Hb2) & Hr & Hid). specialize (Hle o eq_refl).
  unfold fill_side, rem_units in *. unfold dec_gtb.
  destruct (dec_ltb (o_remaining_size o) (fill_size f)) eqn:E; [apply dec_ltb_spec in E; lia|]. clear E.
  destruct (dec_sub_dp8 (o_remaining_size o) (fill_size f)) as (r & -> & Hrr);
    [done..|unfold MAX_UNITS, ULP in *; lia|]; simpl.
  destruct (dec_leb r dec_zero) eqn:E; simpl; [apply dec_leb_spec in E|apply dec_leb_gt in E]; rewrite units_zero in E.
  - eexists; split_and!; [done| |].
    + intros i o' [_ Hi]%lookup_delete_Some. eauto.
    + intros i. destruct (decide (i = fill_order_id f)) as [->|].
      * rewrite Ho, lookup_delete_eq. left. rewrite Htot, Z.eqb_refl. unfold rem_units. split; [lia|done].
      * rewrite lookup_delete_ne by done. auto.
  - eexists; split_and!; [done| |].
    + intros i o' [[<- <-]|[_ Hi]]%lookup_insert_Some; [|eauto]. unfold rem_units; simpl.
      split_and!; try done. unfold bounded_order; simpl. split_and!; try done; try lia.
      unfold dp8. rewrite Hrr. by apply Z.divide_sub_r.
    + intros i. destruct (decide (i = fill_order_id f)) as [->|].
      * rewrite Ho, lookup_insert_eq. right. rewrite Htot, Z.eqb_refl. unfold rem_units.
        split; [lia|]. exists r. split; [done|lia].
      * rewrite lookup_insert_ne by done. auto.
Qed.

(** Fills that together stay within each order's remaining size are all applied. *)
Lemma spec_fills_good fs m :
  live m -> Forall good_fill fs -> (forall i o, m !! i = Some o -> fill_total fs i <= rem_units o) ->
  exists m', foldM spec_fill m fs = Ret m' /\ live m' /\ forall i, filled_by fs i (m !! i) (m' !! i).
Proof.
  revert m; induction fs as [|f fs IH]; intros m Hlive Hgood Hle; simpl.
  { exists m. split_and!; [done..|]. intros i. unfold filled_by. destruct (m !! i) as [o|] eqn:Ho; [|done]. right.
    destruct (Hlive i o Ho) as (_ & ? & _). unfold fill_total; simpl. split; [lia|].
    exists (o_remaining_size o). split; [by destruct o|]. unfold rem_units. lia. }
  apply Forall_cons in Hgood as [Hf Hfs]. pose proof Hf as [_ Hpos].
  destruct (spec_fill_good m f) as (m1 & -> & Hlive1 & H1); [done..| |]; simpl.
  { intros o Ho. specialize (Hle _ o Ho). rewrite fill_total_cons, Z.eqb_refl in Hle.
    pose proof (fill_total_nonneg fs (fill_order_id f) Hfs). lia. }
  assert (forall i, fill_total (f :: fs) i = fill_total [f] i + fill_total fs i) as Hsplit.
  { intros i. rewrite !fill_total_cons. unfold fill_total at 2; simpl. lia. }
  destruct (IH m1) as (m2 & -> & Hlive2 & H2); [done..| |].
  { intros i o1 Ho1. specialize (H1 i). destruct (m !! i) as [o|] eqn:Ho; simpl in H1; [|congruence].
    destruct H1 as [[_ H1]|(_ & r & H1 & Hr)]; [congruence|]. rewrite H1 in Ho1. injection Ho1 as <-.
    specialize (Hle i o Ho). rewrite Hsplit in Hle. unfold rem_units at 1; simpl. lia. }
  exists m2. split_and!; [done..|]. intros i. specialize (H1 i). specialize (H2 i).
  unfold filled_by in *. destruct (m !! i) as [o|] eqn:Ho; [|by rewrite H1 in H2].
  rewrite Hsplit. specialize (Hle i o Ho). rewrite Hsplit in Hle.
  pose proof (fill_total_nonneg fs i Hfs).
  destruct H1 as [[H1 E1]|(H1 & r & E1 & Hr)]; rewrite E1 in H2.
  - left. split; [lia|done].
  - unfold rem_units in H2 at 1 2 3; simpl in H2. destruct H2 as [[H2 E2]|(H2 & r2 & E2 & Hr2)].
    + left. split; [lia|done].
    + right. split; [lia|]. exists r2. split; [done|lia].
Qed.
End fills.

(** ** The auction on a book *)

Section auction_on_book.
Context {D : Type} `{!DecimalOps D, !DecimalLaws D} {HI : HashIter}.
Implicit Types (inner : Inner D) (o : Order D) (m : gmap Uuid (Order D)).

Lemma elem_of_bids inner m pr o :
  represents inner m -> o ∈ bids inner pr <-> m !! o_id o = Some o /\ o_pair o = pr /\ o_side o = Buy.
Proof.
  intros Hrep. unfold bids. destruct (books inner !! pr) as [b|] eqn:Hb.
  - rewrite sort_by_perm. by apply (elem_of_side inner m pr b Buy).
  - split; [set_solver|]. intros (Ho & <- & _).
    destruct (represents_located _ _ _ _ Hrep Ho) as (b & Hb' & _). congruence.
Qed.

Lemma elem_of_asks inner m pr o :
  represents inner m -> o ∈ asks inner pr <-> m !! o_id o = Some o /\ o_pair o = pr /\ o_side o = Sell.
Proof.
  intros Hrep. unfold asks. destruct (books inner !! pr) as [b|] eqn:Hb.
  - rewrite sort_by_perm. by apply (elem_of_side inner m pr b Sell).
  - split; [set_solver|]. intros (Ho & <- & _).
    destruct (represents_located _ _ _ _ Hrep Ho) as (b & Hb' & _). congruence.
Qed.

Lemma NoDup_bids inner m pr : represents inner m -> NoDup (map o_id (bids inner pr)).
Proof.
  intros Hrep. unfold bids. destruct (books inner !! pr) as [b|] eqn:Hb; [|constructor].
  rewrite sort_by_perm. by apply (side_ids inner m pr b Buy).
Qed.

Lemma NoDup_asks inner m pr : represents inner m -> NoDup (map o_id (asks inner pr)).
Proof.
  intros Hrep. unfold asks. destruct (books inner !! pr) as [b|] eqn:Hb; [|constructor].
  rewrite sort_by_perm. by apply (side_ids inner m pr b Sell).
Qed.

Lemma book_list_length inner m (l : list (Order D)) :
  represents inner m -> NoDup l -> (forall o, o ∈ l -> m !! o_id o = Some o) -> (length l <= size m)%nat.
Proof.
  intros Hrep Hnd Hl. rewrite <- length_map_to_list, <- (length_fmap snd (map_to_list m)).
  apply submseteq_length, NoDup_submseteq; [done|]. intros o Ho. apply (elem_of_orders_of inner m); auto.
Qed.

(** The sides of a live book are inputs the auction handles. *)
Lemma book_auction_input inner m pr :
  represents inner m -> live m -> Z.of_nat (size m) <= 2 ^ 32 ->
  auction_input (bids inner pr) (asks inner pr).
Proof.
  intros Hrep Hlive Hsz. split_and!; [split|split|by eapply NoDup_bids|by eapply NoDup_asks].
  - apply Forall_forall. intros o [Ho _]%(elem_of_bids _ _ _ _ Hrep). by destruct (Hlive _ _ Ho).
  - pose proof (book_list_length inner m (bids inner pr) Hrep) as Hlen.
    assert (length (bids inner pr) <= size m)%nat; [|lia]. apply Hlen.
    + by eapply NoDup_map_1, NoDup_bids.
    + intros o Ho%(elem_of_bids _ _ _ _ Hrep). tauto.
  - apply Forall_forall. intros o [Ho _]%(elem_of_asks _ _ _ _ Hrep). by destruct (Hlive _ _ Ho).
  - pose proof (book_list_length inner m (asks inner pr) Hrep) as Hlen.
    assert (length (asks inner pr) <= size m)%nat; [|lia]. apply Hlen.
    + by eapply NoDup_map_1, NoDup_asks.
    + intros o Ho%(elem_of_asks _ _ _ _ Hrep). tauto.
Qed.

(** The fills a list of matches applies to the book, in order. *)
Definition match_fills (ms : list (Match D)) : list (Fill D) :=
  flat_map (fun mt => [match_bid_fill mt; match_ask_fill mt]) ms.

(** Events that record matches, numbered past [sq]. *)
Definition matched_events (aid : Uuid) (sq : Z) (ms : list (Match D)) (evs : list (Event D)) : Prop :=
  Forall2 (fun mt e => ev_data e =
    OrderMatched aid (match_bid_fill mt) (match_ask_fill mt) (match_price mt) (match_size mt)) ms evs /\
  StronglySorted (fun e1 e2 => ev_seq e1 < ev_seq e2) evs /\ Forall (fun e => sq < ev_seq e) evs.

Lemma match_fills_total (ms : list (Match D)) i :
  Forall (fun mt => fill_size (match_bid_fill mt) = match_size mt /\ fill_size (match_ask_fill mt) = match_size mt) ms ->
  fill_total (match_fills ms) i = bid_filled ms i + ask_filled ms i.
Proof.
  induction 1 as [|mt ms [H1 H2] Hms IH]; [done|]. unfold match_fills in *; simpl.
  rewrite !fill_total_cons, IH, H1, H2, ask_filled_cons. unfold bid_filled; simpl.
  destruct (fill_order_id (match_bid_fill mt) =? i); simpl; lia.
Qed.

(** Applying the recorded matches is applying their fills. *)
Lemma apply_matched_events aid ms evs inner m :
  0 <= book_seq inner -> represents inner m -> matched_events aid (book_seq inner) ms evs ->
  match foldM spec_fill m (match_fills ms) with
  | Panic => foldM apply inner evs = Panic
  | Ret m' => exists inner', foldM apply inner evs = Ret inner' /\ represents inner' m' /\ book_seq inner <= book_seq inner'
  end.
Proof.
  intros Hsq Hrep [Hf [Hs Hb]]. revert inner m Hsq Hrep Hs Hb.
  induction Hf as [|mt e ms evs Hd Hf IH]; intros inner m Hsq Hrep Hs Hb; simpl; [by exists inner|].
  apply Forall_cons in Hb as [Hlt Hb]. apply StronglySorted_inv in Hs as [Hs Hfst].
  assert (apply inner e = (i1 ← apply_fill (mkInner (books inner) (ev_seq e)) (match_bid_fill mt);
      apply_fill i1 (match_ask_fill mt))) as ->.
  { unfold apply. rewrite Hd. destruct (Z.eqb_spec (ev_seq e) 0), (Z.leb_spec (ev_seq e) (book_seq inner)),
      (Z.ltb_spec (book_seq inner) (ev_seq e)); simpl; try lia; done. }
  destruct (apply_fill_represents (mkInner (books inner) (ev_seq e)) m (match_bid_fill mt))
    as [[-> ->]|(i1 & m1 & -> & -> & R1 & S1)]; [done|done|]; simpl.
  destruct (apply_fill_represents i1 m1 (match_ask_fill mt) R1)
    as [[-> ->]|(i2 & m2 & -> & -> & R2 & S2)]; [done|]; simpl.
  simpl in S1. assert (book_seq i2 = ev_seq e) as S by congruence.
  specialize (IH i2 m2). rewrite S in IH. unfold match_fills in IH.
  destruct (foldM spec_fill m2 _) as [m'|]; [|apply IH; done || lia].
  destruct IH as (i3 & ? & ? & ?); [lia|done|done|done|]. exists i3. split_and!; [done..|lia].
Qed.

(** Each order of the book is filled by its matches and no more. *)
Lemma auction_fills_within inner m pr aid r i o :
  represents inner m -> live m -> Z.of_nat (size m) <= 2 ^ 32 ->
  run aid pr (bids inner pr) (asks inner pr) = Ret (Some r) -> m !! i = Some o ->
  fill_total (match_fills (matches r)) i <= rem_units o.
Proof.
  intros Hrep Hlive Hsz Hrun Ho. pose proof (book_auction_input _ _ pr Hrep Hlive Hsz) as Hin.
  destruct (run_done _ _ _ _ _ Hin Hrun) as (bids' & asks' & Hd).
  pose proof Hd as (_ & _ & _ & _ & _ & _ & _ & _ & M3 & _). rewrite Forall_forall in M3.
  rewrite match_fills_total.
  2: { apply Forall_forall. intros mt Hmt. by destruct (M3 mt Hmt) as (b & _ & _ & _ & ? & ? & _). }
  destruct (Hlive i o Ho) as (_ & Hpos & <-).
  assert (o_side o = Sell \/ o_pair o <> pr -> bid_filled (matches r) (o_id o) = 0) as Hbid.
  { intros Hs. apply bid_filled_none, Forall_forall. intros mt Hmt Hid.
    destruct (M3 mt Hmt) as (b & (Hb & _)%eligible_sorted_bids & Hidb & _).
    apply (elem_of_bids _ _ _ _ Hrep) in Hb as (Hb & ? & ?).
    assert (b = o) as -> by congruence. destruct Hs; congruence. }
  assert (o_side o = Buy \/ o_pair o <> pr -> ask_filled (matches r) (o_id o) = 0) as Hask.
  { intros Hs. apply ask_filled_none, Forall_forall. intros mt Hmt Hid.
    destruct (M3 mt Hmt) as (_ & _ & _ & _ & _ & _ & _ & _ & a & (Ha & _)%eligible_sorted_asks & Hida & _).
    apply (elem_of_asks _ _ _ _ Hrep) in Ha as (Ha & ? & ?).
    assert (a = o) as -> by congruence. destruct Hs; congruence. }
  destruct (decide (o_pair o = pr)) as [Hp|Hp]; [|rewrite Hbid, Hask by auto; lia].
  destruct (o_side o) eqn:Hs.
  - rewrite Hask by auto. pose proof (done_bid_filled _ _ _ _ _ o Hin Hd) as Hf.
    rewrite (elem_of_bids _ _ _ _ Hrep) in Hf. specialize (Hf ltac:(done)). lia.
  - rewrite Hbid by auto. pose proof (done_ask_filled _ _ _ _ _ o Hin Hd) as Hf.
    rewrite (elem_of_asks _ _ _ _ Hrep) in Hf. specialize (Hf ltac:(done)). lia.
Qed.

Lemma match_fills_good inner m pr aid r :
  represents inner m -> live m -> Z.of_nat (size m) <= 2 ^ 32 ->
  run aid pr (bids inner pr) (asks inner pr) = Ret (Some r) -> Forall good_fill (match_fills (matches r)).
Proof.
  intros Hrep Hlive Hsz Hrun. pose proof (book_auction_input _ _ pr Hrep Hlive Hsz) as Hin.
  destruct (run_done _ _ _ _ _ Hin Hrun) as (bids' & asks' & Hd).
  destruct Hd as (_ & _ & _ & _ & _ & _ & _ & _ & M3 & _).
  unfold match_fills. induction M3 as [|mt ms (b & _ & _ & _ & F1 & F2 & ? & ? & _) M3 IH]; simpl; [constructor|].
  constructor; [|constructor; [|done]].
  - unfold good_fill. rewrite F1. split; [done|lia].
  - unfold good_fill. rewrite F2. split; [done|lia].
Qed.
End auction_on_book.

(** ** Replay *)

Section replay.
Context {D St : Type} `{!DecimalOps D, !StoreOps D St, !StoreLaws D St} {HI : HashIter}.
Implicit Types (inner : Inner D) (e : Event D) (evs : list (Event D)).

Lemma apply_fill_seq inner f inner' : apply_fill inner f = Ret inner' -> book_seq inner' = book_seq inner.
Proof. unfold apply_fill. destruct (fill_in _ _) as [[[pr b]|]|]; simpl; intros [= <-]; done. Qed.

Lemma remove_order_seq inner i : book_seq (remove_order inner i) = book_seq inner.
Proof. unfold remove_order. by destruct (remove_in _ _) as [[]|]. Qed.

Lemma apply_raises_seq inner e inner' :
  apply inner e = Ret inner' -> book_seq inner' = Z.max (book_seq inner) (ev_seq e) \/ inner' = inner.
Proof.
  unfold apply. destruct (negb _ && _); [intros [= <-]; by right|].
  set (i1 := if book_seq inner <? ev_seq e then _ else _).
  assert (book_seq i1 = Z.max (book_seq inner) (ev_seq e)) as <-
    by (unfold i1; destruct (Z.ltb_spec (book_seq inner) (ev_seq e)); simpl; lia).
  intros Heq. left. destruct (ev_data e); try (injection Heq as <-; rewrite ?remove_order_seq; done).
  apply outcome_bind_Ret in Heq as (i2 & H2%apply_fill_seq & H3%apply_fill_seq). congruence.
Qed.

Definition seq_lt (e1 e2 : Event D) : Prop := ev_seq e1 < ev_seq e2.

Lemma foldM_apply_seq inner evs inner' :
  StronglySorted seq_lt evs -> Forall (fun e => book_seq inner < ev_seq e) evs -> 0 <= book_seq inner ->
  foldM apply inner evs = Ret inner' ->
  Forall (fun e => ev_seq e <= book_seq inner') evs /\ book_seq inner <= book_seq inner' /\
  (evs = [] \/ exists e, e ∈ evs /\ book_seq inner' = ev_seq e).
Proof.
  intros Hs. revert inner; induction Hs as [|e evs Hs IH He]; intros inner Hb H0; simpl.
  { intros [= <-]. split_and!; [constructor|lia|by left]. }
  apply Forall_cons in Hb as [Hlt Hb].
  intros (i1 & H1 & H2)%outcome_bind_Ret.
  assert (book_seq i1 = ev_seq e) as Hi1.
  { destruct (apply_raises_seq _ _ _ H1) as [->| ->]; [lia|]. exfalso. revert H1. unfold apply.
    destruct (Z.eqb_spec (ev_seq e) 0), (Z.leb_spec (ev_seq e) (book_seq inner)); simpl; try lia.
    destruct (Z.ltb_spec (book_seq inner) (ev_seq e)); [|lia].
    destruct (ev_data e); try (intros [= Heq]; apply (f_equal book_seq) in Heq; simpl in Heq; rewrite ?remove_order_seq in Heq; simpl in Heq; lia).
    intros (i2 & A%apply_fill_seq & B%apply_fill_seq)%outcome_bind_Ret. simpl in A. lia. }
  destruct (IH i1) as (F & L & E); [by rewrite Hi1|lia|done|].
  split_and!; [constructor; [lia|done]|lia|].
  right. destruct E as [->|(e' & ? & ?)].
  - exists e. split; [left|]. simpl in H2. injection H2 as <-. lia.
  - exists e'. split; [by right|done].
Qed.

Lemma sorted_take_drop (R : Event D -> Event D -> Prop) n evs x y :
  StronglySorted R evs -> x ∈ take n evs -> y ∈ drop n evs -> R x y.
Proof. intros Hs. rewrite <- (take_drop n evs) in Hs. apply (StronglySorted_app_1_elem_of _ _ _ _ _ Hs). Qed.

Lemma StronglySorted_take (R : Event D -> Event D -> Prop) n evs :
  StronglySorted R evs -> StronglySorted R (take n evs).
Proof. intros Hs. rewrite <- (take_drop n evs) in Hs. by apply StronglySorted_app_1_l in Hs. Qed.

(** The events left after a batch are those past the new number. *)
Lemma rest_after_batch log sq sq' n :
  StronglySorted seq_lt log -> sq <= sq' ->
  let evs := List.filter (fun e => sq <? ev_seq e) log in
  Forall (fun e => ev_seq e <= sq') (take n evs) ->
  (exists e, e ∈ take n evs /\ sq' = ev_seq e) ->
  List.filter (fun e => sq' <? ev_seq e) log = drop n evs.
Proof.
  intros Hs Hle evs Hf (e & He & ->).
  assert (List.filter (fun x => ev_seq e <? ev_seq x) log = List.filter (fun x => ev_seq e <? ev_seq x) evs) as ->.
  { unfold evs. clear -Hle. induction log as [|x log IH]; simpl; [done|].
    destruct (Z.ltb_spec (ev_seq e) (ev_seq x)), (Z.ltb_spec sq (ev_seq x)); simpl; try lia; try done.
    - destruct (Z.ltb_spec (ev_seq e) (ev_seq x)); [by rewrite IH|lia].
    - destruct (Z.ltb_spec (ev_seq e) (ev_seq x)); [lia|done]. }
  assert (StronglySorted seq_lt evs) as Hse by (by apply StronglySorted_filter).
  rewrite <- (take_drop n evs) at 1. rewrite List.filter_app.
  assert (List.filter (fun x => ev_seq e <? ev_seq x) (take n evs) = []) as ->.
  { clear -Hf. induction Hf as [|x l Hx Hl IH]; simpl; [done|]. destruct (Z.ltb_spec (ev_seq e) (ev_seq x)); [lia|done]. }
  simpl. apply filter_all, Forall_forall. intros x Hx.
  pose proof (sorted_take_drop _ _ _ _ _ Hse He Hx). unfold seq_lt in *. lia.
Qed.

(** Enough fuel for one batch per event and a last empty read. *)
Lemma replay_total fuel inner (store : St) inner' :
  st_wf store -> 0 <= book_seq inner -> Z.of_nat (length (st_log store)) + BATCH <= u64_max ->
  let evs := List.filter (fun e => book_seq inner <? ev_seq e) (st_log store) in
  (length evs < fuel)%nat -> foldM apply inner evs = Ret inner' ->
  replay fuel inner store = Ret (Some (Ok inner')).
Proof.
  intros Hwf H0 Hlen. revert inner H0; induction fuel as [|fuel IH]; intros inner H0 evs Hfuel Hfold; [lia|].
  assert (log_ordered (st_log store) (st_last_seq store)) as (Hs & _ & _) by (by apply st_wf_ordered).
  assert (Forall (fun e => book_seq inner < ev_seq e) evs) as Hgt.
  { apply Forall_forall. intros e [_ ?]%elem_of_list_filter_bool. lia. }
  assert (StronglySorted seq_lt evs) as Hse by (by apply StronglySorted_filter).
  cbn [replay]. rewrite st_read_ok by (done || unfold BATCH; lia). fold evs. cbn [mbind outcome_bind].
  set (n := Z.to_nat BATCH).
  destruct (take n evs) as [|e0 batch] eqn:Htk.
  { destruct evs as [|e1 evs1]; [by injection Hfold as <-|]. assert (n = S (pred n)) as Hn by (unfold n, BATCH; lia).
    rewrite Hn in Htk. discriminate. }
  rewrite <- (take_drop n evs), foldM_app in Hfold. rewrite Htk in *.
  apply outcome_bind_Ret in Hfold as (i1 & H1 & H2). rewrite H1. cbn [mbind outcome_bind].
  assert (StronglySorted seq_lt (e0 :: batch)) as Hsb by (rewrite <- Htk; by apply StronglySorted_take).
  assert (Forall (fun e => book_seq inner < ev_seq e) (e0 :: batch)) as Hgb by (rewrite <- Htk; by apply Forall_take).
  destruct (foldM_apply_seq _ _ _ Hsb Hgb H0 H1) as (F & L & [?|(e & He & Hsq)]); [done|].
  assert (List.filter (fun e => book_seq i1 <? ev_seq e) (st_log store) = drop n evs) as Hrest.
  { apply rest_after_batch; [done|done|..]; fold evs; rewrite Htk; [done|by exists e]. }
  apply IH; [lia|rewrite Hrest|by rewrite Hrest].
  rewrite length_drop. assert (0 < n)%nat by (unfold n, BATCH; lia).
  destruct evs; [by rewrite take_nil in Htk|simpl in *; lia].
Qed.
End replay.

(** ** Appending and applying

    A handler of the engine appends events and applies what the store returns.
    Numbers past the applied one make [apply] act as [spec_effect], which
    forgets numbers. *)

Section append_apply.
Context {D St : Type} `{!DecimalOps D, !StoreOps D St, !StoreLaws D St} {HI : HashIter}.
Implicit Types (m : gmap Uuid (Order D)) (inner : Inner D) (evs : list (Event D)).

Definition spec_effect m (d : EventData D) : outcome (gmap Uuid (Order D)) :=
  match d with
  | OrderCancelled i _ | OrderExpiredEv i => Ret (delete i m)
  | OrderMatched _ bid ask _ _ => m1 ← spec_fill m bid; spec_fill m1 ask
  | _ => Ret m
  end.

Lemma spec_apply_effect sq m e m' :
  0 <= sq < ev_seq e -> spec_effect m (ev_data e) = Ret m' -> spec_apply (sq, m) e = Ret (ev_seq e, m').
Proof.
  intros Hsq He. unfold spec_apply. destruct (Z.eqb_spec (ev_seq e) 0), (Z.leb_spec (ev_seq e) sq); simpl; try lia.
  rewrite Z.max_r by lia. destruct (ev_data e); simpl in *; try congruence.
  destruct (spec_fill m bid) as [m1|]; simpl in *; [|done]. by rewrite He.
Qed.

Lemma apply_effect inner m e m' :
  represents inner m -> 0 <= book_seq inner < ev_seq e -> spec_effect m (ev_data e) = Ret m' ->
  exists inner', apply inner e = Ret inner' /\ represents inner' m' /\ book_seq inner' = ev_seq e.
Proof.
  intros Hrep Hsq He. pose proof (spec_apply_effect _ _ _ _ Hsq He) as Hs.
  destruct (apply_represents inner m e Hrep) as [[_ Hp]|(i' & m1 & Ha & Hs' & Hr)]; [congruence|].
  rewrite Hs in Hs'. injection Hs' as -> ->. eauto.
Qed.

Lemma foldM_apply_effect inner m evs m' last :
  represents inner m -> 0 <= book_seq inner -> StronglySorted seq_lt evs ->
  Forall (fun e => book_seq inner < ev_seq e <= last) evs -> book_seq inner <= last ->
  foldM spec_effect m (map ev_data evs) = Ret m' ->
  exists inner', foldM apply inner evs = Ret inner' /\ represents inner' m' /\ 0 <= book_seq inner' <= last.
Proof.
  revert inner m; induction evs as [|e evs IH]; intros inner m Hrep H0 Hs Hb Hl; simpl.
  { intros [= ->]. exists inner. split_and!; (done || lia). }
  intros (m1 & He & Hrest)%outcome_bind_Ret. apply StronglySorted_inv in Hs as [Hs Hlt].
  apply Forall_cons in Hb as [Hb1 Hb]. destruct (apply_effect inner m e m1) as (i1 & -> & Hr1 & Hq1); [done|lia|done|].
  simpl. apply (IH i1 m1); try done; try lia. rewrite Hq1.
  rewrite Forall_forall in Hlt, Hb |- *. intros x Hx. specialize (Hlt x Hx). specialize (Hb x Hx).
  unfold seq_lt in Hlt. lia.
Qed.

(** What a successful append promises about the numbers. *)
Lemma appended_sorted env (s : St) evs s' evs' :
  st_wf s -> st_last_seq s + Z.of_nat (length evs) <= u64_max -> st_append env s evs = (s', Ok evs') ->
  st_wf s' /\ map ev_data evs' = map ev_data evs /\ StronglySorted seq_lt evs' /\
  Forall (fun e => st_last_seq s < ev_seq e <= st_last_seq s') evs' /\
  st_log s' = st_log s ++ evs' /\ 0 <= st_last_seq s <= st_last_seq s' /\ st_last_seq s' <= st_last_seq s + Z.of_nat (length evs).
Proof.
  intros Hwf Hb Ha. destruct (st_append_ok _ _ _ _ _ Hwf Hb Ha) as (Hwf' & Hlog & Hst & Hgt & Hle).
  pose proof (st_wf_ordered _ Hwf) as (_ & _ & ?).
  destruct (st_wf_ordered _ Hwf') as (Hs & Hf & _). rewrite Hlog in Hs, Hf.
  apply Forall_app in Hf as [_ Hf]. apply StronglySorted_app_1_r in Hs.
  split_and!; try done; try lia.
  - clear -Hst. induction Hst as [|e e' evs evs' (_ & Hd & _) _ IH]; simpl; [done|]. by rewrite Hd, IH.
  - apply Forall_forall. intros x Hx. rewrite Forall_forall in Hgt. rewrite Forall_forall in Hf.
    specialize (Hgt x Hx). specialize (Hf x Hx). simpl in *. lia.
Qed.

(** Appending under the lock and applying what was appended. *)
Lemma append_apply env (s : St) inner m evs s' evs' m' :
  st_wf s -> st_last_seq s + Z.of_nat (length evs) <= u64_max -> st_append env s evs = (s', Ok evs') ->
  represents inner m -> 0 <= book_seq inner <= st_last_seq s -> foldM spec_effect m (map ev_data evs) = Ret m' ->
  exists inner', foldM apply inner evs' = Ret inner' /\ represents inner' m' /\
    st_wf s' /\ 0 <= book_seq inner' <= st_last_seq s' /\ st_last_seq s <= st_last_seq s' /\
    st_last_seq s' <= st_last_seq s + Z.of_nat (length evs).
Proof.
  intros Hwf Hb Ha Hrep Hsq He. destruct (appended_sorted _ _ _ _ _ Hwf Hb Ha) as (Hwf' & Hd & Hs & Hf & _ & ? & ?).
  destruct (foldM_apply_effect inner m evs' m' (st_last_seq s')) as (i' & ? & ? & ?); [done|lia|done| |lia|by rewrite Hd|].
  - eapply Forall_impl; [exact Hf|]. simpl; lia.
  - exists i'. split_and!; (done || lia).
Qed.

(** The same for handlers that append one event. *)
Lemma append_apply_1 env (s : St) inner m ev s' evs' m' :
  st_wf s -> st_last_seq s + 1 <= u64_max -> st_append env s [ev] = (s', Ok evs') ->
  represents inner m -> 0 <= book_seq inner <= st_last_seq s -> spec_effect m (ev_data ev) = Ret m' ->
  exists ev' inner', evs' = [ev'] /\ apply inner ev' = Ret inner' /\ represents inner' m' /\
    book_seq inner' = ev_seq ev' /\ st_last_seq s < ev_seq ev' /\ ev_data ev' = ev_data ev /\ st_wf s' /\
    0 <= book_seq inner' <= st_last_seq s' /\ st_last_seq s' <= st_last_seq s + 1.
Proof.
  intros Hwf Hb Ha Hrep Hsq He. destruct (appended_sorted env s [ev] s' evs' Hwf Hb Ha) as (Hwf' & Hd & Hs & Hf & _ & ? & ?).
  destruct evs' as [|ev' [|]]; try done. injection Hd as Hd. apply Forall_cons in Hf as [Hf _].
  destruct (apply_effect inner m ev' m') as (i' & ? & ? & ?); [done|lia|by rewrite Hd|].
  exists ev', i'. split_and!; (done || lia || (simpl in *; lia)).
Qed.
End append_apply.

(** ** Properties *)

Section properties.
Context {D : Type} `{!DecimalOps D, !DecimalLaws D} {HI : HashIter}.
Implicit Types (inner : Inner D) (o : Order D) (m : gmap Uuid (Order D)).

(** C4: the nested hash maps implement a finite map from ids to orders.  Take
    any sequence of applied events and of insertions in which no id is inserted
    while the book holds it on another pair or side.  It takes a book that
    represents a map to one that represents the map the abstract steps compute,
    with the same applied number, whatever the iteration order; it panics
    exactly when the abstract steps do.  The condition on the insertions is
    needed: any other insertion leaves a book that represents no map. *)
Theorem book_simulates_map inner m ops :
  represents inner m ->
  (placeable_ops (book_seq inner, m) ops ->
   match foldM spec_step (book_seq inner, m) ops with
   | Panic => foldM book_step inner ops = Panic
   | Ret st => exists inner', foldM book_step inner ops = Ret inner' /\
       represents inner' st.2 /\ book_seq inner' = st.1
   end) /\
  (forall o m', ~ placeable m o -> ~ represents (insert_order inner o) m').
Proof.
  intros Hrep. split; [|intros o m'; by apply insert_order_two_places].
  revert inner m Hrep; induction ops as [|op ops IH]; intros inner m Hrep Hfresh; [by exists inner|].
  destruct Hfresh as [Hop Hfresh]. destruct op as [o|e]; cbn [foldM book_step spec_step] in *.
  - apply (IH (insert_order inner o)); [by apply insert_order_represents_at|done].
  - destruct (apply_represents inner m e Hrep) as [[-> Hs]|(inner' & m' & -> & Hs & Hrep')].
    + by rewrite Hs.
    + rewrite Hs in *. by apply IH.
Qed.

(** The queries of a book that represents a map answer from that map: an
    order is found exactly when the map holds it, the counts are the map's,
    the expiry sweep reports exactly the expired orders, and each side of a
    pair is listed completely and in price-time order. *)
Theorem book_queries_exact inner m pr now t i :
  represents inner m ->
  find_order inner i = m !! i /\ has_order inner i = bool_decide (is_Some (m !! i)) /\
  active_order_count inner = size m /\
  active_order_count_for_trader inner t = length (List.filter (fun o => bool_decide (o_trader o = t)) (orders_of m)) /\
  collect_expired inner now ≡ₚ
    map (fun o => mkEvent 0 TOrderExpired default_time (OrderExpiredEv (o_id o))) (List.filter (is_expired now) (orders_of m)) /\
  (forall o, o ∈ bids inner pr <-> m !! o_id o = Some o /\ o_pair o = pr /\ o_side o = Buy) /\
  (forall o, o ∈ asks inner pr <-> m !! o_id o = Some o /\ o_pair o = pr /\ o_side o = Sell) /\
  StronglySorted (cmp_le bid_cmp) (bids inner pr) /\ StronglySorted (cmp_le ask_cmp) (asks inner pr).
Proof.
  intros Hrep. split_and!.
  - by apply find_order_lookup.
  - by rewrite has_order_find, (find_order_lookup _ _ _ Hrep).
  - by apply active_order_count_size.
  - by apply active_order_count_for_trader_spec.
  - by apply collect_expired_perm.
  - intros o. by apply elem_of_bids.
  - intros o. by apply elem_of_asks.
  - unfold bids. destruct (books inner !! pr); [apply sorted_bids|constructor].
  - unfold asks. destruct (books inner !! pr); [apply sorted_asks|constructor].
Qed.

(** Applying a persisted event a second time changes nothing. *)
Theorem apply_idempotent inner e inner' :
  ev_seq e <> 0 -> apply inner e = Ret inner' -> apply inner' e = Ret inner'.
Proof.
  intros Hz Happ. unfold apply at 1.
  assert (ev_seq e <= book_seq inner') as Hle.
  { destruct (apply_raises_seq _ _ _ Happ) as [->| ->]; [lia|]. revert Happ. unfold apply.
    destruct (Z.eqb_spec (ev_seq e) 0), (Z.leb_spec (ev_seq e) (book_seq inner)); simpl; try lia.
    destruct (Z.ltb_spec (book_seq inner) (ev_seq e)); [|lia].
    destruct (ev_data e); try (intros [= Heq]; apply (f_equal book_seq) in Heq; rewrite ?remove_order_seq in Heq; simpl in Heq; lia).
    intros (i2 & A%apply_fill_seq & B%apply_fill_seq)%outcome_bind_Ret. simpl in A. lia. }
  destruct (Z.eqb_spec (ev_seq e) 0), (Z.leb_spec (ev_seq e) (book_seq inner')); simpl; (done || lia).
Qed.

(** The auction and the book agree.  Recording the matches of an auction over
    one pair of a live book, and applying them, never panics and is never
    rejected as an overfill: every order loses exactly what was matched, an
    exhausted order leaves the book, and all others are untouched. *)
Theorem auction_fills_book inner m pr aid r evs :
  0 <= book_seq inner -> represents inner m -> live m -> Z.of_nat (size m) <= 2 ^ 32 ->
  run aid pr (bids inner pr) (asks inner pr) = Ret (Some r) ->
  matched_events aid (book_seq inner) (matches r) evs ->
  exists inner' m', foldM apply inner evs = Ret inner' /\ represents inner' m' /\ live m' /\
    forall i, filled_by (match_fills (matches r)) i (m !! i) (m' !! i).
Proof.
  intros Hsq Hrep Hlive Hsz Hrun Hevs.
  destruct (spec_fills_good (match_fills (matches r)) m) as (m' & Hm' & Hlive' & Hfilled).
  - done.
  - by eapply match_fills_good.
  - intros i o Ho. by eapply auction_fills_within.
  - pose proof (apply_matched_events aid _ _ _ _ Hsq Hrep Hevs) as Happ. rewrite Hm' in Happ.
    destruct Happ as (inner' & ? & ? & _). eauto 10.
Qed.

(** Replaying a store in batches is applying, in order, every event of the
    log past the applied number; with one unit of fuel per event and one for
    the last read it terminates. *)
Theorem replay_rebuilds_book {St} `{!StoreOps D St, !StoreLaws D St} inner (store : St) inner' :
  st_wf store -> 0 <= book_seq inner -> Z.of_nat (length (st_log store)) + BATCH <= u64_max ->
  foldM apply inner (List.filter (fun e => book_seq inner <? ev_seq e) (st_log store)) = Ret inner' ->
  replay (S (length (st_log store))) inner store = Ret (Some (Ok inner')).
Proof.
  intros Hwf H0 Hlen Hfold. apply replay_total; try done.
  pose proof (filter_length_le (fun e => book_seq inner <? ev_seq e) (st_log store)). lia.
Qed.
End properties.

(** ** Witnesses on a concrete book *)

Section witness_defs.
#[local] Existing Instance canonical_iter.

Definition sample_book : Inner Z :=
  fold_left insert_order (sample_bids ++ sample_asks) new.

Definition sample_map : gmap Uuid (Order Z) :=
  fold_left (fun m o => <[o_id o := o]> m) (sample_bids ++ sample_asks) ∅.

Definition sample_events : list (Event Z) :=
  map (fun '(n, mt) => mkEvent n TOrderMatched 0
      (OrderMatched 7 (match_bid_fill mt) (match_ask_fill mt) (match_price mt) (match_size mt)))
    (combine [11; 12] (matches sample_result)).

Definition sample_store : MemStore.Inner Z :=
  MemStore.mkInner
    [mkEvent 1 TOrderCancelled 5 (OrderCancelled 1 (str "user")); mkEvent 2 TOrderExpired 6 (OrderExpiredEv 4)] 2.

Definition sample_ops : list (BookOp Z) :=
  [OpInsert (sample_order 9 9 Buy 90 1 9); OpApply (mkEvent 3 TOrderCancelled 0 (OrderCancelled 1 (str "user")))].

Lemma represents_inserts (l : list (Order Z)) inner m :
  represents inner m -> NoDup (map o_id l) -> (forall o, o ∈ l -> m !! o_id o = None) ->
  represents (fold_left insert_order l inner) (fold_left (fun m o => <[o_id o := o]> m) l m).
Proof.
  revert inner m; induction l as [|o l IH]; intros inner m Hrep Hnd Hfresh; simpl; [done|].
  apply NoDup_cons in Hnd as [Hnin Hnd]. apply IH; [|done|].
  - apply insert_order_represents; [done|]. apply Hfresh. left.
  - intros o' Ho'. rewrite lookup_insert_ne; [apply Hfresh; by right|].
    intros Heq. apply Hnin. rewrite Heq. by apply list_elem_of_fmap_2.
Qed.

Lemma sample_represents : represents sample_book sample_map.
Proof.
  apply represents_inserts; [apply represents_new| |].
  - apply (bool_decide_unpack _). vm_compute. exact I.
  - intros o _. apply lookup_empty.
Qed.

Lemma sample_live : live sample_map.
Proof.
  assert (map_Forall (fun i o => bounded_orderb o = true /\ (0 <? rem_units o) = true /\ o_id o = i) sample_map) as Hall.
  { apply (bool_decide_unpack _). vm_compute. exact I. }
  intros i o Ho. destruct (Hall i o Ho) as (H1 & H2 & H3).
  split_and!; [by apply bounded_orderb_spec|lia|done].
Qed.

Lemma book_simulates_map_witness :
  exists inner', foldM book_step sample_book sample_ops = Ret inner' /\ book_seq inner' = 3.
Proof.
  destruct (proj1 (book_simulates_map sample_book sample_map sample_ops sample_represents)) as (inner' & H1 & _ & H3).
  - vm_compute. auto.
  - exists inner'. split; [exact H1|]. rewrite H3. vm_compute. reflexivity.
Defined.

Lemma book_queries_exact_witness : active_order_count sample_book = 6%nat.
Proof.
  rewrite (proj1 (proj2 (proj2 (book_queries_exact sample_book sample_map [] 0 [] 0 sample_represents)))).
  vm_compute. reflexivity.
Defined.

Lemma apply_idempotent_witness :
  exists inner', apply sample_book (mkEvent 3 TOrderCancelled 0 (OrderCancelled 1 (str "user"))) = Ret inner' /\
    apply inner' (mkEvent 3 TOrderCancelled 0 (OrderCancelled 1 (str "user"))) = Ret inner'.
Proof.
  eexists. split; [reflexivity|]. apply (apply_idempotent sample_book); [discriminate|reflexivity].
Defined.

Lemma auction_fills_book_witness : exists inner', foldM apply sample_book sample_events = Ret inner'.
Proof.
  destruct (auction_fills_book sample_book sample_map (str "BTC/USD") 7 sample_result sample_events)
    as (inner' & _ & H1 & _).
  - vm_compute. discriminate.
  - exact sample_represents.
  - exact sample_live.
  - vm_compute. discriminate.
  - vm_compute. reflexivity.
  - split_and!.
    + repeat constructor.
    + repeat constructor; vm_compute; reflexivity.
    + repeat constructor; vm_compute; reflexivity.
  - exists inner'. exact H1.
Defined.

Lemma replay_rebuilds_book_witness : 
  exists inner', replay (S (length (st_log sample_store))) sample_book sample_store = Ret (Some (Ok inner')).
Proof.
  eexists. apply (replay_rebuilds_book sample_book sample_store).
  - split_and!; [repeat constructor|repeat constructor; vm_compute; discriminate|vm_compute; discriminate..].
  - vm_compute. discriminate.
  - vm_compute. discriminate.
  - reflexivity.
Defined.
End witness_defs.
