(* ===== verification/FileStore.v ===== *)
(** * The file-backed event log

    [dp-event/src/file_store.rs]: length-prefixed records appended to a file, a
    load that truncates a torn tail, and compaction by rewriting.  The record
    format comes from the crate [bincode] and is a parameter.  The state holds
    the bytes on the medium and those a failed write left in the buffered
    writer, which the next flush writes out.  A compaction that fails after
    its flush is in [FileCompact.v]; faults of reads are not modelled. *)

From S2P Require Import Prelude Decimal Types Events.
Open Scope Z_scope.

(** The serializer: [None] is an error. *)
Class BincodeOps (A : Type) := {
  ser : A -> option bytes;
  de : bytes -> option A
}.

Class BincodeLaws (A : Type) `{!BincodeOps A} := {
  bincode_roundtrip : forall a b, ser a = Some b -> de b = Some a;
  bincode_nonempty : forall a b, ser a = Some b -> b <> []
}.

Definition MAX_RECORD_BYTES : Z := 16 * 1024 * 1024.

(** [u32::to_be_bytes] and [u32::from_be_bytes]. *)
Definition be32 (n : Z) : bytes :=
  [n / 2 ^ 24 mod 256; n / 2 ^ 16 mod 256; n / 2 ^ 8 mod 256; n mod 256].

Definition from_be (l : bytes) : Z := fold_left (fun acc b => acc * 256 + b) l 0.

Record FileInner (D : Type) := mkFileInner {
  disk : bytes;
  pending : bytes;
  f_events : list (Event D);
  f_seq : Z
}.
Arguments mkFileInner {D}.
Arguments disk {D}.
Arguments pending {D}.
Arguments f_events {D}.
Arguments f_seq {D}.

Section file_store.
Context {D : Type} `{!BincodeOps (Event D)}.

Definition frame (payload : bytes) : bytes := be32 (wrap32 (Z.of_nat (length payload))) ++ payload.

(** One record per turn; the fuel is the number of bytes, and a record has at
    least five. *)
Fixpoint load_loop (fuel : nat) (data : bytes) (evs : list (Event D)) (sq good_end : Z) :
    result (list (Event D) * Z * Z) EventError :=
  match fuel with
  | O => Ok (evs, sq, good_end)
  | S fuel' =>
    if (length data <? 4)%nat then Ok (evs, sq, good_end)
    else
      let len := from_be (take 4 data) in
      if (len =? 0) || (MAX_RECORD_BYTES <? len) then Ok (evs, sq, good_end)
      else
        let rest := drop 4 data in
        if Z.of_nat (length rest) <? len then Ok (evs, sq, good_end)
        else
          match de (take (Z.to_nat len) rest) with
          | None => Err (EvCorruptEvent good_end)
          | Some e =>
            let sq := if sq <? ev_seq e then ev_seq e else sq in
            load_loop fuel' (drop (Z.to_nat len) rest) (evs ++ [e]) sq (good_end + 4 + len)
          end
  end.

Definition load_and_truncate (data : bytes) : result (list (Event D) * Z * Z) EventError :=
  load_loop (length data) data [] 0 0.

Definition open (data : bytes) : result (FileInner D) EventError :=
  match load_and_truncate data with
  | Err e => Err e
  | Ok (evs, sq, good_end) => Ok (mkFileInner (take (Z.to_nat good_end) data) [] evs sq)
  end.

(** The records of the events up to the first that does not serialize. *)
Fixpoint frames (evs : list (Event D)) : bytes * bool :=
  match evs with
  | [] => ([], true)
  | e :: evs' =>
    match ser e with
    | None => ([], false)
    | Some payload => let '(bs, ok) := frames evs' in (frame payload ++ bs, ok)
    end
  end.

Definition append (env : StoreEnv) (s : FileInner D) (evs : list (Event D)) :
    FileInner D * result (list (Event D)) EventError :=
  let '(evs', sq) := assign_all (env_clock env) evs (f_seq s) in
  let '(bs, ok) := frames evs' in
  let stream := pending s ++ bs in
  match env_io env with
  | Some (k, b) =>
    (mkFileInner (disk s ++ take k stream) (take (b - k) (drop k stream)) (f_events s) sq, Err EvIo)
  | None =>
    if ok then (mkFileInner (disk s ++ stream) [] (f_events s ++ evs') sq, Ok evs')
    else (mkFileInner (disk s) stream (f_events s) sq, Err EvBincode)
  end.

Definition read_from (s : FileInner D) (after_seq limit : Z) : outcome (result (list (Event D)) EventError) :=
  read_slice (f_events s) after_seq limit.

Definition last_seq (s : FileInner D) : Z := f_seq s.

Definition size_bytes (s : FileInner D) : Z := Z.of_nat (length (disk s)).

Definition close (s : FileInner D) : FileInner D := mkFileInner (disk s ++ pending s) [] (f_events s) (f_seq s).

Definition compact_before (env : StoreEnv) (s : FileInner D) (before_seq : Z) : FileInner D * result unit EventError :=
  if before_seq =? 0 then (s, Ok tt)
  else
    match env_io env with
    | Some (k, _) =>
      (mkFileInner (disk s ++ take k (pending s)) (drop k (pending s)) (f_events s) (f_seq s), Err EvIo)
    | None =>
      let kept := List.filter (fun e => before_seq <=? ev_seq e) (f_events s) in
      let '(bs, ok) := frames kept in
      if ok then (mkFileInner bs [] kept (f_seq s), Ok tt)
      else (mkFileInner (disk s ++ pending s) [] (f_events s) (f_seq s), Err EvBincode)
    end.

(** The events of the cache are numbered in order; the rest of the state is
    unconstrained, as it is after a fault. *)
Definition file_wf (s : FileInner D) : Prop := log_ordered (f_events s) (f_seq s).

(** What holds while no write has failed ([lived_durable]): the medium is
    exactly the cached events, each in a record the loader accepts. *)
Definition durable (s : FileInner D) : Prop :=
  pending s = [] /\ frames (f_events s) = (disk s, true) /\
  Forall (fun e => exists b, ser e = Some b /\ Z.of_nat (length b) <= MAX_RECORD_BYTES) (f_events s).
End file_store.

#[global] Instance file_store_ops D `{!BincodeOps (Event D)} : StoreOps D (FileInner D) := {|
  st_append := append;
  st_read_from := read_from;
  st_last_seq := last_seq;
  st_compact_before := compact_before;
  st_log := f_events;
  st_wf := file_wf
|}.

(** ** Records *)

Lemma from_be_be32 n : 0 <= n < 2 ^ 32 -> from_be (be32 n) = n.
Proof. intros Hn. unfold from_be, be32; simpl. Z.to_euclidean_division_equations. lia. Qed.

Section records.
Context {D : Type} `{!BincodeOps (Event D), !BincodeLaws (Event D)}.
Implicit Types (e : Event D) (evs : list (Event D)).

(** An event whose record the loader accepts. *)
Definition loadable e : Prop := exists b, ser e = Some b /\ Z.of_nat (length b) <= MAX_RECORD_BYTES.

Lemma length_frame b : length (frame b) = (4 + length b)%nat.
Proof. unfold frame. by rewrite length_app. Qed.

Lemma frame_header b rest :
  Z.of_nat (length b) <= MAX_RECORD_BYTES ->
  from_be (take 4 (frame b ++ rest)) = Z.of_nat (length b) /\ drop 4 (frame b ++ rest) = b ++ rest.
Proof.
  intros Hb. split; [|done].
  change (from_be (be32 (wrap32 (Z.of_nat (length b)))) = Z.of_nat (length b)).
  rewrite wrap32_id by (unfold MAX_RECORD_BYTES, u32_max in *; lia).
  apply from_be_be32. unfold MAX_RECORD_BYTES in *. lia.
Qed.

Definition seq_max (sq : Z) evs : Z := fold_left (fun sq e => if sq <? ev_seq e then ev_seq e else sq) evs sq.

(** One complete record is read and the loop goes on behind it. *)
Lemma load_record fuel e b rest acc sq good_end :
  ser e = Some b -> Z.of_nat (length b) <= MAX_RECORD_BYTES ->
  load_loop (S fuel) (frame b ++ rest) acc sq good_end =
    load_loop fuel rest (acc ++ [e]) (seq_max sq [e]) (good_end + 4 + Z.of_nat (length b)).
Proof.
  intros Hser Hb. destruct (frame_header b rest Hb) as [Hlen Hdrop]. cbn [load_loop].
  rewrite Hlen, Hdrop, length_app, length_frame.
  destruct (Nat.ltb_spec (4 + length b + length rest) 4); [lia|].
  assert (length b <> 0)%nat by (pose proof (bincode_nonempty _ _ Hser); by destruct b).
  destruct (Z.eqb_spec (Z.of_nat (length b)) 0); [lia|].
  destruct (Z.ltb_spec MAX_RECORD_BYTES (Z.of_nat (length b))); [lia|]. cbn [orb].
  rewrite length_app. destruct (Z.ltb_spec (Z.of_nat (length b + length rest)) (Z.of_nat (length b))); [lia|].
  by rewrite Nat2Z.id, take_app_length, drop_app_length, (bincode_roundtrip _ _ Hser).
Qed.

(** A record cut short ends the loop. *)
Lemma load_torn fuel b k acc sq good_end :
  Z.of_nat (length b) <= MAX_RECORD_BYTES -> (k < length (frame b))%nat ->
  load_loop fuel (take k (frame b)) acc sq good_end = Ok (acc, sq, good_end).
Proof.
  intros Hb Hk. destruct fuel; [done|]. cbn [load_loop]. rewrite length_frame in Hk.
  rewrite length_take, length_frame.
  destruct (Nat.ltb_spec (k `min` (4 + length b)) 4); [done|].
  rewrite take_take, Nat.min_l by lia.
  pose proof (frame_header b [] Hb) as [Hlen Hdrop]. rewrite app_nil_r in Hlen, Hdrop. rewrite Hlen.
  destruct (_ || _); [done|].
  rewrite length_drop, length_take, length_frame.
  by destruct (Z.ltb_spec (Z.of_nat (k `min` (4 + length b) - 4)) (Z.of_nat (length b))); [|lia].
Qed.

Lemma frames_app evs1 evs2 bs1 bs2 :
  frames evs1 = (bs1, true) -> frames evs2 = (bs2, true) -> frames (evs1 ++ evs2) = (bs1 ++ bs2, true).
Proof.
  revert bs1; induction evs1 as [|e evs1 IH]; intros bs1; simpl; [by intros [= <-] ->|].
  destruct (ser e) as [b|]; [|done]. destruct (frames evs1) as [bs ok] eqn:E. intros [= <- ->] H2.
  rewrite (IH bs eq_refl H2). by rewrite app_assoc.
Qed.

Lemma frames_loadable evs : Forall loadable evs -> exists bs, frames evs = (bs, true).
Proof.
  induction 1 as [|e evs (b & Hb & _) _ (bs & IH)]; simpl; [by exists []|].
  rewrite Hb, IH. eauto.
Qed.

Lemma frames_cons e b evs bs :
  ser e = Some b -> frames evs = (bs, true) -> frames (e :: evs) = (frame b ++ bs, true).
Proof. intros H1 H2. simpl. by rewrite H1, H2. Qed.

(** Loading any prefix of a well-formed file yields the events whose records it
    contains completely, and the offset at which they end. *)
Lemma load_prefix evs bs k fuel acc sq good_end :
  Forall loadable evs -> frames evs = (bs, true) -> (length (take k bs) <= fuel)%nat ->
  exists j bs', frames (take j evs) = (bs', true) /\ (length bs' <= k)%nat /\ (j <= length evs)%nat /\
    bs' = take (length bs') bs /\
    (j = length evs \/ exists bs'', frames (take (S j) evs) = (bs'', true) /\ (k < length bs'')%nat) /\
    load_loop fuel (take k bs) acc sq good_end =
      Ok (acc ++ take j evs, seq_max sq (take j evs), good_end + Z.of_nat (length bs')).
Proof.
  intros Hall. revert bs k fuel acc sq good_end.
  induction Hall as [|e evs (b & Hser & Hlen) Hall IH]; intros bs k fuel acc sq good_end Hbs Hfuel.
  { injection Hbs as <-. exists 0%nat, []. rewrite (take_nil k). simpl.
    split_and!; [done|lia|lia|done|by left|]. rewrite app_nil_r, Z.add_0_r. destruct fuel; reflexivity. }
  destruct (frames_loadable evs Hall) as (bs1 & Hbs1).
  rewrite (frames_cons e b evs bs1 Hser Hbs1) in Hbs. apply (f_equal fst) in Hbs. cbn [fst] in Hbs. subst bs.
  destruct (Nat.lt_ge_cases k (length (frame b))) as [Hlt|Hge].
  - exists 0%nat, []. rewrite (take_app_le (frame b) bs1 k) by lia. rewrite load_torn by done. simpl.
    split_and!; [done|lia|lia|done| |by rewrite app_nil_r, Z.add_0_r].
    right. exists (frame b). split; [|done]. pose proof (frames_cons e b [] [] Hser eq_refl) as Hf. by rewrite app_nil_r in Hf.
  - rewrite (take_app_ge (frame b) bs1 k) in * by lia. rewrite length_app in Hfuel.
    rewrite length_frame in *. destruct fuel as [|fuel]; [lia|].
    rewrite (load_record _ e) by done.
    destruct (IH bs1 (k - (4 + length b))%nat fuel (acc ++ [e]) (seq_max sq [e]) (good_end + 4 + Z.of_nat (length b)) Hbs1)
      as (j & bs' & H1 & H2 & H3 & H4 & H5 & H6); [lia|].
    exists (S j), (frame b ++ bs'). rewrite H6. change (take (S j) (e :: evs)) with (e :: take j evs).
    rewrite (frames_cons e b _ bs' Hser H1), length_app, length_frame.
    split_and!; [done|lia|simpl; lia| | |].
    + rewrite (take_app_ge (frame b) bs1) by (rewrite length_frame; lia).
      rewrite length_frame, Nat.add_sub_swap, Nat.sub_diag by lia. by f_equal.
    + destruct H5 as [->|(bs'' & H5 & ?)]; [by left|right]. exists (frame b ++ bs'').
      change (take (S (S j)) (e :: evs)) with (e :: take (S j) evs).
      rewrite (frames_cons e b _ bs'' Hser H5), length_app, length_frame. split; [done|lia].
    + rewrite <- app_assoc.
      by replace (good_end + 4 + Z.of_nat (length b) + Z.of_nat (length bs'))
        with (good_end + Z.of_nat (4 + length b + length bs')) by lia.
Qed.
End records.

(** ** Opening and appending *)

Section store_facts.
Context {D : Type} `{!BincodeOps (Event D), !BincodeLaws (Event D)}.
Implicit Types (e : Event D) (evs : list (Event D)) (s : FileInner D).

Lemma frames_prefix evs n bs :
  frames evs = (bs, true) -> exists bs', frames (take n evs) = (bs', true) /\ (length bs' <= length bs)%nat.
Proof.
  revert n bs; induction evs as [|e evs IH]; intros n bs.
  { rewrite take_nil. intros [= <-]. by exists []. }
  cbn [frames]. destruct (ser e) as [b|] eqn:Hser; [|done]. destruct (frames evs) as [bs1 ok] eqn:E.
  intros Heq. apply (f_equal fst) in Heq as H1. apply (f_equal snd) in Heq as H2. cbn [fst snd] in H1, H2.
  subst bs ok. destruct n as [|n]; [exists []; split; [done|apply Nat.le_0_l]|].
  destruct (IH n bs1 eq_refl) as (bs' & Hbs' & ?). exists (frame b ++ bs').
  change (take (S n) (e :: evs)) with (e :: take n evs).
  rewrite (frames_cons e b _ bs' Hser Hbs'), !length_app. split; [done|lia].
Qed.

Lemma frames_monotone evs n n' bs bs' :
  (n <= n')%nat -> frames (take n evs) = (bs, true) -> frames (take n' evs) = (bs', true) ->
  (length bs <= length bs')%nat.
Proof.
  intros Hle Hn Hn'. destruct (frames_prefix (take n' evs) n bs' Hn') as (bs2 & H2 & ?).
  rewrite take_take, Nat.min_l in H2 by lia. rewrite Hn in H2. injection H2 as ->. done.
Qed.

(** Opening any prefix of a durable file. *)
Lemma open_prefix s k :
  durable s ->
  exists j s', open (take k (disk s)) = Ok s' /\ f_events s' = take j (f_events s) /\ durable s' /\
    f_seq s' = seq_max 0 (take j (f_events s)) /\ (j <= length (f_events s))%nat /\
    forall n bs, (n <= length (f_events s))%nat -> frames (take n (f_events s)) = (bs, true) ->
      (length bs <= k)%nat -> (n <= j)%nat.
Proof.
  intros (_ & Hfr & Hall). unfold open, load_and_truncate.
  destruct (load_prefix (f_events s) (disk s) k (length (take k (disk s))) [] 0 0 Hall Hfr (le_n _))
    as (j & bs' & H1 & H2 & H3 & H4 & H5 & ->).
  rewrite app_nil_l, Z.add_0_l, Nat2Z.id.
  exists j. eexists. split_and!; [done|done| |done|done|].
  - unfold durable; cbn [pending f_events disk]. split_and!; [done| |by apply Forall_take].
    rewrite take_take, Nat.min_l, <- H4 by lia. done.
  - intros n bs Hn Hbs Hk. destruct (Nat.le_gt_cases n j) as [?|Hgt]; [done|exfalso].
    destruct H5 as [->|(bs'' & Hbs'' & ?)]; [lia|].
    pose proof (frames_monotone _ (S j) n _ _ ltac:(lia) Hbs'' Hbs). lia.
Qed.

Lemma append_durable env s evs s' evs' :
  durable s -> env_io env = None -> append env s evs = (s', Ok evs') -> Forall loadable evs' -> durable s'.
Proof.
  intros (Hp & Hfr & Hall) Hio. unfold append. rewrite Hio, Hp.
  destruct (assign_all _ _ _) as [evs1 sq]. destruct (frames evs1) as [bs ok] eqn:E.
  destruct ok; [|done]. intros [= <- <-] Hl. unfold durable; cbn [pending f_events disk].
  split_and!; [done|by apply frames_app|by apply Forall_app].
Qed.

Lemma seq_max_ordered evs sq last :
  log_ordered evs last -> sq <= seq_max sq evs /\ (forall e, e ∈ evs -> ev_seq e <= seq_max sq evs) /\
  (seq_max sq evs = sq \/ exists e, e ∈ evs /\ seq_max sq evs = ev_seq e).
Proof.
  intros _. unfold seq_max. revert sq; induction evs as [|e evs IH]; intros sq; simpl; [split_and!; [lia|set_solver|by left]|].
  destruct (IH (if sq <? ev_seq e then ev_seq e else sq)) as (H1 & H2 & H3).
  destruct (Z.ltb_spec sq (ev_seq e)); split_and!; try lia.
  - intros e' [->|?]%elem_of_cons; [lia|auto].
  - right. destruct H3 as [H3|(e' & ? & ?)]; [exists e; split; [left|lia]|exists e'; split; [by right|done]].
  - intros e' [->|?]%elem_of_cons; [lia|auto].
  - destruct H3 as [H3|(e' & ? & ?)]; [by left|right; exists e'; split; [by right|done]].
Qed.

#[global] Instance file_store_laws : StoreLaws D (FileInner D).
Proof.
  split; simpl; unfold file_wf, last_seq; [done|..].
  - intros env s evs s' evs' Hwf Hb. unfold append.
    destruct (assign_all _ _ _) as [evs1 sq1] eqn:E. destruct (frames evs1) as [bs ok].
    destruct (env_io env) as [[k b]|]; [done|]. destruct ok; [|done]. intros [= <- <-]; simpl.
    pose proof Hwf as (_ & _ & ?).
    apply assign_all_spec in E as (H1 & -> & H3); [|lia..]. apply assigned_bounds in H3 as [H3 H4].
    split_and!; [|done..| |lia|lia].
    + eapply log_ordered_app; [exact Hwf|lia|done|]. eapply Forall_impl; [exact H4|]. simpl; lia.
    + eapply Forall_impl; [exact H4|]. simpl; lia.
  - intros env s evs s' e Hwf Hb. unfold append.
    destruct (assign_all _ _ _) as [evs1 sq1] eqn:E. destruct (frames evs1) as [bs ok].
    pose proof Hwf as (Hs & Hf & ?). apply assign_all_spec in E as (_ & -> & _); [|lia..].
    assert (log_ordered (f_events s) (f_seq s + Z.of_nat (length evs))).
    { split_and!; [done| |lia..]. eapply Forall_impl; [exact Hf|]. simpl; lia. }
    destruct (env_io env) as [[k b]|]; [|destruct ok; [done|]]; intros [= <- _]; simpl; split_and!; (done || lia).
  - intros s after limit Hwf Hl Hb. by eapply read_slice_spec.
  - intros env s before s' u Hwf. unfold compact_before. destruct (Z.eqb_spec before 0) as [->|].
    { intros [= <-]. split_and!; try done. symmetry. by apply filter_all, Forall_true. }
    destruct (env_io env) as [[k b]|]; [done|]. destruct (frames _) as [bs ok]. destruct ok; [|done].
    intros [= <-]; simpl. split_and!; try done. by apply log_ordered_filter.
  - intros env s before s' e Hwf. unfold compact_before. destruct (Z.eqb_spec before 0); [done|].
    destruct (env_io env) as [[k b]|]; [by intros [= <- _]|]. destruct (frames _) as [bs ok].
    destruct ok; [done|]. by intros [= <- _].
Qed.
End store_facts.

(** ** The life of a log *)

Section life.
Context {D : Type} `{!BincodeOps (Event D), !BincodeLaws (Event D)}.
Implicit Types (e : Event D) (evs acks : list (Event D)) (s : FileInner D).

(** The states of a log that began as an empty file, with the events whose
    append was answered [Ok] and that no compaction has dropped since: appends
    and compactions that succeed, compactions that fail, closing and opening
    again, and crashes in the middle of an append followed by a restart.  The
    one thing left out is a store that goes on after an append failed. *)
Inductive lived : FileInner D -> list (Event D) -> Prop :=
| lived_new s : open [] = Ok s -> lived s []
| lived_append env s acks evs s' evs' :
    lived s acks -> append env s evs = (s', Ok evs') -> Forall loadable evs' -> lived s' (acks ++ evs')
| lived_compact env s acks before s' :
    lived s acks -> compact_before env s before = (s', Ok tt) ->
    lived s' (List.filter (fun e => (before =? 0) || (before <=? ev_seq e)) acks)
| lived_compact_failed env s acks before s' err :
    lived s acks -> compact_before env s before = (s', Err err) -> lived s' acks
| lived_reopen s acks s' : lived s acks -> open (disk (close s)) = Ok s' -> lived s' acks
| lived_crash env s acks evs s1 err s' :
    lived s acks -> is_Some (env_io env) -> Forall loadable (assign_all (env_clock env) evs (f_seq s)).1 ->
    append env s evs = (s1, Err err) -> open (disk s1) = Ok s' -> lived s' acks.

Lemma append_ok_io env s evs s' evs' : append env s evs = (s', Ok evs') -> env_io env = None.
Proof. unfold append. destruct (assign_all _ _ _), (frames _), (env_io env) as [[]|]; done. Qed.

Lemma append_events env s evs s' evs' : append env s evs = (s', Ok evs') -> f_events s' = f_events s ++ evs'.
Proof.
  intros Ha. pose proof (append_ok_io _ _ _ _ _ Ha) as Hio. revert Ha. unfold append. rewrite Hio.
  destruct (assign_all _ _ _), (frames _) as [? []]; [|done]. by intros [= <- <-].
Qed.

Lemma compact_durable env s before s' r :
  durable s -> compact_before env s before = (s', r) ->
  durable s' /\ f_events s' = match r with Ok _ => List.filter (fun e => (before =? 0) || (before <=? ev_seq e)) (f_events s) | Err _ => f_events s end.
Proof.
  intros Hd. pose proof Hd as (Hp & Hfr & Hall). unfold compact_before. destruct (Z.eqb_spec before 0) as [->|].
  { intros [= <- <-]. split; [done|]. symmetry. by apply filter_all, Forall_true. }
  destruct (env_io env) as [[k b]|].
  { intros [= <- <-]. rewrite Hp, take_nil, drop_nil, app_nil_r. by split. }
  cbn [orb]. set (kept := List.filter _ _). assert (Forall loadable kept) as Hk by by apply Forall_List_filter.
  destruct (frames_loadable kept Hk) as [bs Hbs]. rewrite Hbs. intros [= <- <-]. split; [by split_and!|done].
Qed.

Lemma reopen_events s : durable s -> exists s', open (disk s) = Ok s' /\ f_events s' = f_events s /\ durable s'.
Proof.
  intros Hd. destruct (open_prefix s (length (disk s)) Hd) as (j & s' & Hopen & Hev & Hds & _ & Hj & Hmax).
  rewrite firstn_all in Hopen. exists s'. split_and!; [done| |done]. rewrite Hev. apply take_ge.
  apply (Hmax _ (disk s)); [done| |done]. rewrite firstn_all. apply Hd.
Qed.

(** Whatever part of the new records reached the medium. *)
Lemma reopen_torn env s evs k b s1 r :
  durable s -> env_io env = Some (k, b) -> Forall loadable (assign_all (env_clock env) evs (f_seq s)).1 -> append env s evs = (s1, r) ->
  exists j s', open (disk s1) = Ok s' /\ durable s' /\ f_events s' = f_events s ++ take j (assign_all (env_clock env) evs (f_seq s)).1.
Proof.
  intros Hd Hio Hl. unfold append. rewrite Hio.
  destruct (assign_all _ _ _) as [evs1 sq]; cbn [fst] in *.
  destruct (frames_loadable evs1 Hl) as (bs & Hbs). rewrite Hbs. intros [= <- _]. cbn [disk].
  pose proof Hd as (Hp & Hfr & Hall). rewrite Hp, app_nil_l.
  assert (durable (mkFileInner (disk s ++ bs) [] (f_events s ++ evs1) sq)) as Hd2.
  { split_and!; [done|by apply frames_app|by apply Forall_app]. }
  destruct (open_prefix _ (length (disk s) + k) Hd2) as (j & s' & Hopen & Hev & Hds & _ & Hj & Hmax).
  cbn [disk f_events] in *. rewrite take_app_add' in Hopen by done.
  assert (length (f_events s) <= j)%nat as Hge.
  { apply (Hmax (length (f_events s)) (disk s)); [rewrite length_app; lia|by rewrite take_app_length|lia]. }
  exists (j - length (f_events s))%nat, s'. split_and!; [done..|].
  by rewrite Hev, take_app_ge by done.
Qed.

Lemma sublist_List_filter (f : Event D -> bool) evs evs' : evs `sublist_of` evs' -> List.filter f evs `sublist_of` List.filter f evs'.
Proof. induction 1; simpl; [constructor|..]; destruct (f _); by try constructor. Qed.

Lemma lived_durable s acks : lived s acks -> durable s /\ acks `sublist_of` f_events s.
Proof.
  induction 1 as [s Ho|env s acks evs s' evs' _ [Hd Hs] Ha Hl|env s acks before s' _ [Hd Hs] Hc|env s acks before s' e _ [Hd Hs] Hc
    |s acks s' _ [Hd Hs] Ho|env s acks evs s1 e s' _ [Hd Hs] [[k b] Hio] Hl Ha Ho].
  - injection Ho as <-. split; [by split_and!|constructor].
  - split; [by eapply append_durable; [done|by eapply append_ok_io|done|done]|].
    rewrite (append_events _ _ _ _ _ Ha). by apply sublist_app.
  - destruct (compact_durable _ _ _ _ _ Hd Hc) as [Hd' ->]. split; [done|]. by apply sublist_List_filter.
  - by destruct (compact_durable _ _ _ _ _ Hd Hc) as [Hd' ->].
  - destruct (reopen_events s Hd) as (s2 & Ho2 & He & Hd2). unfold close in Ho. cbn [disk] in Ho.
    rewrite (proj1 Hd), app_nil_r, Ho2 in Ho. injection Ho as <-. by rewrite He.
  - destruct (reopen_torn _ _ _ _ _ _ _ Hd Hio Hl Ha) as (j & s2 & Ho2 & Hd2 & He). rewrite Ho in Ho2. injection Ho2 as <-.
    split; [done|]. rewrite He. by apply sublist_inserts_r.
Qed.
End life.

(** ** Properties *)

Section properties.
Context {D : Type} `{!BincodeOps (Event D), !BincodeLaws (Event D)}.
Implicit Types (e : Event D) (evs acks : list (Event D)) (s : FileInner D).

(** C35: a crash during an append loses no acknowledged event.  The log began
    as an empty file and went through any appends, restarts, compactions that
    succeed or fail at their flush, and crashes during an append, each followed
    by a restart, with records of at most 16 MiB.
    Whatever part of the new records then reaches the medium, opening the file
    succeeds and yields the events the store held, among them every event whose
    append was ever answered [Ok] and that no compaction dropped, in order,
    then a prefix of the new ones; and the log goes on living from there.  A
    store that goes on after a failed append is not covered, and can lose an
    acknowledged event ([torn_append_loses_acknowledged]); nor is a compaction
    that fails later, which is in [FileCompact.v]. *)
Theorem crash_during_append env s acks evs k b s1 r :
  lived s acks -> env_io env = Some (k, b) ->
  Forall loadable (assign_all (env_clock env) evs (f_seq s)).1 ->
  append env s evs = (s1, r) ->
  exists j s', open (disk s1) = Ok s' /\ lived s' acks /\ acks `sublist_of` f_events s /\
    f_events s' = f_events s ++ take j (assign_all (env_clock env) evs (f_seq s)).1.
Proof.
  intros Hlv Hio Hl Ha. destruct (lived_durable _ _ Hlv) as [Hd Hs].
  destruct (reopen_torn _ _ _ _ _ _ _ Hd Hio Hl Ha) as (j & s' & Ho & _ & He).
  exists j, s'. split_and!; [done| |done|done].
  assert (r = Err EvIo) as ->. { revert Ha. unfold append. destruct (assign_all _ _ _), (frames _). rewrite Hio. by intros [= _ <-]. }
  eapply lived_crash; [exact Hlv|by rewrite Hio|exact Hl|exact Ha|exact Ho].
Qed.

(** Closing and opening a file that never saw a failed write is the identity
    on its events, and on the sequence counter whenever the newest event is
    still in the log. *)
Theorem reopen_identity s :
  durable s -> file_wf s ->
  exists s', open (disk s) = Ok s' /\ f_events s' = f_events s /\ disk s' = disk s /\
    ((exists e, e ∈ f_events s /\ ev_seq e = f_seq s) -> s' = s).
Proof.
  intros Hd Hwf. destruct (open_prefix s (length (disk s)) Hd) as (j & s' & Hopen & Hev & Hds & Hsq & Hj & Hmax).
  pose proof Hd as (Hp & Hfr & _). rewrite firstn_all in Hopen.
  assert (j = length (f_events s)) as ->.
  { assert (length (f_events s) <= j)%nat; [|lia].
    apply (Hmax _ (disk s)); [done|by rewrite firstn_all|done]. }
  rewrite firstn_all in *. destruct Hds as (Hp' & Hfr' & _). rewrite Hev, Hfr in Hfr'.
  assert (disk s' = disk s) as Hdisk by congruence.
  exists s'. split_and!; [done..|]. intros (e & He & Heq).
  destruct (seq_max_ordered _ 0 _ Hwf) as (_ & Hge & Hcase). specialize (Hge e He).
  destruct Hwf as (_ & Hb & H0). rewrite Forall_forall in Hb.
  assert (f_seq s' = f_seq s).
  { rewrite Hsq. destruct Hcase as [Hz|(e' & He' & Hz)]; [lia|]. specialize (Hb e' He'). lia. }
  destruct s, s'; simpl in *; congruence.
Qed.
End properties.

(** ** A concrete record format

    Enough of a serializer to run the store: it encodes expiry events whose
    fields fit in a byte. *)

#[export] Instance byte_codec : BincodeOps (Event Z) := {|
  ser e :=
    match ev_type e, ev_data e with
    | TOrderExpired, OrderExpiredEv i => Some [ev_seq e; ev_timestamp e; i]
    | _, _ => None
    end;
  de b := match b with [sq; ts; i] => Some (mkEvent sq TOrderExpired ts (OrderExpiredEv i)) | _ => None end
|}.

#[export] Instance byte_codec_laws : BincodeLaws (Event Z).
Proof.
  split; intros [sq ty ts d] b; simpl; destruct ty, d; try done; by intros [= <-].
Qed.

Definition ok_env : StoreEnv := mkStoreEnv (fun n => 100 + n) None.
Definition torn_env : StoreEnv := mkStoreEnv (fun n => 100 + n) (Some (5%nat, 5%nat)).

(** The flush fails; the records stay in the writer's buffer. *)
Definition full_disk_env : StoreEnv := mkStoreEnv (fun n => 100 + n) (Some (0%nat, 7%nat)).

Definition empty_file : FileInner Z := mkFileInner [] [] [] 0.
Definition expiry (i : Uuid) : Event Z := new_event 0 (OrderExpiredEv i).

Definition one_event : FileInner Z := (append ok_env empty_file [expiry 7]).1.

Lemma one_event_durable : durable one_event.
Proof.
  split_and!; [done|done|]. constructor; [|constructor]. eexists. split; [reflexivity|]. vm_compute. discriminate.
Qed.

Lemma expiry_loadable sq ts i : loadable (mkEvent sq TOrderExpired ts (OrderExpiredEv i) : Event Z).
Proof. eexists. split; [reflexivity|]. vm_compute. discriminate. Qed.

(** The first event is acknowledged, the store is closed and opened again, and
    the append of the second is cut off after five bytes. *)
Lemma one_event_lived : lived one_event (f_events one_event).
Proof.
  apply (lived_append ok_env empty_file [] [expiry 7]); [by apply lived_new|reflexivity|]. repeat constructor. apply expiry_loadable.
Qed.

Lemma crash_during_append_witness :
  exists j s', open (disk (append torn_env one_event [expiry 8]).1) = Ok s' /\
    f_events s' = f_events one_event ++ take j (assign_all (env_clock torn_env) [expiry 8] (f_seq one_event)).1.
Proof.
  destruct (crash_during_append torn_env one_event (f_events one_event) [expiry 8] 5 5
    (append torn_env one_event [expiry 8]).1 (append torn_env one_event [expiry 8]).2) as (j & s' & H1 & _ & _ & H3).
  - apply (lived_reopen one_event); [exact one_event_lived|reflexivity].
  - reflexivity.
  - constructor; [|constructor]. apply expiry_loadable.
  - reflexivity.
  - exists j, s'. split; [exact H1|exact H3].
Defined.

Lemma reopen_identity_witness : exists s', open (disk one_event) = Ok s' /\ f_events s' = f_events one_event.
Proof.
  destruct (reopen_identity one_event) as (s' & H1 & H2 & _).
  - exact one_event_durable.
  - split_and!; [repeat constructor|repeat constructor; vm_compute; discriminate|vm_compute; discriminate..].
  - exists s'. split; [exact H1|exact H2].
Defined.

(** An append that fails can still take effect.  When the flush fails the
    records stay in the buffered writer, and the next append writes them out:
    the live store has the numbers 1 and 3, but after a restart the event
    whose append was reported as failed is back in the log. *)
Theorem failed_append_resurrected :
  let s1 := one_event in
  let '(s2, r2) := append full_disk_env s1 [expiry 8] in
  let '(s3, r3) := append ok_env s2 [expiry 9] in
  r2 = Err EvIo /\ is_ok r3 = true /\ map ev_seq (f_events s3) = [1; 3] /\
  exists s4, open (disk s3) = Ok s4 /\ map ev_seq (f_events s4) = [1; 2; 3].
Proof.
  vm_compute. split_and!; try done. eexists. split; reflexivity.
Qed.

(** A store that goes on after a failed append can lose what it acknowledges.
    The write of the second event stops inside its record, as a write past the
    buffer of the writer can; the third is appended behind the torn record and
    answered [Ok], and is not in the log after a restart. *)
Theorem torn_append_loses_acknowledged :
  let '(s2, r2) := append torn_env one_event [expiry 8] in
  let '(s3, r3) := append ok_env s2 [expiry 9] in
  r2 = Err EvIo /\ r3 = Ok [mkEvent 3 TOrderExpired 103 (OrderExpiredEv 9)] /\
  exists s4, open (disk s3) = Ok s4 /\ mkEvent 3 TOrderExpired 103 (OrderExpiredEv 9) ∉ f_events s4.
Proof.
  vm_compute. split_and!; try done. eexists. split; [reflexivity|]. cbn. intros H. repeat (apply elem_of_cons in H as [H|H]; [discriminate H|]). by apply elem_of_nil in H.
Qed.
