(* ===== verification/FileCompact.v ===== *)
(** * The file-backed event log: a compaction that fails

    [compact_before] of [dp-event/src/file_store.rs] step by step: the flush,
    the rewrite beside the log, the rename over it and the handle that is opened
    again.  After the rename the open handle is that of a file without a name
    until the last step, so the state tells the two files apart. *)

From S2P Require Import Prelude Decimal Types Events FileStore.
Open Scope Z_scope.

(** Where a compaction fails; [k] bytes of the buffered writer reached the
    medium before the flush failed. *)
Inductive CompactFault :=
| FaultFlush (k : nat)
| FaultRewrite
| FaultRename
| FaultReopen.

(** [h_path] is [None] while the path names the file of the handle, and holds
    the content of the path's file otherwise. *)
Record Handle (D : Type) := mkHandle { h_inner : FileInner D; h_path : option bytes }.
Arguments mkHandle {D}.
Arguments h_inner {D}.
Arguments h_path {D}.

Section handle.
Context {D : Type} `{!BincodeOps (Event D)}.
Implicit Types h : Handle D.

(** What a restart opens. *)
Definition on_path h : bytes := default (disk (h_inner h)) (h_path h).

Definition h_append (env : StoreEnv) h (evs : list (Event D)) : Handle D * result (list (Event D)) EventError :=
  let '(s, r) := append env (h_inner h) evs in (mkHandle s (h_path h), r).

Definition h_compact_before (fault : option CompactFault) h (before_seq : Z) : Handle D * result unit EventError :=
  if before_seq =? 0 then (h, Ok tt)
  else
    let s := h_inner h in
    match fault with
    | Some (FaultFlush k) =>
      (mkHandle (mkFileInner (disk s ++ take k (pending s)) (drop k (pending s)) (f_events s) (f_seq s)) (h_path h), Err EvIo)
    | _ =>
      let flushed := mkFileInner (disk s ++ pending s) [] (f_events s) (f_seq s) in
      let kept := List.filter (fun e => before_seq <=? ev_seq e) (f_events s) in
      let '(bs, ok) := frames kept in
      if negb ok then (mkHandle flushed (h_path h), Err EvBincode)
      else
        match fault with
        | None => (mkHandle (mkFileInner bs [] kept (f_seq s)) None, Ok tt)
        | Some FaultReopen => (mkHandle flushed (Some bs), Err EvIo)
        | Some _ => (mkHandle flushed (h_path h), Err EvIo)
        end
    end.

(** The compaction of [FileStore.v], whose only fault is the flush. *)
Lemma h_compact_agrees env h before :
  let '(h', r) := h_compact_before (match env_io env with Some (k, _) => Some (FaultFlush k) | None => None end) h before in
  compact_before env (h_inner h) before = (h_inner h', r).
Proof.
  unfold h_compact_before, compact_before. destruct (before =? 0); [done|]. destruct (env_io env) as [[k b]|]; [done|].
  destruct (frames _) as [bs ok]. by destruct ok.
Qed.
End handle.

Section failed.
Context {D : Type} `{!BincodeOps (Event D), !BincodeLaws (Event D)}.
Implicit Types h : Handle D.

Lemma flushed_durable (s : FileInner D) : durable s -> mkFileInner (disk s ++ pending s) [] (f_events s) (f_seq s) = s.
Proof. intros (Hp & _ & _). destruct s; cbn in *. subst. by rewrite app_nil_r. Qed.

Lemma filter_loadable (s : FileInner D) f : durable s -> exists bs, frames (List.filter f (f_events s)) = (bs, true) /\
  durable (mkFileInner bs [] (List.filter f (f_events s)) (f_seq s)).
Proof.
  intros (_ & _ & Hl). assert (Forall loadable (List.filter f (f_events s))) as Hk.
  { by apply Forall_List_filter. }
  destruct (frames_loadable _ Hk) as [bs Hbs]. exists bs. split; [done|]. by split_and!.
Qed.

Lemma filter_wf (s : FileInner D) bs f : file_wf s -> file_wf (mkFileInner bs [] (List.filter f (f_events s)) (f_seq s)).
Proof.
  intros (Hs & Hb & H0). split_and!; [by apply StronglySorted_List_filter|by apply Forall_List_filter|cbn; lia..].
Qed.

(** A compaction that fails before the path names the new file loses nothing:
    the store is as it was, on the medium too.  One that fails after, when the
    log cannot be opened again, leaves the handle on a file without a name:
    appends go on to succeed, and a restart finds none of their events. *)
Theorem compaction_loses_appends fault h before h' r :
  durable (h_inner h) -> file_wf (h_inner h) -> h_path h = None -> before <> 0 -> h_compact_before fault h before = (h', r) ->
  match fault with
  | None => r = Ok tt /\ h_path h' = None /\ durable (h_inner h') /\
      f_events (h_inner h') = List.filter (fun e => before <=? ev_seq e) (f_events (h_inner h))
  | Some FaultReopen => r = Err EvIo /\ forall env evs h2 evs', h_append env h' evs = (h2, Ok evs') ->
      f_events (h_inner h2) = f_events (h_inner h) ++ evs' /\
      exists s, open (on_path h2) = Ok s /\ f_events s = List.filter (fun e => before <=? ev_seq e) (f_events (h_inner h))
  | Some _ => r = Err EvIo /\ h' = h
  end.
Proof.
  intros Hd Hwf Hpath Hb. unfold h_compact_before. destruct (Z.eqb_spec before 0) as [|_]; [done|].
  destruct (filter_loadable (h_inner h) (fun e => before <=? ev_seq e) Hd) as (bs & Hbs & Hdur). rewrite Hbs, (flushed_durable _ Hd). cbn [negb].
  assert (h = mkHandle (h_inner h) (h_path h)) as Heq by (by destruct h).
  destruct fault as [[k| | |]|]; intros [= <- <-].
  - split; [done|]. rewrite Heq. f_equal. destruct Hd as (Hp & _). cbn. rewrite Hp, take_nil, drop_nil, app_nil_r. destruct (h_inner h); cbn in *. by subst.
  - done.
  - done.
  - split; [done|]. intros env evs h2 evs'. unfold h_append. cbn [h_inner h_path]. destruct (append env (h_inner h) evs) as [s2 r2] eqn:Ha. intros [= <- ->].
    split; [by eapply append_events|]. cbn [on_path h_path default].
    destruct (reopen_identity _ Hdur) as (s & Ho & He & _); [by apply filter_wf|]. by exists s.
  - by split_and!.
Qed.
End failed.

(** The log of one event is compacted below 2, the file cannot be opened again,
    and the next event is acknowledged and lost. *)
Lemma compaction_loses_appends_witness :
  let h := fst (h_compact_before (Some FaultReopen) (mkHandle one_event None) 2) in
  let '(h2, r) := h_append ok_env h [expiry 8] in
  is_ok r = true /\ map ev_seq (f_events (h_inner h2)) = [1; 2] /\ exists s, open (on_path h2) = Ok s /\ f_events s = [].
Proof.
  cbv zeta. destruct (compaction_loses_appends (Some FaultReopen) (mkHandle one_event None) 2
    (fst (h_compact_before (Some FaultReopen) (mkHandle one_event None) 2)) (Err EvIo)) as [_ H].
  - exact one_event_durable.
  - split_and!; [repeat constructor|repeat constructor; vm_compute; discriminate|vm_compute; discriminate..].
  - reflexivity.
  - discriminate.
  - reflexivity.
  - destruct (H ok_env [expiry 8] (fst (h_append ok_env (fst (h_compact_before (Some FaultReopen) (mkHandle one_event None) 2)) [expiry 8]))
      [mkEvent 2 TOrderExpired 102 (OrderExpiredEv 8)]) as [_ (s & Hs & He)]; [by vm_compute|].
    split; [reflexivity|]. split; [reflexivity|]. exists s. split; [exact Hs|exact He].
Defined.
