(* ===== verification/Field.v ===== *)
(** * Field encodings and commitments

    [dp-zk/src/encoding.rs] and [dp-zk/src/pedersen.rs]: how decimals, bytes and
    addresses become scalars of the BN254 field, and the Poseidon commitments
    over them.  The field and the Poseidon permutation come from the arkworks
    crates and are parameters: [FieldOps] with [FieldLaws], and [Poseidon]. *)

From S2P Require Import Prelude Decimal Types.
Open Scope Z_scope.

(** The modulus of the scalar field. *)
Definition FR : Z := 21888242871839275222246405745257275088548364400416034343698204186575808495617.

Class FieldOps (F : Type) := {
  fr_to_Z : F -> Z;
  fr_of_Z : Z -> F;
  fr_add : F -> F -> F;
  fr_sub : F -> F -> F;
  fr_mul : F -> F -> F;
  fr_neg : F -> F
}.

(** [fr_to_Z] is the canonical representative; operations are modulo [FR]. *)
Class FieldLaws (F : Type) `{!FieldOps F} := {
  fr_to_Z_range : forall a, 0 <= fr_to_Z a < FR;
  fr_to_Z_inj : forall a b, fr_to_Z a = fr_to_Z b -> a = b;
  fr_of_Z_spec : forall z, fr_to_Z (fr_of_Z z) = z mod FR;
  fr_add_spec : forall a b, fr_to_Z (fr_add a b) = (fr_to_Z a + fr_to_Z b) mod FR;
  fr_sub_spec : forall a b, fr_to_Z (fr_sub a b) = (fr_to_Z a - fr_to_Z b) mod FR;
  fr_mul_spec : forall a b, fr_to_Z (fr_mul a b) = (fr_to_Z a * fr_to_Z b) mod FR;
  fr_neg_spec : forall a, fr_to_Z (fr_neg a) = (- fr_to_Z a) mod FR
}.

Declare Scope fr_scope.
Delimit Scope fr_scope with fr.
Infix "+" := fr_add : fr_scope.
Infix "-" := fr_sub : fr_scope.
Infix "*" := fr_mul : fr_scope.

(** The sponge: absorb a list of elements, squeeze one. *)
Class Poseidon (F : Type) := { poseidon : list F -> F }.

Inductive EncodingError (D : Type) :=
| Negative (d : D)
| Overflow (d : D)
| Precision (d : D)
| FieldElementTooLong (n : Z)
| InvalidFieldElementLength (actual : Z)
| NonCanonicalFieldElement.
Arguments Negative {D}.
Arguments Overflow {D}.
Arguments Precision {D}.
Arguments FieldElementTooLong {D}.
Arguments InvalidFieldElementLength {D}.
Arguments NonCanonicalFieldElement {D}.

(** ** Bytes *)

(** [n] bytes of [z], least significant first. *)
Fixpoint le_bytes (n : nat) (z : Z) : bytes :=
  match n with
  | O => []
  | S n' => z mod 256 :: le_bytes n' (z / 256)
  end.

Definition be_bytes (n : nat) (z : Z) : bytes := reverse (le_bytes n z).

(** The value of big-endian bytes. *)
Definition be_value (b : bytes) : Z := fold_left (fun acc x => acc * 256 + x) b 0.

Definition is_byte (x : Z) : Prop := 0 <= x < 256.

Section encoding.
Context {D F : Type} `{!DecimalOps D, !FieldOps F, !Poseidon F}.

Definition DECIMAL_SCALE : Z := 8.
Definition SCALE_FACTOR_I128 : Z := 100000000.
Definition MAX_ENCODED : Z := 2 ^ 60.

Definition fr_zero : F := fr_of_Z 0.
Definition fr_one : F := fr_of_Z 1.
Definition fr_eqb (a b : F) : bool := fr_to_Z a =? fr_to_Z b.

(** Convert a non-negative decimal to a scalar. *)
Definition decimal_to_scalar (d : D) : result F (EncodingError D) :=
  if dec_is_sign_negative d then Err (Negative d)
  else
    match dec_mul d (dec_of_Z SCALE_FACTOR_I128) with
    | None => Err (Overflow d)
    | Some scaled =>
      if (0 <? dec_scale scaled) && negb (dec_is_zero (dec_fract scaled)) then Err (Precision d)
      else
        match dec_to_i128 (dec_trunc scaled) with
        | None => Err (Overflow d)
        | Some int =>
          if (0 <=? int) && (int <? MAX_ENCODED) then Ok (fr_of_Z int) else Err (Overflow d)
        end
    end.

Definition fr_to_bytes32 (f : F) : bytes := be_bytes 32 (fr_to_Z f).

(** ** [pedersen.rs] *)

Record OrderCommitmentInput := mkOrderCommitmentInput {
  ci_trader_id : F;
  ci_side : F;
  ci_limit_price : F;
  ci_size : F;
  ci_salt : F
}.

Definition from_decimals (trader_id : F) (sd : Z) (limit_price sz : D) (salt : F) :
    result OrderCommitmentInput (EncodingError D) :=
  match decimal_to_scalar limit_price with
  | Err e => Err e
  | Ok p =>
    match decimal_to_scalar sz with
    | Err e => Err e
    | Ok s => Ok (mkOrderCommitmentInput trader_id (if sd =? 0 then fr_zero else fr_one) p s salt)
    end
  end.

Definition as_field_elements (i : OrderCommitmentInput) : list F :=
  [ci_trader_id i; ci_side i; ci_limit_price i; ci_size i; ci_salt i].

Definition commit_native (i : OrderCommitmentInput) : F := poseidon (as_field_elements i).

Definition hash_two_native (a b : F) : F := poseidon [a; b].

Definition hash_root_native (elements : list F) : F := poseidon elements.

Record SettlementRow := mkSettlementRow {
  row_bid_addr : F;
  row_ask_addr : F;
  row_price : F;
  row_size : F
}.

Definition settlement_chain (acc0 : F) (rows : list SettlementRow) : F :=
  fold_left (fun acc r => poseidon [acc; row_bid_addr r; row_ask_addr r; row_price r; row_size r]) rows acc0.

(** [Fr::from_be_bytes_mod_order] reads the bytes and reduces. *)
Definition bytes_to_scalar (b : bytes) : result F (EncodingError D) :=
  if (32 <? length b)%nat then Err (FieldElementTooLong (Z.of_nat (length b)))
  else
    let scalar := fr_of_Z (be_value b) in
    if (length b =? 32)%nat && negb (bool_decide (fr_to_bytes32 scalar = b)) then Err NonCanonicalFieldElement
    else Ok scalar.

Definition bytes32_to_scalar (b : bytes) : result F (EncodingError D) :=
  if negb (length b =? 32)%nat then Err (InvalidFieldElementLength (Z.of_nat (length b)))
  else bytes_to_scalar b.

Definition derive_trader_id (commitment_key_bytes : bytes) : result F (EncodingError D) :=
  match bytes_to_scalar commitment_key_bytes with
  | Err e => Err e
  | Ok scalar => Ok (poseidon [scalar])
  end.

Definition derive_trader_id_bytes (commitment_key_bytes : bytes) : result bytes (EncodingError D) :=
  match derive_trader_id commitment_key_bytes with
  | Err e => Err e
  | Ok f => Ok (be_bytes 32 (fr_to_Z f))
  end.

Definition notional_scalar (p s : D) : result F (EncodingError D) :=
  match decimal_to_scalar p with
  | Err e => Err e
  | Ok p' => match decimal_to_scalar s with Err e => Err e | Ok s' => Ok (fr_mul p' s') end
  end.

(** ** The nullifier of [commitment_circuit.rs] *)

Definition NULLIFIER_DOMAIN_BYTES : bytes := str "DP/order-nullifier/v1".

(** The source unwraps the conversion of the constant tag, which is 21 bytes. *)
Definition nullifier_domain : F := fr_of_Z (be_value NULLIFIER_DOMAIN_BYTES).

Definition compute_nullifier_native (commitment salt : F) : F :=
  poseidon [nullifier_domain; commitment; salt].

Record OrderProofPublics := mkOrderProofPublics { pub_commitment : F; pub_nullifier : F }.

Definition derive_publics (commitment salt : F) : OrderProofPublics :=
  mkOrderProofPublics commitment (compute_nullifier_native commitment salt).

Definition as_inputs (p : OrderProofPublics) : list F := [pub_commitment p; pub_nullifier p].
End encoding.
Arguments OrderCommitmentInput : clear implicits.
Arguments SettlementRow : clear implicits.
Arguments OrderProofPublics : clear implicits.

(** ** Bytes and values *)

Lemma length_le_bytes n z : length (le_bytes n z) = n.
Proof. revert z; induction n; intros z; simpl; auto. Qed.

Lemma le_bytes_byte n z : Forall is_byte (le_bytes n z).
Proof.
  revert z; induction n; intros z; simpl; constructor; [|auto]. unfold is_byte.
  pose proof (Z.mod_pos_bound z 256 ltac:(lia)). lia.
Qed.

Lemma be_value_reverse_cons x l : be_value (reverse (x :: l)) = be_value (reverse l) * 256 + x.
Proof. unfold be_value. rewrite reverse_cons, fold_left_app. done. Qed.

Lemma be_value_le_bytes n z : be_value (reverse (le_bytes n z)) = z mod 256 ^ Z.of_nat n.
Proof.
  revert z; induction n as [|n IH]; intros z.
  { simpl. by rewrite Z.mod_1_r. }
  cbn [le_bytes]. rewrite be_value_reverse_cons, IH.
  rewrite Nat2Z.inj_succ, Z.pow_succ_r by lia.
  rewrite Z.rem_mul_r by lia. lia.
Qed.

Lemma le_bytes_be_value l :
  Forall is_byte l -> le_bytes (length l) (be_value (reverse l)) = l /\
  0 <= be_value (reverse l) < 256 ^ Z.of_nat (length l).
Proof.
  induction 1 as [|x l Hx Hl [IH1 IH2]]; [done|]. unfold is_byte in Hx.
  rewrite be_value_reverse_cons. cbn [length le_bytes]. split.
  - f_equal.
    + rewrite Z.add_comm, Z_mod_plus_full, Z.mod_small; lia.
    + rewrite Z.add_comm, Z.div_add, (Z.div_small x) by lia. done.
  - rewrite Nat2Z.inj_succ, Z.pow_succ_r by lia. lia.
Qed.

Lemma length_be_bytes n z : length (be_bytes n z) = n.
Proof. unfold be_bytes. by rewrite length_reverse, length_le_bytes. Qed.

Lemma be_value_be_bytes n z : 0 <= z < 256 ^ Z.of_nat n -> be_value (be_bytes n z) = z.
Proof. intros Hz. unfold be_bytes. rewrite be_value_le_bytes. by apply Z.mod_small. Qed.

Lemma be_bytes_be_value b :
  Forall is_byte b -> be_bytes (length b) (be_value b) = b.
Proof.
  intros Hb. destruct (le_bytes_be_value (reverse b)) as [H1 _]; [by apply Forall_reverse|].
  rewrite length_reverse, reverse_involutive in H1. unfold be_bytes. by rewrite H1, reverse_involutive.
Qed.

Section field_facts.
Context {D F : Type} `{!DecimalOps D, !DecimalLaws D, !FieldOps F, !FieldLaws F, !Poseidon F}.

Lemma fr_to_Z_bytes (f : F) : 0 <= fr_to_Z f < 256 ^ Z.of_nat 32.
Proof. pose proof (fr_to_Z_range f) as [H1 H2]. split; [done|]. eapply Z.lt_trans; [exact H2|]. reflexivity. Qed.

Lemma fr_of_to_Z (f : F) : fr_of_Z (fr_to_Z f) = f.
Proof. apply fr_to_Z_inj. rewrite fr_of_Z_spec. apply Z.mod_small, fr_to_Z_range. Qed.

Lemma fr_to_bytes32_inj (a b : F) : fr_to_bytes32 a = fr_to_bytes32 b -> a = b.
Proof.
  intros Hab. apply (f_equal be_value) in Hab. unfold fr_to_bytes32 in Hab.
  rewrite !(be_value_be_bytes 32) in Hab by apply fr_to_Z_bytes. by apply fr_to_Z_inj.
Qed.

Lemma fr_eqb_spec (a b : F) : fr_eqb a b = true <-> a = b.
Proof. unfold fr_eqb. rewrite Z.eqb_eq. split; [apply fr_to_Z_inj|by intros ->]. Qed.

#[export] Instance fr_eq_dec : EqDecision F.
Proof. intros a b. destruct (fr_eqb a b) eqn:E; [left; by apply fr_eqb_spec|right; intros H%fr_eqb_spec; congruence]. Defined.

Lemma bytes32_to_scalar_encode (f : F) : bytes32_to_scalar (D:=D) (fr_to_bytes32 f) = Ok f.
Proof.
  unfold bytes32_to_scalar, bytes_to_scalar.
  assert (length (fr_to_bytes32 f) = 32%nat) as -> by apply (length_be_bytes 32).
  assert (be_value (fr_to_bytes32 f) = fr_to_Z f) as -> by apply (be_value_be_bytes 32), fr_to_Z_bytes.
  cbn [Nat.eqb Nat.ltb Nat.leb negb andb].
  rewrite fr_of_to_Z, bool_decide_eq_true_2 by done. done.
Qed.

Lemma bytes32_to_scalar_Ok b (f : F) : bytes32_to_scalar (D:=D) b = Ok f -> fr_to_bytes32 f = b.
Proof.
  unfold bytes32_to_scalar, bytes_to_scalar. destruct (Nat.eqb_spec (length b) 32) as [->|]; [|done].
  cbn [Nat.eqb Nat.ltb Nat.leb negb andb]. case_bool_decide; [|done]. intros [= <-]. done.
Qed.

(** The product by the scale factor is exact whenever it exists. *)
Lemma scale_units (d : D) :
  match dec_mul d (dec_of_Z SCALE_FACTOR_I128) with
  | Some c => units c = units d * 10 ^ 8
  | None => 2 ^ 96 * ULP <= Z.abs (units d)
  end.
Proof.
  destruct (units_representable d) as (k & s & Hs & Hk & Hd).
  assert (units (dec_of_Z SCALE_FACTOR_I128) = 10 ^ 36) as Hf by (rewrite units_of_Z; reflexivity).
  pose proof (Z.pow_pos_nonneg 10 (28 - s) ltac:(lia) ltac:(lia)).
  destruct (Z.le_gt_cases 8 s) as [H8|H8].
  - destruct (dec_mul_exact d (dec_of_Z SCALE_FACTOR_I128) (units d * 10 ^ 8)) as (c & -> & Hc); [|by rewrite Hf; lia|done].
    exists k, (s - 8). split; [lia|]. split; [done|]. rewrite Hd, <- Z.mul_assoc, <- Z.pow_add_r by lia. do 2 f_equal. lia.
  - assert (units d = k * 10 ^ (8 - s) * ULP) as Hu.
    { rewrite Hd, <- Z.mul_assoc. unfold ULP. rewrite <- Z.pow_add_r by lia. do 2 f_equal. lia. }
    set (n := k * 10 ^ (8 - s)) in *. destruct (Z.lt_ge_cases (Z.abs n) (2 ^ 96)) as [Hn|Hn].
    + destruct (dec_mul_exact d (dec_of_Z SCALE_FACTOR_I128) (units d * 10 ^ 8)) as (c & -> & Hc); [|by rewrite Hf; lia|done].
      exists n, 0. split; [lia|]. split; [done|]. rewrite Hu, <- Z.mul_assoc. reflexivity.
    + rewrite dec_mul_overflow.
      * rewrite Hu, Z.abs_mul, (Z.abs_eq ULP) by done. pose proof ULP_pos. nia.
      * rewrite Hf, Hu, !Z.abs_mul, (Z.abs_eq ULP), (Z.abs_eq (10 ^ 36)), <- Z.mul_assoc by done.
        change (ULP * 10 ^ 36) with (10 ^ 56). assert (0 < 10 ^ 56) by done. nia.
Qed.

(** What survives the fractional test. *)
Lemma scale_dp8 (c d : D) :
  units c = units d * 10 ^ 8 ->
  (0 <? dec_scale c) && negb (dec_is_zero (dec_fract c)) = false <-> dp8 d.
Proof.
  intros Hc. assert (Z.rem (units c) (10 ^ 28) = 0 <-> dp8 d) as Hrem.
  { rewrite Z.rem_divide by done. unfold dp8. rewrite Hc.
    change (10 ^ 28) with (ULP * 10 ^ 8). apply Z.mul_divide_cancel_r. done. }
  rewrite <- Hrem. pose proof (dec_scale_range c). unfold dec_is_zero.
  destruct (Z.ltb_spec 0 (dec_scale c)); cbn [andb].
  - destruct (dec_eqb _ _) eqn:E; cbn [negb]; [apply dec_eqb_spec in E|apply dec_eqb_neq in E];
      rewrite dec_fract_units, units_zero in E; naive_solver.
  - split; [|done]. intros _. apply dec_scale_zero. lia.
Qed.

(** The three outcomes of the encoder on a value that is not negative zero. *)
Lemma decimal_to_scalar_cases (d : D) :
  match decimal_to_scalar (F:=F) d with
  | Ok f => dp8 d /\ 0 <= units d < MAX_UNITS /\ units d = fr_to_Z f * ULP
  | Err (Negative d') => d' = d /\ units d <= 0
  | Err (Overflow d') => d' = d /\ MAX_UNITS <= units d
  | Err (Precision d') => d' = d /\ ~ dp8 d
  | Err _ => False
  end.
Proof.
  unfold decimal_to_scalar. destruct (dec_is_sign_negative d) eqn:Hneg.
  { split; [done|]. destruct (Z.le_gt_cases (units d) 0) as [|Hp]; [done|]. apply dec_sign_positive in Hp. congruence. }
  assert (0 <= units d) as H0.
  { destruct (Z.le_gt_cases 0 (units d)) as [|Hp]; [done|]. apply dec_sign_negative in Hp. congruence. }
  pose proof (scale_units d) as Hsc. destruct (dec_mul _ _) as [c|].
  2: { split; [done|]. rewrite Z.abs_eq in Hsc by done. unfold MAX_UNITS. pose proof ULP_pos. nia. }
  pose proof (scale_dp8 c d Hsc) as Hdp. destruct (_ && _) eqn:E.
  { split; [done|]. intros Hd%Hdp. congruence. }
  assert (dp8 d) as Hd by by apply Hdp.
  rewrite dec_to_i128_units, dec_trunc_units, Hsc. pose proof Hd as [k Hk].
  assert (Z.quot (Z.quot (units d * 10 ^ 8) (10 ^ 28) * 10 ^ 28) (10 ^ 28) = k) as ->.
  { rewrite Z.quot_mul by done. rewrite Hk, <- Z.mul_assoc. change (ULP * 10 ^ 8) with (10 ^ 28). by rewrite Z.quot_mul. }
  pose proof ULP_pos. unfold MAX_UNITS, MAX_ENCODED.
  destruct (Z.leb_spec 0 k), (Z.ltb_spec k (2 ^ 60)); cbn [andb]; [|split; [done|nia]..].
  split_and!; [done|nia..|]. rewrite fr_of_Z_spec, Z.mod_small; [done|].
  split; [done|]. eapply Z.lt_trans; [done|]. reflexivity.
Qed.

Lemma decimal_to_scalar_total (d : D) :
  dp8 d -> 0 < units d < MAX_UNITS -> exists f : F, decimal_to_scalar d = Ok f.
Proof.
  intros Hd Hb. pose proof (decimal_to_scalar_cases d) as Hc.
  destruct (decimal_to_scalar d) as [f|[]]; [by eauto|..]; exfalso; naive_solver lia.
Qed.

Lemma decimal_to_scalar_Ok (d : D) (f : F) :
  decimal_to_scalar d = Ok f -> dp8 d /\ 0 <= units d < MAX_UNITS /\ units d = fr_to_Z f * ULP.
Proof. intros Hd. pose proof (decimal_to_scalar_cases d) as Hc. by rewrite Hd in Hc. Qed.

(** [decimal_to_scalar] accepts exactly the values without a negative sign,
    of at most eight decimal places and below [2^60] after scaling.  The scalar
    is the value in units of [10^-8], so the encoding loses nothing; each error
    names its reason. *)
Theorem decimal_to_scalar_exact (d : D) :
  match decimal_to_scalar (F:=F) d with
  | Ok f => units d = fr_to_Z f * ULP /\ fr_to_Z f < MAX_ENCODED
  | Err (Negative d') => d' = d /\ units d <= 0
  | Err (Overflow d') => d' = d /\ MAX_UNITS <= units d
  | Err (Precision d') => d' = d /\ ~ dp8 d
  | Err _ => False
  end /\
  ((exists f, decimal_to_scalar (F:=F) d = Ok f) <->
   dec_is_sign_negative d = false /\ dp8 d /\ units d < MAX_UNITS).
Proof.
  pose proof (decimal_to_scalar_cases d) as Hc. split.
  - destruct (decimal_to_scalar d) as [f|[]]; try done. destruct Hc as (_ & Hb & Hf).
    split; [done|]. unfold MAX_UNITS, MAX_ENCODED in *. pose proof ULP_pos. nia.
  - split.
    + intros [f Hf]. pose proof Hf as Hf'. rewrite Hf in Hc. split_and!; [|naive_solver..].
      unfold decimal_to_scalar in Hf'. by destruct (dec_is_sign_negative d).
    + intros (Hn & Hd & Hb). destruct (decimal_to_scalar d) as [f|[]] eqn:E; [by eauto|..]; exfalso; try naive_solver lia.
      unfold decimal_to_scalar in E. rewrite Hn in E. repeat case_match; naive_solver.
Qed.

(** On thirty-two bytes [bytes32_to_scalar] accepts exactly the numbers below
    the modulus and is the inverse of [fr_to_bytes32]; hence two encodings never
    alias to one field element. *)
Theorem bytes32_roundtrip :
  (forall f : F, bytes32_to_scalar (D:=D) (fr_to_bytes32 f) = Ok f) /\
  (forall b (f : F), bytes32_to_scalar (D:=D) b = Ok f -> fr_to_bytes32 f = b) /\
  (forall b, length b = 32%nat -> Forall is_byte b ->
    bytes32_to_scalar (D:=D) (F:=F) b =
      if be_value b <? FR then Ok (fr_of_Z (be_value b)) else Err NonCanonicalFieldElement).
Proof.
  split_and!; [apply bytes32_to_scalar_encode|apply bytes32_to_scalar_Ok|].
  intros b Hl Hb. unfold bytes32_to_scalar, bytes_to_scalar. rewrite Hl. cbn [Nat.eqb Nat.ltb Nat.leb negb andb].
  pose proof (be_bytes_be_value b Hb) as Hbe. rewrite Hl in Hbe.
  assert (0 <= be_value b) as H0.
  { destruct (le_bytes_be_value (reverse b)) as [_ H1]; [by apply Forall_reverse|]. rewrite reverse_involutive in H1. lia. }
  case_bool_decide as Hd; cbn [negb]; destruct (Z.ltb_spec (be_value b) FR) as [Hlt|Hge]; try done; exfalso.
  - rewrite <- Hd in Hge at 1. unfold fr_to_bytes32 in Hge. rewrite (be_value_be_bytes 32) in Hge by apply fr_to_Z_bytes.
    pose proof (fr_to_Z_range (fr_of_Z (be_value b))). lia.
  - apply Hd. unfold fr_to_bytes32. by rewrite fr_of_Z_spec, Z.mod_small by lia.
Qed.

(** [notional_scalar] never wraps in the field: the scalar it returns is the
    exact product of price and size, in units of [10^-16]. *)
Theorem notional_exact (p s : D) (f : F) :
  notional_scalar p s = Ok f -> units p * units s = fr_to_Z f * (ULP * ULP).
Proof.
  unfold notional_scalar. destruct (decimal_to_scalar p) as [a|] eqn:Ha; [|done].
  destruct (decimal_to_scalar s) as [b|] eqn:Hb; [|done]. intros [= <-].
  apply decimal_to_scalar_Ok in Ha as (_ & Ba & Ha), Hb as (_ & Bb & Hb).
  rewrite fr_mul_spec, Z.mod_small, Ha, Hb by
    (rewrite Ha in Ba; rewrite Hb in Bb; unfold MAX_UNITS in *; pose proof ULP_pos;
     split; [nia|]; apply Z.lt_trans with (2 ^ 120); [nia|reflexivity]). lia.
Qed.
End field_facts.

(** ** A concrete field

    Residues modulo [FR], and a polynomial hash in the place of Poseidon. *)

(** The range test is sealed, so that evaluation leaves the type alone. *)
Lemma in_range_sig : { f : Z -> bool | forall z, f z = (0 <=? z) && (z <? FR) }.
Proof. by eexists. Qed.

Definition in_range (z : Z) : bool := proj1_sig in_range_sig z.

Lemma in_range_spec z : in_range z = (0 <=? z) && (z <? FR).
Proof. apply (proj2_sig in_range_sig). Qed.

Definition Fr : Type := { z : Z | in_range z = true }.

Lemma in_range_mod z : in_range (z mod FR) = true.
Proof. rewrite in_range_spec. pose proof (Z.mod_pos_bound z FR ltac:(done)). lia. Qed.

Definition mk_fr (z : Z) : Fr := exist _ (z mod FR) (in_range_mod z).

#[local] Instance fr_ops : FieldOps Fr := {|
  fr_to_Z := fun a => proj1_sig a;
  fr_of_Z := mk_fr;
  fr_add := fun a b => mk_fr (proj1_sig a + proj1_sig b);
  fr_sub := fun a b => mk_fr (proj1_sig a - proj1_sig b);
  fr_mul := fun a b => mk_fr (proj1_sig a * proj1_sig b);
  fr_neg := fun a => mk_fr (- proj1_sig a)
|}.

#[local] Instance fr_laws : FieldLaws Fr.
Proof.
  split; simpl; try done.
  - intros [z Hz]; simpl. rewrite in_range_spec in Hz. lia.
  - intros [a Ha] [b Hb]; simpl. intros ->. f_equal. apply Eqdep_dec.UIP_dec, bool_dec.
Qed.

Definition sample_poseidon : Poseidon Fr :=
  {| poseidon l := mk_fr (fold_left (fun acc x => acc * 1000003 + proj1_sig x + 1) l 7) |}.

Lemma notional_exact_witness :
  units (3 * 10 ^ 28) * units (5 * 10 ^ 27) = fr_to_Z (mk_fr 15000000000000000) * (ULP * ULP).
Proof.
  refine (notional_exact (D:=Z) (F:=Fr) (3 * 10 ^ 28) (5 * 10 ^ 27) (mk_fr 15000000000000000) _).
  vm_compute. reflexivity.
Defined.

Lemma decimal_to_scalar_exact_witness :
  (exists f, decimal_to_scalar (F:=Fr) (5 * 10 ^ 27) = Ok f) <->
  dec_is_sign_negative (5 * 10 ^ 27) = false /\ dp8 (5 * 10 ^ 27) /\ units (5 * 10 ^ 27) < MAX_UNITS.
Proof. exact (proj2 (decimal_to_scalar_exact (D:=Z) (F:=Fr) (5 * 10 ^ 27))). Defined.

Lemma bytes32_roundtrip_witness :
  bytes32_to_scalar (D:=Z) (fr_to_bytes32 (mk_fr 77)) = Ok (mk_fr 77).
Proof. exact (proj1 (bytes32_roundtrip (D:=Z) (F:=Fr)) (mk_fr 77)). Defined.
