(* ===== verification/Merkle.v ===== *)
(** * The admitted-set Merkle tree

    [dp-zk/src/merkle.rs]: the canonical tree over the commitments admitted to an
    auction round, membership proofs, and the chain of roots.  Poseidon is a
    parameter without laws, so security is stated by extraction: two different
    sets with one root contain two different nodes with one hash. *)

From S2P Require Import Prelude Decimal Types Field.
Open Scope Z_scope.

(** The variants of [ZkError]; of their payloads only the messages are kept. *)
Inductive ZkError :=
| ZkEncoding
| ZkSetup (msg : Str)
| ZkProve (msg : Str)
| ZkVerify
| ZkSerialize (msg : Str)
| ZkIo
| ZkWitness (msg : Str)
| ZkIvc (msg : Str).

Definition MERKLE_DEPTH : nat := 8.
Definition MERKLE_LEAVES : nat := 256.

Section merkle.
Context {F : Type} `{!FieldOps F, !Poseidon F}.

Definition empty_leaf : F := fr_zero.

Record MerkleProof := mkMerkleProof { siblings : list F; index_bits : list bool }.

Definition default_proof : MerkleProof :=
  mkMerkleProof (replicate MERKLE_DEPTH fr_zero) (replicate MERKLE_DEPTH false).

Definition key_cmp (a b : F) : comparison := Z.compare (fr_to_Z a) (fr_to_Z b).

Definition canonical_leaves (commitments : list F) : result (list F) ZkError :=
  if (MERKLE_LEAVES <? length commitments)%nat then Err (ZkWitness (str "admitted set exceeds Merkle capacity"))
  else if existsb (fun c => fr_eqb c empty_leaf) commitments then
    Err (ZkWitness (str "admitted-set commitment collides with the empty (padding) leaf"))
  else
    let leaves := sort_by key_cmp commitments in
    Ok (leaves ++ replicate (MERKLE_LEAVES - length leaves) empty_leaf).

(** The node hashes over [chunks(2)]; indexing a chunk of one panics. *)
Fixpoint hash_chunks (prev : list F) : outcome (list F) :=
  match prev with
  | [] => Ret []
  | [_] => Panic
  | a :: b :: prev' => next ← hash_chunks prev'; Ret (hash_two_native a b :: next)
  end.

(** [n] iterations of the loop, from the level [prev] on. *)
Fixpoint build_levels_loop (n : nat) (prev : list F) : outcome (list (list F)) :=
  match n with
  | O => Ret [prev]
  | S n' => next ← hash_chunks prev; rest ← build_levels_loop n' next; Ret (prev :: rest)
  end.

Definition build_levels (padded_leaves : list F) : outcome (list (list F)) :=
  build_levels_loop MERKLE_DEPTH padded_leaves.

(** [levels[MERKLE_DEPTH][0]]. *)
Definition top (levels : list (list F)) : outcome F :=
  or_panic (levels !! MERKLE_DEPTH ≫= fun l => l !! 0%nat).

Definition admitted_set_root (commitments : list F) : outcome (result F ZkError) :=
  match canonical_leaves commitments with
  | Err e => Ret (Err e)
  | Ok leaves => levels ← build_levels leaves; root ← top levels; Ret (Ok root)
  end.

(** [iter().position]. *)
Fixpoint position (leaf : F) (l : list F) : option nat :=
  match l with
  | [] => None
  | x :: l' => if fr_eqb x leaf then Some 0%nat else option_map S (position leaf l')
  end.

(** One round of the path loop per level, bottom-up. *)
Fixpoint path_loop (n : nat) (levels : list (list F)) (node : nat) : outcome (list F * list bool) :=
  match n with
  | O => Ret ([], [])
  | S n' =>
    match levels with
    | [] => Panic
    | level :: levels' =>
      let is_right := Nat.odd node in
      let sib := if is_right then (node - 1)%nat else (node + 1)%nat in
      s ← or_panic (level !! sib);
      rest ← path_loop n' levels' (Nat.div2 node);
      Ret (s :: fst rest, is_right :: snd rest)
    end
  end.

Definition admitted_set_proof (commitments : list F) (leaf : F) :
    outcome (result (option (F * MerkleProof)) ZkError) :=
  match canonical_leaves commitments with
  | Err e => Ret (Err e)
  | Ok leaves =>
    match position leaf leaves with
    | None => Ret (Ok None)
    | Some idx =>
      levels ← build_levels leaves;
      root ← top levels;
      path ← path_loop MERKLE_DEPTH levels idx;
      Ret (Ok (Some (root, mkMerkleProof (fst path) (snd path))))
    end
  end.

Fixpoint climb (cur : F) (sibs : list F) (bits : list bool) : F :=
  match sibs, bits with
  | s :: sibs', b :: bits' =>
    climb (if b : bool then hash_two_native s cur else hash_two_native cur s) sibs' bits'
  | _, _ => cur
  end.

(** The arrays of a proof have [MERKLE_DEPTH] entries. *)
Definition root_from_proof (leaf : F) (p : MerkleProof) : F :=
  climb leaf (siblings p) (index_bits p).

Definition admitted_chain_step (prev root : F) : F := hash_two_native prev root.

(** ** Nodes that are hashed together *)

Fixpoint pairs_of (l : list F) : list (F * F) :=
  match l with
  | a :: b :: l' => (a, b) :: pairs_of l'
  | _ => []
  end.

(** The pairs hashed by a tree of depth [n] over the leaves [l]. *)
Fixpoint tree_pairs (n : nat) (l : list F) : list (F * F) :=
  match n with
  | O => []
  | S n' => pairs_of l ++ tree_pairs n' (map (fun p => hash_two_native p.1 p.2) (pairs_of l))
  end.

(** The pairs hashed along a membership path. *)
Fixpoint path_pairs (cur : F) (sibs : list F) (bits : list bool) : list (F * F) :=
  match sibs, bits with
  | s :: sibs', b :: bits' =>
    let p := if b : bool then (s, cur) else (cur, s) in
    p :: path_pairs (hash_two_native p.1 p.2) sibs' bits'
  | _, _ => []
  end.

(** Two different pairs, one from each list, with the same hash. *)
Definition collide (ps qs : list (F * F)) : Prop :=
  exists p q, p ∈ ps /\ q ∈ qs /\ p <> q /\
    hash_two_native p.1 p.2 = hash_two_native q.1 q.2.

(** The pairs hashed in the tree over a set of commitments. *)
Definition set_pairs (commitments : list F) : list (F * F) :=
  match canonical_leaves commitments with
  | Ok leaves => tree_pairs MERKLE_DEPTH leaves
  | Err _ => []
  end.
End merkle.
Arguments MerkleProof : clear implicits.

Section merkle_facts.
Context {F : Type} `{!FieldOps F, !FieldLaws F, !Poseidon F}.
Implicit Types (l cs : list F) (f : F).

Definition hash_pair (p : F * F) : F := hash_two_native p.1 p.2.

Lemma list_pair_ind (P : list F -> Prop) :
  P [] -> (forall a, P [a]) -> (forall a b l, P l -> P (a :: b :: l)) -> forall l, P l.
Proof. intros H0 H1 H2. fix IH 1. intros [|a [|b l]]; [exact H0|apply H1|apply H2, IH]. Qed.

Lemma even_split l n : length l = (2 * S n)%nat -> exists a b l', l = a :: b :: l' /\ length l' = (2 * n)%nat.
Proof. destruct l as [|a [|b l]]; simpl; intros; [lia..|]. exists a, b, l. split; [done|lia]. Qed.

Lemma hash_chunks_pairs n l :
  length l = (2 * n)%nat ->
  hash_chunks l = Ret (map hash_pair (pairs_of l)) /\ length (pairs_of l) = n.
Proof.
  revert l; induction n as [|n IH]; intros l Hl; [by destruct l|].
  apply even_split in Hl as (a & b & l' & -> & Hl). destruct (IH _ Hl) as [IH1 IH2].
  cbn [hash_chunks pairs_of map length]. by rewrite IH1, IH2.
Qed.

(** The levels above [l]. *)
Fixpoint levels_of (n : nat) l : list (list F) :=
  match n with O => [l] | S n' => l :: levels_of n' (map hash_pair (pairs_of l)) end.

(** The root of the tree of depth [n] over [l]. *)
Fixpoint root_of (n : nat) l : F :=
  match n with O => default fr_zero (l !! 0%nat) | S n' => root_of n' (map hash_pair (pairs_of l)) end.

Lemma build_levels_ret n l :
  length l = (2 ^ n)%nat -> build_levels_loop n l = Ret (levels_of n l) /\
  levels_of n l !! n ≫= (fun l => l !! 0%nat) = Some (root_of n l).
Proof.
  revert l; induction n as [|n IH]; intros l Hl.
  { destruct l as [|a [|]]; simpl in *; [lia|done|lia]. }
  destruct (hash_chunks_pairs (2 ^ n) l) as [H1 H2]; [simpl in Hl; lia|].
  destruct (IH (map hash_pair (pairs_of l))) as [IH1 IH2]; [by rewrite length_map|].
  cbn [build_levels_loop levels_of root_of]. rewrite H1. cbn [mbind outcome_bind]. rewrite IH1. split; [done|].
  by rewrite lookup_cons_ne_0.
Qed.

Lemma key_cmp_total (a b : F) : key_cmp a b = Gt -> key_cmp b a = Lt.
Proof. unfold key_cmp. rewrite Z.compare_gt_iff, Z.compare_lt_iff. done. Qed.

Lemma key_cmp_trans (a b c : F) : cmp_le key_cmp a b -> cmp_le key_cmp b c -> cmp_le key_cmp a c.
Proof. unfold cmp_le, key_cmp. rewrite !Z.compare_le_iff. lia. Qed.

Lemma key_cmp_anti (a b : F) : cmp_le key_cmp a b -> cmp_le key_cmp b a -> a = b.
Proof. unfold cmp_le, key_cmp. rewrite !Z.compare_le_iff. intros. apply fr_to_Z_inj. lia. Qed.

Definition admissible (cs : list F) : Prop := (length cs <= MERKLE_LEAVES)%nat /\ empty_leaf ∉ cs.

Lemma canonical_leaves_Ok cs leaves :
  canonical_leaves cs = Ok leaves <-> admissible cs /\
    leaves = sort_by key_cmp cs ++ replicate (MERKLE_LEAVES - length cs) empty_leaf.
Proof.
  unfold canonical_leaves, admissible. rewrite (Permutation_length (sort_by_perm key_cmp cs)).
  destruct (Nat.ltb_spec MERKLE_LEAVES (length cs)); [split; [done|]; intros [[? _] _]; lia|].
  destruct (existsb _ cs) eqn:E.
  - split; [done|]. intros [[_ Hn] _]. destruct Hn. apply existsb_exists in E as (c & Hc & He).
    apply fr_eqb_spec in He as ->. by apply list_elem_of_In.
  - split; [|naive_solver]. intros [= <-]. split_and!; [lia| |done]. intros Hin.
    assert (existsb (fun c => fr_eqb c empty_leaf) cs = true); [|congruence].
    apply existsb_exists. exists empty_leaf. split; [by apply list_elem_of_In|]. by apply fr_eqb_spec.
Qed.

Lemma canonical_leaves_length cs leaves : canonical_leaves cs = Ok leaves -> length leaves = (2 ^ MERKLE_DEPTH)%nat.
Proof.
  intros [[Hl _] ->]%canonical_leaves_Ok. rewrite length_app, length_replicate, (Permutation_length (sort_by_perm key_cmp cs)).
  change (2 ^ MERKLE_DEPTH)%nat with MERKLE_LEAVES. lia.
Qed.

Lemma admitted_set_root_eq cs leaves :
  canonical_leaves cs = Ok leaves -> admitted_set_root cs = Ret (Ok (root_of MERKLE_DEPTH leaves)).
Proof.
  intros Hc. unfold admitted_set_root. rewrite Hc.
  destruct (build_levels_ret MERKLE_DEPTH leaves) as [H1 H2]; [by eapply canonical_leaves_length|].
  unfold build_levels. rewrite H1. cbn [mbind outcome_bind]. unfold top. by rewrite H2.
Qed.

Lemma admitted_set_root_Ok cs root :
  admitted_set_root cs = Ret (Ok root) ->
  exists leaves, canonical_leaves cs = Ok leaves /\ root = root_of MERKLE_DEPTH leaves.
Proof.
  intros Hr. destruct (canonical_leaves cs) as [leaves|] eqn:Hc.
  - exists leaves. rewrite (admitted_set_root_eq cs leaves Hc) in Hr. split; [done|]. congruence.
  - unfold admitted_set_root in Hr. by rewrite Hc in Hr.
Qed.

Lemma pairs_of_elem l p : p ∈ pairs_of l -> p.1 ∈ l /\ p.2 ∈ l.
Proof.
  induction l as [|a|a b l IH] using list_pair_ind; cbn [pairs_of]; [by intros ?%elem_of_nil..|].
  intros [->|Hp]%elem_of_cons; [set_solver|]. destruct (IH Hp). set_solver.
Qed.

Lemma pairs_of_inj l1 l2 n :
  length l1 = (2 * n)%nat -> length l2 = (2 * n)%nat -> pairs_of l1 = pairs_of l2 -> l1 = l2.
Proof.
  revert l1 l2; induction n as [|n IH]; intros l1 l2 H1 H2; [by destruct l1, l2|].
  apply even_split in H1 as (a & b & l1' & -> & H1), H2 as (c & d & l2' & -> & H2).
  cbn [pairs_of]. intros [= -> -> Hp]. f_equal. f_equal. auto.
Qed.

Lemma map_hash_inj (ps qs : list (F * F)) :
  map hash_pair ps = map hash_pair qs -> ps = qs \/ collide ps qs.
Proof.
  revert qs; induction ps as [|p ps IH]; intros [|q qs]; cbn [map]; try done; [by left|].
  intros Heq. pose proof (f_equal head Heq) as Hh. apply (f_equal tail) in Heq. cbn [head tail] in *.
  apply (inj Some) in Hh. destruct (decide (p = q)) as [->|Hpq].
  - destruct (IH _ Heq) as [->|(p' & q' & ? & ? & ?)]; [by left|]. right. exists p', q'. set_solver.
  - right. exists p, q. split_and!; [left..|done|done].
Qed.

Lemma collide_mono (ps ps' qs qs' : list (F * F)) :
  ps ⊆ ps' -> qs ⊆ qs' -> collide ps qs -> collide ps' qs'.
Proof. intros H1 H2 (p & q & ? & ? & ?). exists p, q. set_solver. Qed.

(** One root for two lists of leaves: the lists are equal or their trees collide. *)
Lemma root_of_inj n l1 l2 :
  length l1 = (2 ^ n)%nat -> length l2 = (2 ^ n)%nat -> root_of n l1 = root_of n l2 ->
  l1 = l2 \/ collide (tree_pairs n l1) (tree_pairs n l2).
Proof.
  revert l1 l2; induction n as [|n IH]; intros l1 l2 H1 H2.
  { destruct l1 as [|a [|]], l2 as [|b [|]]; simpl in *; try lia. intros ->. by left. }
  assert (length l1 = (2 * 2 ^ n)%nat) as H1' by (simpl in H1; lia).
  assert (length l2 = (2 * 2 ^ n)%nat) as H2' by (simpl in H2; lia).
  cbn [root_of tree_pairs]. intros Hr.
  destruct (IH (map hash_pair (pairs_of l1)) (map hash_pair (pairs_of l2))) as [Heq|Hc].
  - rewrite length_map. by apply hash_chunks_pairs.
  - rewrite length_map. by apply hash_chunks_pairs.
  - done.
  - apply map_hash_inj in Heq as [Heq|Hc]; [left; by eapply pairs_of_inj|].
    right. eapply collide_mono; [..|exact Hc]; set_solver.
  - right. eapply collide_mono; [..|exact Hc]; set_solver.
Qed.

(** A path to the root starts at a leaf or collides with the tree. *)
Lemma climb_sound n l leaf sibs bits :
  length l = (2 ^ n)%nat -> length sibs = n -> length bits = n ->
  climb leaf sibs bits = root_of n l ->
  leaf ∈ l \/ collide (path_pairs leaf sibs bits) (tree_pairs n l).
Proof.
  revert l leaf sibs bits; induction n as [|n IH]; intros l leaf sibs bits Hl Hs Hb.
  { destruct l as [|a [|]], sibs, bits; simpl in *; try lia. intros ->. left. by left. }
  assert (length l = (2 * 2 ^ n)%nat) as Hl' by (simpl in Hl; lia).
  destruct sibs as [|s sibs], bits as [|b bits]; simpl in Hs, Hb; try lia.
  cbn [climb root_of path_pairs tree_pairs]. set (p := if b then (s, leaf) else (leaf, s)).
  replace (if b then hash_two_native s leaf else hash_two_native leaf s) with (hash_pair p) by by destruct b.
  intros Hr. destruct (IH (map hash_pair (pairs_of l)) (hash_pair p) sibs bits) as [Hin|Hc]; [|lia|lia|done|..].
  - rewrite length_map. by apply hash_chunks_pairs.
  - apply list_elem_of_fmap in Hin as (q & Hq & Hin). destruct (decide (p = q)) as [<-|Hpq].
    + left. apply pairs_of_elem in Hin. unfold p in Hin. destruct b; apply Hin.
    + right. exists p, q. split_and!; [left|set_solver|done|done].
  - right. eapply collide_mono; [..|exact Hc]; set_solver.
Qed.

Lemma pairs_of_lookup l i a :
  l !! i = Some a -> is_Some (l !! (if Nat.odd i then i - 1 else i + 1)%nat) ->
  exists s, l !! (if Nat.odd i then i - 1 else i + 1)%nat = Some s /\
    map hash_pair (pairs_of l) !! Nat.div2 i =
      Some (if Nat.odd i then hash_two_native s a else hash_two_native a s).
Proof.
  intros Hi [s Hs]. exists s. split; [done|]. revert i Hi Hs.
  induction l as [|x|x y l IH] using list_pair_ind; intros i Hi Hs; [done|..].
  - destruct i as [|i]; simpl in *; done.
  - destruct i as [|[|i]]; [by simplify_eq/=..|].
    change (Nat.odd (S (S i))) with (Nat.odd i) in *. change (Nat.div2 (S (S i))) with (S (Nat.div2 i)).
    apply IH; [done|]. rewrite <- Hs. destruct (Nat.odd i) eqn:Ho; [|done].
    destruct i; [done|]. simpl. by rewrite Nat.sub_0_r.
Qed.

Lemma sibling_lookup n l i : length l = (2 * n)%nat -> (i < 2 * n)%nat ->
  is_Some (l !! (if Nat.odd i then i - 1 else i + 1)%nat).
Proof.
  intros Hl Hi. apply lookup_lt_is_Some. rewrite Hl. destruct (Nat.odd i) eqn:Ho; [lia|].
  pose proof (Nat.div2_odd i) as Hd. rewrite Ho in Hd. simpl in Hd. lia.
Qed.

(** The path loop returns a path from its leaf to the root. *)
Lemma path_loop_complete n l idx leaf :
  length l = (2 ^ n)%nat -> l !! idx = Some leaf ->
  exists sibs bits, path_loop n (levels_of n l) idx = Ret (sibs, bits) /\
    length sibs = n /\ length bits = n /\ climb leaf sibs bits = root_of n l.
Proof.
  revert l idx leaf; induction n as [|n IH]; intros l idx leaf Hl Hi.
  { exists [], []. destruct l as [|a [|]]; simpl in Hl; try lia. destruct idx; simplify_eq/=; done. }
  assert (length l = (2 * 2 ^ n)%nat) as Hl' by (simpl in Hl; lia).
  pose proof (lookup_lt_Some _ _ _ Hi) as Hlt.
  destruct (pairs_of_lookup l idx leaf Hi) as (s & Hs & Hnext); [apply (sibling_lookup (2 ^ n)); lia|].
  edestruct (IH (map hash_pair (pairs_of l)) (Nat.div2 idx)) as (sibs & bits & Hp & H1 & H2 & H3); [|exact Hnext|].
  { rewrite length_map. by apply hash_chunks_pairs. }
  exists (s :: sibs), (Nat.odd idx :: bits). cbn [levels_of path_loop root_of climb length].
  rewrite Hs. cbn [or_panic mbind outcome_bind]. rewrite Hp. cbn [mbind outcome_bind fst snd].
  split_and!; [done|by f_equal..|done].
Qed.

Lemma position_spec leaf l :
  match position leaf l with Some i => l !! i = Some leaf | None => leaf ∉ l end.
Proof.
  induction l as [|x l IH]; cbn [position]; [by intros ?%elem_of_nil|].
  destruct (fr_eqb x leaf) eqn:E; [by apply fr_eqb_spec in E as ->|].
  destruct (position leaf l); cbn [option_map]; [done|].
  intros [->|?]%elem_of_cons; [|done]. assert (fr_eqb x x = true) by by apply fr_eqb_spec. congruence.
Qed.

Lemma admitted_set_proof_some cs leaves leaf :
  canonical_leaves cs = Ok leaves -> leaf ∈ leaves ->
  exists pf, admitted_set_proof cs leaf = Ret (Ok (Some (root_of MERKLE_DEPTH leaves, pf))) /\
    length (siblings pf) = MERKLE_DEPTH /\ length (index_bits pf) = MERKLE_DEPTH /\
    root_from_proof leaf pf = root_of MERKLE_DEPTH leaves.
Proof.
  intros Hc Hin. unfold admitted_set_proof. rewrite Hc.
  pose proof (position_spec leaf leaves) as Hp. destruct (position leaf leaves) as [idx|]; [|done].
  pose proof (canonical_leaves_length cs leaves Hc) as Hlen.
  destruct (build_levels_ret MERKLE_DEPTH leaves Hlen) as [H1 H2].
  destruct (path_loop_complete MERKLE_DEPTH leaves idx leaf Hlen Hp) as (sibs & bits & H3 & H4 & H5 & H6).
  unfold build_levels, top. rewrite H1. cbn [mbind outcome_bind]. rewrite H2. cbn [or_panic mbind outcome_bind].
  rewrite H3. cbn [mbind outcome_bind fst snd]. by exists (mkMerkleProof sibs bits).
Qed.

Lemma elem_of_leaves cs leaf leaves :
  canonical_leaves cs = Ok leaves -> leaf <> empty_leaf -> leaf ∈ leaves <-> leaf ∈ cs.
Proof.
  intros [_ ->]%canonical_leaves_Ok Hne. rewrite elem_of_app, sort_by_perm, elem_of_replicate. naive_solver.
Qed.

(** [admitted_set_proof] is complete: for a set that fits the tree it never
    panics, and for a commitment of the set it returns the set's root with a
    path that leads to it; for any other non-empty leaf it returns [None]. *)
Theorem merkle_complete cs leaf :
  admissible cs -> leaf <> empty_leaf ->
  exists root, admitted_set_root cs = Ret (Ok root) /\
    if decide (leaf ∈ cs)
    then exists pf, admitted_set_proof cs leaf = Ret (Ok (Some (root, pf))) /\ root_from_proof leaf pf = root
    else admitted_set_proof cs leaf = Ret (Ok None).
Proof.
  intros Hadm Hne. destruct (canonical_leaves cs) as [leaves|] eqn:Hc.
  2: { exfalso. pose proof (proj2 (canonical_leaves_Ok cs _) (conj Hadm eq_refl)). congruence. }
  exists (root_of MERKLE_DEPTH leaves). split; [by apply admitted_set_root_eq|].
  pose proof (elem_of_leaves cs leaf leaves Hc Hne) as Hel. destruct (decide (leaf ∈ cs)) as [Hin|Hin].
  - apply Hel in Hin. destruct (admitted_set_proof_some cs leaves leaf Hc Hin) as (pf & H1 & _ & _ & H2). by exists pf.
  - unfold admitted_set_proof. rewrite Hc. pose proof (position_spec leaf leaves) as Hp.
    destruct (position leaf leaves); [|done]. apply list_elem_of_lookup_2 in Hp. by apply Hel in Hp.
Qed.

(** A membership proof that leads to the root of a set is for a commitment
    of that set, or for the padding, or its path and the tree contain two
    different pairs of nodes with one Poseidon hash. *)
Theorem merkle_sound cs root leaf pf :
  admitted_set_root cs = Ret (Ok root) ->
  length (siblings pf) = MERKLE_DEPTH -> length (index_bits pf) = MERKLE_DEPTH ->
  root_from_proof leaf pf = root ->
  leaf ∈ cs \/ leaf = empty_leaf \/
  collide (path_pairs leaf (siblings pf) (index_bits pf)) (set_pairs cs).
Proof.
  intros (leaves & Hc & ->)%admitted_set_root_Ok Hs Hb Hr.
  destruct (climb_sound MERKLE_DEPTH leaves leaf (siblings pf) (index_bits pf)) as [Hin|Hcol]; [|done..| |].
  - by eapply canonical_leaves_length.
  - destruct (decide (leaf = empty_leaf)) as [|Hne]; [by auto|]. left. by apply (elem_of_leaves cs leaf leaves Hc Hne).
  - right. right. unfold set_pairs. by rewrite Hc.
Qed.

Lemma unpad l k :
  empty_leaf ∉ l -> List.filter (fun x => negb (fr_eqb x empty_leaf)) (l ++ replicate k empty_leaf) = l.
Proof.
  intros Hl. rewrite List.filter_app. induction l as [|x l IH]; cbn [List.filter app].
  - induction k as [|k IH]; cbn [replicate List.filter]; [done|].
    replace (fr_eqb empty_leaf empty_leaf) with true by (symmetry; by apply fr_eqb_spec). apply IH.
  - apply not_elem_of_cons in Hl as [Hx Hl]. destruct (fr_eqb x empty_leaf) eqn:E; [by apply fr_eqb_spec in E as ->|].
    cbn [negb app]. by rewrite IH.
Qed.

Lemma padded_perm cs1 cs2 k1 k2 :
  empty_leaf ∉ cs1 -> empty_leaf ∉ cs2 ->
  sort_by key_cmp cs1 ++ replicate k1 empty_leaf = sort_by key_cmp cs2 ++ replicate k2 empty_leaf -> cs1 ≡ₚ cs2.
Proof.
  intros H1 H2 Heq. rewrite <- (sort_by_perm key_cmp cs1) in H1. rewrite <- (sort_by_perm key_cmp cs2) in H2.
  apply (f_equal (List.filter (fun x => negb (fr_eqb x empty_leaf)))) in Heq. rewrite !unpad in Heq by done.
  by rewrite <- (sort_by_perm key_cmp cs1), <- (sort_by_perm key_cmp cs2), Heq.
Qed.

(** The root binds the admitted multiset.  Sets that are permutations of each
    other have the same root; sets with the same root are permutations of each
    other, or their two trees contain different pairs of nodes with one hash. *)
Theorem merkle_root_binding cs1 cs2 :
  (cs1 ≡ₚ cs2 -> admitted_set_root cs1 = admitted_set_root cs2) /\
  (forall root, admitted_set_root cs1 = Ret (Ok root) -> admitted_set_root cs2 = Ret (Ok root) ->
    cs1 ≡ₚ cs2 \/ collide (set_pairs cs1) (set_pairs cs2)).
Proof.
  split.
  - intros Hp. unfold admitted_set_root, canonical_leaves.
    rewrite (sort_by_perm_eq key_cmp key_cmp_total key_cmp_trans cs1 cs2) by eauto using key_cmp_anti.
    rewrite (Permutation_length Hp). replace (existsb _ cs1) with (existsb (fun c => fr_eqb c empty_leaf) cs2); [done|].
    apply eq_true_iff_eq. rewrite !existsb_exists. setoid_rewrite <- list_elem_of_In. by setoid_rewrite Hp.
  - intros root (l1 & Hc1 & ->)%admitted_set_root_Ok (l2 & Hc2 & Hr)%admitted_set_root_Ok.
    unfold set_pairs. rewrite Hc1, Hc2.
    destruct (root_of_inj MERKLE_DEPTH l1 l2) as [Heq|Hcol]; [by eapply canonical_leaves_length..|done| |by right].
    left. apply canonical_leaves_Ok in Hc1 as [[_ H1] ->], Hc2 as [[_ H2] ->]. by eapply padded_perm.
Qed.

(** The padding is provable.  Although [empty_leaf] is never a member of an
    admissible set, a set with room left in the tree has a membership proof for it. *)
Theorem merkle_empty_leaf_provable cs :
  admissible cs -> (length cs < MERKLE_LEAVES)%nat ->
  empty_leaf ∉ cs /\
  exists root pf, admitted_set_proof cs empty_leaf = Ret (Ok (Some (root, pf))) /\
    admitted_set_root cs = Ret (Ok root) /\ root_from_proof empty_leaf pf = root.
Proof.
  intros Hadm Hlt. split; [apply Hadm|].
  pose proof (proj2 (canonical_leaves_Ok cs _) (conj Hadm eq_refl)) as Hc.
  destruct (admitted_set_proof_some cs _ empty_leaf Hc) as (pf & H1 & _ & _ & H2).
  - apply elem_of_app. right. apply elem_of_replicate. split; [done|lia].
  - eexists _, pf. split_and!; [exact H1|by apply admitted_set_root_eq|done].
Qed.
End merkle_facts.

(** ** Concrete sets *)

#[local] Existing Instances fr_ops fr_laws.

Lemma merkle_complete_witness :
  admissible [mk_fr 5; mk_fr 9] /\
  exists root, admitted_set_root (Poseidon0:=sample_poseidon) [mk_fr 5; mk_fr 9] = Ret (Ok root).
Proof.
  assert (admissible [mk_fr 5; mk_fr 9]) as Ha by (split; [vm_compute; lia|by apply (bool_decide_unpack _); vm_compute]).
  split; [exact Ha|].
  destruct (merkle_complete (Poseidon0:=sample_poseidon) [mk_fr 5; mk_fr 9] (mk_fr 9) Ha) as (root & Hr & _).
  - apply (bool_decide_unpack _). vm_compute. exact I.
  - exists root. exact Hr.
Defined.

(** The set used to instantiate soundness, with the proof the tree gives. *)
Definition sample_set : list Fr := [mk_fr 5; mk_fr 9].

Definition sample_proof : Fr * MerkleProof Fr :=
  match admitted_set_proof (Poseidon0:=sample_poseidon) sample_set (mk_fr 9) with
  | Ret (Ok (Some rp)) => rp
  | _ => (mk_fr 0, mkMerkleProof [] [])
  end.

Lemma merkle_sound_witness :
  mk_fr 9 ∈ sample_set \/ mk_fr 9 = empty_leaf \/
  collide (Poseidon0:=sample_poseidon)
    (path_pairs (Poseidon0:=sample_poseidon) (mk_fr 9) (siblings (snd sample_proof)) (index_bits (snd sample_proof)))
    (set_pairs (Poseidon0:=sample_poseidon) sample_set).
Proof.
  apply (merkle_sound (Poseidon0:=sample_poseidon) sample_set (fst sample_proof) (mk_fr 9) (snd sample_proof));
    vm_compute; reflexivity.
Defined.

Lemma merkle_empty_leaf_provable_witness :
  empty_leaf ∉ sample_set /\
  exists root pf, admitted_set_proof (Poseidon0:=sample_poseidon) sample_set empty_leaf = Ret (Ok (Some (root, pf))) /\
    admitted_set_root (Poseidon0:=sample_poseidon) sample_set = Ret (Ok root) /\
    root_from_proof (Poseidon0:=sample_poseidon) empty_leaf pf = root.
Proof.
  apply (merkle_empty_leaf_provable (Poseidon0:=sample_poseidon) sample_set); [|vm_compute; lia].
  split; [vm_compute; lia|by apply (bool_decide_unpack _); vm_compute].
Defined.

Lemma merkle_root_binding_witness :
  admitted_set_root (Poseidon0:=sample_poseidon) [mk_fr 5; mk_fr 9] =
  admitted_set_root (Poseidon0:=sample_poseidon) [mk_fr 9; mk_fr 5].
Proof.
  apply (proj1 (merkle_root_binding (Poseidon0:=sample_poseidon) [mk_fr 5; mk_fr 9] [mk_fr 9; mk_fr 5])), perm_swap.
Defined.
