(* ===== verification/EngineState.v ===== *)
(** * The state of the engine

    [dp-engine/src/state.rs], [error.rs] and [subscribe.rs], with the data types
    the engine shares with its collaborators: decrypted orders
    ([dp-crypto/src/decrypted_order.rs]), settlement rows and errors
    ([dp-settlement/src/lib.rs]).  Durations and instants are nanoseconds. *)

From S2P Require Import Prelude Decimal Types Field Auction Events Book Merkle.
Open Scope Z_scope.

Notation Duration := Z.

Definition secs (n : Z) : Duration := n * 1000000000.

Definition DEFAULT_AUCTION_INTERVAL : Duration := secs 5.
Definition DEFAULT_ORDER_TTL : Duration := secs 600.
Definition DEFAULT_SUBMIT_TIMEOUT : Duration := secs 10.
Definition DEFAULT_MIN_BACKOFF : Duration := secs 1.
Definition DEFAULT_MAX_BACKOFF : Duration := secs 60.

(** ** Errors *)

Inductive CryptoError :=
| DecryptionFailed (msg : Str)
| EncryptionFailed (msg : Str)
| InvalidKeyFile (msg : Str)
| DeserializationFailed
| CryptoIo
| HexDecode
| CryptoKeySource (msg : Str).

Inductive SettlementError :=
| TooManyMatches (count : Z)
| InvalidProofLength (expected actual : Z)
| NegativeAmount
| PrecisionLoss
| SubCircuitPrecision
| InvalidBytes32
| SettlementParse (msg : Str)
| Rpc (msg : Str)
| SignerError (msg : Str)
| SettlementIo.

Inductive AggregatorError :=
| AggTimeout
| ProcessFailed (exit_code : Z) (stderr : Str)
| BinaryNotFound (path : Str)
| AggIo
| AggSerialize
| AggZk (msg : Str).

Inductive EngineError (D : Type) :=
| Validation (e : DarkPoolError)
| DecryptErr (e : CryptoError)
| AggregateErr (e : AggregatorError)
| SubmitErr (e : SettlementError)
| BalanceLookup (e : SettlementError)
| EventErr (e : EventError)
| RecoverDecrypt (order_id : Uuid) (e : CryptoError)
| RecoverCommitmentMismatch (order_id : Uuid)
| RecoverSaltInvalid (order_id : Uuid)
| RecoverReAggregate (auction_id : Uuid) (e : AggregatorError)
| WitnessSecretMissing (order_id : Uuid)
| WitnessOrderMissing (order_id : Uuid)
| CommitmentEncoding (e : EncodingError D)
| PairNotConfigured (pair : Str)
| RecoveredBatchPublicInputsMissing (batch_id : Uuid)
| SnapshotsCorruptAndLogTruncated.
Arguments Validation {D}.
Arguments DecryptErr {D}.
Arguments AggregateErr {D}.
Arguments SubmitErr {D}.
Arguments BalanceLookup {D}.
Arguments EventErr {D}.
Arguments RecoverDecrypt {D}.
Arguments RecoverCommitmentMismatch {D}.
Arguments RecoverSaltInvalid {D}.
Arguments RecoverReAggregate {D}.
Arguments WitnessSecretMissing {D}.
Arguments WitnessOrderMissing {D}.
Arguments CommitmentEncoding {D}.
Arguments PairNotConfigured {D}.
Arguments RecoveredBatchPublicInputsMissing {D}.
Arguments SnapshotsCorruptAndLogTruncated {D}.

(** ** Data *)

Record DecryptedOrder (D : Type) := mkDecryptedOrder {
  d_trader : Address;
  d_pair : Str;
  d_side : Side;
  d_price : D;
  d_size : D;
  d_commitment_key : Str;
  d_salt : Str;
  d_nonce : Str;
  d_expires_at_unix_nanos : Z;
  d_ttl : Z
}.
Arguments mkDecryptedOrder {D}.
Arguments d_trader {D}.
Arguments d_pair {D}.
Arguments d_side {D}.
Arguments d_price {D}.
Arguments d_size {D}.
Arguments d_commitment_key {D}.
Arguments d_salt {D}.
Arguments d_nonce {D}.
Arguments d_expires_at_unix_nanos {D}.
Arguments d_ttl {D}.

Record SettlementMatch (D : Type) := mkSettlementMatch {
  sm_bid_order_id : Uuid;
  sm_ask_order_id : Uuid;
  sm_bid_trader : Address;
  sm_ask_trader : Address;
  sm_base_token : Address;
  sm_quote_token : Address;
  sm_price : D;
  sm_size : D
}.
Arguments mkSettlementMatch {D}.
Arguments sm_bid_order_id {D}.
Arguments sm_ask_order_id {D}.
Arguments sm_bid_trader {D}.
Arguments sm_ask_trader {D}.
Arguments sm_base_token {D}.
Arguments sm_quote_token {D}.
Arguments sm_price {D}.
Arguments sm_size {D}.

Inductive PairStatus := Active | Suspended | Delisted.

#[export] Instance PairStatus_eq_dec : EqDecision PairStatus.
Proof. solve_decision. Defined.

Definition is_active (s : PairStatus) : bool := match s with Active => true | _ => false end.

Definition default_token_decimals : Z := 18.
Definition zero_address : Address := replicate 20 0.

Record PairConfig (D : Type) := mkPairConfig {
  base_token : Address;
  quote_token : Address;
  base_decimals : Z;
  quote_decimals : Z;
  min_order_size : D;
  tick_size : D;
  auction_interval : option Duration;
  status : PairStatus
}.
Arguments mkPairConfig {D}.
Arguments base_token {D}.
Arguments quote_token {D}.
Arguments base_decimals {D}.
Arguments quote_decimals {D}.
Arguments min_order_size {D}.
Arguments tick_size {D}.
Arguments auction_interval {D}.
Arguments status {D}.

(** An assignment to the field [status]. *)
Definition set_status {D} (c : PairConfig D) (s : PairStatus) : PairConfig D :=
  mkPairConfig (base_token c) (quote_token c) (base_decimals c) (quote_decimals c)
    (min_order_size c) (tick_size c) (auction_interval c) s.

Inductive ProofPayload :=
| IvcFinal (proof_bytes : bytes) (z_0 z_n : list bytes) (n_steps : Z) (policy_hash : bytes).

Record PendingBatch (D : Type) := mkPendingBatch {
  pb_batch_id : Uuid;
  pb_auction_id : Uuid;
  pb_matches : list (Match D);
  pb_settlement_matches : list (SettlementMatch D);
  pb_proof : bytes;
  pb_public_inputs : list Z;
  pb_ivc_payload : option ProofPayload;
  pb_attempts : Z;
  pb_next_attempt : option Z;
  pb_submitting : bool
}.
Arguments mkPendingBatch {D}.
Arguments pb_batch_id {D}.
Arguments pb_auction_id {D}.
Arguments pb_matches {D}.
Arguments pb_settlement_matches {D}.
Arguments pb_proof {D}.
Arguments pb_public_inputs {D}.
Arguments pb_ivc_payload {D}.
Arguments pb_attempts {D}.
Arguments pb_next_attempt {D}.
Arguments pb_submitting {D}.

Definition zero_inputs : list Z := replicate 6 0.

Record AuctionExecutedRecord (D : Type) := mkRecord {
  r_auction_id : Uuid;
  r_pair : Str;
  r_clearing_price : D;
  r_matched_volume : D;
  r_match_count : Z;
  r_timestamp : DateTime
}.
Arguments mkRecord {D}.
Arguments r_auction_id {D}.
Arguments r_pair {D}.
Arguments r_clearing_price {D}.
Arguments r_matched_volume {D}.
Arguments r_match_count {D}.
Arguments r_timestamp {D}.

Record AuctionNotification (D : Type) := mkNotification {
  n_auction_id : Uuid;
  n_pair : Str;
  n_clearing_price : D;
  n_matched_volume : D;
  n_match_count : Z;
  n_timestamp : DateTime
}.
Arguments mkNotification {D}.
Arguments n_auction_id {D}.
Arguments n_pair {D}.
Arguments n_clearing_price {D}.
Arguments n_matched_volume {D}.
Arguments n_match_count {D}.
Arguments n_timestamp {D}.

(** The persistable part of the state. *)
Record SerializableState (D : Type) := mkSerializableState {
  ss_book : BookSnapshot D;
  ss_pair_tokens : gmap Str (PairConfig D);
  ss_auction_log : list (AuctionExecutedRecord D);
  ss_pending_batches : gmap Uuid (PendingBatch D);
  ss_seen_ciphertexts : gset bytes;
  ss_spent_nullifiers : gset bytes;
  ss_spent_order_nonces : gset bytes
}.
Arguments mkSerializableState {D}.
Arguments ss_book {D}.
Arguments ss_pair_tokens {D}.
Arguments ss_auction_log {D}.
Arguments ss_pending_batches {D}.
Arguments ss_seen_ciphertexts {D}.
Arguments ss_spent_nullifiers {D}.
Arguments ss_spent_order_nonces {D}.

Record EngineState (D : Type) := mkEngineState {
  es_book : Book.Inner D;
  es_pair_tokens : gmap Str (PairConfig D);
  es_auction_log : list (AuctionExecutedRecord D);
  es_pending_batches : gmap Uuid (PendingBatch D);
  es_seen_ciphertexts : gset bytes;
  es_spent_nullifiers : gset bytes;
  es_spent_order_nonces : gset bytes;
  es_submit_timeout : Duration;
  es_min_backoff : Duration;
  es_max_backoff : Duration;
  es_default_ttl : Duration;
  es_recovered : bool
}.
Arguments mkEngineState {D}.
Arguments es_book {D}.
Arguments es_pair_tokens {D}.
Arguments es_auction_log {D}.
Arguments es_pending_batches {D}.
Arguments es_seen_ciphertexts {D}.
Arguments es_spent_nullifiers {D}.
Arguments es_spent_order_nonces {D}.
Arguments es_submit_timeout {D}.
Arguments es_min_backoff {D}.
Arguments es_max_backoff {D}.
Arguments es_default_ttl {D}.
Arguments es_recovered {D}.

(** Assignments to one field. *)
Section setters.
Context {D : Type}.
Implicit Types s : EngineState D.

Definition set_book s b := mkEngineState b (es_pair_tokens s) (es_auction_log s) (es_pending_batches s)
  (es_seen_ciphertexts s) (es_spent_nullifiers s) (es_spent_order_nonces s) (es_submit_timeout s)
  (es_min_backoff s) (es_max_backoff s) (es_default_ttl s) (es_recovered s).
Definition set_pairs s p := mkEngineState (es_book s) p (es_auction_log s) (es_pending_batches s)
  (es_seen_ciphertexts s) (es_spent_nullifiers s) (es_spent_order_nonces s) (es_submit_timeout s)
  (es_min_backoff s) (es_max_backoff s) (es_default_ttl s) (es_recovered s).
Definition set_log s l := mkEngineState (es_book s) (es_pair_tokens s) l (es_pending_batches s)
  (es_seen_ciphertexts s) (es_spent_nullifiers s) (es_spent_order_nonces s) (es_submit_timeout s)
  (es_min_backoff s) (es_max_backoff s) (es_default_ttl s) (es_recovered s).
Definition set_pending s p := mkEngineState (es_book s) (es_pair_tokens s) (es_auction_log s) p
  (es_seen_ciphertexts s) (es_spent_nullifiers s) (es_spent_order_nonces s) (es_submit_timeout s)
  (es_min_backoff s) (es_max_backoff s) (es_default_ttl s) (es_recovered s).
Definition add_spent s (digest nullifier nonce : bytes) := mkEngineState (es_book s) (es_pair_tokens s)
  (es_auction_log s) (es_pending_batches s) ({[digest]} ∪ es_seen_ciphertexts s)
  ({[nullifier]} ∪ es_spent_nullifiers s) ({[nonce]} ∪ es_spent_order_nonces s) (es_submit_timeout s)
  (es_min_backoff s) (es_max_backoff s) (es_default_ttl s) (es_recovered s).
Definition set_timeouts s timeout min max := mkEngineState (es_book s) (es_pair_tokens s) (es_auction_log s)
  (es_pending_batches s) (es_seen_ciphertexts s) (es_spent_nullifiers s) (es_spent_order_nonces s)
  timeout min max (es_default_ttl s) (es_recovered s).
Definition set_recovered s r := mkEngineState (es_book s) (es_pair_tokens s) (es_auction_log s)
  (es_pending_batches s) (es_seen_ciphertexts s) (es_spent_nullifiers s) (es_spent_order_nonces s)
  (es_submit_timeout s) (es_min_backoff s) (es_max_backoff s) (es_default_ttl s) r.
End setters.

Section state.
Context {D : Type} `{!DecimalOps D}.

Definition config_new (base quote : Address) : PairConfig D :=
  mkPairConfig base quote default_token_decimals default_token_decimals dec_zero dec_zero None Active.

Definition config_default : PairConfig D := config_new zero_address zero_address.

Definition state_new : EngineState D :=
  mkEngineState Book.new ∅ [] ∅ ∅ ∅ ∅ DEFAULT_SUBMIT_TIMEOUT DEFAULT_MIN_BACKOFF
    DEFAULT_MAX_BACKOFF DEFAULT_ORDER_TTL false.

Definition reset_projection (s : EngineState D) : EngineState D :=
  mkEngineState Book.new ∅ [] ∅ ∅ ∅ ∅ (es_submit_timeout s) (es_min_backoff s) (es_max_backoff s)
    (es_default_ttl s) (es_recovered s).

Definition pair_config (s : EngineState D) (pair : Str) : option (PairConfig D) := es_pair_tokens s !! pair.

Definition to_serializable (s : EngineState D) : SerializableState D :=
  mkSerializableState (Book.to_snapshot (es_book s)) (es_pair_tokens s) (es_auction_log s)
    (es_pending_batches s) (es_seen_ciphertexts s) (es_spent_nullifiers s) (es_spent_order_nonces s).

Definition restore_from_serializable (s : EngineState D) (snap : SerializableState D) : EngineState D :=
  mkEngineState (Book.restore_from (es_book s) (ss_book snap)) (ss_pair_tokens snap) (ss_auction_log snap)
    (ss_pending_batches snap) (ss_seen_ciphertexts snap) (ss_spent_nullifiers snap)
    (ss_spent_order_nonces snap) (es_submit_timeout s) (es_min_backoff s) (es_max_backoff s)
    (es_default_ttl s) (es_recovered s).

(** The fields [#[serde(skip)]] drops when a state is written and read back. *)
Definition skip_transient (pb : PendingBatch D) : PendingBatch D :=
  mkPendingBatch (pb_batch_id pb) (pb_auction_id pb) (pb_matches pb) (pb_settlement_matches pb)
    (pb_proof pb) (pb_public_inputs pb) (pb_ivc_payload pb) (pb_attempts pb) None false.

Inductive SettlementResolveErr :=
| OrderMissing (order_id : Uuid)
| PairMissing (pair : Str).

Definition try_build_settlement_row (m : Match D) (orders : gmap Uuid (Order D))
    (pairs : gmap Str (PairConfig D)) : result (SettlementMatch D) SettlementResolveErr :=
  match orders !! fill_order_id (match_bid_fill m) with
  | None => Err (OrderMissing (fill_order_id (match_bid_fill m)))
  | Some bid =>
    match orders !! fill_order_id (match_ask_fill m) with
    | None => Err (OrderMissing (fill_order_id (match_ask_fill m)))
    | Some ask =>
      match pairs !! o_pair bid with
      | None => Err (PairMissing (o_pair bid))
      | Some cfg =>
        Ok (mkSettlementMatch (fill_order_id (match_bid_fill m)) (fill_order_id (match_ask_fill m))
          (o_trader bid) (o_trader ask) (base_token cfg) (quote_token cfg) (match_price m) (match_size m))
      end
    end
  end.

(** [min.as_nanos() << shift] is computed in 128 bits, which hold any duration
    shifted by 31. *)
Definition compute_backoff (min max : Duration) (attempts : Z) : Duration :=
  if min =? 0 then 0
  else
    let attempts := Z.max attempts 1 in
    let shift := Z.min (attempts - 1) 31 in
    let nanos := Z.shiftl min shift mod 2 ^ 128 in
    if max <? nanos then max else Z.min nanos u64_max.

Definition record_to_notification (r : AuctionExecutedRecord D) : AuctionNotification D :=
  mkNotification (r_auction_id r) (r_pair r) (r_clearing_price r) (r_matched_volume r)
    (r_match_count r) (r_timestamp r).

Definition order_matched_to_match (bid ask : Fill D) (price sz : D) : Match D := mkMatch bid ask price sz.
End state.

(** [compute_backoff] is exponential, monotone in the number of attempts and
    stays within its bounds: the first retry waits [min], each further failure
    doubles the wait until [max] is reached, and no input overflows. *)
Theorem backoff_bounds (min max attempts : Z) :
  0 < min <= max -> max <= u64_max -> 0 <= attempts ->
  compute_backoff min max attempts = Z.min max (min * 2 ^ Z.min (Z.max attempts 1 - 1) 31) /\
  min <= compute_backoff min max attempts <= max /\
  compute_backoff min max attempts <= compute_backoff min max (attempts + 1) /\
  (max <= min * 2 ^ 31 -> 32 <= attempts -> compute_backoff min max attempts = max).
Proof.
  intros Hmin Hmax Ha.
  assert (forall a, 0 <= a -> compute_backoff min max a = Z.min max (min * 2 ^ Z.min (Z.max a 1 - 1) 31)) as Heq.
  { intros a H0. unfold compute_backoff. destruct (Z.eqb_spec min 0); [lia|].
    rewrite Z.shiftl_mul_pow2 by lia. set (k := Z.min (Z.max a 1 - 1) 31).
    assert (2 ^ k <= 2 ^ 31) by (apply Z.pow_le_mono_r; lia).
    assert (0 < 2 ^ k) by (apply Z.pow_pos_nonneg; lia).
    rewrite Z.mod_small by (unfold u64_max in *; nia).
    destruct (Z.ltb_spec max (min * 2 ^ k)); unfold u64_max in *; lia. }
  rewrite !Heq by lia.
  assert (forall k, 0 <= k -> 1 <= 2 ^ k) as Hp by (intros k Hk; pose proof (Z.pow_pos_nonneg 2 k); lia).
  set (k := Z.min (Z.max attempts 1 - 1) 31). set (k' := Z.min (Z.max (attempts + 1) 1 - 1) 31).
  assert (2 ^ k <= 2 ^ k') by (apply Z.pow_le_mono_r; lia). pose proof (Hp k ltac:(lia)).
  split_and!; [done|nia|lia|nia|]. intros Hm H32. assert (k = 31) as -> by lia. lia.
Qed.

Lemma backoff_bounds_witness : compute_backoff (secs 1) (secs 60) 40 = secs 60.
Proof. apply (backoff_bounds (secs 1) (secs 60) 40); vm_compute; intuition discriminate. Defined.
