(* ===== verification/Engine.v ===== *)
(** * The engine

    [dp-engine/src/engine.rs]: the pair registry, order admission, cancellation
    and the queries.  An operation takes the engine and returns the engine with
    a result; the clock, fresh identifiers and the collaborators behind traits
    (decrypter, balance oracle, proof verifier) are arguments.  Every lock scope
    of the source is one atomic step: [place_encrypted_order] reads the state in
    two scopes and writes it in a third, so it takes the states those scopes see. *)

From S2P Require Import Prelude Decimal Types Field Auction Events Book Merkle EngineState.
Open Scope Z_scope.

(** ** Third-party functions *)

Class Sha256 := { sha256 : bytes -> bytes }.

(** The crate [hex]. *)
Class HexOps := { hex_decode : Str -> option bytes; hex_encode : bytes -> Str }.

Definition is_lower_hex (c : Z) : bool := ((48 <=? c) && (c <=? 57)) || ((97 <=? c) && (c <=? 102)).

Class HexLaws `{!HexOps} := {
  hex_decode_digits : forall s, Nat.Even (length s) -> forallb is_lower_hex s = true ->
    exists b, hex_decode s = Some b /\ length b = Nat.div2 (length s) /\ Forall is_byte b;
  hex_decode_encode : forall b, Forall is_byte b -> hex_decode (hex_encode b) = Some b;
  hex_encode_digits : forall b, Forall is_byte b -> forallb is_lower_hex (hex_encode b) = true
}.

(** How the crate [alloy] prints and parses addresses. *)
Class AddressOps := { fmt_address : Address -> Str; parse_address : Str -> option Address }.

Class AddressLaws `{!AddressOps} := {
  parse_fmt_address : forall a, length a = 20%nat -> Forall is_byte a -> parse_address (fmt_address a) = Some a
}.

(** ** Data *)

Definition MAX_TTL : Duration := secs 86400.
Definition MAX_ENCRYPTED_PAYLOAD_BYTES : Z := 128 * 1024.
Definition MAX_ACTIVE_ORDERS_PER_TRADER : Z := 128.
Definition MAX_ACTIVE_ORDERS : Z := 16 * 1024.

Record OrderSecrets (D : Type) := mkOrderSecrets {
  s_salt : bytes;
  s_trader_id : bytes;
  s_commitment : bytes;
  s_nullifier : bytes;
  s_balance : D;
  s_position : Z
}.
Arguments mkOrderSecrets {D}.
Arguments s_salt {D}.
Arguments s_trader_id {D}.
Arguments s_commitment {D}.
Arguments s_nullifier {D}.
Arguments s_balance {D}.
Arguments s_position {D}.

Record ReplayProtection := mkReplayProtection { rp_nullifier : bytes; rp_order_nonce_digest : bytes }.

(** What the struct [Inner] owns; its trait objects are arguments of the
    operations. *)
Record Engine (D St : Type) := mkEngine {
  e_state : EngineState D;
  e_store : St;
  e_secrets : gmap Uuid (OrderSecrets D);
  e_ivc_round : gmap Str Z;
  e_finalize_every : Z;
  e_batch_size : nat;
  e_auction_interval : Duration
}.
Arguments mkEngine {D St}.
Arguments e_state {D St}.
Arguments e_store {D St}.
Arguments e_secrets {D St}.
Arguments e_ivc_round {D St}.
Arguments e_finalize_every {D St}.
Arguments e_batch_size {D St}.
Arguments e_auction_interval {D St}.

Section engine_setters.
Context {D St : Type}.
Implicit Types e : Engine D St.

Definition with_state e (s : EngineState D) : Engine D St := mkEngine s (e_store e) (e_secrets e) (e_ivc_round e) (e_finalize_every e) (e_batch_size e) (e_auction_interval e).
Definition with_store e (st : St) : Engine D St := mkEngine (e_state e) st (e_secrets e) (e_ivc_round e) (e_finalize_every e) (e_batch_size e) (e_auction_interval e).
Definition with_secrets e (sc : gmap Uuid (OrderSecrets D)) : Engine D St := mkEngine (e_state e) (e_store e) sc (e_ivc_round e) (e_finalize_every e) (e_batch_size e) (e_auction_interval e).
Definition with_rounds e (r : gmap Str Z) : Engine D St := mkEngine (e_state e) (e_store e) (e_secrets e) r (e_finalize_every e) (e_batch_size e) (e_auction_interval e).
Definition with_finalize e (n : Z) : Engine D St := mkEngine (e_state e) (e_store e) (e_secrets e) (e_ivc_round e) n (e_batch_size e) (e_auction_interval e).
End engine_setters.

(** An order ready to be persisted. *)
Record Prepared (D : Type) := mkPrepared {
  p_order : Order D;
  p_secrets : OrderSecrets D;
  p_replay : ReplayProtection
}.
Arguments mkPrepared {D}.
Arguments p_order {D}.
Arguments p_secrets {D}.
Arguments p_replay {D}.

(** What the trait objects and the runtime answer during one admission. *)
Record PlaceEnv (D F : Type) := mkPlaceEnv {
  pe_decrypt : bytes -> result (DecryptedOrder D) CryptoError;
  pe_lookup : Address -> Address -> Z -> result (D * Z) SettlementError;
  pe_verifier : option (bytes -> OrderProofPublics F -> bool);
  pe_now : DateTime;
  pe_new_id : Uuid
}.
Arguments mkPlaceEnv {D F}.
Arguments pe_decrypt {D F}.
Arguments pe_lookup {D F}.
Arguments pe_verifier {D F}.
Arguments pe_now {D F}.
Arguments pe_new_id {D F}.

(** ** Parsing and derivations *)

Section derive.
Context {D F : Type} `{!DecimalOps D, !FieldOps F, !Poseidon F, !Sha256, !HexOps}.

Definition ciphertext_digest (ciphertext : bytes) : bytes := sha256 ciphertext.

Definition order_nonce_digest (trader : Address) (nonce : bytes) : bytes :=
  sha256 (str "darkpool/order-nonce/v1" ++ trader ++ nonce).

(** A string with a character outside ASCII fails the digit test whatever its
    length in bytes, so counting characters decides as counting bytes does. *)
Definition parse_lowercase_hex32 (hex_value : Str) (err : DarkPoolError) : result bytes (EngineError D) :=
  if negb (length hex_value =? 64)%nat || negb (forallb is_lower_hex hex_value) then Err (Validation err)
  else
    match hex_decode hex_value with
    | None => Err (Validation err)
    | Some b => if (length b =? 32)%nat then Ok b else Err (Validation err)
    end.

Definition parse_order_salt (salt_hex : Str) : result bytes (EngineError D) :=
  match parse_lowercase_hex32 salt_hex SaltInvalid with
  | Err e => Err e
  | Ok b =>
    match bytes32_to_scalar (D:=D) (F:=F) b with
    | Err _ => Err (Validation SaltInvalid)
    | Ok _ => Ok b
    end
  end.

Definition parse_order_nonce (nonce_hex : Str) : result bytes (EngineError D) :=
  parse_lowercase_hex32 nonce_hex OrderNonceInvalid.

(** Every positive 64-bit count of nanoseconds is an instant. *)
Definition order_expiry_from_unix_nanos (nanos : Z) : result DateTime (EngineError D) :=
  if nanos <=? 0 then Err (Validation OrderExpiryInvalid) else Ok nanos.

Definition validate_order_freshness (expires_at_unix_nanos : Z) (now : DateTime) : result DateTime (EngineError D) :=
  match order_expiry_from_unix_nanos expires_at_unix_nanos with
  | Err e => Err e
  | Ok expires_at =>
    if expires_at <=? now then Err (Validation OrderExpired)
    else if now + MAX_TTL <? expires_at then Err (Validation (OrderExpiryTooFar (MAX_TTL / 1000000000)))
    else Ok expires_at
  end.

Definition encoded {A} (r : result A (EncodingError D)) : result A (EngineError D) :=
  match r with Ok a => Ok a | Err e => Err (CommitmentEncoding e) end.

Definition side_u8 (s : Side) : Z := match s with Buy => 0 | Sell => 1 end.

Definition compute_poseidon_commitment_fr (trader_id : bytes) (side : Z) (price sz : D) (salt : bytes) :
    result F (EngineError D) :=
  let? trader_fr := encoded (bytes32_to_scalar (F:=F) trader_id) in
  let? salt_fr := encoded (bytes32_to_scalar (F:=F) salt) in
  let? input := encoded (from_decimals trader_fr side price sz salt_fr) in
  Ok (commit_native input).

Definition compute_poseidon_commitment (trader_id : bytes) (side : Z) (price sz : D) (salt : bytes) :
    result bytes (EngineError D) :=
  let? f := compute_poseidon_commitment_fr trader_id side price sz salt in
  Ok (fr_to_bytes32 f).

Definition derive_order_secrets (trader_addr : bytes) (side : Z) (price sz balance : D) (position : Z)
    (salt : bytes) : result (OrderSecrets D) (EngineError D) :=
  let? trader_id := encoded (derive_trader_id_bytes (F:=F) trader_addr) in
  let? commitment_fr := compute_poseidon_commitment_fr trader_id side price sz salt in
  let? salt_fr := encoded (bytes32_to_scalar (F:=F) salt) in
  let nullifier_fr := compute_nullifier_native commitment_fr salt_fr in
  Ok (mkOrderSecrets salt trader_id (fr_to_bytes32 commitment_fr) (fr_to_bytes32 nullifier_fr) balance position).

Definition recompute_persisted_commitment (trader_addr : bytes) (side : Z) (price sz : D) (salt : bytes) :
    result bytes (EngineError D) :=
  let? trader_id := encoded (derive_trader_id_bytes (F:=F) trader_addr) in
  compute_poseidon_commitment trader_id side price sz salt.
End derive.

(** ** Operations *)

Section engine.
Context {D F St : Type} `{!DecimalOps D, !FieldOps F, !Poseidon F, !StoreOps D St, !Sha256, !HexOps, !AddressOps}
  {HI : HashIter}.
Implicit Types e : Engine D St.

Definition engine_new (store : St) (interval : Duration) : Engine D St :=
  mkEngine state_new store ∅ ∅ 60 8 (if interval =? 0 then DEFAULT_AUCTION_INTERVAL else interval).

Definition set_finalize_every e (n : Z) : Engine D St := if n =? 0 then e else with_finalize e n.

Definition set_submit_timeout e (d : Duration) : Engine D St :=
  let s := e_state e in
  with_state e (set_timeouts s (if d =? 0 then DEFAULT_SUBMIT_TIMEOUT else d) (es_min_backoff s) (es_max_backoff s)).

Definition set_retry_backoff e (min max : Duration) : Engine D St :=
  let max := if max <? min then min else max in
  let s := e_state e in
  with_state e (set_timeouts s (es_submit_timeout s) min max).

Definition capture_snapshot_state e : SerializableState D * Z :=
  (to_serializable (e_state e), st_last_seq (e_store e)).

Definition apply_snapshot_state e (snap : SerializableState D) : Engine D St :=
  with_state e (restore_from_serializable (e_state e) snap).

Definition compact_events_before (env : StoreEnv) e (before : Z) : Engine D St * result unit EventError :=
  let '(st, r) := st_compact_before env (e_store e) before in (with_store e st, r).

Definition register_pair_without_event e (pair : Str) (config : PairConfig D) : Engine D St :=
  with_state e (set_pairs (e_state e) (<[pair := config]> (es_pair_tokens (e_state e)))).

(** [as_millis() as u64]. *)
Definition as_millis (d : Duration) : Z := wrap64 (d / 1000000).

Definition pair_registered (key : Str) (c : PairConfig D) : EventData D :=
  PairRegistered key (fmt_address (base_token c)) (fmt_address (quote_token c)) (min_order_size c)
    (tick_size c) (option_map as_millis (auction_interval c)) (base_decimals c) (quote_decimals c).

Definition register_pair_with_event (env : StoreEnv) (now : DateTime) e (pair : Str) (config : PairConfig D) :
    Engine D St * result Str (EngineError D) :=
  match Pair.parse pair with
  | Err err => (e, Err (Validation err))
  | Ok key =>
    if bool_decide (is_Some (es_pair_tokens (e_state e) !! key)) then (e, Err (Validation (PairAlreadyRegistered key)))
    else
      match st_append env (e_store e) [new_event now (pair_registered key config)] with
      | (st, Err err) => (with_store e st, Err (EventErr err))
      | (st, Ok _) =>
        let s := e_state e in
        (with_state (with_store e st) (set_pairs s (<[key := config]> (es_pair_tokens s))), Ok key)
      end
  end.

Definition suspend_pair (env : StoreEnv) (now : DateTime) e (pair : Str) : Engine D St * result unit (EngineError D) :=
  match Pair.parse pair with
  | Err err => (e, Err (Validation err))
  | Ok key =>
    match es_pair_tokens (e_state e) !! key with
    | None => (e, Err (Validation (PairNotRegistered key)))
    | Some cfg =>
      match status cfg with
      | Suspended => (e, Ok tt)
      | Delisted => (e, Err (Validation (CannotSuspendDelistedPair key)))
      | Active =>
        match st_append env (e_store e) [new_event now (PairSuspended key)] with
        | (st, Err err) => (with_store e st, Err (EventErr err))
        | (st, Ok _) =>
          let s := e_state e in
          (with_state (with_store e st) (set_pairs s (<[key := set_status cfg Suspended]> (es_pair_tokens s))), Ok tt)
        end
      end
    end
  end.

Definition drop_secret e (i : Uuid) : Engine D St := with_secrets e (delete i (e_secrets e)).

(** Cancel the open orders of a pair and mark it delisted. *)
Definition delist_open (env : StoreEnv) (now : DateTime) e (key : Str) (cfg : PairConfig D) :
    outcome (Engine D St * result nat (EngineError D)) :=
  let s := e_state e in
  let open_ids := Book.order_ids_for (es_book s) key in
  let events := map (fun i => new_event now (OrderCancelled i (str "pair delisted"))) open_ids
    ++ [new_event now (PairDelisted key)] in
  match st_append env (e_store e) events with
  | (st, Err err) => Ret (with_store e st, Err (EventErr err))
  | (st, Ok evs) =>
    book ← foldM Book.apply (es_book s) evs;
    let s' := set_pairs (set_book s book) (<[key := set_status cfg Delisted]> (es_pair_tokens s)) in
    Ret (fold_left drop_secret open_ids (with_state (with_store e st) s'), Ok (length open_ids))
  end.

Definition delist_pair (env : StoreEnv) (now : DateTime) e (pair : Str) :
    outcome (Engine D St * result nat (EngineError D)) :=
  match Pair.parse pair with
  | Err err => Ret (e, Err (Validation err))
  | Ok key =>
    match es_pair_tokens (e_state e) !! key with
    | None => Ret (e, Err (Validation (PairNotRegistered key)))
    | Some cfg =>
      match status cfg with
      | Delisted => Ret (e, Ok 0%nat)
      | _ => delist_open env now e key cfg
      end
    end
  end.

Definition list_pairs e : list (Str * PairConfig D) := hm_iter (es_pair_tokens (e_state e)).

Definition ensure_order_capacity (s : EngineState D) (trader : Address) : result unit (EngineError D) :=
  if MAX_ACTIVE_ORDERS <=? Z.of_nat (Book.active_order_count (es_book s)) then
    Err (Validation (OrderBookCapacityExceeded MAX_ACTIVE_ORDERS))
  else if MAX_ACTIVE_ORDERS_PER_TRADER <=? Z.of_nat (Book.active_order_count_for_trader (es_book s) trader) then
    Err (Validation (TooManyRestingOrdersForTrader MAX_ACTIVE_ORDERS_PER_TRADER))
  else Ok tt.

Definition set_seq (o : Order D) (sq : Z) : Order D :=
  mkOrder (o_id o) (o_trader o) (o_pair o) (o_side o) (o_price o) (o_size o) (o_remaining_size o)
    (o_commitment_key o) (o_encrypted_payload o) (o_submitted_at o) (o_expires_at o) sq.

(** The checks made under the lock that appends and inserts. *)
Definition admission_check (s : EngineState D) (order : Order D) (digest : bytes) (replay : ReplayProtection) :
    result unit (EngineError D) :=
  match option_map status (pair_config s (o_pair order)) with
  | None => Err (Validation (PairNotRegistered (o_pair order)))
  | Some Suspended | Some Delisted => Err (Validation (PairNotAccepting (o_pair order)))
  | Some Active =>
    if bool_decide (digest ∈ es_seen_ciphertexts s) then Err (Validation DuplicateOrder)
    else if bool_decide (rp_nullifier replay ∈ es_spent_nullifiers s) then Err (Validation DuplicateOrder)
    else if bool_decide (rp_order_nonce_digest replay ∈ es_spent_order_nonces s) then Err (Validation DuplicateOrder)
    else ensure_order_capacity s (o_trader order)
  end.

Definition persist_order_placed (env : StoreEnv) e (order : Order D) (secrets : OrderSecrets D)
    (commitment proof ciphertext : bytes) (replay : ReplayProtection) :
    outcome (Engine D St * result Z (EngineError D)) :=
  let digest := ciphertext_digest ciphertext in
  let s := e_state e in
  match admission_check s order digest replay with
  | Err err => Ret (e, Err err)
  | Ok _ =>
    match st_append env (e_store e)
        [new_event (o_submitted_at order) (OrderPlaced (o_id order) commitment proof ciphertext)] with
    | (st, Err err) => Ret (with_store e st, Err (EventErr err))
    | (st, Ok evs) =>
      evt ← or_panic (head evs);
      book ← Book.apply (es_book s) evt;
      let book := Book.insert_order book (set_seq order (ev_seq evt)) in
      let s' := add_spent (set_book s book) digest (rp_nullifier replay) (rp_order_nonce_digest replay) in
      Ret (with_secrets (with_state (with_store e st) s') (<[o_id order := secrets]> (e_secrets e)), Ok (ev_seq evt))
    end
  end.

(** The pair checks of [place_encrypted_order], which also resolve the asset the
    order spends. *)
Definition check_pair (s : EngineState D) (key : Str) (d : DecryptedOrder D) :
    outcome (result (Address * Z) (EngineError D)) :=
  match pair_config s key with
  | None => Ret (Err (Validation (PairNotRegistered key)))
  | Some cfg =>
    match status cfg with
    | Suspended | Delisted => Ret (Err (Validation (PairNotAccepting key)))
    | Active =>
      if dec_gtb (min_order_size cfg) dec_zero && dec_ltb (d_size d) (min_order_size cfg) then
        Ret (Err (Validation (OrderSizeBelowMinimum key (dec_to_string (min_order_size cfg)))))
      else
        on_tick ← (if dec_gtb (tick_size cfg) dec_zero
                   then rem ← or_panic (dec_rem (d_price d) (tick_size cfg)); Ret (dec_is_zero rem)
                   else Ret true);
        if negb on_tick then Ret (Err (Validation (OrderPriceNotOnTick key (dec_to_string (tick_size cfg)))))
        else Ret (Ok match d_side d with
                     | Buy => (quote_token cfg, quote_decimals cfg)
                     | Sell => (base_token cfg, base_decimals cfg)
                     end)
    end
  end.

(** The checks of the plaintext before the registry is consulted. *)
Definition check_plaintext (caller : Address) (d : DecryptedOrder D) : result Str (EngineError D) :=
  if negb (bool_decide (d_trader d = caller)) then
    Err (Validation (TraderAddressMismatch (fmt_address caller) (str "***")))
  else if bool_decide (d_pair d = []) then Err (Validation PairRequired)
  else
    match Pair.parse (d_pair d) with
    | Err err => Err (Validation err)
    | Ok key =>
      if dec_is_sign_negative (d_price d) || dec_is_zero (d_price d) then Err (Validation PriceMustBePositive)
      else if dec_is_sign_negative (d_size d) || dec_is_zero (d_size d) then Err (Validation SizeMustBePositive)
      else if bool_decide (d_commitment_key d = []) then Err (Validation CommitmentKeyRequired)
      else Ok key
    end.

(** The verifier, when installed, sees the public inputs the engine derived. *)
Definition check_proof (verifier : option (bytes -> OrderProofPublics F -> bool)) (proof : bytes)
    (secrets : OrderSecrets D) : result unit (EngineError D) :=
  match verifier with
  | None => Ok tt
  | Some verify =>
    match bytes32_to_scalar (D:=D) (F:=F) (s_commitment secrets), bytes32_to_scalar (D:=D) (F:=F) (s_nullifier secrets) with
    | Ok c, Ok n => if verify proof (mkOrderProofPublics c n) then Ok tt else Err (Validation InvalidOrderProof)
    | _, _ => Err (Validation InvalidOrderProof)
    end
  end.

Definition new_order (env : PlaceEnv D F) (key : Str) (d : DecryptedOrder D) (ciphertext : bytes) (expires_at : DateTime) : Order D :=
  mkOrder (pe_new_id env) (d_trader d) key (d_side d) (d_price d) (d_size d) (d_size d)
    (d_commitment_key d) ciphertext (pe_now env) expires_at 0.

(** From freshness to the derived secrets. *)
Definition derive_prepared (env : PlaceEnv D F) (proof ciphertext : bytes) (key : Str) (d : DecryptedOrder D)
    (spend : Address * Z) : result (Prepared D) (EngineError D) :=
  let? expires_at := validate_order_freshness (d_expires_at_unix_nanos d) (pe_now env) in
  let order := new_order env key d ciphertext expires_at in
  let? salt := parse_order_salt (F:=F) (d_salt d) in
  let? nonce := parse_order_nonce (d_nonce d) in
  match pe_lookup env (o_trader order) (fst spend) (snd spend) with
  | Err err => Err (BalanceLookup err)
  | Ok bp =>
    let? secrets := derive_order_secrets (F:=F) (o_trader order) (side_u8 (o_side order)) (o_price order) (o_size order)
      (fst bp) (snd bp) salt in
    let? _ := check_proof (pe_verifier env) proof secrets in
    Ok (mkPrepared order secrets (mkReplayProtection (s_nullifier secrets) (order_nonce_digest (o_trader order) nonce)))
  end.

(** Everything before the persisting lock scope.  [s_seen] and [s_cfg] are the
    states the two earlier scopes see. *)
Definition prepare_order (env : PlaceEnv D F) (s_seen s_cfg : EngineState D) (proof ciphertext : bytes)
    (caller : Address) : outcome (result (Prepared D) (EngineError D)) :=
  if MAX_ENCRYPTED_PAYLOAD_BYTES <? Z.of_nat (length ciphertext) then
    Ret (Err (Validation (EncryptedPayloadTooLarge MAX_ENCRYPTED_PAYLOAD_BYTES)))
  else if bool_decide (ciphertext_digest ciphertext ∈ es_seen_ciphertexts s_seen) then
    Ret (Err (Validation DuplicateOrder))
  else
    match pe_decrypt env ciphertext with
    | Err err => Ret (Err (DecryptErr err))
    | Ok d =>
      match check_plaintext caller d with
      | Err err => Ret (Err err)
      | Ok key =>
        let! spend := check_pair s_cfg key d in
        Ret (derive_prepared env proof ciphertext key d spend)
      end
    end.

Definition place_encrypted_order (env : PlaceEnv D F) (senv : StoreEnv) (s_seen s_cfg : EngineState D) e
    (proof ciphertext : bytes) (caller : Address) : outcome (Engine D St * result (Order D) (EngineError D)) :=
  prep ← prepare_order env s_seen s_cfg proof ciphertext caller;
  match prep with
  | Err err => Ret (e, Err err)
  | Ok p =>
    res ← persist_order_placed senv e (p_order p) (p_secrets p) (s_commitment (p_secrets p)) proof ciphertext (p_replay p);
    Ret (fst res, let? sq := snd res in Ok (set_seq (p_order p) sq))
  end.

Definition cancel_order (env : StoreEnv) (now : DateTime) e (order_id : Uuid) (reason : option Str) :
    outcome (Engine D St * result unit (EngineError D)) :=
  let reason := default (str "user cancelled") reason in
  let s := e_state e in
  if negb (Book.has_order (es_book s) order_id) then Ret (e, Err (Validation OrderNotFound))
  else
    match st_append env (e_store e) [new_event now (OrderCancelled order_id reason)] with
    | (st, Err err) => Ret (with_store e st, Err (EventErr err))
    | (st, Ok evs) =>
      evt ← or_panic (head evs);
      book ← Book.apply (es_book s) evt;
      Ret (drop_secret (with_state (with_store e st) (set_book s book)) order_id, Ok tt)
    end.

Definition prune_dead_secrets e : Engine D St :=
  with_secrets e (filter (fun p => Book.has_order (es_book (e_state e)) p.1 = true) (e_secrets e)).

(** ** Queries *)

Definition get_order e (i : Uuid) : option (Order D) := Book.find_order (es_book (e_state e)) i.

Definition get_order_book e (pair : Str) : list (Order D) * list (Order D) :=
  (Book.bids (es_book (e_state e)) pair, Book.asks (es_book (e_state e)) pair).

Definition submitted_cmp (a b : Order D) : comparison := Z.compare (o_submitted_at a) (o_submitted_at b).

Definition orders_by_trader e (trader : Address) : list (Order D) :=
  sort_by submitted_cmp
    (List.filter (fun o => bool_decide (o_trader o = trader)) (Book.iter_all (es_book (e_state e)))).

Definition pair_status e (pair : Str) : option PairStatus := option_map status (pair_config (e_state e) pair).

Definition engine_active_order_count e : nat := Book.active_order_count (es_book (e_state e)).

Definition pending_batch_count e : nat := size (es_pending_batches (e_state e)).

(** The loop over the reversed log; it stops once [out] is long enough. *)
Fixpoint history_loop (pair : option Str) (limit : nat) (out : list (AuctionNotification D))
    (log : list (AuctionExecutedRecord D)) : list (AuctionNotification D) :=
  match log with
  | [] => out
  | ae :: log' =>
    if match pair with Some p => negb (bool_decide (r_pair ae = p)) | None => false end
    then history_loop pair limit out log'
    else
      let out := out ++ [record_to_notification ae] in
      if (limit <=? length out)%nat then out else history_loop pair limit out log'
  end.

Definition get_auction_history e (pair : option Str) (limit : nat) : list (AuctionNotification D) :=
  let limit := if (limit =? 0)%nat then 50%nat else limit in
  history_loop pair limit [] (reverse (es_auction_log (e_state e))).
End engine.
