(* ===== verification/Admission.v ===== *)
(** * Admission of orders

    What [place_encrypted_order] of [dp-engine/src/engine.rs] checks before it
    persists an order, as one record of facts ([Accepted]), and the atomic step
    that persists it. *)

From S2P Require Import Prelude Decimal Types Field Auction Events Book Merkle EngineState Engine.
Open Scope Z_scope.

Section admission.
Context {D F St : Type} `{!DecimalOps D, !DecimalLaws D, !FieldOps F, !FieldLaws F, !Poseidon F, !StoreOps D St,
  SHA : !Sha256, HEX : !HexOps, ADDR : !AddressOps} {HI : HashIter}.
Implicit Types (e : Engine D St) (s : EngineState D) (o : Order D) (d : DecryptedOrder D).

(** A value the circuits can encode and that an order may carry. *)
Definition encodable (x : D) : Prop := dp8 x /\ 0 < units x < MAX_UNITS.

(** The secrets of an order are derived from its fields. *)
Definition secrets_of o (sec : OrderSecrets D) : Prop :=
  exists b p salt, derive_order_secrets (F:=F) (o_trader o) (side_u8 (o_side o)) (o_price o) (o_size o) b p salt = Ok sec.

(** Everything that holds of an order that passes the checks: [d] is the
    plaintext, [key] the canonical pair, [cfg] the configuration consulted. *)
Record Accepted (env : PlaceEnv D F) (s_cfg : EngineState D) (proof ciphertext : bytes) (caller : Address)
    (p : Prepared D) (d : DecryptedOrder D) (key : Str) (cfg : PairConfig D) (salt nonce : bytes) : Prop := {
  ac_length : Z.of_nat (length ciphertext) <= MAX_ENCRYPTED_PAYLOAD_BYTES;
  ac_decrypt : pe_decrypt env ciphertext = Ok d;
  ac_trader : d_trader d = caller;
  ac_key : Pair.parse (d_pair d) = Ok key;
  ac_price : encodable (d_price d);
  ac_size : encodable (d_size d);
  ac_cfg : pair_config s_cfg key = Some cfg /\ status cfg = Active;
  ac_min : 0 < units (min_order_size cfg) -> units (min_order_size cfg) <= units (d_size d);
  ac_tick : 0 < units (tick_size cfg) -> (units (tick_size cfg) | units (d_price d));
  ac_expiry : pe_now env < d_expires_at_unix_nanos d <= pe_now env + MAX_TTL;
  ac_order : p_order p = new_order env key d ciphertext (d_expires_at_unix_nanos d);
  ac_salt : parse_order_salt (D:=D) (F:=F) (d_salt d) = Ok salt;
  ac_nonce : parse_order_nonce (D:=D) (d_nonce d) = Ok nonce;
  ac_secrets : exists bp,
    pe_lookup env (d_trader d) (match d_side d with Buy => quote_token cfg | Sell => base_token cfg end)
      (match d_side d with Buy => quote_decimals cfg | Sell => base_decimals cfg end) = Ok bp /\
    derive_order_secrets (F:=F) (d_trader d) (side_u8 (d_side d)) (d_price d) (d_size d) bp.1 bp.2 salt = Ok (p_secrets p);
  ac_proof : forall verify, pe_verifier env = Some verify ->
    exists c n, s_commitment (p_secrets p) = fr_to_bytes32 c /\ s_nullifier (p_secrets p) = fr_to_bytes32 n /\
      verify proof (mkOrderProofPublics c n) = true;
  ac_replay : p_replay p = mkReplayProtection (s_nullifier (p_secrets p)) (order_nonce_digest (d_trader d) nonce)
}.

Lemma encoded_Ok {A} (r : result A (EncodingError D)) a : encoded r = Ok a -> r = Ok a.
Proof. destruct r; simpl; congruence. Qed.

(** Secrets exist only for encodable prices and sizes. *)
Lemma derive_order_secrets_Ok addr sd price sz b p salt sec :
  derive_order_secrets (F:=F) addr sd price sz b p salt = Ok sec ->
  (dp8 price /\ 0 <= units price < MAX_UNITS) /\ (dp8 sz /\ 0 <= units sz < MAX_UNITS) /\
  s_balance sec = b /\ s_position sec = p /\ s_salt sec = salt /\
  exists tid c n sf pf szf, derive_trader_id_bytes (D:=D) (F:=F) addr = Ok (s_trader_id sec) /\
    bytes32_to_scalar (D:=D) (s_trader_id sec) = Ok tid /\
    bytes32_to_scalar (D:=D) salt = Ok sf /\ decimal_to_scalar price = Ok pf /\ decimal_to_scalar sz = Ok szf /\
    c = commit_native (mkOrderCommitmentInput tid (if sd =? 0 then fr_zero else fr_one) pf szf sf) /\
    n = compute_nullifier_native c sf /\
    s_commitment sec = fr_to_bytes32 c /\ s_nullifier sec = fr_to_bytes32 n.
Proof.
  unfold derive_order_secrets, compute_poseidon_commitment_fr, from_decimals.
  destruct (encoded (derive_trader_id_bytes addr)) as [tid|] eqn:Ht; [|done]. apply encoded_Ok in Ht.
  destruct (encoded (bytes32_to_scalar tid)) as [tf|] eqn:Htf; [|done]. apply encoded_Ok in Htf.
  destruct (encoded (bytes32_to_scalar salt)) as [sf|] eqn:Hs; [|done]. apply encoded_Ok in Hs.
  destruct (decimal_to_scalar price) as [pf|] eqn:Hp; [|done].
  destruct (decimal_to_scalar sz) as [szf|] eqn:Hsz; [|done]. cbn [encoded]. intros [= <-].
  pose proof (decimal_to_scalar_Ok _ _ Hp) as (? & ? & _). pose proof (decimal_to_scalar_Ok _ _ Hsz) as (? & ? & _).
  split_and!; try done; try lia. do 6 eexists. split_and!; done.
Qed.

Lemma check_plaintext_Ok caller d key :
  check_plaintext caller d = Ok key ->
  d_trader d = caller /\ Pair.parse (d_pair d) = Ok key /\ 0 < units (d_price d) /\ 0 < units (d_size d).
Proof.
  assert (forall x : D, dec_is_sign_negative x || dec_is_zero x = false -> 0 < units x) as Hpos.
  { intros x [Hn Hz]%orb_false_iff. unfold dec_is_zero in Hz. apply dec_eqb_neq in Hz. rewrite units_zero in Hz.
    destruct (Z.lt_total (units x) 0) as [Hx|[?|?]]; [|lia|done]. by rewrite (dec_sign_negative _ Hx) in Hn. }
  unfold check_plaintext. case_bool_decide; simpl; [|done]. case_bool_decide; [done|].
  destruct (Pair.parse (d_pair d)) as [k|]; [|done].
  destruct (_ || _) eqn:Hp; [done|]. destruct (dec_is_sign_negative (d_size d) || _) eqn:Hs; [done|].
  case_bool_decide; [done|]. intros [= ->]. split_and!; auto.
Qed.

Lemma check_pair_Ok s key d spend :
  check_pair s key d = Ret (Ok spend) ->
  exists cfg, pair_config s key = Some cfg /\ status cfg = Active /\
    (0 < units (min_order_size cfg) -> units (min_order_size cfg) <= units (d_size d)) /\
    (0 < units (tick_size cfg) -> (units (tick_size cfg) | units (d_price d))) /\
    spend = match d_side d with Buy => (quote_token cfg, quote_decimals cfg) | Sell => (base_token cfg, base_decimals cfg) end.
Proof.
  unfold check_pair. destruct (pair_config s key) as [cfg|]; [|done]. intros Hck. exists cfg. revert Hck.
  destruct (status cfg); try done. destruct (_ && _) eqn:Hmin; [done|].
  intros (t & Ht & Hck)%outcome_bind_Ret. destruct t; simpl in Hck; [|done]. injection Hck as <-.
  split_and!; [done..| | |done].
  - intros Hpos. apply andb_false_iff in Hmin as [Hm|Hm].
    + unfold dec_gtb in Hm. apply dec_ltb_ge in Hm. rewrite units_zero in Hm. lia.
    + by apply dec_ltb_ge in Hm.
  - intros Hpos. assert (dec_gtb (tick_size cfg) dec_zero = true) as Hg.
    { unfold dec_gtb. apply dec_ltb_spec. by rewrite units_zero. }
    rewrite Hg in Ht. destruct (dec_rem_exact (d_price d) (tick_size cfg)) as (r & Hr & Hu); [lia|].
    rewrite Hr in Ht. simpl in Ht. injection Ht as Ht. unfold dec_is_zero in Ht.
    apply dec_eqb_spec in Ht. rewrite Hu, units_zero in Ht. apply Z.rem_divide; [lia|done].
Qed.

(** The tick test never panics. *)
Lemma check_pair_total s key d : exists r, check_pair s key d = Ret r.
Proof.
  unfold check_pair. destruct (pair_config s key) as [cfg|]; [|by eauto]. destruct (status cfg); [|by eauto..].
  destruct (_ && _); [by eauto|]. destruct (dec_gtb (tick_size cfg) dec_zero) eqn:Hg; simpl; [|by eauto].
  unfold dec_gtb in Hg. apply dec_ltb_spec in Hg. rewrite units_zero in Hg.
  destruct (dec_rem_exact (d_price d) (tick_size cfg)) as (r & -> & _); [lia|]. simpl.
  destruct (dec_is_zero r); simpl; eauto.
Qed.

Lemma check_proof_Ok verifier proof (sec : OrderSecrets D) :
  check_proof (F:=F) verifier proof sec = Ok tt ->
  forall verify, verifier = Some verify -> exists c n, s_commitment sec = fr_to_bytes32 c /\
    s_nullifier sec = fr_to_bytes32 n /\ verify proof (mkOrderProofPublics c n) = true.
Proof.
  intros Hck verify ->. revert Hck. unfold check_proof.
  destruct (bytes32_to_scalar (s_commitment sec)) as [c|] eqn:Hc; [|done].
  destruct (bytes32_to_scalar (s_nullifier sec)) as [n|] eqn:Hn; [|done].
  destruct (verify _ _) eqn:Hv; [|done]. intros _.
  exists c, n. split_and!; [by apply bytes32_to_scalar_Ok in Hc|by apply bytes32_to_scalar_Ok in Hn|done].
Qed.

Lemma validate_order_freshness_Ok n now x :
  validate_order_freshness (D:=D) n now = Ok x -> x = n /\ now < n <= now + MAX_TTL.
Proof.
  unfold validate_order_freshness, order_expiry_from_unix_nanos. destruct (_ <=? 0); [done|].
  destruct (Z.leb_spec n now); [done|]. destruct (Z.ltb_spec (now + MAX_TTL) n); [done|]. intros [= <-]. lia.
Qed.

Lemma prepare_order_Ok env s_seen s_cfg proof ciphertext caller p :
  prepare_order env s_seen s_cfg proof ciphertext caller = Ret (Ok p) ->
  exists d key cfg salt nonce, Accepted env s_cfg proof ciphertext caller p d key cfg salt nonce.
Proof.
  unfold prepare_order. destruct (Z.ltb_spec MAX_ENCRYPTED_PAYLOAD_BYTES (Z.of_nat (length ciphertext))); [done|].
  case_bool_decide; [done|]. destruct (pe_decrypt env ciphertext) as [d|] eqn:Hdec; [|done].
  destruct (check_plaintext caller d) as [key|] eqn:Hpl; [|done].
  apply check_plaintext_Ok in Hpl as (Htr & Hkey & Hprice & Hsize).
  destruct (check_pair s_cfg key d) as [[spend|]|] eqn:Hpair; [|done..].
  apply check_pair_Ok in Hpair as (cfg & Hcfg & Hact & Hmin & Htick & ->). cbn [mbind outcome_bind].
  unfold derive_prepared.
  destruct (validate_order_freshness _ _) as [x|] eqn:Hfr; [|done]. apply validate_order_freshness_Ok in Hfr as [-> Hfr].
  destruct (parse_order_salt _) as [salt|] eqn:Hsalt; [|done].
  destruct (parse_order_nonce _) as [nonce|] eqn:Hnonce; [|done].
  destruct (pe_lookup _ _ _ _) as [bp|] eqn:Hlk; [|done].
  destruct (derive_order_secrets _ _ _ _ _ _ _) as [sec|] eqn:Hsec; [|done].
  destruct (check_proof _ _ _) as [[]|] eqn:Hck; [|done]. intros [= <-].
  cbn [new_order o_trader o_side o_price o_size] in *.
  pose proof (derive_order_secrets_Ok _ _ _ _ _ _ _ _ Hsec) as ((? & ?) & (? & ?) & _).
  exists d, key, cfg, salt, nonce. split; try done; try (split; (done || lia)).
  - exists bp. split; [|done]. by destruct (d_side d).
  - by apply check_proof_Ok.
Qed.

Lemma prepare_order_total env s_seen s_cfg proof ciphertext caller :
  exists r, prepare_order env s_seen s_cfg proof ciphertext caller = Ret r.
Proof.
  unfold prepare_order. destruct (_ <? _); [by eauto|]. case_bool_decide; [by eauto|].
  destruct (pe_decrypt env ciphertext) as [d|]; [|by eauto]. destruct (check_plaintext caller d) as [key|]; [|by eauto].
  destruct (check_pair_total s_cfg key d) as ([spend|] & ->); simpl; eauto.
Qed.

(** The order that is persisted is admissible for the auction. *)
Lemma accepted_order env s_cfg proof ciphertext caller p d key cfg salt nonce :
  Accepted env s_cfg proof ciphertext caller p d key cfg salt nonce ->
  bounded_order (p_order p) /\ 0 < rem_units (p_order p) /\ secrets_of (p_order p) (p_secrets p) /\
  o_id (p_order p) = pe_new_id env /\ o_pair (p_order p) = key.
Proof.
  intros [? ? ? ? [? ?] [? ?] ? ? ? ? -> ? ? (bp & _ & Hsec) ? ?]. unfold bounded_order, rem_units; simpl.
  split_and!; try done; try lia. by exists bp.1, bp.2, salt.
Qed.
End admission.
