(* ===== verification/Witness.v ===== *)
(** * Witnesses and the inputs of a fold step

    [dp-zk/src/witness.rs] and the native half of [dp-zk/src/step_circuit.rs]: the
    witness of a batch as the engine builds it, and its conversion to the rows a
    fold step proves, with the admitted-set membership paths.  A witness carries
    scalars as strings, so printing and parsing are modelled too. *)

From S2P Require Import Prelude Decimal Types Field Auction Events Book Merkle EngineState Engine.
Open Scope Z_scope.

(** ** 128-bit integers as text *)

Fixpoint dec_digits (fuel : nat) (z : Z) : Str :=
  match fuel with
  | O => []
  | S fuel' => if z <? 10 then [48 + z] else dec_digits fuel' (z / 10) ++ [48 + z mod 10]
  end.

(** Forty digits hold any 128-bit integer. *)
Definition i128_to_string (z : Z) : Str :=
  if z <? 0 then 45 :: dec_digits 40 (- z) else dec_digits 40 z.

Definition is_digit (c : Z) : bool := (48 <=? c) && (c <=? 57).

Definition digits_value (s : Str) : Z := fold_left (fun acc c => acc * 10 + (c - 48)) s 0.

(** The parser overflows in an intermediate step exactly when the value does. *)
Definition parse_i128 (s : Str) : option Z :=
  let '(neg, ds) := match s with
                    | c :: s' => if c =? 45 then (true, s') else if c =? 43 then (false, s') else (false, s)
                    | [] => (false, [])
                    end in
  if bool_decide (ds = []) || negb (forallb is_digit ds) then None
  else
    let v := if neg : bool then - digits_value ds else digits_value ds in
    if (- 2 ^ 127 <=? v) && (v <? 2 ^ 127) then Some v else None.

(** [trim_start_matches] with the two characters of a hex prefix. *)
Fixpoint trim_0x (s : Str) : Str :=
  match s with
  | c1 :: c2 :: s' => if (c1 =? 48) && (c2 =? 120) then trim_0x s' else s
  | _ => s
  end.

(** ** [witness.rs] *)

Record OrderLegWitness (D : Type) := mkLeg {
  w_trader_id : Str;
  w_salt : Str;
  w_balance : D;
  w_position : Str;
  w_limit_price : D;
  w_order_size : D;
  w_side : Z;
  w_trader_addr : Str
}.
Arguments mkLeg {D}.
Arguments w_trader_id {D}.
Arguments w_salt {D}.
Arguments w_balance {D}.
Arguments w_position {D}.
Arguments w_limit_price {D}.
Arguments w_order_size {D}.
Arguments w_side {D}.
Arguments w_trader_addr {D}.

Record MatchWitness (D : Type) := mkMatchWitness { mw_bid : OrderLegWitness D; mw_ask : OrderLegWitness D }.
Arguments mkMatchWitness {D}.
Arguments mw_bid {D}.
Arguments mw_ask {D}.

Record Policy (D : Type) := mkPolicy { pol_min_size : D; pol_min_price : D; pol_position_limit : Str }.
Arguments mkPolicy {D}.
Arguments pol_min_size {D}.
Arguments pol_min_price {D}.
Arguments pol_position_limit {D}.

Record BatchWitness (D : Type) := mkBatchWitness {
  bw_batch_id : Uuid;
  bw_auction_id : Uuid;
  bw_matches : list (MatchWitness D);
  bw_policy : Policy D
}.
Arguments mkBatchWitness {D}.
Arguments bw_batch_id {D}.
Arguments bw_auction_id {D}.
Arguments bw_matches {D}.
Arguments bw_policy {D}.

(** ** [step_circuit.rs], native data *)

Definition IVC_BATCH_SIZE : nat := 8.

Record CircuitMatchNative (F : Type) := mkRow {
  c_bid_trader : F; c_bid_salt : F; c_bid_limit_price : F; c_bid_side : F;
  c_bid_balance : F; c_bid_position : F; c_bid_trader_addr : F; c_bid_order_size : F;
  c_ask_trader : F; c_ask_salt : F; c_ask_limit_price : F; c_ask_side : F;
  c_ask_balance : F; c_ask_position : F; c_ask_trader_addr : F; c_ask_order_size : F;
  c_match_price : F; c_match_size : F; c_is_active : F;
  c_bid_path : MerkleProof F; c_ask_path : MerkleProof F
}.
Arguments mkRow {F}.
Arguments c_bid_trader {F}.
Arguments c_bid_salt {F}.
Arguments c_bid_limit_price {F}.
Arguments c_bid_side {F}.
Arguments c_bid_balance {F}.
Arguments c_bid_position {F}.
Arguments c_bid_trader_addr {F}.
Arguments c_bid_order_size {F}.
Arguments c_ask_trader {F}.
Arguments c_ask_salt {F}.
Arguments c_ask_limit_price {F}.
Arguments c_ask_side {F}.
Arguments c_ask_balance {F}.
Arguments c_ask_position {F}.
Arguments c_ask_trader_addr {F}.
Arguments c_ask_order_size {F}.
Arguments c_match_price {F}.
Arguments c_match_size {F}.
Arguments c_is_active {F}.
Arguments c_bid_path {F}.
Arguments c_ask_path {F}.

Record AuctionExternalInputs (F : Type) := mkInputs {
  ai_min_size : F;
  ai_min_price : F;
  ai_position_limit : F;
  ai_clearing_price : F;
  ai_admitted_root : F;
  ai_matches : list (CircuitMatchNative F)
}.
Arguments mkInputs {F}.
Arguments ai_min_size {F}.
Arguments ai_min_price {F}.
Arguments ai_position_limit {F}.
Arguments ai_clearing_price {F}.
Arguments ai_admitted_root {F}.
Arguments ai_matches {F}.

Section witness.
Context {D F : Type} `{!DecimalOps D, !FieldOps F, !Poseidon F, !HexOps}.

Definition into_policy : Policy D := mkPolicy (dec_new 1 8) (dec_new 1 8) (i128_to_string (2 ^ 58)).

Definition empty_witness (batch_id auction_id : Uuid) : BatchWitness D :=
  mkBatchWitness batch_id auction_id [] into_policy.

(** The scalar of a signed integer.  The source negates a 128-bit integer and
    reads it as unsigned; a decimal is built for the error only when one exists. *)
Definition signed_to_scalar (x : Z) : outcome (result F (EncodingError D)) :=
  let abs := if x =? - 2 ^ 127 then x else Z.abs x in
  if MAX_ENCODED <=? abs then (if Z.abs x <? 2 ^ 96 then Ret (Err (Overflow (dec_of_Z x))) else Panic)
  else if 0 <=? x then Ret (Ok (fr_of_Z x))
  else Ret (Ok (fr_neg (fr_of_Z ((- x) mod 2 ^ 128)))).

Definition trader_id_bytes (w : OrderLegWitness D) : option bytes := hex_decode (trim_0x (w_trader_id w)).
Definition salt_bytes (w : OrderLegWitness D) : option bytes := hex_decode (trim_0x (w_salt w)).
Definition trader_addr_bytes (w : OrderLegWitness D) : option bytes := hex_decode (trim_0x (w_trader_addr w)).

Definition position_scalar (w : OrderLegWitness D) : outcome (result F (EncodingError D)) :=
  match parse_i128 (w_position w) with
  | None => Ret (Err (Overflow dec_zero))
  | Some p => signed_to_scalar p
  end.

(** A step of [build_rows] that decodes text and maps its error to a message. *)
Definition text_scalar (b : option bytes) (to_scalar : bytes -> result F (EncodingError D)) (msg : Str) :
    result F ZkError :=
  match b with
  | None => Err (ZkWitness msg)
  | Some b => match to_scalar b with Ok f => Ok f | Err _ => Err (ZkWitness msg) end
  end.

Definition zk {A} (r : result A (EncodingError D)) : result A ZkError :=
  match r with Ok a => Ok a | Err _ => Err ZkEncoding end.

Definition zk_outcome {A} (r : outcome (result A (EncodingError D))) : outcome (result A ZkError) :=
  match r with Ret r' => Ret (zk r') | Panic => Panic end.

(** ** Rows *)

Definition default_row : CircuitMatchNative F :=
  mkRow fr_zero fr_zero fr_zero fr_zero fr_zero fr_zero fr_zero fr_zero
    fr_zero fr_zero fr_zero fr_one fr_zero fr_zero fr_zero fr_zero
    fr_zero fr_zero fr_zero default_proof default_proof.

Definition set_paths (r : CircuitMatchNative F) (bid_path ask_path : MerkleProof F) : CircuitMatchNative F :=
  mkRow (c_bid_trader r) (c_bid_salt r) (c_bid_limit_price r) (c_bid_side r) (c_bid_balance r)
    (c_bid_position r) (c_bid_trader_addr r) (c_bid_order_size r) (c_ask_trader r) (c_ask_salt r)
    (c_ask_limit_price r) (c_ask_side r) (c_ask_balance r) (c_ask_position r) (c_ask_trader_addr r)
    (c_ask_order_size r) (c_match_price r) (c_match_size r) (c_is_active r) bid_path ask_path.

Definition set_inputs_matches (i : AuctionExternalInputs F) (root : F) (rows : list (CircuitMatchNative F)) :=
  mkInputs (ai_min_size i) (ai_min_price i) (ai_position_limit i) (ai_clearing_price i) root rows.

(** One iteration of the loop of [build_rows]. *)
Definition build_row (m : MatchWitness D) (price sz : D) : outcome (result (CircuitMatchNative F) ZkError) :=
  let! bid_trader := Ret (text_scalar (trader_id_bytes (mw_bid m)) bytes32_to_scalar (str "bid trader_id")) in
  let! bid_salt := Ret (text_scalar (salt_bytes (mw_bid m)) bytes32_to_scalar (str "bid salt")) in
  let! ask_trader := Ret (text_scalar (trader_id_bytes (mw_ask m)) bytes32_to_scalar (str "ask trader_id")) in
  let! ask_salt := Ret (text_scalar (salt_bytes (mw_ask m)) bytes32_to_scalar (str "ask salt")) in
  let! bid_limit_price := Ret (zk (decimal_to_scalar (w_limit_price (mw_bid m)))) in
  let! bid_balance := Ret (zk (decimal_to_scalar (w_balance (mw_bid m)))) in
  let! bid_position := zk_outcome (position_scalar (mw_bid m)) in
  let! bid_trader_addr := Ret (text_scalar (trader_addr_bytes (mw_bid m)) bytes_to_scalar (str "bid trader_addr")) in
  let! bid_order_size := Ret (zk (decimal_to_scalar (w_order_size (mw_bid m)))) in
  let! ask_limit_price := Ret (zk (decimal_to_scalar (w_limit_price (mw_ask m)))) in
  let! ask_balance := Ret (zk (decimal_to_scalar (w_balance (mw_ask m)))) in
  let! ask_position := zk_outcome (position_scalar (mw_ask m)) in
  let! ask_trader_addr := Ret (text_scalar (trader_addr_bytes (mw_ask m)) bytes_to_scalar (str "ask trader_addr")) in
  let! ask_order_size := Ret (zk (decimal_to_scalar (w_order_size (mw_ask m)))) in
  let! match_price := Ret (zk (decimal_to_scalar price)) in
  let! match_size := Ret (zk (decimal_to_scalar sz)) in
  Ret (Ok (mkRow bid_trader bid_salt bid_limit_price (fr_of_Z (w_side (mw_bid m))) bid_balance bid_position
      bid_trader_addr bid_order_size ask_trader ask_salt ask_limit_price (fr_of_Z (w_side (mw_ask m)))
      ask_balance ask_position ask_trader_addr ask_order_size match_price match_size fr_one
      default_proof default_proof)).

Fixpoint build_row_list (ms : list (MatchWitness D)) (prices sizes : list D) :
    outcome (result (list (CircuitMatchNative F)) ZkError) :=
  match ms with
  | [] => Ret (Ok [])
  | m :: ms' =>
    price ← or_panic (head prices);
    sz ← or_panic (head sizes);
    let! row := build_row m price sz in
    let! rows := build_row_list ms' (tail prices) (tail sizes) in
    Ret (Ok (row :: rows))
  end.

Definition build_rows (w : BatchWitness D) (match_prices match_sizes : list D) (batch_size : nat) :
    outcome (result (AuctionExternalInputs F) ZkError) :=
  if (IVC_BATCH_SIZE <? batch_size)%nat then Ret (Err (ZkWitness (str "batch_size exceeds circuit width")))
  else if (batch_size <? length (bw_matches w))%nat then Ret (Err (ZkWitness (str "matches > circuit batch_size")))
  else if negb (length (bw_matches w) =? length match_prices)%nat || negb (length match_prices =? length match_sizes)%nat
  then Ret (Err (ZkWitness (str "match_prices/match_sizes length mismatch")))
  else
    let! min_size := Ret (zk (decimal_to_scalar (pol_min_size (bw_policy w)))) in
    let! min_price := Ret (zk (decimal_to_scalar (pol_min_price (bw_policy w)))) in
    let! pos_limit_i := Ret match parse_i128 (pol_position_limit (bw_policy w)) with
                            | Some p => Ok p
                            | None => Err (ZkWitness (str "policy.position_limit invalid"))
                            end in
    let! position_limit := zk_outcome (signed_to_scalar pos_limit_i) in
    let! rows := build_row_list (bw_matches w) match_prices match_sizes in
    let rows := rows ++ replicate (batch_size - length rows) default_row in
    let! clearing_price := Ret match match_prices with
                               | p :: _ => zk (decimal_to_scalar p)
                               | [] => Ok fr_zero
                               end in
    Ret (Ok (mkInputs min_size min_price position_limit clearing_price fr_zero rows)).

Definition leaf_of (r : CircuitMatchNative F) (is_bid : bool) : F :=
  commit_native
    (if is_bid
     then mkOrderCommitmentInput (c_bid_trader r) (c_bid_side r) (c_bid_limit_price r) (c_bid_order_size r) (c_bid_salt r)
     else mkOrderCommitmentInput (c_ask_trader r) (c_ask_side r) (c_ask_limit_price r) (c_ask_order_size r) (c_ask_salt r)).

(** The membership path of one leg. *)
Definition leg_path (admitted : list F) (leaf : F) (msg : Str) : outcome (result (MerkleProof F) ZkError) :=
  let! found := admitted_set_proof admitted leaf in
  Ret match found with Some (_, path) => Ok path | None => Err (ZkWitness msg) end.

Fixpoint attach_paths (admitted : list F) (rows : list (CircuitMatchNative F)) :
    outcome (result (list (CircuitMatchNative F)) ZkError) :=
  match rows with
  | [] => Ret (Ok [])
  | r :: rows' =>
    if negb (fr_eqb (c_is_active r) fr_one) then
      let! rest := attach_paths admitted rows' in
      Ret (Ok (r :: rest))
    else
      let! bid_path := leg_path admitted (leaf_of r true) (str "matched bid leg absent from admitted set") in
      let! ask_path := leg_path admitted (leaf_of r false) (str "matched ask leg absent from admitted set") in
      let! rest := attach_paths admitted rows' in
      Ret (Ok (set_paths r bid_path ask_path :: rest))
  end.

Definition attach_membership (i : AuctionExternalInputs F) (admitted : list F) :
    outcome (result (AuctionExternalInputs F) ZkError) :=
  let! root := admitted_set_root admitted in
  let! rows := attach_paths admitted (ai_matches i) in
  Ret (Ok (set_inputs_matches i root rows)).

Definition from_witness (w : BatchWitness D) (match_prices match_sizes : list D) (batch_size : nat) :
    outcome (result (AuctionExternalInputs F) ZkError) :=
  let! ext := build_rows w match_prices match_sizes batch_size in
  attach_membership ext (flat_map (fun r => [leaf_of r true; leaf_of r false])
    (List.filter (fun r => fr_eqb (c_is_active r) fr_one) (ai_matches ext))).

Definition from_witness_with_admitted (w : BatchWitness D) (match_prices match_sizes : list D) (batch_size : nat)
    (admitted : list F) : outcome (result (AuctionExternalInputs F) ZkError) :=
  let! ext := build_rows w match_prices match_sizes batch_size in
  attach_membership ext admitted.
End witness.
