(* ===== verification/Tick.v ===== *)
(** * The auction tick

    The matching half of [dp-engine/src/tick.rs] — [tick_under_lock] with its
    expiry sweep, the auction of every active pair and the chunking of a round —
    and the functions of [engine.rs] that build the witness of a chunk. *)

From S2P Require Import Prelude Decimal Types Field Auction Events Book Merkle EngineState Engine Witness.
Open Scope Z_scope.

Record PendingAggregation (D : Type) := mkPendingAggregation {
  pa_batch_id : Uuid;
  pa_auction_id : Uuid;
  pa_pair : Str;
  pa_matches : list (Match D);
  pa_orders : gmap Uuid (Order D);
  pa_admitted_order_ids : list Uuid;
  pa_auction_at : DateTime
}.
Arguments mkPendingAggregation {D}.
Arguments pa_batch_id {D}.
Arguments pa_auction_id {D}.
Arguments pa_pair {D}.
Arguments pa_matches {D}.
Arguments pa_orders {D}.
Arguments pa_admitted_order_ids {D}.
Arguments pa_auction_at {D}.

(** What the runtime supplies to a tick: the clock, the environment of each
    append, and fresh identifiers per pair and chunk. *)
Record TickEnv := mkTickEnv {
  te_now : DateTime;
  te_expire_env : StoreEnv;
  te_append_env : Str -> StoreEnv;
  te_auction_id : Str -> Uuid;
  te_batch_id : Str -> nat -> Uuid
}.

(** Strings compare by their characters. *)
Fixpoint str_cmp (a b : Str) : comparison :=
  match a, b with
  | [], [] => Eq
  | [], _ => Lt
  | _, [] => Gt
  | x :: a', y :: b' => match Z.compare x y with Eq => str_cmp a' b' | c => c end
  end.

(** [chunks(n)]: at most one chunk per element. *)
Fixpoint chunks_loop {A} (fuel n : nat) (l : list A) : list (list A) :=
  match fuel, l with
  | S fuel', _ :: _ => take n l :: chunks_loop fuel' n (drop n l)
  | _, _ => []
  end.

(** A chunk size of zero panics. *)
Definition chunks {A} (n : nat) (l : list A) : outcome (list (list A)) :=
  if (n =? 0)%nat then Panic else Ret (chunks_loop (length l) n l).

Section tick.
Context {D F St : Type} `{!DecimalOps D, !FieldOps F, !Poseidon F, !StoreOps D St, !HexOps} {HI : HashIter}.
Implicit Types e : Engine D St.

Definition clearing_price_encodable (r : AuctionResult D) : result unit (EncodingError D) :=
  let? _ := decimal_to_scalar (F:=F) (clearing_price r) in Ok tt.

(** Persist and apply the expiry of every expired order; a failed append is
    logged and changes nothing. *)
Definition expire_orders (env : TickEnv) e : outcome (Engine D St) :=
  let s := e_state e in
  match Book.collect_expired (es_book s) (te_now env) with
  | [] => Ret e
  | expired =>
    let expired := map (fun ev => mkEvent (ev_seq ev) (ev_type ev) (te_now env) (ev_data ev)) expired in
    match st_append (te_expire_env env) (e_store e) expired with
    | (st, Err _) => Ret (with_store e st)
    | (st, Ok evs) =>
      book ← foldM Book.apply (es_book s) evs;
      Ret (with_state (with_store e st) (set_book s book))
    end
  end.

Definition active_pairs (s : EngineState D) : list Str :=
  sort_by str_cmp (map fst (List.filter (fun pc => is_active (status pc.2)) (hm_iter (es_pair_tokens s)))).

(** The events of one round. *)
Definition round_events (now : DateTime) (r : AuctionResult D) : list (Event D) :=
  new_event now (AuctionExecuted (auction_id r) (auction_pair r) (clearing_price r) (matched_volume r)
    (wrap32 (Z.of_nat (length (matches r)))) now)
  :: map (fun m => new_event now
       (OrderMatched (auction_id r) (match_bid_fill m) (match_ask_fill m) (match_price m) (match_size m))) (matches r).

(** The orders of the matches, before any fill is applied. *)
Definition order_snapshot (book : Book.Inner D) (ms : list (Match D)) : gmap Uuid (Order D) :=
  fold_left (fun snap m =>
    let snap := match Book.find_order book (fill_order_id (match_bid_fill m)) with
                | Some o => <[o_id o := o]> snap | None => snap end in
    match Book.find_order book (fill_order_id (match_ask_fill m)) with
    | Some o => <[o_id o := o]> snap | None => snap end) ms ∅.

Definition round_record (now : DateTime) (r : AuctionResult D) : AuctionExecutedRecord D :=
  mkRecord (auction_id r) (auction_pair r) (clearing_price r) (matched_volume r)
    (wrap32 (Z.of_nat (length (matches r)))) now.

Definition round_chunks (env : TickEnv) (pair : Str) (r : AuctionResult D) (orders : gmap Uuid (Order D))
    (admitted : list Uuid) (cs : list (list (Match D))) : list (PendingAggregation D) :=
  imap (fun i chunk => mkPendingAggregation (te_batch_id env pair i) (auction_id r) (auction_pair r) chunk orders
    admitted (te_now env)) cs.

(** What a tick accumulates. *)
Definition TickAcc : Type := Engine D St * list (AuctionNotification D) * list (PendingAggregation D).

(** One iteration of the loop over the active pairs. *)
Definition tick_pair (env : TickEnv) (acc : TickAcc) (pair : Str) : outcome TickAcc :=
  let '(e, notifications, pending) := acc in
  let s := e_state e in
  let bids := Book.bids (es_book s) pair in
  let asks := Book.asks (es_book s) pair in
  let admitted_order_ids := map o_id (bids ++ asks) in
  res ← Auction.run (te_auction_id env pair) pair bids asks;
  match res with
  | None => Ret acc
  | Some r =>
    match clearing_price_encodable r with
    | Err _ => Ret acc
    | Ok _ =>
      let orders := order_snapshot (es_book s) (matches r) in
      match st_append (te_append_env env pair) (e_store e) (round_events (te_now env) r) with
      | (st, Err _) => Ret (with_store e st, notifications, pending)
      | (st, Ok evs) =>
        let record := round_record (te_now env) r in
        book ← foldM Book.apply (es_book s) evs;
        let round_matches := map (fun m => order_matched_to_match (match_bid_fill m) (match_ask_fill m)
          (match_price m) (match_size m)) (matches r) in
        cs ← chunks (e_batch_size e) round_matches;
        Ret (with_state (with_store e st) (set_book (set_log s (es_auction_log s ++ [record])) book),
             notifications ++ [record_to_notification record],
             pending ++ round_chunks env pair r orders admitted_order_ids cs)
      end
    end
  end.

Definition tick_under_lock (env : TickEnv) e : outcome TickAcc :=
  e ← expire_orders env e;
  foldM (tick_pair env) (e, [], []) (active_pairs (e_state e)).

(** ** The witness of a chunk *)

Definition leg_witness_from (secret : OrderSecrets D) (order : Order D) (side : Z) : OrderLegWitness D :=
  mkLeg (hex_encode (s_trader_id secret)) (hex_encode (s_salt secret)) (s_balance secret)
    (i128_to_string (s_position secret)) (o_price order) (o_size order) side (hex_encode (o_trader order)).

Definition match_witness (secrets : gmap Uuid (OrderSecrets D)) (orders : gmap Uuid (Order D)) (m : Match D) :
    result (MatchWitness D) (EngineError D) :=
  let bid_id := fill_order_id (match_bid_fill m) in
  let ask_id := fill_order_id (match_ask_fill m) in
  match secrets !! bid_id with
  | None => Err (WitnessSecretMissing bid_id)
  | Some bid_secret =>
    match secrets !! ask_id with
    | None => Err (WitnessSecretMissing ask_id)
    | Some ask_secret =>
      match orders !! bid_id with
      | None => Err (WitnessOrderMissing bid_id)
      | Some bid_order =>
        match orders !! ask_id with
        | None => Err (WitnessOrderMissing ask_id)
        | Some ask_order =>
          Ok (mkMatchWitness (leg_witness_from bid_secret bid_order 0) (leg_witness_from ask_secret ask_order 1))
        end
      end
    end
  end.

Fixpoint match_witnesses (secrets : gmap Uuid (OrderSecrets D)) (orders : gmap Uuid (Order D)) (ms : list (Match D)) :
    result (list (MatchWitness D)) (EngineError D) :=
  match ms with
  | [] => Ok []
  | m :: ms' =>
    let? w := match_witness secrets orders m in
    let? ws := match_witnesses secrets orders ms' in
    Ok (w :: ws)
  end.

Definition build_batch_witness e (batch_id auction_id : Uuid) (ms : list (Match D)) (orders : gmap Uuid (Order D)) :
    result (BatchWitness D) (EngineError D) :=
  let? ws := match_witnesses (e_secrets e) orders ms in
  Ok (mkBatchWitness batch_id auction_id ws into_policy).

(** The commitment leaves of the admitted orders whose secrets are still held;
    a commitment that is not canonical panics. *)
Fixpoint admitted_commitments (secrets : gmap Uuid (OrderSecrets D)) (ids : list Uuid) : outcome (list F) :=
  match ids with
  | [] => Ret []
  | i :: ids' =>
    match secrets !! i with
    | None => admitted_commitments secrets ids'
    | Some s =>
      match bytes32_to_scalar (D:=D) (F:=F) (s_commitment s) with
      | Err _ => Panic
      | Ok f => fs ← admitted_commitments secrets ids'; Ret (f :: fs)
      end
    end
  end.
End tick.
