(* ===== verification/Batch.v ===== *)
(** * Batches

    [dp-engine/src/batch.rs] and the settling half of [tick.rs]: folding a chunk,
    finalizing a batch, submitting it with retries, and the settlement callback.
    A function whose source releases the state lock in the middle is the
    composition of its lock scopes, each a definition of its own, so that other
    steps may come between them. *)

From S2P Require Import Prelude Decimal Types Field Auction Events Book Merkle EngineState Engine Witness Tick.
Open Scope Z_scope.

(** The final proof of [dp-zk/src/folding.rs]. *)
Record FinalProof (F : Type) := mkFinalProof {
  fp_proof_bytes : bytes;
  fp_z_0 : list F;
  fp_z_n : list F;
  fp_n_steps : Z;
  fp_policy_hash : F
}.
Arguments mkFinalProof {F}.
Arguments fp_proof_bytes {F}.
Arguments fp_z_0 {F}.
Arguments fp_z_n {F}.
Arguments fp_n_steps {F}.
Arguments fp_policy_hash {F}.

(** What a submitter is given. *)
Inductive SubmitParams (D : Type) :=
| SubmitBatch (batch_id auction_id : Uuid) (proof : bytes) (public_inputs : list Z) (ms : list (SettlementMatch D))
| SubmitSession (session_id : Uuid) (proof : bytes) (z_0 z_n : list Z) (n_steps : Z) (policy_hash : bytes)
    (auction_id : Uuid) (ms : list (SettlementMatch D)).
Arguments SubmitBatch {D}.
Arguments SubmitSession {D}.

(** The answers of the collaborators and the runtime to one submission;
    [sb_answer] is [None] when the timeout fires first. *)
Record SubmitEnv (D : Type) := mkSubmitEnv {
  sb_answer : SubmitParams D -> option (result Str SettlementError);
  sb_store : StoreEnv;
  sb_now : DateTime;
  sb_instant : Z
}.
Arguments mkSubmitEnv {D}.
Arguments sb_answer {D}.
Arguments sb_store {D}.
Arguments sb_now {D}.
Arguments sb_instant {D}.

(** The answers to one fold. *)
Record FoldEnv (F : Type) := mkFoldEnv {
  fe_fold : Str -> AuctionExternalInputs F -> result unit AggregatorError;
  fe_finalize : Str -> result (FinalProof F) AggregatorError;
  fe_folded_env : StoreEnv;
  fe_submitted_env : StoreEnv;
  fe_now : DateTime
}.
Arguments mkFoldEnv {F}.
Arguments fe_fold {F}.
Arguments fe_finalize {F}.
Arguments fe_folded_env {F}.
Arguments fe_submitted_env {F}.
Arguments fe_now {F}.

Section batch.
Context {D F St : Type} `{!DecimalOps D, !FieldOps F, !Poseidon F, !StoreOps D St, !HexOps} {HI : HashIter}.
Implicit Types e : Engine D St.

(** An update of the pending batches. *)
Definition update_pending e (f : gmap Uuid (PendingBatch D) -> gmap Uuid (PendingBatch D)) : Engine D St :=
  with_state e (set_pending (e_state e) (f (es_pending_batches (e_state e)))).

Definition finalize_pending_batch (env : StoreEnv) e (p : PendingAggregation D) (proof : bytes)
    (public_inputs : list Z) (settlement_matches : list (SettlementMatch D)) :
    outcome (Engine D St * result unit (EngineError D)) :=
  match st_append env (e_store e) [new_event (pa_auction_at p)
      (BatchSubmitted (pa_batch_id p) (pa_auction_id p) [] (wrap32 (Z.of_nat (length (pa_matches p)))) proof)] with
  | (st, Err err) => Ret (with_store e st, Err (EventErr err))
  | (st, Ok evs) =>
    evt ← or_panic (head evs);
    book ← Book.apply (es_book (e_state e)) evt;
    let e := with_state (with_store e st) (set_book (e_state e) book) in
    Ret (update_pending e (insert (pa_batch_id p)
      (mkPendingBatch (pa_batch_id p) (pa_auction_id p) (pa_matches p) settlement_matches proof public_inputs
        None 0 None false)), Ok tt)
  end.

(** ** Submission *)

Definition set_submitting (pb : PendingBatch D) (b : bool) : PendingBatch D :=
  mkPendingBatch (pb_batch_id pb) (pb_auction_id pb) (pb_matches pb) (pb_settlement_matches pb) (pb_proof pb)
    (pb_public_inputs pb) (pb_ivc_payload pb) (pb_attempts pb) (pb_next_attempt pb) b.

Definition set_payload (pb : PendingBatch D) (p : ProofPayload) : PendingBatch D :=
  mkPendingBatch (pb_batch_id pb) (pb_auction_id pb) (pb_matches pb) (pb_settlement_matches pb) (pb_proof pb)
    (pb_public_inputs pb) (Some p) (pb_attempts pb) (pb_next_attempt pb) (pb_submitting pb).

(** First scope: take the submitting flag and a copy of the batch. *)
Definition submit_begin e (batch_id : Uuid) : Engine D St * option (PendingBatch D) :=
  match es_pending_batches (e_state e) !! batch_id with
  | None => (e, None)
  | Some pb =>
    if pb_submitting pb then (e, None)
    else (update_pending e (insert batch_id (set_submitting pb true)), Some pb)
  end.

(** The poison check. *)
Definition poisoned (pb : PendingBatch D) : bool :=
  match pb_ivc_payload pb with
  | Some _ => false
  | None => forallb (fun u => u =? 0) (pb_public_inputs pb)
  end.

Definition submit_params (batch_id : Uuid) (pb : PendingBatch D) : SubmitParams D :=
  match pb_ivc_payload pb with
  | Some (IvcFinal proof_bytes z_0 z_n n_steps policy_hash) =>
    SubmitSession batch_id proof_bytes (map be_value z_0) (map be_value z_n) n_steps policy_hash
      (pb_auction_id pb) (pb_settlement_matches pb)
  | None => SubmitBatch batch_id (pb_auction_id pb) (pb_proof pb) (pb_public_inputs pb) (pb_settlement_matches pb)
  end.

(** Attempts saturate at [u32::MAX]. *)
Definition note_submit_failure (instant : Z) e (batch_id : Uuid) : Engine D St :=
  let s := e_state e in
  match es_pending_batches s !! batch_id with
  | None => e
  | Some pb =>
    let attempts := Z.min (pb_attempts pb + 1) u32_max in
    update_pending e (insert batch_id
      (mkPendingBatch (pb_batch_id pb) (pb_auction_id pb) (pb_matches pb) (pb_settlement_matches pb) (pb_proof pb)
        (pb_public_inputs pb) (pb_ivc_payload pb) attempts
        (Some (instant + compute_backoff (es_min_backoff s) (es_max_backoff s) attempts)) false))
  end.

(** The append of [BatchConfirmed], made without the state lock. *)
Definition submit_confirm (env : SubmitEnv D) e (batch_id : Uuid) (tx_hash : Str) :
    Engine D St * result (list (Event D)) (EngineError D) :=
  match st_append (sb_store env) (e_store e) [new_event (sb_now env) (BatchConfirmed batch_id tx_hash)] with
  | (st, Err err) => (note_submit_failure (sb_instant env) (with_store e st) batch_id, Err (EventErr err))
  | (st, Ok evs) => (with_store e st, Ok evs)
  end.

(** Last scope: apply the event and drop the batch.  The settlement callback
    ends the same way. *)
Definition close_batch e (batch_id : Uuid) (evs : list (Event D)) : outcome (Engine D St) :=
  evt ← or_panic (head evs);
  book ← Book.apply (es_book (e_state e)) evt;
  Ret (update_pending (with_state e (set_book (e_state e) book)) (delete batch_id)).

Definition submit_batch (env : SubmitEnv D) e (batch_id : Uuid) : outcome (Engine D St * result unit (EngineError D)) :=
  match submit_begin e batch_id with
  | (e, None) => Ret (e, Ok tt)
  | (e, Some pb) =>
    if poisoned pb then Ret (e, Err (RecoveredBatchPublicInputsMissing batch_id))
    else
      match default (Err (Rpc (str "submit timeout"))) (sb_answer env (submit_params batch_id pb)) with
      | Err err => Ret (note_submit_failure (sb_instant env) e batch_id, Err (SubmitErr err))
      | Ok tx_hash =>
        match submit_confirm env e batch_id tx_hash with
        | (e, Err err) => Ret (e, Err err)
        | (e, Ok evs) => e ← close_batch e batch_id evs; Ret (e, Ok tt)
        end
      end
  end.

(** Retries ignore the result of a submission. *)
Definition submit_each (env : Uuid -> SubmitEnv D) e (ids : list Uuid) : outcome (Engine D St) :=
  foldM (fun e i => r ← submit_batch (env i) e i; Ret (fst r)) e ids.

Definition resubmit_pending_except (env : Uuid -> SubmitEnv D) (now : Z) e (skip : gset Uuid) : outcome (Engine D St) :=
  submit_each env e
    (map fst (List.filter (fun ip => negb (bool_decide (ip.1 ∈ skip)) &&
        match pb_next_attempt ip.2 with Some t => t <=? now | None => true end)
      (hm_iter (es_pending_batches (e_state e))))).

Definition resubmit_pending (env : Uuid -> SubmitEnv D) e : outcome (Engine D St) :=
  submit_each env e (hm_keys (es_pending_batches (e_state e))).

(** The watcher's callback; a failed append is logged and the batch stays. *)
Definition on_batch_settled (env : StoreEnv) (now : DateTime) e (batch_id : Uuid) (block_number : Z) (tx_hash : Str) :
    outcome (Engine D St) :=
  match st_append env (e_store e) [new_event now (BatchSettled batch_id block_number tx_hash)] with
  | (st, Err _) => Ret (with_store e st)
  | (st, Ok evs) => close_batch (with_store e st) batch_id evs
  end.

(** ** The fold loop of [run_auction_tick] *)

Definition resolve_error (err : SettlementResolveErr) : EngineError D :=
  match err with
  | OrderMissing i => WitnessOrderMissing i
  | PairMissing p => PairNotConfigured p
  end.

Fixpoint build_settlement_matches (orders : gmap Uuid (Order D)) (pairs : gmap Str (PairConfig D)) (ms : list (Match D)) :
    result (list (SettlementMatch D)) (EngineError D) :=
  match ms with
  | [] => Ok []
  | m :: ms' =>
    match try_build_settlement_row m orders pairs with
    | Err err => Err (resolve_error err)
    | Ok row => let? rows := build_settlement_matches orders pairs ms' in Ok (row :: rows)
    end
  end.

(** The inputs of the fold of one chunk; [None] when a step fails and the chunk
    is skipped. *)
Definition fold_inputs e (p : PendingAggregation D) : outcome (option (AuctionExternalInputs F)) :=
  match build_batch_witness e (pa_batch_id p) (pa_auction_id p) (pa_matches p) (pa_orders p) with
  | Err _ => Ret None
  | Ok w =>
    admitted ← admitted_commitments (e_secrets e) (pa_admitted_order_ids p);
    ext ← from_witness_with_admitted w (map match_price (pa_matches p)) (map match_size (pa_matches p))
      (e_batch_size e) admitted;
    Ret match ext with Ok i => Some i | Err _ => None end
  end.

(** Advance the round counter and append [BatchFolded], whose failure is logged. *)
Definition record_fold (env : StoreEnv) (now : DateTime) e (p : PendingAggregation D) (root : F) : Engine D St * Z :=
  let round_index := wrap64 (default 0 (e_ivc_round e !! pa_pair p) + 1) in
  let e := with_rounds e (<[pa_pair p := round_index]> (e_ivc_round e)) in
  let '(st, _) := st_append env (e_store e)
    [new_event now (BatchFolded (pa_batch_id p) round_index (pa_pair p) (fr_to_bytes32 root))] in
  (with_store e st, round_index).

Definition ivc_payload (fp : FinalProof F) : ProofPayload :=
  IvcFinal (fp_proof_bytes fp) (map fr_to_bytes32 (fp_z_0 fp)) (map fr_to_bytes32 (fp_z_n fp)) (fp_n_steps fp)
    (fr_to_bytes32 (fp_policy_hash fp)).

(** Finalize a batch once the pair has reached its cadence. *)
Definition finalize_fold (env : FoldEnv F) e (p : PendingAggregation D) : outcome (Engine D St * option Uuid) :=
  match fe_finalize env (pa_pair p) with
  | Err _ => Ret (e, None)
  | Ok fp =>
    match build_settlement_matches (pa_orders p) (es_pair_tokens (e_state e)) (pa_matches p) with
    | Err _ => Ret (e, None)
    | Ok sm =>
      res ← finalize_pending_batch (fe_submitted_env env) e p (fp_proof_bytes fp) zero_inputs sm;
      match res with
      | (e, Err _) => Ret (e, None)
      | (e, Ok _) =>
        Ret (update_pending e (alter (fun pb => set_payload pb (ivc_payload fp)) (pa_batch_id p)), Some (pa_batch_id p))
      end
    end
  end.

Definition fold_pending (env : FoldEnv F) e (p : PendingAggregation D) : outcome (Engine D St * option Uuid) :=
  inputs ← fold_inputs e p;
  match inputs with
  | None => Ret (e, None)
  | Some ext =>
    match fe_fold env (pa_pair p) ext with
    | Err _ => Ret (e, None)
    | Ok _ =>
      let '(e, round_index) := record_fold (fe_folded_env env) (fe_now env) e p (ai_admitted_root ext) in
      if e_finalize_every e =? 0 then Panic
      else if round_index mod e_finalize_every e =? 0 then finalize_fold env e p
      else Ret (e, None)
    end
  end.

Definition fold_all (env : Uuid -> FoldEnv F) e (ps : list (PendingAggregation D)) : outcome (Engine D St * list Uuid) :=
  foldM (fun acc p =>
    let '(e, ids) := acc in
    r ← fold_pending (env (pa_batch_id p)) e p;
    Ret (fst r, ids ++ match snd r with Some i => [i] | None => [] end)) (e, []) ps.

Definition run_auction_tick (tenv : TickEnv) (fenv : Uuid -> FoldEnv F) (senv renv : Uuid -> SubmitEnv D) (now : Z) e :
    outcome (Engine D St * list (AuctionNotification D)) :=
  acc ← tick_under_lock (F:=F) tenv e;
  let '(e, notifications, pending) := acc in
  folded ← fold_all fenv e pending;
  let '(e, ids) := folded in
  e ← submit_each senv e ids;
  e ← resubmit_pending_except renv now e (list_to_set ids);
  Ret (prune_dead_secrets e, notifications).
End batch.
