(* ===== verification/Machine.v ===== *)
(** * The engine as a state machine

    The invariant of the live engine and its preservation.  Each lock scope of
    the source that changes the engine is an operation of [Op]; [exec] runs one.
    From an engine that satisfies the invariant no operation panics and every
    operation leads to an engine that satisfies it again, in any interleaving. *)

From S2P Require Import Prelude Decimal Types Field Auction Events Book Merkle EngineState Engine Admission Witness Tick Batch.
Open Scope Z_scope.

(** Removing several keys. *)
Definition remove_ids {A} (ids : list Uuid) (m : gmap Uuid A) : gmap Uuid A := fold_left (fun m i => delete i m) ids m.

Lemma lookup_remove_ids {A} ids (m : gmap Uuid A) i :
  remove_ids ids m !! i = if decide (i ∈ ids) then None else m !! i.
Proof.
  revert m; induction ids as [|j ids IH]; intros m; [rewrite decide_False; [done|set_solver]|].
  change (remove_ids (j :: ids) m) with (remove_ids ids (delete j m)). rewrite IH. destruct (decide (i = j)) as [->|]; [rewrite lookup_delete_eq|rewrite lookup_delete_ne by done].
  - rewrite (decide_True (P:=j ∈ j :: ids)) by set_solver. by case_decide.
  - destruct (decide (i ∈ ids)); [rewrite decide_True|rewrite decide_False]; (done || (rewrite elem_of_cons; tauto)).
Qed.

(** ** The orders of a live engine *)

Section orders.
Context {D : Type} `{!DecimalOps D, !DecimalLaws D} {HI : HashIter}.
Implicit Types (m : gmap Uuid (Order D)) (o : Order D).

(** The resting orders of one trader. *)
Definition orders_of_trader m (t : Address) : gmap Uuid (Order D) := filter (fun io => o_trader io.2 = t) m.

(** The invariant of the orders: [pairs] is the registry, [last] the newest
    number the store assigned. *)
Record orders_ok (pairs : gmap Str (PairConfig D)) (last : Z) m : Prop := {
  oo_live : live m;
  oo_capacity : Z.of_nat (size m) <= MAX_ACTIVE_ORDERS;
  oo_trader_capacity : forall t, Z.of_nat (size (orders_of_trader m t)) <= MAX_ACTIVE_ORDERS_PER_TRADER;
  oo_size : forall i o, m !! i = Some o -> encodable (o_size o) /\ rem_units o <= units (o_size o);
  oo_pair : forall i o, m !! i = Some o -> exists cfg, pairs !! o_pair o = Some cfg /\ status cfg <> Delisted;
  oo_seq : forall i o, m !! i = Some o -> 0 < o_seq o <= last;
  oo_seq_inj : forall i j o o', m !! i = Some o -> m !! j = Some o' -> o_seq o = o_seq o' -> i = j
}.

(** [m'] has lost orders of [m], or parts of them. *)
Definition shrinks m m' : Prop :=
  forall i o', m' !! i = Some o' ->
    exists o r, m !! i = Some o /\ o' = set_remaining o r /\ units r <= rem_units o.

Lemma shrinks_refl m : shrinks m m.
Proof. intros i o Ho. exists o, (o_remaining_size o). split_and!; [done|by destruct o|done]. Qed.

Lemma shrinks_trans m1 m2 m3 : shrinks m1 m2 -> shrinks m2 m3 -> shrinks m1 m3.
Proof.
  intros H12 H23 i o3 H3. destruct (H23 i o3 H3) as (o2 & r2 & H2 & -> & ?).
  destruct (H12 i o2 H2) as (o1 & r1 & ? & -> & ?). exists o1, r2. split_and!; try done.
  unfold rem_units in *. simpl in *. lia.
Qed.

Lemma shrinks_delete m i : shrinks m (delete i m).
Proof. intros j o [_ Ho]%lookup_delete_Some. by apply shrinks_refl. Qed.

Lemma shrinks_filled fs m m' : Forall good_fill fs -> (forall i, filled_by fs i (m !! i) (m' !! i)) -> shrinks m m'.
Proof.
  intros Hg Hf i o' Ho'. specialize (Hf i). rewrite Ho' in Hf. unfold filled_by in Hf.
  destruct (m !! i) as [o|]; [|done]. destruct Hf as [[_ ?]|(_ & r & [= ->] & Hr)]; [done|].
  pose proof (fill_total_nonneg fs i Hg). exists o, r. split_and!; [done..|lia].
Qed.

Lemma shrinks_size m m' : shrinks m m' -> (size m' <= size m)%nat.
Proof.
  intros Hs. rewrite <- !size_dom. apply subseteq_size. intros i [o Ho]%elem_of_dom.
  destruct (Hs i o Ho) as (o1 & _ & ? & _). apply elem_of_dom. eauto.
Qed.

Lemma shrinks_trader m m' t : shrinks m m' -> shrinks (orders_of_trader m t) (orders_of_trader m' t).
Proof.
  intros Hs i o' [Ho' Ht]%map_lookup_filter_Some. destruct (Hs i o' Ho') as (o & r & Ho & -> & ?).
  exists o, r. split_and!; [|done..]. by apply map_lookup_filter_Some.
Qed.

(** The invariant survives losing orders while the registry keeps their pairs. *)
Lemma orders_ok_shrinks pairs pairs' last last' m m' :
  orders_ok pairs last m -> shrinks m m' -> live m' -> last <= last' ->
  (forall i o, m' !! i = Some o -> pairs' !! o_pair o = pairs !! o_pair o) -> orders_ok pairs' last' m'.
Proof.
  intros [Hl Hc Ht Hsz Hp Hq Hi] Hs Hl' Hle Hpairs. split; [done|..].
  - pose proof (shrinks_size _ _ Hs). lia.
  - intros t. pose proof (shrinks_size _ _ (shrinks_trader _ _ t Hs)). specialize (Ht t). lia.
  - intros i o' Ho'. destruct (Hs i o' Ho') as (o & r & Ho & -> & ?). destruct (Hsz i o Ho) as [? ?].
    split; [done|]. unfold rem_units in *; simpl in *. lia.
  - intros i o' Ho'. rewrite (Hpairs i o' Ho'). destruct (Hs i o' Ho') as (o & r & Ho & -> & ?). exact (Hp i o Ho).
  - intros i o' Ho'. destruct (Hs i o' Ho') as (o & r & Ho & -> & ?). specialize (Hq i o Ho). simpl. lia.
  - intros i j o1 o2 H1 H2. destruct (Hs i o1 H1) as (o1' & r1 & Ho1 & -> & ?).
    destruct (Hs j o2 H2) as (o2' & r2 & Ho2 & -> & ?). exact (Hi i j o1' o2' Ho1 Ho2).
Qed.

(** The registry may change while it keeps the configured pairs. *)
Lemma orders_ok_pairs pairs pairs' last last' m :
  orders_ok pairs last m -> last <= last' ->
  (forall i o, m !! i = Some o -> exists cfg, pairs' !! o_pair o = Some cfg /\ status cfg <> Delisted) ->
  orders_ok pairs' last' m.
Proof.
  intros [Hl Hc Ht Hsz Hp Hq Hi] Hle Hpairs. split; try done. intros i o Ho. specialize (Hq i o Ho). lia.
Qed.

Lemma orders_ok_empty pairs last : orders_ok pairs last ∅.
Proof. split; (intros *; by rewrite ?lookup_empty). Qed.

Lemma shrinks_remove ids m : shrinks m (remove_ids ids m).
Proof. intros i o. rewrite lookup_remove_ids. case_decide; [done|]. apply shrinks_refl. Qed.

Lemma live_shrinks_remove ids m : live m -> live (remove_ids ids m).
Proof. intros Hl i o. rewrite lookup_remove_ids. case_decide; [done|]. apply Hl. Qed.

(** Cancelling or expiring orders removes them. *)
Lemma effect_remove m (f : Uuid -> EventData D) ids :
  (forall i m, spec_effect m (f i) = Ret (delete i m)) -> foldM spec_effect m (map f ids) = Ret (remove_ids ids m).
Proof.
  intros Hf. revert m; induction ids as [|i ids IH]; intros m; [done|].
  cbn [map foldM]. rewrite Hf. apply IH.
Qed.

Lemma elem_of_order_ids_for inner m pr i :
  represents inner m -> i ∈ Book.order_ids_for inner pr <-> exists o, m !! i = Some o /\ o_pair o = pr.
Proof.
  intros Hrep. unfold Book.order_ids_for. destruct (books inner !! pr) as [b|] eqn:Hb.
  - rewrite elem_of_app, !elem_of_hm_keys. split.
    + intros [[o Ho]|[o Ho]]; exists o.
      * destruct (represents_lookup inner m pr b Buy i o) as (? & ? & ?); auto.
      * destruct (represents_lookup inner m pr b Sell i o) as (? & ? & ?); auto.
    + intros (o & Ho & <-). destruct (represents_located _ _ _ _ Hrep Ho) as (b' & Hb' & Hs & _).
      assert (b' = b) as -> by congruence. destruct (o_side o); eauto.
  - split; [set_solver|]. intros (o & Ho & <-).
    destruct (represents_located _ _ _ _ Hrep Ho) as (b' & Hb' & _). congruence.
Qed.

(** The book counts a trader's orders. *)
Lemma count_for_trader inner m t :
  represents inner m -> Book.active_order_count_for_trader inner t = size (orders_of_trader m t).
Proof.
  intros Hrep. rewrite (active_order_count_for_trader_spec inner m t Hrep). unfold orders_of_trader, orders_of.
  rewrite map_filter_alt, <- length_map_to_list, map_to_list_to_map.
  2: { eapply sublist_NoDup; [apply (NoDup_fst_map_to_list m)|]. apply fmap_sublist, sublist_filter. }
  generalize (map_to_list m) as l.
  induction l as [|[i o] l IH]; [done|]. cbn [fmap list_fmap List.filter filter list_filter snd].
  case_bool_decide; case_decide; try done; simpl; by rewrite IH.
Qed.
End orders.

(** ** The invariant *)

Section machine.
Context {D F St : Type} `{!DecimalOps D, !DecimalLaws D, !FieldOps F, !FieldLaws F, !Poseidon F, !StoreOps D St, !StoreLaws D St,
  SHA : !Sha256, HEX : !HexOps, ADDR : !AddressOps} {HI : HashIter}.
Implicit Types (e : Engine D St) (m : gmap Uuid (Order D)) (o : Order D).

(** [m] is the map the book represents.  Every resting order has its secrets,
    and all secrets carry canonical commitments. *)
Record engine_inv e m : Prop := {
  ei_book : represents (es_book (e_state e)) m;
  ei_store : st_wf (e_store e);
  ei_seq : 0 <= book_seq (es_book (e_state e)) <= st_last_seq (e_store e);
  ei_orders : orders_ok (es_pair_tokens (e_state e)) (st_last_seq (e_store e)) m;
  ei_secrets : forall i o, m !! i = Some o -> exists sec, e_secrets e !! i = Some sec /\ secrets_of (F:=F) o sec;
  ei_canonical : map_Forall (fun _ sec => exists f : F, s_commitment sec = fr_to_bytes32 f) (e_secrets e);
  ei_finalize : e_finalize_every e <> 0;
  ei_batch : e_batch_size e = IVC_BATCH_SIZE
}.

(** Sequence numbers left for one operation: a tick appends at most [2^29]
    events for the expired orders and for each pair. *)
Definition room e : Prop :=
  st_last_seq (e_store e) + 2 ^ 29 * (1 + Z.of_nat (size (es_pair_tokens (e_state e)))) <= u64_max.

Lemma room_lt e n : room e -> n <= 2 ^ 29 -> st_last_seq (e_store e) + n <= u64_max.
Proof. unfold room. lia. Qed.

Lemma secrets_of_remaining o r sec : secrets_of (F:=F) o sec -> secrets_of (F:=F) (set_remaining o r) sec.
Proof. done. Qed.

(** Operations that only lose orders. *)
Lemma inv_shrink e e' m m' :
  engine_inv e m ->
  represents (es_book (e_state e')) m' -> st_wf (e_store e') ->
  0 <= book_seq (es_book (e_state e')) <= st_last_seq (e_store e') -> st_last_seq (e_store e) <= st_last_seq (e_store e') ->
  shrinks m m' -> live m' ->
  (forall i o, m' !! i = Some o -> es_pair_tokens (e_state e') !! o_pair o = es_pair_tokens (e_state e) !! o_pair o) ->
  (forall i, is_Some (m' !! i) -> e_secrets e' !! i = e_secrets e !! i) -> e_secrets e' ⊆ e_secrets e ->
  e_finalize_every e' <> 0 -> e_batch_size e' = e_batch_size e -> engine_inv e' m'.
Proof.
  intros [Hb Hst Hq Ho Hsec Hcan Hf Hbs] Hb' Hst' Hq' Hle Hsh Hl' Hp Hs Hss Hf' Hbs'. split; try done.
  - by eapply orders_ok_shrinks.
  - intros i o' Ho'. destruct (Hsh i o' Ho') as (o & r & Hoo & -> & _).
    rewrite Hs by eauto. destruct (Hsec i o Hoo) as (sec & ? & ?). exists sec. split; [done|].
    by apply secrets_of_remaining.
  - intros i sec Hi. apply (Hcan i). by eapply lookup_weaken.
  - by rewrite Hbs'.
Qed.

(** Operations that leave book, registry and secrets alone. *)
Lemma inv_frame e e' m :
  engine_inv e m ->
  represents (es_book (e_state e')) m -> st_wf (e_store e') ->
  0 <= book_seq (es_book (e_state e')) <= st_last_seq (e_store e') -> st_last_seq (e_store e) <= st_last_seq (e_store e') ->
  es_pair_tokens (e_state e') = es_pair_tokens (e_state e) -> e_secrets e' = e_secrets e ->
  e_finalize_every e' <> 0 -> e_batch_size e' = e_batch_size e -> engine_inv e' m.
Proof.
  intros Hinv Hb Hst Hq Hle Hp Hs Hf Hbs. eapply inv_shrink; try done.
  - apply shrinks_refl.
  - apply Hinv.
  - by rewrite Hp.
  - by rewrite Hs.
  - by rewrite Hs.
Qed.

(** A failed append changes the store only. *)
Lemma inv_append_err env e m evs st err :
  engine_inv e m -> st_append env (e_store e) evs = (st, Err err) ->
  st_last_seq (e_store e) + Z.of_nat (length evs) <= u64_max -> engine_inv (with_store e st) m.
Proof.
  intros Hinv Ha Hr. destruct (st_append_err _ _ _ _ _ (ei_store _ _ Hinv) Hr Ha) as (? & _ & ? & _).
  pose proof (ei_seq _ _ Hinv). apply (inv_frame e); simpl; try done; try lia; apply Hinv.
Qed.

Lemma inv_append_ok env e m evs st evs' :
  engine_inv e m -> st_append env (e_store e) evs = (st, Ok evs') ->
  st_last_seq (e_store e) + Z.of_nat (length evs) <= u64_max -> engine_inv (with_store e st) m.
Proof.
  intros Hinv Ha Hr. destruct (appended_sorted _ _ _ _ _ (ei_store _ _ Hinv) Hr Ha) as (? & _ & _ & _ & _ & ? & _).
  pose proof (ei_seq _ _ Hinv). apply (inv_frame e); simpl; try done; try lia; apply Hinv.
Qed.

(** ** Preservation, operation by operation *)

Lemma inv_register env now e m pr cfg e' r :
  engine_inv e m -> room e -> register_pair_with_event env now e pr cfg = (e', r) -> engine_inv e' m.
Proof.
  intros Hinv Hr. unfold register_pair_with_event. destruct (Pair.parse pr) as [key|]; [|by intros [= <- _]].
  case_bool_decide as Hk; [by intros [= <- _]|]. pose proof (room_lt e 1 Hr ltac:(lia)) as Hr1.
  destruct (st_append _ _ _) as [st [evs|]] eqn:Ha; intros [= <- _].
  - pose proof (inv_append_ok _ _ _ _ _ _ Hinv Ha Hr1) as [? ? ? Ho ? ? ? ?]. split; try done; simpl in *.
    eapply orders_ok_pairs; [exact Ho|done|]. intros i o Hio. destruct (oo_pair _ _ _ Ho i o Hio) as (c & Hc & ?).
    exists c. split; [|done]. rewrite lookup_insert_ne; [done|]. intros ->. apply Hk. eauto.
  - exact (inv_append_err _ _ _ _ _ _ Hinv Ha Hr1).
Qed.

Lemma inv_suspend env now e m pr e' r :
  engine_inv e m -> room e -> suspend_pair env now e pr = (e', r) -> engine_inv e' m.
Proof.
  intros Hinv Hr. unfold suspend_pair. destruct (Pair.parse pr) as [key|]; [|by intros [= <- _]].
  destruct (es_pair_tokens (e_state e) !! key) as [cfg|] eqn:Hk; [|by intros [= <- _]].
  destruct (status cfg); [|by intros [= <- _]..]. pose proof (room_lt e 1 Hr ltac:(lia)) as Hr1.
  destruct (st_append _ _ _) as [st [evs|]] eqn:Ha; intros [= <- _].
  - pose proof (inv_append_ok _ _ _ _ _ _ Hinv Ha Hr1) as [? ? ? Ho ? ? ? ?]. split; try done; simpl in *.
    eapply orders_ok_pairs; [exact Ho|done|]. intros i o Hio. destruct (oo_pair _ _ _ Ho i o Hio) as (c & Hc & ?).
    destruct (decide (key = o_pair o)) as [->|]; [|exists c; by rewrite lookup_insert_ne].
    exists (set_status cfg Suspended). by rewrite lookup_insert_eq.
  - exact (inv_append_err _ _ _ _ _ _ Hinv Ha Hr1).
Qed.

Lemma secrets_drop_fold ids e : e_secrets (fold_left drop_secret ids e) = remove_ids ids (e_secrets e).
Proof. revert e; induction ids as [|i ids IH]; intros e; [done|]. simpl. by rewrite IH. Qed.

Lemma drop_fold_frame ids e :
  e_state (fold_left drop_secret ids e) = e_state e /\ e_store (fold_left drop_secret ids e) = e_store e /\
  e_finalize_every (fold_left drop_secret ids e) = e_finalize_every e /\
  e_batch_size (fold_left drop_secret ids e) = e_batch_size e.
Proof. revert e; induction ids as [|i ids IH]; intros e; [done|]. simpl. by destruct (IH (drop_secret e i)) as (-> & -> & -> & ->). Qed.

Lemma remove_ids_subseteq {A} ids (m : gmap Uuid A) : remove_ids ids m ⊆ m.
Proof. apply map_subseteq_spec. intros i x. rewrite lookup_remove_ids. by case_decide. Qed.

(** The cancellations of a delisting. *)
Lemma effect_delist m now ids key reason :
  foldM spec_effect m (map ev_data (map (fun i => new_event (D:=D) now (OrderCancelled i reason)) ids ++ [new_event now (PairDelisted key)])) =
  Ret (remove_ids ids m).
Proof.
  rewrite map_app, foldM_app, map_map; simpl.
  rewrite (effect_remove m (fun i => OrderCancelled i reason)); done.
Qed.

Lemma length_order_ids_for inner m pr : represents inner m -> (length (Book.order_ids_for inner pr) <= size m)%nat.
Proof.
  intros Hrep. rewrite <- length_map_to_list, <- (length_fmap fst (map_to_list m)).
  apply submseteq_length, NoDup_submseteq.
  - unfold Book.order_ids_for. destruct (books inner !! pr) as [b|] eqn:Hb; [|constructor].
    apply NoDup_app. split_and!; [apply NoDup_hm_keys| |apply NoDup_hm_keys].
    intros i [o1 H1]%elem_of_hm_keys [o2 H2]%elem_of_hm_keys.
    destruct (represents_lookup inner m pr b Buy i o1) as (A1 & _ & A2 & _); [done..|].
    destruct (represents_lookup inner m pr b Sell i o2) as (B1 & _ & B2 & _); [done..|]. congruence.
  - intros i (o & Ho & _)%(elem_of_order_ids_for _ _ _ _ Hrep). apply list_elem_of_fmap.
    exists (i, o). split; [done|]. by apply elem_of_map_to_list.
Qed.

(** An early return changes nothing. *)
Ltac unchanged e m := exists e; eexists; exists m; split_and!; [reflexivity|done|apply shrinks_refl|done].

(** What a delisting leaves. *)
Definition delisted e' (key : Str) m m' : Prop :=
  (exists cfg, es_pair_tokens (e_state e') !! key = Some cfg /\ status cfg = Delisted) /\
  (forall i o, m' !! i = Some o <-> m !! i = Some o /\ o_pair o <> key).

Lemma inv_delist_open env now e m key cfg :
  engine_inv e m -> room e -> es_pair_tokens (e_state e) !! key = Some cfg ->
  exists e' r m', delist_open env now e key cfg = Ret (e', r) /\ engine_inv e' m' /\ shrinks m m' /\
    (forall n, r = Ok n -> delisted e' key m m').
Proof.
  intros Hinv Hr Hk. unfold delist_open. cbv zeta.
  set (ids := Book.order_ids_for (es_book (e_state e)) key).
  assert (Hids : (length ids <= size m)%nat) by apply length_order_ids_for, Hinv.
  pose proof (oo_capacity _ _ _ (ei_orders _ _ Hinv)) as Hcap. unfold MAX_ACTIVE_ORDERS in Hcap.
  set (evs0 := _ ++ _). assert (Hlen : st_last_seq (e_store e) + Z.of_nat (length evs0) <= u64_max).
  { apply room_lt; [done|]. unfold evs0. rewrite length_app, length_map. simpl. lia. }
  destruct (st_append _ _ _) as [st [evs|]] eqn:Ha.
  2: { exists (with_store e st). do 2 eexists. split_and!; [done|by eapply inv_append_err|apply shrinks_refl|done]. }
  destruct (append_apply _ _ _ m _ _ _ _ (ei_store _ _ Hinv) Hlen Ha (ei_book _ _ Hinv) (ei_seq _ _ Hinv)
    (effect_delist m now ids key _)) as (book & -> & Hb & Hst & Hq & Hle & _).
  cbn [mbind outcome_bind]. eexists _, _, (remove_ids ids m). split; [done|].
  set (e1 := with_state _ _). destruct (drop_fold_frame ids e1) as (E1 & E2 & E3 & E4). split_and!.
  - apply (inv_shrink e _ m); rewrite ?E1, ?E2, ?E3, ?E4, ?secrets_drop_fold; try done.
    + apply shrinks_remove.
    + apply live_shrinks_remove, Hinv.
    + intros i o Ho. simpl. rewrite lookup_insert_ne; [done|]. intros Hkey. rewrite lookup_remove_ids in Ho.
      case_decide as Hi; [done|]. apply Hi, (elem_of_order_ids_for _ m); [apply Hinv|by eauto].
    + intros i [o Ho]. rewrite lookup_remove_ids in Ho. rewrite lookup_remove_ids. by case_decide.
    + apply remove_ids_subseteq.
    + apply Hinv.
  - apply shrinks_remove.
  - intros n [= <-]. split.
    + rewrite E1. exists (set_status cfg Delisted). simpl. by rewrite lookup_insert_eq.
    + intros i o. rewrite lookup_remove_ids. pose proof (elem_of_order_ids_for _ m key i (ei_book _ _ Hinv)) as Hi.
      fold ids in Hi. case_decide; split; try done.
      * intros [Ho Hp]. destruct (proj1 Hi) as (o' & Ho' & Hp'); [done|]. congruence.
      * intros Ho. split; [done|]. intros Hp. assert (i ∈ ids); [|done]. apply Hi. eauto.
      * tauto.
Qed.

Lemma inv_delist env now e m pr :
  engine_inv e m -> room e ->
  exists e' r m', delist_pair env now e pr = Ret (e', r) /\ engine_inv e' m' /\ shrinks m m' /\
    (forall n key, r = Ok n -> Pair.parse pr = Ok key -> delisted e' key m m').
Proof.
  intros Hinv Hr. unfold delist_pair.
  destruct (Pair.parse pr) as [key|]; [|unchanged e m].
  destruct (es_pair_tokens (e_state e) !! key) as [cfg|] eqn:Hk; [|unchanged e m].
  destruct (inv_delist_open env now e m key cfg Hinv Hr Hk) as (e' & r & m' & Heq & ? & ? & Hdel).
  destruct (status cfg) eqn:Hs; [exists e', r, m'; split_and!; try done; intros n k Hn [= <-]; eauto..|].
  exists e, (Ok 0%nat), m. split_and!; [done..|apply shrinks_refl|]. intros n k _ [= <-]. split; [by exists cfg|].
  intros i o. split; [|tauto]. intros Ho. split; [done|]. intros <-. destruct (oo_pair _ _ _ (ei_orders _ _ Hinv) i o Ho) as (c & ? & ?). congruence.
Qed.

(** The facts about an order that persisting relies on. *)
Definition placeable o (sec : OrderSecrets D) m : Prop :=
  bounded_order o /\ 0 < rem_units o /\ encodable (o_size o) /\ rem_units o <= units (o_size o) /\
  secrets_of (F:=F) o sec /\ m !! o_id o = None.

Lemma admission_check_Ok s o digest replay inner m :
  admission_check s o digest replay = Ok tt -> represents (es_book s) m -> inner = es_book s ->
  (exists cfg, pair_config s (o_pair o) = Some cfg /\ status cfg = Active) /\
  (digest ∉ es_seen_ciphertexts s) /\ (rp_nullifier replay ∉ es_spent_nullifiers s) /\
  (rp_order_nonce_digest replay ∉ es_spent_order_nonces s) /\
  Z.of_nat (size m) < MAX_ACTIVE_ORDERS /\ Z.of_nat (size (orders_of_trader m (o_trader o))) < MAX_ACTIVE_ORDERS_PER_TRADER.
Proof.
  intros Hc Hrep ->. revert Hc. unfold admission_check, ensure_order_capacity.
  rewrite (active_order_count_size _ _ Hrep), (count_for_trader _ _ _ Hrep).
  destruct (pair_config s (o_pair o)) as [cfg|]; [|done]. cbn [option_map].
  destruct (status cfg) eqn:Hs; [|done..]. repeat (case_bool_decide; [done|]).
  destruct (Z.leb_spec MAX_ACTIVE_ORDERS (Z.of_nat (size m))); [done|].
  destruct (Z.leb_spec MAX_ACTIVE_ORDERS_PER_TRADER (Z.of_nat (size (orders_of_trader m (o_trader o))))); [done|].
  intros _. split_and!; eauto.
Qed.

Lemma orders_ok_insert pairs last sq m o :
  orders_ok pairs last m -> bounded_order o -> 0 < rem_units o -> encodable (o_size o) ->
  rem_units o <= units (o_size o) -> m !! o_id o = None ->
  (exists cfg, pairs !! o_pair o = Some cfg /\ status cfg = Active) -> 0 <= last -> last < o_seq o <= sq ->
  Z.of_nat (size m) < MAX_ACTIVE_ORDERS -> Z.of_nat (size (orders_of_trader m (o_trader o))) < MAX_ACTIVE_ORDERS_PER_TRADER ->
  orders_ok pairs sq (<[o_id o := o]> m).
Proof.
  intros [Hl Hc Ht Hsz Hp Hq Hi] Hbo Hrem Hes Hle Hfresh (cfg & Hcfg & Hact) H0 Hsq Hcap Hcapt. split.
  - intros i o' [(<- & <-)|(? & Ho')]%lookup_insert_Some; auto.
  - rewrite map_size_insert_None by done. lia.
  - intros t. unfold orders_of_trader. destruct (decide (o_trader o = t)) as [<-|Hne].
    + rewrite map_filter_insert_True by done. rewrite map_size_insert_None; [unfold orders_of_trader in Hcapt; lia|].
      apply map_lookup_filter_None. by left.
    + rewrite map_filter_insert_False by done. rewrite delete_id by done. apply Ht.
  - intros i o' [(<- & <-)|(? & Ho')]%lookup_insert_Some; eauto.
  - intros i o' [(<- & <-)|(? & Ho')]%lookup_insert_Some; [|by eauto]. exists cfg. by rewrite Hact.
  - intros i o' [(<- & <-)|(? & Ho')]%lookup_insert_Some; [lia|]. specialize (Hq i o' Ho'). lia.
  - intros i j o1 o2 [(<- & <-)|(? & H1)]%lookup_insert_Some [(<- & <-)|(? & H2)]%lookup_insert_Some Heq; [done|..|by eauto].
    + specialize (Hq _ _ H2). lia.
    + specialize (Hq _ _ H1). lia.
Qed.

(** What a successful placement does, and what a rejected one leaves alone. *)
Definition placed e e' m m' o (sec : OrderSecrets D) commitment proof ciphertext replay (r : result Z (EngineError D)) : Prop :=
  match r with
  | Ok sq =>
    admission_check (e_state e) o (ciphertext_digest ciphertext) replay = Ok tt /\
    m' = <[o_id o := set_seq o sq]> m /\ st_last_seq (e_store e) < sq /\
    e_secrets e' = <[o_id o := sec]> (e_secrets e) /\
    (exists ev, st_log (e_store e') = st_log (e_store e) ++ [ev] /\ ev_seq ev = sq /\
      ev_data ev = OrderPlaced (o_id o) commitment proof ciphertext) /\
    exists book, e_state e' = add_spent (set_book (e_state e) book) (ciphertext_digest ciphertext)
      (rp_nullifier replay) (rp_order_nonce_digest replay)
  | Err err =>
    m' = m /\ e_state e' = e_state e /\ e_secrets e' = e_secrets e /\ st_log (e_store e') = st_log (e_store e) /\
    ((e' = e /\ admission_check (e_state e) o (ciphertext_digest ciphertext) replay = Err err) \/
     exists err', err = EventErr err')
  end.

Lemma inv_persist senv e m o sec commitment proof ciphertext replay :
  engine_inv e m -> room e -> placeable o sec m ->
  exists e' r m', persist_order_placed senv e o sec commitment proof ciphertext replay = Ret (e', r) /\
    engine_inv e' m' /\ placed e e' m m' o sec commitment proof ciphertext replay r.
Proof.
  intros Hinv Hr (Hbo & Hrem & Hes & Hle & Hsec & Hfresh). unfold persist_order_placed. cbv zeta.
  destruct (admission_check _ _ _ _) as [[]|err] eqn:Hck.
  2: { exists e, (Err err), m. split_and!; [done..|]. split_and!; try done. by left. }
  destruct (admission_check_Ok _ _ _ _ _ m Hck (ei_book _ _ Hinv) eq_refl) as (Hact & _ & _ & _ & Hcap & Hcapt).
  pose proof (room_lt e 1 Hr ltac:(lia)) as Hr1. pose proof (ei_seq _ _ Hinv) as Hsq.
  destruct (st_append _ _ _) as [st [evs|err]] eqn:Ha.
  2: { exists (with_store e st), (Err (EventErr err)), m. split_and!; [done|exact (inv_append_err _ _ _ _ _ _ Hinv Ha Hr1)|].
       destruct (st_append_err _ _ [_] _ _ (ei_store _ _ Hinv) Hr1 Ha) as (_ & ? & _). split_and!; eauto. }
  destruct (append_apply_1 _ _ _ m _ _ _ m (ei_store _ _ Hinv) Hr1 Ha (ei_book _ _ Hinv) Hsq eq_refl)
    as (ev & book & -> & Happ & Hb & Hbs & Hlt & Hd & Hst & Hbq & _).
  cbn [head or_panic mbind outcome_bind]. rewrite Happ. eexists _, (Ok (ev_seq ev)), (<[o_id o := set_seq o (ev_seq ev)]> m).
  split; [done|]. split.
  - split; simpl; try done; try apply Hinv.
    + by apply (insert_order_represents _ m (set_seq o (ev_seq ev))).
    + change (o_id o) with (o_id (set_seq o (ev_seq ev))).
      apply (orders_ok_insert _ _ _ _ (set_seq o (ev_seq ev)) (ei_orders _ _ Hinv)); simpl; try done; lia.
    + intros i o' [(<- & <-)|(? & Ho')]%lookup_insert_Some; [exists sec; by rewrite lookup_insert_eq|].
      rewrite lookup_insert_ne by done. by apply (ei_secrets _ _ Hinv).
    + apply map_Forall_insert_2; [|apply Hinv]. destruct Hsec as (b & p & salt & Hsec).
      apply derive_order_secrets_Ok in Hsec as (_ & _ & _ & _ & _ & ? & c & ? & ? & ? & ? & _ & _ & _ & _ & _ & _ & _ & Hc & _). eauto.
  - destruct (appended_sorted _ _ [_] _ _ (ei_store _ _ Hinv) Hr1 Ha) as (_ & _ & _ & _ & Hlog & _).
    split_and!; try done; [by exists ev|by eexists].
Qed.

Lemma inv_place env senv s_seen s_cfg e m proof ciphertext caller :
  engine_inv e m -> room e -> m !! pe_new_id env = None ->
  exists e' r m', place_encrypted_order env senv s_seen s_cfg e proof ciphertext caller = Ret (e', r) /\ engine_inv e' m' /\
    match r with
    | Ok o => exists p d key cfg salt nonce sq, Accepted (F:=F) env s_cfg proof ciphertext caller p d key cfg salt nonce /\
        o = set_seq (p_order p) sq /\
        placed e e' m m' (p_order p) (p_secrets p) (s_commitment (p_secrets p)) proof ciphertext (p_replay p) (Ok sq)
    | Err _ => m' = m /\ e_state e' = e_state e /\ e_secrets e' = e_secrets e /\ st_log (e_store e') = st_log (e_store e)
    end.
Proof.
  intros Hinv Hr Hfresh. unfold place_encrypted_order.
  destruct (prepare_order_total env s_seen s_cfg proof ciphertext caller) as ([p|err] & Hp); rewrite Hp.
  2: { exists e, (Err err), m. split_and!; done. }
  apply prepare_order_Ok in Hp as (d & key & cfg & salt & nonce & Hacc).
  pose proof (accepted_order _ _ _ _ _ _ _ _ _ _ _ Hacc) as (Hbo & Hrem & Hsec & Hid & _). cbn [mbind outcome_bind].
  edestruct (inv_persist senv e m (p_order p) (p_secrets p)) as (e' & r & m' & Heq & Hinv' & Hpl); [done|done| |].
  { split_and!; try done.
    - rewrite (ac_order _ _ _ _ _ _ _ _ _ _ _ Hacc). apply (ac_size _ _ _ _ _ _ _ _ _ _ _ Hacc).
    - by rewrite (ac_order _ _ _ _ _ _ _ _ _ _ _ Hacc).
    - by rewrite Hid. }
  rewrite Heq. eexists _, _, m'. split; [done|]. split; [done|]. simpl. destruct r as [sq|err]; [by eauto 15|].
  destruct Hpl as (? & ? & ? & ? & _). done.
Qed.

Lemma inv_cancel env now e m i reason :
  engine_inv e m -> room e ->
  exists e' r m', cancel_order env now e i reason = Ret (e', r) /\ engine_inv e' m' /\ shrinks m m' /\
    match r with
    | Ok _ => is_Some (m !! i) /\ m' = delete i m /\ e_secrets e' = delete i (e_secrets e)
    | Err err => m' = m /\ (m !! i = None -> e' = e /\ err = Validation OrderNotFound)
    end.
Proof.
  intros Hinv Hr. unfold cancel_order. cbv zeta.
  rewrite has_order_find, (find_order_lookup _ m i) by apply Hinv. pose proof (room_lt e 1 Hr ltac:(lia)) as Hr1.
  case_bool_decide as Hi; cbn [negb].
  2: { exists e; eexists; exists m. split_and!; [done|done|apply shrinks_refl|]. split; [done|]. done. }
  destruct (st_append _ _ _) as [st [evs|]] eqn:Ha.
  2: { exists (with_store e st); eexists; exists m. split_and!; [done|exact (inv_append_err _ _ _ _ _ _ Hinv Ha Hr1)|apply shrinks_refl|].
       split; [done|]. intros Hn. rewrite Hn in Hi. by destruct Hi. }
  destruct (append_apply_1 _ _ _ m _ _ _ (delete i m) (ei_store _ _ Hinv) Hr1 Ha (ei_book _ _ Hinv) (ei_seq _ _ Hinv) eq_refl)
    as (ev & book & -> & Happ & Hb & Hbs & Hlt & Hd & Hst & Hbq & _).
  cbn [head or_panic mbind outcome_bind]. rewrite Happ. eexists _, (Ok tt), (delete i m). split; [done|].
  split; [|split; [apply shrinks_delete|done]].
  apply (inv_shrink e _ m); simpl; try done; try apply Hinv; try lia.
  - apply shrinks_delete.
  - intros j o [_ Ho]%lookup_delete_Some. by apply (oo_live _ _ _ (ei_orders _ _ Hinv)).
  - intros j [o [Hj Ho]%lookup_delete_Some]. by rewrite lookup_delete_ne.
  - apply delete_subseteq.
Qed.

(** ** The tick *)

Lemma chunks_loop_spec {A} fuel n (l : list A) :
  n <> 0%nat -> (length l <= fuel)%nat ->
  concat (chunks_loop fuel n l) = l /\ Forall (fun c => (0 < length c <= n)%nat) (chunks_loop fuel n l).
Proof.
  intros Hn. revert l; induction fuel as [|fuel IH]; intros [|x l] Hl; simpl; try (split; [done|constructor]); [simpl in Hl; lia|].
  destruct (IH (drop n (x :: l))) as [H1 H2]; [rewrite length_drop; simpl in *; lia|]. split.
  - rewrite H1. apply take_drop.
  - constructor; [|done]. rewrite length_take. simpl. lia.
Qed.

(** The expired orders leave. *)
Definition unexpired (now : DateTime) m : gmap Uuid (Order D) := filter (fun io => Book.is_expired now io.2 = false) m.

Lemma remove_expired inner m now :
  represents inner m ->
  remove_ids (map o_id (List.filter (Book.is_expired now) (Book.iter_all inner))) m = unexpired now m.
Proof.
  intros Hrep. apply map_eq. intros i. rewrite lookup_remove_ids. unfold unexpired. symmetry.
  assert (Hin : forall o, m !! i = Some o ->
    i ∈ map o_id (List.filter (Book.is_expired now) (Book.iter_all inner)) <-> Book.is_expired now o = true).
  { intros o Ho. destruct (represents_located _ _ _ _ Hrep Ho) as (_ & _ & _ & Hid). rewrite list_elem_of_fmap. split.
    - intros (o' & Hid' & [Hin Hx]%elem_of_list_filter_bool). rewrite (iter_all_perm _ m Hrep) in Hin.
      apply (elem_of_orders_of _ _ _ Hrep) in Hin. congruence.
    - intros Hx. exists o. split; [done|]. apply elem_of_list_filter_bool. split; [|done].
      rewrite (iter_all_perm _ m Hrep). apply (elem_of_orders_of _ _ _ Hrep). by rewrite Hid. }
  destruct (m !! i) as [o|] eqn:Ho.
  - specialize (Hin o eq_refl). destruct (Book.is_expired now o) eqn:Hx.
    + rewrite decide_True by tauto. apply map_lookup_filter_None. right. intros o' ?. simpl. congruence.
    + rewrite decide_False by (rewrite Hin; done). by apply map_lookup_filter_Some.
  - rewrite (proj2 (map_lookup_filter_None _ _ _)) by (by left). by case_decide.
Qed.

Lemma inv_expire env e m :
  engine_inv e m -> st_last_seq (e_store e) + 2 ^ 29 <= u64_max ->
  exists e' m', expire_orders env e = Ret e' /\ engine_inv e' m' /\
    st_last_seq (e_store e') <= st_last_seq (e_store e) + 2 ^ 29 /\ e_secrets e' = e_secrets e /\
    ((m' = m /\ e_state e' = e_state e) \/
     (m' = unexpired (te_now env) m /\ exists book, e_state e' = set_book (e_state e) book)).
Proof.
  intros Hinv Hr. unfold expire_orders. cbv zeta.
  assert (Hcol : Book.collect_expired (es_book (e_state e)) (te_now env) =
    map (fun o => mkEvent 0 TOrderExpired default_time (OrderExpiredEv (o_id o)))
      (List.filter (Book.is_expired (te_now env)) (Book.iter_all (es_book (e_state e))))).
  { unfold Book.collect_expired. by rewrite flat_map_map_filter. }
  pose proof (oo_capacity _ _ _ (ei_orders _ _ Hinv)) as Hcap. unfold MAX_ACTIVE_ORDERS in Hcap.
  assert (Hlen : Z.of_nat (length (Book.collect_expired (es_book (e_state e)) (te_now env))) <= 2 ^ 29).
  { rewrite Hcol, length_map. pose proof (filter_length_le (Book.is_expired (te_now env)) (Book.iter_all (es_book (e_state e)))).
    rewrite (Permutation_length (iter_all_perm _ m (ei_book _ _ Hinv))) in *. unfold orders_of in *.
    rewrite length_fmap, length_map_to_list in *. lia. }
  destruct (Book.collect_expired _ _) as [|ev0 evs0] eqn:Hev.
  { exists e, m. split_and!; [done|done|lia|done|by left]. }
  rewrite <- Hev in *. set (evs1 := map _ _).
  assert (Hl1 : length evs1 = length (Book.collect_expired (es_book (e_state e)) (te_now env))) by apply length_map.
  assert (Hb : st_last_seq (e_store e) + Z.of_nat (length evs1) <= u64_max) by lia.
  destruct (st_append _ _ _) as [st [evs|]] eqn:Ha.
  2: { exists (with_store e st), m. destruct (st_append_err _ _ _ _ _ (ei_store _ _ Hinv) Hb Ha) as (_ & _ & _ & ?).
       split_and!; [done|by eapply inv_append_err|simpl; lia|done|by left]. }
  assert (Heff : foldM spec_effect m (map ev_data evs1) = Ret (unexpired (te_now env) m)).
  { unfold evs1. rewrite Hcol, !map_map. cbn [ev_data]. rewrite <- (remove_expired _ m _ (ei_book _ _ Hinv)).
    rewrite <- (map_map o_id OrderExpiredEv). by apply effect_remove. }
  destruct (append_apply _ _ _ m _ _ _ _ (ei_store _ _ Hinv) Hb Ha (ei_book _ _ Hinv) (ei_seq _ _ Hinv) Heff)
    as (book & -> & Hbk & Hst & Hq & Hle & Hle2).
  cbn [mbind outcome_bind]. eexists _, (unexpired (te_now env) m). split; [done|].
  assert (Hsub : unexpired (te_now env) m ⊆ m) by apply map_filter_subseteq.
  split_and!; [|simpl; lia|done|right; split; [done|by eexists]].
  apply (inv_shrink e _ m); simpl; try done; try apply Hinv; try lia.
  - intros i o Ho. apply shrinks_refl. by eapply lookup_weaken.
  - intros i o Ho. apply (oo_live _ _ _ (ei_orders _ _ Hinv)). by eapply lookup_weaken.
Qed.

Lemma effect_matches m now aid (ms : list (Match D)) :
  foldM spec_effect m (map ev_data (map (fun mt => new_event now
    (OrderMatched aid (match_bid_fill mt) (match_ask_fill mt) (match_price mt) (match_size mt))) ms)) =
  foldM spec_fill m (match_fills ms).
Proof.
  revert m; induction ms as [|mt ms IH]; intros m; [done|]. unfold match_fills in *. simpl.
  destruct (spec_fill m (match_bid_fill mt)) as [m1|]; simpl; [|done].
  destruct (spec_fill m1 (match_ask_fill mt)) as [m2|]; simpl; [|done]. apply IH.
Qed.

(** One pair's round was recorded: the auction ran on the pair's sides of the
    book, its price can be encoded, the log has its events, the orders lost
    what was matched, and the chunks carry the matches. *)
Record round_recorded (env : TickEnv) e m e' m' (pr : Str) (r : AuctionResult D) (ps : list (PendingAggregation D)) : Prop := {
  rr_run : Auction.run (te_auction_id env pr) pr (Book.bids (es_book (e_state e)) pr) (Book.asks (es_book (e_state e)) pr) = Ret (Some r);
  rr_price : exists f : F, decimal_to_scalar (clearing_price r) = Ok f;
  rr_filled : forall i, filled_by (match_fills (matches r)) i (m !! i) (m' !! i);
  rr_log : exists evs, st_log (e_store e') = st_log (e_store e) ++ evs /\ map ev_data evs = map ev_data (round_events (te_now env) r);
  rr_state : e_state e' = set_book (set_log (e_state e) (es_auction_log (e_state e) ++ [round_record (te_now env) r])) (es_book (e_state e'));
  rr_chunks : exists cs, concat cs = matches r /\ Forall (fun c => (0 < length c <= e_batch_size e)%nat) cs /\
    ps = round_chunks env pr r (order_snapshot (es_book (e_state e)) (matches r))
      (map o_id (Book.bids (es_book (e_state e)) pr ++ Book.asks (es_book (e_state e)) pr)) cs
}.

Lemma round_length env e m pr r :
  engine_inv e m ->
  Auction.run (te_auction_id env pr) pr (Book.bids (es_book (e_state e)) pr) (Book.asks (es_book (e_state e)) pr) = Ret (Some r) ->
  Z.of_nat (length (round_events (te_now env) r)) <= 2 ^ 29 /\ Z.of_nat (size m) <= 2 ^ 32.
Proof.
  intros Hinv Hrun%run_length. pose proof (oo_capacity _ _ _ (ei_orders _ _ Hinv)) as Hcap. unfold MAX_ACTIVE_ORDERS in Hcap.
  pose proof (ei_book _ _ Hinv) as Hrep. unfold round_events. simpl. rewrite length_map.
  assert (length (Book.bids (es_book (e_state e)) pr) <= size m)%nat.
  { apply (book_list_length _ m _ Hrep); [by eapply NoDup_map_1, NoDup_bids|]. intros o Ho%(elem_of_bids _ _ _ _ Hrep). tauto. }
  assert (length (Book.asks (es_book (e_state e)) pr) <= size m)%nat.
  { apply (book_list_length _ m _ Hrep); [by eapply NoDup_map_1, NoDup_asks|]. intros o Ho%(elem_of_asks _ _ _ _ Hrep). tauto. }
  split; [|lia]. assert (length (matches r) <= size m * size m)%nat by nia. nia.
Qed.

Lemma map_match_eta (ms : list (Match D)) :
  map (fun mt => order_matched_to_match (match_bid_fill mt) (match_ask_fill mt) (match_price mt) (match_size mt)) ms = ms.
Proof. rewrite <- (map_id ms) at 2. apply map_ext. by intros []. Qed.

(** A round that is recorded. *)
Lemma tick_pair_recorded env e m ns ps pr r st evs :
  engine_inv e m -> st_last_seq (e_store e) + 2 ^ 29 <= u64_max ->
  Auction.run (te_auction_id env pr) pr (Book.bids (es_book (e_state e)) pr) (Book.asks (es_book (e_state e)) pr) = Ret (Some r) ->
  clearing_price_encodable (F:=F) r = Ok tt ->
  st_append (te_append_env env pr) (e_store e) (round_events (te_now env) r) = (st, Ok evs) ->
  exists e' m' ps', tick_pair (F:=F) env (e, ns, ps) pr =
      Ret (e', ns ++ [record_to_notification (round_record (te_now env) r)], ps ++ ps') /\
    engine_inv e' m' /\ st_last_seq (e_store e') <= st_last_seq (e_store e) + 2 ^ 29 /\ e_secrets e' = e_secrets e /\
    e_batch_size e' = e_batch_size e /\ shrinks m m' /\ round_recorded env e m e' m' pr r ps'.
Proof.
  intros Hinv Hr Hrun Henc Ha. destruct (round_length env e m pr r Hinv Hrun) as [Hlen Hsz].
  pose proof (ei_book _ _ Hinv) as Hrep. pose proof (oo_live _ _ _ (ei_orders _ _ Hinv)) as Hlive.
  destruct (spec_fills_good (match_fills (matches r)) m) as (m' & Hm' & Hlive' & Hfilled);
    [done|exact (match_fills_good _ m pr _ r Hrep Hlive Hsz Hrun)|
     intros i o Ho; exact (auction_fills_within _ m pr _ r i o Hrep Hlive Hsz Hrun Ho)|].
  assert (Hb : st_last_seq (e_store e) + Z.of_nat (length (round_events (te_now env) r)) <= u64_max) by lia.
  assert (Heff : foldM spec_effect m (map ev_data (round_events (te_now env) r)) = Ret m').
  { unfold round_events. cbn [map ev_data new_event foldM spec_effect mbind outcome_bind]. by rewrite effect_matches. }
  destruct (append_apply _ _ _ m _ _ _ _ (ei_store _ _ Hinv) Hb Ha Hrep (ei_seq _ _ Hinv) Heff)
    as (book & Hbk & Hbrep & Hst & Hq & Hle & Hle2).
  assert (Hsh : shrinks m m') by (eapply shrinks_filled; [exact (match_fills_good _ m pr _ r Hrep Hlive Hsz Hrun)|done]).
  unfold tick_pair. rewrite Hrun. cbn [mbind outcome_bind]. rewrite Henc, Ha, Hbk, map_match_eta. cbn [mbind outcome_bind].
  unfold chunks. destruct (Nat.eqb_spec (e_batch_size e) 0) as [Hz|Hz]; [by rewrite (ei_batch _ _ Hinv) in Hz|]. cbn [mbind outcome_bind].
  destruct (chunks_loop_spec (length (matches r)) (e_batch_size e) (matches r) Hz ltac:(lia)) as [Hc1 Hc2].
  eexists _, m', _. split; [done|]. split_and!; try done; [|simpl; lia|].
  - apply (inv_shrink e _ m); simpl; try done; apply Hinv.
  - destruct (appended_sorted _ _ _ _ _ (ei_store _ _ Hinv) Hb Ha) as (_ & Hd & _ & _ & Hlog & _).
    split; try done; [|by eauto|by eauto]. unfold clearing_price_encodable in Henc.
    destruct (decimal_to_scalar (clearing_price r)) as [f|]; [by exists f|done].
Qed.

(** What one pair contributes to a tick. *)
Inductive round_step (env : TickEnv) e m (pr : Str) : Engine D St -> gmap Uuid (Order D) ->
    list (AuctionNotification D) -> list (PendingAggregation D) -> Prop :=
| round_none :
    Auction.run (te_auction_id env pr) pr (Book.bids (es_book (e_state e)) pr) (Book.asks (es_book (e_state e)) pr) = Ret None ->
    round_step env e m pr e m [] []
| round_unrecorded st : st_log st = st_log (e_store e) -> round_step env e m pr (with_store e st) m [] []
| round_matched e' m' r ps :
    round_recorded env e m e' m' pr r ps ->
    round_step env e m pr e' m' [record_to_notification (round_record (te_now env) r)] ps.

Lemma inv_tick_pair env e m ns ps pr :
  engine_inv e m -> st_last_seq (e_store e) + 2 ^ 29 <= u64_max ->
  exists e' m' ns' ps', tick_pair (F:=F) env (e, ns, ps) pr = Ret (e', ns ++ ns', ps ++ ps') /\ engine_inv e' m' /\
    st_last_seq (e_store e') <= st_last_seq (e_store e) + 2 ^ 29 /\ e_secrets e' = e_secrets e /\
    e_batch_size e' = e_batch_size e /\ shrinks m m' /\ round_step env e m pr e' m' ns' ps'.
Proof.
  intros Hinv Hr. pose proof (ei_book _ _ Hinv) as Hrep. pose proof (oo_capacity _ _ _ (ei_orders _ _ Hinv)) as Hcap.
  unfold MAX_ACTIVE_ORDERS in Hcap.
  pose proof (book_auction_input _ m pr Hrep (oo_live _ _ _ (ei_orders _ _ Hinv)) ltac:(lia)) as Hin.
  assert (Hskip : forall st, st_log st = st_log (e_store e) -> engine_inv (with_store e st) m ->
    st_last_seq st <= st_last_seq (e_store e) + 2 ^ 29 ->
    exists e' m' ns' ps', Ret (with_store e st, ns, ps) = Ret (e', ns ++ ns', ps ++ ps') /\ engine_inv e' m' /\
    st_last_seq (e_store e') <= st_last_seq (e_store e) + 2 ^ 29 /\ e_secrets e' = e_secrets e /\
    e_batch_size e' = e_batch_size e /\ shrinks m m' /\ round_step env e m pr e' m' ns' ps').
  { intros st Hlog Hi Hl. exists (with_store e st), m, [], []. rewrite !app_nil_r.
    split_and!; try done; [apply shrinks_refl|by apply round_unrecorded]. }
  assert (Hee : with_store e (e_store e) = e) by by destruct e.
  destruct (run_cases (te_auction_id env pr) pr _ _ Hin) as [[Hrun _]|(r & _ & _ & Hrun & _)].
  { unfold tick_pair. rewrite Hrun. cbn [mbind outcome_bind]. exists e, m, [], []. rewrite !app_nil_r.
    split_and!; try done; [lia|apply shrinks_refl|by apply round_none]. }
  destruct (clearing_price_encodable (F:=F) r) as [[]|err] eqn:Henc.
  2: { unfold tick_pair. rewrite Hrun. cbn [mbind outcome_bind]. rewrite Henc.
       specialize (Hskip (e_store e)). rewrite Hee in Hskip. apply Hskip; (done || lia). }
  destruct (round_length env e m pr r Hinv Hrun) as [Hlen Hsz].
  assert (Hb : st_last_seq (e_store e) + Z.of_nat (length (round_events (te_now env) r)) <= u64_max) by lia.
  destruct (st_append (te_append_env env pr) (e_store e) (round_events (te_now env) r)) as [st [evs|err]] eqn:Ha.
  - destruct (tick_pair_recorded env e m ns ps pr r st evs Hinv Hr Hrun Henc Ha)
      as (e' & m' & ps' & Heq & ? & ? & ? & ? & ? & ?).
    exists e', m', [record_to_notification (round_record (te_now env) r)], ps'.
    split_and!; try done. by apply round_matched.
  - unfold tick_pair. rewrite Hrun. cbn [mbind outcome_bind]. rewrite Henc, Ha.
    destruct (st_append_err _ _ _ _ _ (ei_store _ _ Hinv) Hb Ha) as (? & ? & ? & ?).
    apply Hskip; [done|by eapply inv_append_err|lia].
Qed.

(** The rounds of a tick, in the order of the pairs. *)
Inductive rounds (env : TickEnv) : Engine D St -> gmap Uuid (Order D) -> list Str -> Engine D St -> gmap Uuid (Order D) ->
    list (AuctionNotification D) -> list (PendingAggregation D) -> Prop :=
| rounds_nil e m : rounds env e m [] e m [] []
| rounds_cons e m pr prs e1 m1 ns1 ps1 e2 m2 ns2 ps2 :
    round_step env e m pr e1 m1 ns1 ps1 -> engine_inv e1 m1 -> e_secrets e1 = e_secrets e ->
    e_batch_size e1 = e_batch_size e -> rounds env e1 m1 prs e2 m2 ns2 ps2 ->
    rounds env e m (pr :: prs) e2 m2 (ns1 ++ ns2) (ps1 ++ ps2).

Lemma inv_tick_pairs env prs e m ns ps :
  engine_inv e m -> st_last_seq (e_store e) + 2 ^ 29 * Z.of_nat (length prs) <= u64_max ->
  exists e' m' ns' ps', foldM (tick_pair (F:=F) env) (e, ns, ps) prs = Ret (e', ns ++ ns', ps ++ ps') /\ engine_inv e' m' /\
    shrinks m m' /\ e_secrets e' = e_secrets e /\ e_batch_size e' = e_batch_size e /\ rounds env e m prs e' m' ns' ps'.
Proof.
  revert e m ns ps; induction prs as [|pr prs IH]; intros e m ns ps Hinv Hr.
  { exists e, m, [], []. rewrite !app_nil_r. split_and!; [done..|apply shrinks_refl|done|done|constructor]. }
  cbn [length] in Hr. destruct (inv_tick_pair env e m ns ps pr Hinv ltac:(lia)) as (e1 & m1 & ns1 & ps1 & H1 & Hinv1 & Hl & Hs & Hbs & Hsh & Hst).
  cbn [foldM]. rewrite H1. cbn [mbind outcome_bind].
  destruct (IH e1 m1 (ns ++ ns1) (ps ++ ps1) Hinv1 ltac:(lia)) as (e2 & m2 & ns2 & ps2 & -> & Hinv2 & Hsh2 & Hs2 & Hbs2 & Hrs).
  exists e2, m2, (ns1 ++ ns2), (ps1 ++ ps2). rewrite !app_assoc. split_and!; try done.
  - by eapply shrinks_trans.
  - congruence.
  - congruence.
  - by eapply rounds_cons.
Qed.

Lemma length_active_pairs (s : EngineState D) : (length (active_pairs s) <= size (es_pair_tokens s))%nat.
Proof.
  unfold active_pairs. rewrite (Permutation_length (sort_by_perm _ _)), length_map.
  etransitivity; [apply filter_length_le|]. by rewrite length_hm_iter.
Qed.

Lemma inv_tick env e m :
  engine_inv e m -> room e ->
  exists e' m' ns ps e1 m1, tick_under_lock (F:=F) env e = Ret (e', ns, ps) /\ engine_inv e' m' /\ shrinks m m' /\
    expire_orders env e = Ret e1 /\ engine_inv e1 m1 /\ (m1 = m \/ m1 = unexpired (te_now env) m) /\
    e_secrets e' = e_secrets e /\ e_batch_size e' = e_batch_size e1 /\ e_secrets e1 = e_secrets e /\ rounds env e1 m1 (active_pairs (e_state e)) e' m' ns ps.
Proof.
  intros Hinv Hr. destruct (inv_expire env e m Hinv (room_lt e (2 ^ 29) Hr ltac:(lia))) as (e1 & m1 & H1 & Hinv1 & Hl & Hs & Hm1).
  assert (Hap : active_pairs (e_state e1) = active_pairs (e_state e)) by (destruct Hm1 as [[_ ->]|(_ & book & ->)]; done).
  pose proof (length_active_pairs (e_state e)).
  destruct (inv_tick_pairs env (active_pairs (e_state e)) e1 m1 [] [] Hinv1) as (e' & m' & ns & ps & H2 & Hinv2 & Hsh & Hs2 & Hbs2 & Hrs).
  { unfold room in Hr. lia. }
  unfold tick_under_lock. rewrite H1. cbn [mbind outcome_bind]. rewrite Hap. exists e', m', ns, ps, e1, m1.
  split_and!; try done; [|destruct Hm1 as [[? _]|[? _]]; auto|congruence].
  eapply shrinks_trans; [|exact Hsh]. destruct Hm1 as [[-> _]|[-> _]]; [apply shrinks_refl|].
  intros i o [Ho _]%map_lookup_filter_Some. by apply shrinks_refl.
Qed.

(** ** Batches *)

(** Events the book ignores. *)
Definition batch_event (d : EventData D) : Prop :=
  match d with BatchSubmitted _ _ _ _ _ | BatchConfirmed _ _ | BatchSettled _ _ _ | BatchFolded _ _ _ _ => True | _ => False end.

Lemma batch_event_effect m d : batch_event d -> spec_effect m d = Ret m.
Proof. by destruct d. Qed.

Lemma inv_pending e m f : engine_inv e m -> engine_inv (update_pending e f) m.
Proof. intros [? ? ? ? ? ? ? ?]. by split. Qed.

Lemma inv_close e m i ev :
  engine_inv e m -> batch_event (ev_data ev) -> 0 < ev_seq ev <= st_last_seq (e_store e) ->
  exists e', close_batch e i [ev] = Ret e' /\ engine_inv e' m /\ es_pending_batches (e_state e') = delete i (es_pending_batches (e_state e)).
Proof.
  intros Hinv Hd Hq. pose proof (ei_seq _ _ Hinv) as Hsq. unfold close_batch. cbn [head or_panic mbind outcome_bind].
  assert (exists book, Book.apply (es_book (e_state e)) ev = Ret book /\ represents book m /\
    0 <= book_seq book <= st_last_seq (e_store e)) as (book & -> & Hb & Hbq).
  { destruct (Z_lt_le_dec (book_seq (es_book (e_state e))) (ev_seq ev)).
    - destruct (apply_effect (es_book (e_state e)) m ev m) as (book & ? & ? & Heq); [apply Hinv|lia|by apply batch_event_effect|].
      exists book. split_and!; (done || lia).
    - exists (es_book (e_state e)). unfold Book.apply.
      destruct (Z.eqb_spec (ev_seq ev) 0), (Z.leb_spec (ev_seq ev) (book_seq (es_book (e_state e)))); try lia.
      split_and!; [done|apply Hinv|lia..]. }
  cbn [mbind outcome_bind]. eexists. split; [done|]. split; [|done]. apply inv_pending.
  apply (inv_frame e); simpl; try done; apply Hinv.
Qed.

Lemma inv_finalize env e m p proof inputs sm :
  engine_inv e m -> room e ->
  exists e' r, finalize_pending_batch env e p proof inputs sm = Ret (e', r) /\ engine_inv e' m.
Proof.
  intros Hinv Hr. unfold finalize_pending_batch. pose proof (room_lt e 1 Hr ltac:(lia)) as Hr1.
  destruct (st_append _ _ _) as [st [evs|]] eqn:Ha.
  2: { do 2 eexists. split; [done|]. exact (inv_append_err _ _ _ _ _ _ Hinv Ha Hr1). }
  destruct (append_apply_1 _ _ _ m _ _ _ m (ei_store _ _ Hinv) Hr1 Ha (ei_book _ _ Hinv) (ei_seq _ _ Hinv) eq_refl)
    as (ev & book & -> & Happ & Hb & Hbs & Hlt & Hd & Hst & Hbq & _).
  cbn [head or_panic mbind outcome_bind]. rewrite Happ. cbn [mbind outcome_bind]. do 2 eexists. split; [done|].
  apply inv_pending, (inv_frame e); simpl; try done; try lia; apply Hinv.
Qed.

(** An append without the lock. *)
Definition append_only (env : StoreEnv) (now : DateTime) e (d : EventData D) : Engine D St :=
  with_store e (fst (st_append env (e_store e) [new_event now d])).

Lemma inv_append_only env now e m d : engine_inv e m -> room e -> engine_inv (append_only env now e d) m.
Proof.
  intros Hinv Hr. pose proof (room_lt e 1 Hr ltac:(lia)) as Hr1. unfold append_only.
  destruct (st_append _ _ _) as [st [evs|]] eqn:Ha; simpl.
  - exact (inv_append_ok _ _ _ _ _ _ Hinv Ha Hr1).
  - exact (inv_append_err _ _ _ _ _ _ Hinv Ha Hr1).
Qed.

Lemma inv_prune e m : engine_inv e m -> engine_inv (prune_dead_secrets e) m.
Proof.
  intros Hinv. pose proof (ei_book _ _ Hinv) as Hrep. apply (inv_shrink e _ m); simpl; try apply Hinv; try done.
  - apply shrinks_refl.
  - intros i Hi. destruct (e_secrets e !! i) as [sec|] eqn:Hs.
    + apply map_lookup_filter_Some. split; [done|]. simpl. rewrite has_order_find, (find_order_lookup _ m i Hrep).
      by apply bool_decide_eq_true.
    + apply map_lookup_filter_None. by left.
  - apply map_filter_subseteq.
Qed.

Lemma inv_compact env e m before e' r : engine_inv e m -> compact_events_before env e before = (e', r) -> engine_inv e' m.
Proof.
  intros Hinv. unfold compact_events_before. pose proof (ei_seq _ _ Hinv) as Hq.
  destruct (st_compact_before _ _ _) as [st [u|]] eqn:Hc; intros [= <- _].
  - destruct (st_compact_ok _ _ _ _ _ (ei_store _ _ Hinv) Hc) as (? & Hl & _).
    apply (inv_frame e); simpl; try done; rewrite ?Hl; try done; apply Hinv.
  - destruct (st_compact_err _ _ _ _ _ (ei_store _ _ Hinv) Hc) as (? & Hl & _).
    apply (inv_frame e); simpl; try done; rewrite ?Hl; try done; apply Hinv.
Qed.

(** ** Operations *)

(** The lock scopes of the engine.  [OpAppend] is an append without the state
    lock, [OpClose] the scope that later applies its event; the scopes of
    [place_encrypted_order] before the last one are part of [OpPlace], which
    takes the states they saw. *)
Inductive Op :=
| OpRegister (env : StoreEnv) (now : DateTime) (pr : Str) (cfg : PairConfig D)
| OpSuspend (env : StoreEnv) (now : DateTime) (pr : Str)
| OpDelist (env : StoreEnv) (now : DateTime) (pr : Str)
| OpPlace (penv : PlaceEnv D F) (senv : StoreEnv) (s_seen s_cfg : EngineState D) (proof ciphertext : bytes) (caller : Address)
| OpCancel (env : StoreEnv) (now : DateTime) (i : Uuid) (reason : option Str)
| OpTick (tenv : TickEnv)
| OpRecordFold (env : StoreEnv) (now : DateTime) (p : PendingAggregation D) (root : F)
| OpFinalize (env : StoreEnv) (p : PendingAggregation D) (proof : bytes) (inputs : list Z) (sm : list (SettlementMatch D))
| OpSetPayload (i : Uuid) (payload : ProofPayload)
| OpSubmitBegin (i : Uuid)
| OpSubmitFailed (instant : Z) (i : Uuid)
| OpAppend (env : StoreEnv) (now : DateTime) (d : EventData D)
| OpClose (i : Uuid) (ev : Event D)
| OpPrune
| OpCompact (env : StoreEnv) (before : Z)
| OpSubmitTimeout (d : Duration)
| OpRetryBackoff (min max : Duration)
| OpFinalizeEvery (n : Z).

Definition exec (op : Op) e : outcome (Engine D St) :=
  match op with
  | OpRegister env now pr cfg => Ret (fst (register_pair_with_event env now e pr cfg))
  | OpSuspend env now pr => Ret (fst (suspend_pair env now e pr))
  | OpDelist env now pr => r ← delist_pair env now e pr; Ret (fst r)
  | OpPlace penv senv s_seen s_cfg proof ciphertext caller =>
    r ← place_encrypted_order penv senv s_seen s_cfg e proof ciphertext caller; Ret (fst r)
  | OpCancel env now i reason => r ← cancel_order env now e i reason; Ret (fst r)
  | OpTick tenv => r ← tick_under_lock (F:=F) tenv e; Ret (fst (fst r))
  | OpRecordFold env now p root => Ret (fst (record_fold env now e p root))
  | OpFinalize env p proof inputs sm => r ← finalize_pending_batch env e p proof inputs sm; Ret (fst r)
  | OpSetPayload i payload => Ret (update_pending e (alter (fun pb => set_payload pb payload) i))
  | OpSubmitBegin i => Ret (fst (submit_begin e i))
  | OpSubmitFailed instant i => Ret (note_submit_failure instant e i)
  | OpAppend env now d => Ret (append_only env now e d)
  | OpClose i ev => close_batch e i [ev]
  | OpPrune => Ret (prune_dead_secrets e)
  | OpCompact env before => Ret (fst (compact_events_before env e before))
  | OpSubmitTimeout d => Ret (set_submit_timeout e d)
  | OpRetryBackoff min max => Ret (set_retry_backoff e min max)
  | OpFinalizeEvery n => Ret (set_finalize_every e n)
  end.

(** What the callers provide: a fresh identifier is not in the book, an event
    appended without the lock is one of the batch events, and an event applied
    late was numbered by the store. *)
Definition op_ok e (op : Op) : Prop :=
  match op with
  | OpPlace penv _ _ _ _ _ _ => Book.find_order (es_book (e_state e)) (pe_new_id penv) = None
  | OpAppend _ _ d => batch_event d
  | OpClose _ ev => batch_event (ev_data ev) /\ 0 < ev_seq ev <= st_last_seq (e_store e)
  | _ => True
  end.

(** The identifiers an operation draws. *)
Definition placed_ids (op : Op) : list Uuid :=
  match op with OpPlace penv _ _ _ _ _ _ => [pe_new_id penv] | _ => [] end.

(** The orders after an operation are those before, with their owners, but for
    the ones it places. *)
Definition inherits (ids : list Uuid) m m' : Prop :=
  forall i o', m' !! i = Some o' -> i ∈ ids \/ exists o, m !! i = Some o /\ o_trader o' = o_trader o.

Lemma inherits_shrinks ids m m' : shrinks m m' -> inherits ids m m'.
Proof. intros H i o' Ho'. right. destruct (H i o' Ho') as (o & r & Ho & -> & _). by exists o. Qed.

Lemma inherits_refl ids m : inherits ids m m.
Proof. apply inherits_shrinks, shrinks_refl. Qed.

Lemma exec_effect op e m :
  engine_inv e m -> room e -> op_ok e op -> exists e' m', exec op e = Ret e' /\ engine_inv e' m' /\ inherits (placed_ids op) m m'.
Proof.
  intros Hinv Hr Hok.
  assert (Hsame : forall e', exec op e = Ret e' -> engine_inv e' m ->
    exists e' m', exec op e = Ret e' /\ engine_inv e' m' /\ inherits (placed_ids op) m m') by eauto using inherits_refl.
  destruct op; simpl in Hok |- *; simpl in Hsame.
  - eapply Hsame; [done|]. destruct (register_pair_with_event _ _ _ _ _) eqn:H. by eapply inv_register.
  - eapply Hsame; [done|]. destruct (suspend_pair _ _ _ _) eqn:H. by eapply inv_suspend.
  - destruct (inv_delist env now e m pr Hinv Hr) as (e' & r & m' & -> & ? & ? & _). simpl. exists e', m'. split_and!; [done..|]. by apply inherits_shrinks.
  - rewrite (find_order_lookup _ m) in Hok by apply Hinv.
    destruct (inv_place penv senv s_seen s_cfg e m proof ciphertext caller Hinv Hr Hok) as (e' & r & m' & -> & ? & Hpl). simpl.
    exists e', m'. split_and!; [done..|]. destruct r as [o|]; [|destruct Hpl as [-> _]; apply inherits_refl].
    destruct Hpl as (p & d & key & cfg & salt & nonce & sq & Ha & _ & (_ & -> & _)). rewrite (ac_order _ _ _ _ _ _ _ _ _ _ _ Ha).
    intros i o' [[<- _]|[_ Ho]]%lookup_insert_Some; [left; simpl; apply list_elem_of_singleton; done|right; eauto].
  - destruct (inv_cancel env now e m i reason Hinv Hr) as (e' & r & m' & -> & ? & ? & _). simpl. exists e', m'. split_and!; [done..|]. by apply inherits_shrinks.
  - destruct (inv_tick tenv e m Hinv Hr) as (e' & m' & ns & ps & _ & _ & -> & ? & ? & _). simpl. exists e', m'. split_and!; [done..|]. by apply inherits_shrinks.
  - eapply Hsame; [done|]. unfold record_fold. cbv zeta.
    pose proof (inv_append_only env now (with_rounds e (<[pa_pair p := wrap64 (default 0 (e_ivc_round e !! pa_pair p) + 1)]> (e_ivc_round e)))
      m (BatchFolded (pa_batch_id p) (wrap64 (default 0 (e_ivc_round e !! pa_pair p) + 1)) (pa_pair p) (fr_to_bytes32 root))) as H.
    unfold append_only in H. destruct (st_append _ _ _) as [st ?]. simpl in *. apply H; [|done].
    destruct Hinv. by split.
  - destruct (inv_finalize env e m p proof inputs sm Hinv Hr) as (e' & r & He & ?). rewrite He in Hsame. rewrite He. simpl in *. eauto.
  - eapply Hsame; [done|]. by apply inv_pending.
  - eapply Hsame; [done|]. unfold submit_begin. repeat case_match; simpl; auto using inv_pending.
  - eapply Hsame; [done|]. unfold note_submit_failure. case_match; auto using inv_pending.
  - eapply Hsame; [done|]. by apply inv_append_only.
  - destruct Hok. destruct (inv_close e m i ev) as (e' & ? & ? & _); eauto.
  - eapply Hsame; [done|]. by apply inv_prune.
  - eapply Hsame; [done|]. destruct (compact_events_before _ _ _) eqn:H. by eapply inv_compact.
  - eapply Hsame; [done|]. destruct Hinv. by split.
  - eapply Hsame; [done|]. destruct Hinv. by split.
  - eapply Hsame; [done|]. unfold set_finalize_every. destruct (Z.eqb_spec n 0); [done|]. destruct Hinv. by split.
Qed.

Lemma exec_inv op e m :
  engine_inv e m -> room e -> op_ok e op -> exists e' m', exec op e = Ret e' /\ engine_inv e' m'.
Proof. intros Hinv Hr Hok. destruct (exec_effect op e m Hinv Hr Hok) as (e' & m' & ? & ? & _). eauto. Qed.

(** ** Runs *)

Definition step e e' : Prop := exists op, room e /\ op_ok e op /\ exec op e = Ret e'.

(** The engines a fresh one can become without a restart. *)
Definition reachable e : Prop := exists store interval, st_wf store /\ rtc step (engine_new store interval) e.

Lemma engine_new_inv store interval : st_wf store -> engine_inv (engine_new store interval) ∅.
Proof.
  intros Hwf. pose proof (st_wf_ordered _ Hwf) as (_ & _ & ?). split; simpl; try done; lia.
Qed.

Lemma steps_inv e e' m : engine_inv e m -> rtc step e e' -> exists m', engine_inv e' m'.
Proof.
  intros Hinv Hs. revert m Hinv; induction Hs as [|e e1 e' (op & Hr & Hok & He) _ IH]; intros m Hinv; [by eauto|].
  destruct (exec_inv op e m Hinv Hr Hok) as (e2 & m2 & He2 & Hinv2). rewrite He in He2. injection He2 as ->. eauto.
Qed.

Lemma reachable_inv e : reachable e -> exists m, engine_inv e m.
Proof. intros (store & interval & Hwf & Hs). eapply steps_inv; [by apply engine_new_inv|done]. Qed.

(** How the parts of the state that are never taken back grow. *)
Definition rank (s : PairStatus) : nat := match s with Active => 0 | Suspended => 1 | Delisted => 2 end.

Record extends (s s' : EngineState D) : Prop := {
  ex_seen : es_seen_ciphertexts s ⊆ es_seen_ciphertexts s';
  ex_nullifiers : es_spent_nullifiers s ⊆ es_spent_nullifiers s';
  ex_nonces : es_spent_order_nonces s ⊆ es_spent_order_nonces s';
  ex_log : es_auction_log s `prefix_of` es_auction_log s';
  ex_pairs : forall key cfg, es_pair_tokens s !! key = Some cfg ->
    exists st, es_pair_tokens s' !! key = Some (set_status cfg st) /\ (rank (status cfg) <= rank st)%nat
}.

Lemma extends_refl s : extends s s.
Proof. split; try done. intros key cfg Hk. exists (status cfg). split; [by destruct cfg|lia]. Qed.

Lemma extends_trans s1 s2 s3 : extends s1 s2 -> extends s2 s3 -> extends s1 s3.
Proof.
  intros [? ? ? ? H1] [? ? ? ? H2]. split; try (by etransitivity).
  intros key cfg Hk. destruct (H1 key cfg Hk) as (st & Hk2 & ?). destruct (H2 key _ Hk2) as (st' & Hk3 & ?).
  exists st'. split; [done|]. simpl in *. lia.
Qed.

(** States that differ in the book, the batches or the timeouts only. *)
Lemma extends_frame (s s' : EngineState D) :
  es_seen_ciphertexts s' = es_seen_ciphertexts s -> es_spent_nullifiers s' = es_spent_nullifiers s ->
  es_spent_order_nonces s' = es_spent_order_nonces s -> es_auction_log s' = es_auction_log s ->
  es_pair_tokens s' = es_pair_tokens s -> extends s s'.
Proof. intros H1 H2 H3 H4 H5. destruct (extends_refl s). split; rewrite ?H1, ?H2, ?H3, ?H4, ?H5; done. Qed.

Lemma extends_status (s : EngineState D) key cfg st book :
  es_pair_tokens s !! key = Some cfg -> (rank (status cfg) <= rank st)%nat ->
  extends s (set_pairs (set_book s book) (<[key := set_status cfg st]> (es_pair_tokens s))).
Proof.
  intros Hk Hst. destruct (extends_refl s) as [? ? ? ? Hp]. split; try done. intros k c Hc.
  change (es_pair_tokens (set_pairs _ ?p)) with p.
  destruct (decide (key = k)) as [<-|]; [|rewrite lookup_insert_ne by done; auto].
  rewrite lookup_insert_eq. replace c with cfg by congruence. eauto.
Qed.

Lemma set_book_self (s : EngineState D) p : set_pairs s p = set_pairs (set_book s (es_book s)) p.
Proof. done. Qed.

Lemma extends_register env now e pr cfg : extends (e_state e) (e_state (fst (register_pair_with_event env now e pr cfg))).
Proof.
  unfold register_pair_with_event. destruct (Pair.parse pr) as [key|]; [|apply extends_refl].
  case_bool_decide as Hk; [apply extends_refl|]. destruct (st_append _ _ _) as [st [evs|]]; [|apply extends_refl]. simpl.
  destruct (extends_refl (e_state e)) as [? ? ? ? Hp]. split; try done. intros k c Hc. simpl.
  rewrite lookup_insert_ne; [by apply Hp|]. intros ->. apply Hk. eauto.
Qed.

Lemma extends_suspend env now e pr : extends (e_state e) (e_state (fst (suspend_pair env now e pr))).
Proof.
  unfold suspend_pair. destruct (Pair.parse pr) as [key|]; [|apply extends_refl].
  destruct (es_pair_tokens (e_state e) !! key) as [cfg|] eqn:Hk; [|apply extends_refl].
  destruct (status cfg) eqn:Hs; [|apply extends_refl..]. destruct (st_append _ _ _) as [st [evs|]]; [|apply extends_refl].
  simpl. rewrite set_book_self. apply extends_status; [done|]. rewrite Hs. simpl. lia.
Qed.

Lemma extends_delist env now e pr r :
  delist_pair env now e pr = Ret r -> extends (e_state e) (e_state (fst r)).
Proof.
  unfold delist_pair. destruct (Pair.parse pr) as [key|]; [|intros [= <-]; apply extends_refl].
  destruct (es_pair_tokens (e_state e) !! key) as [cfg|] eqn:Hk; [|intros [= <-]; apply extends_refl].
  assert (delist_open env now e key cfg = Ret r -> extends (e_state e) (e_state (fst r))) as Ho.
  { unfold delist_open. cbv zeta. destruct (st_append _ _ _) as [st [evs|]]; [|intros [= <-]; apply extends_refl].
    intros (book & _ & [= <-])%outcome_bind_Ret. simpl.
    rewrite (proj1 (drop_fold_frame _ _)). simpl. apply extends_status; [done|]. destruct (status cfg); simpl; lia. }
  destruct (status cfg); [done..|]. intros [= <-]. apply extends_refl.
Qed.

Lemma extends_persist senv e o sec commitment proof ciphertext replay r :
  persist_order_placed senv e o sec commitment proof ciphertext replay = Ret r -> extends (e_state e) (e_state (fst r)).
Proof.
  unfold persist_order_placed. cbv zeta. destruct (admission_check _ _ _ _); [|intros [= <-]; apply extends_refl].
  destruct (st_append _ _ _) as [st [evs|]]; [|intros [= <-]; apply extends_refl].
  intros (ev & _ & (book & _ & [= <-])%outcome_bind_Ret)%outcome_bind_Ret. simpl.
  destruct (extends_refl (e_state e)). split; try done; simpl; set_solver.
Qed.

Lemma extends_place env senv s_seen s_cfg e proof ciphertext caller r :
  place_encrypted_order env senv s_seen s_cfg e proof ciphertext caller = Ret r -> extends (e_state e) (e_state (fst r)).
Proof.
  unfold place_encrypted_order. intros ([p|] & _ & Hp)%outcome_bind_Ret; [|injection Hp as <-; apply extends_refl].
  apply outcome_bind_Ret in Hp as (r' & Hr & [= <-]). by apply extends_persist in Hr.
Qed.

Lemma extends_tick_pair env acc pr acc' :
  tick_pair (F:=F) env acc pr = Ret acc' -> extends (e_state (fst (fst acc))) (e_state (fst (fst acc'))).
Proof.
  destruct acc as [[e ns] ps]. unfold tick_pair. intros (res & _ & Hres)%outcome_bind_Ret.
  destruct res as [r|]; [|injection Hres as <-; apply extends_refl].
  destruct (clearing_price_encodable r); [|injection Hres as <-; apply extends_refl].
  destruct (st_append _ _ _) as [st [evs|]]; [|injection Hres as <-; apply extends_refl].
  apply outcome_bind_Ret in Hres as (book & _ & (cs & _ & [= <-])%outcome_bind_Ret). simpl.
  destruct (extends_refl (e_state e)). split; try done. simpl. by apply prefix_app_r.
Qed.

Lemma extends_tick env e acc : tick_under_lock (F:=F) env e = Ret acc -> extends (e_state e) (e_state (fst (fst acc))).
Proof.
  unfold tick_under_lock. intros (e1 & He1 & Hf)%outcome_bind_Ret.
  apply extends_trans with (e_state e1).
  - unfold expire_orders in He1. cbv zeta in He1. destruct (Book.collect_expired _ _); [injection He1 as <-; apply extends_refl|].
    destruct (st_append _ _ _) as [st [evs|]]; [|injection He1 as <-; apply extends_refl].
    apply outcome_bind_Ret in He1 as (book & _ & [= <-]). by apply extends_frame.
  - refine (foldM_invariant (fun a => extends (e_state e1) (e_state (fst (fst a)))) _ _ _ _ _ _ Hf).
    2: apply extends_refl.
    intros a pr a' _ Ha Hs. eapply extends_trans; [exact Ha|]. by eapply extends_tick_pair.
Qed.

Lemma exec_extends op e e' : exec op e = Ret e' -> extends (e_state e) (e_state e').
Proof.
  destruct op; simpl.
  - intros [= <-]. apply extends_register.
  - intros [= <-]. apply extends_suspend.
  - intros (r & Hr & [= <-])%outcome_bind_Ret. by eapply extends_delist.
  - intros (r & Hr & [= <-])%outcome_bind_Ret. by eapply extends_place.
  - intros (r & Hr & [= <-])%outcome_bind_Ret. revert Hr. unfold cancel_order. cbv zeta.
    destruct (negb _); [intros [= <-]; apply extends_refl|].
    destruct (st_append _ _ _) as [st [evs|]]; [|intros [= <-]; apply extends_refl].
    intros (ev & _ & (book & _ & [= <-])%outcome_bind_Ret)%outcome_bind_Ret. by apply extends_frame.
  - intros (r & Hr & [= <-])%outcome_bind_Ret. by apply extends_tick in Hr.
  - intros [= <-]. unfold record_fold. cbv zeta. destruct (st_append _ _ _). by apply extends_frame.
  - intros (r & Hr & [= <-])%outcome_bind_Ret. revert Hr. unfold finalize_pending_batch.
    destruct (st_append _ _ _) as [st [evs|]]; [|intros [= <-]; apply extends_refl].
    intros (ev & _ & (book & _ & [= <-])%outcome_bind_Ret)%outcome_bind_Ret. by apply extends_frame.
  - intros [= <-]. by apply extends_frame.
  - intros [= <-]. unfold submit_begin. repeat case_match; by apply extends_frame.
  - intros [= <-]. unfold note_submit_failure. case_match; by apply extends_frame.
  - intros [= <-]. apply extends_refl.
  - unfold close_batch. intros (ev1 & _ & (book & _ & [= <-])%outcome_bind_Ret)%outcome_bind_Ret. by apply extends_frame.
  - intros [= <-]. apply extends_refl.
  - intros [= <-]. unfold compact_events_before. destruct (st_compact_before _ _ _). apply extends_refl.
  - intros [= <-]. by apply extends_frame.
  - intros [= <-]. by apply extends_frame.
  - intros [= <-]. unfold set_finalize_every. destruct (_ =? _); apply extends_refl.
Qed.

Lemma steps_extends e e' : rtc step e e' -> extends (e_state e) (e_state e').
Proof.
  induction 1 as [|e e1 e' (op & _ & _ & He) _ IH]; [apply extends_refl|].
  eapply extends_trans; [by eapply exec_extends|done].
Qed.

(** A sequence of operations whose conditions hold is a run. *)
Fixpoint ok_run e (ops : list Op) : Prop :=
  match ops with
  | [] => True
  | op :: ops' => room e /\ op_ok e op /\ match exec op e with Ret e1 => ok_run e1 ops' | Panic => False end
  end.

Lemma ok_run_steps ops e e' : ok_run e ops -> foldM (fun e op => exec op e) e ops = Ret e' -> rtc step e e'.
Proof.
  revert e; induction ops as [|op ops IH]; intros e; simpl; [intros _ [= <-]; apply rtc_refl|].
  intros (Hr & Hok & Hrun). destruct (exec op e) as [e1|] eqn:He; [|done]. simpl. intros Hf.
  eapply rtc_l; [by exists op|]. by apply IH.
Qed.

Lemma steps_trans e e1 : reachable e -> rtc step e e1 -> reachable e1.
Proof. intros (store & interval & ? & ?) ?. exists store, interval. split; [done|]. by etransitivity. Qed.

(** ** Properties *)

(** C5: the live engine is safe.  Whatever operations have run since it was
    created, in whatever interleaving, its book represents a map of orders that
    the auction can handle, within the capacity limits, under pairs that are
    registered and not delisted, with distinct sequence numbers and with the
    secrets of every resting order; and no operation can panic. *)
Theorem engine_reachable_safe e :
  reachable e ->
  exists m, engine_inv e m /\ forall op, room e -> op_ok e op -> exists e', exec op e = Ret e'.
Proof.
  intros (m & Hinv)%reachable_inv. exists m. split; [done|]. intros op Hr Hok.
  destruct (exec_inv op e m Hinv Hr Hok) as (e' & _ & He & _). eauto.
Qed.

(** Admission is sound and all or nothing.  A placement that succeeds has
    passed every check (on the plaintext, the pair, freshness, the proof and
    replays), adds exactly its order, stamped with a number larger than all
    before, and one event to the log; a placement that fails leaves the orders,
    the registry, the replay sets, the secrets and the log as they were. *)
Theorem place_all_or_nothing env senv s_seen s_cfg e proof ciphertext caller :
  reachable e -> room e -> Book.find_order (es_book (e_state e)) (pe_new_id env) = None ->
  exists e' r m m', place_encrypted_order env senv s_seen s_cfg e proof ciphertext caller = Ret (e', r) /\
    engine_inv e m /\ engine_inv e' m' /\
    match r with
    | Ok o => exists p d key cfg salt nonce sq, Accepted (F:=F) env s_cfg proof ciphertext caller p d key cfg salt nonce /\
        o = set_seq (p_order p) sq /\
        placed e e' m m' (p_order p) (p_secrets p) (s_commitment (p_secrets p)) proof ciphertext (p_replay p) (Ok sq)
    | Err _ => m' = m /\ e_state e' = e_state e /\ e_secrets e' = e_secrets e /\ st_log (e_store e') = st_log (e_store e)
    end.
Proof.
  intros (m & Hinv)%reachable_inv Hr Hf. rewrite (find_order_lookup _ m) in Hf by apply Hinv.
  destruct (inv_place env senv s_seen s_cfg e m proof ciphertext caller Hinv Hr Hf) as (e' & r & m' & ? & ? & ?).
  exists e', r, m, m'. done.
Qed.

(** The nullifier is a function of trader, side, price, size and salt. *)
Lemma nullifier_function t sd p1 p2 s1 s2 b1 b2 q1 q2 salt sec1 sec2 :
  derive_order_secrets (F:=F) t sd p1 s1 b1 q1 salt = Ok sec1 -> derive_order_secrets (F:=F) t sd p2 s2 b2 q2 salt = Ok sec2 ->
  units p1 = units p2 -> units s1 = units s2 -> s_nullifier sec1 = s_nullifier sec2.
Proof.
  intros H1 H2 Hp Hs.
  apply derive_order_secrets_Ok in H1 as (_ & _ & _ & _ & _ & t1 & c1 & n1 & f1 & x1 & y1 & T1 & T1' & F1 & P1 & S1 & -> & -> & _ & N1).
  apply derive_order_secrets_Ok in H2 as (_ & _ & _ & _ & _ & t2 & c2 & n2 & f2 & x2 & y2 & T2 & T2' & F2 & P2 & S2 & -> & -> & _ & N2).
  rewrite N1, N2. pose proof ULP_pos.
  assert (x1 = x2) as ->.
  { apply fr_to_Z_inj. apply decimal_to_scalar_Ok in P1 as (_ & _ & ?), P2 as (_ & _ & ?). nia. }
  assert (y1 = y2) as ->.
  { apply fr_to_Z_inj. apply decimal_to_scalar_Ok in S1 as (_ & _ & ?), S2 as (_ & _ & ?). nia. }
  congruence.
Qed.

(** C6: no order is admitted twice.  Between two successful placements, with any
    operations in between, the ciphertexts differ; the two plaintexts do not
    share trader and nonce; and they do not agree in trader, side, price, size
    and salt. *)
Theorem no_double_admission env1 senv1 a1 b1 e proof1 ct1 caller1 e1 o1 env2 senv2 a2 b2 e2 proof2 ct2 caller2 e3 o2 d1 d2 :
  reachable e -> room e -> Book.find_order (es_book (e_state e)) (pe_new_id env1) = None ->
  place_encrypted_order env1 senv1 a1 b1 e proof1 ct1 caller1 = Ret (e1, Ok o1) -> rtc step e1 e2 ->
  room e2 -> Book.find_order (es_book (e_state e2)) (pe_new_id env2) = None ->
  place_encrypted_order env2 senv2 a2 b2 e2 proof2 ct2 caller2 = Ret (e3, Ok o2) ->
  pe_decrypt env1 ct1 = Ok d1 -> pe_decrypt env2 ct2 = Ok d2 ->
  ct1 <> ct2 /\ ~ (d_trader d1 = d_trader d2 /\ d_nonce d1 = d_nonce d2) /\
  ~ (d_trader d1 = d_trader d2 /\ d_side d1 = d_side d2 /\ units (d_price d1) = units (d_price d2) /\
     units (d_size d1) = units (d_size d2) /\ d_salt d1 = d_salt d2).
Proof.
  intros (m & Hinv)%reachable_inv Hr Hf P1 Hs Hr2 Hf2 P2 D1 D2. rewrite (find_order_lookup _ m) in Hf by apply Hinv.
  destruct (inv_place env1 senv1 a1 b1 e m proof1 ct1 caller1 Hinv Hr Hf) as (e1' & r1 & m1 & Heq1 & Hinv1 & Hpl1).
  rewrite P1 in Heq1. injection Heq1 as <- <-.
  destruct Hpl1 as (p1 & d1' & key1 & cfg1 & salt1 & nonce1 & sq1 & A1 & _ & (_ & _ & _ & _ & _ & book & Hst)).
  destruct (steps_inv e1 e2 m1 Hinv1 Hs) as (m2 & Hinv2). rewrite (find_order_lookup _ m2) in Hf2 by apply Hinv2.
  destruct (inv_place env2 senv2 a2 b2 e2 m2 proof2 ct2 caller2 Hinv2 Hr2 Hf2) as (e3' & r2 & m3 & Heq2 & _ & Hpl2).
  rewrite P2 in Heq2. injection Heq2 as <- <-.
  destruct Hpl2 as (p2 & d2' & key2 & cfg2 & salt2 & nonce2 & sq2 & A2 & _ & (Hck & _)).
  destruct (admission_check_Ok _ _ _ _ _ m2 Hck (ei_book _ _ Hinv2) eq_refl) as (_ & N1 & N2 & N3 & _).
  destruct (steps_extends _ _ Hs) as [X1 X2 X3 _ _]. rewrite Hst in X1, X2, X3. simpl in X1, X2, X3.
  destruct A1 as [_ Dec1 _ _ _ _ _ _ _ _ _ Sa1 No1 (bp1 & _ & Sec1) _ Rp1].
  destruct A2 as [_ Dec2 _ _ _ _ _ _ _ _ _ Sa2 No2 (bp2 & _ & Sec2) _ Rp2].
  rewrite D1 in Dec1. injection Dec1 as <-. rewrite D2 in Dec2. injection Dec2 as <-.
  rewrite Rp1 in X2, X3. rewrite Rp2 in N2, N3. simpl in N2, N3, X2, X3. split_and!.
  - intros ->. set_solver.
  - intros [Ht Hn]. rewrite Hn, No2 in No1. injection No1 as ->. rewrite Ht in X3. set_solver.
  - intros (Ht & Hsd & Hp & Hsz & Hsa). rewrite Hsa, Sa2 in Sa1. injection Sa1 as ->. rewrite Ht, Hsd in Sec1.
    rewrite (nullifier_function _ _ _ _ _ _ _ _ _ _ _ _ _ Sec1 Sec2 Hp Hsz) in X2. set_solver.
Qed.

(** The history only grows.  Whatever operations run, a registered pair stays
    registered with the same tokens, decimals, limits and interval, and its
    status only moves from active to suspended to delisted; recorded auctions
    stay recorded; and spent ciphertexts, nullifiers and nonces stay spent. *)
Theorem history_append_only e e' : rtc step e e' -> extends (e_state e) (e_state e').
Proof. apply steps_extends. Qed.

(** Delisting is final.  When it succeeds all orders of the pair have left
    the book and no others have; after any further operations the pair is
    still delisted, none of its orders rest in the book, and no placement for
    it succeeds, even one that was checked before the delisting. *)
Theorem delist_final env now e pr e1 n key :
  reachable e -> room e -> delist_pair env now e pr = Ret (e1, Ok n) -> Pair.parse pr = Ok key ->
  (forall i o, Book.find_order (es_book (e_state e1)) i = Some o <->
    Book.find_order (es_book (e_state e)) i = Some o /\ o_pair o <> key) /\
  forall e2, rtc step e1 e2 ->
    pair_status e2 key = Some Delisted /\
    (forall i o, Book.find_order (es_book (e_state e2)) i = Some o -> o_pair o <> key) /\
    (forall penv senv s_seen s_cfg proof ciphertext caller e3 o, room e2 ->
      Book.find_order (es_book (e_state e2)) (pe_new_id penv) = None ->
      place_encrypted_order (F:=F) penv senv s_seen s_cfg e2 proof ciphertext caller = Ret (e3, Ok o) -> o_pair o <> key).
Proof.
  intros (m & Hinv)%reachable_inv Hr Hd Hk.
  destruct (inv_delist env now e m pr Hinv Hr) as (e1' & r & m1 & Heq & Hinv1 & Hsh & Hdel).
  rewrite Hd in Heq. injection Heq as <- <-. destruct (Hdel n key eq_refl Hk) as [(cfg & Hcfg & Hst) Hm1].
  split.
  { intros i o. rewrite (find_order_lookup _ m1), (find_order_lookup _ m) by (apply Hinv1 || apply Hinv).
    apply Hm1. }
  intros e2 Hs. destruct (steps_inv e1 e2 m1 Hinv1 Hs) as (m2 & Hinv2).
  destruct (ex_pairs _ _ (steps_extends _ _ Hs) key cfg Hcfg) as (st & Hcfg2 & Hrank).
  assert (st = Delisted) as -> by (rewrite Hst in Hrank; destruct st; simpl in Hrank; (done || lia)).
  split_and!.
  - unfold pair_status, pair_config. by rewrite Hcfg2.
  - intros i o. rewrite (find_order_lookup _ m2) by apply Hinv2. intros Ho <-.
    destruct (oo_pair _ _ _ (ei_orders _ _ Hinv2) i o Ho) as (c & Hc & Hne). rewrite Hcfg2 in Hc. by injection Hc as <-.
  - intros penv senv s_seen s_cfg proof ct caller e3 o Hr2 Hf Hp <-.
    rewrite (find_order_lookup _ m2) in Hf by apply Hinv2.
    destruct (inv_place penv senv s_seen s_cfg e2 m2 proof ct caller Hinv2 Hr2 Hf) as (e3' & r & m3 & Heq & _ & Hpl).
    rewrite Hp in Heq. injection Heq as <- <-. destruct Hpl as (p & _ & _ & _ & _ & _ & sq & _ & -> & (Hck & _)).
    destruct (admission_check_Ok _ _ _ _ _ m2 Hck (ei_book _ _ Hinv2) eq_refl) as ((c & Hc & Hact) & _).
    unfold pair_config in Hc. simpl in Hcfg2. rewrite Hcfg2 in Hc. by injection Hc as <-.
Qed.

(** Cancelling removes the order and nothing else, with its secrets.  It is
    refused exactly when the order is not in the book or the store fails, and
    then the book stays as it is. *)
Theorem cancel_exact env now e i reason :
  reachable e -> room e ->
  exists e' r, cancel_order env now e i reason = Ret (e', r) /\
    match r with
    | Ok _ => is_Some (Book.find_order (es_book (e_state e)) i) /\ e_secrets e' = delete i (e_secrets e) /\
        forall j, Book.find_order (es_book (e_state e')) j = if decide (j = i) then None else Book.find_order (es_book (e_state e)) j
    | Err err => (Book.find_order (es_book (e_state e)) i = None -> err = Validation OrderNotFound) /\
        forall j, Book.find_order (es_book (e_state e')) j = Book.find_order (es_book (e_state e)) j
    end.
Proof.
  intros (m & Hinv)%reachable_inv Hr. destruct (inv_cancel env now e m i reason Hinv Hr) as (e' & r & m' & Heq & Hinv' & _ & Hres).
  pose proof (ei_book _ _ Hinv) as Hrep. pose proof (ei_book _ _ Hinv') as Hrep'.
  assert (forall j, Book.find_order (es_book (e_state e)) j = m !! j) as Hf by (intros; by apply find_order_lookup).
  assert (forall j, Book.find_order (es_book (e_state e')) j = m' !! j) as Hf' by (intros; by apply find_order_lookup).
  exists e', r. split; [done|]. destruct r as [u|err].
  - destruct Hres as (Hi & -> & Hs). rewrite Hf. split_and!; [done..|]. intros j. rewrite Hf', Hf.
    case_decide as Hj; [subst; apply lookup_delete_eq|by apply lookup_delete_ne].
  - destruct Hres as [-> Herr]. split; [|intros j; by rewrite Hf', Hf]. intros Hn. rewrite Hf in Hn. by apply Herr.
Qed.
End machine.
