(* ===== verification/Rounds.v ===== *)
(** * What a tick records

    The rounds of [tick_under_lock] ([dp-engine/src/tick.rs]) together: which
    matches they record, what they leave of the orders, and how the matches
    reach the chunks that are proved and settled. *)

From S2P Require Import Prelude Decimal Types Field Auction Events Book Merkle EngineState Engine Admission Witness Tick Batch Machine.
Open Scope Z_scope.

Section rounds.
Context {D F St : Type} `{!DecimalOps D, !DecimalLaws D, !FieldOps F, !FieldLaws F, !Poseidon F, !StoreOps D St, !StoreLaws D St,
  SHA : !Sha256, HEX : !HexOps, ADDR : !AddressOps} {HI : HashIter}.
Implicit Types (e : Engine D St) (m : gmap Uuid (Order D)) (o : Order D) (ps : list (PendingAggregation D)).

(** The matches an event log records, in order. *)
Definition recorded_matches (evs : list (Event D)) : list (Match D) :=
  flat_map (fun ev => match ev_data ev with OrderMatched _ bid ask p s => [mkMatch bid ask p s] | _ => [] end) evs.

(** The matches of the chunks, in order. *)
Definition chunk_matches ps : list (Match D) := flat_map pa_matches ps.

(** A match between two orders of the map, on the pair, at a price both limits
    admit, for a size both have left, and that can be encoded. *)
Definition leg_match m (pr : Str) (mt : Match D) : Prop :=
  exists bo ao, m !! fill_order_id (match_bid_fill mt) = Some bo /\ m !! fill_order_id (match_ask_fill mt) = Some ao /\
    o_side bo = Buy /\ o_side ao = Sell /\ o_pair bo = pr /\ o_pair ao = pr /\ o_trader bo <> o_trader ao /\
    units (o_price ao) <= units (match_price mt) <= units (o_price bo) /\
    units (match_size mt) <= rem_units bo /\ units (match_size mt) <= rem_units ao /\
    encodable (match_price mt) /\ encodable (match_size mt).

(** One match takes at most what the order gives in all. *)
Lemma zsum_elem {A} (f : A -> Z) (q : A -> bool) l x :
  (forall y, y ∈ l -> 0 <= f y) -> x ∈ l -> q x = true -> f x <= zsum (map f (List.filter q l)).
Proof.
  intros Hpos Hx Hq. induction l as [|y l IH]; [by apply elem_of_nil in Hx|].
  assert (Hl : 0 <= zsum (map f (List.filter q l))).
  { apply zsum_nonneg, Forall_map, Forall_forall. intros z [Hz _]%elem_of_list_filter_bool. apply Hpos. by right. }
  assert (Hy : 0 <= f y) by (apply Hpos; by left). cbn [List.filter]. apply elem_of_cons in Hx as [->|Hx].
  - rewrite Hq. simpl. lia.
  - destruct (q y); simpl; (eapply Z.le_trans; [apply IH; [intros z Hz; apply Hpos; by right|done]|]); lia.
Qed.

Lemma round_legs env e m pr r :
  engine_inv (F:=F) e m ->
  Auction.run (te_auction_id env pr) pr (Book.bids (es_book (e_state e)) pr) (Book.asks (es_book (e_state e)) pr) = Ret (Some r) ->
  Forall (leg_match m pr) (matches r).
Proof.
  intros Hinv Hrun. pose proof (ei_book _ _ Hinv) as Hrep. destruct (round_length env e m pr r Hinv Hrun) as [_ Hsz].
  pose proof (book_auction_input _ m pr Hrep (oo_live _ _ _ (ei_orders _ _ Hinv)) Hsz) as Hin.
  destruct (run_done _ _ _ _ _ Hin Hrun) as (bids' & asks' & Hd).
  pose proof Hd as (Hcp & Hpos & _ & _ & _ & _ & _ & _ & M3 & _). rewrite Forall_forall in M3. apply Forall_forall.
  intros mt Hmt. destruct (M3 mt Hmt) as (b & Hb & Hid & Hpr & _ & _ & ? & ? & a & Ha & Hida & Htr & _).
  apply eligible_sorted_bids in Hb as (Hb & ? & _). apply eligible_sorted_asks in Ha as (Ha & ? & _).
  assert (Hnn : forall mt, mt ∈ matches r -> 0 <= units (match_size mt)).
  { intros mt' Hmt'. destruct (M3 mt' Hmt') as (? & _ & _ & _ & _ & _ & ? & _). lia. }
  assert (units (match_size mt) <= rem_units b).
  { eapply Z.le_trans; [|exact (done_bid_filled _ _ _ _ _ b Hin Hd Hb)].
    apply (zsum_elem (fun mt => units (match_size mt))); [done..|by apply Z.eqb_eq]. }
  assert (units (match_size mt) <= rem_units a).
  { eapply Z.le_trans; [|exact (done_ask_filled _ _ _ _ _ a Hin Hd Ha)].
    apply (zsum_elem (fun mt => units (match_size mt))); [done..|by apply Z.eqb_eq]. }
  apply (elem_of_bids _ _ _ _ Hrep) in Hb as (? & ? & ?). apply (elem_of_asks _ _ _ _ Hrep) in Ha as (? & ? & ?).
  exists b, a. rewrite Hid, Hida, Hpr. split_and!; try done; lia.
Qed.

Lemma fill_total_app (fs1 fs2 : list (Fill D)) i : fill_total (fs1 ++ fs2) i = fill_total fs1 i + fill_total fs2 i.
Proof. unfold fill_total. by rewrite List.filter_app, map_app, zsum_app. Qed.

Lemma match_fills_app (ms1 ms2 : list (Match D)) : match_fills (ms1 ++ ms2) = match_fills ms1 ++ match_fills ms2.
Proof. apply flat_map_app. Qed.

Lemma filled_by_trans (fs1 fs2 : list (Fill D)) i (a b c : option (Order D)) :
  filled_by fs1 i a b -> filled_by fs2 i b c -> (b = None -> fill_total fs2 i = 0) -> filled_by (fs1 ++ fs2) i a c.
Proof.
  unfold filled_by. rewrite fill_total_app. destruct a as [o|]; [|by intros ->].
  intros [[H1 ->]|(H1 & r & -> & Hr)] H2 Hz; [left; split; [rewrite Hz by done; lia|done]|].
  unfold rem_units in *. simpl in H2. destruct H2 as [[H2 ->]|(H2 & r' & -> & Hr')]; [left|right]; (split; [lia|]); [done|].
  exists r'. split; [done|lia].
Qed.

(** Orders that are not in the book are not filled. *)
Lemma legs_not_filled m pr (ms : list (Match D)) i :
  Forall (leg_match m pr) ms -> m !! i = None -> fill_total (match_fills ms) i = 0.
Proof.
  intros Hms Hi. unfold match_fills. induction Hms as [|mt ms (bo & ao & Hb & Ha & _) _ IH]; [done|]. simpl.
  rewrite !fill_total_cons, IH.
  destruct (Z.eqb_spec (fill_order_id (match_bid_fill mt)) i); [congruence|].
  destruct (Z.eqb_spec (fill_order_id (match_ask_fill mt)) i); [congruence|done].
Qed.

Lemma chunk_matches_round env pr r orders admitted cs :
  chunk_matches (round_chunks env pr r orders admitted cs) = concat cs.
Proof.
  unfold chunk_matches, round_chunks. generalize (te_batch_id env pr) as f. induction cs as [|c cs IH]; intros f; [done|].
  cbn [imap flat_map pa_matches concat]. f_equal. exact (IH (f ∘ S)).
Qed.

Lemma recorded_matches_data (evs1 evs2 : list (Event D)) :
  map ev_data evs1 = map ev_data evs2 -> recorded_matches evs1 = recorded_matches evs2.
Proof.
  revert evs2; induction evs1 as [|x evs1 IH]; intros [|y evs2]; try done. simpl. intros [= Hd Hr].
  by rewrite Hd, (IH evs2).
Qed.

Lemma recorded_matches_round now (r : AuctionResult D) : recorded_matches (round_events now r) = matches r.
Proof.
  unfold round_events, recorded_matches. simpl. induction (matches r) as [|mt ms IH]; [done|]. simpl. rewrite IH. by destruct mt.
Qed.

Lemma recorded_matches_app (evs1 evs2 : list (Event D)) :
  recorded_matches (evs1 ++ evs2) = recorded_matches evs1 ++ recorded_matches evs2.
Proof. apply flat_map_app. Qed.

(** What one step of the loop records. *)
Lemma round_step_recorded env e m pr e' m' ns ps :
  engine_inv (F:=F) e m -> round_step (F:=F) env e m pr e' m' ns ps ->
  (exists evs, st_log (e_store e') = st_log (e_store e) ++ evs /\ recorded_matches evs = chunk_matches ps) /\
  (forall i, filled_by (match_fills (chunk_matches ps)) i (m !! i) (m' !! i)) /\
  Forall (leg_match m pr) (chunk_matches ps).
Proof.
  intros Hinv Hst.
  assert (Hrefl : forall i, filled_by (match_fills []) i (m !! i) (m !! i)).
  { intros i. unfold filled_by. destruct (m !! i) as [o|] eqn:Ho; [|done]. right.
    destruct (oo_live _ _ _ (ei_orders _ _ Hinv) i o Ho) as (_ & ? & _). split; [done|].
    exists (o_remaining_size o). split; [by destruct o|].
    change (fill_total (match_fills []) i) with 0. unfold rem_units. lia. }
  destruct Hst as [Hrun|st Hlog|e' m' r ps [Hrun _ Hf (evs & Hlog & Hd) _ (cs & Hcs & _ & ->)]].
  - split_and!; [exists []; by rewrite app_nil_r|done|constructor].
  - split_and!; [exists []; by rewrite app_nil_r|done|constructor].
  - rewrite chunk_matches_round, Hcs. split_and!; [|done|by eapply round_legs].
    exists evs. split; [done|]. by rewrite (recorded_matches_data _ _ Hd), recorded_matches_round.
Qed.

Lemma leg_match_shrinks m m' pr mt : shrinks m m' -> leg_match m' pr mt -> leg_match m pr mt.
Proof.
  intros Hs (bo & ao & Hb & Ha & ? & ? & ? & ? & ? & ? & ? & ? & ? & ?).
  destruct (Hs _ _ Hb) as (bo' & rb & ? & -> & ?). destruct (Hs _ _ Ha) as (ao' & ra & ? & -> & ?).
  exists bo', ao'. unfold rem_units in *. simpl in *. split_and!; try done; lia.
Qed.

Lemma round_step_shrinks env e m pr e' m' ns ps :
  engine_inv (F:=F) e m -> round_step (F:=F) env e m pr e' m' ns ps -> shrinks m m'.
Proof.
  intros Hinv Hst. destruct (round_step_recorded _ _ _ _ _ _ _ _ Hinv Hst) as (_ & Hf & Hlegs).
  eapply shrinks_filled; [|exact Hf]. unfold match_fills.
  destruct Hst as [Hrun|st Hlog|e' m' r ps [Hrun _ _ _ _ (cs & Hcs & _ & ->)]]; [constructor..|].
  rewrite chunk_matches_round, Hcs. pose proof (ei_book _ _ Hinv) as Hrep.
  destruct (round_length env e m pr r Hinv Hrun) as [_ Hsz].
  exact (match_fills_good _ m pr _ r Hrep (oo_live _ _ _ (ei_orders _ _ Hinv)) Hsz Hrun).
Qed.

(** The snapshot of a round holds exactly the legs' orders. *)
Lemma order_snapshot_spec book m (ms : list (Match D)) i :
  represents book m ->
  order_snapshot book ms !! i = if decide (i ∈ map fill_order_id (match_fills ms)) then m !! i else None.
Proof.
  intros Hrep. unfold order_snapshot.
  set (put := fun (snap : gmap Uuid (Order D)) j => match Book.find_order book j with Some o => <[o_id o := o]> snap | None => snap end).
  assert (Hput : forall snap j, (forall o, snap !! i = Some o -> m !! i = Some o) ->
    put snap j !! i = if decide (j = i) then m !! i else snap !! i).
  { intros snap j Hsn. unfold put. rewrite (find_order_lookup _ m _ Hrep). destruct (m !! j) as [o|] eqn:Ho.
    - destruct (represents_located _ _ _ _ Hrep Ho) as (_ & _ & _ & ->).
      case_decide as Hj; [subst; by rewrite Ho, lookup_insert_eq|by rewrite lookup_insert_ne].
    - case_decide as Hj; [subst|done]. rewrite Ho. destruct (snap !! i) eqn:Hs; [|done]. by rewrite (Hsn _ eq_refl) in Ho. }
  assert (Hgen : forall ids snap, (forall o, snap !! i = Some o -> m !! i = Some o) ->
    fold_left put ids snap !! i = if decide (i ∈ ids) then m !! i else snap !! i).
  { induction ids as [|j ids IH]; intros snap Hsn; cbn [fold_left].
    { rewrite decide_False; [done|]. apply not_elem_of_nil. }
    rewrite IH, (Hput snap j Hsn); [|intros o; rewrite (Hput snap j Hsn); destruct (decide (j = i)); auto].
    assert (Hin : i ∈ j :: ids <-> j = i \/ i ∈ ids) by (rewrite elem_of_cons; intuition congruence).
    destruct (decide (i ∈ ids)), (decide (j = i)), (decide (i ∈ j :: ids)); try done; exfalso; tauto. }
  assert (Hfold : forall snap, fold_left (fun snap mt => put (put snap (fill_order_id (match_bid_fill mt))) (fill_order_id (match_ask_fill mt))) ms snap =
    fold_left put (map fill_order_id (match_fills ms)) snap).
  { unfold match_fills. induction ms as [|mt ms IH]; intros snap; [done|]. simpl. apply IH. }
  etransitivity; [exact (f_equal (fun x => x !! i) (Hfold ∅))|]. rewrite Hgen; [by rewrite lookup_empty|].
  intros o. by rewrite lookup_empty.
Qed.

Lemma elem_of_list_bind_flat {A B} (f : A -> list B) l y : y ∈ flat_map f l <-> exists x, x ∈ l /\ y ∈ f x.
Proof.
  induction l as [|x l IH]; simpl; [split; [by intros ?%elem_of_nil|by intros (? & ?%elem_of_nil & _)]|].
  rewrite elem_of_app, IH. setoid_rewrite elem_of_cons. split.
  - intros [?|(z & ? & ?)]; eauto.
  - intros (z & [->|?] & ?); eauto.
Qed.

(** One leg of a match of a chunk: its order is in the snapshot and among the
    admitted ones, and the engine holds its secrets. *)
Definition leg_ready (secrets : gmap Uuid (OrderSecrets D)) (p : PendingAggregation D) (sd : Side) (f : Fill D) : Prop :=
  exists o sec, pa_orders p !! fill_order_id f = Some o /\ o_id o = fill_order_id f /\ o_side o = sd /\ o_pair o = pa_pair p /\
    encodable (o_price o) /\ encodable (o_size o) /\
    fill_order_id f ∈ pa_admitted_order_ids p /\ secrets !! fill_order_id f = Some sec /\ secrets_of (F:=F) o sec.

(** A match both limits admit, within the sizes the orders were placed with. *)
Definition fair_match (p : PendingAggregation D) (mt : Match D) : Prop :=
  exists bo ao, pa_orders p !! fill_order_id (match_bid_fill mt) = Some bo /\ pa_orders p !! fill_order_id (match_ask_fill mt) = Some ao /\
    units (o_price ao) <= units (match_price mt) <= units (o_price bo) /\
    units (match_size mt) <= units (o_size bo) /\ units (match_size mt) <= units (o_size ao).

(** A chunk as the tick hands it to the aggregator: between one match and the
    width of the circuit, with both legs of each ready, prices and sizes that can
    be encoded, all at one price that suits both sides.  The balances of the
    traders, which the circuit also takes, are not part of it. *)
Record chunk_ready (n : nat) (secrets : gmap Uuid (OrderSecrets D)) (p : PendingAggregation D) : Prop := {
  cr_length : (0 < length (pa_matches p) <= n)%nat;
  cr_legs : Forall (fun mt => leg_ready secrets p Buy (match_bid_fill mt) /\ leg_ready secrets p Sell (match_ask_fill mt) /\
    encodable (match_price mt) /\ encodable (match_size mt)) (pa_matches p);
  cr_admitted : NoDup (pa_admitted_order_ids p);
  cr_fair : Forall (fair_match p) (pa_matches p);
  cr_uniform : exists cp, Forall (fun mt => match_price mt = cp) (pa_matches p)
}.

Lemma run_pair aid pr (bids asks : list (Order D)) r : Auction.run aid pr bids asks = Ret (Some r) -> auction_pair r = pr.
Proof.
  unfold Auction.run. destruct bids; [done|]. destruct asks; [done|]. repeat case_match; try done.
  intros (cp & _ & Hr)%outcome_bind_Ret. destruct (dec_leb cp dec_zero); [done|].
  apply outcome_bind_Ret in Hr as (ms & _ & Hr). destruct ms; [done|]. by apply outcome_bind_Ret in Hr as (vol & _ & [= <-]).
Qed.

Lemma round_chunks_elem env pr (r : AuctionResult D) orders admitted cs p :
  p ∈ round_chunks env pr r orders admitted cs ->
  exists c, c ∈ cs /\ pa_matches p = c /\ pa_orders p = orders /\ pa_admitted_order_ids p = admitted /\ pa_pair p = auction_pair r.
Proof.
  unfold round_chunks. intros (i & c & -> & Hc)%elem_of_lookup_imap. exists c. split_and!; try done. by eapply list_elem_of_lookup_2.
Qed.

Lemma round_step_ready env e m pr e' m' ns ps :
  engine_inv (F:=F) e m -> round_step (F:=F) env e m pr e' m' ns ps ->
  Forall (fun p => pa_pair p = pr /\ chunk_ready (e_batch_size e) (e_secrets e) p) ps.
Proof.
  intros Hinv [Hrun|st Hlog|e1 m1 r ps1 [Hrun _ _ _ _ (cs & Hcs & Hlen & ->)]]; [constructor..|].
  apply Forall_forall. intros p (c & Hc & Hpm & Hpo & Hpa & Hpp)%round_chunks_elem. rewrite (run_pair _ _ _ _ _ Hrun) in Hpp.
  pose proof (ei_book _ _ Hinv) as Hrep. pose proof (round_legs env e m pr r Hinv Hrun) as Hlegs.
  assert (Hsub : forall mt, mt ∈ c -> mt ∈ matches r).
  { intros mt Hmt. rewrite <- Hcs. apply list_elem_of_In, in_concat. exists c. by rewrite <- !list_elem_of_In. }
  rewrite Forall_forall in Hlen. rewrite Forall_forall in Hlegs. split; [done|]. split.
  - rewrite Hpm. by apply Hlen.
  - apply Forall_forall. intros mt Hmt. rewrite Hpm in Hmt.
    pose proof (Hsub mt Hmt) as Hin.
    destruct (Hlegs mt Hin) as (bo & ao & Hb & Ha & Hsb & Hsa & Hpb & Hpa' & _ & _ & _ & _ & Hep & Hes).
    assert (Hleg : forall sd f o, f ∈ match_fills (matches r) -> m !! fill_order_id f = Some o -> o_side o = sd -> o_pair o = pr ->
      leg_ready (e_secrets e) p sd f).
    { intros sd f o Hf Ho Hsd Hpr. destruct (ei_secrets _ _ Hinv _ _ Ho) as (sec & Hsec & Hof).
      destruct (oo_live _ _ _ (ei_orders _ _ Hinv) _ _ Ho) as ((? & ? & _) & _ & Hid).
      destruct (oo_size _ _ _ (ei_orders _ _ Hinv) _ _ Ho) as [? _].
      exists o, sec. rewrite Hpo, Hpa, Hpp, (order_snapshot_spec _ m _ _ Hrep). split_and!; try done.
      - rewrite decide_True; [done|]. by apply list_elem_of_fmap_2.
      - rewrite <- Hid. apply list_elem_of_fmap_2. apply elem_of_app.
        rewrite (elem_of_bids _ m _ _ Hrep), (elem_of_asks _ m _ _ Hrep), Hid. destruct (o_side o) eqn:?; [left|right]; done. }
    split_and!; try done.
    + apply (Hleg Buy _ bo); try done. unfold match_fills. apply elem_of_list_bind_flat. exists mt. split; [done|]. by left.
    + apply (Hleg Sell _ ao); try done. unfold match_fills. apply elem_of_list_bind_flat. exists mt. split; [done|]. right. by left.
  - rewrite Hpa, map_app. apply NoDup_app. split_and!; [by eapply NoDup_bids| |by eapply NoDup_asks].
    intros i (b & -> & Hb)%list_elem_of_fmap (a & Hab & Ha)%list_elem_of_fmap.
    apply (elem_of_bids _ m _ _ Hrep) in Hb as (? & _ & ?). apply (elem_of_asks _ m _ _ Hrep) in Ha as (? & _ & ?). congruence.
  - rewrite Hpm. apply Forall_forall. intros mt Hmt.
    pose proof (Hsub mt Hmt) as Hin.
    destruct (Hlegs mt Hin) as (bo & ao & Hb & Ha & _ & _ & _ & _ & _ & ? & ? & ? & _).
    destruct (oo_size _ _ _ (ei_orders _ _ Hinv) _ _ Hb) as [_ ?]. destruct (oo_size _ _ _ (ei_orders _ _ Hinv) _ _ Ha) as [_ ?].
    exists bo, ao. rewrite Hpo, !(order_snapshot_spec _ m _ _ Hrep), !decide_True; [split_and!; try done; lia|..];
      apply list_elem_of_fmap_2; unfold match_fills; apply elem_of_list_bind_flat; exists mt; (split; [done|]); [right|]; by left.
  - rewrite Hpm. exists (clearing_price r). apply Forall_forall. intros mt Hmt.
    pose proof (Hsub mt Hmt) as Hin.
    destruct (round_length env e m pr r Hinv Hrun) as [_ Hsz].
    pose proof (book_auction_input _ m pr Hrep (oo_live _ _ _ (ei_orders _ _ Hinv)) Hsz) as Hai.
    destruct (run_done _ _ _ _ _ Hai Hrun) as (? & ? & _ & _ & _ & _ & _ & _ & _ & _ & M3 & _). rewrite Forall_forall in M3.
    by destruct (M3 mt Hin) as (? & _ & _ & ? & _).
Qed.

Lemma rounds_recorded env prs e m e' m' ns ps :
  engine_inv (F:=F) e m -> rounds (F:=F) env e m prs e' m' ns ps ->
  (exists evs, st_log (e_store e') = st_log (e_store e) ++ evs /\ recorded_matches evs = chunk_matches ps) /\
  (forall i, filled_by (match_fills (chunk_matches ps)) i (m !! i) (m' !! i)) /\
  Forall (fun mt => exists pr, pr ∈ prs /\ leg_match m pr mt) (chunk_matches ps) /\
  Forall (fun p => pa_pair p ∈ prs /\ chunk_ready (e_batch_size e) (e_secrets e) p) ps.
Proof.
  intros Hinv Hr. induction Hr as [e m|e m pr prs e1 m1 ns1 ps1 e2 m2 ns2 ps2 Hst Hinv1 Hsec Hbs Hrs IH].
  { destruct (round_step_recorded env e m [] (with_store e (e_store e)) m [] [] Hinv) as (_ & ? & _); [by apply round_unrecorded|].
    split_and!; [exists []; by rewrite app_nil_r|done|constructor|constructor]. }
  destruct (round_step_recorded _ _ _ _ _ _ _ _ Hinv Hst) as ((evs1 & Hlog1 & Hev1) & Hf1 & Hl1).
  destruct (IH Hinv1) as ((evs2 & Hlog2 & Hev2) & Hf2 & Hl2 & Hc2).
  pose proof (round_step_shrinks _ _ _ _ _ _ _ _ Hinv Hst) as Hsh.
  assert (Happ : chunk_matches (ps1 ++ ps2) = chunk_matches ps1 ++ chunk_matches ps2) by apply flat_map_app.
  rewrite Happ. split_and!.
  - exists (evs1 ++ evs2). by rewrite Hlog2, Hlog1, <- app_assoc, recorded_matches_app, Hev1, Hev2.
  - intros i. rewrite match_fills_app. apply (filled_by_trans _ _ i _ (m1 !! i)); [done..|].
    intros Hn. clear -Hl2 Hn. unfold match_fills. induction Hl2 as [|mt ms (pr & _ & bo & ao & Hb & Ha & _) _ IHl]; [done|].
    simpl. rewrite !fill_total_cons, IHl. repeat (case_match; [exfalso; rewrite Z.eqb_eq in *; congruence|]). done.
  - apply Forall_app. split; [eapply Forall_impl; [exact Hl1|]|eapply Forall_impl; [exact Hl2|]]; simpl.
    + intros mt Hmt. exists pr. split; [by left|done].
    + intros mt (pr' & ? & ?). exists pr'. split; [by right|]. by eapply leg_match_shrinks.
  - apply Forall_app. split.
    + eapply Forall_impl; [exact (round_step_ready _ _ _ _ _ _ _ _ Hinv Hst)|]. intros p [-> ?]. split; [by left|done].
    + rewrite <- Hsec, <- Hbs. eapply Forall_impl; [exact Hc2|]. intros p [? ?]. split; [by right|done].
Qed.

(** Expiry records no match. *)
Lemma expire_log env e m e1 :
  engine_inv (F:=F) e m -> room e -> expire_orders env e = Ret e1 ->
  exists evs, st_log (e_store e1) = st_log (e_store e) ++ evs /\ recorded_matches evs = [].
Proof.
  intros Hinv Hr. destruct (inv_expire env e m Hinv (room_lt e (2 ^ 29) Hr ltac:(lia))) as (e1' & m1 & He & _).
  unfold expire_orders. cbv zeta.
  assert (Hcol : forall ev, ev ∈ Book.collect_expired (es_book (e_state e)) (te_now env) -> exists i, ev_data ev = OrderExpiredEv i).
  { intros ev. rewrite (collect_expired_perm _ m _ (ei_book _ _ Hinv)). intros (o & -> & _)%list_elem_of_fmap. by eexists. }
  assert (Hlen : Z.of_nat (length (Book.collect_expired (es_book (e_state e)) (te_now env))) <= 2 ^ 29).
  { rewrite (Permutation_length (collect_expired_perm _ m _ (ei_book _ _ Hinv))), length_map.
    pose proof (filter_length_le (Book.is_expired (te_now env)) (orders_of m)) as Hl.
    pose proof (oo_capacity _ _ _ (ei_orders _ _ Hinv)) as Hcap. unfold MAX_ACTIVE_ORDERS, orders_of in *.
    rewrite length_fmap, length_map_to_list in Hl. lia. }
  destruct (Book.collect_expired _ _) as [|ev0 evs0]; [intros [= <-]; exists []; by rewrite app_nil_r|].
  set (evs1 := map _ _). assert (Hb : st_last_seq (e_store e) + Z.of_nat (length evs1) <= u64_max).
  { unfold evs1. rewrite length_map. apply room_lt; done. }
  destruct (st_append _ _ _) as [st [evs|]] eqn:Ha.
  - intros (book & _ & [= <-])%outcome_bind_Ret. destruct (appended_sorted _ _ _ _ _ (ei_store _ _ Hinv) Hb Ha) as (_ & Hd & _ & _ & Hlog & _).
    exists evs. split; [done|]. rewrite (recorded_matches_data _ _ Hd). unfold evs1. clear -Hcol. revert Hcol.
    generalize (ev0 :: evs0) as l. induction l as [|x l IH]; intros Hcol; [done|]. simpl.
    destruct (Hcol x) as [i ->]; [by left|]. apply IH. intros ev Hev. apply Hcol. by right.
  - intros [= <-]. destruct (st_append_err _ _ _ _ _ (ei_store _ _ Hinv) Hb Ha) as (_ & Hlog & _).
    exists []. by rewrite app_nil_r.
Qed.

Lemma elem_of_active_pairs (s : EngineState D) pr :
  pr ∈ active_pairs s <-> exists cfg, es_pair_tokens s !! pr = Some cfg /\ status cfg = Active.
Proof.
  unfold active_pairs. rewrite sort_by_perm, list_elem_of_fmap. split.
  - intros ([k c] & -> & [Hin Ha]%elem_of_list_filter_bool). apply elem_of_hm_iter in Hin. exists c. split; [done|].
    simpl in Ha. by destruct (status c).
  - intros (c & Hc & Ha). exists (pr, c). split; [done|]. apply elem_of_list_filter_bool.
    split; [by apply elem_of_hm_iter|]. simpl. by rewrite Ha.
Qed.

(** C7: a tick records exactly what it matches.  On every engine it returns.
    Starting from the orders that have not expired (or from all of them, when
    the store refuses the expiry events), every order has lost exactly its
    fills in the matches of the chunks, and an exhausted order has left; the
    matches of the log are the matches of the chunks, in order; each match
    joins a bid and an ask of different traders on one active pair at a price
    both limits admit; and each chunk is within the width of the circuit, all
    its matches are at one price within the limits of both legs, its prices and
    sizes encode, and both legs of every match are there with their secrets.
    Whether the traders' balances encode is not checked by the tick. *)
Theorem tick_records env e :
  reachable (F:=F) e -> room e ->
  exists e' ns ps m m0 m', tick_under_lock (F:=F) env e = Ret (e', ns, ps) /\ engine_inv (F:=F) e m /\ engine_inv (F:=F) e' m' /\
    (m0 = m \/ m0 = unexpired (te_now env) m) /\
    (forall i, filled_by (match_fills (chunk_matches ps)) i (m0 !! i) (m' !! i)) /\
    (exists evs, st_log (e_store e') = st_log (e_store e) ++ evs /\ recorded_matches evs = chunk_matches ps) /\
    Forall (fun mt => exists pr, pair_status e pr = Some Active /\ leg_match m0 pr mt) (chunk_matches ps) /\
    Forall (fun p => pair_status e (pa_pair p) = Some Active /\ chunk_ready (e_batch_size e') (e_secrets e') p) ps.
Proof.
  intros (m & Hinv)%reachable_inv Hr.
  destruct (inv_tick env e m Hinv Hr) as (e' & m' & ns & ps & e1 & m0 & Ht & Hinv' & _ & He1 & Hinv1 & Hm0 & Hsec & Hbs & Hs1 & Hrs).
  destruct (rounds_recorded _ _ _ _ _ _ _ _ Hinv1 Hrs) as ((evs2 & Hlog2 & Hev2) & Hf & Hl & Hc).
  destruct (expire_log env e m e1 Hinv Hr He1) as (evs1 & Hlog1 & Hev1).
  assert (Hact : forall pr, pr ∈ active_pairs (e_state e) -> pair_status e pr = Some Active).
  { intros pr (cfg & Hcfg & Ha)%elem_of_active_pairs. unfold pair_status, pair_config. rewrite Hcfg. simpl. by rewrite Ha. }
  exists e', ns, ps, m, m0, m'. split_and!; try done.
  - exists (evs1 ++ evs2). by rewrite Hlog2, Hlog1, <- app_assoc, recorded_matches_app, Hev1, Hev2.
  - eapply Forall_impl; [exact Hl|]. intros mt (pr & ? & ?). exists pr. split; [by apply Hact|done].
  - eapply Forall_impl; [exact Hc|]. intros p [? ?]. split; [by apply Hact|].
    by rewrite Hsec, Hbs, <- Hs1.
Qed.
End rounds.
