(* ===== verification/Provable.v ===== *)
(** * From matches to the inputs of a fold

    [build_batch_witness] ([dp-engine/src/engine.rs]) prints the legs of a chunk as
    text and [from_witness_with_admitted] ([dp-zk/src/step_circuit.rs]) reads them
    back, encodes them as field elements and attaches membership paths.  For a
    chunk whose legs are ready the whole way succeeds and loses nothing, under
    conditions on balances, positions and the size of the book; the theorems at
    the end show that each of those conditions is needed. *)

From S2P Require Import Prelude Decimal Types Field Auction Events Book Merkle EngineState Engine Admission Witness Tick Batch Machine.
From S2P Require Import Rounds.
Open Scope Z_scope.

(** ** Text *)

Lemma dec_digits_spec fuel z :
  0 <= z < 10 ^ Z.of_nat fuel ->
  forallb is_digit (dec_digits fuel z) = true /\ (z < 10 ^ Z.of_nat fuel -> fuel <> 0%nat -> dec_digits fuel z <> []) /\
  digits_value (dec_digits fuel z) = z.
Proof.
  revert z; induction fuel as [|fuel IH]; intros z Hz; [simpl in *; split_and!; [done|done|unfold digits_value; simpl; lia]|].
  cbn [dec_digits]. destruct (Z.ltb_spec z 10).
  { split_and!; [|done|unfold digits_value; simpl; lia]. simpl. unfold is_digit.
    destruct (Z.leb_spec 48 (48 + z)), (Z.leb_spec (48 + z) 57); simpl; (done || lia). }
  assert (Hq : 0 <= z / 10 < 10 ^ Z.of_nat fuel).
  { rewrite Nat2Z.inj_succ, Z.pow_succ_r in Hz by lia. split; [apply Z.div_pos; lia|apply Z.div_lt_upper_bound; lia]. }
  destruct (IH _ Hq) as (H1 & _ & H3). pose proof (Z.mod_pos_bound z 10 ltac:(lia)). split_and!.
  - rewrite forallb_app, H1. simpl. unfold is_digit.
    destruct (Z.leb_spec 48 (48 + z mod 10)), (Z.leb_spec (48 + z mod 10) 57); simpl; (done || lia).
  - intros _ _ Hnil. by apply app_eq_nil in Hnil as [_ ?].
  - unfold digits_value in *. rewrite fold_left_app, H3. simpl. pose proof (Z.div_mod z 10 ltac:(lia)). lia.
Qed.

Lemma parse_print_i128 z : - 2 ^ 127 < z < 2 ^ 127 -> parse_i128 (i128_to_string z) = Some z.
Proof.
  intros Hz. assert (Hb : 2 ^ 127 < 10 ^ Z.of_nat 40) by (vm_compute; reflexivity).
  assert (Hd : forall x, 0 <= x < 2 ^ 127 -> forallb is_digit (dec_digits 40 x) = true /\ dec_digits 40 x <> [] /\ digits_value (dec_digits 40 x) = x).
  { intros x Hx. destruct (dec_digits_spec 40 x) as (? & H2 & ?); [lia|]. split_and!; [done| |done]. apply H2; [lia|done]. }
  unfold i128_to_string. destruct (Z.ltb_spec z 0).
  - destruct (Hd (- z)) as (H1 & H2 & H3); [lia|]. clear Hd. revert H1 H2 H3.
    generalize (dec_digits 40 (- z)) as l. intros l H1 H2 H3. unfold parse_i128. cbn [Z.eqb Pos.eqb].
    rewrite (bool_decide_eq_false_2 _ H2), H1, H3. cbn [orb negb].
    destruct (Z.leb_spec (- 2 ^ 127) (- - z)), (Z.ltb_spec (- - z) (2 ^ 127)); cbn [andb]; try lia. f_equal. lia.
  - destruct (Hd z) as (H1 & H2 & H3); [lia|]. clear Hd. revert H1 H2 H3.
    generalize (dec_digits 40 z) as l. intros [|c ds] H1 H2 H3; [by destruct H2|]. unfold parse_i128.
    assert (Hc : is_digit c = true) by (simpl in H1; by destruct (is_digit c)). unfold is_digit in Hc.
    destruct (Z.eqb_spec c 45); [lia|]. destruct (Z.eqb_spec c 43); [lia|].
    rewrite (bool_decide_eq_false_2 _ H2), H1, H3. cbn [orb negb].
    destruct (Z.leb_spec (- 2 ^ 127) z), (Z.ltb_spec z (2 ^ 127)); cbn [andb]; try lia. done.
Qed.

(** Hexadecimal digits never look like a prefix. *)
Lemma trim_0x_hex s : forallb is_lower_hex s = true -> trim_0x s = s.
Proof.
  destruct s as [|c1 [|c2 s]]; [done..|]. cbn [forallb trim_0x]. intros H.
  destruct (Z.eqb_spec c2 120) as [->|]; [|by rewrite andb_false_r].
  rewrite !andb_true_iff in H. destruct H as (_ & H & _). done.
Qed.

(** ** One leg *)

Section provable.
Context {D F St : Type} `{!DecimalOps D, !DecimalLaws D, !FieldOps F, !FieldLaws F, !Poseidon F, !StoreOps D St, !StoreLaws D St,
  SHA : !Sha256, HEX : !HexOps, HEXL : !HexLaws, ADDR : !AddressOps} {HI : HashIter}.
Implicit Types (e : Engine D St) (o : Order D) (sec : OrderSecrets D) (p : PendingAggregation D).

(** The balance and position of the oracle can be encoded. *)
Definition provable_secret sec : Prop :=
  (exists f : F, decimal_to_scalar (s_balance sec) = Ok f) /\ Z.abs (s_position sec) < MAX_ENCODED.

Lemma hex_text_scalar b (to_scalar : bytes -> result F (EncodingError D)) f msg :
  Forall is_byte b -> to_scalar b = Ok f -> text_scalar (hex_decode (trim_0x (hex_encode b))) to_scalar msg = Ok f.
Proof.
  intros Hb Hf. rewrite trim_0x_hex by (by apply hex_encode_digits). rewrite hex_decode_encode by done. simpl. by rewrite Hf.
Qed.

Lemma position_scalar_Ok (w : OrderLegWitness D) z :
  w_position w = i128_to_string z -> Z.abs z < MAX_ENCODED ->
  exists f : F, position_scalar w = Ret (Ok f) /\ fr_to_Z f = z mod FR.
Proof.
  intros Hw Hz. unfold position_scalar. rewrite Hw, parse_print_i128 by (unfold MAX_ENCODED in Hz; lia).
  unfold signed_to_scalar. destruct (Z.eqb_spec z (- 2 ^ 127)); [unfold MAX_ENCODED in Hz; lia|].
  destruct (Z.leb_spec MAX_ENCODED (Z.abs z)); [lia|].
  destruct (Z.leb_spec 0 z); eexists; (split; [done|]); rewrite ?fr_neg_spec, fr_of_Z_spec; [done|].
  rewrite (Z.mod_small (- z)) by (unfold MAX_ENCODED in Hz; lia).
  rewrite <- (Z.sub_0_l (_ mod FR)), Zminus_mod_idemp_r. f_equal. lia.
Qed.

Lemma fr_bytes32_byte (f : F) : Forall is_byte (fr_to_bytes32 f).
Proof. unfold fr_to_bytes32, be_bytes. apply Forall_reverse, le_bytes_byte. Qed.

(** The scalars a leg decodes to, and the commitment they open. *)
Record leg_scalars (w : OrderLegWitness D) o sec (tf sf pf bf qf af zf : F) : Prop := {
  ls_trader : forall msg, text_scalar (trader_id_bytes w) (bytes32_to_scalar (D:=D)) msg = Ok tf;
  ls_salt : forall msg, text_scalar (salt_bytes w) (bytes32_to_scalar (D:=D)) msg = Ok sf;
  ls_price : decimal_to_scalar (w_limit_price w) = Ok pf;
  ls_balance : decimal_to_scalar (w_balance w) = Ok bf;
  ls_position : position_scalar w = Ret (Ok qf);
  ls_addr : forall msg, text_scalar (trader_addr_bytes w) (bytes_to_scalar (D:=D)) msg = Ok af;
  ls_size : decimal_to_scalar (w_order_size w) = Ok zf;
  ls_identity : tf = poseidon [af];
  ls_position_value : fr_to_Z qf = s_position sec mod FR;
  ls_addr_value : af = fr_of_Z (be_value (o_trader o));
  ls_commitment : s_commitment sec = fr_to_bytes32 (commit_native (mkOrderCommitmentInput tf (fr_of_Z (w_side w)) pf zf sf))
}.

Lemma leg_decodes o sec :
  secrets_of (F:=F) o sec -> Forall is_byte (o_trader o) -> provable_secret sec ->
  exists tf sf pf bf qf af zf, leg_scalars (leg_witness_from sec o (side_u8 (o_side o))) o sec tf sf pf bf qf af zf.
Proof.
  intros (b & q & salt & Hsec) Hby [[bf Hbf] Hq].
  apply derive_order_secrets_Ok in Hsec as (_ & _ & Hb & Hpos & Hs & tf & c & n & sf & pf & zf & Ht & Htf & Hsf & Hpf & Hzf & -> & -> & Hc & _).
  destruct (position_scalar_Ok (leg_witness_from sec o (side_u8 (o_side o))) (s_position sec)) as (qf & Hqf & Hqv); [done|done|].
  unfold derive_trader_id_bytes, derive_trader_id in Ht. destruct (bytes_to_scalar (D:=D) (o_trader o)) as [af|] eqn:Haf; [|done].
  injection Ht as Ht. assert (tf = poseidon [af]) as Hid.
  { rewrite <- Ht in Htf. fold (fr_to_bytes32 (poseidon [af])) in Htf. rewrite bytes32_to_scalar_encode in Htf. by injection Htf. }
  exists tf, sf, pf, bf, qf, af, zf. split; try done.
  - intros msg. apply hex_text_scalar; [|done]. rewrite <- Ht. apply (fr_bytes32_byte (poseidon [af])).
  - intros msg. apply hex_text_scalar; [|by rewrite Hs]. rewrite Hs, <- (bytes32_to_scalar_Ok _ _ Hsf). apply fr_bytes32_byte.
  - intros msg. by apply hex_text_scalar.
  - unfold bytes_to_scalar in Haf. destruct (_ <? _)%nat; [done|]. destruct (_ && _); [done|]. by injection Haf.
  - rewrite Hc. simpl. by destruct (o_side o).
Qed.

(** The fields of a row that belong to one leg: the order's limits and the
    oracle's balance in units of [10^-8], the position modulo the field, the
    identity derived from the address that settles, and a leaf that is the
    commitment the engine holds. *)
Record leg_row o sec (side lp os bal pos trader addr leaf : F) : Prop := {
  lr_side : side = fr_of_Z (side_u8 (o_side o));
  lr_price : units (o_price o) = fr_to_Z lp * ULP /\ fr_to_Z lp < MAX_ENCODED;
  lr_size : units (o_size o) = fr_to_Z os * ULP /\ fr_to_Z os < MAX_ENCODED;
  lr_balance : units (s_balance sec) = fr_to_Z bal * ULP /\ fr_to_Z bal < MAX_ENCODED;
  lr_position : fr_to_Z pos = s_position sec mod FR;
  lr_identity : trader = poseidon [addr];
  lr_addr : addr = fr_of_Z (be_value (o_trader o));
  lr_leaf : s_commitment sec = fr_to_bytes32 leaf
}.

Lemma scalar_bound (d : D) (f : F) : decimal_to_scalar d = Ok f -> units d = fr_to_Z f * ULP /\ fr_to_Z f < MAX_ENCODED.
Proof.
  intros (_ & Hb & Hf)%decimal_to_scalar_Ok. split; [done|]. unfold MAX_UNITS, MAX_ENCODED in *. pose proof ULP_pos. nia.
Qed.

Lemma leg_scalars_row w o sec tf sf pf bf qf af zf :
  w = leg_witness_from sec o (side_u8 (o_side o)) -> leg_scalars w o sec tf sf pf bf qf af zf ->
  leg_row o sec (fr_of_Z (side_u8 (o_side o))) pf zf bf qf tf af
    (commit_native (mkOrderCommitmentInput tf (fr_of_Z (side_u8 (o_side o))) pf zf sf)).
Proof. intros -> []. split; try done; by apply scalar_bound. Qed.

(** ** Rows *)

(** The row of a match: active, with the exact price and size in units of
    [10^-8], and the legs of its two orders. *)
Record row_of (secrets : gmap Uuid (OrderSecrets D)) (orders : gmap Uuid (Order D)) (mt : Match D) (row : CircuitMatchNative F) : Prop := {
  ro_active : c_is_active row = fr_one;
  ro_price : units (match_price mt) = fr_to_Z (c_match_price row) * ULP /\ fr_to_Z (c_match_price row) < MAX_ENCODED;
  ro_size : units (match_size mt) = fr_to_Z (c_match_size row) * ULP /\ fr_to_Z (c_match_size row) < MAX_ENCODED;
  ro_bid : exists o sec, orders !! fill_order_id (match_bid_fill mt) = Some o /\ o_side o = Buy /\
    secrets !! fill_order_id (match_bid_fill mt) = Some sec /\
    leg_row o sec (c_bid_side row) (c_bid_limit_price row) (c_bid_order_size row) (c_bid_balance row) (c_bid_position row)
      (c_bid_trader row) (c_bid_trader_addr row) (leaf_of row true);
  ro_ask : exists o sec, orders !! fill_order_id (match_ask_fill mt) = Some o /\ o_side o = Sell /\
    secrets !! fill_order_id (match_ask_fill mt) = Some sec /\
    leg_row o sec (c_ask_side row) (c_ask_limit_price row) (c_ask_order_size row) (c_ask_balance row) (c_ask_position row)
      (c_ask_trader row) (c_ask_trader_addr row) (leaf_of row false)
}.

(** What is asked of the secrets and traders of a chunk. *)
Definition chunk_provable (secrets : gmap Uuid (OrderSecrets D)) p : Prop :=
  map_Forall (fun _ o => Forall is_byte (o_trader o)) (pa_orders p) /\ map_Forall (fun _ sec => provable_secret sec) secrets.

Lemma build_row_leg bsec bo asec ao price sz :
  secrets_of (F:=F) bo bsec -> secrets_of (F:=F) ao asec -> o_side bo = Buy -> o_side ao = Sell ->
  Forall is_byte (o_trader bo) -> Forall is_byte (o_trader ao) -> provable_secret bsec -> provable_secret asec ->
  encodable price -> encodable sz ->
  exists row, build_row (F:=F) (mkMatchWitness (leg_witness_from bsec bo 0) (leg_witness_from asec ao 1)) price sz = Ret (Ok row) /\
    c_is_active row = fr_one /\
    (units price = fr_to_Z (c_match_price row) * ULP /\ fr_to_Z (c_match_price row) < MAX_ENCODED) /\
    (units sz = fr_to_Z (c_match_size row) * ULP /\ fr_to_Z (c_match_size row) < MAX_ENCODED) /\
    leg_row bo bsec (c_bid_side row) (c_bid_limit_price row) (c_bid_order_size row) (c_bid_balance row) (c_bid_position row)
      (c_bid_trader row) (c_bid_trader_addr row) (leaf_of row true) /\
    leg_row ao asec (c_ask_side row) (c_ask_limit_price row) (c_ask_order_size row) (c_ask_balance row) (c_ask_position row)
      (c_ask_trader row) (c_ask_trader_addr row) (leaf_of row false).
Proof.
  intros Hb Ha Hsb Hsa Hbb Hba Hpb Hpa [Hpd Hpr] [Hzd Hzr].
  destruct (leg_decodes bo bsec Hb Hbb Hpb) as (t1 & s1 & p1 & b1 & q1 & a1 & z1 & L1).
  destruct (leg_decodes ao asec Ha Hba Hpa) as (t2 & s2 & p2 & b2 & q2 & a2 & z2 & L2).
  pose proof (leg_scalars_row _ _ _ _ _ _ _ _ _ _ eq_refl L1) as R1. pose proof (leg_scalars_row _ _ _ _ _ _ _ _ _ _ eq_refl L2) as R2.
  rewrite Hsb in L1, R1. rewrite Hsa in L2, R2.
  destruct (decimal_to_scalar_total (F:=F) price Hpd Hpr) as [pf Hpf]. destruct (decimal_to_scalar_total (F:=F) sz Hzd Hzr) as [zf Hzf].
  pose proof (scalar_bound _ _ Hpf). pose proof (scalar_bound _ _ Hzf).
  destruct L1 as [T1 S1 P1 B1 Q1 A1 Z1 _ _ _ _]. destruct L2 as [T2 S2 P2 B2 Q2 A2 Z2 _ _ _ _]. simpl side_u8 in *.
  unfold build_row. cbn [mw_bid mw_ask].
  rewrite T1, S1, T2, S2, P1, B1, Q1, A1, Z1, P2, B2, Q2, A2, Z2, Hpf, Hzf.
  cbn [zk zk_outcome mbind outcome_bind]. eexists. split; [reflexivity|]. do 4 (split; [done|]). done.
Qed.

Lemma build_rows_list_ready e p ws ms :
  Forall (fun mt => leg_ready (F:=F) (e_secrets e) p Buy (match_bid_fill mt) /\ leg_ready (F:=F) (e_secrets e) p Sell (match_ask_fill mt) /\
    encodable (match_price mt) /\ encodable (match_size mt)) ms ->
  chunk_provable (e_secrets e) p -> match_witnesses (e_secrets e) (pa_orders p) ms = Ok ws ->
  exists rows, build_row_list (F:=F) ws (map match_price ms) (map match_size ms) = Ret (Ok rows) /\
    Forall2 (row_of (e_secrets e) (pa_orders p)) ms rows.
Proof.
  intros Hms [Hby Hps]. revert ws; induction Hms as [|mt ms (Hb & Ha & Hp & Hz) _ IH]; intros ws.
  { intros [= <-]. exists []. split; [done|constructor]. }
  destruct Hb as (bo & bsec & Hbo & _ & Hbs & _ & _ & _ & _ & Hbsec & Hbof).
  destruct Ha as (ao & asec & Hao & _ & Has & _ & _ & _ & _ & Hasec & Haof).
  cbn [match_witnesses]. unfold match_witness. rewrite Hbsec, Hasec, Hbo, Hao.
  destruct (match_witnesses (e_secrets e) (pa_orders p) ms) as [ws'|]; [|done]. intros [= <-].
  destruct (IH ws' eq_refl) as (rows & Hrows & Hf2).
  destruct (build_row_leg bsec bo asec ao (match_price mt) (match_size mt)) as (row & Hrow & ? & ? & ? & ? & ?);
    [done|done|done|done|exact (Hby _ _ Hbo)|exact (Hby _ _ Hao)|exact (Hps _ _ Hbsec)|exact (Hps _ _ Hasec)|done|done|].
  cbn [build_row_list map head or_panic mbind outcome_bind tail]. rewrite Hrow. cbn [mbind outcome_bind].
  rewrite Hrows. cbn [mbind outcome_bind]. exists (row :: rows). split; [done|]. constructor; [|done]. split; eauto 10.
Qed.

(** The witness of a ready chunk exists. *)
Lemma match_witnesses_ready (secrets : gmap Uuid (OrderSecrets D)) p ms :
  Forall (fun mt => leg_ready (F:=F) secrets p Buy (match_bid_fill mt) /\ leg_ready (F:=F) secrets p Sell (match_ask_fill mt) /\
    encodable (match_price mt) /\ encodable (match_size mt)) ms ->
  exists ws, match_witnesses secrets (pa_orders p) ms = Ok ws /\ length ws = length ms.
Proof.
  induction 1 as [|mt ms (Hb & Ha & _) _ (ws & IH & Hl)]; [by exists []|].
  destruct Hb as (bo & bsec & Hbo & _ & _ & _ & _ & _ & _ & Hbsec & _). destruct Ha as (ao & asec & Hao & _ & _ & _ & _ & _ & _ & Hasec & _).
  cbn [match_witnesses]. unfold match_witness. rewrite Hbsec, Hasec, Hbo, Hao, IH. eexists. split; [done|]. simpl. by rewrite Hl.
Qed.

(** ** Membership *)

(** The leaves of the admitted orders. *)
Lemma admitted_commitments_spec (secrets : gmap Uuid (OrderSecrets D)) ids :
  map_Forall (fun _ sec => exists f : F, s_commitment sec = fr_to_bytes32 f) secrets ->
  exists cs, admitted_commitments (F:=F) secrets ids = Ret cs /\
    (forall c, c ∈ cs <-> exists i sec, i ∈ ids /\ secrets !! i = Some sec /\ s_commitment sec = fr_to_bytes32 c) /\
    length cs = length (List.filter (fun i => bool_decide (is_Some (secrets !! i))) ids).
Proof.
  intros Hcan. induction ids as [|i ids (cs & IH & Hcs & Hlen)].
  { exists []. split_and!; [done| |done]. intros c. split; [by intros ?%elem_of_nil|by intros (? & ? & ?%elem_of_nil & _)]. }
  cbn [admitted_commitments List.filter]. destruct (secrets !! i) as [sec|] eqn:Hi.
  - destruct (Hcan i sec Hi) as [f Hf]. rewrite Hf, bytes32_to_scalar_encode, IH. exists (f :: cs). split; [done|].
    rewrite bool_decide_eq_true_2 by by eexists. split; [|simpl; by rewrite Hlen].
    intros c. rewrite elem_of_cons, Hcs. setoid_rewrite elem_of_cons. split.
    + intros [->|(j & sec' & ? & ? & ?)]; [by exists i, sec; auto|by exists j, sec'; auto].
    + intros (j & sec' & [->|?] & Hj & Hc); [left|right; by eauto].
      rewrite Hi in Hj. injection Hj as <-. apply fr_to_bytes32_inj. congruence.
  - exists cs. rewrite bool_decide_eq_false_2 by (by intros [? ?]). split_and!; [done| |done].
    intros c. rewrite Hcs. setoid_rewrite elem_of_cons. split; [intros (j & sec' & ? & ? & ?); by exists j, sec'; auto|].
    intros (j & sec' & [->|?] & Hj & Hc); [congruence|by eauto].
Qed.

Lemma fr_zero_one : fr_eqb (F:=F) fr_zero fr_one = false.
Proof. unfold fr_eqb, fr_zero, fr_one. rewrite !fr_of_Z_spec. done. Qed.

(** A row with the paths of its leaves, or a padding row left alone. *)
Definition attached (root : F) (r r' : CircuitMatchNative F) : Prop :=
  if fr_eqb (c_is_active r) fr_one
  then exists bp ap, r' = set_paths r bp ap /\ root_from_proof (leaf_of r true) bp = root /\ root_from_proof (leaf_of r false) ap = root
  else r' = r.

Lemma leg_path_ready admitted leaf root msg :
  admissible admitted -> admitted_set_root admitted = Ret (Ok root) -> leaf ∈ admitted ->
  exists pf, leg_path admitted leaf msg = Ret (Ok pf) /\ root_from_proof leaf pf = root.
Proof.
  intros Hadm Hroot Hin. destruct (admitted_set_root_Ok _ _ Hroot) as (leaves & Hc & ->).
  destruct (admitted_set_proof_some admitted leaves leaf Hc) as (pf & Hp & _ & _ & Hr).
  { apply canonical_leaves_Ok in Hc as [_ ->]. apply elem_of_app. left. by rewrite sort_by_perm. }
  exists pf. unfold leg_path. rewrite Hp. done.
Qed.

Lemma attach_paths_ready admitted root rows :
  admissible admitted -> admitted_set_root admitted = Ret (Ok root) ->
  Forall (fun r => fr_eqb (c_is_active r) fr_one = true -> leaf_of r true ∈ admitted /\ leaf_of r false ∈ admitted) rows ->
  exists rows', attach_paths admitted rows = Ret (Ok rows') /\ Forall2 (attached root) rows rows'.
Proof.
  intros Hadm Hroot. induction 1 as [|r rows Hr _ (rows' & IH & Hf)]; [exists []; split; [done|constructor]|].
  cbn [attach_paths]. destruct (fr_eqb (c_is_active r) fr_one) eqn:Ha; cbn [negb].
  - destruct (Hr eq_refl) as [Hb Hk].
    destruct (leg_path_ready _ _ _ (str "matched bid leg absent from admitted set") Hadm Hroot Hb) as (bp & -> & ?).
    destruct (leg_path_ready _ _ _ (str "matched ask leg absent from admitted set") Hadm Hroot Hk) as (ap & -> & ?).
    cbn [mbind outcome_bind]. rewrite IH. cbn [mbind outcome_bind]. eexists. split; [done|]. constructor; [|done].
    unfold attached. rewrite Ha. eauto 10.
  - rewrite IH. cbn [mbind outcome_bind]. eexists. split; [done|]. constructor; [|done]. unfold attached. by rewrite Ha.
Qed.

(** ** The inputs of a chunk *)

Lemma policy_encodes : exists f : F, decimal_to_scalar (dec_new 1 8 : D) = Ok f /\ fr_to_Z f = 1.
Proof.
  destruct (decimal_to_scalar_total (F:=F) (dec_new 1 8 : D)) as [f Hf]; [unfold dp8; rewrite dec_new_units by lia..|].
  - by exists 1.
  - unfold MAX_UNITS, ULP. vm_compute. done.
  - exists f. split; [done|]. apply decimal_to_scalar_Ok in Hf as (_ & _ & Hf). rewrite dec_new_units in Hf by lia.
    change (1 * 10 ^ (28 - 8)) with ULP in Hf. pose proof ULP_pos. nia.
Qed.

Lemma policy_limit_encodes : signed_to_scalar (D:=D) (2 ^ 58) = Ret (Ok (fr_of_Z (F:=F) (2 ^ 58))).
Proof. done. Qed.

Lemma build_rows_ready (w : BatchWitness D) ms (rows : list (CircuitMatchNative F)) :
  bw_policy w = into_policy -> length (bw_matches w) = length ms -> (0 < length ms <= IVC_BATCH_SIZE)%nat ->
  Forall (fun mt => encodable (match_price mt)) ms -> length rows = length ms ->
  build_row_list (bw_matches w) (map match_price ms) (map match_size ms) = Ret (Ok rows) ->
  exists ext, build_rows (F:=F) w (map match_price ms) (map match_size ms) IVC_BATCH_SIZE = Ret (Ok ext) /\
    ai_matches ext = rows ++ replicate (IVC_BATCH_SIZE - length ms) default_row /\
    (fr_to_Z (ai_min_size ext) = 1 /\ fr_to_Z (ai_min_price ext) = 1 /\ fr_to_Z (ai_position_limit ext) = 2 ^ 58) /\
    (forall mt, head ms = Some mt -> units (match_price mt) = fr_to_Z (ai_clearing_price ext) * ULP).
Proof.
  intros Hpol Hlen Hms Henc Hlr Hrows. destruct policy_encodes as (f & Hf & Hfv). unfold build_rows.
  rewrite Hpol, Hlen, !length_map, Nat.eqb_refl. cbn [negb orb pol_min_size pol_min_price into_policy pol_position_limit].
  destruct (Nat.ltb_spec IVC_BATCH_SIZE IVC_BATCH_SIZE); [lia|]. destruct (Nat.ltb_spec IVC_BATCH_SIZE (length ms)); [lia|].
  rewrite Hf. cbn [zk mbind outcome_bind]. rewrite parse_print_i128 by lia. cbn [mbind outcome_bind].
  rewrite policy_limit_encodes. cbn [zk_outcome zk mbind outcome_bind]. rewrite Hrows. cbn [mbind outcome_bind].
  destruct ms as [|mt ms]; [simpl in Hms; lia|]. apply Forall_cons in Henc as [[Hpd Hpr] _].
  destruct (decimal_to_scalar_total (F:=F) _ Hpd Hpr) as [cf Hcf]. cbn [map]. rewrite Hcf. cbn [zk mbind outcome_bind].
  eexists. split; [reflexivity|]. cbn [ai_matches ai_clearing_price]. rewrite Hlr. split; [done|].
  cbn [ai_min_size ai_min_price ai_position_limit]. rewrite fr_of_Z_spec. split; [done|].
  intros mt' [= <-]. by apply decimal_to_scalar_Ok in Hcf as (_ & _ & ?).
Qed.

(** The inputs prove the matches of the chunk: the rows are the matches in
    order, padded to the width of the circuit, and each leaf has a path to the
    root of the admitted commitments. *)
Record inputs_of e p (ext : AuctionExternalInputs F) : Prop := {
  io_width : length (ai_matches ext) = IVC_BATCH_SIZE;
  io_root : exists cs, admitted_commitments (e_secrets e) (pa_admitted_order_ids p) = Ret cs /\
    admitted_set_root cs = Ret (Ok (ai_admitted_root ext));
  io_policy : fr_to_Z (ai_min_size ext) = 1 /\ fr_to_Z (ai_min_price ext) = 1 /\ fr_to_Z (ai_position_limit ext) = 2 ^ 58;
  io_price : forall mt, head (pa_matches p) = Some mt -> units (match_price mt) = fr_to_Z (ai_clearing_price ext) * ULP;
  io_rows : exists rows, ai_matches ext = rows ++ replicate (IVC_BATCH_SIZE - length (pa_matches p)) default_row /\
    Forall2 (fun mt row => row_of (e_secrets e) (pa_orders p) mt row /\
      root_from_proof (leaf_of row true) (c_bid_path row) = ai_admitted_root ext /\
      root_from_proof (leaf_of row false) (c_ask_path row) = ai_admitted_root ext) (pa_matches p) rows
}.

(** At most as many admitted orders with secrets as the tree has leaves, and no
    commitment that is the padding. *)
Definition set_fits e p : Prop :=
  (length (List.filter (fun i => bool_decide (is_Some (e_secrets e !! i))) (pa_admitted_order_ids p)) <= MERKLE_LEAVES)%nat /\
  map_Forall (fun _ sec => s_commitment sec <> fr_to_bytes32 (empty_leaf (F:=F))) (e_secrets e).

Lemma fits_admissible e p cs :
  map_Forall (fun _ sec => exists f : F, s_commitment sec = fr_to_bytes32 f) (e_secrets e) -> set_fits e p ->
  admitted_commitments (F:=F) (e_secrets e) (pa_admitted_order_ids p) = Ret cs -> admissible cs.
Proof.
  intros Hcan [Hlen Hne] Hcs. destruct (admitted_commitments_spec _ (pa_admitted_order_ids p) Hcan) as (cs' & Heq & Hin & Hl).
  rewrite Hcs in Heq. injection Heq as <-. split; [lia|]. intros (i & sec & _ & Hi & Hc)%Hin. by apply (Hne i sec Hi).
Qed.

Lemma Forall2_attached secrets orders root ms rows rows' :
  Forall2 (row_of secrets orders) ms rows -> Forall2 (attached root) rows rows' ->
  Forall2 (fun mt row => row_of secrets orders mt row /\ root_from_proof (leaf_of row true) (c_bid_path row) = root /\
    root_from_proof (leaf_of row false) (c_ask_path row) = root) ms rows'.
Proof.
  intros H1. revert rows'; induction H1 as [|mt row ms rows Hr _ IH]; intros rows' H2; inversion H2 as [|? row' ? rows1 Ha Hrs]; subst; [constructor|].
  constructor; [|by apply IH]. unfold attached in Ha. pose proof Hr as [Hact ? ? ? ?].
  rewrite Hact, (proj2 (fr_eqb_spec fr_one fr_one) eq_refl) in Ha. destruct Ha as (bp & ap & -> & ? & ?).
  split_and!; [by split|done|done].
Qed.

Lemma attached_default root n rows' :
  Forall2 (attached root) (replicate n default_row) rows' -> rows' = replicate n default_row.
Proof.
  revert rows'; induction n as [|n IH]; intros rows' H; inversion H as [|? r' ? rows1 Ha Hrs]; subst; [done|].
  unfold attached in Ha. cbn [default_row c_is_active] in Ha. rewrite fr_zero_one in Ha. simpl. by rewrite Ha, (IH _ Hrs).
Qed.

Lemma ready_chunk_folds e p :
  map_Forall (fun _ sec => exists f : F, s_commitment sec = fr_to_bytes32 f) (e_secrets e) -> e_batch_size e = IVC_BATCH_SIZE ->
  chunk_ready (F:=F) IVC_BATCH_SIZE (e_secrets e) p -> chunk_provable (e_secrets e) p -> set_fits e p ->
  exists ext, fold_inputs (F:=F) e p = Ret (Some ext) /\ inputs_of e p ext.
Proof.
  intros Hcan Hbs [Hlen Hlegs Hnd _ _] Hpv Hfit.
  destruct (match_witnesses_ready _ _ _ Hlegs) as (ws & Hws & Hlw).
  destruct (build_rows_list_ready e p ws _ Hlegs Hpv Hws) as (rows & Hrows & Hf2).
  assert (Henc : Forall (fun mt => encodable (match_price mt)) (pa_matches p)) by (eapply Forall_impl; [exact Hlegs|]; simpl; tauto).
  pose proof (Forall2_length _ _ _ Hf2) as Hlr.
  destruct (build_rows_ready (mkBatchWitness (pa_batch_id p) (pa_auction_id p) ws into_policy) (pa_matches p) rows)
    as (ext & Hext & Hai & Hpo & Hcp); [done|done|done|done|lia|done|].
  destruct (admitted_commitments_spec _ (pa_admitted_order_ids p) Hcan) as (cs & Hcs & Hin & _).
  pose proof (fits_admissible e p cs Hcan Hfit Hcs) as Hadm.
  assert (exists root, admitted_set_root cs = Ret (Ok root)) as [root Hroot].
  { eexists. apply admitted_set_root_eq. by apply canonical_leaves_Ok. }
  destruct (attach_paths_ready cs root (ai_matches ext) Hadm Hroot) as (rows' & Hatt & Hf2').
  { rewrite Hai. apply Forall_app. split.
    - clear -Hf2 Hlegs Hin. induction Hf2 as [|mt row ms rows Hr _ IH]; [constructor|].
      apply Forall_cons in Hlegs as [(Hb & Ha & _) Hl]. constructor; [|by apply IH]. intros _.
      destruct Hb as (bo & bsec & _ & _ & _ & _ & _ & _ & Hbi & Hbs & _). destruct Ha as (ao & asec & _ & _ & _ & _ & _ & _ & Hai & Has & _).
      destruct (ro_bid _ _ _ _ Hr) as (? & s1 & _ & _ & ? & []). destruct (ro_ask _ _ _ _ Hr) as (? & s2 & _ & _ & ? & []).
      split; apply Hin; eauto.
    - apply Forall_replicate. cbn [default_row c_is_active]. by rewrite fr_zero_one. }
  unfold fold_inputs, build_batch_witness. rewrite Hws, Hcs. cbn [mbind outcome_bind].
  unfold from_witness_with_admitted, attach_membership. rewrite Hbs, Hext. cbn [mbind outcome_bind].
  rewrite Hroot. cbn [mbind outcome_bind]. rewrite Hatt. cbn [mbind outcome_bind]. eexists. split; [reflexivity|].
  rewrite Hai in Hf2'. apply Forall2_app_inv_l in Hf2' as (r1 & r2 & F1 & F2 & ->). apply attached_default in F2 as ->.
  split; cbn [set_inputs_matches ai_matches ai_admitted_root ai_clearing_price].
  - rewrite length_app, length_replicate, <- (Forall2_length _ _ _ F1), <- Hlr. unfold IVC_BATCH_SIZE in *. lia.
  - by exists cs.
  - done.
  - done.
  - exists r1. split; [done|]. by eapply Forall2_attached.
Qed.

(** ** What a fold needs *)

Lemma let_Ok {A B E} (r : outcome (result A E)) (k : A -> outcome (result B E)) b :
  (let! x := r in k x) = Ret (Ok b) -> exists a, r = Ret (Ok a) /\ k a = Ret (Ok b).
Proof. destruct r as [[a|]|]; simpl; [by eauto|done..]. Qed.

Lemma zk_Ok {A} (r : result A (EncodingError D)) a : zk r = Ok a -> r = Ok a.
Proof. destruct r; simpl; congruence. Qed.

Lemma build_row_balances (mw : MatchWitness D) price sz (row : CircuitMatchNative F) :
  build_row mw price sz = Ret (Ok row) ->
  (exists f : F, decimal_to_scalar (w_balance (mw_bid mw)) = Ok f) /\ (exists f : F, decimal_to_scalar (w_balance (mw_ask mw)) = Ok f).
Proof.
  unfold build_row. intros Hrow. repeat (case_match; try done).
  split; match goal with Hz : zk (decimal_to_scalar ?d) = Ok ?f |- exists f, decimal_to_scalar ?d = Ok f => exists f; by apply zk_Ok end.
Qed.

Lemma build_row_list_balances (secrets : gmap Uuid (OrderSecrets D)) orders ms ws prices sizes (rows : list (CircuitMatchNative F)) :
  match_witnesses secrets orders ms = Ok ws -> build_row_list ws prices sizes = Ret (Ok rows) ->
  Forall (fun i => exists sec (f : F), secrets !! i = Some sec /\ decimal_to_scalar (s_balance sec) = Ok f)
    (map fill_order_id (match_fills ms)).
Proof.
  revert ws prices sizes rows; induction ms as [|mt ms IH]; intros ws prices sizes rows; [constructor|].
  cbn [match_witnesses]. unfold match_witness.
  destruct (secrets !! fill_order_id (match_bid_fill mt)) as [bsec|] eqn:Hb; [|done].
  destruct (secrets !! fill_order_id (match_ask_fill mt)) as [asec|] eqn:Ha; [|done].
  destruct (orders !! fill_order_id (match_bid_fill mt)) as [bo|]; [|done].
  destruct (orders !! fill_order_id (match_ask_fill mt)) as [ao|]; [|done].
  destruct (match_witnesses secrets orders ms) as [ws'|]; [|done]. intros [= <-]. cbn [build_row_list].
  intros (price & _ & (sz & _ & Hrow)%outcome_bind_Ret)%outcome_bind_Ret.
  apply let_Ok in Hrow as (row & Hrow & Hrest). apply let_Ok in Hrest as (rows' & Hrest & _).
  destruct (build_row_balances _ _ _ _ Hrow) as [[f1 H1] [f2 H2]].
  unfold match_fills. simpl. constructor; [by eauto|]. constructor; [by eauto|]. by eapply IH.
Qed.

(** The chunks of a tick are ready, and their pairs are registered. *)
Lemma tick_chunk env e e' ns ps p :
  reachable (F:=F) e -> room e -> tick_under_lock (F:=F) env e = Ret (e', ns, ps) -> p ∈ ps ->
  map_Forall (fun _ sec => exists f : F, s_commitment sec = fr_to_bytes32 f) (e_secrets e') /\ e_batch_size e' = IVC_BATCH_SIZE /\
  chunk_ready (F:=F) IVC_BATCH_SIZE (e_secrets e') p /\ is_Some (es_pair_tokens (e_state e') !! pa_pair p).
Proof.
  intros (m & Hinv)%reachable_inv Hr Ht Hp.
  destruct (inv_tick env e m Hinv Hr) as (e1 & m' & ns1 & ps1 & e0 & m0 & Ht' & Hinv' & _ & _ & Hinv0 & _ & Hsec & Hbs & Hs0 & Hrs).
  pose proof (extends_tick _ _ _ Ht) as Hext. rewrite Ht in Ht'. injection Ht' as <- <- <-. simpl in Hext.
  destruct (rounds_recorded _ _ _ _ _ _ _ _ Hinv0 Hrs) as (_ & _ & _ & Hc). rewrite Forall_forall in Hc.
  destruct (Hc p Hp) as [Hpr Hcr]. rewrite Hs0, <- Hsec, <- Hbs, (ei_batch _ _ Hinv') in Hcr.
  split_and!; [apply Hinv'|apply Hinv'|done|]. apply elem_of_active_pairs in Hpr as (cfg & Hcfg & _).
  destruct (ex_pairs _ _ Hext _ _ Hcfg) as (st & -> & _). by eexists.
Qed.

(** The chunks of a tick can be folded.  On a reachable engine, every chunk
    a tick returns has a witness and inputs, provided the balances and
    positions of the oracle can be encoded and the admitted set fits the tree:
    one row per match with the exact price and size, identities derived from
    the settled addresses, and every leg's commitment with a path to the root
    of the admitted set. *)
Theorem tick_chunks_fold env e e' ns ps p :
  reachable (F:=F) e -> room e -> tick_under_lock (F:=F) env e = Ret (e', ns, ps) -> p ∈ ps ->
  chunk_provable (e_secrets e') p -> set_fits e' p ->
  exists ext, fold_inputs (F:=F) e' p = Ret (Some ext) /\ inputs_of e' p ext.
Proof.
  intros Hre Hr Ht Hp Hpv Hfit. destruct (tick_chunk _ _ _ _ _ _ Hre Hr Ht Hp) as (? & ? & ? & _). by apply ready_chunk_folds.
Qed.

(** What a fold needs.  A chunk is folded only when the engine holds the
    secrets of every leg, the balance of every leg can be encoded, and at most
    [2^8] admitted orders have secrets.  None of the three is checked when an
    order is admitted or a match recorded, and the book may hold [2^14]
    orders. *)
Theorem fold_needs e p ext :
  fold_inputs (F:=F) e p = Ret (Some ext) ->
  Forall (fun i => exists sec (f : F), e_secrets e !! i = Some sec /\ decimal_to_scalar (s_balance sec) = Ok f)
    (map fill_order_id (match_fills (pa_matches p))) /\
  (length (List.filter (fun i => bool_decide (is_Some (e_secrets e !! i))) (pa_admitted_order_ids p)) <= MERKLE_LEAVES)%nat.
Proof.
  unfold fold_inputs, build_batch_witness. destruct (match_witnesses _ _ _) as [ws|] eqn:Hws; [|done].
  intros (cs & Hcs & (x & Hx & [= Hext])%outcome_bind_Ret)%outcome_bind_Ret. destruct x as [i|]; [|done].
  unfold from_witness_with_admitted in Hx. apply let_Ok in Hx as (ext0 & Hrows & Hatt). split.
  - unfold build_rows in Hrows. cbn [bw_matches] in Hrows.
    destruct (_ <? _)%nat; [done|]. destruct (_ <? _)%nat; [done|]. destruct (_ || _); [done|].
    destruct (zk (decimal_to_scalar (pol_min_size _))); [|done]. destruct (zk (decimal_to_scalar (pol_min_price _))); [|done].
    destruct (parse_i128 _); [|done]. apply let_Ok in Hrows as (lim & _ & Hrows). apply let_Ok in Hrows as (rows & Hrows & _).
    by eapply build_row_list_balances.
  - unfold attach_membership in Hatt. apply let_Ok in Hatt as (root & Hroot & _).
    apply admitted_set_root_Ok in Hroot as (leaves & [[Hlen _] _]%canonical_leaves_Ok & _).
    enough (length cs = length (List.filter (fun i => bool_decide (is_Some (e_secrets e !! i))) (pa_admitted_order_ids p))) by lia.
    clear -Hcs. revert cs Hcs. induction (pa_admitted_order_ids p) as [|j ids IH]; intros cs; [by intros [= <-]|].
    cbn [admitted_commitments List.filter]. destruct (e_secrets e !! j) as [sec|].
    + rewrite bool_decide_eq_true_2 by by eexists. destruct (bytes32_to_scalar _) as [f|]; [|done].
      intros (cs' & Hcs' & [= <-])%outcome_bind_Ret. simpl. by rewrite (IH cs' Hcs').
    + rewrite bool_decide_eq_false_2 by (by intros [? ?]). apply IH.
Qed.
End provable.
