(* ===== verification/Examples.v ===== *)
(** * A concrete engine

    Instances of the interfaces — residues as the field, a polynomial as the
    hash, the in-memory store, hexadecimal text — and a short run of the engine
    on them: a pair is registered, a bid and an ask are placed, and a tick
    matches them.  The run shows that the hypotheses of the engine's theorems
    can hold; variations of it exhibit the flaws the theorems leave room for. *)

From S2P Require Import Prelude Decimal Types Field Auction Events Book Merkle EngineState Engine Admission Witness Tick Batch Machine.
From S2P Require Import Rounds Provable.
Open Scope Z_scope.

(** ** Instances *)

#[local] Existing Instances fr_ops fr_laws.
#[local] Existing Instance canonical_iter.

(** A hash that stays small on small inputs. *)
#[local] Instance small_poseidon : Poseidon Fr := {| poseidon l := mk_fr (fold_left (fun acc x => 3 * acc + proj1_sig x) l 1) |}.

#[local] Instance sample_sha : Sha256 := {| sha256 := fun b => b |}.

Definition hex_digit (n : Z) : Z := if n <? 10 then 48 + n else 87 + n.
Definition hex_value (c : Z) : option Z :=
  if (48 <=? c) && (c <=? 57) then Some (c - 48) else if (97 <=? c) && (c <=? 102) then Some (c - 87) else None.

Fixpoint sample_decode (s : Str) : option bytes :=
  match s with
  | [] => Some []
  | [_] => None
  | a :: b :: s' =>
    match hex_value a, hex_value b, sample_decode s' with
    | Some x, Some y, Some r => Some (16 * x + y :: r)
    | _, _, _ => None
    end
  end.

#[local] Instance sample_hex : HexOps := {|
  hex_decode := sample_decode;
  hex_encode := flat_map (fun b => [hex_digit (b / 16); hex_digit (b mod 16)])
|}.

Lemma hex_value_digit n : 0 <= n < 16 -> hex_value (hex_digit n) = Some n /\ is_lower_hex (hex_digit n) = true.
Proof.
  intros Hn. unfold hex_value, hex_digit, is_lower_hex. destruct (Z.ltb_spec n 10).
  - destruct (Z.leb_spec 48 (48 + n)), (Z.leb_spec (48 + n) 57); simpl; try lia. split; [f_equal; lia|done].
  - destruct (Z.leb_spec 48 (87 + n)), (Z.leb_spec (87 + n) 57), (Z.leb_spec 97 (87 + n)), (Z.leb_spec (87 + n) 102); simpl; try lia.
    split; [f_equal; lia|done].
Qed.

Lemma lower_hex_value c : is_lower_hex c = true -> exists x, hex_value c = Some x /\ 0 <= x < 16.
Proof.
  unfold is_lower_hex, hex_value. destruct (Z.leb_spec 48 c), (Z.leb_spec c 57); simpl; try (intros _; eexists; split; [done|lia]);
  destruct (Z.leb_spec 97 c), (Z.leb_spec c 102); simpl; try done; try lia; intros _; eexists; split; (done || lia).
Qed.

#[local] Instance sample_hex_laws : HexLaws.
Proof.
  split.
  - intros s [n Hn]. revert s Hn; induction n as [|n IH]; intros s Hn.
    { destruct s; [|done]. intros _. exists []. done. }
    destruct s as [|a [|b s]]; simpl in Hn; try lia. cbn [forallb]. rewrite !andb_true_iff. intros (Ha & Hb & Hs).
    destruct (lower_hex_value a Ha) as (x & Hx & ?). destruct (lower_hex_value b Hb) as (y & Hy & ?).
    destruct (IH s) as (r & Hr & Hl & Hf); [lia|done|]. exists (16 * x + y :: r). simpl in *. rewrite Hx, Hy, Hr.
    split_and!; [done| |constructor; [unfold is_byte; lia|done]]. by rewrite Hl.
  - intros b. induction 1 as [|x b Hx _ IH]; [done|]. unfold is_byte in Hx. simpl in *.
    destruct (hex_value_digit (x / 16)) as [-> _]; [split; [apply Z.div_pos; lia|apply Z.div_lt_upper_bound; lia]|].
    destruct (hex_value_digit (x mod 16)) as [-> _]; [apply Z.mod_pos_bound; lia|].
    rewrite IH. do 2 f_equal. pose proof (Z.div_mod x 16). lia.
  - intros b. induction 1 as [|x b Hx _ IH]; [done|]. unfold is_byte in Hx. simpl in *.
    destruct (hex_value_digit (x / 16)) as [_ ->]; [split; [apply Z.div_pos; lia|apply Z.div_lt_upper_bound; lia]|].
    destruct (hex_value_digit (x mod 16)) as [_ ->]; [apply Z.mod_pos_bound; lia|]. done.
Qed.

#[local] Instance sample_addr : AddressOps := {| fmt_address := fun a => a; parse_address := Some |}.

#[local] Instance sample_addr_laws : AddressLaws.
Proof. split. done. Qed.

(** ** A run *)

Definition whole (n : Z) : Z := n * 10 ^ 28.
Definition ok_store : StoreEnv := mkStoreEnv (fun _ => 1) None.
Definition eth_usdc : Str := str "ETH/USDC".
Definition sample_config : PairConfig Z := mkPairConfig (replicate 20 7) (replicate 20 8) 18 6 0 0 None Active.

Definition trader (n : Z) : Address := replicate 19 0 ++ [n].

(** Sixty-four hexadecimal digits for a small number. *)
Definition hex64 (n : Z) : Str := hex_encode (be_bytes 32 n).

Definition sample_plain (n : Z) (s : Side) (price sz : Z) : DecryptedOrder Z :=
  mkDecryptedOrder (trader n) eth_usdc s (whole price) (whole sz) (str "k") (hex64 (100 + n)) (hex64 (200 + n)) (secs 1000) 0.

(** The decrypter knows one order, the oracle one balance; order [n] gets the
    identifier [n]. *)
Definition sample_env (n : Z) (s : Side) (price sz balance : Z) : PlaceEnv Z Fr :=
  mkPlaceEnv (fun _ => Ok (sample_plain n s price sz)) (fun _ _ _ => Ok (balance, 0)) (Some (fun _ _ => true)) (secs 500) n.

Definition SampleEngine : Type := Engine Z (MemStore.Inner Z).

Definition run1 (op : Op (D:=Z) (F:=Fr)) (e : SampleEngine) : SampleEngine :=
  match exec op e with Ret e' => e' | Panic => e end.

Definition place_op (e : SampleEngine) (n : Z) (s : Side) (price sz balance : Z) : Op (D:=Z) (F:=Fr) :=
  OpPlace (sample_env n s price sz balance) ok_store (e_state e) (e_state e) [1] [n] (trader n).

Definition tick_env : TickEnv := mkTickEnv (secs 600) ok_store (fun _ => ok_store) (fun _ => 77) (fun _ n => 900 + Z.of_nat n).

Definition eng0 : SampleEngine := Eval vm_compute in engine_new MemStore.new 0.
Definition eng1 : SampleEngine := Eval vm_compute in run1 (OpRegister ok_store (secs 1) (str "eth/usdc") sample_config) eng0.
Definition eng2 : SampleEngine := Eval vm_compute in run1 (place_op eng1 1 Buy 100 5 (whole 1000)) eng1.
Definition eng3 : SampleEngine := Eval vm_compute in run1 (place_op eng2 2 Sell 90 3 (whole 1000)) eng2.
Definition ticked : SampleEngine * list (AuctionNotification Z) * list (PendingAggregation Z) := Eval vm_compute in
  match tick_under_lock (F:=Fr) tick_env eng3 with Ret r => r | Panic => (eng3, [], []) end.
Definition eng4 : SampleEngine := Eval vm_compute in fst (fst ticked).

Lemma eng0_wf : st_wf (MemStore.new : MemStore.Inner Z).
Proof. split_and!; [constructor|constructor|done|done]. Qed.

(** One step by evaluation. *)
Ltac by_run := lazymatch goal with |- _ = ?r => vm_cast_no_check (eq_refl r) end.
Ltac run_step op := exists op; split_and!; [vm_compute; discriminate|vm_compute; first [reflexivity|exact I]|by_run].

Lemma sample_step1 : step (F:=Fr) eng0 eng1.
Proof. run_step (OpRegister (D:=Z) (F:=Fr) ok_store (secs 1) (str "eth/usdc") sample_config). Qed.

Lemma sample_step2 : step (F:=Fr) eng1 eng2.
Proof. run_step (place_op eng1 1 Buy 100 5 (whole 1000)). Qed.

Lemma sample_step3 : step (F:=Fr) eng2 eng3.
Proof. run_step (place_op eng2 2 Sell 90 3 (whole 1000)). Qed.

Lemma eng1_reachable : reachable (F:=Fr) eng1.
Proof. exists MemStore.new, 0. split; [apply eng0_wf|apply rtc_once, sample_step1]. Qed.

Lemma eng2_reachable : reachable (F:=Fr) eng2.
Proof. apply (steps_trans eng1); [apply eng1_reachable|apply rtc_once, sample_step2]. Qed.

Lemma eng3_reachable : reachable (F:=Fr) eng3.
Proof. apply (steps_trans eng2); [apply eng2_reachable|apply rtc_once, sample_step3]. Qed.

(** ** The theorems on the run *)

Definition order_in (e : SampleEngine) (i : Uuid) : Order Z :=
  default (mkOrder 0 [] [] Buy 0 0 0 [] [] 0 0 0) (Book.find_order (es_book (e_state e)) i).

Lemma room_by_run (e : SampleEngine) :
  (st_last_seq (e_store e) + 2 ^ 29 * (1 + Z.of_nat (size (es_pair_tokens (e_state e)))) <=? u64_max) = true -> room e.
Proof. apply Z.leb_le. Qed.

Ltac by_room := apply room_by_run; by_run.

Lemma engine_reachable_safe_witness :
  exists m, engine_inv (F:=Fr) eng3 m /\ forall op, room eng3 -> op_ok (F:=Fr) eng3 op -> exists e', exec op eng3 = Ret e'.
Proof. exact (engine_reachable_safe eng3 eng3_reachable). Defined.

Lemma history_append_only_witness : extends (e_state eng1) (e_state eng2).
Proof. exact (history_append_only (F:=Fr) eng1 eng2 (rtc_once _ _ sample_step2)). Defined.

Lemma place_all_or_nothing_witness :
  exists e' r m m', place_encrypted_order (sample_env 1 Buy 100 5 (whole 1000)) ok_store (e_state eng1) (e_state eng1) eng1 [1] [1] (trader 1) = Ret (e', r) /\
    engine_inv (F:=Fr) eng1 m /\ engine_inv (F:=Fr) e' m' /\
    match r with
    | Ok o => exists p d key cfg salt nonce sq,
        Accepted (F:=Fr) (sample_env 1 Buy 100 5 (whole 1000)) (e_state eng1) [1] [1] (trader 1) p d key cfg salt nonce /\
        o = set_seq (p_order p) sq /\
        placed eng1 e' m m' (p_order p) (p_secrets p) (s_commitment (p_secrets p)) [1] [1] (p_replay p) (Ok sq)
    | Err _ => m' = m /\ e_state e' = e_state eng1 /\ e_secrets e' = e_secrets eng1 /\ st_log (e_store e') = st_log (e_store eng1)
    end.
Proof.
  apply (place_all_or_nothing (F:=Fr) (sample_env 1 Buy 100 5 (whole 1000)) ok_store (e_state eng1) (e_state eng1) eng1).
  - apply eng1_reachable.
  - by_room.
  - by_run.
Defined.

Lemma no_double_admission_witness :
  [1] <> [2] /\ ~ (trader 1 = trader 2 /\ hex64 201 = hex64 202) /\
  ~ (trader 1 = trader 2 /\ Buy = Sell /\ units (whole 100) = units (whole 90) /\ units (whole 5) = units (whole 3) /\ hex64 101 = hex64 102).
Proof.
  apply (no_double_admission (F:=Fr) (sample_env 1 Buy 100 5 (whole 1000)) ok_store (e_state eng1) (e_state eng1) eng1 [1] [1] (trader 1)
    eng2 (order_in eng2 1) (sample_env 2 Sell 90 3 (whole 1000)) ok_store (e_state eng2) (e_state eng2) eng2 [1] [2] (trader 2)
    eng3 (order_in eng3 2) (sample_plain 1 Buy 100 5) (sample_plain 2 Sell 90 3)).
  - apply eng1_reachable.
  - by_room.
  - by_run.
  - by_run.
  - apply rtc_refl.
  - by_room.
  - by_run.
  - by_run.
  - reflexivity.
  - reflexivity.
Defined.

(** The engine after delisting the pair of both orders. *)
Definition eng_delisted : SampleEngine := Eval vm_compute in
  match delist_pair ok_store (secs 550) eng3 (str "ETH/USDC") with Ret (e, _) => e | Panic => eng3 end.

Lemma delist_final_witness :
  (forall i o, Book.find_order (es_book (e_state eng_delisted)) i = Some o <->
    Book.find_order (es_book (e_state eng3)) i = Some o /\ o_pair o <> eth_usdc) /\
  forall e2, rtc (step (F:=Fr)) eng_delisted e2 ->
    pair_status e2 eth_usdc = Some Delisted /\
    (forall i o, Book.find_order (es_book (e_state e2)) i = Some o -> o_pair o <> eth_usdc) /\
    (forall penv senv s_seen s_cfg proof ciphertext caller e3 o, room e2 ->
      Book.find_order (es_book (e_state e2)) (pe_new_id penv) = None ->
      place_encrypted_order (F:=Fr) penv senv s_seen s_cfg e2 proof ciphertext caller = Ret (e3, Ok o) -> o_pair o <> eth_usdc).
Proof.
  apply (delist_final (F:=Fr) ok_store (secs 550) eng3 (str "ETH/USDC") eng_delisted 2).
  - apply eng3_reachable.
  - by_room.
  - by_run.
  - by_run.
Defined.

Lemma cancel_exact_witness :
  exists e' r, cancel_order ok_store (secs 550) eng3 1 (Some (str "user")) = Ret (e', r) /\
    match r with
    | Ok _ => is_Some (Book.find_order (es_book (e_state eng3)) 1) /\ e_secrets e' = delete 1 (e_secrets eng3) /\
        forall j, Book.find_order (es_book (e_state e')) j = if decide (j = 1) then None else Book.find_order (es_book (e_state eng3)) j
    | Err err => (Book.find_order (es_book (e_state eng3)) 1 = None -> err = Validation OrderNotFound) /\
        forall j, Book.find_order (es_book (e_state e')) j = Book.find_order (es_book (e_state eng3)) j
    end.
Proof.
  apply (cancel_exact (F:=Fr) ok_store (secs 550) eng3 1 (Some (str "user"))).
  - apply eng3_reachable.
  - by_room.
Defined.

Lemma tick_records_witness :
  exists e' ns ps m m0 m', tick_under_lock (F:=Fr) tick_env eng3 = Ret (e', ns, ps) /\ engine_inv (F:=Fr) eng3 m /\ engine_inv (F:=Fr) e' m' /\
    (m0 = m \/ m0 = unexpired (te_now tick_env) m) /\
    (forall i, filled_by (match_fills (chunk_matches ps)) i (m0 !! i) (m' !! i)) /\
    (exists evs, st_log (e_store e') = st_log (e_store eng3) ++ evs /\ recorded_matches evs = chunk_matches ps) /\
    Forall (fun mt => exists pr, pair_status eng3 pr = Some Active /\ leg_match m0 pr mt) (chunk_matches ps) /\
    Forall (fun p => pair_status eng3 (pa_pair p) = Some Active /\ chunk_ready (F:=Fr) (e_batch_size e') (e_secrets e') p) ps.
Proof.
  apply (tick_records (F:=Fr) tick_env eng3).
  - apply eng3_reachable.
  - by_room.
Defined.

(** ** Folding the chunk of the run *)

Definition the_chunk (ps : list (PendingAggregation Z)) : PendingAggregation Z :=
  default (mkPendingAggregation 0 0 [] [] ∅ [] 0) (head ps).

Definition chunk1 : PendingAggregation Z := Eval vm_compute in the_chunk (snd ticked).

Definition the_inputs (e : SampleEngine) (p : PendingAggregation Z) : option (AuctionExternalInputs Fr) :=
  match fold_inputs (F:=Fr) e p with Ret r => r | Panic => None end.

Lemma map_Forall_by_run {A} (P : A -> Prop) (b : A -> bool) (m : gmap Uuid A) :
  (forall x, b x = true -> P x) -> forallb (fun ix => b ix.2) (map_to_list m) = true -> map_Forall (fun _ x => P x) m.
Proof.
  intros Hb Hm i x Hx. apply Hb. rewrite forallb_forall in Hm. apply (Hm (i, x)).
  apply list_elem_of_In, elem_of_map_to_list. done.
Qed.

Definition provable_secretb (sec : OrderSecrets Z) : bool :=
  match decimal_to_scalar (F:=Fr) (s_balance sec) with Ok _ => true | Err _ => false end && (Z.abs (s_position sec) <? MAX_ENCODED).

Lemma provable_secretb_true sec : provable_secretb sec = true -> provable_secret (F:=Fr) sec.
Proof.
  unfold provable_secretb. intros [Hf Hz]%andb_true_iff. split; [|by apply Z.ltb_lt].
  destruct (decimal_to_scalar _) as [f|]; [by eauto|done].
Qed.

Lemma chunk1_provable : chunk_provable (F:=Fr) (e_secrets eng4) chunk1.
Proof.
  split.
  - apply (map_Forall_by_run (fun o : Order Z => Forall is_byte (o_trader o)) (fun o => forallb (fun x => (0 <=? x) && (x <? 256)) (o_trader o))); [|by_run].
    intros o. rewrite forallb_forall, Forall_forall. intros Ho x Hx%list_elem_of_In.
    specialize (Ho x Hx). unfold is_byte. apply andb_true_iff in Ho as [?%Z.leb_le ?%Z.ltb_lt]. lia.
  - apply (map_Forall_by_run (provable_secret (F:=Fr)) provable_secretb); [apply provable_secretb_true|by_run].
Qed.

Lemma chunk1_fits : set_fits (F:=Fr) eng4 chunk1.
Proof.
  split; [apply Nat.leb_le; by_run|].
  apply (map_Forall_by_run (fun sec : OrderSecrets Z => s_commitment sec <> fr_to_bytes32 (empty_leaf (F:=Fr)))
    (fun sec => negb (bool_decide (s_commitment sec = fr_to_bytes32 (empty_leaf (F:=Fr)))))); [|by_run].
  intros sec. by rewrite negb_true_iff, bool_decide_eq_false.
Qed.

Lemma tick_chunks_fold_witness :
  exists ext, fold_inputs (F:=Fr) eng4 chunk1 = Ret (Some ext) /\ inputs_of eng4 chunk1 ext.
Proof.
  apply (tick_chunks_fold (F:=Fr) tick_env eng3 eng4 (snd (fst ticked)) (snd ticked) chunk1).
  - apply eng3_reachable.
  - by_room.
  - by_run.
  - apply list_elem_of_lookup. exists 0%nat. by_run.
  - apply chunk1_provable.
  - apply chunk1_fits.
Defined.

Definition no_inputs : AuctionExternalInputs Fr := mkInputs fr_zero fr_zero fr_zero fr_zero fr_zero [].

Lemma fold_needs_witness :
  Forall (fun i => exists sec (f : Fr), e_secrets eng4 !! i = Some sec /\ decimal_to_scalar (s_balance sec) = Ok f)
    (map fill_order_id (match_fills (pa_matches chunk1))) /\
  (length (List.filter (fun i => bool_decide (is_Some (e_secrets eng4 !! i))) (pa_admitted_order_ids chunk1)) <= MERKLE_LEAVES)%nat.
Proof.
  apply (fold_needs (F:=Fr) eng4 chunk1 (default no_inputs (the_inputs eng4 chunk1))). by_run.
Defined.

(** ** Matches that are recorded and never settle *)

(** The same run with a bid whose balance has nine decimals. *)
Definition dust2 : SampleEngine := Eval vm_compute in run1 (place_op eng1 1 Buy 100 5 (whole 1000 + 10 ^ 19)) eng1.
Definition dust3 : SampleEngine := Eval vm_compute in run1 (place_op dust2 2 Sell 90 3 (whole 1000)) dust2.
Definition dust_ticked : SampleEngine * list (AuctionNotification Z) * list (PendingAggregation Z) := Eval vm_compute in
  match tick_under_lock (F:=Fr) tick_env dust3 with Ret r => r | Panic => (dust3, [], []) end.

Lemma dust_step2 : step (F:=Fr) eng1 dust2.
Proof. run_step (place_op eng1 1 Buy 100 5 (whole 1000 + 10 ^ 19)). Qed.

Lemma dust_step3 : step (F:=Fr) dust2 dust3.
Proof. run_step (place_op dust2 2 Sell 90 3 (whole 1000)). Qed.

Lemma dust3_reachable : reachable (F:=Fr) dust3.
Proof.
  apply (steps_trans dust2); [|apply rtc_once, dust_step3].
  apply (steps_trans eng1); [apply eng1_reachable|apply rtc_once, dust_step2].
Qed.

(** The partially filled bid is cancelled after the tick has released the lock
    and before its chunk is folded. *)
Definition eng_cancelled : SampleEngine := Eval vm_compute in
  match cancel_order ok_store (secs 601) eng4 1 None with Ret (e, _) => e | Panic => eng4 end.

(** A recorded match that cannot be folded.  The balance of the oracle is
    not checked on admission: with one of more than eight decimals both orders
    are admitted, the tick records their match and takes it from the book, and
    the chunk has no circuit inputs. *)
Theorem dust_balance_never_folds :
  exists (e e' : SampleEngine) ns p, reachable (F:=Fr) e /\ tick_under_lock (F:=Fr) tick_env e = Ret (e', ns, [p]) /\
    length (pa_matches p) = 1%nat /\ Book.find_order (es_book (e_state e')) 2 = None /\
    fold_inputs (F:=Fr) e' p = Ret None.
Proof.
  exists dust3, (fst (fst dust_ticked)), (snd (fst dust_ticked)), (the_chunk (snd dust_ticked)). split_and!.
  - apply dust3_reachable.
  - by_run.
  - by_run.
  - by_run.
  - by_run.
Qed.

(** A cancellation can lose a settlement.  The chunk of a tick can be folded
    in the state the tick leaves; after a cancellation of its partially filled
    bid, which is accepted, it cannot: the secrets are gone. *)
Theorem cancel_before_fold_loses_match :
  exists (e e' : SampleEngine) ns p ext e'', reachable (F:=Fr) e /\ tick_under_lock (F:=Fr) tick_env e = Ret (e', ns, [p]) /\
    fold_inputs (F:=Fr) e' p = Ret (Some ext) /\
    cancel_order ok_store (secs 601) e' 1 None = Ret (e'', Ok tt) /\ fold_inputs (F:=Fr) e'' p = Ret None.
Proof.
  exists eng3, eng4, (snd (fst ticked)), chunk1, (default no_inputs (the_inputs eng4 chunk1)), eng_cancelled. split_and!.
  - apply eng3_reachable.
  - by_run.
  - by_run.
  - by_run.
  - by_run.
Qed.
