(* ===== verification/Snapshot.v ===== *)
(** * Snapshots

    [dp-engine/src/snapshot.rs] with its store and cipher: the sealed envelope,
    [dp-crypto/src/snapshot_cipher.rs], the trait [SnapshotStore] and its
    in-memory implementation ([dp-event/src/snapshot.rs]), capturing, compaction
    and retention.  The AEAD and the serializer are third-party: [Aead] and
    [BincodeOps]. *)

From S2P Require Import Prelude Decimal Types Field Auction Events Book Merkle FileStore EngineState Engine.
Open Scope Z_scope.

(** XChaCha20-Poly1305.  Decryption recomputes the tag, so what it accepts is
    what encryption produces. *)
Class Aead := {
  aead_encrypt : bytes -> bytes -> bytes -> bytes -> option bytes;
  aead_decrypt : bytes -> bytes -> bytes -> bytes -> option bytes
}.

Class AeadLaws `{!Aead} := {
  aead_roundtrip : forall key nonce aad msg ct,
    aead_encrypt key nonce aad msg = Some ct -> aead_decrypt key nonce aad ct = Some msg;
  aead_authentic : forall key nonce aad ct msg,
    aead_decrypt key nonce aad ct = Some msg -> aead_encrypt key nonce aad msg = Some ct
}.

Inductive SnapshotError :=
| Truncated (len : Z)
| BadMagic
| UnsupportedVersion (v : Z)
| LengthMismatch (declared actual : Z)
| SnapDecrypt
| SnapEncrypt
| CipherMissing
| SnapBincode
| SnapStoreErr (e : EventError).

(** ** The cipher *)

Section cipher.
Context `{!Aead}.

Definition SNAPSHOT_NONCE_LEN : nat := 24.
Definition SNAPSHOT_KEY_LEN : nat := 32.

Definition cipher_from_bytes (key : bytes) : result bytes CryptoError :=
  if negb (length key =? SNAPSHOT_KEY_LEN)%nat then Err (InvalidKeyFile (str "snapshot key must be 32 bytes"))
  else Ok key.

(** [nonce] is what the system's generator returns for this call. *)
Definition seal (key nonce plaintext aad : bytes) : result bytes CryptoError :=
  match aead_encrypt key nonce aad plaintext with
  | None => Err (EncryptionFailed (str "snapshot seal"))
  | Some ciphertext => Ok (nonce ++ ciphertext)
  end.

Definition open_sealed (key sealed aad : bytes) : result bytes CryptoError :=
  if (length sealed <? SNAPSHOT_NONCE_LEN)%nat then Err (DecryptionFailed (str "snapshot blob too short"))
  else
    match aead_decrypt key (take SNAPSHOT_NONCE_LEN sealed) aad (drop SNAPSHOT_NONCE_LEN sealed) with
    | None => Err (DecryptionFailed (str "snapshot open"))
    | Some msg => Ok msg
    end.
End cipher.

(** ** The envelope *)

Definition MAGIC : bytes := str "DPS2".
Definition ENVELOPE_VERSION : Z := 3.
Definition AAD_LEN : nat := 16.
Definition HEADER_LEN : nat := 20.

Section envelope.
Context {D : Type} `{!BincodeOps (SerializableState D), !Aead}.

Definition envelope_header (sq : Z) : bytes := MAGIC ++ be_bytes 4 ENVELOPE_VERSION ++ be_bytes 8 sq.

Definition encode_envelope (state : SerializableState D) (sq : Z) (key nonce : bytes) : result bytes SnapshotError :=
  match ser state with
  | None => Err SnapBincode
  | Some blob =>
    let header := envelope_header sq in
    match seal key nonce blob header with
    | Err _ => Err SnapEncrypt
    | Ok sealed =>
      if u32_max <? Z.of_nat (length sealed) then Err (LengthMismatch u32_max (Z.of_nat (length sealed)))
      else Ok (header ++ be_bytes 4 (Z.of_nat (length sealed)) ++ sealed)
    end
  end.

(** [bytes[a..b]]. *)
Definition slice (a b : nat) (l : bytes) : bytes := take (b - a) (drop a l).

Definition decode_envelope (b key : bytes) : result (Z * SerializableState D) SnapshotError :=
  if (length b <? HEADER_LEN)%nat then Err (Truncated (Z.of_nat (length b)))
  else if negb (bool_decide (slice 0 4 b = MAGIC)) then Err BadMagic
  else
    let version := be_value (slice 4 8 b) in
    if negb (version =? ENVELOPE_VERSION) then Err (UnsupportedVersion version)
    else
      let sq := be_value (slice 8 16 b) in
      let sealed_len := be_value (slice 16 20 b) in
      let payload := drop HEADER_LEN b in
      if negb (Z.of_nat (length payload) =? sealed_len) then
        Err (LengthMismatch sealed_len (Z.of_nat (length payload)))
      else
        match open_sealed key payload (slice 0 AAD_LEN b) with
        | Err _ => Err SnapDecrypt
        | Ok blob => match de blob with Some state => Ok (sq, state) | None => Err SnapBincode end
        end.
End envelope.

(** ** The store *)

Class SnapStoreOps (S : Type) := {
  snap_write : S -> Z -> bytes -> S * result unit EventError;
  snap_read_latest : S -> result (option (Z * bytes)) EventError;
  snap_read_at : S -> Z -> result (option bytes) EventError;
  snap_list_seqs : S -> result (list Z) EventError;
  snap_delete_before : S -> Z -> S * result unit EventError
}.

Module MemSnapshotStore.

(** A [BTreeMap]: its keys come in ascending order. *)
Definition Snaps : Type := gmap Z bytes.

Definition new : Snaps := ∅.

Definition keys (s : Snaps) : list Z := sort_by Z.compare (map_to_list s).*1.

Definition write (s : Snaps) (sq : Z) (envelope : bytes) : Snaps * result unit EventError := (<[sq := envelope]> s, Ok tt).

Definition read_at (s : Snaps) (sq : Z) : result (option bytes) EventError := Ok (s !! sq).

Definition read_latest (s : Snaps) : result (option (Z * bytes)) EventError :=
  Ok match last (keys s) with
     | Some sq => match s !! sq with Some b => Some (sq, b) | None => None end
     | None => None
     end.

Definition list_seqs (s : Snaps) : result (list Z) EventError := Ok (keys s).

Definition delete_before (s : Snaps) (before : Z) : Snaps * result unit EventError :=
  (filter (fun kv => before <= kv.1) s, Ok tt).

#[global] Instance mem_snap_ops : SnapStoreOps Snaps := {|
  snap_write := write;
  snap_read_latest := read_latest;
  snap_read_at := read_at;
  snap_list_seqs := list_seqs;
  snap_delete_before := delete_before
|}.
End MemSnapshotStore.

(** ** Taking a snapshot *)

Record SnapshotConfig := mkSnapshotConfig {
  sc_enabled : bool;
  sc_every_events : Z;
  sc_interval : Duration;
  sc_retain_events : Z;
  sc_retain_count : nat
}.

Definition default_snapshot_config : SnapshotConfig := mkSnapshotConfig true 10000 (secs 300) 1024 3.

Section snapshotter.
Context {D St Sn : Type} `{!DecimalOps D, !StoreOps D St, !SnapStoreOps Sn, !BincodeOps (SerializableState D), !Aead}.

(** The retention sweep; a failure is logged. *)
Definition prune_snapshots (snaps : Sn) (retain_count : nat) : outcome Sn :=
  if (retain_count =? 0)%nat then Ret snaps
  else
    match snap_list_seqs snaps with
    | Err _ => Ret snaps
    | Ok seqs =>
      if (retain_count <? length seqs)%nat then
        cutoff ← or_panic (seqs !! (length seqs - retain_count)%nat);
        Ret (fst (snap_delete_before snaps cutoff))
      else Ret snaps
    end.

Definition take_snapshot (env : StoreEnv) (key : option bytes) (nonce : bytes) (config : SnapshotConfig)
    (e : Engine D St) (snaps : Sn) : outcome (Engine D St * Sn * result Z SnapshotError) :=
  match key with
  | None => Ret (e, snaps, Err CipherMissing)
  | Some key =>
    let '(state, sq) := capture_snapshot_state e in
    match encode_envelope state sq key nonce with
    | Err err => Ret (e, snaps, Err err)
    | Ok envelope =>
      match snap_write snaps sq envelope with
      | (snaps, Err err) => Ret (e, snaps, Err (SnapStoreErr err))
      | (snaps, Ok _) =>
        let floor := Z.max 0 (sq - sc_retain_events config) in
        let e := if 0 <? floor then fst (compact_events_before env e floor) else e in
        snaps ← prune_snapshots snaps (sc_retain_count config);
        Ret (e, snaps, Ok sq)
      end
    end
  end.

(** The trigger of the periodic task: [now_seq] events are in the store,
    [elapsed] has passed since the last snapshot. *)
Definition snapshot_due (config : SnapshotConfig) (now_seq last_snapshot_seq : Z) (elapsed : Duration) : bool :=
  let event_trigger := sc_every_events config <=? Z.max 0 (now_seq - last_snapshot_seq) in
  let time_trigger := sc_interval config <=? elapsed in
  if now_seq <? last_snapshot_seq then false else event_trigger || time_trigger.
End snapshotter.
