(* ===== verification/PgStore.v ===== *)
(** * The stores in Postgres

    [dp-event/src/pg_store.rs] and [pg_snapshot.rs] over the two tables of
    [migrations/].  The server is modelled by the documented meaning of the
    statements the code sends: a transaction is all or nothing, the values of a
    [BIGSERIAL] grow and are not given back by a rollback, [TIMESTAMPTZ] keeps
    microseconds.  The rounding of an instant is the parameter [pg_time].

    A call fails when the server, the network or the timeout of the call says
    so.  [env_io = Some (k, a)] is such a call: [k] rows were inserted when it
    failed; if that is all of them the commit was sent, and [a] tells whether
    the server carried it out ([a <> 0]) without the answer coming back.

    The theorems: the table is a log in the sense of the trait, up to the
    rounding of instants and to batches whose acknowledgement was lost; such a
    batch makes the engine admit an order twice; and the table of snapshots is
    the map of the in-memory store. *)

From S2P Require Import Prelude Decimal Types Field Auction Events Book EngineState Engine FileStore Snapshot.
Open Scope Z_scope.

(** ** Numbers *)

Definition i64_max : Z := 2 ^ 63 - 1.

(** [as i64] and [as u64] *)
Definition as_i64 (z : Z) : Z := let w := z mod 2 ^ 64 in if w <=? i64_max then w else w - 2 ^ 64.
Definition as_u64 (z : Z) : Z := z mod 2 ^ 64.

Lemma as_i64_id z : 0 <= z <= i64_max -> as_i64 z = z.
Proof. unfold as_i64, i64_max. intros H. rewrite Z.mod_small by lia. cbv zeta. destruct (Z.leb_spec z (2 ^ 63 - 1)); lia. Qed.

Lemma as_u64_id z : 0 <= z <= i64_max -> as_u64 z = z.
Proof. unfold as_u64, i64_max. intros H. apply Z.mod_small. lia. Qed.

(** ** The table [events] *)

Class PgTime := { pg_time : DateTime -> DateTime }.

Record Row := mkRow { row_seq : Z; row_type : Z; row_time : DateTime; row_data : bytes }.

(** The rows in the order of insertion, the last value of the sequence, and the
    number the store has cached. *)
Record Pg := mkPg { pg_rows : list Row; pg_sequence : Z; pg_last_seq : Z }.

Section pg_store.
Context {D : Type} `{!BincodeOps (Event D), PT : !PgTime}.

Definition decode_row (r : Row) : option (Event D) :=
  match de (row_data r) with
  | Some evt => Some (mkEvent (as_u64 (row_seq r)) (ev_type evt) (row_time r) (ev_data evt))
  | None => None
  end.

(** [from_pool]: the cached number is the greatest of the table. *)
Definition pg_open (s : Pg) : Pg :=
  mkPg (pg_rows s) (pg_sequence s) (as_u64 (fold_left Z.max (map row_seq (pg_rows s)) 0)).

(** The payloads; [n] names the readings of the clock. *)
Fixpoint pg_payloads (clock : Z -> DateTime) (n : Z) (evs : list (Event D)) : result (list (Z * DateTime * bytes)) EventError :=
  match evs with
  | [] => Ok []
  | e :: evs' =>
    let ts := if ev_timestamp e =? default_time then clock n else ev_timestamp e in
    match ser (mkEvent (ev_seq e) (ev_type e) ts (ev_data e)) with
    | None => Err EvBincode
    | Some b => let? ps := pg_payloads clock (n + 1) evs' in Ok ((event_type_repr (ev_type e), ts, b) :: ps)
    end
  end.

(** [INSERT ... RETURNING seq], row by row; the sequence can run out. *)
Fixpoint insert_all (ps : list (Z * DateTime * bytes)) (sq : Z) : Z * option (list Row) :=
  match ps with
  | [] => (sq, Some [])
  | (ty, ts, b) :: ps' =>
    if i64_max <=? sq then (sq, None)
    else
      let '(sq', rows) := insert_all ps' (sq + 1) in
      (sq', option_map (cons (mkRow (sq + 1) ty (pg_time ts) b)) rows)
  end.

(** The numbers and instants given back to the caller. *)
Definition assigned (evs : list (Event D)) (ps : list (Z * DateTime * bytes)) (rows : list Row) : list (Event D) :=
  zip_with (fun e pr => mkEvent (as_u64 (row_seq (snd pr))) (ev_type e) (snd (fst (fst pr))) (ev_data e)) evs (zip ps rows).

Definition pg_append (env : StoreEnv) (s : Pg) (evs : list (Event D)) : Pg * result (list (Event D)) EventError :=
  match evs with
  | [] => (s, Ok [])
  | _ =>
    match pg_payloads (env_clock env) (pg_sequence s + 1) evs with
    | Err e => (s, Err e)
    | Ok ps =>
      let given k := fst (insert_all (take k ps) (pg_sequence s)) in
      match env_io env with
      | Some (k, acknowledged) =>
        if (k <? length ps)%nat then (mkPg (pg_rows s) (given k) (pg_last_seq s), Err EvTimeout)
        else
          match insert_all ps (pg_sequence s) with
          | (sq, Some rows) =>
            (mkPg (if (acknowledged =? 0)%nat then pg_rows s else pg_rows s ++ rows) sq (pg_last_seq s), Err EvTimeout)
          | (sq, None) => (mkPg (pg_rows s) sq (pg_last_seq s), Err EvSqlx)
          end
      | None =>
        match insert_all ps (pg_sequence s) with
        | (sq, Some rows) =>
          let evs' := assigned evs ps rows in
          (mkPg (pg_rows s ++ rows) sq (match last evs' with Some e => ev_seq e | None => pg_last_seq s end), Ok evs')
        | (sq, None) => (mkPg (pg_rows s) sq (pg_last_seq s), Err EvSqlx)
        end
      end
    end
  end.

Fixpoint decode_rows (rows : list Row) : result (list (Event D)) EventError :=
  match rows with
  | [] => Ok []
  | r :: rows' =>
    match decode_row r with
    | None => Err EvBincode
    | Some e => let? es := decode_rows rows' in Ok (e :: es)
    end
  end.

(** [SELECT ... WHERE seq > $1 ORDER BY seq ASC LIMIT $2] *)
Definition select_after (rows : list Row) (after lim : Z) : list Row :=
  take (Z.to_nat lim) (sort_by (fun a b => Z.compare (row_seq a) (row_seq b)) (List.filter (fun r => after <? row_seq r) rows)).

Definition pg_read_from (s : Pg) (after_seq limit : Z) : outcome (result (list (Event D)) EventError) :=
  if limit =? 0 then Ret (Err EvLimitMustBePositive)
  else if as_i64 limit <? 0 then Ret (Err EvSqlx)
  else Ret (decode_rows (select_after (pg_rows s) (as_i64 after_seq) (as_i64 limit))).

(** [DELETE FROM events WHERE seq < $1] *)
Definition pg_compact_before (env : StoreEnv) (s : Pg) (before_seq : Z) : Pg * result unit EventError :=
  if before_seq =? 0 then (s, Ok tt)
  else
    let deleted := mkPg (List.filter (fun r => as_i64 before_seq <=? row_seq r) (pg_rows s)) (pg_sequence s) (pg_last_seq s) in
    match env_io env with
    | None => (deleted, Ok tt)
    | Some (_, O) => (s, Err EvTimeout)
    | Some (_, S _) => (deleted, Err EvTimeout)
    end.

Definition pg_log (s : Pg) : list (Event D) := omap decode_row (pg_rows s).

(** One writer: the rows are in the order of their numbers. *)
Record pg_wf (s : Pg) : Prop := {
  pg_sorted : StronglySorted (fun a b => row_seq a < row_seq b) (pg_rows s);
  pg_given : Forall (fun r => 1 <= row_seq r <= pg_sequence s) (pg_rows s);
  pg_bounds : 0 <= pg_last_seq s <= pg_sequence s /\ pg_sequence s <= i64_max;
  pg_decodes : Forall (fun r => is_Some (decode_row r)) (pg_rows s)
}.
End pg_store.

#[global] Instance pg_store_ops D `{!BincodeOps (Event D), PT : !PgTime} : StoreOps D Pg := {|
  st_append := pg_append;
  st_read_from := pg_read_from;
  st_last_seq := pg_last_seq;
  st_compact_before := pg_compact_before;
  st_log := pg_log;
  st_wf := pg_wf
|}.

(** ** The table is a log *)

Section log.
Context {D : Type} `{BO : !BincodeOps (Event D), BL : !BincodeLaws (Event D), PT : !PgTime}.
Implicit Types (s : Pg) (evs : list (Event D)).

(** What the table keeps of a stamped event. *)
Definition stored (e e' : Event D) : Prop :=
  ev_seq e' = ev_seq e /\ ev_type e' = ev_type e /\ ev_data e' = ev_data e /\ ev_timestamp e' = pg_time (ev_timestamp e).

(** [evs], stamped as [evs'], extend the log by [kept]. *)
Record extended (clock : Z -> DateTime) s evs evs' (kept : list (Event D)) : Prop := {
  ex_stamped : Forall2 (stamped clock) evs evs';
  ex_stored : Forall2 stored evs' kept;
  ex_above : Forall (fun e => pg_sequence s < ev_seq e) evs';
  ex_sorted : StronglySorted (fun a b => ev_seq a < ev_seq b) evs'
}.

Lemma insert_all_given ps : forall sq, 0 <= sq <= i64_max ->
  sq <= fst (insert_all ps sq) <= sq + Z.of_nat (length ps) /\ fst (insert_all ps sq) <= i64_max.
Proof.
  induction ps as [|[[ty ts] b] ps IH]; intros sq Hsq; cbn [insert_all length]; [cbn; lia|].
  destruct (Z.leb_spec i64_max sq); [cbn; lia|]. specialize (IH (sq + 1)). destruct (insert_all ps (sq + 1)) as [sq' rows]. cbn [fst] in *. lia.
Qed.

(** The inserted rows, decoded. *)
Record inserted (clock : Z -> DateTime) evs (ps : list (Z * DateTime * bytes)) (sq sq' : Z) (rows : list Row) : Prop := {
  in_given : sq' = sq + Z.of_nat (length evs) /\ sq' <= i64_max;
  in_stamped : Forall2 (stamped clock) evs (assigned evs ps rows);
  in_stored : Forall2 stored (assigned evs ps rows) (omap decode_row rows);
  in_decodes : Forall (fun r => is_Some (decode_row (D:=D) r)) rows;
  in_seqs : map ev_seq (assigned evs ps rows) = map row_seq rows;
  in_sorted : StronglySorted (fun a b => row_seq a < row_seq b) rows;
  in_range : Forall (fun r => sq + 1 <= row_seq r <= sq') rows
}.

Lemma insert_all_spec clock evs : forall ps sq sq' rows, 0 <= sq <= i64_max ->
  pg_payloads clock (sq + 1) evs = Ok ps -> insert_all ps sq = (sq', Some rows) -> inserted clock evs ps sq sq' rows.
Proof.
  induction evs as [|e evs IH]; intros ps sq sq' rows Hsq; cbn [pg_payloads].
  { intros [= <-]. cbn [insert_all]. intros [= <- <-]. split; cbn; first [lia|constructor]. }
  set (ts := if _ =? _ then _ else _). destruct (ser _) as [b|] eqn:Hb; [|done]. apply bincode_roundtrip in Hb.
  destruct (pg_payloads clock (sq + 1 + 1) evs) as [ps'|] eqn:Hps; [|done]. intros [= <-]. cbn [insert_all].
  destruct (Z.leb_spec i64_max sq) as [|Hlt]; [done|]. destruct (insert_all ps' (sq + 1)) as [sq1 [rows'|]] eqn:Hin; [|done]. intros [= <- <-].
  destruct (IH ps' (sq + 1) sq1 rows' ltac:(lia) Hps Hin) as [[H1 H1'] H2 H3 H4 H5 H6 H7].
  set (r := mkRow _ _ _ _). assert (decode_row (D:=D) r = Some (mkEvent (sq + 1) (ev_type e) (pg_time ts) (ev_data e))) as Hd.
  { unfold decode_row, r. cbn [row_data row_seq row_time]. rewrite Hb, as_u64_id by lia. done. }
  assert (omap decode_row (r :: rows') = mkEvent (sq + 1) (ev_type e) (pg_time ts) (ev_data e) :: omap (decode_row (D:=D)) rows') as Ho by (cbn; by rewrite Hd).
  assert (assigned (e :: evs) ((event_type_repr (ev_type e), ts, b) :: ps') (r :: rows') =
    mkEvent (sq + 1) (ev_type e) ts (ev_data e) :: assigned evs ps' rows') as Ha.
  { unfold assigned. cbn [zip_with snd fst]. assert (as_u64 (row_seq r) = sq + 1) as -> by (apply as_u64_id; lia). done. }
  split; rewrite ?Ha, ?Ho.
  - cbn [length]. lia.
  - by constructor.
  - by constructor.
  - constructor; [by rewrite Hd|done].
  - cbn [map]. by rewrite H5.
  - constructor; [done|]. eapply Forall_impl; [exact H7|]. cbn. lia.
  - constructor; [cbn; lia|]. eapply Forall_impl; [exact H7|]. cbn. lia.
Qed.

Lemma sorted_map {A B} (f : A -> Z) (g : B -> Z) (l : list A) (k : list B) :
  map f l = map g k -> StronglySorted (fun a b => g a < g b) k -> StronglySorted (fun a b => f a < f b) l.
Proof.
  revert k. induction l as [|x l IH]; intros [|y k]; try done; [constructor|]. cbn [map]. intros [= Hx Hl] [Hk Hy]%StronglySorted_inv.
  constructor; [by eapply IH|]. rewrite Forall_forall in Hy. apply Forall_forall. intros a Ha.
  assert (f a ∈ map f l) as Hin by (apply list_elem_of_In, in_map, list_elem_of_In, Ha). rewrite Hl in Hin.
  apply list_elem_of_In, in_map_iff in Hin as (b & Hb & Hbk). rewrite Hx, <- Hb. by apply Hy, list_elem_of_In.
Qed.

Lemma inserted_extended clock s evs ps sq' rows :
  inserted clock evs ps (pg_sequence s) sq' rows -> extended clock s evs (assigned evs ps rows) (omap decode_row rows).
Proof.
  intros [_ H2 H3 _ H5 H6 H7]. split; [done..| |by eapply sorted_map].
  rewrite Forall_forall in H7. apply Forall_forall. intros e He. assert (ev_seq e ∈ map row_seq rows) as Hin by (rewrite <- H5; apply list_elem_of_In, in_map, list_elem_of_In, He).
  apply list_elem_of_In, in_map_iff in Hin as (r & <- & Hr). apply list_elem_of_In, H7 in Hr. lia.
Qed.

Lemma sorted_app {A} (R : A -> A -> Prop) (l k : list A) :
  StronglySorted R l -> StronglySorted R k -> Forall (fun a => Forall (R a) k) l -> StronglySorted R (l ++ k).
Proof.
  intros Hl Hk. induction Hl as [|x l Hl IH Hx]; [done|]. intros [Hxk Hlk]%Forall_cons. cbn. constructor; [by apply IH|]. by apply Forall_app.
Qed.

(** The table after a commit. *)
Lemma committed_wf s evs clock ps sq' rows last' :
  pg_wf (D:=D) s -> inserted clock evs ps (pg_sequence s) sq' rows -> 0 <= last' <= sq' -> pg_wf (D:=D) (mkPg (pg_rows s ++ rows) sq' last').
Proof.
  intros [Hs Hg Hb Hd] [H1 _ _ H4 _ H6 H7] Hlast. split; cbn [pg_rows pg_sequence pg_last_seq].
  - apply sorted_app; [done..|]. eapply Forall_impl; [exact Hg|]. intros r Hr. eapply Forall_impl; [exact H7|]. cbn in *. lia.
  - apply Forall_app. split; [eapply Forall_impl; [exact Hg|]|eapply Forall_impl; [exact H7|]]; cbn; lia.
  - lia.
  - by apply Forall_app.
Qed.

Lemma sequence_wf s sq : pg_wf (D:=D) s -> pg_sequence s <= sq <= i64_max -> pg_wf (D:=D) (mkPg (pg_rows s) sq (pg_last_seq s)).
Proof. intros [Hs Hg Hb Hd] Hsq. split; cbn; try done; [|lia]. eapply Forall_impl; [exact Hg|]. cbn. lia. Qed.

Lemma pg_payloads_length clock evs : forall n ps, pg_payloads clock n evs = Ok ps -> length ps = length evs.
Proof.
  induction evs as [|e evs IH]; intros n ps; cbn [pg_payloads]; [by intros [= <-]|]. destruct (ser _); [|done].
  destruct (pg_payloads _ _ evs) eqn:Hp; [|done]. intros [= <-]. cbn. f_equal. by eapply IH.
Qed.

Lemma pg_log_app s rows sq l : pg_log (D:=D) (mkPg (pg_rows s ++ rows) sq l) = pg_log s ++ omap decode_row rows.
Proof. unfold pg_log. cbn [pg_rows]. apply omap_app. Qed.

(** The acknowledgement of a commit that was carried out is lost. *)
Definition lost_acknowledgement (env : StoreEnv) evs : Prop := exists k a, env_io env = Some (k, S a) /\ (length evs <= k)%nat.

(** What [append] does to the log. *)
Definition append_contract (env : StoreEnv) s evs (s' : Pg) (r : result (list (Event D)) EventError) : Prop :=
  pg_wf (D:=D) s' /\ pg_sequence s <= pg_sequence s' <= pg_sequence s + Z.of_nat (length evs) /\
  match r with
  | Ok evs' => exists kept, extended (env_clock env) s evs evs' kept /\ pg_log s' = pg_log s ++ kept /\
      pg_last_seq s' = match last evs' with Some e => ev_seq e | None => pg_last_seq s end
  | Err _ => pg_last_seq s' = pg_last_seq s /\
      (pg_log (D:=D) s' = pg_log s \/
       (lost_acknowledgement env evs /\ exists evs' kept, extended (env_clock env) s evs evs' kept /\ pg_log s' = pg_log s ++ kept))
  end.

Lemma last_assigned (clock : Z -> DateTime) s evs ps sq' rows :
  pg_wf (D:=D) s -> inserted clock evs ps (pg_sequence s) sq' rows ->
  0 <= match last (assigned evs ps rows) with Some e => ev_seq e | None => pg_last_seq s end <= sq'.
Proof.
  intros [_ _ Hb _] Hin. destruct (last _) as [e|] eqn:Hl; [|destruct (in_given _ _ _ _ _ _ Hin); lia].
  apply last_Some_elem_of in Hl. assert (ev_seq e ∈ map row_seq rows) as H.
  { rewrite <- (in_seqs _ _ _ _ _ _ Hin). apply list_elem_of_In, in_map, list_elem_of_In, Hl. }
  apply list_elem_of_In, in_map_iff in H as (r & <- & Hr). apply list_elem_of_In in Hr. pose proof (in_range _ _ _ _ _ _ Hin) as Hrange.
  rewrite Forall_forall in Hrange. apply Hrange in Hr. lia.
Qed.

Lemma append_spec env s evs s' r : pg_wf (D:=D) s -> pg_append env s evs = (s', r) -> append_contract env s evs s' r.
Proof.
  intros Hwf. pose proof (pg_bounds _ Hwf) as Hb. unfold pg_append. destruct evs as [|e0 evs0].
  { intros [= <- <-]. split_and!; [done|cbn; lia..|]. exists []. split_and!; [split; constructor|by rewrite app_nil_r|done]. }
  set (evs := e0 :: evs0). destruct (pg_payloads _ _ evs) as [ps|err] eqn:Hps; [|intros [= <- <-]; split; [done|]; split; [lia|]; split; [done|by left]].
  pose proof (pg_payloads_length _ _ _ _ Hps) as Hlen.
  assert (forall k, pg_sequence s <= fst (insert_all (take k ps) (pg_sequence s)) <= pg_sequence s + Z.of_nat (length evs) /\
    fst (insert_all (take k ps) (pg_sequence s)) <= i64_max) as Hgiven.
  { intros k. destruct (insert_all_given (take k ps) (pg_sequence s)) as [H1 H2]; [lia|]. rewrite length_take in H1. lia. }
  pose proof (Hgiven (length ps)) as Hall. rewrite take_ge in Hall by done. destruct (insert_all ps (pg_sequence s)) as [sq rows] eqn:Hin. cbn [fst] in Hall.
  assert (forall sq1, pg_sequence s <= sq1 <= pg_sequence s + Z.of_nat (length evs) /\ sq1 <= i64_max ->
    forall er, append_contract env s evs (mkPg (pg_rows s) sq1 (pg_last_seq s)) (Err er)) as Hrolled.
  { intros sq1 H1 er. split; [by apply sequence_wf; [|lia]|]. split; [cbn [pg_sequence]; lia|]. split; [done|by left]. }
  destruct (env_io env) as [[k a]|] eqn:Hio; destruct rows as [rows|]; [|destruct (_ <? _)%nat; intros [= <- <-]; by apply Hrolled| |intros [= <- <-]; by apply Hrolled].
  all: pose proof (insert_all_spec (env_clock env) evs ps (pg_sequence s) sq rows ltac:(lia) Hps Hin) as Hins; pose proof (inserted_extended _ _ _ _ _ _ Hins) as Hex.
  - destruct (Nat.ltb_spec k (length ps)) as [Hk|Hk]; [intros [= <- <-]; by apply Hrolled|].
    destruct a as [|a]; intros [= <- <-]; cbn [Nat.eqb]; [by apply Hrolled|]. split; [eapply committed_wf; [done..|lia]|]. split; [cbn [pg_sequence]; lia|]. split; [done|].
    right. split; [exists k, a; split; [done|lia]|]. exists (assigned evs ps rows), (omap decode_row rows). split; [done|]. apply pg_log_app.
  - intros [= <- <-]. split; [eapply committed_wf; [done..|by eapply last_assigned]|]. split; [cbn [pg_sequence]; lia|].
    exists (omap decode_row rows). split; [done|]. split; [apply pg_log_app|done].
Qed.
(** ** Reading, compaction and the start *)

Lemma sort_ordered (l : list Row) : StronglySorted (fun a b => row_seq a < row_seq b) l -> sort_by (fun a b => Z.compare (row_seq a) (row_seq b)) l = l.
Proof.
  induction 1 as [|x l Hl IH Hx]; [done|]. cbn [sort_by]. rewrite IH. destruct Hx as [|y l' Hy]; [done|]. cbn [insert_by].
  destruct (Z.compare_spec (row_seq x) (row_seq y)); [done..|lia].
Qed.

Definition decodable (sq : Z) (rows : list Row) : Prop := Forall (fun r => is_Some (decode_row (D:=D) r) /\ 1 <= row_seq r <= sq) rows.

Lemma decode_row_seq r e : 0 <= row_seq r <= i64_max -> decode_row r = Some e -> ev_seq (D:=D) e = row_seq r.
Proof. intros Hr. unfold decode_row. destruct (de _); [|done]. intros [= <-]. by apply as_u64_id. Qed.

Lemma omap_filter sq (f : Z -> bool) rows : sq <= i64_max -> decodable sq rows ->
  omap decode_row (List.filter (fun r => f (row_seq r)) rows) = List.filter (fun e : Event D => f (ev_seq e)) (omap decode_row rows).
Proof.
  intros Hsq. induction 1 as [|r rows [[e He] Hr] Hrows IH]; [done|]. cbn [List.filter omap list_omap]. rewrite He. cbn [List.filter].
  rewrite (decode_row_seq r e) by (done || lia). destruct (f (row_seq r)); [|done]. cbn [omap list_omap]. by rewrite He, <- IH.
Qed.

Lemma omap_take sq n rows : decodable sq rows -> omap decode_row (take n rows) = take n (omap (decode_row (D:=D)) rows).
Proof.
  intros H. revert n. induction H as [|r rows [[e He] Hr] Hrows IH]; intros [|n]; [done..|]. cbn [take omap list_omap]. rewrite He. cbn [take]. f_equal. apply IH.
Qed.

Lemma decode_rows_ok rows : Forall (fun r => is_Some (decode_row (D:=D) r)) rows -> decode_rows rows = Ok (omap (decode_row (D:=D)) rows).
Proof. induction 1 as [|r rows [e He] Hrows IH]; [done|]. cbn [decode_rows omap list_omap]. by rewrite He, IH. Qed.

Lemma wf_decodable s : pg_wf (D:=D) s -> decodable (pg_sequence s) (pg_rows s).
Proof. intros [_ Hg _ Hd]. apply Forall_and. done. Qed.

Lemma read_spec s after limit : pg_wf (D:=D) s -> 0 <= after <= i64_max -> 0 < limit <= i64_max ->
  pg_read_from s after limit = Ret (Ok (take (Z.to_nat limit) (List.filter (fun e : Event D => after <? ev_seq e) (pg_log s)))).
Proof.
  intros Hwf Ha Hl. pose proof (wf_decodable _ Hwf) as Hdec. destruct Hwf as [Hs _ Hb Hd]. unfold pg_read_from, decodable in *. rewrite !as_i64_id by lia.
  destruct (Z.eqb_spec limit 0); [lia|]. destruct (Z.ltb_spec limit 0); [lia|]. unfold select_after.
  rewrite sort_ordered by (by apply StronglySorted_List_filter). rewrite decode_rows_ok.
  - do 2 f_equal. unfold pg_log. rewrite <- (omap_filter (pg_sequence s) (fun z => after <? z)) by (done || lia). apply (omap_take (pg_sequence s)).
    by apply Forall_List_filter.
  - by apply Forall_take, Forall_List_filter.
Qed.

Lemma filtered_wf s (f : Row -> bool) : pg_wf (D:=D) s -> pg_wf (D:=D) (mkPg (List.filter f (pg_rows s)) (pg_sequence s) (pg_last_seq s)).
Proof.
  intros [Hs Hg Hb Hd]. split; cbn [pg_rows pg_sequence pg_last_seq]; [by apply StronglySorted_List_filter|by apply Forall_List_filter|done|by apply Forall_List_filter].
Qed.

Lemma compact_spec env s before s' r : pg_wf (D:=D) s -> 0 <= before <= i64_max -> pg_compact_before env s before = (s', r) ->
  pg_wf (D:=D) s' /\ pg_last_seq s' = pg_last_seq s /\
  (pg_log s' = List.filter (fun e : Event D => before <=? ev_seq e) (pg_log s) \/ (env_io env <> None /\ (exists e, r = Err e) /\ pg_log (D:=D) s' = pg_log s)).
Proof.
  intros Hwf Hb. unfold pg_compact_before. rewrite as_i64_id by done.
  assert (pg_log (mkPg (List.filter (fun r => before <=? row_seq r) (pg_rows s)) (pg_sequence s) (pg_last_seq s)) =
    List.filter (fun e : Event D => before <=? ev_seq e) (pg_log s)) as Hlog.
  { unfold pg_log. cbn [pg_rows]. apply (omap_filter (pg_sequence s) (fun z => before <=? z)); [apply Hwf|by apply wf_decodable]. }
  destruct (Z.eqb_spec before 0) as [->|Hne].
  { intros [= <- <-]. split_and!; [done..|]. left. unfold pg_log. rewrite <- (omap_filter (pg_sequence s) (fun z => 0 <=? z)); [|apply Hwf|by apply wf_decodable].
    f_equal. symmetry. apply forallb_filter_id, forallb_forall. intros r Hr%list_elem_of_In. pose proof (pg_given _ Hwf) as Hg. rewrite Forall_forall in Hg.
    apply Hg in Hr. lia. }
  destruct (env_io env) as [[k [|a]]|] eqn:Hio; intros [= <- <-]; (split; [first [exact Hwf|by apply filtered_wf]|]); (split; [done|]); [right; eauto|by left..].
Qed.

Lemma max_last rows : StronglySorted (fun a b => row_seq a < row_seq b) rows -> Forall (fun r => 1 <= row_seq r) rows ->
  forall acc, Forall (fun r => acc <= row_seq r) rows -> fold_left Z.max (map row_seq rows) acc = match last rows with Some r => row_seq r | None => acc end.
Proof.
  induction 1 as [|r rows Hs IH Hr]; intros Hp acc Ha; [done|]. apply Forall_cons in Hp as [Hp1 Hp], Ha as [Ha1 Ha]. cbn [map fold_left].
  rewrite Z.max_r by done. rewrite IH; [|done|]. { destruct rows as [|r' rows]; [done|]. rewrite last_cons_cons. by destruct (last_is_Some (r' :: rows)) as [_ [x ->]]. }
  eapply Forall_impl; [exact Hr|]. cbn. lia.
Qed.

Lemma open_spec s : pg_wf (D:=D) s ->
  pg_wf (D:=D) (pg_open s) /\ pg_log (D:=D) (pg_open s) = pg_log s /\
  pg_last_seq (pg_open s) = match last (pg_log (D:=D) s) with Some e => ev_seq e | None => 0 end.
Proof.
  intros Hwf. pose proof Hwf as [Hs Hg Hb Hd].
  assert (Forall (fun r => 1 <= row_seq r) (pg_rows s)) as Hpos by (eapply Forall_impl; [exact Hg|]; cbn; lia).
  assert (Forall (fun r => 0 <= row_seq r) (pg_rows s)) as Hnn by (eapply Forall_impl; [exact Hg|]; cbn; lia).
  pose proof (max_last _ Hs Hpos 0 Hnn) as Hmax.
  assert (0 <= match last (pg_rows s) with Some r => row_seq r | None => 0 end <= pg_sequence s) as Hrange.
  { destruct (last (pg_rows s)) as [r|] eqn:Hl; [|lia]. apply last_Some_elem_of in Hl. rewrite Forall_forall in Hg. apply Hg in Hl. lia. }
  assert (pg_last_seq (pg_open s) = match last (pg_rows s) with Some r => row_seq r | None => 0 end) as Hlast.
  { cbn [pg_open pg_last_seq]. rewrite Hmax. apply as_u64_id. lia. }
  split_and!; [split; [done..|rewrite Hlast; cbn; lia|done]|done|]. rewrite Hlast. unfold pg_log. clear -Hd Hg Hb.
  destruct (pg_rows s) as [|r0 rows0] using rev_ind; [done|]. clear IHrows0. rewrite omap_app, last_snoc. apply Forall_app in Hd as [_ [[e He] _]%Forall_cons].
  apply Forall_app in Hg as [_ [Hr _]%Forall_cons]. cbn [omap list_omap]. rewrite He, last_snoc. symmetry. apply decode_row_seq; [lia|done].
Qed.

(** C10: The table of events is a log.  [append] adds the whole batch after
    everything else, numbered upwards from above every number the sequence has
    given, or reports an error and leaves the cached number; then the log is as
    it was, or the acknowledgement was lost and it holds the whole batch.
    Reading returns the log's tail, compaction drops the events below the
    cutoff, and a restart finds the same log and the number of its last event.
    The instants in the log are those returned to the caller, rounded. *)
Theorem pg_table_is_log s : pg_wf (D:=D) s ->
  (forall env evs s' r, pg_append env s evs = (s', r) -> append_contract env s evs s' r) /\
  (forall after limit, 0 <= after <= i64_max -> 0 < limit <= i64_max ->
    pg_read_from s after limit = Ret (Ok (take (Z.to_nat limit) (List.filter (fun e : Event D => after <? ev_seq e) (pg_log s))))) /\
  (forall env before s' r, 0 <= before <= i64_max -> pg_compact_before env s before = (s', r) ->
    pg_wf (D:=D) s' /\ pg_last_seq s' = pg_last_seq s /\
    (pg_log s' = List.filter (fun e : Event D => before <=? ev_seq e) (pg_log s) \/
     (env_io env <> None /\ (exists e, r = Err e) /\ pg_log (D:=D) s' = pg_log s))) /\
  (pg_wf (D:=D) (pg_open s) /\ pg_log (D:=D) (pg_open s) = pg_log s /\
   pg_last_seq (pg_open s) = match last (pg_log (D:=D) s) with Some e => ev_seq e | None => 0 end).
Proof.
  intros Hwf. split_and!.
  - intros. by apply append_spec.
  - intros. by apply read_spec.
  - intros. by apply (compact_spec env).
  - by apply open_spec.
  - by apply open_spec.
  - by apply open_spec.
Qed.
End log.

(** ** An order admitted twice *)

Section twice.
Context {D F : Type} `{!DecimalOps D, !FieldOps F, !Poseidon F, !Sha256, !HexOps, !AddressOps, BO : !BincodeOps (Event D), BL : !BincodeLaws (Event D), PT : !PgTime} {HI : HashIter}.

Lemma pg_payloads_err clock evs : forall n err, pg_payloads (D:=D) clock n evs = Err err -> err = EvBincode.
Proof.
  induction evs as [|e evs IH]; intros n err; cbn [pg_payloads]; [done|]. destruct (ser _); [|by intros [= <-]].
  destruct (pg_payloads _ _ evs) eqn:Hp; [done|]. intros [= <-]. by eapply IH.
Qed.

(** One event, committed without an answer. *)
Lemma append_lost env s (ev : Event D) s' k a : env_io env = Some (S k, S a) -> pg_wf (D:=D) s -> pg_append env s [ev] = (s', Err EvTimeout) ->
  pg_wf (D:=D) s' /\ exists kept, pg_log s' = pg_log s ++ [kept] /\ ev_data kept = ev_data ev.
Proof.
  intros Hio Hwf Happ. destruct (append_spec _ _ _ _ _ Hwf Happ) as (Hwf' & _). split; [done|]. revert Happ. unfold pg_append. rewrite Hio.
  destruct (pg_payloads _ _ [ev]) as [ps|err] eqn:Hps; [|apply pg_payloads_err in Hps as ->; done]. pose proof (pg_payloads_length _ _ _ _ Hps) as Hl. cbn [length] in Hl.
  destruct (Nat.ltb_spec (S k) (length ps)); [lia|]. destruct (insert_all ps (pg_sequence s)) as [sq [rows|]] eqn:Hin; [|done].
  intros [= <-]. cbn [Nat.eqb]. pose proof (pg_bounds _ Hwf) as Hb.
  pose proof (insert_all_spec (env_clock env) [ev] ps (pg_sequence s) sq rows ltac:(lia) Hps Hin) as Hins. rewrite pg_log_app.
  pose proof (in_stamped _ _ _ _ _ _ Hins) as Hst. pose proof (in_stored _ _ _ _ _ _ Hins) as Hs.
  apply Forall2_cons_inv_l in Hst as (e1 & l & (_ & Hd & _) & Hl0%Forall2_nil_inv_l & Heq). subst l. rewrite Heq in Hs.
  apply Forall2_cons_inv_l in Hs as (e2 & l2 & (_ & _ & Hd2 & _) & Hl2%Forall2_nil_inv_l & ->). subst l2. exists e2. split; [done|congruence].
Qed.

Lemma append_one env s (ev : Event D) s' evs' : pg_wf (D:=D) s -> pg_append env s [ev] = (s', Ok evs') ->
  exists kept, pg_log s' = pg_log s ++ [kept] /\ ev_data kept = ev_data ev.
Proof.
  intros Hwf Happ. destruct (append_spec _ _ _ _ _ Hwf Happ) as (_ & _ & kept & [Hst Hs _ _] & Hlog & _).
  apply Forall2_cons_inv_l in Hst as (e1 & l & (_ & Hd & _) & Hl0%Forall2_nil_inv_l & ->). subst l.
  apply Forall2_cons_inv_l in Hs as (e2 & l2 & (_ & _ & Hd2 & _) & Hl2%Forall2_nil_inv_l & ->). subst l2. exists e2. split; [done|congruence].
Qed.

(** The same submission later, under another identifier: the keys, the oracle
    and the verifier answer as before. *)
Definition resubmitted (env : PlaceEnv D F) (now : DateTime) (i : Uuid) : PlaceEnv D F :=
  mkPlaceEnv (pe_decrypt env) (pe_lookup env) (pe_verifier env) now i.

(** Until the order expires its checks pass again, with the same secrets. *)
Lemma prepare_again (env : PlaceEnv D F) now i s1 s2 proof ciphertext caller p :
  prepare_order env s1 s2 proof ciphertext caller = Ret (Ok p) -> pe_now env <= now ->
  (forall d, pe_decrypt env ciphertext = Ok d -> now < d_expires_at_unix_nanos d) ->
  o_id (p_order p) = pe_new_id env /\
  exists p', prepare_order (resubmitted env now i) s1 s2 proof ciphertext caller = Ret (Ok p') /\
    p_secrets p' = p_secrets p /\ p_replay p' = p_replay p /\ o_id (p_order p') = i /\
    o_pair (p_order p') = o_pair (p_order p) /\ o_trader (p_order p') = o_trader (p_order p).
Proof.
  intros Hp Hnow Hexp. revert Hp. unfold prepare_order. cbn [resubmitted pe_decrypt]. destruct (_ <? _); [done|]. destruct (bool_decide _); [done|].
  destruct (pe_decrypt env ciphertext) as [d|]; [|done]. specialize (Hexp d eq_refl).
  destruct (check_plaintext caller d) as [key|]; [|done]. intros ([spend|] & -> & Hd)%outcome_bind_Ret; [|done]. injection Hd as Hd. cbn [mbind outcome_bind].
  revert Hd. unfold derive_prepared, validate_order_freshness. cbn [resubmitted pe_now pe_lookup pe_verifier new_order o_trader o_side o_price o_size].
  destruct (order_expiry_from_unix_nanos _) as [ex|] eqn:Hex; [|done].
  assert (ex = d_expires_at_unix_nanos d) as -> by (revert Hex; unfold order_expiry_from_unix_nanos; destruct (_ <=? _); [done|by intros [= <-]]).
  destruct (Z.leb_spec (d_expires_at_unix_nanos d) (pe_now env)); [done|]. destruct (Z.ltb_spec (pe_now env + MAX_TTL) (d_expires_at_unix_nanos d)); [done|].
  destruct (Z.leb_spec (d_expires_at_unix_nanos d) now); [lia|]. destruct (Z.ltb_spec (now + MAX_TTL) (d_expires_at_unix_nanos d)); [lia|].
  destruct (parse_order_salt _); [|done]. destruct (parse_order_nonce _); [|done]. destruct (pe_lookup _ _ _ _); [|done].
  destruct (derive_order_secrets _ _ _ _ _ _ _); [|done]. destruct (check_proof _ _ _); [|done]. intros [= <-]. split; [done|]. by eexists.
Qed.

(** No check before the append reports an error of the store. *)
Definition no_event {A} (r : result A (EngineError D)) : Prop := forall err, r <> Err (EventErr err).

Lemma no_event_bind {A B} (r : result A (EngineError D)) (k : A -> result B (EngineError D)) :
  no_event r -> (forall x, no_event (k x)) -> no_event (let? x := r in k x).
Proof. intros Hr Hk. destruct r as [x|e]; [apply Hk|]. intros err [= ->]. by apply (Hr err). Qed.

Lemma no_event_encoded {A} (r : result A (EncodingError D)) : no_event (encoded r).
Proof. by destruct r. Qed.

Lemma no_event_hex hex_value err : no_event (parse_lowercase_hex32 (D:=D) hex_value err).
Proof. unfold parse_lowercase_hex32. intros e. repeat (case_match; try done). Qed.

Lemma derive_no_event (env : PlaceEnv D F) proof ciphertext key d spend : no_event (derive_prepared env proof ciphertext key d spend).
Proof.
  unfold derive_prepared. apply no_event_bind; [unfold validate_order_freshness, order_expiry_from_unix_nanos; intros e; repeat (case_match; simplify_eq; try done)|].
  intros exp. cbv zeta. apply no_event_bind; [|intros salt].
  { unfold parse_order_salt. intros e. pose proof (no_event_hex (d_salt d) SaltInvalid) as Hh. destruct (parse_lowercase_hex32 _ _) as [b|e1]; [by destruct (bytes32_to_scalar b)|]. intros [= ->]. by eapply Hh. }
  apply no_event_bind; [apply no_event_hex|]. intros nonce. destruct (pe_lookup _ _ _ _); [|done].
  apply no_event_bind; [|intros sec; apply no_event_bind; [|done]; unfold check_proof; intros e; repeat (case_match; try done)].
  unfold derive_order_secrets, compute_poseidon_commitment_fr. repeat (first [apply no_event_encoded|apply no_event_bind; [|intros ?]]); done.
Qed.

Lemma prepare_no_event (env : PlaceEnv D F) s1 s2 proof ciphertext caller err :
  prepare_order env s1 s2 proof ciphertext caller <> Ret (Err (EventErr err)).
Proof.
  unfold prepare_order. destruct (_ <? _); [done|]. destruct (bool_decide _); [done|]. destruct (pe_decrypt env ciphertext) as [d|]; [|done].
  destruct (check_plaintext caller d) as [key|e0] eqn:Hpl.
  - intros ([spend|e1] & Hpair & Hd)%outcome_bind_Ret; [injection Hd; apply derive_no_event|]. injection Hd as ->. revert Hpair. unfold check_pair.
    destruct (pair_config _ _) as [cfg|]; [|done]. destruct (status cfg); [|done..]. destruct (_ && _); [done|].
    intros (on_tick & _ & Hr)%outcome_bind_Ret. by destruct on_tick.
  - intros [= ->]. revert Hpl. unfold check_plaintext. repeat (case_match; try done).
Qed.

Lemma admission_no_event s order digest replay err : admission_check (D:=D) s order digest replay <> Err (EventErr err).
Proof. unfold admission_check, ensure_order_capacity. repeat (case_match; try done). Qed.

(** A placement that the store fails passed the checks under the lock and left
    nothing but what the store holds. *)
Lemma persist_failed senv (e : Engine D Pg) order secrets c proof ciphertext replay e' err :
  persist_order_placed senv e order secrets c proof ciphertext replay = Ret (e', Err (EventErr err)) ->
  admission_check (e_state e) order (ciphertext_digest ciphertext) replay = Ok tt /\ e' = with_store e (e_store e') /\
  pg_append senv (e_store e) [new_event (o_submitted_at order) (OrderPlaced (o_id order) c proof ciphertext)] = (e_store e', Err err).
Proof.
  unfold persist_order_placed. cbv zeta. destruct (admission_check _ _ _ _) as [[]|er] eqn:Hadm.
  - cbn [st_append pg_store_ops]. destruct (pg_append senv _ _) as [st [evs|er]].
    + intros (evt & _ & (book & _ & Hr)%outcome_bind_Ret)%outcome_bind_Ret. discriminate Hr.
    + by intros [= <- <-].
  - intros [= <- ->]. by apply admission_no_event in Hadm.
Qed.

(** An append that the server carries out, and whose event serializes, succeeds
    while the sequence lasts. *)
Lemma append_healthy env s (ev : Event D) :
  env_io env = None -> pg_sequence s < i64_max -> (forall ts, is_Some (ser (mkEvent (ev_seq ev) (ev_type ev) ts (ev_data ev)))) ->
  exists s' ev', pg_append env s [ev] = (s', Ok [ev']) /\ ev_data ev' = ev_data ev.
Proof.
  intros Hio Hsq Hser. unfold pg_append. cbn [pg_payloads]. set (ts := if _ =? _ then _ else _). destruct (Hser ts) as [b ->]. cbn [insert_all]. rewrite Hio.
  destruct (Z.leb_spec i64_max (pg_sequence s)); [lia|]. cbn [option_map]. do 2 eexists. split; [done|done].
Qed.

Lemma persist_healthy senv (e : Engine D Pg) order secrets c proof ciphertext replay :
  admission_check (e_state e) order (ciphertext_digest ciphertext) replay = Ok tt -> env_io senv = None -> pg_sequence (e_store e) < i64_max ->
  (forall ts, is_Some (ser (mkEvent 0 TOrderPlaced ts (OrderPlaced (D:=D) (o_id order) c proof ciphertext)))) ->
  exists e' sq evs', persist_order_placed senv e order secrets c proof ciphertext replay = Ret (e', Ok sq) /\
    pg_append senv (e_store e) [new_event (o_submitted_at order) (OrderPlaced (o_id order) c proof ciphertext)] = (e_store e', Ok evs').
Proof.
  intros Hadm Hio Hsq Hser. unfold persist_order_placed. cbv zeta. rewrite Hadm. cbn [st_append pg_store_ops].
  destruct (append_healthy senv (e_store e) (new_event (o_submitted_at order) (OrderPlaced (o_id order) c proof ciphertext)) Hio Hsq Hser) as (st & ev & -> & Hd).
  cbn [head or_panic mbind outcome_bind]. assert (exists book, Book.apply (es_book (e_state e)) ev = Ret book) as [book ->].
  { unfold Book.apply. rewrite Hd. cbn [new_event ev_data]. destruct (_ && _); eauto. }
  cbn [mbind outcome_bind]. do 3 eexists. split; done.
Qed.

(** C39: an order can be admitted twice.  If the server commits the append of an
    order and the answer does not arrive, the trader is told of a timeout and
    the engine keeps no trace of the order: not its ciphertext, its nullifier or
    its nonce.  The same submission, sent again before the order expires, to an
    engine in the state the first left, with the keys, the oracle and the
    verifier as they were and a store that works, is then accepted; and the log
    holds it twice, with one commitment and under two different identifiers. *)
Theorem lost_acknowledgement_admits_twice (env : PlaceEnv D F) now i senv1 senv2 (e e1 : Engine D Pg) proof ciphertext caller k a :
  pg_wf (D:=D) (e_store e) -> env_io senv1 = Some (S k, S a) ->
  place_encrypted_order env senv1 (e_state e) (e_state e) e proof ciphertext caller = Ret (e1, Err (EventErr EvTimeout)) ->
  pe_now env <= now -> (forall d, pe_decrypt env ciphertext = Ok d -> now < d_expires_at_unix_nanos d) -> i <> pe_new_id env ->
  env_io senv2 = None -> pg_sequence (e_store e1) < i64_max ->
  (forall ts c, is_Some (ser (mkEvent 0 TOrderPlaced ts (OrderPlaced (D:=D) i c proof ciphertext)))) ->
  e_state e1 = e_state e /\ e_secrets e1 = e_secrets e /\
  exists e2 o c ev1 ev2,
    place_encrypted_order (resubmitted env now i) senv2 (e_state e1) (e_state e1) e1 proof ciphertext caller = Ret (e2, Ok o) /\
    o_id o = i /\ o_id o <> pe_new_id env /\
    pg_log (e_store e2) = pg_log (e_store e) ++ [ev1; ev2] /\
    ev_data ev1 = OrderPlaced (pe_new_id env) c proof ciphertext /\ ev_data ev2 = OrderPlaced (o_id o) c proof ciphertext.
Proof.
  intros Hwf Hio Hfst Hnow Hexp Hid Hio2 Hsq Hser. unfold place_encrypted_order in Hfst.
  apply outcome_bind_Ret in Hfst as ([p1|err] & Hp1 & Hfst).
  2: { injection Hfst as _ ->. by apply prepare_no_event in Hp1. }
  apply outcome_bind_Ret in Hfst as ([x1 r1] & Hper1 & Hfst). injection Hfst as -> Hfst. cbn [fst snd] in *. destruct r1 as [|err1]; [discriminate|]. injection Hfst as ->.
  apply persist_failed in Hper1 as (Hadm & He1 & Ha1). assert (e_state e1 = e_state e /\ e_secrets e1 = e_secrets e) as [Hs1 Hsec1] by by rewrite He1.
  destruct (prepare_again env now i _ _ _ _ _ _ Hp1 Hnow Hexp) as (Hid1 & p2 & Hp2 & Hsec & Hrep & Hid2 & Hpair & Htr).
  destruct (persist_healthy senv2 e1 (p_order p2) (p_secrets p2) (s_commitment (p_secrets p2)) proof ciphertext (p_replay p2)) as (e2 & sq & evs' & Hper2 & Ha2).
  { rewrite Hs1, <- Hadm. unfold admission_check. by rewrite Hrep, Hpair, Htr. }
  { done. } { done. } { rewrite Hid2. intros ts. apply Hser. }
  destruct (append_lost _ _ _ _ _ _ Hio Hwf Ha1) as (Hwf1 & ev1 & Hl1 & Hd1). destruct (append_one _ _ _ _ _ Hwf1 Ha2) as (ev2 & Hl2 & Hd2).
  split_and!; [done..|]. exists e2, (set_seq (p_order p2) sq), (s_commitment (p_secrets p1)), ev1, ev2. split_and!.
  - unfold place_encrypted_order. rewrite Hs1, Hp2. cbn [mbind outcome_bind]. by rewrite Hper2.
  - done.
  - cbn [set_seq o_id]. by rewrite Hid2.
  - by rewrite Hl2, Hl1, <- app_assoc.
  - by rewrite Hd1, <- Hid1.
  - by rewrite Hd2, <- Hsec.
Qed.
End twice.

(** ** The table [snapshots] *)

(** A call that fails; a statement may have been carried out. *)
Record PgSnapEnv := mkPgSnapEnv { ps_write : option bool; ps_read : bool; ps_delete : option bool }.

Section snapshots.
Variable env : PgSnapEnv.

(** [INSERT ... ON CONFLICT (seq) DO UPDATE] *)
Definition pg_snap_write (t : gmap Z bytes) (sq : Z) (envelope : bytes) : gmap Z bytes * result unit EventError :=
  match ps_write env with
  | None => (<[as_i64 sq := envelope]> t, Ok tt)
  | Some done => (if done : bool then <[as_i64 sq := envelope]> t else t, Err EvSqlx)
  end.

Definition pg_keys (t : gmap Z bytes) : list Z := sort_by Z.compare (map_to_list t).*1.

(** [SELECT ... ORDER BY seq DESC LIMIT 1] *)
Definition pg_snap_read_latest (t : gmap Z bytes) : result (option (Z * bytes)) EventError :=
  if ps_read env then Err EvSqlx
  else Ok (match head (reverse (pg_keys t)) with Some k => option_map (pair (as_u64 k)) (t !! k) | None => None end).

Definition pg_snap_read_at (t : gmap Z bytes) (sq : Z) : result (option bytes) EventError :=
  if ps_read env then Err EvSqlx else Ok (t !! as_i64 sq).

Definition pg_snap_list_seqs (t : gmap Z bytes) : result (list Z) EventError :=
  if ps_read env then Err EvSqlx else Ok (map as_u64 (pg_keys t)).

(** [DELETE FROM snapshots WHERE seq < $1] *)
Definition pg_snap_delete_before (t : gmap Z bytes) (before_seq : Z) : gmap Z bytes * result unit EventError :=
  let deleted := filter (fun kv => as_i64 before_seq <= kv.1) t in
  match ps_delete env with
  | None => (deleted, Ok tt)
  | Some done => (if done : bool then deleted else t, Err EvSqlx)
  end.

#[local] Instance pg_snap_ops : SnapStoreOps (gmap Z bytes) := {|
  snap_write := pg_snap_write;
  snap_read_latest := pg_snap_read_latest;
  snap_read_at := pg_snap_read_at;
  snap_list_seqs := pg_snap_list_seqs;
  snap_delete_before := pg_snap_delete_before
|}.

(** Numbers that a [BIGINT] holds as they are. *)
Definition bigint (z : Z) : Prop := 0 <= z <= i64_max.

Definition bigint_keys (t : gmap Z bytes) : Prop := forall k, is_Some (t !! k) -> bigint k.

Lemma pg_keys_bigint t : bigint_keys t -> Forall bigint (pg_keys t).
Proof.
  intros Ht. apply Forall_forall. intros k Hk. unfold pg_keys in Hk. rewrite sort_by_perm, list_elem_of_fmap in Hk. destruct Hk as ([k' b] & -> & Hk).
  apply elem_of_map_to_list in Hk. by apply Ht.
Qed.

Lemma as_u64_keys l : Forall bigint l -> map as_u64 l = l.
Proof. induction 1 as [|k l Hk _ IH]; [done|]. cbn [map]. by rewrite as_u64_id, IH. Qed.

(** The table of snapshots is the map of the in-memory store: for numbers
    that fit a [BIGINT], a call that succeeds has the effect and the answer of
    the in-memory store, and a call that fails has its effect or none. *)
Theorem pg_snapshots_are_map (t : gmap Z bytes) : bigint_keys t ->
  (forall sq b t' r, bigint sq -> snap_write t sq b = (t', r) ->
    bigint_keys t' /\ ((t', r) = MemSnapshotStore.write t sq b \/ (r = Err EvSqlx /\ (t' = t \/ t' = fst (MemSnapshotStore.write t sq b))))) /\
  (forall before t' r, bigint before -> snap_delete_before t before = (t', r) ->
    bigint_keys t' /\ ((t', r) = MemSnapshotStore.delete_before t before \/ (r = Err EvSqlx /\ (t' = t \/ t' = fst (MemSnapshotStore.delete_before t before))))) /\
  (forall sq, bigint sq -> snap_read_at t sq = Err EvSqlx \/ snap_read_at t sq = MemSnapshotStore.read_at t sq) /\
  (snap_list_seqs t = Err EvSqlx \/ snap_list_seqs t = MemSnapshotStore.list_seqs t) /\
  (snap_read_latest t = Err EvSqlx \/ snap_read_latest t = MemSnapshotStore.read_latest t).
Proof.
  intros Ht. pose proof (pg_keys_bigint t Ht) as Hk. split_and!.
  - intros sq b t' r Hsq. cbn [snap_write pg_snap_ops]. unfold pg_snap_write, MemSnapshotStore.write. rewrite as_i64_id by exact Hsq.
    assert (bigint_keys (<[sq := b]> t)) as Hins by (intros k; rewrite lookup_insert_is_Some'; intros [<-|H]; auto).
    destruct (ps_write env) as [[]|]; intros [= <- <-]; auto.
  - intros before t' r Hb. cbn [snap_delete_before pg_snap_ops]. unfold pg_snap_delete_before, MemSnapshotStore.delete_before. rewrite as_i64_id by exact Hb.
    assert (bigint_keys (filter (fun kv => before <= kv.1) t)) as Hf.
    { intros k [b' [H _]%(map_lookup_filter_Some (M:=gmap Z))]. apply Ht. by exists b'. }
    destruct (ps_delete env) as [[]|]; intros [= <- <-]; auto.
  - intros sq Hsq. cbn [snap_read_at pg_snap_ops]. unfold pg_snap_read_at, MemSnapshotStore.read_at. destruct (ps_read env); [by left|right]. by rewrite as_i64_id.
  - cbn [snap_list_seqs pg_snap_ops]. unfold pg_snap_list_seqs, MemSnapshotStore.list_seqs. destruct (ps_read env); [by left|right]. by rewrite as_u64_keys.
  - cbn [snap_read_latest pg_snap_ops]. unfold pg_snap_read_latest, MemSnapshotStore.read_latest. destruct (ps_read env); [by left|right].
    change (MemSnapshotStore.keys t) with (pg_keys t). destruct (pg_keys t) as [|k0 l0 _] using rev_ind; [done|]. rewrite reverse_snoc, last_snoc. cbn [head].
    apply Forall_app in Hk as [_ [Hk0 _]%Forall_cons]. rewrite as_u64_id by exact Hk0. reflexivity.
Qed.
End snapshots.
