(* ===== verification/Recover.v ===== *)
(** * Recovery

    [dp-engine/src/recover.rs]: restoring the newest readable snapshot, replaying
    the event log past it, and re-aggregating orphan auctions. *)

From S2P Require Import Prelude Decimal Types Field Auction Events Book Merkle FileStore EngineState Engine Witness Tick Batch.
From S2P Require Import Snapshot.
Open Scope Z_scope.

Inductive SnapshotRecoveryOutcome :=
| Restored (sq : Z)
| NoneAvailable
| AllCorrupt
| StoreError (e : EventError).

Record OrphanMatch (D : Type) := mkOrphanMatch { om_bid : Fill D; om_ask : Fill D; om_price : D; om_size : D }.
Arguments mkOrphanMatch {D}.
Arguments om_bid {D}.
Arguments om_ask {D}.
Arguments om_price {D}.
Arguments om_size {D}.

(** The engine with the maps [recover] builds while it replays. *)
Record RecAcc (D St : Type) := mkRecAcc {
  ra_engine : Engine D St;
  ra_matches_by_auction : gmap Uuid (list (OrphanMatch D));
  ra_auction_timestamps : gmap Uuid DateTime;
  ra_placed_orders : gmap Uuid (Order D)
}.
Arguments mkRecAcc {D St}.
Arguments ra_engine {D St}.
Arguments ra_matches_by_auction {D St}.
Arguments ra_auction_timestamps {D St}.
Arguments ra_placed_orders {D St}.

(** What the collaborators and the runtime answer. *)
Record RecoverEnv (D : Type) := mkRecoverEnv {
  rv_decrypt : bytes -> result (DecryptedOrder D) CryptoError;
  rv_aggregate : Uuid -> Uuid -> list (Match D) -> BatchWitness D -> result bytes AggregatorError;
  rv_batch_id : Uuid -> Uuid;
  rv_append : Uuid -> StoreEnv;
  rv_now : DateTime
}.
Arguments mkRecoverEnv {D}.
Arguments rv_decrypt {D}.
Arguments rv_aggregate {D}.
Arguments rv_batch_id {D}.
Arguments rv_append {D}.
Arguments rv_now {D}.

Definition RECOVER_BATCH : Z := 1024.

Section recover.
Context {D F St Sn : Type} `{!DecimalOps D, !FieldOps F, !Poseidon F, !StoreOps D St, !Sha256, !HexOps, !AddressOps,
  !SnapStoreOps Sn, !BincodeOps (SerializableState D), !Aead} {HI : HashIter}.
Implicit Types (e : Engine D St) (a : RecAcc D St).

Definition acc_engine a e : RecAcc D St :=
  mkRecAcc e (ra_matches_by_auction a) (ra_auction_timestamps a) (ra_placed_orders a).

Definition acc_state a (s : EngineState D) : RecAcc D St := acc_engine a (with_state (ra_engine a) s).

Definition st_of a : EngineState D := e_state (ra_engine a).

Definition canonicalise_replayed_pair (pair : Str) : Str :=
  match Pair.parse pair with Ok p => p | Err _ => pair end.

Definition parse_address_or_zero (hex : Str) : Address := default zero_address (parse_address hex).

Definition orphan_to_match (m : OrphanMatch D) : Match D := mkMatch (om_bid m) (om_ask m) (om_price m) (om_size m).

Definition build_recovery_settlement_matches (ms : list (Match D)) (placed : gmap Uuid (Order D))
    (pairs : gmap Str (PairConfig D)) : list (SettlementMatch D) :=
  flat_map (fun m => match try_build_settlement_row m placed pairs with Ok r => [r] | Err _ => [] end) ms.

Definition recovered_batch (batch_id auction_id : Uuid) (ms : list (Match D)) (sm : list (SettlementMatch D))
    (proof : bytes) : PendingBatch D :=
  mkPendingBatch batch_id auction_id ms sm proof zero_inputs None 0 None false.

(** ** One event *)

(** The order an [OrderPlaced] event carries, with its replay keys. *)
Definition decode_placed (decrypt : bytes -> result (DecryptedOrder D) CryptoError) (ev : Event D)
    (order_id : Uuid) (commitment ciphertext : bytes) : result (Order D * bytes * bytes) (EngineError D) :=
  match decrypt ciphertext with
  | Err err => Err (RecoverDecrypt order_id err)
  | Ok d =>
    match parse_order_salt (D:=D) (F:=F) (d_salt d) with
    | Err _ => Err (RecoverSaltInvalid order_id)
    | Ok salt =>
      let? recomputed := recompute_persisted_commitment (F:=F) (d_trader d) (side_u8 (d_side d)) (d_price d) (d_size d) salt in
      let? commitment_fr := encoded (bytes32_to_scalar (F:=F) recomputed) in
      let? salt_fr := encoded (bytes32_to_scalar (F:=F) salt) in
      let nullifier := fr_to_bytes32 (compute_nullifier_native commitment_fr salt_fr) in
      if negb (bool_decide (recomputed = commitment)) then Err (RecoverCommitmentMismatch order_id)
      else
        match parse_order_nonce (D:=D) (d_nonce d) with
        | Err _ => Err (Validation OrderNonceInvalid)
        | Ok nonce =>
          let? expires_at := order_expiry_from_unix_nanos (d_expires_at_unix_nanos d) in
          match Pair.parse (d_pair d) with
          | Err err => Err (Validation err)
          | Ok pair_key =>
            Ok (mkOrder order_id (d_trader d) pair_key (d_side d) (d_price d) (d_size d) (d_size d)
                  (d_commitment_key d) ciphertext (ev_timestamp ev) expires_at (ev_seq ev),
                nullifier, order_nonce_digest (d_trader d) nonce)
          end
        end
    end
  end.

(** [entry(key).or_default()]. *)
Definition seed_pair (pairs : gmap Str (PairConfig D)) (key : Str) : gmap Str (PairConfig D) :=
  match pairs !! key with Some _ => pairs | None => <[key := config_default]> pairs end.

Definition replay_placed a (ev : Event D) (ciphertext : bytes) (placed : Order D * bytes * bytes) : outcome (RecAcc D St) :=
  let '(order, nullifier, nonce_digest) := placed in
  let s := st_of a in
  book ← Book.apply (es_book s) ev;
  let s := set_pairs (set_book s book) (seed_pair (es_pair_tokens s) (o_pair order)) in
  let s := add_spent (set_book s (Book.insert_order book order)) (ciphertext_digest ciphertext) nullifier nonce_digest in
  Ret (mkRecAcc (with_state (ra_engine a) s) (ra_matches_by_auction a) (ra_auction_timestamps a)
    (<[o_id order := order]> (ra_placed_orders a))).

Definition replay_submitted a (ev : Event D) (batch_id auction_id : Uuid) (proof : bytes) : outcome (RecAcc D St) :=
  let ms := map orphan_to_match (default [] (ra_matches_by_auction a !! auction_id)) in
  let a := mkRecAcc (ra_engine a) (delete auction_id (ra_matches_by_auction a)) (ra_auction_timestamps a) (ra_placed_orders a) in
  let s := st_of a in
  book ← Book.apply (es_book s) ev;
  let s := set_book s book in
  if bool_decide (is_Some (es_pending_batches s !! batch_id)) then Ret (acc_state a s)
  else
    let sm := build_recovery_settlement_matches ms (ra_placed_orders a) (es_pair_tokens s) in
    Ret (acc_state a (set_pending s (<[batch_id := recovered_batch batch_id auction_id ms sm proof]> (es_pending_batches s)))).

(** Applies the event to the book and changes the registry. *)
Definition replay_pairs a (ev : Event D) (f : gmap Str (PairConfig D) -> gmap Str (PairConfig D)) : outcome (RecAcc D St) :=
  let s := st_of a in
  book ← Book.apply (es_book s) ev;
  Ret (acc_state a (set_pairs (set_book s book) (f (es_pair_tokens s)))).

Definition replay_event (decrypt : bytes -> result (DecryptedOrder D) CryptoError) a (ev : Event D) :
    outcome (RecAcc D St * result unit (EngineError D)) :=
  let s := st_of a in
  let ok a := Ret (a, Ok tt) in
  match ev_data ev with
  | OrderPlaced order_id commitment _ ciphertext =>
    match decode_placed decrypt ev order_id commitment ciphertext with
    | Err err => Ret (a, Err err)
    | Ok placed => a ← replay_placed a ev ciphertext placed; ok a
    end
  | OrderCancelled _ _ | OrderExpiredEv _ =>
    book ← Book.apply (es_book s) ev; ok (acc_state a (set_book s book))
  | AuctionExecuted auction_id pr clearing_price matched_volume match_count timestamp =>
    book ← Book.apply (es_book s) ev;
    let s := set_log (set_book s book)
      (es_auction_log s ++ [mkRecord auction_id pr clearing_price matched_volume match_count timestamp]) in
    ok (mkRecAcc (with_state (ra_engine a) s) (ra_matches_by_auction a)
      (<[auction_id := timestamp]> (ra_auction_timestamps a)) (ra_placed_orders a))
  | OrderMatched auction_id bid ask price sz =>
    book ← Book.apply (es_book s) ev;
    let ms := default [] (ra_matches_by_auction a !! auction_id) ++ [mkOrphanMatch bid ask price sz] in
    ok (mkRecAcc (with_state (ra_engine a) (set_book s book)) (<[auction_id := ms]> (ra_matches_by_auction a))
      (ra_auction_timestamps a) (ra_placed_orders a))
  | BatchSubmitted batch_id auction_id _ _ proof => a ← replay_submitted a ev batch_id auction_id proof; ok a
  | BatchConfirmed batch_id _ | BatchSettled batch_id _ _ =>
    book ← Book.apply (es_book s) ev;
    let s := set_book s book in
    ok (acc_state a (set_pending s (delete batch_id (es_pending_batches s))))
  | PairRegistered pr base quote min_size tick interval_ms base_dec quote_dec =>
    let cfg := mkPairConfig (parse_address_or_zero base) (parse_address_or_zero quote) base_dec quote_dec min_size tick
      (option_map (fun ms => ms * 1000000) interval_ms) Active in
    a ← replay_pairs a ev (insert (canonicalise_replayed_pair pr) cfg); ok a
  | PairSuspended pr =>
    a ← replay_pairs a ev (alter (fun c => set_status c Suspended) (canonicalise_replayed_pair pr)); ok a
  | PairDelisted pr =>
    a ← replay_pairs a ev (alter (fun c => set_status c Delisted) (canonicalise_replayed_pair pr)); ok a
  | BatchFolded _ round_index pr _ =>
    let r := Z.max (default 0 (e_ivc_round (ra_engine a) !! pr)) round_index in
    ok (acc_engine a (with_rounds (ra_engine a) (<[pr := r]> (e_ivc_round (ra_engine a)))))
  end.

(** Stops at the first error, as the operator [?] does. *)
Fixpoint replay_events (decrypt : bytes -> result (DecryptedOrder D) CryptoError) a (evs : list (Event D)) :
    outcome (RecAcc D St * result unit (EngineError D)) :=
  match evs with
  | [] => Ret (a, Ok tt)
  | ev :: evs' =>
    r ← replay_event decrypt a ev;
    match snd r with Err err => Ret (fst r, Err err) | Ok _ => replay_events decrypt (fst r) evs' end
  end.

(** The read loop.  [None] is exhausted fuel; every non-empty batch moves
    [after_seq], so one unit per event and one for the last read suffice. *)
Fixpoint replay_loop (fuel : nat) (decrypt : bytes -> result (DecryptedOrder D) CryptoError) (after_seq : Z) a :
    outcome (option (RecAcc D St * result unit (EngineError D))) :=
  match fuel with
  | O => Ret None
  | S fuel' =>
    read ← st_read_from (e_store (ra_engine a)) after_seq RECOVER_BATCH;
    match read with
    | Err err => Ret (Some (a, Err (EventErr err)))
    | Ok events =>
      match last events with
      | None => Ret (Some (a, Ok tt))
      | Some ev =>
        r ← replay_events decrypt a events;
        match snd r with
        | Err err => Ret (Some (fst r, Err err))
        | Ok _ => replay_loop fuel' decrypt (ev_seq ev) (fst r)
        end
      end
    end
  end.

(** ** The snapshot probe *)

Definition apply_snapshot a (snap : SerializableState D) : RecAcc D St :=
  let e := apply_snapshot_state (ra_engine a) snap in
  mkRecAcc e (ra_matches_by_auction a) (ra_auction_timestamps a)
    (fold_left (fun m o => <[o_id o := o]> m) (Book.iter_all (es_book (e_state e))) (ra_placed_orders a)).

(** From the newest envelope to the oldest. *)
Fixpoint try_envelopes (snaps : Sn) (key : bytes) a (seqs : list Z) : RecAcc D St * SnapshotRecoveryOutcome :=
  match seqs with
  | [] => (a, AllCorrupt)
  | sq :: seqs' =>
    match snap_read_at snaps sq with
    | Err _ | Ok None => try_envelopes snaps key a seqs'
    | Ok (Some b) =>
      match decode_envelope b key with
      | Ok (decoded_seq, snap) => (apply_snapshot a snap, Restored decoded_seq)
      | Err _ => try_envelopes snaps key a seqs'
      end
    end
  end.

Definition try_restore_from_snapshots (snaps : Sn) (key : option bytes) a : RecAcc D St * SnapshotRecoveryOutcome :=
  match snap_list_seqs snaps with
  | Err err => (a, StoreError err)
  | Ok [] => (a, NoneAvailable)
  | Ok seqs =>
    match key with
    | None => (a, AllCorrupt)
    | Some key => try_envelopes snaps key a (reverse seqs)
    end
  end.

Definition event_log_covers_seq_one (st : St) : outcome (result bool (EngineError D)) :=
  read ← st_read_from st 0 1;
  Ret match read with
      | Err err => Err (EventErr err)
      | Ok evs => Ok match head evs with Some ev => ev_seq ev =? 1 | None => false end
      end.

Definition event_log_continuous_after (st : St) (after_seq : Z) : outcome (result bool (EngineError D)) :=
  read ← st_read_from st after_seq 1;
  Ret match read with
      | Err err => Err (EventErr err)
      | Ok evs => Ok match head evs with Some ev => ev_seq ev =? wrap64 (after_seq + 1) | None => true end
      end.

(** The log must hold what [check] asks, or recovery refuses to boot. *)
Definition require_log a (check : outcome (result bool (EngineError D))) (k : RecAcc D St * Z) :
    outcome (RecAcc D St * result Z (EngineError D)) :=
  ok ← check;
  Ret match ok with
      | Err err => (a, Err err)
      | Ok false => (a, Err SnapshotsCorruptAndLogTruncated)
      | Ok true => (fst k, Ok (snd k))
      end.

(** The snapshot layer: where the replay starts. *)
Definition recover_snapshot (snaps : option Sn) (key : option bytes) a : outcome (RecAcc D St * result Z (EngineError D)) :=
  match snaps with
  | None => Ret (a, Ok 0)
  | Some snaps =>
    let '(a, restored) := try_restore_from_snapshots snaps key a in
    let st := e_store (ra_engine a) in
    match restored with
    | Restored sq => require_log a (event_log_continuous_after st sq) (a, sq)
    | NoneAvailable => Ret (a, Ok 0)
    | AllCorrupt | StoreError _ =>
      require_log a (event_log_covers_seq_one st) (acc_state a (reset_projection (st_of a)), 0)
    end
  end.

(** ** Orphans *)

Definition orphan_ids a : list Uuid := sort_by Z.compare (hm_keys (ra_matches_by_auction a)).

(** Re-aggregate one orphan auction; a failed aggregation is logged. *)
Definition recover_orphan (env : RecoverEnv D) a (auction_id : Uuid) : outcome (RecAcc D St * result unit (EngineError D)) :=
  orphans ← or_panic (ra_matches_by_auction a !! auction_id);
  let a := mkRecAcc (ra_engine a) (delete auction_id (ra_matches_by_auction a)) (ra_auction_timestamps a) (ra_placed_orders a) in
  let ms := map orphan_to_match orphans in
  let batch_id := rv_batch_id env auction_id in
  match rv_aggregate env batch_id auction_id ms (empty_witness batch_id auction_id) with
  | Err _ => Ret (a, Ok tt)
  | Ok proof =>
    let ts := default (rv_now env) (ra_auction_timestamps a !! auction_id) in
    let e := ra_engine a in
    match st_append (rv_append env auction_id) (e_store e) [new_event ts
        (BatchSubmitted batch_id auction_id [] (wrap32 (Z.of_nat (length ms))) proof)] with
    | (st, Err err) => Ret (acc_engine a (with_store e st), Err (EventErr err))
    | (st, Ok evs) =>
      evt ← or_panic (head evs);
      book ← Book.apply (es_book (e_state e)) evt;
      let s := set_book (e_state e) book in
      let sm := build_recovery_settlement_matches ms (ra_placed_orders a) (es_pair_tokens s) in
      let s := set_pending s (<[batch_id := recovered_batch batch_id auction_id ms sm proof]> (es_pending_batches s)) in
      Ret (acc_engine a (with_state (with_store e st) s), Ok tt)
    end
  end.

Fixpoint recover_orphans (env : RecoverEnv D) a (ids : list Uuid) : outcome (RecAcc D St * result unit (EngineError D)) :=
  match ids with
  | [] => Ret (a, Ok tt)
  | i :: ids' =>
    r ← recover_orphan env a i;
    match snd r with Err err => Ret (fst r, Err err) | Ok _ => recover_orphans env (fst r) ids' end
  end.

(** ** The whole of [recover] *)

Definition recover (fuel : nat) (env : RecoverEnv D) (snaps : option Sn) (key : option bytes) e :
    outcome (option (Engine D St * result unit (EngineError D))) :=
  if es_recovered (e_state e) then Ret (Some (e, Ok tt))
  else
    let a := mkRecAcc (with_state e (reset_projection (e_state e))) ∅ ∅ ∅ in
    start ← recover_snapshot snaps key a;
    match start with
    | (a, Err err) => Ret (Some (ra_engine a, Err err))
    | (a, Ok after_seq) =>
      replayed ← replay_loop fuel (rv_decrypt env) after_seq a;
      match replayed with
      | None => Ret None
      | Some (a, Err err) => Ret (Some (ra_engine a, Err err))
      | Some (a, Ok _) =>
        r ← recover_orphans env a (orphan_ids a);
        match r with
        | (a, Err err) => Ret (Some (ra_engine a, Err err))
        | (a, Ok _) =>
          let e := ra_engine a in
          Ret (Some (with_state e (set_recovered (e_state e) true), Ok tt))
        end
      end
    end.
End recover.
