(* ===== verification/Replay.v ===== *)
(** * What recovery rebuilds

    The projection of an engine — its resting orders, its registry, its auction
    log and its spent sets — as a function of the event log, and two halves of
    its correctness.  Every operation of the live engine ([Machine.exec]) logs
    events whose projection is the change it made, and [Recover.replay_event]
    computes the projection of the events it reads.  So an engine that restarts
    over the log is the engine that wrote it ([dp-engine/src/recover.rs]). *)

From S2P Require Import Prelude Decimal Types Field Auction Events Book Merkle FileStore EngineState Engine Admission Witness Tick Batch.
From S2P Require Import Snapshot Recover Machine.
Open Scope Z_scope.

(** ** The projection of a log *)

Record Projection (D : Type) := mkProjection {
  pj_orders : gmap Uuid (Order D);
  pj_pairs : gmap Str (PairConfig D);
  pj_log : list (AuctionExecutedRecord D);
  pj_seen : gset bytes;
  pj_nullifiers : gset bytes;
  pj_nonces : gset bytes
}.
Arguments mkProjection {D}.
Arguments pj_orders {D}.
Arguments pj_pairs {D}.
Arguments pj_log {D}.
Arguments pj_seen {D}.
Arguments pj_nullifiers {D}.
Arguments pj_nonces {D}.

Section projection.
Context {D F St : Type} `{!DecimalOps D, !DecimalLaws D, !FieldOps F, !FieldLaws F, !Poseidon F, !StoreOps D St, !StoreLaws D St,
  SHA : !Sha256, HEX : !HexOps, ADDR : !AddressOps, ADDRL : !AddressLaws} {HI : HashIter}.
Context (dec : bytes -> result (DecryptedOrder D) CryptoError).
Implicit Types (e : Engine D St) (a : RecAcc D St) (m : gmap Uuid (Order D)) (p : Projection D) (ev : Event D).

Definition pj_empty : Projection D := mkProjection ∅ ∅ [] ∅ ∅ ∅.

(** The projection of a state whose book represents [m]. *)
Definition project (s : EngineState D) m : Projection D :=
  mkProjection m (es_pair_tokens s) (es_auction_log s) (es_seen_ciphertexts s) (es_spent_nullifiers s) (es_spent_order_nonces s).

Definition pj_with_orders p m : Projection D := mkProjection m (pj_pairs p) (pj_log p) (pj_seen p) (pj_nullifiers p) (pj_nonces p).
Definition pj_with_pairs p pairs : Projection D := mkProjection (pj_orders p) pairs (pj_log p) (pj_seen p) (pj_nullifiers p) (pj_nonces p).
Definition pj_with_log p l : Projection D := mkProjection (pj_orders p) (pj_pairs p) l (pj_seen p) (pj_nullifiers p) (pj_nonces p).

(** What an event that places no order changes. *)
Definition pj_data p (d : EventData D) : option (Projection D) :=
  match d with
  | OrderPlaced _ _ _ _ => None
  | AuctionExecuted i pr price volume count ts => Some (pj_with_log p (pj_log p ++ [mkRecord i pr price volume count ts]))
  | PairRegistered pr base quote min_size tick interval_ms base_dec quote_dec =>
    Some (pj_with_pairs p (<[canonicalise_replayed_pair pr :=
      mkPairConfig (parse_address_or_zero base) (parse_address_or_zero quote) base_dec quote_dec min_size tick
        (option_map (fun ms => ms * 1000000) interval_ms) Active]> (pj_pairs p)))
  | PairSuspended pr => Some (pj_with_pairs p (alter (fun c => set_status c Suspended) (canonicalise_replayed_pair pr) (pj_pairs p)))
  | PairDelisted pr => Some (pj_with_pairs p (alter (fun c => set_status c Delisted) (canonicalise_replayed_pair pr) (pj_pairs p)))
  | _ => match spec_effect (pj_orders p) d with Ret m => Some (pj_with_orders p m) | Panic => None end
  end.

Definition pj_event p ev : option (Projection D) :=
  match ev_data ev with
  | OrderPlaced i commitment _ ciphertext =>
    match decode_placed (F:=F) dec ev i commitment ciphertext with
    | Ok (o, nullifier, nonce) =>
      if decide (pj_orders p !! o_id o = None) then
        Some (mkProjection (<[o_id o := o]> (pj_orders p)) (seed_pair (pj_pairs p) (o_pair o)) (pj_log p)
          ({[ciphertext_digest ciphertext]} ∪ pj_seen p) ({[nullifier]} ∪ pj_nullifiers p) ({[nonce]} ∪ pj_nonces p))
      else None
    | Err _ => None
    end
  | d => pj_data p d
  end.

Fixpoint pj_run p (evs : list (Event D)) : option (Projection D) :=
  match evs with
  | [] => Some p
  | ev :: evs' => match pj_event p ev with Some p' => pj_run p' evs' | None => None end
  end.

Fixpoint pj_run_data p (ds : list (EventData D)) : option (Projection D) :=
  match ds with
  | [] => Some p
  | d :: ds' => match pj_data p d with Some p' => pj_run_data p' ds' | None => None end
  end.

Lemma pj_run_app p evs1 evs2 p1 : pj_run p evs1 = Some p1 -> pj_run p (evs1 ++ evs2) = pj_run p1 evs2.
Proof.
  revert p; induction evs1 as [|ev evs1 IH]; intros p; simpl; [by intros [= ->]|].
  destruct (pj_event p ev); [apply IH|done].
Qed.

Lemma pj_run_data_app p ds1 ds2 p1 : pj_run_data p ds1 = Some p1 -> pj_run_data p (ds1 ++ ds2) = pj_run_data p1 ds2.
Proof.
  revert p; induction ds1 as [|d ds1 IH]; intros p; simpl; [by intros [= ->]|].
  destruct (pj_data p d); [apply IH|done].
Qed.

(** Only placements look at more than the data of an event. *)
Lemma pj_run_of_data p evs p' : pj_run_data p (map ev_data evs) = Some p' -> pj_run p evs = Some p'.
Proof.
  revert p; induction evs as [|ev evs IH]; intros p; simpl; [done|].
  destruct (pj_data p (ev_data ev)) as [p1|] eqn:Hd; [|done].
  assert (pj_event p ev = Some p1) as -> by (unfold pj_event; destruct (ev_data ev); done). apply IH.
Qed.

(** Events that touch the orders only. *)
Definition order_data (d : EventData D) : Prop :=
  match d with OrderCancelled _ _ | OrderExpiredEv _ | OrderMatched _ _ _ _ _ => True | _ => batch_event d end.

Lemma pj_run_orders p ds m :
  Forall order_data ds -> foldM spec_effect (pj_orders p) ds = Ret m -> pj_run_data p ds = Some (pj_with_orders p m).
Proof.
  intros Hds. revert p; induction Hds as [|d ds Hd _ IH]; intros p; cbn [foldM pj_run_data].
  { intros [= <-]. by destruct p. }
  intros (m1 & H1 & H2)%outcome_bind_Ret.
  assert (pj_data p d = Some (pj_with_orders p m1)) as -> by (destruct d; try done; unfold pj_data; by rewrite H1).
  by rewrite (IH (pj_with_orders p m1)).
Qed.

(** ** Replay computes the projection *)

Record holds a p : Prop := {
  ho_book : represents (es_book (st_of a)) (pj_orders p);
  ho_project : project (st_of a) (pj_orders p) = p
}.

(** What replaying [n] events numbered up to [sq] leaves alone, and how many
    auctions it can leave open. *)
Record replayed (n : nat) (sq : Z) a a' : Prop := {
  rd_seq : 0 <= book_seq (es_book (st_of a')) <= sq;
  rd_store : e_store (ra_engine a') = e_store (ra_engine a);
  rd_flag : es_recovered (st_of a') = es_recovered (st_of a);
  rd_orphans : (size (ra_matches_by_auction a') <= n + size (ra_matches_by_auction a))%nat
}.

Lemma holds_placed a ev ct o nf nd p :
  holds a p -> 0 <= book_seq (es_book (st_of a)) < ev_seq ev -> (forall m, spec_effect m (ev_data ev) = Ret m) ->
  pj_orders p !! o_id o = None ->
  exists a', replay_placed a ev ct (o, nf, nd) = Ret a' /\ replayed 1 (ev_seq ev) a a' /\
    holds a' (mkProjection (<[o_id o := o]> (pj_orders p)) (seed_pair (pj_pairs p) (o_pair o)) (pj_log p)
          ({[ciphertext_digest ct]} ∪ pj_seen p) ({[nf]} ∪ pj_nullifiers p) ({[nd]} ∪ pj_nonces p)).
Proof.
  intros [Hb Hp] Hq He Hfresh. destruct (apply_effect _ _ ev (pj_orders p) Hb Hq (He _)) as (b & Ha & Hb' & Hbq).
  unfold replay_placed. rewrite Ha. cbn [mbind outcome_bind]. eexists. split; [done|]. split.
  - split; try done; simpl; [|lia]. change (book_seq (insert_order b o)) with (book_seq b). lia.
  - split; simpl; [by apply insert_order_represents|]. rewrite <- Hp at 3 4 5 6 7. done.
Qed.

Lemma size_insert_le {A} (i : Uuid) (x : A) (m : gmap Uuid A) : (size (<[i := x]> m) <= S (size m))%nat.
Proof. rewrite map_size_insert. destruct (m !! i); simpl; lia. Qed.

Lemma size_delete_le {A} (i : Uuid) (m : gmap Uuid A) : (size (delete i m) <= S (size m))%nat.
Proof. rewrite map_size_delete. destruct (m !! i); simpl; lia. Qed.

(** One replayed event. *)
Lemma replay_event_spec a ev p p' :
  holds a p -> 0 <= book_seq (es_book (st_of a)) < ev_seq ev -> pj_event p ev = Some p' ->
  exists a', replay_event (F:=F) dec a ev = Ret (a', Ok tt) /\ replayed 1 (ev_seq ev) a a' /\ holds a' p'.
Proof.
  intros Ho Hq Hev. pose proof Ho as [Hb Hp].
  assert (Hap : forall m', spec_effect (pj_orders p) (ev_data ev) = Ret m' ->
    exists b, Book.apply (es_book (st_of a)) ev = Ret b /\ represents b m' /\ book_seq b = ev_seq ev).
  { intros m' He. by apply (apply_effect _ (pj_orders p)). }
  unfold pj_event in Hev. unfold replay_event. destruct (ev_data ev) eqn:Hd.
  { destruct (decode_placed _ _ _ _ _) as [[[o nf] nd]|]; [|done]. case_decide as Hf; [|done]. injection Hev as <-.
    destruct (holds_placed a ev ciphertext o nf nd p Ho Hq) as (a' & -> & ? & ?); [by rewrite Hd|done|]. by exists a'. }
  all: destruct p as [m0 pairs log seen nfs nds]; unfold pj_data in Hev; cbn [pj_orders pj_pairs pj_log] in Hap, Hev, Hb.
  all: injection Hp as <- <- <- <- <-.
  11: { injection Hev as <-. eexists. split; [done|]. split; [|by split]. split; unfold st_of in *; simpl; (done || lia). }
  all: try (destruct (spec_effect _ _) as [m1|] eqn:He; [|done]); injection Hev as <-.
  all: edestruct Hap as (b & Hab & Hb' & Hbq); [reflexivity|].
  all: unfold replay_submitted, replay_pairs; rewrite ?Hab; cbn [mbind outcome_bind]; try injection He as ->.
  all: try (change (es_book (st_of (mkRecAcc (ra_engine a) ?x ?y ?z))) with (es_book (st_of a)); rewrite Hab; cbn [mbind outcome_bind]).
  all: try case_bool_decide.
  all: eexists; (split; [reflexivity|]).
  all: split; split; unfold st_of in *; simpl; auto using size_insert_le, size_delete_le; lia.
Qed.

Lemma replay_events_spec evs : forall a p p' last,
  holds a p -> 0 <= book_seq (es_book (st_of a)) <= last -> StronglySorted seq_lt evs ->
  Forall (fun ev => book_seq (es_book (st_of a)) < ev_seq ev <= last) evs -> pj_run p evs = Some p' ->
  exists a', replay_events (F:=F) dec a evs = Ret (a', Ok tt) /\ replayed (length evs) last a a' /\ holds a' p'.
Proof.
  induction evs as [|ev evs IH]; intros a p p' last Ho Hq Hs Hf; cbn [pj_run replay_events].
  { intros [= <-]. exists a. split_and!; [done|by split|done]. }
  destruct (pj_event p ev) as [p1|] eqn:Hev; [|done]. intros Hrun.
  apply StronglySorted_inv in Hs as [Hs Hlt]. apply Forall_cons in Hf as [Hev1 Hf].
  destruct (replay_event_spec a ev p p1 Ho ltac:(lia) Hev) as (a1 & -> & [Hq1 Hst1 Hfl1 Hor1] & Ho1).
  cbn [mbind outcome_bind fst snd]. destruct (IH a1 p1 p' last) as (a' & -> & [Hq' Hst' Hfl' Hor'] & Ho'); try done; [lia| |].
  { rewrite !Forall_forall in *. intros x Hx. specialize (Hlt x Hx). specialize (Hf x Hx). unfold seq_lt in Hlt. lia. }
  exists a'. split_and!; [done| |done]. split; try congruence; try done. simpl. lia.
Qed.

Lemma sorted_last (evs : list (Event D)) ev :
  StronglySorted seq_lt evs -> last evs = Some ev -> Forall (fun x => ev_seq x <= ev_seq ev) evs /\ ev ∈ evs.
Proof.
  intros Hs (l & ->)%last_Some. split; [|apply elem_of_app; right; by left].
  apply Forall_app. split; [|repeat constructor; lia]. apply Forall_forall. intros x Hx.
  pose proof (StronglySorted_app_1_elem_of _ _ _ x ev Hs Hx ltac:(by left)) as Hlt. unfold seq_lt in Hlt. lia.
Qed.

(** The read loop, with one unit of fuel per event and one for the last read. *)
Lemma replay_loop_spec fuel : forall after a p p',
  st_wf (e_store (ra_engine a)) -> Z.of_nat (length (st_log (e_store (ra_engine a)))) + RECOVER_BATCH <= u64_max ->
  holds a p -> 0 <= book_seq (es_book (st_of a)) <= after -> after <= st_last_seq (e_store (ra_engine a)) ->
  let evs := List.filter (fun ev => after <? ev_seq ev) (st_log (e_store (ra_engine a))) in
  (length evs < fuel)%nat -> pj_run p evs = Some p' ->
  exists a', replay_loop (F:=F) fuel dec after a = Ret (Some (a', Ok tt)) /\
    replayed (length evs) (st_last_seq (e_store (ra_engine a))) a a' /\ holds a' p'.
Proof.
  induction fuel as [|fuel IH]; intros after a p p' Hwf Hlen Ho Hq Hafter evs Hfuel Hrun; [lia|].
  pose proof (st_wf_ordered _ Hwf) as (Hs & Hin & _).
  assert (Hse : StronglySorted seq_lt evs) by by apply StronglySorted_filter.
  cbn [replay_loop]. rewrite st_read_ok by (done || unfold RECOVER_BATCH; lia). fold evs. cbn [mbind outcome_bind].
  set (n := Z.to_nat RECOVER_BATCH). assert (Hn : (0 < n)%nat) by (unfold n, RECOVER_BATCH; lia).
  destruct (last (take n evs)) as [ev|] eqn:Hlast.
  2: { apply last_None in Hlast. destruct evs as [|x evs0]; [|destruct n; [lia|done]]. injection Hrun as <-.
       exists a. split_and!; [done|split; (done || lia)|done]. }
  pose proof (sorted_last _ _ (StronglySorted_take _ n _ Hse) Hlast) as [Hle Hev].
  assert (Hall : forall x, x ∈ take n evs -> x ∈ st_log (e_store (ra_engine a)) /\ after < ev_seq x).
  { intros x (i & Hx%list_elem_of_lookup_2 & _)%elem_of_take. apply elem_of_list_filter_bool in Hx as [? ?]. split; [done|lia]. }
  assert (Hevl : after < ev_seq ev <= st_last_seq (e_store (ra_engine a))).
  { destruct (Hall ev Hev) as [Hl ?]. rewrite Forall_forall in Hin. specialize (Hin ev Hl). simpl in Hin. lia. }
  rewrite <- (take_drop n evs) in Hrun. destruct (pj_run p (take n evs)) as [p1|] eqn:H1.
  2: { exfalso. revert H1 Hrun. generalize (take n evs) as l, (drop n evs) as l'. clear. intros l l'. revert p.
       induction l as [|x l IH]; intros p; simpl; [done|]. destruct (pj_event p x); [apply IH|done]. }
  rewrite (pj_run_app _ _ _ _ H1) in Hrun.
  destruct (replay_events_spec (take n evs) a p p1 (ev_seq ev) Ho ltac:(lia)) as (a1 & -> & [Hq1 Hst1 Hfl1 Hor1] & Ho1); try done.
  { by apply StronglySorted_take. }
  { rewrite Forall_forall in Hle |- *. intros x Hx. destruct (Hall x Hx). specialize (Hle x Hx). simpl in Hle. lia. }
  cbn [mbind outcome_bind fst snd].
  assert (Hrest : List.filter (fun x => ev_seq ev <? ev_seq x) (st_log (e_store (ra_engine a1))) = drop n evs).
  { rewrite Hst1. apply rest_after_batch; [done|lia|done|by exists ev]. }
  assert (Hln : (0 < length evs)%nat).
  { destruct evs; [rewrite take_nil in Hev; by apply elem_of_nil in Hev|simpl; lia]. }
  destruct (IH (ev_seq ev) a1 p1 p') as (a' & -> & [Hq' Hst' Hfl' Hor'] & Ho'); rewrite ?Hrest, ?Hst1; try done; try lia.
  { rewrite length_drop. lia. }
  rewrite Hrest, Hst1, length_drop in *. rewrite length_take in Hor1.
  exists a'. split_and!; [done| |done]. split; try congruence; try done. lia.
Qed.
End projection.
