(* ===== verification/Recovery.v ===== *)
(** * Recovery is faithful

    Each operation of the live engine logs what it changes ([logged]), so the
    projection of the log is the state of the engine ([tracks]); with
    [Replay.v], a restart over the log rebuilds that state. *)

From S2P Require Import Prelude Decimal Types Field Auction Events Book Merkle FileStore EngineState Engine Admission Witness Tick Batch.
From S2P Require Import Snapshot Recover Machine Replay.
Open Scope Z_scope.

Section live.
Context {D F St : Type} `{!DecimalOps D, !DecimalLaws D, !FieldOps F, !FieldLaws F, !Poseidon F, !StoreOps D St, !StoreLaws D St,
  SHA : !Sha256, HEX : !HexOps, ADDR : !AddressOps, ADDRL : !AddressLaws} {HI : HashIter}.
Context (dec : bytes -> result (DecryptedOrder D) CryptoError).
Implicit Types (e : Engine D St) (m : gmap Uuid (Order D)) (p : Projection D) (ev : Event D).

#[local] Abbreviation pj_run := (Replay.pj_run (F:=F) dec).

(** An operation took [e], whose book represents [m], to [e'] and [m'], and
    appended the events of the change. *)
Record logged e m e' m' : Prop := {
  lg_book : represents (es_book (e_state e')) m';
  lg_last : st_last_seq (e_store e) <= st_last_seq (e_store e');
  lg_events : exists evs, st_log (e_store e') = st_log (e_store e) ++ evs /\
    Forall (fun ev => st_last_seq (e_store e) < ev_seq ev) evs /\
    pj_run (project (e_state e) m) evs = Some (project (e_state e') m')
}.

Lemma logged_trans e m e1 m1 e2 m2 : logged e m e1 m1 -> logged e1 m1 e2 m2 -> logged e m e2 m2.
Proof.
  intros [Hb1 Hl1 (evs1 & Hlog1 & Hf1 & Hr1)] [Hb2 Hl2 (evs2 & Hlog2 & Hf2 & Hr2)]. split; [done|lia|].
  exists (evs1 ++ evs2). rewrite Hlog2, Hlog1, app_assoc, (pj_run_app _ _ _ _ _ Hr1). split_and!; try done.
  apply Forall_app. split; [done|]. eapply Forall_impl; [exact Hf2|]. simpl. lia.
Qed.

(** The log did not change, nor did the projection. *)
Lemma logged_frame e m e' :
  represents (es_book (e_state e')) m -> st_log (e_store e') = st_log (e_store e) ->
  st_last_seq (e_store e) <= st_last_seq (e_store e') -> project (e_state e') m = project (e_state e) m -> logged e m e' m.
Proof. intros Hb Hlog Hl Hp. split; [done..|]. exists []. rewrite app_nil_r, Hp. split_and!; [done|constructor|done]. Qed.

Lemma logged_refl e m : represents (es_book (e_state e)) m -> logged e m e m.
Proof. intros. by apply logged_frame. Qed.

Lemma logged_err env e m evs st err :
  engine_inv (F:=F) e m -> st_append env (e_store e) evs = (st, Err err) ->
  st_last_seq (e_store e) + Z.of_nat (length evs) <= u64_max -> logged e m (with_store e st) m.
Proof.
  intros Hinv Ha Hr. destruct (st_append_err _ _ _ _ _ (ei_store _ _ Hinv) Hr Ha) as (_ & ? & ? & _).
  apply logged_frame; try done. apply Hinv.
Qed.

Lemma logged_ok env e m evs st evs' e' m' :
  engine_inv (F:=F) e m -> st_append env (e_store e) evs = (st, Ok evs') ->
  st_last_seq (e_store e) + Z.of_nat (length evs) <= u64_max -> e_store e' = st -> represents (es_book (e_state e')) m' ->
  pj_run_data (project (e_state e) m) (map ev_data evs) = Some (project (e_state e') m') -> logged e m e' m'.
Proof.
  intros Hinv Ha Hr <- Hb Hrun. destruct (appended_sorted _ _ _ _ _ (ei_store _ _ Hinv) Hr Ha) as (_ & Hd & _ & Hf & Hlog & ? & _).
  split; [done|lia|]. exists evs'. split_and!; [done| |].
  - eapply Forall_impl; [exact Hf|]. simpl. lia.
  - apply pj_run_of_data. by rewrite Hd.
Qed.

(** A book that applied new events represents their effect. *)
Lemma applied_effect inner m evs inner' :
  represents inner m -> 0 <= book_seq inner -> StronglySorted seq_lt evs -> Forall (fun ev => book_seq inner < ev_seq ev) evs ->
  foldM Book.apply inner evs = Ret inner' ->
  exists m', foldM spec_effect m (map ev_data evs) = Ret m' /\ represents inner' m'.
Proof.
  revert inner m; induction evs as [|ev evs IH]; intros inner m Hb H0 Hs Hf; cbn [foldM map]; [by intros [= <-]; eauto|].
  intros (i1 & H1 & H2)%outcome_bind_Ret. apply StronglySorted_inv in Hs as [Hs Hlt]. apply Forall_cons in Hf as [Hev Hf].
  assert (exists m1, spec_effect m (ev_data ev) = Ret m1) as [m1 Hm1].
  { destruct (apply_represents inner m ev Hb) as [[Hp _]|(i' & m1 & _ & Hsp & _)]; [congruence|]. exists m1. revert Hsp. unfold spec_apply.
    destruct (Z.eqb_spec (ev_seq ev) 0), (Z.leb_spec (ev_seq ev) (book_seq inner)); cbn [negb andb]; try lia.
    destruct (ev_data ev); simpl; try congruence. destruct (spec_fill m bid) as [m2|]; simpl; [|done].
    destruct (spec_fill m2 ask); simpl; congruence. }
  destruct (apply_effect inner m ev m1 Hb ltac:(lia) Hm1) as (i1' & H1' & Hb1 & Hq1). rewrite H1 in H1'. injection H1' as <-.
  rewrite Hm1. cbn [mbind outcome_bind]. apply (IH i1); try done; [lia|]. rewrite Hq1. exact Hlt.
Qed.

(** Handlers that append events and apply what the store returns. *)
Lemma logged_apply env e m evs st evs' book :
  engine_inv (F:=F) e m -> st_append env (e_store e) evs = (st, Ok evs') ->
  st_last_seq (e_store e) + Z.of_nat (length evs) <= u64_max -> foldM Book.apply (es_book (e_state e)) evs' = Ret book ->
  exists m', foldM spec_effect m (map ev_data evs) = Ret m' /\ represents book m'.
Proof.
  intros Hinv Ha Hr Hf. destruct (appended_sorted _ _ _ _ _ (ei_store _ _ Hinv) Hr Ha) as (_ & Hd & Hs & Hgt & _).
  pose proof (ei_seq _ _ Hinv). rewrite <- Hd. apply (applied_effect (es_book (e_state e))); try done; [apply Hinv|lia|].
  eapply Forall_impl; [exact Hgt|]. simpl. lia.
Qed.

Lemma foldM_head {A} (f : Book.Inner D -> A -> outcome (Book.Inner D)) s (l : list A) x r :
  length l = 1%nat -> head l = Some x -> f s x = Ret r -> foldM f s l = Ret r.
Proof. destruct l as [|y [|]]; try done. intros _ [= ->] Hf. cbn [foldM]. by rewrite Hf. Qed.

(** ** Pairs *)

Definition config_recorded (c : PairConfig D) : Prop :=
  (length (base_token c) = 20%nat /\ Forall is_byte (base_token c)) /\
  (length (quote_token c) = 20%nat /\ Forall is_byte (quote_token c)) /\ status c = Active /\
  (forall d, auction_interval c = Some d -> exists ms, d = ms * 1000000 /\ 0 <= ms <= u64_max).

Lemma canonicalise_key pr key : Pair.parse pr = Ok key -> canonicalise_replayed_pair key = key.
Proof. intros [Hc _]%Pair.parse_Ok. unfold canonicalise_replayed_pair. by rewrite (Pair.canonical_parse _ Hc). Qed.

Lemma alter_found {A} (f : A -> A) (k : Str) (m : gmap Str A) x : m !! k = Some x -> alter f k m = <[k := f x]> m.
Proof.
  intros Hk. apply map_eq. intros j. destruct (decide (k = j)) as [<-|].
  - by rewrite lookup_alter_eq, lookup_insert_eq, Hk.
  - by rewrite lookup_alter_ne, lookup_insert_ne.
Qed.

Lemma replayed_config key (c : PairConfig D) p :
  config_recorded c -> canonicalise_replayed_pair key = key ->
  pj_data p (pair_registered key c) = Some (pj_with_pairs p (<[key := c]> (pj_pairs p))).
Proof.
  intros ((H1 & H2) & (H3 & H4) & Hs & Hi) Hk. unfold pair_registered, pj_data, parse_address_or_zero.
  rewrite Hk, !parse_fmt_address by done. do 3 f_equal. simpl. destruct c as [b q bd qd mn tk iv st]; simpl in *. subst st. f_equal.
  destruct iv as [d|]; [|done]. destruct (Hi d eq_refl) as (ms & -> & Hms). simpl. f_equal. unfold as_millis.
  rewrite Z.div_mul, wrap64_id by lia. done.
Qed.

Lemma logged_register env now e m pr cfg :
  engine_inv (F:=F) e m -> room e -> config_recorded cfg -> logged e m (fst (register_pair_with_event env now e pr cfg)) m.
Proof.
  intros Hinv Hr Hc. pose proof (room_lt e 1 Hr ltac:(lia)) as Hr1. unfold register_pair_with_event.
  destruct (Pair.parse pr) as [key|] eqn:Hk; [|apply logged_refl, Hinv]. case_bool_decide; [apply logged_refl, Hinv|].
  destruct (st_append _ _ _) as [st [evs|]] eqn:Ha; [|exact (logged_err _ _ _ _ _ _ Hinv Ha Hr1)].
  eapply (logged_ok _ e m _ st evs); try done; [apply Hinv|]. cbn [map pj_run_data new_event ev_data].
  rewrite replayed_config; [done|done|by eapply canonicalise_key].
Qed.

Lemma logged_suspend env now e m pr : engine_inv (F:=F) e m -> room e -> logged e m (fst (suspend_pair env now e pr)) m.
Proof.
  intros Hinv Hr. pose proof (room_lt e 1 Hr ltac:(lia)) as Hr1. unfold suspend_pair.
  destruct (Pair.parse pr) as [key|] eqn:Hk; [|apply logged_refl, Hinv].
  destruct (es_pair_tokens (e_state e) !! key) as [cfg|] eqn:Hcfg; [|apply logged_refl, Hinv].
  destruct (status cfg); [|apply logged_refl, Hinv..].
  destruct (st_append _ _ _) as [st [evs|]] eqn:Ha; [|exact (logged_err _ _ _ _ _ _ Hinv Ha Hr1)].
  eapply (logged_ok _ e m _ st evs); try done; [apply Hinv|]. cbn [map pj_run_data new_event ev_data pj_data].
  rewrite (canonicalise_key pr) by done. unfold pj_with_pairs, project. simpl. by rewrite (alter_found _ _ _ _ Hcfg).
Qed.

Lemma Forall_map_data {A} (P : EventData D -> Prop) (f : A -> EventData D) l : (forall x, P (f x)) -> Forall P (map f l).
Proof. intros Hf. apply Forall_map, Forall_forall. auto. Qed.

Lemma logged_delist_open env now e m pr key cfg e' r :
  engine_inv (F:=F) e m -> room e -> Pair.parse pr = Ok key -> es_pair_tokens (e_state e) !! key = Some cfg ->
  delist_open env now e key cfg = Ret (e', r) -> exists m', logged e m e' m'.
Proof.
  intros Hinv Hr Hk Hcfg. unfold delist_open. cbv zeta. set (ids := Book.order_ids_for (es_book (e_state e)) key).
  assert (Hids : (length ids <= size m)%nat) by apply length_order_ids_for, Hinv.
  pose proof (oo_capacity _ _ _ (ei_orders _ _ Hinv)) as Hcap. unfold MAX_ACTIVE_ORDERS in Hcap.
  set (evs0 := _ ++ _). assert (Hlen : st_last_seq (e_store e) + Z.of_nat (length evs0) <= u64_max).
  { apply room_lt; [done|]. unfold evs0. rewrite length_app, length_map. simpl. lia. }
  destruct (st_append _ _ _) as [st [evs|]] eqn:Ha.
  2: { intros [= <- _]. exists m. exact (logged_err _ _ _ _ _ _ Hinv Ha Hlen). }
  intros (book & Hf & [= <- _])%outcome_bind_Ret. destruct (logged_apply _ _ _ _ _ _ _ Hinv Ha Hlen Hf) as (m' & Heff & Hb).
  exists m'. set (e1 := with_state _ _). destruct (drop_fold_frame ids e1) as (E1 & E2 & _).
  eapply (logged_ok _ e m _ st evs); rewrite ?E1, ?E2; try done.
  unfold evs0 in Heff |- *. rewrite map_app, map_map in Heff |- *. rewrite foldM_app in Heff.
  apply outcome_bind_Ret in Heff as (m1 & H1 & [= <-]).
  rewrite (pj_run_data_app _ _ _ (pj_with_orders (project (e_state e) m) m1)) by (by apply pj_run_orders; [apply Forall_map_data|]).
  cbn [map pj_run_data new_event ev_data pj_data]. rewrite (canonicalise_key pr) by done.
  unfold pj_with_pairs, pj_with_orders, project. simpl. by rewrite (alter_found _ _ _ _ Hcfg).
Qed.

Lemma logged_delist env now e m pr e' r :
  engine_inv (F:=F) e m -> room e -> delist_pair env now e pr = Ret (e', r) -> exists m', logged e m e' m'.
Proof.
  intros Hinv Hr. unfold delist_pair. pose proof (logged_refl e m (ei_book _ _ Hinv)) as Hrefl.
  destruct (Pair.parse pr) as [key|] eqn:Hk; [|intros [= <- _]; eauto].
  destruct (es_pair_tokens (e_state e) !! key) as [cfg|] eqn:Hcfg; [|intros [= <- _]; eauto].
  destruct (status cfg); [by eapply logged_delist_open..|]. intros [= <- _]; eauto.
Qed.

(** ** Orders *)

(** One event appended and applied under the lock. *)
Lemma logged_apply_1 env e m d now st evs evt book :
  engine_inv (F:=F) e m -> room e -> st_append env (e_store e) [new_event now d] = (st, Ok evs) ->
  or_panic (head evs) = Ret evt -> Book.apply (es_book (e_state e)) evt = Ret book ->
  exists m', spec_effect m d = Ret m' /\ represents book m'.
Proof.
  intros Hinv Hr Ha Hh Hap. pose proof (room_lt e 1 Hr ltac:(lia)) as Hr1.
  destruct (st_append_ok _ _ [_] _ _ (ei_store _ _ Hinv) Hr1 Ha) as (_ & _ & Hst%Forall2_length & _).
  destruct (logged_apply _ _ _ [_] _ _ book Hinv Ha Hr1) as (m' & Heff & Hb).
  { apply (foldM_head _ _ _ evt); [done| |done]. destruct (head evs); simpl in Hh; congruence. }
  exists m'. split; [|done]. cbn [map foldM new_event ev_data] in Heff. apply outcome_bind_Ret in Heff as (m1 & ? & [= <-]). done.
Qed.

Lemma logged_cancel env now e m i reason e' r :
  engine_inv (F:=F) e m -> room e -> cancel_order env now e i reason = Ret (e', r) -> exists m', logged e m e' m'.
Proof.
  intros Hinv Hr. pose proof (room_lt e 1 Hr ltac:(lia)) as Hr1. unfold cancel_order. cbv zeta.
  destruct (negb _); [intros [= <- _]; exists m; apply logged_refl, Hinv|].
  destruct (st_append _ _ _) as [st [evs|]] eqn:Ha.
  2: { intros [= <- _]. exists m. exact (logged_err _ _ _ _ _ _ Hinv Ha Hr1). }
  intros (evt & Hh & (book & Hap & [= <- _])%outcome_bind_Ret)%outcome_bind_Ret.
  destruct (logged_apply_1 _ _ _ _ _ _ _ _ _ Hinv Hr Ha Hh Hap) as (m' & [= <-] & Hb).
  exists (delete i m). by eapply (logged_ok _ e m _ st evs).
Qed.

Lemma logged_finalize env e m (pa : PendingAggregation D) proof inputs sm e' r :
  engine_inv (F:=F) e m -> room e -> finalize_pending_batch env e pa proof inputs sm = Ret (e', r) -> logged e m e' m.
Proof.
  intros Hinv Hr. pose proof (room_lt e 1 Hr ltac:(lia)) as Hr1. unfold finalize_pending_batch.
  destruct (st_append _ _ _) as [st [evs|]] eqn:Ha; [|intros [= <- _]; exact (logged_err _ _ _ _ _ _ Hinv Ha Hr1)].
  intros (evt & Hh & (book & Hap & [= <- _])%outcome_bind_Ret)%outcome_bind_Ret.
  destruct (logged_apply_1 _ _ _ _ _ _ _ _ _ Hinv Hr Ha Hh Hap) as (m' & [= <-] & Hb).
  by eapply (logged_ok _ e m _ st evs).
Qed.

(** Appends of batch events that touch no state. *)
Lemma logged_append_only env now e m d :
  engine_inv (F:=F) e m -> room e -> batch_event d -> logged e m (append_only env now e d) m.
Proof.
  intros Hinv Hr Hd. pose proof (room_lt e 1 Hr ltac:(lia)) as Hr1. unfold append_only.
  destruct (st_append _ _ _) as [st [evs|]] eqn:Ha; simpl; [|exact (logged_err _ _ _ _ _ _ Hinv Ha Hr1)].
  eapply (logged_ok _ e m _ st evs); try done; [apply Hinv|]. cbn [map pj_run_data new_event ev_data]. by destruct d.
Qed.

(** Replay decodes what admission accepted. *)
Lemma decode_accepted env s_cfg proof ciphertext caller pp d key cfg salt nonce ev :
  Accepted (F:=F) env s_cfg proof ciphertext caller pp d key cfg salt nonce -> dec ciphertext = Ok d ->
  ev_timestamp ev = pe_now env -> 0 < d_expires_at_unix_nanos d ->
  decode_placed (F:=F) dec ev (o_id (p_order pp)) (s_commitment (p_secrets pp)) ciphertext =
    Ok (set_seq (p_order pp) (ev_seq ev), rp_nullifier (p_replay pp), rp_order_nonce_digest (p_replay pp)).
Proof.
  intros [_ _ _ Hkey _ _ _ _ _ _ Ho Hsalt Hnonce (bp & _ & Hsec) _ Hrp] Hdec Hts Hexp.
  unfold decode_placed. rewrite Hdec, Hsalt. revert Hsec. unfold derive_order_secrets, recompute_persisted_commitment, compute_poseidon_commitment.
  destruct (encoded (derive_trader_id_bytes (d_trader d))) as [tid|]; [|done].
  destruct (compute_poseidon_commitment_fr _ _ _ _ _) as [c|]; [|done].
  destruct (bytes32_to_scalar (D:=D) (F:=F) salt) as [sf|]; [|done]. cbn [encoded]. intros [= Hsecs].
  rewrite bytes32_to_scalar_encode. cbn [encoded]. rewrite <- Hsecs in Hrp |- *. cbn [s_commitment s_nullifier] in *.
  rewrite bool_decide_true by done. cbn [negb]. rewrite Hnonce. unfold order_expiry_from_unix_nanos.
  destruct (Z.leb_spec (d_expires_at_unix_nanos d) 0); [lia|]. rewrite Hkey, Hrp, Ho, Hts. done.
Qed.

(** An accepted placement. *)
Lemma logged_place env senv s_seen s_cfg e m proof ciphertext caller e' r :
  engine_inv (F:=F) e m -> room e -> m !! pe_new_id env = None ->
  pe_decrypt env ciphertext = dec ciphertext -> 0 < pe_now env ->
  place_encrypted_order env senv s_seen s_cfg e proof ciphertext caller = Ret (e', r) -> exists m', logged e m e' m'.
Proof.
  intros Hinv Hr Hfresh Hdec Hnow Hpl. pose proof (room_lt e 1 Hr ltac:(lia)) as Hr1. revert Hpl. unfold place_encrypted_order.
  intros (pr & Hp & Hpl)%outcome_bind_Ret. destruct pr as [pp|err]; [|injection Hpl as <- _; exists m; apply logged_refl, Hinv].
  apply prepare_order_Ok in Hp as (d & key & cfg & salt & nonce & Hacc).
  pose proof (accepted_order _ _ _ _ _ _ _ _ _ _ _ Hacc) as (_ & _ & _ & Hid & _).
  apply outcome_bind_Ret in Hpl as ([e1 r1] & Hpl & He). assert (e1 = e') as -> by (destruct r1; injection He; done). clear He r.
  revert Hpl. unfold persist_order_placed. cbv zeta.
  destruct (admission_check _ _ _ _) as [[]|err] eqn:Hck; [|intros [= <- _]; exists m; apply logged_refl, Hinv].
  destruct (admission_check_Ok _ _ _ _ _ m Hck (ei_book _ _ Hinv) eq_refl) as ((c & Hc & _) & _).
  destruct (st_append _ _ _) as [st [evs|err]] eqn:Ha; [|intros [= <- _]; exists m; exact (logged_err _ _ _ _ _ _ Hinv Ha Hr1)].
  intros (evt & Hh & (book & Hap & [= <- _])%outcome_bind_Ret)%outcome_bind_Ret.
  destruct (logged_apply_1 _ _ _ _ _ _ _ _ _ Hinv Hr Ha Hh Hap) as (m' & [= <-] & Hb).
  destruct (appended_sorted _ _ [_] _ _ (ei_store _ _ Hinv) Hr1 Ha) as (_ & Hd & _ & Hf & Hlog & Hl & _).
  destruct (st_append_ok _ _ [_] _ _ (ei_store _ _ Hinv) Hr1 Ha) as (_ & _ & Hst & _).
  destruct evs as [|ev [|]]; try done. injection Hh as ->. injection Hd as Hd. apply Forall_cons in Hf as [Hf _].
  apply Forall2_cons in Hst as [(_ & _ & Hts) _]. cbn [new_event ev_timestamp] in Hts.
  assert (Hsub : o_submitted_at (p_order pp) = pe_now env) by by rewrite (ac_order _ _ _ _ _ _ _ _ _ _ _ Hacc).
  rewrite Hsub, (proj2 (Z.eqb_neq _ _)) in Hts by (unfold default_time; lia).
  exists (<[o_id (p_order pp) := set_seq (p_order pp) (ev_seq evt)]> m). split; simpl; [|lia|].
  { change (o_id (p_order pp)) with (o_id (set_seq (p_order pp) (ev_seq evt))). apply insert_order_represents; [done|]. simpl. by rewrite Hid. }
  exists [evt]. split_and!; [done|by repeat constructor; lia|]. cbn [Replay.pj_run pj_event]. unfold pj_event. rewrite Hd. cbn [new_event ev_data].
  rewrite (decode_accepted _ _ _ _ _ _ _ _ _ _ _ _ Hacc); [|by rewrite <- Hdec; apply Hacc|done|destruct Hacc; lia].
  cbn [project pj_orders set_seq o_id]. rewrite decide_True by (by rewrite Hid). unfold seed_pair. simpl. unfold pair_config in Hc. by rewrite Hc.
Qed.

(** ** The tick *)

Lemma expired_orders book m now ev :
  represents book m -> ev ∈ Book.collect_expired (D:=D) book now -> exists i, ev_data ev = OrderExpiredEv i.
Proof. intros Hb. rewrite (collect_expired_perm _ m _ Hb). intros (o & -> & _)%list_elem_of_fmap. by eexists. Qed.

Lemma length_expired e m now :
  engine_inv (F:=F) e m -> Z.of_nat (length (Book.collect_expired (es_book (e_state e)) now)) <= 2 ^ 29.
Proof.
  intros Hinv. rewrite (Permutation_length (collect_expired_perm _ m _ (ei_book _ _ Hinv))), length_map.
  pose proof (filter_length_le (Book.is_expired now) (orders_of m)) as Hl.
  pose proof (oo_capacity _ _ _ (ei_orders _ _ Hinv)) as Hcap. unfold MAX_ACTIVE_ORDERS, orders_of in *.
  rewrite length_fmap, length_map_to_list in Hl. lia.
Qed.

Lemma logged_expire env e m e' :
  engine_inv (F:=F) e m -> room e -> expire_orders env e = Ret e' -> exists m', logged e m e' m'.
Proof.
  intros Hinv Hr. unfold expire_orders. cbv zeta. pose proof (length_expired e m (te_now env) Hinv) as Hlen.
  pose proof (fun ev => expired_orders _ m (te_now env) ev (ei_book _ _ Hinv)) as Hexp.
  destruct (Book.collect_expired _ _) as [|ev0 evs0]; [intros [= <-]; exists m; apply logged_refl, Hinv|].
  revert Hlen Hexp. generalize (ev0 :: evs0) as l. intros l Hlen Hexp.
  assert (Hb : st_last_seq (e_store e) +
    Z.of_nat (length (map (fun ev => mkEvent (ev_seq ev) (ev_type ev) (te_now env) (ev_data ev)) l)) <= u64_max).
  { rewrite length_map. by apply room_lt. }
  destruct (st_append _ _ _) as [st [evs|]] eqn:Ha; [|intros [= <-]; exists m; exact (logged_err _ _ _ _ _ _ Hinv Ha Hb)].
  intros (book & Hf & [= <-])%outcome_bind_Ret. destruct (logged_apply _ _ _ _ _ _ _ Hinv Ha Hb Hf) as (m' & Heff & Hbk).
  exists m'. eapply (logged_ok _ e m _ st evs); try done. rewrite (pj_run_orders _ _ m'); [done| |done].
  rewrite map_map. apply Forall_map, Forall_forall. intros ev Hev. simpl. by destruct (Hexp ev Hev) as [i ->].
Qed.

Lemma pj_round p now r m :
  foldM spec_effect (pj_orders p) (map ev_data (round_events now r)) = Ret m ->
  pj_run_data p (map ev_data (round_events now r)) = Some (pj_with_orders (pj_with_log p (pj_log p ++ [round_record now r])) m).
Proof.
  unfold round_events. cbn [map foldM new_event ev_data spec_effect mbind outcome_bind pj_run_data pj_data]. intros Heff.
  apply pj_run_orders; [|done]. rewrite map_map. by apply Forall_map_data.
Qed.

Lemma logged_tick_pair env e m ns ps pr e' ns' ps' :
  engine_inv (F:=F) e m -> st_last_seq (e_store e) + 2 ^ 29 <= u64_max ->
  tick_pair (F:=F) env (e, ns, ps) pr = Ret (e', ns', ps') -> exists m', logged e m e' m'.
Proof.
  intros Hinv Hr. unfold tick_pair. intros (res & Hrun & Ht)%outcome_bind_Ret. revert Ht.
  pose proof (logged_refl e m (ei_book _ _ Hinv)) as Hrefl.
  destruct res as [r|]; [|intros [= <- _ _]; eauto]. destruct (clearing_price_encodable r); [|intros [= <- _ _]; eauto].
  destruct (round_length env e m pr r Hinv Hrun) as [Hlen _].
  assert (Hb : st_last_seq (e_store e) + Z.of_nat (length (round_events (te_now env) r)) <= u64_max) by lia.
  destruct (st_append _ _ _) as [st [evs|]] eqn:Ha; [|intros [= <- _ _]; exists m; exact (logged_err _ _ _ _ _ _ Hinv Ha Hb)].
  intros (book & Hf & (cs & _ & [= <- _ _])%outcome_bind_Ret)%outcome_bind_Ret.
  destruct (logged_apply _ _ _ _ _ _ _ Hinv Ha Hb Hf) as (m' & Heff & Hbk).
  exists m'. eapply (logged_ok _ e m _ st evs); try done. by rewrite (pj_round _ _ _ m').
Qed.

(** A book represents one map. *)
Lemma represents_unique (b : Book.Inner D) m1 m2 : represents b m1 -> represents b m2 -> m1 = m2.
Proof. intros H1 H2. apply map_eq. intros i. by rewrite <- (find_order_lookup _ _ i H1), (find_order_lookup _ _ i H2). Qed.

Lemma logged_tick_pairs env prs : forall e m ns ps e' ns' ps',
  engine_inv (F:=F) e m -> st_last_seq (e_store e) + 2 ^ 29 * Z.of_nat (length prs) <= u64_max ->
  foldM (tick_pair (F:=F) env) (e, ns, ps) prs = Ret (e', ns', ps') -> exists m', logged e m e' m'.
Proof.
  induction prs as [|pr prs IH]; intros e m ns ps e' ns' ps' Hinv Hr; cbn [foldM length] in *.
  { intros [= <- _ _]. exists m. apply logged_refl, Hinv. }
  intros ([[e1 ns1] ps1] & H1 & H2)%outcome_bind_Ret.
  destruct (logged_tick_pair env e m ns ps pr e1 ns1 ps1 Hinv ltac:(lia) H1) as (m1 & Hlg1).
  destruct (inv_tick_pair env e m ns ps pr Hinv ltac:(lia)) as (e1' & m1' & ? & ? & H1' & Hinv1 & Hl & _).
  rewrite H1 in H1'. injection H1' as <- -> ->. rewrite (represents_unique _ m1' m1 (ei_book _ _ Hinv1) (lg_book _ _ _ _ Hlg1)) in Hinv1.
  destruct (IH e1 m1 _ _ _ _ _ Hinv1 ltac:(lia) H2) as (m' & Hlg2). exists m'. by eapply logged_trans.
Qed.

Lemma logged_tick env e m e' ns ps :
  engine_inv (F:=F) e m -> room e -> tick_under_lock (F:=F) env e = Ret (e', ns, ps) -> exists m', logged e m e' m'.
Proof.
  intros Hinv Hr. unfold tick_under_lock. intros (e1 & H1 & H2)%outcome_bind_Ret.
  destruct (logged_expire env e m e1 Hinv Hr H1) as (m1 & Hlg1).
  destruct (inv_expire env e m Hinv (room_lt e (2 ^ 29) Hr ltac:(lia))) as (e1' & m1' & H1' & Hinv1 & Hl & _ & Hs).
  rewrite H1 in H1'. injection H1' as <-. rewrite (represents_unique _ m1' m1 (ei_book _ _ Hinv1) (lg_book _ _ _ _ Hlg1)) in Hinv1.
  assert (Hsz : size (es_pair_tokens (e_state e1)) = size (es_pair_tokens (e_state e))) by (destruct Hs as [[_ ->]|(_ & b & ->)]; done).
  pose proof (length_active_pairs (e_state e1)). unfold room in Hr. rewrite <- Hsz in Hr.
  assert (st_last_seq (e_store e1) + 2 ^ 29 * Z.of_nat (length (active_pairs (e_state e1))) <= u64_max) as Hr1 by lia.
  destruct (logged_tick_pairs env (active_pairs (e_state e1)) e1 m1 _ _ _ _ _ Hinv1 Hr1 H2) as (m' & Hlg2). exists m'. by eapply logged_trans.
Qed.

(** ** Runs *)

(** The operations the log can tell: configurations that survive the event
    that carries them (an active pair, an interval of whole milliseconds),
    placements after the epoch whose ciphertext the keys of the restart open as
    the keys of the placement did, and compaction up to the point replay starts
    from. *)
Definition op_recorded (sq : Z) (op : Op (D:=D) (F:=F)) : Prop :=
  match op with
  | OpRegister _ _ _ cfg => config_recorded cfg
  | OpPlace penv _ _ _ _ ciphertext _ => pe_decrypt penv ciphertext = dec ciphertext /\ 0 < pe_now penv
  | OpCompact _ before => before <= sq + 1
  | _ => True
  end.

(** Replaying the events past [sq] from [p] gives the projection of the engine. *)
Definition tracks p (sq : Z) e m : Prop :=
  sq <= st_last_seq (e_store e) /\
  pj_run p (List.filter (fun ev => sq <? ev_seq ev) (st_log (e_store e))) = Some (project (e_state e) m).

Lemma tracks_logged p sq e m e' m' : tracks p sq e m -> logged e m e' m' -> tracks p sq e' m'.
Proof.
  intros [Hsq Hrun] [_ Hl (evs & Hlog & Hf & Hev)]. split; [lia|].
  assert (List.filter (fun ev => sq <? ev_seq ev) evs = evs) as Hall.
  { apply filter_all. eapply Forall_impl; [exact Hf|]. simpl. lia. }
  by rewrite Hlog, List.filter_app, Hall, (pj_run_app _ _ _ _ _ Hrun).
Qed.

Lemma tracks_compact env p sq e m before :
  engine_inv (F:=F) e m -> tracks p sq e m -> before <= sq + 1 -> tracks p sq (fst (compact_events_before env e before)) m.
Proof.
  intros Hinv [Hsq Hrun] Hle. unfold compact_events_before.
  destruct (st_compact_before _ _ _) as [st [u|]] eqn:Hc; simpl.
  - destruct (st_compact_ok _ _ _ _ _ (ei_store _ _ Hinv) Hc) as (_ & Hl & Hlog). split; simpl; [lia|].
    rewrite Hlog, <- Hrun. f_equal. clear -Hle. generalize (st_log (e_store e)) as l. induction l as [|x l IH]; [done|]. cbn [List.filter].
    destruct ((before =? 0) || (before <=? ev_seq x)) eqn:Hx; cbn [List.filter]; rewrite IH; [done|].
    apply orb_false_iff in Hx as [_ Hx]. destruct (Z.ltb_spec sq (ev_seq x)); [lia|done].
  - destruct (st_compact_err _ _ _ _ _ (ei_store _ _ Hinv) Hc) as (_ & Hl & Hlog). split; simpl; [lia|]. by rewrite Hlog.
Qed.

(** The operations that change neither the log nor what it tells. *)
Lemma logged_still e m e' :
  represents (es_book (e_state e')) m -> e_store e' = e_store e -> project (e_state e') m = project (e_state e) m -> logged e m e' m.
Proof. intros ? Hst ?. apply logged_frame; by rewrite ?Hst. Qed.

Lemma exec_logged op e m e' :
  engine_inv (F:=F) e m -> room e -> op_ok e op -> (exists sq, op_recorded sq op) ->
  (forall env before, op <> OpCompact env before) -> exec op e = Ret e' -> exists m', logged e m e' m'.
Proof.
  intros Hinv Hr Hok [sq Hrec] Hnc. pose proof (ei_book _ _ Hinv) as Hb.
  destruct op; cbn [exec op_ok op_recorded] in *.
  - intros [= <-]. exists m. by apply logged_register.
  - intros [= <-]. exists m. by apply logged_suspend.
  - intros ([e1 r] & H1 & [= <-])%outcome_bind_Ret. by eapply logged_delist.
  - intros ([e1 r] & H1 & [= <-])%outcome_bind_Ret. destruct Hrec as [Hd Hn]. rewrite (find_order_lookup _ m _ Hb) in Hok. by eapply logged_place.
  - intros ([e1 r] & H1 & [= <-])%outcome_bind_Ret. by eapply logged_cancel.
  - intros ([[e1 ns] ps] & H1 & [= <-])%outcome_bind_Ret. by eapply logged_tick.
  - intros [= <-]. exists m. unfold record_fold. cbv zeta.
    set (e1 := with_rounds _ _). assert (Hinv1 : engine_inv (F:=F) e1 m) by (destruct Hinv; by split).
    pose proof (logged_append_only env now e1 m (BatchFolded (pa_batch_id p) (wrap64 (default 0 (e_ivc_round e !! pa_pair p) + 1))
      (pa_pair p) (fr_to_bytes32 root)) Hinv1 Hr I) as Hlg. unfold append_only in Hlg.
    eapply (logged_trans e m e1 m); [by apply logged_still|]. by destruct (st_append _ _ _).
  - intros ([e1 r] & H1 & [= <-])%outcome_bind_Ret. exists m. by eapply logged_finalize.
  - intros [= <-]. exists m. by apply logged_still.
  - intros [= <-]. exists m. unfold submit_begin. repeat case_match; by apply logged_still.
  - intros [= <-]. exists m. unfold note_submit_failure. case_match; by apply logged_still.
  - intros [= <-]. exists m. by apply logged_append_only.
  - intros He. exists m. destruct Hok as [Hbe Hsq]. destruct (inv_close e m i ev Hinv Hbe Hsq) as (e1 & He1 & Hinv1 & _).
    rewrite He in He1. injection He1 as <-. apply logged_still; [apply Hinv1| |].
    all: revert He; unfold close_batch; cbn [head or_panic mbind outcome_bind]; by intros (b & _ & [= <-])%outcome_bind_Ret.
  - intros [= <-]. exists m. by apply logged_still.
  - by destruct (Hnc env before).
  - intros [= <-]. exists m. by apply logged_still.
  - intros [= <-]. exists m. by apply logged_still.
  - intros [= <-]. exists m. unfold set_finalize_every. case_match; by apply logged_still.
Qed.

(** A step the log can tell, when replay starts past [sq]. *)
Definition recorded_step (sq : Z) e e' : Prop := exists op, room e /\ op_ok e op /\ op_recorded sq op /\ exec op e = Ret e'.

Lemma tracks_step p sq e m e' :
  engine_inv (F:=F) e m -> tracks p sq e m -> recorded_step sq e e' -> exists m', engine_inv (F:=F) e' m' /\ tracks p sq e' m'.
Proof.
  intros Hinv Ht (op & Hr & Hok & Hrec & He). destruct (exec_inv op e m Hinv Hr Hok) as (e1 & m1 & He1 & Hinv1).
  rewrite He in He1. injection He1 as <-.
  assert ((exists env before, op = OpCompact env before) \/ (forall env before, op <> OpCompact env before)) as [(env & before & ->)|Hnc].
  { destruct op; (by left; eauto) || (right; done). }
  - simpl in He, Hrec. injection He as <-. exists m. split; [|by apply tracks_compact].
    destruct (compact_events_before env e before) eqn:Hc. by eapply inv_compact.
  - destruct (exec_logged op e m e' Hinv Hr Hok (ex_intro _ sq Hrec) Hnc He) as (m' & Hlg).
    exists m'. rewrite <- (represents_unique _ _ _ (ei_book _ _ Hinv1) (lg_book _ _ _ _ Hlg)). split; [done|].
    rewrite (represents_unique _ _ _ (ei_book _ _ Hinv1) (lg_book _ _ _ _ Hlg)). by eapply tracks_logged.
Qed.

Lemma tracks_steps p sq e m e' :
  engine_inv (F:=F) e m -> tracks p sq e m -> rtc (recorded_step sq) e e' -> exists m', engine_inv (F:=F) e' m' /\ tracks p sq e' m'.
Proof.
  intros Hinv Ht Hs. revert m Hinv Ht. induction Hs as [|e e1 e' Hst _ IH]; intros m Hinv Ht; [by eauto|].
  destruct (tracks_step p sq e m e1 Hinv Ht Hst) as (m1 & ? & ?). eauto.
Qed.
End live.

(** ** Restarting *)

Section restart.
Context {D F St Sn : Type} `{!DecimalOps D, !DecimalLaws D, !FieldOps F, !FieldLaws F, !Poseidon F, !StoreOps D St, !StoreLaws D St,
  SHA : !Sha256, HEX : !HexOps, ADDR : !AddressOps, ADDRL : !AddressLaws, SNAP : !SnapStoreOps Sn,
  BIN : !BincodeOps (SerializableState D), AEAD : !Aead} {HI : HashIter}.
Implicit Types (e : Engine D St) (a : RecAcc D St) (m : gmap Uuid (Order D)) (p : Projection D).

(** Two states with the same resting orders, registry, auction log and spent
    sets. *)
Definition same_projection (s s' : EngineState D) : Prop :=
  exists m, represents (es_book s) m /\ represents (es_book s') m /\ project s' m = project s m.

Lemma holds_same a e m : holds a (project (e_state e) m) -> represents (es_book (e_state e)) m -> same_projection (e_state e) (st_of a).
Proof. intros [Hb Hp] He. by exists m. Qed.

(** Re-aggregating an orphan leaves the projection alone. *)
Lemma orphan_holds (env : RecoverEnv D) a i p :
  st_wf (e_store (ra_engine a)) -> 0 <= book_seq (es_book (st_of a)) <= st_last_seq (e_store (ra_engine a)) ->
  st_last_seq (e_store (ra_engine a)) + 1 <= u64_max -> holds a p -> is_Some (ra_matches_by_auction a !! i) ->
  exists a' r, recover_orphan env a i = Ret (a', r) /\ holds a' p /\ (r = Ok tt \/ exists err, r = Err (EventErr err)) /\
    st_wf (e_store (ra_engine a')) /\ 0 <= book_seq (es_book (st_of a')) <= st_last_seq (e_store (ra_engine a')) /\
    st_last_seq (e_store (ra_engine a')) <= st_last_seq (e_store (ra_engine a)) + 1 /\
    ra_matches_by_auction a' = delete i (ra_matches_by_auction a).
Proof.
  intros Hwf Hq Hr [Hb Hp] [orphans Ho]. unfold recover_orphan. rewrite Ho. cbn [or_panic mbind outcome_bind].
  destruct (rv_aggregate _ _ _ _ _) as [proof|err]; [|do 2 eexists; split; [done|]; unfold st_of in *; split_and!; simpl; (done || lia || by left || by split)].
  cbn [ra_engine]. destruct (st_append _ _ _) as [st [evs|err]] eqn:Ha.
  - destruct (append_apply_1 _ _ _ (pj_orders p) _ _ _ (pj_orders p) Hwf Hr Ha Hb Hq eq_refl)
      as (ev & book & -> & Happ & Hb' & Hbq & Hlt & Hd & Hst & Hq' & Hl).
    cbn [head or_panic mbind outcome_bind]. unfold st_of in Happ. rewrite Happ. cbn [mbind outcome_bind].
    do 2 eexists. split; [done|]. split; [split; [done|]; by rewrite <- Hp|]. split; [by left|]. unfold st_of. simpl. split_and!; (done || lia).
  - destruct (st_append_err _ _ [_] _ _ Hwf Hr Ha) as (? & _ & ? & ?). unfold st_of in *.
    do 2 eexists. split; [done|]. split; [by split|]. split; [by eauto|]. unfold st_of. simpl in *. split_and!; (done || lia).
Qed.

Lemma orphans_hold (env : RecoverEnv D) p ids : forall a,
  st_wf (e_store (ra_engine a)) -> 0 <= book_seq (es_book (st_of a)) <= st_last_seq (e_store (ra_engine a)) ->
  st_last_seq (e_store (ra_engine a)) + Z.of_nat (length ids) <= u64_max -> holds a p ->
  NoDup ids -> (forall i, i ∈ ids -> is_Some (ra_matches_by_auction a !! i)) ->
  exists a' r, recover_orphans env a ids = Ret (a', r) /\ holds a' p /\ (r = Ok tt \/ exists err, r = Err (EventErr err)).
Proof.
  induction ids as [|i ids IH]; intros a Hwf Hq Hr Ho Hnd Hids; cbn [recover_orphans].
  { exists a, (Ok tt). split_and!; [done..|by left]. }
  apply NoDup_cons in Hnd as [Hni Hnd]. cbn [length] in Hr.
  destruct (orphan_holds env a i p Hwf Hq ltac:(lia) Ho) as (a1 & r1 & -> & Ho1 & Hr1 & Hwf1 & Hq1 & Hl1 & Hm1); [apply Hids; left|].
  cbn [mbind outcome_bind fst snd]. destruct Hr1 as [->|[err ->]]; [|exists a1; eexists; split_and!; [done..|by eauto]].
  apply IH; try done; [lia|]. intros j Hj. rewrite Hm1, lookup_delete_ne by (by intros ->). apply Hids. by right.
Qed.

(** What follows the snapshot layer, from an accumulator that holds [p]. *)
Lemma recover_from (env : RecoverEnv D) fuel sq a p p' :
  st_wf (e_store (ra_engine a)) -> ra_matches_by_auction a = ∅ -> holds a p -> 0 <= book_seq (es_book (st_of a)) <= sq ->
  sq <= st_last_seq (e_store (ra_engine a)) ->
  st_last_seq (e_store (ra_engine a)) + Z.of_nat (length (st_log (e_store (ra_engine a)))) + RECOVER_BATCH <= u64_max ->
  let evs := List.filter (fun ev => sq <? ev_seq ev) (st_log (e_store (ra_engine a))) in
  (length evs < fuel)%nat -> pj_run (F:=F) (rv_decrypt env) p evs = Some p' ->
  exists a1 a2 r, replay_loop (F:=F) fuel (rv_decrypt env) sq a = Ret (Some (a1, Ok tt)) /\
    recover_orphans env a1 (orphan_ids a1) = Ret (a2, r) /\ holds a2 p' /\ (r = Ok tt \/ exists err, r = Err (EventErr err)).
Proof.
  intros Hwf Hem Ho Hq Hsq Hroom evs Hfuel Hrun. pose proof (st_wf_ordered _ Hwf) as (_ & _ & ?).
  destruct (replay_loop_spec (rv_decrypt env) fuel sq a p p') as (a1 & Hloop & [Hq1 Hst1 Hfl1 Hor1] & Ho1); try done; [lia|].
  assert (Hle : (length evs <= length (st_log (e_store (ra_engine a))))%nat) by apply filter_length_le.
  rewrite Hem, map_size_empty, Nat.add_0_r in Hor1. fold evs in Hor1.
  destruct (orphans_hold env p' (orphan_ids a1) a1) as (a2 & r & ? & ? & ?); rewrite ?Hst1; try done; [| | |by eauto 10].
  - unfold orphan_ids. rewrite (Permutation_length (sort_by_perm _ _)). unfold hm_keys. rewrite length_fmap, length_hm_iter. unfold RECOVER_BATCH in Hroom. lia.
  - unfold orphan_ids. rewrite sort_by_perm. apply NoDup_hm_keys.
  - intros i. unfold orphan_ids. rewrite sort_by_perm, elem_of_hm_keys. done.
Qed.

(** Numbers start at one. *)
Lemma filter_from_start (st : St) : st_wf st -> List.filter (fun ev => 0 <? ev_seq ev) (st_log st) = st_log st.
Proof.
  intros Hwf. destruct (st_wf_ordered _ Hwf) as (_ & Hin & _). apply filter_all. eapply Forall_impl; [exact Hin|]. simpl. lia.
Qed.

(** No snapshot is available. *)
Definition no_snapshots (snaps : option Sn) : Prop :=
  match snaps with None => True | Some s => snap_list_seqs s = Ok [] end.

(** C8: restarting is faithful.  The engine started over an empty log and ran
    any interleaving of operations the log can tell ([recorded_step]): no
    compaction dropped an event, every registered configuration survives its
    event (active, an interval of whole milliseconds), and the keys of the
    restart open each placed ciphertext as the keys of its placement did, so
    keys may have been rotated in between.  Then [recover] rebuilds it from its
    log alone: over a store with that log and without snapshots, recovery does
    not panic, does not exhaust one unit of fuel per event, and ends in an engine
    with the same resting orders (every field of them), the same registry,
    auction log and spent sets.  It fails only when the store refuses an append
    for an auction whose batch was not yet submitted, and also then rebuilds the
    same state.  Pending batches, rounds and secrets are not part of this. *)
Theorem recovery_rebuilds_engine (env : RecoverEnv D) (store store' : St) interval interval' e fuel (snaps : option Sn) key :
  st_wf store -> st_log store = [] -> rtc (recorded_step (F:=F) (rv_decrypt env) 0) (engine_new store interval) e ->
  st_wf store' -> st_log store' = st_log (e_store e) ->
  st_last_seq store' + Z.of_nat (length (st_log store')) + RECOVER_BATCH <= u64_max ->
  (length (st_log store') < fuel)%nat -> no_snapshots snaps ->
  exists e' r, recover (F:=F) fuel env snaps key (engine_new store' interval') = Ret (Some (e', r)) /\
    same_projection (e_state e) (e_state e') /\
    ((r = Ok tt /\ es_recovered (e_state e') = true) \/ exists err, r = Err (EventErr err)).
Proof.
  intros Hwf Hempty Hsteps Hwf' Hlog Hroom Hfuel Hsn. pose proof (st_wf_ordered _ Hwf) as (_ & _ & ?). pose proof (st_wf_ordered _ Hwf') as (_ & _ & ?).
  destruct (tracks_steps (rv_decrypt env) pj_empty 0 (engine_new store interval) ∅ e) as (m & Hinv & _ & Hrun); try done.
  { by apply engine_new_inv. }
  { split; simpl; [lia|]. by rewrite Hempty. }
  unfold recover. cbn [engine_new e_state state_new es_recovered]. set (a0 := mkRecAcc _ ∅ ∅ ∅).
  assert (recover_snapshot snaps key a0 = Ret (a0, Ok 0)) as ->.
  { unfold recover_snapshot, try_restore_from_snapshots. destruct snaps as [s|]; [|done]. simpl in Hsn. by rewrite Hsn. }
  cbn [mbind outcome_bind].
  assert (Ho : holds a0 pj_empty) by (split; [|done]; exact (ei_book _ _ (engine_new_inv (F:=F) store' 0 Hwf'))).
  destruct (recover_from env fuel 0 a0 pj_empty (project (e_state e) m)) as (a1 & a2 & r & -> & Hor & Ho' & Hr); try done.
  - simpl. lia.
  - unfold a0. cbn [ra_engine with_state engine_new e_store]. by rewrite filter_from_start.
  - unfold a0. cbn [ra_engine with_state engine_new e_store]. by rewrite Hlog.
  - cbn [mbind outcome_bind]. rewrite Hor. cbn [mbind outcome_bind]. pose proof (holds_same _ _ _ Ho' (ei_book _ _ Hinv)) as Hsame.
    destruct Hr as [->|[err ->]]; do 2 eexists; (split; [done|]); split; eauto.
Qed.

(** C9: a snapshot and the events past it are equivalent to the whole log, as
    the documentation of [SerializableState] says: restoring the state captured
    from [e1] and replaying what the log holds past the captured number gives
    the resting orders, registry, auction log and spent sets of the engine [e2]
    that the operations since then led to, also when the log was compacted up to
    that number.  The operations are those the log can tell ([recorded_step]):
    configurations that survive their event, ciphertexts the keys of the restart
    open as the keys of their placement did, and no compaction past the captured
    number.  Pending batches, rounds and secrets are not part of this: a captured
    state holds none of them. *)
Theorem snapshot_tail_equivalent (env : RecoverEnv D) e1 e2 (store' : St) a fuel snap sq :
  reachable (F:=F) e1 -> capture_snapshot_state e1 = (snap, sq) -> rtc (recorded_step (F:=F) (rv_decrypt env) sq) e1 e2 ->
  st_wf store' -> sq <= st_last_seq store' ->
  List.filter (fun ev => sq <? ev_seq ev) (st_log store') = List.filter (fun ev => sq <? ev_seq ev) (st_log (e_store e2)) ->
  e_store (ra_engine a) = store' -> Z.of_nat (length (st_log store')) + RECOVER_BATCH <= u64_max -> (length (st_log store') < fuel)%nat ->
  exists a', replay_loop (F:=F) fuel (rv_decrypt env) sq (apply_snapshot a snap) = Ret (Some (a', Ok tt)) /\
    same_projection (e_state e2) (e_state (ra_engine a')).
Proof.
  intros (m1 & Hinv1)%reachable_inv [= <- <-] Hsteps Hwf' Hsq Htail <- Hroom Hfuel.
  pose proof (st_wf_ordered _ (ei_store _ _ Hinv1)) as (_ & Hin & _). pose proof (ei_seq _ _ Hinv1) as Hq.
  destruct (tracks_steps (rv_decrypt env) (project (e_state e1) m1) (st_last_seq (e_store e1)) e1 m1 e2) as (m & Hinv & _ & Hrun); try done.
  { split; [lia|]. replace (List.filter _ _) with (@nil (Event D)); [done|]. symmetry. clear -Hin.
    induction Hin as [|x l Hx _ IH]; simpl; [done|]. destruct (Z.ltb_spec (st_last_seq (e_store e1)) (ev_seq x)); [lia|done]. }
  set (a0 := apply_snapshot a _).
  assert (Ho : holds a0 (project (e_state e1) m1)) by (split; [apply Hinv1|done]).
  destruct (replay_loop_spec (F:=F) (rv_decrypt env) fuel (st_last_seq (e_store e1)) a0 (project (e_state e1) m1) (project (e_state e2) m))
    as (a' & -> & _ & Ho'); try done.
  - unfold a0. cbn [ra_engine apply_snapshot apply_snapshot_state with_state e_store]. pose proof (filter_length_le (fun ev => st_last_seq (e_store e1) <? ev_seq ev) (st_log (e_store (ra_engine a)))). lia.
  - unfold a0. cbn [ra_engine apply_snapshot apply_snapshot_state with_state e_store]. by rewrite Htail.
  - exists a'. split; [done|]. apply (holds_same _ _ _ Ho'), Hinv.
Qed.
End restart.

(** ** Snapshots of an engine that trades *)

Section stranded.
Context {D F St : Type} `{!DecimalOps D, !FieldOps F, !Poseidon F, !StoreOps D St, !StoreLaws D St,
  SHA : !Sha256, HEX : !HexOps, ADDR : !AddressOps, BIN : !BincodeOps (SerializableState D), AEAD : !Aead, AEADL : !AeadLaws} {HI : HashIter}.
Implicit Types (e : Engine D St) (s : SerializableState D).

(** [PairConfig] derives the serialization of its decimals, which asks the
    decoder for a self-describing value; the module [decimal_bincode] says that
    [bincode] rejects that, and adapts the decimals of orders and events only.
    So no state with a pair can be read back. *)
Definition bincode_rejects_pairs : Prop :=
  forall s b, ss_pair_tokens s <> ∅ -> ser s = Some b -> de (A:=SerializableState D) b = None.

Lemma Ok_inj {A E} (x y : A) : Ok (E:=E) x = Ok y -> x = y.
Proof. by intros [= ->]. Qed.

Lemma slice_app (l1 l2 : bytes) a b n : length l1 = n -> (n <= a)%nat -> slice a b (l1 ++ l2) = slice (a - n) (b - n) l2.
Proof. intros <- Ha. unfold slice. rewrite drop_app_ge by lia. f_equal. lia. Qed.

Lemma slice_here (l1 l2 : bytes) n : length l1 = n -> slice 0 n (l1 ++ l2) = l1.
Proof. intros <-. unfold slice. rewrite drop_0, Nat.sub_0_r, take_app_length. done. Qed.

(** What is sealed opens again. *)
Lemma open_seal key nonce msg aad sealed :
  length nonce = SNAPSHOT_NONCE_LEN -> seal key nonce msg aad = Ok sealed -> open_sealed key sealed aad = Ok msg.
Proof.
  unfold seal, open_sealed. intros Hn. destruct (aead_encrypt key nonce aad msg) as [ct|] eqn:He; [|done]. intros [= <-].
  rewrite length_app, Hn. destruct (Nat.ltb_spec (SNAPSHOT_NONCE_LEN + length ct) SNAPSHOT_NONCE_LEN); [lia|].
  rewrite <- Hn, take_app_length, drop_app_length. by rewrite (aead_roundtrip _ _ _ _ _ He).
Qed.

Lemma envelope_unreadable s sq key nonce b :
  bincode_rejects_pairs -> length nonce = SNAPSHOT_NONCE_LEN -> ss_pair_tokens s <> ∅ ->
  encode_envelope s sq key nonce = Ok b -> decode_envelope (D:=D) b key = Err SnapBincode.
Proof.
  intros Hbin Hn Hp. unfold encode_envelope. destruct (ser s) as [blob|] eqn:Hser; [|done].
  destruct (seal key nonce blob (envelope_header sq)) as [sealed|] eqn:Hseal; [|done].
  destruct (Z.ltb_spec u32_max (Z.of_nat (length sealed))) as [|Hl]; [done|]. intros <-%Ok_inj.
  assert (Hh : length (envelope_header sq) = 16%nat) by (unfold envelope_header; rewrite !length_app, !length_be_bytes; done).
  set (n := be_bytes 4 (Z.of_nat (length sealed))). assert (Hln : length n = 4%nat) by apply length_be_bytes.
  unfold decode_envelope, HEADER_LEN, AAD_LEN. rewrite !length_app, Hh, Hln.
  destruct (Nat.ltb_spec (16 + (4 + length sealed)) 20) as [|_]; [lia|].
  assert (slice 0 4 (envelope_header sq ++ n ++ sealed) = MAGIC) as ->.
  { unfold envelope_header. rewrite <- app_assoc. by apply slice_here. }
  rewrite bool_decide_true by done. cbn [negb].
  assert (slice 4 8 (envelope_header sq ++ n ++ sealed) = be_bytes 4 ENVELOPE_VERSION) as ->.
  { unfold envelope_header. rewrite <- !app_assoc, (slice_app MAGIC _ 4 8 4) by done. apply slice_here, length_be_bytes. }
  rewrite (be_value_be_bytes 4) by done. rewrite Z.eqb_refl. cbn [negb].
  rewrite (slice_app (envelope_header sq) _ 16 20 16) by done. change (slice (16 - 16) (20 - 16)) with (slice 0 4).
  rewrite (slice_here n sealed 4) by done.
  assert (be_value n = Z.of_nat (length sealed)) as -> by (apply be_value_be_bytes; unfold u32_max in Hl; lia).
  replace (drop 20 (envelope_header sq ++ n ++ sealed)) with sealed.
  2: { rewrite app_assoc, drop_app_length'; [done|]. rewrite length_app. lia. }
  rewrite Z.eqb_refl. cbn [negb]. rewrite slice_here by done. rewrite (open_seal _ _ _ _ _ Hn Hseal).
  by rewrite (Hbin _ _ Hp Hser).
Qed.

Lemma mem_keys_singleton sq (b : bytes) : MemSnapshotStore.keys (<[sq := b]> MemSnapshotStore.new) = [sq].
Proof. exact (f_equal (fun l => sort_by Z.compare l.*1) (map_to_list_singleton (M:=gmap Z) sq b)). Qed.

Lemma mem_read_singleton sq (b : bytes) : MemSnapshotStore.read_at (<[sq := b]> MemSnapshotStore.new) sq = Ok (Some b).
Proof. exact (f_equal Ok (lookup_insert_eq (M:=gmap Z) ∅ sq b)). Qed.

(** The first snapshot stays in the store whatever the retention. *)
Lemma prune_first sq (b : bytes) n : prune_snapshots (<[sq := b]> MemSnapshotStore.new) n = Ret (<[sq := b]> MemSnapshotStore.new).
Proof.
  unfold prune_snapshots. destruct (Nat.eqb_spec n 0); [done|]. cbn [snap_list_seqs MemSnapshotStore.mem_snap_ops]. unfold MemSnapshotStore.list_seqs.
  rewrite mem_keys_singleton. destruct (Nat.ltb_spec n (length [sq])); [simpl in *; lia|done].
Qed.

(** C38: the first snapshot of an engine with a registered pair makes its
    restart impossible once the log is compacted behind it.  The snapshot is
    written and reported as taken and the log is cut, but no restart over the
    two can decode the envelope, and recovery refuses to boot. *)
Theorem snapshot_strands_engine (env : StoreEnv) key nonce config e e1 snaps sq fuel (renv : RecoverEnv D) interval :
  bincode_rejects_pairs -> length nonce = SNAPSHOT_NONCE_LEN -> st_wf (e_store e) ->
  Z.of_nat (length (st_log (e_store e))) < u64_max -> es_pair_tokens (e_state e) <> ∅ ->
  take_snapshot env (Some key) nonce config e MemSnapshotStore.new = Ret (e1, snaps, Ok sq) ->
  1 < sq - sc_retain_events config -> snd (compact_events_before env e (sq - sc_retain_events config)) = Ok tt ->
  exists e', recover (F:=F) fuel renv (Some snaps) (Some key) (engine_new (e_store e1) interval) =
    Ret (Some (e', Err SnapshotsCorruptAndLogTruncated)).
Proof.
  intros Hbin Hn Hwf Hlen Hp Htake Hfl Hok. revert Htake. unfold take_snapshot, capture_snapshot_state.
  destruct (encode_envelope _ _ _ _) as [b|] eqn:Henc; [|done]. cbn [snap_write MemSnapshotStore.mem_snap_ops]. unfold MemSnapshotStore.write.
  rewrite prune_first. cbn [mbind outcome_bind]. intros [= <- <- <-].
  rewrite Z.max_r by lia. set (fl := st_last_seq (e_store e) - sc_retain_events config) in *.
  destruct (Z.ltb_spec 0 fl); [|lia]. unfold compact_events_before in Hok |- *.
  destruct (st_compact_before _ _ _) as [st [u|]] eqn:Hc; [|done]. cbn [fst]. change (e_store (with_store e st)) with st.
  destruct (st_compact_ok _ _ _ _ _ Hwf Hc) as (Hwf1 & _ & Hlog). destruct (st_wf_ordered _ Hwf1) as (_ & Hin & _).
  unfold recover. cbn [engine_new e_state state_new es_recovered]. unfold recover_snapshot, try_restore_from_snapshots.
  cbn [snap_list_seqs MemSnapshotStore.mem_snap_ops]. unfold MemSnapshotStore.list_seqs. rewrite mem_keys_singleton.
  change (reverse [st_last_seq (e_store e)]) with [st_last_seq (e_store e)].
  cbn [try_envelopes snap_read_at MemSnapshotStore.mem_snap_ops]. rewrite mem_read_singleton.
  rewrite (envelope_unreadable (to_serializable (e_state e)) _ _ _ _ Hbin Hn Hp Henc). unfold require_log, event_log_covers_seq_one.
  cbn [ra_engine with_state e_store engine_new].
  rewrite st_read_ok; [|done|lia|rewrite Hlog; pose proof (filter_length_le (fun x : Event D => (fl =? 0) || (fl <=? ev_seq x)) (st_log (e_store e))); lia].
  cbn [mbind outcome_bind]. destruct (take _ _) as [|x l] eqn:Htk; cbn [head]; [by eexists|].
  destruct (Z.eqb_spec (ev_seq x) 1) as [Hx|]; [|by eexists]. exfalso.
  assert (x ∈ st_log st) as Hxin.
  { assert (x ∈ take (Z.to_nat 1) (List.filter (fun y : Event D => 0 <? ev_seq y) (st_log st))) as (i & Hi%list_elem_of_lookup_2 & _)%elem_of_take
      by (rewrite Htk; left). by apply elem_of_list_filter_bool in Hi as [? _]. }
  rewrite Hlog in Hxin. apply elem_of_list_filter_bool in Hxin as [_ Hxf].
  destruct (Z.eqb_spec fl 0), (Z.leb_spec fl (ev_seq x)); simpl in Hxf; (done || lia).
Qed.
End stranded.
