(* ===== verification/RecoveryExamples.v ===== *)
(** * A restart on the sample run

    The run of [Examples.v], with a key per order and a restart that holds both,
    and what the theorems of [Recovery.v] say of it. *)

From S2P Require Import Prelude Decimal Types Field Auction Events Book Merkle FileStore EngineState Engine Admission Witness Tick Batch Machine.
From S2P Require Import Examples Snapshot Recover Replay Recovery.
Open Scope Z_scope.

#[local] Existing Instances fr_ops fr_laws canonical_iter small_poseidon sample_sha sample_hex sample_addr sample_addr_laws.

(** The keys of the restart open both ciphertexts of the run. *)
Definition sample_dec (ct : bytes) : result (DecryptedOrder Z) CryptoError :=
  match ct with
  | [1] => Ok (sample_plain 1 Buy 100 5)
  | [2] => Ok (sample_plain 2 Sell 90 3)
  | _ => Err DeserializationFailed
  end.

(** The key the engine had when it placed order [n] opens that order only. *)
Definition key_of (n : Z) (ct : bytes) : result (DecryptedOrder Z) CryptoError :=
  if bool_decide (ct = [n]) then sample_dec ct else Err (DecryptionFailed []).

Definition keyed_op (e : SampleEngine) (n : Z) : Op (D:=Z) (F:=Fr) :=
  OpPlace (mkPlaceEnv (key_of n) (fun _ _ _ => Ok (whole 1000, 0)) (Some (fun _ _ => true)) (secs 500) n) ok_store
    (e_state e) (e_state e) [1] [n] (trader n).

Ltac run_recorded op side := exists op; split_and!; [vm_compute; discriminate|vm_compute; first [reflexivity|exact I]|side|by_run].

Lemma sample_config_recorded : config_recorded sample_config.
Proof. split_and!; try done; repeat constructor; done. Qed.

Lemma recorded1 : recorded_step (F:=Fr) sample_dec 0 eng0 eng1.
Proof. run_recorded (OpRegister (D:=Z) (F:=Fr) ok_store (secs 1) (str "eth/usdc") sample_config) ltac:(exact sample_config_recorded). Qed.

Lemma recorded2 : recorded_step (F:=Fr) sample_dec 0 eng1 eng2.
Proof. run_recorded (keyed_op eng1 1) ltac:(done). Qed.

Lemma recorded3 sq : recorded_step (F:=Fr) sample_dec sq eng2 eng3.
Proof. run_recorded (keyed_op eng2 2) ltac:(done). Qed.

Lemma recorded4 : recorded_step (F:=Fr) sample_dec 0 eng3 eng4.
Proof. run_recorded (OpTick (D:=Z) (F:=Fr) tick_env) ltac:(exact I). Qed.

(** The stores of the run are well formed. *)
Lemma reachable_wf (e : SampleEngine) : reachable (F:=Fr) e -> st_wf (e_store e).
Proof. intros (m & Hinv)%reachable_inv. apply Hinv. Qed.

Lemma sample_step4 : step (F:=Fr) eng3 eng4.
Proof. run_step (OpTick (D:=Z) (F:=Fr) tick_env). Qed.

Lemma eng4_reachable : reachable (F:=Fr) eng4.
Proof. apply (steps_trans eng3); [apply eng3_reachable|apply rtc_once, sample_step4]. Qed.

(** ** The restart *)

Definition restart_env : RecoverEnv Z := mkRecoverEnv sample_dec (fun _ _ _ _ => Ok []) (fun _ => 950) (fun _ => ok_store) (secs 700).

(** A codec that writes and cannot read, as for every state with a pair. *)
#[local] Instance write_only_codec : BincodeOps (SerializableState Z) := {| ser _ := Some []; de _ := None |}.

#[local] Instance plain_aead : Aead := {| aead_encrypt _ _ _ m := Some m; aead_decrypt _ _ _ m := Some m |}.

#[local] Instance plain_aead_laws : AeadLaws.
Proof. split; simpl; congruence. Qed.

Lemma recovery_rebuilds_engine_witness :
  exists e' r, recover (F:=Fr) (Sn:=MemSnapshotStore.Snaps) 20 restart_env None None (engine_new (e_store eng4) 0) = Ret (Some (e', r)) /\
    same_projection (e_state eng4) (e_state e') /\
    ((r = Ok tt /\ es_recovered (e_state e') = true) \/ exists err, r = Err (EventErr err)).
Proof.
  apply (recovery_rebuilds_engine (F:=Fr) (Sn:=MemSnapshotStore.Snaps) restart_env MemStore.new (e_store eng4) 0 0 eng4 20 None None).
  - apply eng0_wf.
  - reflexivity.
  - apply (rtc_l _ _ eng1); [exact recorded1|]. apply (rtc_l _ _ eng2); [exact recorded2|].
    apply (rtc_l _ _ eng3); [apply recorded3|]. apply rtc_once, recorded4.
  - apply reachable_wf, eng4_reachable.
  - reflexivity.
  - vm_compute. discriminate.
  - vm_compute. lia.
  - exact I.
Defined.

(** The bid was placed when the snapshot was captured, the ask after. *)
Lemma snapshot_tail_equivalent_witness :
  exists a', replay_loop (F:=Fr) 20 sample_dec 2
      (apply_snapshot (mkRecAcc (engine_new (e_store eng3) 0) ∅ ∅ ∅) (to_serializable (e_state eng2))) = Ret (Some (a', Ok tt)) /\
    same_projection (e_state eng3) (e_state (ra_engine a')).
Proof.
  apply (snapshot_tail_equivalent (F:=Fr) restart_env eng2 eng3 (e_store eng3)).
  - apply eng2_reachable.
  - reflexivity.
  - apply rtc_once, recorded3.
  - apply reachable_wf, eng3_reachable.
  - vm_compute. discriminate.
  - reflexivity.
  - reflexivity.
  - vm_compute. discriminate.
  - vm_compute. lia.
Defined.

(** ** The snapshot *)

Definition keep_nothing : SnapshotConfig := mkSnapshotConfig true 1 (secs 1) 0 3.
Definition zero_nonce : bytes := replicate 24 0.
Definition zero_key : bytes := replicate 32 0.

Definition snapped : SampleEngine * MemSnapshotStore.Snaps * result Z SnapshotError := Eval vm_compute in
  match take_snapshot ok_store (Some zero_key) zero_nonce keep_nothing eng4 MemSnapshotStore.new with
  | Ret r => r | Panic => (eng4, MemSnapshotStore.new, Err CipherMissing) end.

Lemma snapshot_strands_engine_witness :
  exists e', recover (F:=Fr) 20 restart_env (Some (snd (fst snapped))) (Some zero_key) (engine_new (e_store (fst (fst snapped))) 0) =
    Ret (Some (e', Err SnapshotsCorruptAndLogTruncated)).
Proof.
  apply (snapshot_strands_engine (F:=Fr) ok_store zero_key zero_nonce keep_nothing eng4 (fst (fst snapped)) (snd (fst snapped))
    (st_last_seq (e_store eng4)) 20 restart_env 0).
  - done.
  - reflexivity.
  - apply reachable_wf, eng4_reachable.
  - reflexivity.
  - vm_compute. discriminate.
  - by_run.
  - reflexivity.
  - reflexivity.
Defined.
