(* ===== verification/Prime.v ===== *)
(** Primality of the scalar field's modulus, by Pocklington certificates.

    The in-circuit arguments about boolean variables (a bit [b] is constrained
    by [b * (1 - b) = 0]) need the absence of zero divisors modulo the BN254
    group order, so its primality is established here: the certificate of
    the modulus is two prime factors of [FR - 1] whose product exceeds the
    square root of the modulus, each one with a certificate of its own. *)

From Stdlib Require Import ZArith Znumtheory Lia Bool.
From Stdlib Require Import Zmod.ZmodInv.
From S2P Require Import Prelude Field.

Open Scope Z_scope.

(** ** Modular exponentiation *)

Fixpoint powmod (m a : Z) (e : positive) : Z :=
  match e with
  | xH => a mod m
  | xO e => let s := powmod m a e in s * s mod m
  | xI e => let s := powmod m a e in (s * s mod m) * a mod m
  end.

Lemma powmod_spec m a e : 0 < m -> powmod m a e = a ^ Z.pos e mod m.
Proof.
  intros Hm. induction e as [e IH|e IH|]; cbn [powmod].
  - rewrite IH, <- Zmult_mod, Zmult_mod_idemp_l.
    replace (Z.pos e~1) with (Z.pos e + Z.pos e + 1) by lia.
    rewrite !Z.pow_add_r, Z.pow_1_r by lia. reflexivity.
  - rewrite IH, <- Zmult_mod. replace (Z.pos e~0) with (Z.pos e + Z.pos e) by lia.
    rewrite Z.pow_add_r by lia. reflexivity.
  - rewrite Z.pow_1_r. reflexivity.
Qed.

(** ** Trial division, for the leaves of a certificate *)

Fixpoint no_divisor (n : Z) (d : Z) (fuel : nat) : bool :=
  match fuel with
  | O => false
  | S fuel => (n <? d * d) || negb (n mod d =? 0) && no_divisor n (d + 1) fuel
  end.

Lemma no_divisor_sound n fuel d k :
  1 < d -> no_divisor n d fuel = true -> d <= k -> (k | n) -> n < k * k.
Proof.
  revert d. induction fuel as [|fuel IH]; intros d Hd; cbn [no_divisor]; [discriminate|].
  intros [Hlt|[Hm Hrec]%andb_true_iff]%orb_true_iff Hk Hdiv; [nia|].
  destruct (Z.eq_dec d k) as [->|Hne].
  - apply Z.mod0_divide in Hdiv. rewrite Hdiv in Hm. discriminate.
  - apply (IH (d + 1)); [lia|assumption|lia|assumption].
Qed.

(** A number none of whose divisors is at most its square root is prime. *)
Lemma prime_from_sqrt n :
  1 < n -> (forall k, 1 < k -> (k | n) -> n < k * k) -> Z.prime n.
Proof.
  intros Hn Hsq. split; [assumption|]. intros k Hk [c Hc].
  assert (0 < c) by nia. assert (1 < c) by nia.
  assert (n < k * k) by (apply Hsq; [lia|exists c; lia]).
  assert (n < c * c) by (apply Hsq; [lia|exists k; lia]). nia.
Qed.

Lemma prime_trial n fuel : 1 < n -> no_divisor n 2 fuel = true -> Z.prime n.
Proof.
  intros Hn Ht. apply prime_from_sqrt; [assumption|].
  intros k Hk. apply (no_divisor_sound n fuel 2); (assumption || lia).
Qed.

(** ** Prime divisors *)

Lemma prime_divisor n : 1 < n -> exists p, Z.prime p /\ (p | n).
Proof.
  intros Hn. assert (Hn2 : 2 <= n) by lia. clear Hn. revert n Hn2.
  apply (Zlt_lower_bound_ind (fun n => exists p, Z.prime p /\ (p | n))). intros n IH Hn2.
  destruct (prime_dec n) as [Hp|Hp].
  { exists n. split; [apply prime_alt; assumption|exists 1; lia]. }
  destruct (not_prime_divide n ltac:(lia) Hp) as (d & Hd & Hdn).
  destruct (IH d ltac:(lia)) as (p & Hp' & Hpd). exists p. split; [assumption|].
  eapply Z.divide_trans; eassumption.
Qed.

(** ** Pocklington's criterion *)

Lemma pow_one_mod p x k : 1 < p -> 0 <= k -> x mod p = 1 -> x ^ k mod p = 1.
Proof.
  intros Hp Hk Hx. rewrite <- Z.mod_pow_l, Hx, Z.pow_1_l by lia. apply Z.mod_small. lia.
Qed.

(** An element whose coprime powers are both one is one. *)
Lemma coprime_orders p b q r :
  1 < p -> 0 < q -> 0 < r -> Z.coprime q r ->
  b ^ q mod p = 1 -> b ^ r mod p = 1 -> b mod p = 1.
Proof.
  intros Hp Hq Hr (u & v & Huv)%Z.Bezout_coprime Hbq Hbr.
  set (s := u mod r + r). set (t := (s * q - 1) / r).
  assert (Hs : r <= s < 2 * r) by (pose proof (Z.mod_pos_bound u r Hr); lia).
  assert (Hdiv : (r | s * q - 1)).
  { exists (q - u / r * q - v). unfold s. rewrite (Z.mod_eq u r) by lia. nia. }
  assert (Ht : s * q = t * r + 1).
  { unfold t. destruct Hdiv as [c Hc]. rewrite Hc, Z.div_mul by lia. lia. }
  assert (Ht0 : 0 <= t) by nia.
  assert (Hone : b ^ (s * q) mod p = 1).
  { rewrite Z.mul_comm, Z.pow_mul_r by lia. apply pow_one_mod; (assumption || lia). }
  rewrite Ht, Z.pow_add_r, Z.pow_1_r, Zmult_mod in Hone by nia.
  rewrite Z.mul_comm with (n := t), Z.pow_mul_r, (pow_one_mod p (b ^ r) t), Z.mul_1_l, Z.mod_mod in Hone by (assumption || lia).
  assumption.
Qed.

Lemma mod_divisor p n x : 1 < p -> (p | n) -> 0 < n -> x mod n = 1 -> x mod p = 1.
Proof.
  intros Hp [c Hc] Hn Hx. rewrite (Z.div_mod x n), Hx, Hc by lia.
  replace (c * p * (x / (c * p)) + 1) with (1 + c * (x / (c * p)) * p) by ring.
  rewrite Z.mod_add, Z.mod_small by lia. reflexivity.
Qed.

(** The test of one prime factor [q] of [n - 1], to the base [a]. *)
Definition pocklington_step (n a q : Z) : bool :=
  ((n - 1) mod q =? 0) &&
  match (n - 1) / q with
  | Z.pos e => Z.gcd (powmod n a e - 1) n =? 1
  | _ => false
  end.

Definition fermat_test (n a : Z) : bool :=
  match n - 1 with Z.pos e => powmod n a e =? 1 | _ => false end.

Lemma pocklington_divides n a q p :
  1 < n -> Z.prime q -> fermat_test n a = true -> pocklington_step n a q = true ->
  Z.prime p -> (p | n) -> (q | p - 1).
Proof.
  unfold fermat_test, pocklington_step. intros Hn Hq Hf [Hqn Hg]%andb_true_iff Hp Hpn.
  pose proof (Z.prime_ge_2 _ Hp). pose proof (Z.prime_ge_2 _ Hq).
  destruct (n - 1) as [|e|] eqn:He; try discriminate.
  apply Z.eqb_eq in Hf, Hqn. rewrite powmod_spec in Hf by lia.
  destruct (Z.pos e / q) as [|d|] eqn:Hd; try discriminate.
  apply Z.eqb_eq in Hg. rewrite powmod_spec in Hg by lia.
  assert (Hed : Z.pos e = Z.pos d * q) by (rewrite (Z.div_mod (Z.pos e) q), Hqn, Hd; lia).
  set (b := a ^ Z.pos d) in *.
  assert (Hbq : b ^ q mod p = 1).
  { unfold b. rewrite <- Z.pow_mul_r, <- Hed by lia. eapply mod_divisor; [lia|eassumption|lia|assumption]. }
  assert (Hb1 : b mod p <> 1).
  { intros Hb. assert (Hdv : (p | Z.gcd (b mod n - 1) n)).
    { apply Z.gcd_greatest; [|assumption]. apply Z.mod_divide; [lia|].
      rewrite Zminus_mod, (Z.mod_mod_divide b n p), Hb by assumption.
      rewrite (Z.mod_small 1) by lia. reflexivity. }
    rewrite Hg in Hdv. apply Z.divide_1_r_nonneg in Hdv; lia. }
  assert (Hb0 : b mod p <> 0).
  { intros Hb. rewrite <- Z.mod_pow_l, Hb, Z.pow_0_l, Z.mod_0_l in Hbq by lia. discriminate. }
  destruct (Z.BoolSpec_divide q (p - 1)) as [Hdiv|Hdiv]; [assumption|exfalso]. apply Hb1.
  apply (coprime_orders p b q (p - 1)); try (assumption || lia).
  - apply Z.coprime_prime_l; assumption.
  - apply Z.fermat_nz; assumption.
Qed.

(** Two distinct certified factors whose product exceeds the square root. *)
Lemma pocklington2 n a q r :
  1 < n -> Z.prime q -> Z.prime r -> q <> r -> n < (q * r) * (q * r) ->
  fermat_test n a = true -> pocklington_step n a q = true -> pocklington_step n a r = true ->
  Z.prime n.
Proof.
  intros Hn Hq Hr Hqr Hsq Hf Hsq1 Hsr. apply prime_from_sqrt; [assumption|].
  intros k Hk Hkn. destruct (prime_divisor k Hk) as (p & Hp & Hpk).
  assert (Hpn : (p | n)) by (eapply Z.divide_trans; eassumption).
  pose proof (pocklington_divides n a q p Hn Hq Hf Hsq1 Hp Hpn) as Hd1.
  pose proof (pocklington_divides n a r p Hn Hr Hf Hsr Hp Hpn) as Hd2.
  pose proof (Z.prime_ge_2 _ Hp). pose proof (Z.prime_ge_2 _ Hq). pose proof (Z.prime_ge_2 _ Hr).
  assert (Hd : (q * r | p - 1)).
  { destruct Hd1 as [c Hc]. rewrite Hc in Hd2. rewrite Hc, Z.mul_comm.
    apply Z.mul_divide_mono_r. apply (Z.gauss _ q); [rewrite Z.mul_comm; assumption|].
    apply Z.coprime_prime_l; [assumption|].
    intros Hdv. apply Hqr. symmetry. apply Z.divide_prime_prime; assumption. }
  apply Z.divide_pos_le in Hd; [|lia]. apply Z.divide_pos_le in Hpk; [|lia]. nia.
Qed.

Lemma pocklington1 n a q :
  1 < n -> Z.prime q -> n < q * q -> fermat_test n a = true -> pocklington_step n a q = true ->
  Z.prime n.
Proof.
  intros Hn Hq Hsq Hf Hs. apply prime_from_sqrt; [assumption|].
  intros k Hk Hkn. destruct (prime_divisor k Hk) as (p & Hp & Hpk).
  pose proof (Z.prime_ge_2 _ Hp). pose proof (Z.prime_ge_2 _ Hq).
  assert (Hd : (q | p - 1)).
  { apply (pocklington_divides n a q p); try assumption. eapply Z.divide_trans; eassumption. }
  apply Z.divide_pos_le in Hd; [|lia]. apply Z.divide_pos_le in Hpk; [|lia]. nia.
Qed.

(** ** The certificate of the modulus *)

Ltac trial := apply (prime_trial _ 400); [reflexivity|vm_compute; reflexivity].
Ltac certify1 H := apply (fun h h' => pocklington1 _ 2 _ h H h'); vm_compute; reflexivity.
Ltac certify2 H H' :=
  apply (fun h => pocklington2 _ 2 _ _ h H H'); [vm_compute; reflexivity|discriminate|vm_compute; reflexivity..].

Lemma prime_1637 : Z.prime 1637.
Proof. trial. Qed.

Lemma prime_853 : Z.prime 853.
Proof. trial. Qed.

Lemma prime_93001 : Z.prime 93001.
Proof. trial. Qed.

Lemma prime_661 : Z.prime 661.
Proof. trial. Qed.

Lemma prime_639533339 : Z.prime 639533339.
Proof. certify2 prime_1637 prime_853. Qed.

Lemma prime_65865678001877903 : Z.prime 65865678001877903.
Proof. certify1 prime_639533339. Qed.

Lemma prime_13818364434197438864469338081 : Z.prime 13818364434197438864469338081.
Proof. certify1 prime_65865678001877903. Qed.

Lemma prime_12048837557 : Z.prime 12048837557.
Proof. certify2 prime_93001 prime_661. Qed.

Lemma prime_5156902474397 : Z.prime 5156902474397.
Proof. certify1 prime_12048837557. Qed.

Lemma prime_1670836401704629 : Z.prime 1670836401704629.
Proof. certify1 prime_5156902474397. Qed.

Lemma prime_FR : Z.prime FR.
Proof. certify2 prime_13818364434197438864469338081 prime_1670836401704629. Qed.

(** ** Consequences used by the circuits *)

(** The field has no zero divisors. *)
Lemma FR_integral a b : a * b mod FR = 0 -> a mod FR = 0 \/ b mod FR = 0.
Proof.
  intros Hab. assert (HF : FR <> 0) by discriminate. apply Z.mod_divide in Hab; [|assumption].
  apply Z.divide_prime_mul in Hab; [|exact prime_FR].
  destruct Hab as [Hd|Hd]; [left|right]; apply Z.mod_divide; assumption.
Qed.

(** A variable constrained to be boolean holds zero or one. *)
Lemma FR_boolean b : 0 <= b < FR -> b * (1 - b) mod FR = 0 -> b = 0 \/ b = 1.
Proof.
  intros Hb [H|H]%FR_integral.
  - left. rewrite Z.mod_small in H by assumption. assumption.
  - right. assert (HF : FR <> 0) by discriminate. apply Z.mod_divide in H; [|assumption].
    destruct H as [c Hc]. assert (1 < FR) by reflexivity. assert (c = 0) by nia. lia.
Qed.
