(* ===== verification/Poly.v ===== *)
(** * Polynomials over the scalar field

    The ring of the scalar field, polynomials as lists of coefficients, lowest
    first, and the fact the prover relies on: a polynomial with more roots than
    its degree is zero.  [quotient_exact] divides a polynomial that vanishes on
    a set of roots of unity. *)

From S2P Require Import Prelude Field Prime.
Open Scope Z_scope.

Section ring.
Context {F : Type} `{!FieldOps F, !FieldLaws F}.

Lemma fr_ring_theory : ring_theory (fr_zero (F:=F)) fr_one fr_add fr_mul fr_sub fr_neg eq.
Proof.
  assert (HF : FR <> 0) by discriminate.
  split; intros; apply fr_to_Z_inj; unfold fr_zero, fr_one;
    rewrite ?fr_add_spec, ?fr_sub_spec, ?fr_mul_spec, ?fr_add_spec, ?fr_mul_spec, ?fr_neg_spec, ?fr_of_Z_spec;
    rewrite ?Zplus_mod_idemp_l, ?Zplus_mod_idemp_r, ?Zmult_mod_idemp_l, ?Zmult_mod_idemp_r.
  1: rewrite Z.add_0_l; apply Z.mod_small, fr_to_Z_range.
  3: rewrite Z.mul_1_l; apply Z.mod_small, fr_to_Z_range.
  all: f_equal; lia.
Qed.

Lemma fr_integral (a b : F) : fr_mul a b = fr_zero -> a = fr_zero \/ b = fr_zero.
Proof.
  intros H. apply (f_equal fr_to_Z) in H. rewrite fr_mul_spec in H. unfold fr_zero in *. rewrite fr_of_Z_spec, Z.mod_0_l in H by discriminate.
  apply FR_integral in H as [H|H]; rewrite Z.mod_small in H by apply fr_to_Z_range; [left|right]; apply fr_to_Z_inj;
    by rewrite H, fr_of_Z_spec, Z.mod_0_l by discriminate.
Qed.

Fixpoint fr_pow (x : F) (n : nat) : F :=
  match n with O => fr_one | S n' => (x * fr_pow x n')%fr end.
End ring.

(** [Field::inverse] and the generator of the multiplicative group. *)
Class FieldInv (F : Type) := {
  fr_inverse : F -> option F;
  GENERATOR : F
}.

Class FieldInvLaws (F : Type) `{!FieldOps F, !FieldInv F} : Prop := {
  fr_inverse_Some : forall a b, fr_inverse a = Some b -> (a * b)%fr = fr_one;
  fr_inverse_None : forall a, fr_inverse a = None <-> a = fr_zero;
  GENERATOR_nonzero : GENERATOR <> fr_zero
}.

Section poly.
Context {F : Type} `{!FieldOps F, LAWS : !FieldLaws F}.
Add Ring fr_ring : (fr_ring_theory (F:=F)).
Implicit Types (p q : list F) (x : F).

Definition fr_sum (l : list F) : F := foldr fr_add fr_zero l.

Definition dot (l k : list F) : F := fr_sum (zip_with fr_mul l k).

Definition peval p x : F := foldr (fun c acc => c + x * acc)%fr fr_zero p.

Fixpoint padd p q : list F :=
  match p, q with
  | [], _ => q
  | _, [] => p
  | a :: p', b :: q' => (a + b)%fr :: padd p' q'
  end.

Definition pscale (k : F) p : list F := map (fr_mul k) p.

Fixpoint pmul p q : list F :=
  match p with
  | [] => []
  | a :: p' => padd (pscale a q) (fr_zero :: pmul p' q)
  end.

(** Division by [X - a]: the quotient, the remainder is the value at [a]. *)
Fixpoint pdiv p (a : F) : list F :=
  match p with
  | [] | [_] => []
  | _ :: p' => peval p' a :: pdiv p' a
  end.

Definition pzero p : Prop := Forall (fun c => c = fr_zero) p.

Ltac poly_ring := unfold peval, dot, fr_sum; cbn [padd pmul pdiv foldr app drop zip_with length seq map fr_pow]; ring.

Lemma peval_padd p q x : peval (padd p q) x = (peval p x + peval q x)%fr.
Proof.
  revert q; induction p as [|a p IH]; intros q; [poly_ring|]. destruct q as [|b q]; [poly_ring|].
  cbn [padd peval foldr]. fold (peval (padd p q) x). rewrite IH. unfold peval. ring.
Qed.

Lemma peval_pscale k p x : peval (pscale k p) x = (k * peval p x)%fr.
Proof. induction p as [|a p IH]; cbn [pscale map peval foldr] in *; [ring|]. unfold peval, pscale in IH. rewrite IH. ring. Qed.

Lemma peval_pmul p q x : peval (pmul p q) x = (peval p x * peval q x)%fr.
Proof.
  induction p as [|a p IH]; [poly_ring|]. cbn [pmul]. rewrite peval_padd, peval_pscale.
  cbn [peval foldr]. fold (peval (pmul p q) x) (peval p x). rewrite IH. ring.
Qed.

Lemma length_padd p q : length (padd p q) = Nat.max (length p) (length q).
Proof. revert q; induction p as [|a p IH]; intros [|b q]; cbn; auto. Qed.

Lemma length_pmul p q : q <> [] -> (length (pmul p q) <= length p + length q - 1)%nat.
Proof.
  intros Hq. assert (0 < length q)%nat by (destruct q; [done|simpl; lia]).
  induction p as [|a p IH]; [cbn; lia|]. cbn [pmul]. rewrite length_padd. unfold pscale. rewrite length_map. cbn [length].
  destruct p as [|b p]; cbn [pmul length] in *; lia.
Qed.

Lemma fr_pow_mul x y n : fr_pow (x * y)%fr n = (fr_pow x n * fr_pow y n)%fr.
Proof. induction n as [|n IH]; cbn [fr_pow]; [ring|]. rewrite IH. ring. Qed.

Lemma peval_app p q x : peval (p ++ q) x = (peval p x + fr_pow x (length p) * peval q x)%fr.
Proof.
  induction p as [|a p IH]; cbn [app length fr_pow]; [cbn [peval foldr]; ring|].
  cbn [peval foldr]. fold (peval (p ++ q) x) (peval p x). rewrite IH. ring.
Qed.

Lemma peval_zeros n x : peval (replicate n fr_zero) x = fr_zero.
Proof. induction n as [|n IH]; [done|]. cbn [replicate peval foldr]. fold (peval (replicate n fr_zero) x). rewrite IH. ring. Qed.

(** ** Roots *)

Lemma peval_pzero p x : pzero p -> peval p x = fr_zero.
Proof. induction 1 as [|c p -> _ IH]; [done|]. cbn [peval foldr]. fold (peval p x). rewrite IH. ring. Qed.

Lemma length_pdiv p a : length (pdiv p a) = (length p - 1)%nat.
Proof. induction p as [|c [|d p] IH]; cbn [pdiv length] in *; lia. Qed.

Lemma pdiv_spec p a x : peval p x = ((x - a) * peval (pdiv p a) x + peval p a)%fr.
Proof.
  induction p as [|c [|d p] IH]; [poly_ring|poly_ring|].
  set (p' := d :: p) in *. change (pdiv (c :: p') a) with (peval p' a :: pdiv p' a).
  cbn [peval foldr]. fold (peval p' x) (peval p' a) (peval (pdiv p' a) x). rewrite IH. ring.
Qed.

Lemma pdiv_zero p a : pzero (pdiv p a) -> peval p a = fr_zero -> pzero p.
Proof.
  induction p as [|c [|d p] IH]; intros Hq Hp; [constructor| |].
  - constructor; [|constructor]. cbn [peval foldr] in Hp. rewrite <- Hp. ring.
  - set (p' := d :: p) in *. change (pdiv (c :: p') a) with (peval p' a :: pdiv p' a) in Hq.
    apply Forall_cons in Hq as [Hr Hq]. constructor; [|by apply IH].
    cbn [peval foldr] in Hp. fold (peval p' a) in Hp. rewrite Hr in Hp. rewrite <- Hp. ring.
Qed.

Lemma fr_sub_zero (a b : F) : (a - b)%fr = fr_zero -> a = b.
Proof. intros H. transitivity (a - b + b)%fr; [ring|]. rewrite H. ring. Qed.

(** A polynomial with as many roots as coefficients is zero. *)
Lemma roots_zero (roots : list F) p :
  NoDup roots -> (length p <= length roots)%nat -> (forall x, x ∈ roots -> peval p x = fr_zero) -> pzero p.
Proof.
  intros Hnd. revert p; induction Hnd as [|a roots Ha _ IH]; intros p Hl Hr.
  { destruct p; [constructor|simpl in Hl; lia]. }
  apply (pdiv_zero p a); [|apply Hr; left]. apply IH; [rewrite length_pdiv; simpl in Hl; lia|].
  intros x Hx. pose proof (Hr x ltac:(by right)) as H0. rewrite (pdiv_spec p a x), (Hr a) in H0 by left.
  destruct (fr_integral (x - a)%fr (peval (pdiv p a) x)) as [Hxa|]; [rewrite <- H0; ring| |done].
  apply fr_sub_zero in Hxa as ->. done.
Qed.

(** Interpolation is unique. *)
Lemma interpolation_unique (points : list F) p q :
  NoDup points -> length p = length points -> length q = length points ->
  (forall x, x ∈ points -> peval p x = peval q x) -> p = q.
Proof.
  intros Hnd Hp Hq Heq. assert (Hz : pzero (padd p (pscale (fr_neg fr_one) q))).
  { apply (roots_zero points); [done|rewrite length_padd; unfold pscale; rewrite length_map; lia|].
    intros x Hx. rewrite peval_padd, peval_pscale, Heq by done. ring. }
  assert (Hl : length p = length q) by congruence. clear -Hz Hl LAWS. revert q Hz Hl; induction p as [|a p IH]; intros [|b q] Hz Hl; try done.
  cbn [padd pscale map] in Hz. apply Forall_cons in Hz as [Ha Hz]. f_equal; [|apply IH; [exact Hz|by injection Hl]].
  apply fr_sub_zero. rewrite <- Ha. ring.
Qed.

(** A polynomial that vanishes on [n] roots of unity is a multiple of
    [X^n - 1]; below the degree [2 n - 1] its high half is the quotient. *)
Lemma quotient_exact (roots : list F) p :
  NoDup roots -> (forall x, x ∈ roots -> fr_pow x (length roots) = fr_one) -> (length p <= 2 * length roots)%nat ->
  (forall x, x ∈ roots -> peval p x = fr_zero) ->
  forall x, peval p x = ((fr_pow x (length roots) - fr_one) * peval (drop (length roots) p) x)%fr.
Proof.
  intros Hnd Hone Hl Hroot x. set (n := length roots) in *. set (lo := take n p). set (hi := drop n p).
  destruct (decide (length p < n)%nat) as [Hs|Hs].
  { assert (hi = []) as -> by (apply drop_ge; lia). rewrite (peval_pzero p); [poly_ring|]. apply (roots_zero roots); [done|unfold n in *; lia|done]. }
  assert (Hlo : length lo = n) by (unfold lo; rewrite length_take; lia).
  assert (Hsplit : forall y, peval p y = (peval lo y + fr_pow y n * peval hi y)%fr).
  { intros y. rewrite <- (take_drop n p) at 1. rewrite peval_app. fold lo hi. by rewrite Hlo. }
  assert (Hz : pzero (padd lo hi)).
  { apply (roots_zero roots); [done|rewrite length_padd, Hlo; unfold hi; rewrite length_drop; lia|].
    intros y Hy. rewrite peval_padd. pose proof (Hroot y Hy) as H0. rewrite Hsplit, Hone in H0 by done. rewrite <- H0. ring. }
  pose proof (peval_pzero _ x Hz) as H0. rewrite peval_padd in H0. rewrite Hsplit.
  replace (peval lo x) with (peval lo x + peval hi x - peval hi x)%fr by ring. rewrite H0. ring.
Qed.

(** ** Inner products *)

Lemma fr_sum_app l k : fr_sum (l ++ k) = (fr_sum l + fr_sum k)%fr.
Proof. unfold fr_sum. induction l as [|a l IH]; cbn [foldr app]; [ring|]. rewrite IH. ring. Qed.

Lemma dot_nil l : dot [] l = fr_zero.
Proof. done. Qed.

Lemma dot_cons a b l k : dot (a :: l) (b :: k) = (a * b + dot l k)%fr.
Proof. done. Qed.

Lemma dot_app l1 l2 k1 k2 : length l1 = length k1 -> dot (l1 ++ l2) (k1 ++ k2) = (dot l1 k1 + dot l2 k2)%fr.
Proof. intros Hl. unfold dot. by rewrite zip_with_app, fr_sum_app. Qed.

Lemma dot_comm l k : dot l k = dot k l.
Proof.
  revert k; induction l as [|a l IH]; intros [|b k]; try done. rewrite !dot_cons, IH. ring.
Qed.

Lemma dot_zeros_l n l : dot (replicate n fr_zero) l = fr_zero.
Proof. revert l; induction n as [|n IH]; intros [|a l]; try done. cbn [replicate]. rewrite dot_cons, IH. ring. Qed.

Lemma dot_powers p x : forall k, dot p (map (fun i => fr_pow x (k + i)) (seq 0 (length p))) = (fr_pow x k * peval p x)%fr.
Proof.
  induction p as [|a p IH]; intros k; [poly_ring|]. cbn [length seq map]. rewrite dot_cons, Nat.add_0_r.
  rewrite <- seq_shift, map_map. rewrite (map_ext _ (fun i => fr_pow x (S k + i))) by (intros; f_equal; lia). rewrite IH.
  cbn [peval foldr fr_pow]. unfold peval. ring.
Qed.
End poly.
