(* ===== verification/Groth16.v ===== *)
(** * Groth16

    [vendor/ark-groth16]: the proof system the exchange builds with.
    [r1cs_to_qap.rs] (the reduction of constraints to polynomials),
    [generator.rs], [prover.rs], [verifier.rs] and the [SNARK] implementation of
    [lib.rs].

    Curves, pairings and evaluation domains come from other crates and are
    parameters with their laws; a point is the same in affine, projective and
    prepared form, and a scalar the same as its big integer.  The draws of a
    random number generator are arguments.  Timers are left out, and the
    parallel sums are the sequential ones. *)

From S2P Require Import Prelude Field Prime Poly.
Open Scope Z_scope.

(** ** Groups and pairings *)

Class GroupOps (F G : Type) := {
  g_zero : G;
  g_add : G -> G -> G;
  g_neg : G -> G;
  g_mul : G -> F -> G
}.

Class GroupLaws (F G : Type) `{!FieldOps F, !GroupOps F G} : Prop := {
  g_add_comm : forall p q : G, g_add p q = g_add q p;
  g_add_assoc : forall p q r : G, g_add p (g_add q r) = g_add (g_add p q) r;
  g_add_zero : forall p : G, g_add p g_zero = p;
  g_add_neg : forall p : G, g_add p (g_neg p) = g_zero;
  g_mul_one : forall p : G, g_mul p fr_one = p;
  g_mul_mul : forall (p : G) (a b : F), g_mul (g_mul p a) b = g_mul p (a * b)%fr;
  g_mul_add : forall (p : G) (a b : F), g_mul p (a + b)%fr = g_add (g_mul p a) (g_mul p b);
  g_add_mul : forall (p q : G) (a : F), g_mul (g_add p q) a = g_add (g_mul p a) (g_mul q a)
}.

(** [VariableBaseMSM::msm_bigint] and [BatchMulPreprocessing]. *)
Class MsmOps (F G : Type) := {
  g_msm : list G -> list F -> G;
  g_batch_mul : G -> nat -> list F -> list G
}.

Definition g_sum {F G : Type} `{!GroupOps F G} (l : list G) : G := foldr g_add g_zero l.

(** The shorter of the two lists ends the sum. *)
Class MsmLaws (F G : Type) `{!GroupOps F G, !MsmOps F G} : Prop := {
  g_msm_spec : forall (ps : list G) (ks : list F), g_msm ps ks = g_sum (zip_with g_mul ps ks);
  g_batch_mul_spec : forall (p : G) n (ks : list F), g_batch_mul p n ks = map (g_mul p) ks
}.

Class PairingOps (G1 G2 GT ML : Type) := {
  pairing : G1 -> G2 -> GT;
  multi_miller_loop : list G1 -> list G2 -> ML;
  final_exponentiation : ML -> option GT;
  gt_eqb : GT -> GT -> bool
}.

Class PairingLaws (F G1 G2 GT ML : Type) `{!GroupOps F G1, !GroupOps F G2, !GroupOps F GT, !PairingOps G1 G2 GT ML} : Prop := {
  pairing_add_l : forall p p' q, pairing (g_add p p') q = g_add (pairing p q) (pairing p' q);
  pairing_add_r : forall p q q', pairing p (g_add q q') = g_add (pairing p q) (pairing p q');
  pairing_mul_l : forall p q k, pairing (g_mul p k) q = g_mul (pairing p q) k;
  pairing_mul_r : forall p q k, pairing p (g_mul q k) = g_mul (pairing p q) k;
  multi_pairing_spec : forall ps qs, final_exponentiation (multi_miller_loop ps qs) = Some (g_sum (zip_with pairing ps qs));
  gt_eqb_spec : forall a b, gt_eqb a b = true <-> a = b
}.

(** ** Evaluation domains: [ark_poly] *)

Class DomainOps (F Dom : Type) := {
  dom_new : nat -> option Dom;
  dom_size : Dom -> nat;
  dom_elements : Dom -> list F;
  dom_get_coset : Dom -> F -> option Dom;
  dom_fft : Dom -> list F -> list F;
  dom_ifft : Dom -> list F -> list F;
  evaluate_vanishing_polynomial : Dom -> F -> F;
  evaluate_all_lagrange_coefficients : Dom -> F -> list F;
  mul_polynomials_in_evaluation_domain : Dom -> list F -> list F -> list F
}.

(** A domain holds [dom_size] distinct points, those of a new one roots of
    unity; the transforms evaluate and interpolate there. *)
Class DomainLaws (F Dom : Type) `{!FieldOps F, !DomainOps F Dom} : Prop := {
  dom_new_size : forall n d, dom_new n = Some d -> (n <= dom_size d)%nat /\ (0 < dom_size d)%nat;
  dom_new_roots : forall n d x, dom_new n = Some d -> x ∈ dom_elements d -> fr_pow x (dom_size d) = fr_one;
  dom_elements_length : forall d, length (dom_elements d) = dom_size d;
  dom_elements_distinct : forall d, NoDup (dom_elements d);
  dom_get_coset_spec : forall n d g, dom_new n = Some d -> g <> fr_zero ->
    exists d', dom_get_coset d g = Some d' /\ dom_elements d' = map (fr_mul g) (dom_elements d);
  dom_fft_spec : forall d p, (length p <= dom_size d)%nat -> dom_fft d p = map (peval p) (dom_elements d);
  dom_ifft_length : forall d v, length v = dom_size d -> length (dom_ifft d v) = dom_size d;
  dom_ifft_spec : forall d v, length v = dom_size d -> map (peval (dom_ifft d v)) (dom_elements d) = v;
  vanishing_spec : forall n d x, dom_new n = Some d -> evaluate_vanishing_polynomial d x = (fr_pow x (dom_size d) - fr_one)%fr;
  lagrange_length : forall n d t, dom_new n = Some d -> length (evaluate_all_lagrange_coefficients d t) = dom_size d;
  lagrange_spec : forall n d t v, dom_new n = Some d -> length v = dom_size d ->
    dot (evaluate_all_lagrange_coefficients d t) v = peval (dom_ifft d v) t;
  mul_evaluations_spec : forall d p q, length p = length q -> mul_polynomials_in_evaluation_domain d p q = zip_with fr_mul p q
}.

(** The generator of the multiplicative group is no root of unity of a domain. *)
Definition generator_outside (F Dom : Type) `{!FieldOps F, !FieldInv F, !DomainOps F Dom} : Prop :=
  forall n (d : Dom), dom_new n = Some d -> fr_pow GENERATOR (dom_size d) <> fr_one.

(** ** Constraint systems: [ark_relations] *)

Inductive SynthesisError :=
| AssignmentMissing
| Unsatisfiable
| PolynomialDegreeTooLarge
| OtherSynthesisError (e : Str).

Notation Matrix F := (list (list (F * nat))).

(** A finished system; [cs_r1cs] are the matrices of its R1CS predicate. *)
Record ConstraintSystem (F : Type) := mkCS {
  cs_r1cs : option (list (Matrix F));
  num_instance_variables : nat;
  num_witness_variables : nat;
  num_constraints : nat;
  instance_assignment : option (list F);
  witness_assignment : option (list F)
}.
Arguments mkCS {F}.
Arguments cs_r1cs {F}.
Arguments num_instance_variables {F}.
Arguments num_witness_variables {F}.
Arguments num_constraints {F}.
Arguments instance_assignment {F}.
Arguments witness_assignment {F}.

Inductive SynthesisMode := Setup | Prove.

(** [ConstraintSynthesizer]: the circuit run in a mode, and finalized. *)
Class Synthesizer (C F : Type) := { synthesize : SynthesisMode -> C -> result (ConstraintSystem F) SynthesisError }.

(** ** Data structures *)

Record Proof (G1 G2 : Type) := mkProof { proof_a : G1; proof_b : G2; proof_c : G1 }.
Arguments mkProof {G1 G2}.
Arguments proof_a {G1 G2}.
Arguments proof_b {G1 G2}.
Arguments proof_c {G1 G2}.

Record VerifyingKey (G1 G2 : Type) := mkVerifyingKey {
  alpha_g1 : G1;
  beta_g2 : G2;
  gamma_g2 : G2;
  delta_g2 : G2;
  gamma_abc_g1 : list G1
}.
Arguments mkVerifyingKey {G1 G2}.
Arguments alpha_g1 {G1 G2}.
Arguments beta_g2 {G1 G2}.
Arguments gamma_g2 {G1 G2}.
Arguments delta_g2 {G1 G2}.
Arguments gamma_abc_g1 {G1 G2}.

Record PreparedVerifyingKey (G1 G2 GT : Type) := mkPreparedVerifyingKey {
  pvk_vk : VerifyingKey G1 G2;
  alpha_g1_beta_g2 : GT;
  gamma_g2_neg_pc : G2;
  delta_g2_neg_pc : G2
}.
Arguments mkPreparedVerifyingKey {G1 G2 GT}.
Arguments pvk_vk {G1 G2 GT}.
Arguments alpha_g1_beta_g2 {G1 G2 GT}.
Arguments gamma_g2_neg_pc {G1 G2 GT}.
Arguments delta_g2_neg_pc {G1 G2 GT}.

Record ProvingKey (G1 G2 : Type) := mkProvingKey {
  pk_vk : VerifyingKey G1 G2;
  beta_g1 : G1;
  delta_g1 : G1;
  a_query : list G1;
  b_g1_query : list G1;
  b_g2_query : list G2;
  h_query : list G1;
  l_query : list G1
}.
Arguments mkProvingKey {G1 G2}.
Arguments pk_vk {G1 G2}.
Arguments beta_g1 {G1 G2}.
Arguments delta_g1 {G1 G2}.
Arguments a_query {G1 G2}.
Arguments b_g1_query {G1 G2}.
Arguments b_g2_query {G1 G2}.
Arguments h_query {G1 G2}.
Arguments l_query {G1 G2}.

(** ** Slices *)

(** [v[n..]] and [v[..n]] *)
Definition slice_from {A} (n : nat) (v : list A) : outcome (list A) := if (n <=? length v)%nat then Ret (drop n v) else Panic.
Definition slice_to {A} (n : nat) (v : list A) : outcome (list A) := if (n <=? length v)%nat then Ret (take n v) else Panic.

(** [v[start..start + src.len()].copy_from_slice(src)] *)
Definition copy_at {A} (v : list A) (start : nat) (src : list A) : outcome (list A) :=
  if (start + length src <=? length v)%nat then Ret (take start v ++ src ++ drop (start + length src) v) else Panic.

Fixpoint mapO {A B} (f : A -> outcome B) (l : list A) : outcome (list B) :=
  match l with
  | [] => Ret []
  | x :: l' => y ← f x; ys ← mapO f l'; Ret (y :: ys)
  end.

(** [?] inside a function that may panic. *)
Notation "'try?' x := r 'in' k" := (match r with Ok x => k | Err e => Ret (Err e) end)
  (at level 200, x name, k at level 200, format "'try?'  x  :=  r  'in' '//' k").

(** ** [r1cs_to_qap.rs] *)

Section qap.
Context {F Dom : Type} `{!FieldOps F, !FieldInv F, !DomainOps F Dom}.

Record ConstraintMatrices := mkMatrices { cm_a : Matrix F; cm_b : Matrix F; cm_c : Matrix F }.

Definition extract_r1cs_matrices (cs : ConstraintSystem F) : option ConstraintMatrices :=
  match cs_r1cs cs with
  | Some (a :: b :: c :: _) => Some (mkMatrices a b c)
  | _ => None
  end.

Definition evaluate_constraint (terms : list (F * nat)) (assignment : list F) : outcome F :=
  foldM (fun sum '(coeff, index) =>
    val ← or_panic (assignment !! index);
    Ret (if fr_eqb coeff fr_one then (sum + val)%fr else (sum + val * coeff)%fr)) fr_zero terms.

(** [v[index] += u_i * coeff] for the terms of a row *)
Definition add_row (u_i : F) (v : list F) (terms : list (F * nat)) : outcome (list F) :=
  foldM (fun v '(coeff, index) => x ← or_panic (v !! index); Ret (<[index := (x + u_i * coeff)%fr]> v)) v terms.

(** The body of the loop over the constraints. *)
Definition map_rows (matrices : ConstraintMatrices) '(a, b, c) '(i, u_i) : outcome (list F * list F * list F) :=
  row_a ← or_panic (cm_a matrices !! i);
  a' ← add_row u_i a row_a;
  row_b ← or_panic (cm_b matrices !! i);
  b' ← add_row u_i b row_b;
  row_c ← or_panic (cm_c matrices !! i);
  c' ← add_row u_i c row_c;
  Ret (a', b', c').

Definition instance_map_with_evaluation (cs : ConstraintSystem F) (t : F) :
    outcome (result (list F * list F * list F * F * nat * nat) SynthesisError) :=
  match extract_r1cs_matrices cs with
  | None => Ret (Err AssignmentMissing)
  | Some matrices =>
    match dom_new (num_constraints cs + num_instance_variables cs) with
    | None => Ret (Err PolynomialDegreeTooLarge)
    | Some domain =>
      let domain_size := dom_size domain in
      let zt := evaluate_vanishing_polynomial domain t in
      let u := evaluate_all_lagrange_coefficients domain t in
      if (num_instance_variables cs =? 0)%nat then Panic
      else
        let qap_num_variables := (num_instance_variables cs - 1 + num_witness_variables cs)%nat in
        let zeros := replicate (qap_num_variables + 1) fr_zero in
        u_rest ← slice_from (num_constraints cs) u;
        u_inputs ← slice_to (num_instance_variables cs) u_rest;
        a0 ← copy_at zeros 0 u_inputs;
        abc ← foldM (map_rows matrices) (a0, zeros, zeros) (take (num_constraints cs) (imap pair u));
        let '(a, b, c) := abc in
        Ret (Ok (a, b, c, zt, qap_num_variables, domain_size))
    end
  end.

Definition witness_map_from_matrices (matrices : ConstraintMatrices) (num_inputs nc : nat) (full_assignment : list F) :
    outcome (result (list F) SynthesisError) :=
  match dom_new (nc + num_inputs) with
  | None => Ret (Err PolynomialDegreeTooLarge)
  | Some domain =>
    let domain_size := dom_size domain in
    let zeros := replicate domain_size fr_zero in
    if (domain_size <? nc)%nat then Panic
    else
      ab ← mapO (fun '(at_i, bt_i) =>
          x ← evaluate_constraint at_i full_assignment;
          y ← evaluate_constraint bt_i full_assignment;
          Ret (x, y)) (take nc (zip (cm_a matrices) (cm_b matrices)));
      a0 ← copy_at zeros 0 ab.*1;
      b0 ← copy_at zeros 0 ab.*2;
      inputs ← slice_to num_inputs full_assignment;
      a1 ← copy_at a0 nc inputs;
      let a2 := dom_ifft domain a1 in
      let b2 := dom_ifft domain b0 in
      coset_domain ← or_panic (dom_get_coset domain GENERATOR);
      let a3 := dom_fft coset_domain a2 in
      let b3 := dom_fft coset_domain b2 in
      let ab := mul_polynomials_in_evaluation_domain domain a3 b3 in
      cs ← mapO (fun i => row ← or_panic (cm_c matrices !! i); evaluate_constraint row full_assignment) (seq 0 nc);
      c0 ← copy_at zeros 0 cs;
      let c1 := dom_ifft domain c0 in
      let c2 := dom_fft coset_domain c1 in
      vanishing_polynomial_over_coset ← or_panic (fr_inverse (evaluate_vanishing_polynomial domain GENERATOR));
      let ab' := zip_with (fun ab_i c_i => (ab_i - c_i) * vanishing_polynomial_over_coset)%fr ab c2 in
      Ret (Ok (dom_ifft coset_domain ab'))
  end.

Definition witness_map (prover : ConstraintSystem F) : outcome (result (list F) SynthesisError) :=
  match extract_r1cs_matrices prover with
  | None => Ret (Err AssignmentMissing)
  | Some matrices =>
    match instance_assignment prover, witness_assignment prover with
    | Some instance, Some witness =>
      witness_map_from_matrices matrices (num_instance_variables prover) (num_constraints prover) (instance ++ witness)
    | _, _ => Ret (Err AssignmentMissing)
    end
  end.

Definition h_query_scalars (max_power : nat) (t zt delta_inverse : F) : list F :=
  map (fun i => zt * delta_inverse * fr_pow t i)%fr (seq 0 max_power).
End qap.
Arguments ConstraintMatrices : clear implicits.

(** ** [generator.rs], [prover.rs], [verifier.rs] and [lib.rs] *)

(** What the setup draws. *)
Record SetupDraws (F G1 G2 : Type) := mkDraws {
  dr_alpha : F;
  dr_beta : F;
  dr_gamma : F;
  dr_delta : F;
  dr_g1 : G1;
  dr_g2 : G2;
  dr_t : F
}.
Arguments mkDraws {F G1 G2}.
Arguments dr_alpha {F G1 G2}.
Arguments dr_beta {F G1 G2}.
Arguments dr_gamma {F G1 G2}.
Arguments dr_delta {F G1 G2}.
Arguments dr_g1 {F G1 G2}.
Arguments dr_g2 {F G1 G2}.
Arguments dr_t {F G1 G2}.

Section groth16.
Context {C F Dom G1 G2 GT ML : Type} `{!FieldOps F, !FieldInv F, !DomainOps F Dom, !Synthesizer C F,
  !GroupOps F G1, !GroupOps F G2, !GroupOps F GT, !MsmOps F G1, !MsmOps F G2, PO : !PairingOps G1 G2 GT ML}.

(** [t] is [domain.sample_element_outside_domain(rng)]. *)
Definition generate_parameters_with_qap (circuit : C) (alpha beta gamma delta : F) (g1_generator : G1) (g2_generator : G2) (t : F) :
    outcome (result (ProvingKey G1 G2) SynthesisError) :=
  try? cs := synthesize Setup circuit in
  match dom_new (Dom:=Dom) (num_constraints cs + num_instance_variables cs) with
  | None => Ret (Err PolynomialDegreeTooLarge)
  | Some _ =>
    let num_instance := num_instance_variables cs in
    let! r := instance_map_with_evaluation (Dom:=Dom) cs t in
    let '(a, b, c, zt, qap_num_variables, m_raw) := r in
    let nonzero v := length (List.filter (fun x => negb (fr_eqb x fr_zero)) (take qap_num_variables v)) in
    let non_zero_a := nonzero a in
    let non_zero_b := nonzero b in
    match fr_inverse gamma, fr_inverse delta with
    | Some gamma_inverse, Some delta_inverse =>
      let combine inv '(x, y, z) := ((beta * x + alpha * y + z) * inv)%fr in
      a_in ← slice_to num_instance a; b_in ← slice_to num_instance b; c_in ← slice_to num_instance c;
      let gamma_abc := map (combine gamma_inverse) (zip (zip a_in b_in) c_in) in
      a_aux ← slice_from num_instance a; b_aux ← slice_from num_instance b; c_aux ← slice_from num_instance c;
      let l := map (combine delta_inverse) (zip (zip a_aux b_aux) c_aux) in
      let b_g2_query := g_batch_mul g2_generator non_zero_b b in
      let num_scalars := (non_zero_a + non_zero_b + qap_num_variables + m_raw + 1)%nat in
      let g1_table := g_batch_mul g1_generator num_scalars in
      if (m_raw =? 0)%nat then Panic
      else
        let h_scalars := h_query_scalars (m_raw - 1) t zt delta_inverse in
        let vk := mkVerifyingKey (g_mul g1_generator alpha) (g_mul g2_generator beta) (g_mul g2_generator gamma)
          (g_mul g2_generator delta) (g1_table gamma_abc) in
        Ret (Ok (mkProvingKey vk (g_mul g1_generator beta) (g_mul g1_generator delta) (g1_table a) (g1_table b)
          b_g2_query (g1_table h_scalars) (g1_table l)))
    | _, _ => Ret (Err Unsatisfiable)
    end
  end.

Definition generate_random_parameters_with_reduction (circuit : C) (dr : SetupDraws F G1 G2) :
    outcome (result (ProvingKey G1 G2) SynthesisError) :=
  generate_parameters_with_qap circuit (dr_alpha dr) (dr_beta dr) (dr_gamma dr) (dr_delta dr) (dr_g1 dr) (dr_g2 dr) (dr_t dr).

Definition calculate_coeff {G} `{!GroupOps F G, !MsmOps F G} (initial : G) (query : list G) (vk_param : G) (assignment : list F) : outcome G :=
  el ← or_panic (query !! 0%nat);
  rest ← slice_from 1 query;
  let acc := g_msm rest assignment in
  Ret (g_add (g_add (g_add initial el) acc) vk_param).

Definition create_proof_with_assignment (pk : ProvingKey G1 G2) (r s : F) (h input_assignment aux_assignment : list F) :
    outcome (result (Proof G1 G2) SynthesisError) :=
  let h_acc := g_msm (h_query pk) h in
  let l_aux_acc := g_msm (l_query pk) aux_assignment in
  let r_s_delta_g1 := g_mul (delta_g1 pk) (r * s)%fr in
  let assignment := input_assignment ++ aux_assignment in
  let r_g1 := g_mul (delta_g1 pk) r in
  g_a ← calculate_coeff r_g1 (a_query pk) (alpha_g1 (pk_vk pk)) assignment;
  let s_g_a := g_mul g_a s in
  g1_b ← (if negb (fr_eqb r fr_zero) then
            let s_g1 := g_mul (delta_g1 pk) s in
            calculate_coeff s_g1 (b_g1_query pk) (beta_g1 pk) assignment
          else Ret g_zero);
  let s_g2 := g_mul (delta_g2 (pk_vk pk)) s in
  g2_b ← calculate_coeff s_g2 (b_g2_query pk) (beta_g2 (pk_vk pk)) assignment;
  let r_g1_b := g_mul g1_b r in
  let g_c := g_add (g_add (g_add (g_add s_g_a r_g1_b) (g_neg r_s_delta_g1)) l_aux_acc) h_acc in
  Ret (Ok (mkProof g_a g2_b g_c)).

Definition create_proof_with_reduction_and_matrices (pk : ProvingKey G1 G2) (r s : F) (matrices : ConstraintMatrices F)
    (num_inputs nc : nat) (full_assignment : list F) : outcome (result (Proof G1 G2) SynthesisError) :=
  let! h := witness_map_from_matrices (Dom:=Dom) matrices num_inputs nc full_assignment in
  upto ← slice_to num_inputs full_assignment;
  input_assignment ← slice_from 1 upto;
  aux_assignment ← slice_from num_inputs full_assignment;
  create_proof_with_assignment pk r s h input_assignment aux_assignment.

Definition create_proof_with_reduction (circuit : C) (pk : ProvingKey G1 G2) (r s : F) : outcome (result (Proof G1 G2) SynthesisError) :=
  try? cs := synthesize Prove circuit in
  let! h := witness_map (Dom:=Dom) cs in
  match instance_assignment cs, witness_assignment cs with
  | Some instance, Some witness =>
    inputs ← slice_from 1 instance;
    create_proof_with_assignment pk r s h inputs witness
  | _, _ => Ret (Err AssignmentMissing)
  end.

Definition create_proof_with_reduction_no_zk (circuit : C) (pk : ProvingKey G1 G2) : outcome (result (Proof G1 G2) SynthesisError) :=
  create_proof_with_reduction circuit pk fr_zero fr_zero.

Definition create_random_proof_with_reduction (circuit : C) (pk : ProvingKey G1 G2) (draws : F * F) :
    outcome (result (Proof G1 G2) SynthesisError) :=
  let '(r, s) := draws in create_proof_with_reduction circuit pk r s.

(** Draws pairs until both are nonzero; [None] when the draws given end first. *)
Fixpoint rerandomization_factors (draws : list (F * F)) : option (F * F) :=
  match draws with
  | [] => None
  | (r1, r2) :: rest => if fr_eqb r1 fr_zero || fr_eqb r2 fr_zero then rerandomization_factors rest else Some (r1, r2)
  end.

Definition rerandomize_proof (vk : VerifyingKey G1 G2) (proof : Proof G1 G2) (draws : list (F * F)) : outcome (option (Proof G1 G2)) :=
  match rerandomization_factors draws with
  | None => Ret None
  | Some (r1, r2) =>
    inv ← or_panic (fr_inverse r1);
    let new_a := g_mul (proof_a proof) inv in
    let new_b := g_add (g_mul (proof_b proof) r1) (g_mul (delta_g2 vk) (r1 * r2)%fr) in
    let new_c := g_add (proof_c proof) (g_mul (proof_a proof) r2) in
    Ret (Some (mkProof new_a new_b new_c))
  end.

Definition prepare_verifying_key (vk : VerifyingKey G1 G2) : PreparedVerifyingKey G1 G2 GT :=
  mkPreparedVerifyingKey vk (pairing (alpha_g1 vk) (beta_g2 vk)) (g_neg (gamma_g2 vk)) (g_neg (delta_g2 vk)).

Definition prepare_inputs (pvk : PreparedVerifyingKey G1 G2 GT) (public_inputs : list F) : result G1 SynthesisError :=
  match gamma_abc_g1 (pvk_vk pvk) with
  | g_ic :: rest =>
    if (length public_inputs =? length rest)%nat then
      Ok (fold_left (fun acc '(i, b) => g_add acc (g_mul b i)) (zip public_inputs rest) g_ic)
    else Err Unsatisfiable
  | [] => Err Unsatisfiable
  end.

Definition verify_proof_with_prepared_inputs (pvk : PreparedVerifyingKey G1 G2 GT) (proof : Proof G1 G2) (prepared_inputs : G1) :
    result bool SynthesisError :=
  let qap := multi_miller_loop [proof_a proof; prepared_inputs; proof_c proof]
    [proof_b proof; gamma_g2_neg_pc pvk; delta_g2_neg_pc pvk] in
  match final_exponentiation qap with
  | None => Err Unsatisfiable
  | Some test => Ok (gt_eqb test (alpha_g1_beta_g2 pvk))
  end.

Definition groth16_verify_proof (pvk : PreparedVerifyingKey G1 G2 GT) (proof : Proof G1 G2) (public_inputs : list F) : result bool SynthesisError :=
  let? prepared_inputs := prepare_inputs pvk public_inputs in
  verify_proof_with_prepared_inputs pvk proof prepared_inputs.

(** The [SNARK] trait. *)
Definition circuit_specific_setup (circuit : C) (dr : SetupDraws F G1 G2) :
    outcome (result (ProvingKey G1 G2 * VerifyingKey G1 G2) SynthesisError) :=
  let! pk := generate_random_parameters_with_reduction circuit dr in Ret (Ok (pk, pk_vk pk)).

Definition groth16_prove (pk : ProvingKey G1 G2) (circuit : C) (draws : F * F) : outcome (result (Proof G1 G2) SynthesisError) :=
  create_random_proof_with_reduction circuit pk draws.

Definition process_vk (vk : VerifyingKey G1 G2) : result (PreparedVerifyingKey G1 G2 GT) SynthesisError := Ok (prepare_verifying_key vk).

Definition verify_with_processed_vk (pvk : PreparedVerifyingKey G1 G2 GT) (x : list F) (proof : Proof G1 G2) : result bool SynthesisError :=
  groth16_verify_proof pvk proof x.
End groth16.
