(* ===== verification/Groth16Facts.v ===== *)
(** * Groth16: completeness

    What the definitions of [Groth16.v] compute: the setup and the prover
    evaluate one quadratic program, the quotient the prover interpolates on a
    coset is exact, and hence the keys of a setup accept every proof of a
    satisfied system.  A proof can be rerandomized by anybody. *)

From S2P Require Import Prelude Field Prime Poly Groth16.
Open Scope Z_scope.

(** ** Groups *)

Section groups.
Context {F G : Type} `{!FieldOps F, LAWS : !FieldLaws F, !GroupOps F G, !GroupLaws F G}.
Add Ring fr_ring : (fr_ring_theory (F:=F)).

Lemma g_add_cancel (p q r : G) : g_add p q = g_add p r -> q = r.
Proof.
  intros H. assert (Hz : forall x : G, g_add (g_neg p) (g_add p x) = x).
  { intros x. rewrite g_add_assoc, (g_add_comm (g_neg p)), g_add_neg, g_add_comm. apply g_add_zero. }
  by rewrite <- (Hz q), H, Hz.
Qed.

Lemma g_mul_zero (p : G) : g_mul p (fr_zero (F:=F)) = g_zero.
Proof.
  apply (g_add_cancel (g_mul p fr_zero)). rewrite g_add_zero, <- g_mul_add. f_equal. ring.
Qed.

Lemma g_mul_neg (p : G) (a : F) : g_mul p (fr_neg a) = g_neg (g_mul p a).
Proof.
  apply (g_add_cancel (g_mul p a)). rewrite g_add_neg, <- g_mul_add, <- (g_mul_zero p). f_equal. ring.
Qed.

Lemma g_neg_mul (p : G) : g_neg p = g_mul p (fr_neg (fr_one (F:=F))).
Proof. by rewrite g_mul_neg, g_mul_one. Qed.

(** A group element as a multiple of a generator. *)
Lemma g_sum_multiples (p : G) (ks ls : list F) : g_sum (zip_with g_mul (map (g_mul p) ks) ls) = g_mul p (dot ks ls).
Proof.
  revert ls; induction ks as [|k ks IH]; intros [|l ls]; try (symmetry; apply g_mul_zero).
  cbn [map zip_with]. rewrite dot_cons, g_mul_add, <- IH, g_mul_mul. done.
Qed.

Lemma msm_multiples `{!MsmOps F G, !MsmLaws F G} (p : G) (ks ls : list F) : g_msm (map (g_mul p) ks) ls = g_mul p (dot ks ls).
Proof. rewrite g_msm_spec. apply g_sum_multiples. Qed.
End groups.

(** ** Slices *)

Lemma mapO_Ret {A B} (f : A -> outcome B) (g : A -> B) l : (forall x, x ∈ l -> f x = Ret (g x)) -> mapO f l = Ret (map g l).
Proof.
  induction l as [|x l IH]; intros Hf; [done|]. cbn [mapO]. rewrite Hf by left. cbn. rewrite IH; [done|].
  intros y Hy. apply Hf. by right.
Qed.

Lemma ret_bind {A B} (a : A) (f : A -> outcome B) : (Ret a ≫= f) = f a.
Proof. done. Qed.

Lemma slice_from_Ret {A} n (v : list A) : (n <= length v)%nat -> slice_from n v = Ret (drop n v).
Proof. intros. unfold slice_from. by rewrite (proj2 (Nat.leb_le _ _)). Qed.

Lemma slice_to_Ret {A} n (v : list A) : (n <= length v)%nat -> slice_to n v = Ret (take n v).
Proof. intros. unfold slice_to. by rewrite (proj2 (Nat.leb_le _ _)). Qed.

Lemma copy_at_Ret {A} (v : list A) k src : (k + length src <= length v)%nat ->
  copy_at v k src = Ret (take k v ++ src ++ drop (k + length src) v).
Proof. intros. unfold copy_at. by rewrite (proj2 (Nat.leb_le _ _)). Qed.

(** ** The quadratic program *)

Section program.
Context {F Dom : Type} `{!FieldOps F, LAWS : !FieldLaws F, !FieldInv F, !FieldInvLaws F, !DomainOps F Dom, !DomainLaws F Dom}.
Add Ring fr_ring2 : (fr_ring_theory (F:=F)).
Implicit Types (z u v : list F) (m : Matrix F).

(** The value of a row at an assignment. *)
Definition row_value (row : list (F * nat)) z : F :=
  fr_sum (map (fun '(coeff, i) => coeff * default fr_zero (z !! i))%fr row).

Definition row_below (n : nat) (row : list (F * nat)) : Prop := Forall (fun '(_, i) => (i < n)%nat) row.

(** The system has the shape [num_constraints], [num_instance_variables] and
    [num_witness_variables] promise. *)
Record well_formed (cs : ConstraintSystem F) (mx : ConstraintMatrices F) : Prop := {
  wf_matrices : extract_r1cs_matrices cs = Some mx;
  wf_instance : (0 < num_instance_variables cs)%nat;
  wf_rows : length (cm_a mx) = num_constraints cs /\ length (cm_b mx) = num_constraints cs /\ length (cm_c mx) = num_constraints cs;
  wf_below : Forall (row_below (num_instance_variables cs + num_witness_variables cs)) (cm_a mx) /\
    Forall (row_below (num_instance_variables cs + num_witness_variables cs)) (cm_b mx) /\
    Forall (row_below (num_instance_variables cs + num_witness_variables cs)) (cm_c mx)
}.

(** Every constraint holds of the assignment [z]. *)
Definition satisfied (mx : ConstraintMatrices F) z : Prop :=
  forall i ra rb rc, cm_a mx !! i = Some ra -> cm_b mx !! i = Some rb -> cm_c mx !! i = Some rc ->
    (row_value ra z * row_value rb z)%fr = row_value rc z.

Lemma evaluate_constraint_from row z acc : row_below (length z) row ->
  foldM (fun sum '(coeff, index) => val ← or_panic (z !! index);
    Ret (if fr_eqb coeff fr_one then (sum + val)%fr else (sum + val * coeff)%fr)) acc row = Ret (acc + row_value row z)%fr.
Proof.
  revert acc; induction row as [|[k i] row IH]; intros acc Hrow.
  { cbn [foldM]. f_equal. unfold row_value, fr_sum. cbn [map foldr]. ring. }
  apply Forall_cons in Hrow as [Hi Hrow]. cbn [foldM]. destruct (lookup_lt_is_Some_2 z i Hi) as (v & Hv). rewrite Hv. cbn [or_panic mbind outcome_bind].
  rewrite IH by done. f_equal. unfold row_value, fr_sum. cbn [map foldr]. rewrite Hv. change (default fr_zero (Some v)) with v.
  destruct (fr_eqb k fr_one) eqn:Ek; [apply fr_eqb_spec in Ek as ->|]; ring.
Qed.

Lemma evaluate_constraint_spec row z : row_below (length z) row -> evaluate_constraint row z = Ret (row_value row z).
Proof. intros Hr. unfold evaluate_constraint. rewrite evaluate_constraint_from by done. f_equal. ring. Qed.

Lemma dot_insert v z i x (k : F) : v !! i = Some x -> length v = length z ->
  dot (<[i := (x + k)%fr]> v) z = (dot v z + k * default fr_zero (z !! i))%fr.
Proof.
  revert z i; induction v as [|a v IH]; intros [|b z] i Hi Hl; try done. destruct i as [|i]; cbn in Hi.
  - injection Hi as ->. change (<[0%nat := (x + k)%fr]> (x :: v)) with ((x + k)%fr :: v). rewrite !dot_cons.
    change (default fr_zero ((b :: z) !! 0%nat)) with b. ring.
  - change (<[S i := (x + k)%fr]> (a :: v)) with (a :: <[i := (x + k)%fr]> v). rewrite !dot_cons, (IH z i Hi) by (by injection Hl).
    change ((b :: z) !! S i) with (z !! i). ring.
Qed.

(** Adding a row to a vector adds its value to the inner products. *)
Lemma add_row_spec (k : F) v row : row_below (length v) row ->
  exists v', add_row k v row = Ret v' /\ length v' = length v /\
    forall z, length z = length v -> dot v' z = (dot v z + k * row_value row z)%fr.
Proof.
  unfold add_row. revert v; induction row as [|[c i] row IH]; intros v Hrow.
  { exists v. split_and!; [done..|]. intros z _. unfold row_value, fr_sum. cbn [map foldr]. ring. }
  apply Forall_cons in Hrow as [Hi Hrow]. cbn [foldM]. destruct (lookup_lt_is_Some_2 v i Hi) as (x & Hx). rewrite Hx. cbn [or_panic mbind outcome_bind].
  destruct (IH (<[i := (x + k * c)%fr]> v)) as (v' & Hv' & Hl & Hd). { unfold row_below. by rewrite length_insert. }
  rewrite length_insert in Hl, Hd. exists v'. split_and!; [done..|]. intros z Hz.
  rewrite Hd, (dot_insert v z i x) by done. unfold row_value, fr_sum. cbn [map foldr]. ring.
Qed.

(** The rows of a matrix, weighted by [u]. *)
Lemma dot_rows_cons (k : F) u row m z : dot (k :: u) (map (fun r => row_value r z) (row :: m)) = (k * row_value row z + dot u (map (fun r => row_value r z) m))%fr.
Proof. done. Qed.

Lemma map_rows_spec (mx : ConstraintMatrices F) n us a b c k :
  length a = n -> length b = n -> length c = n ->
  Forall (row_below n) (cm_a mx) -> Forall (row_below n) (cm_b mx) -> Forall (row_below n) (cm_c mx) ->
  (k + length us <= length (cm_a mx))%nat -> (k + length us <= length (cm_b mx))%nat -> (k + length us <= length (cm_c mx))%nat ->
  exists a' b' c', foldM (map_rows mx) (a, b, c) (imap (fun i x => (k + i, x)%nat) us) = Ret (a', b', c') /\
    length a' = n /\ length b' = n /\ length c' = n /\ forall z, length z = n ->
      dot a' z = (dot a z + dot us (map (fun r => row_value r z) (drop k (cm_a mx))))%fr /\
      dot b' z = (dot b z + dot us (map (fun r => row_value r z) (drop k (cm_b mx))))%fr /\
      dot c' z = (dot c z + dot us (map (fun r => row_value r z) (drop k (cm_c mx))))%fr.
Proof.
  intros Ha Hb Hc Wa Wb Wc. revert a b c k Ha Hb Hc; induction us as [|x us IH]; intros a b c k Ha Hb Hc La Lb Lc.
  { exists a, b, c. split_and!; [done..|]. intros z _. rewrite !dot_nil. split_and!; ring. }
  cbn [length] in La, Lb, Lc. cbn [imap foldM map_rows]. rewrite Nat.add_0_r.
  destruct (lookup_lt_is_Some_2 (cm_a mx) k ltac:(lia)) as (ra & Hra). destruct (lookup_lt_is_Some_2 (cm_b mx) k ltac:(lia)) as (rb & Hrb).
  destruct (lookup_lt_is_Some_2 (cm_c mx) k ltac:(lia)) as (rc & Hrc). rewrite Hra, Hrb, Hrc. cbn [or_panic mbind outcome_bind].
  pose proof (Forall_lookup_1 _ _ _ _ Wa Hra) as Wra. pose proof (Forall_lookup_1 _ _ _ _ Wb Hrb) as Wrb. pose proof (Forall_lookup_1 _ _ _ _ Wc Hrc) as Wrc.
  rewrite <- Ha in Wra. rewrite <- Hb in Wrb. rewrite <- Hc in Wrc.
  destruct (add_row_spec x a ra Wra) as (a1 & -> & La1 & Da). cbn [mbind outcome_bind]. destruct (add_row_spec x b rb Wrb) as (b1 & -> & Lb1 & Db). cbn [mbind outcome_bind].
  destruct (add_row_spec x c rc Wrc) as (c1 & -> & Lc1 & Dc). cbn [mbind outcome_bind].
  destruct (IH a1 b1 c1 (S k)) as (a' & b' & c' & Hf & L1 & L2 & L3 & Hd); [congruence|congruence|congruence|lia..|].
  exists a', b', c'. split_and!; [|done..|].
  { rewrite <- Hf. f_equal. apply imap_ext. intros i y _. cbn. f_equal. lia. }
  intros z Hz. destruct (Hd z Hz) as (-> & -> & ->).
  rewrite Da, Db, Dc, (drop_S _ _ _ Hra), (drop_S _ _ _ Hrb), (drop_S _ _ _ Hrc) by congruence.
  cbn [map]. rewrite !dot_cons. split_and!; ring.
Qed.

(** The columns the setup evaluates. *)
Definition vec_a (cs : ConstraintSystem F) (mx : ConstraintMatrices F) (n : nat) z : list F :=
  map (fun r => row_value r z) (cm_a mx) ++ take (num_instance_variables cs) z ++
  replicate (n - num_constraints cs - num_instance_variables cs) fr_zero.

Definition vec_of (m : Matrix F) (n : nat) z : list F := map (fun r => row_value r z) m ++ replicate (n - length m) fr_zero.

Lemma length_vec_a cs mx n z : well_formed cs mx -> (num_constraints cs + num_instance_variables cs <= n)%nat ->
  (num_instance_variables cs <= length z)%nat -> length (vec_a cs mx n z) = n.
Proof.
  intros [_ _ (Hl & _) _] Hn Hz. unfold vec_a. rewrite !length_app, length_map, length_take, length_replicate. lia.
Qed.

Lemma length_vec_of m n z : (length m <= n)%nat -> length (vec_of m n z) = n.
Proof. intros. unfold vec_of. rewrite length_app, length_map, length_replicate. lia. Qed.

Lemma dot_zeros_r l n : dot l (replicate n fr_zero) = fr_zero.
Proof. rewrite dot_comm. apply dot_zeros_l. Qed.

(** Lagrange coefficients against a padded vector. *)
Lemma dot_vec_of u m n z : length u = n -> (length m <= n)%nat -> dot u (vec_of m n z) = dot (take (length m) u) (map (fun r => row_value r z) m).
Proof.
  intros Hu Hm. rewrite <- (take_drop (length m) u) at 1. unfold vec_of. rewrite dot_app by (rewrite length_take, length_map; lia).
  rewrite dot_zeros_r. ring.
Qed.

Lemma dot_vec_a cs mx u n z : well_formed cs mx -> length u = n -> (num_constraints cs + num_instance_variables cs <= n)%nat ->
  (num_instance_variables cs <= length z)%nat ->
  dot u (vec_a cs mx n z) = (dot (take (num_constraints cs) u) (map (fun r => row_value r z) (cm_a mx)) +
    dot (take (num_instance_variables cs) (drop (num_constraints cs) u)) (take (num_instance_variables cs) z))%fr.
Proof.
  intros [_ _ (Hl & _) _] Hu Hn Hz. rewrite <- (take_drop (num_constraints cs) u) at 1. unfold vec_a.
  rewrite dot_app by (rewrite length_take, length_map; lia). set (w := drop _ u).
  rewrite <- (take_drop (num_instance_variables cs) w) at 1. rewrite dot_app by (unfold w; rewrite !length_take, length_drop; lia).
  rewrite dot_zeros_r. ring.
Qed.

Lemma take_imap_pair {A} n (u : list A) : take n (imap pair u) = imap (fun i x => (0 + i, x)%nat) (take n u).
Proof.
  apply list_eq. intros i. rewrite lookup_take, !list_lookup_imap, lookup_take. case_decide; [|done]. by destruct (u !! i).
Qed.

(** The columns of the setup, against any assignment, are the values at [t] of
    the polynomials through the rows. *)
Lemma instance_map_spec cs mx (d : Dom) t : well_formed cs mx ->
  dom_new (num_constraints cs + num_instance_variables cs) = Some d ->
  exists a b c, instance_map_with_evaluation (Dom:=Dom) cs t = Ret (Ok (a, b, c, (fr_pow t (dom_size d) - fr_one)%fr,
      (num_instance_variables cs - 1 + num_witness_variables cs)%nat, dom_size d)) /\
    length a = (num_instance_variables cs + num_witness_variables cs)%nat /\ length b = length a /\ length c = length a /\
    forall z, length z = length a ->
      dot a z = peval (dom_ifft d (vec_a cs mx (dom_size d) z)) t /\
      dot b z = peval (dom_ifft d (vec_of (cm_b mx) (dom_size d) z)) t /\
      dot c z = peval (dom_ifft d (vec_of (cm_c mx) (dom_size d) z)) t.
Proof.
  intros Hwf Hd. pose proof Hwf as [Hm Hi (La & Lb & Lc) (Ba & Bb & Bc)]. destruct (dom_new_size _ _ Hd) as [Hn _].
  set (ni := num_instance_variables cs) in *. set (nw := num_witness_variables cs) in *. set (nc := num_constraints cs) in *.
  unfold instance_map_with_evaluation. rewrite Hm. fold ni nw nc. rewrite Hd, (vanishing_spec _ _ _ Hd).
  pose proof (lagrange_length _ _ t Hd) as Hu. set (u := evaluate_all_lagrange_coefficients d t) in *.
  destruct (Nat.eqb_spec ni 0); [lia|]. replace (ni - 1 + nw + 1)%nat with (ni + nw)%nat by lia.
  rewrite slice_from_Ret by lia. rewrite ret_bind. rewrite slice_to_Ret by (rewrite length_drop; lia). rewrite ret_bind.
  set (w := take ni (drop nc u)). assert (Hw : length w = ni) by (unfold w; rewrite length_take, length_drop; lia).
  rewrite copy_at_Ret by (rewrite length_replicate, Hw; lia). rewrite ret_bind. rewrite take_0, app_nil_l, Hw, take_imap_pair, drop_replicate.
  replace (ni + nw - (0 + ni))%nat with nw by lia.
  destruct (map_rows_spec mx (ni + nw) (take nc u) (w ++ replicate nw fr_zero) (replicate (ni + nw) fr_zero) (replicate (ni + nw) fr_zero) 0)
    as (a & b & c & Hf & Ha & Hb & Hc & Hdot).
  1-3, 7-9: rewrite ?length_app, ?length_replicate, ?length_take, ?Hw; lia.
  1-3: done.
  rewrite Hf. rewrite ret_bind. exists a, b, c. split_and!; [done|lia..|].
  intros z Hz. destruct (Hdot z ltac:(lia)) as (-> & -> & ->). rewrite !drop_0.
  assert (Hln : forall v, length v = dom_size d -> peval (dom_ifft d v) t = dot u v) by (intros; symmetry; by eapply lagrange_spec).
  rewrite !Hln by (apply length_vec_of || apply length_vec_a; lia || done).
  rewrite (dot_vec_a cs mx) by (done || (fold ni; lia)). rewrite !dot_vec_of by lia. rewrite Lb, Lc, !dot_zeros_l. fold nc ni. fold w.
  rewrite <- (take_drop ni z) at 1. rewrite dot_app by (rewrite Hw, length_take; lia). rewrite dot_zeros_l. split_and!; ring.
Qed.

(** ** The quotient *)

Lemma vec_of_lookup m n z i x : vec_of m n z !! i = Some x ->
  (exists r, m !! i = Some r /\ x = row_value r z) \/ (length m <= i)%nat /\ x = fr_zero.
Proof.
  unfold vec_of. intros [Hi|[Hl Hi]]%lookup_app_Some.
  - left. rewrite list_lookup_fmap in Hi. apply fmap_Some in Hi as (r & Hr & ->). by exists r.
  - rewrite length_map in Hl. apply lookup_replicate in Hi as [-> _]. by right.
Qed.

(** The polynomials meet on the domain. *)
Lemma vectors_satisfied cs mx n z i a b c : well_formed cs mx -> satisfied mx z ->
  vec_a cs mx n z !! i = Some a -> vec_of (cm_b mx) n z !! i = Some b -> vec_of (cm_c mx) n z !! i = Some c -> (a * b)%fr = c.
Proof.
  intros [_ _ (La & Lb & Lc) _] Hsat Ha [(rb & Hrb & ->)|[Hb ->]]%vec_of_lookup [(rc & Hrc & ->)|[Hc ->]]%vec_of_lookup.
  - apply lookup_lt_Some in Hrb as Hi. unfold vec_a in Ha. rewrite lookup_app_l in Ha by (rewrite length_map; lia).
    rewrite list_lookup_fmap in Ha. apply fmap_Some in Ha as (ra & Hra & ->). by eapply Hsat.
  - apply lookup_lt_Some in Hrb. lia.
  - apply lookup_lt_Some in Hrc. lia.
  - ring.
Qed.

Lemma map_lookup_eq {A B} (f : A -> B) l k i x : map f l = k -> l !! i = Some x -> k !! i = Some (f x).
Proof. intros <- Hx. by rewrite list_lookup_fmap, Hx. Qed.

(** The product minus the third polynomial, on the domain and off it. *)
Lemma quotient_of cs mx (d : Dom) z : well_formed cs mx -> satisfied mx z -> (num_instance_variables cs <= length z)%nat ->
  dom_new (num_constraints cs + num_instance_variables cs) = Some d ->
  exists hi, (length hi <= dom_size d - 1)%nat /\ forall x,
    (peval (dom_ifft d (vec_a cs mx (dom_size d) z)) x * peval (dom_ifft d (vec_of (cm_b mx) (dom_size d) z)) x -
      peval (dom_ifft d (vec_of (cm_c mx) (dom_size d) z)) x)%fr = ((fr_pow x (dom_size d) - fr_one) * peval hi x)%fr.
Proof.
  intros Hwf Hsat Hz Hd. pose proof Hwf as [_ _ (La & Lb & Lc) _]. destruct (dom_new_size _ _ Hd) as [Hn H0]. set (n := dom_size d) in *.
  set (va := vec_a cs mx n z). set (vb := vec_of (cm_b mx) n z). set (vc := vec_of (cm_c mx) n z).
  assert (Ha : length va = n) by by apply length_vec_a. assert (Hb : length vb = n) by (apply length_vec_of; lia).
  assert (Hc : length vc = n) by (apply length_vec_of; lia).
  set (P := padd (pmul (dom_ifft d va) (dom_ifft d vb)) (pscale (fr_neg fr_one) (dom_ifft d vc))).
  assert (HP : forall x, peval P x = (peval (dom_ifft d va) x * peval (dom_ifft d vb) x - peval (dom_ifft d vc) x)%fr).
  { intros x. unfold P. rewrite peval_padd, peval_pmul, peval_pscale. ring. }
  assert (Hl : (length P <= 2 * n - 1)%nat).
  { unfold P. rewrite length_padd. unfold pscale. rewrite length_map, (dom_ifft_length d vc) by done.
    pose proof (length_pmul (dom_ifft d va) (dom_ifft d vb)) as Hp. rewrite !dom_ifft_length in Hp by done. fold n in Hp.
    assert (dom_ifft d vb <> []) by (intros E; pose proof (dom_ifft_length d vb Hb) as H1; rewrite E in H1; cbn [length] in H1; fold n in H1; lia).
    specialize (Hp ltac:(done)). lia. }
  exists (drop n P). split; [rewrite length_drop; lia|]. intros x. rewrite <- HP.
  pose proof (quotient_exact (dom_elements d) P (dom_elements_distinct d)) as Hq. rewrite dom_elements_length in Hq. fold n in Hq.
  apply Hq; [intros y Hy; by eapply dom_new_roots|lia|]. intros y (i & Hy)%list_elem_of_lookup. rewrite HP.
  pose proof (map_lookup_eq _ _ _ _ _ (dom_ifft_spec d va Ha) Hy) as Ea. pose proof (map_lookup_eq _ _ _ _ _ (dom_ifft_spec d vb Hb) Hy) as Eb.
  pose proof (map_lookup_eq _ _ _ _ _ (dom_ifft_spec d vc Hc) Hy) as Ec. rewrite (vectors_satisfied cs mx n z i _ _ _ Hwf Hsat Ea Eb Ec). ring.
Qed.

(** Interpolating the values of a short polynomial gives it back. *)
Lemma ifft_of_values (d : Dom) p : (length p <= dom_size d)%nat ->
  dom_ifft d (map (peval p) (dom_elements d)) = p ++ replicate (dom_size d - length p) fr_zero.
Proof.
  intros Hp. assert (Hl : length (map (peval p) (dom_elements d)) = dom_size d) by (rewrite length_map; apply dom_elements_length).
  apply (interpolation_unique (dom_elements d)); [apply dom_elements_distinct|..]; rewrite ?dom_elements_length.
  - by apply dom_ifft_length.
  - rewrite length_app, length_replicate. lia.
  - intros x (i & Hx)%list_elem_of_lookup. pose proof (map_lookup_eq _ _ _ _ _ (dom_ifft_spec d _ Hl) Hx) as H1.
    rewrite list_lookup_fmap, Hx in H1. cbn [fmap option_fmap option_map] in H1. injection H1 as H1. rewrite <- H1, peval_app, peval_zeros. ring.
Qed.

Lemma zip_with_map3 {A} (f g k : A -> F) (op : F -> F -> F) l : zip_with op (zip_with fr_mul (map f l) (map g l)) (map k l) = map (fun x => op (f x * g x)%fr (k x)) l.
Proof. induction l as [|x l IH]; [done|]. cbn [map zip_with]. by rewrite IH. Qed.

(** The prover's rows are the vectors of the program. *)
Lemma rows_a_spec cs mx z n : well_formed cs mx -> length z = (num_instance_variables cs + num_witness_variables cs)%nat ->
  (num_constraints cs + num_instance_variables cs <= n)%nat ->
  mapO (fun '(at_i, bt_i) => x ← evaluate_constraint at_i z; y ← evaluate_constraint bt_i z; Ret (x, y))
    (take (num_constraints cs) (zip (cm_a mx) (cm_b mx))) =
  Ret (zip (map (fun r => row_value r z) (cm_a mx)) (map (fun r => row_value r z) (cm_b mx))).
Proof.
  intros [_ _ (La & Lb & Lc) (Ba & Bb & _)] Hz Hn. rewrite take_ge by (rewrite length_zip_with; lia).
  rewrite (mapO_Ret _ (fun '(ra, rb) => (row_value ra z, row_value rb z))).
  - f_equal. clear. revert mx; intros [ma mb mc]; cbn. revert mb; induction ma as [|ra ma IH]; intros [|rb mb]; cbn [zip_with map]; [done..|]. f_equal. apply IH.
  - intros [ra rb] Hin. apply elem_of_zip_l in Hin as H1. apply elem_of_zip_r in Hin as H2.
    rewrite Forall_forall in Ba, Bb. rewrite !evaluate_constraint_spec by (rewrite Hz; auto). done.
Qed.

Lemma rows_c_spec cs mx z : well_formed cs mx -> length z = (num_instance_variables cs + num_witness_variables cs)%nat ->
  mapO (fun i => row ← or_panic (cm_c mx !! i); evaluate_constraint row z) (seq 0 (num_constraints cs)) =
  Ret (map (fun r => row_value r z) (cm_c mx)).
Proof.
  intros [_ _ (_ & _ & Lc) (_ & _ & Bc)] Hz. rewrite (mapO_Ret _ (fun i => row_value (default [] (cm_c mx !! i)) z)).
  - f_equal. rewrite <- Lc. clear. induction (cm_c mx) as [|r m IH]; [done|]. cbn [length seq map]. f_equal. rewrite <- seq_shift, map_map. exact IH.
  - intros i Hi%elem_of_seq. destruct (lookup_lt_is_Some_2 (cm_c mx) i ltac:(lia)) as (r & Hr). rewrite Hr. cbn [or_panic mbind outcome_bind].
    apply evaluate_constraint_spec. rewrite Hz. by eapply Forall_lookup_1.
Qed.

Context (Hgen : generator_outside F Dom).

Lemma vec_a_copied cs mx n z : well_formed cs mx -> (num_constraints cs + num_instance_variables cs <= n)%nat ->
  (num_instance_variables cs <= length z)%nat ->
  let v := map (fun r => row_value r z) (cm_a mx) ++ replicate (n - length (cm_a mx)) fr_zero in
  let inputs := take (num_instance_variables cs) z in
  take (num_constraints cs) v ++ inputs ++ drop (num_constraints cs + length inputs) v = vec_a cs mx n z.
Proof.
  intros [_ _ (La & _ & _) _] Hn Hz. cbv zeta. unfold vec_a. rewrite length_take, Nat.min_l by lia.
  rewrite take_app_le, take_ge by (rewrite length_map; lia). rewrite drop_app_ge, drop_replicate, length_map by (rewrite length_map; lia).
  do 3 f_equal. lia.
Qed.

(** The prover's polynomial is the quotient; its last coefficient is zero. *)
Lemma witness_map_spec cs mx (d : Dom) z : well_formed cs mx -> satisfied mx z ->
  length z = (num_instance_variables cs + num_witness_variables cs)%nat ->
  dom_new (num_constraints cs + num_instance_variables cs) = Some d ->
  exists h, witness_map_from_matrices (Dom:=Dom) mx (num_instance_variables cs) (num_constraints cs) z = Ret (Ok h) /\ length h = dom_size d /\
    forall x, (peval (dom_ifft d (vec_a cs mx (dom_size d) z)) x * peval (dom_ifft d (vec_of (cm_b mx) (dom_size d) z)) x -
      peval (dom_ifft d (vec_of (cm_c mx) (dom_size d) z)) x)%fr = ((fr_pow x (dom_size d) - fr_one) * peval (take (dom_size d - 1) h) x)%fr.
Proof.
  intros Hwf Hsat Hz Hd. destruct (quotient_of cs mx d z Hwf Hsat ltac:(lia) Hd) as (hi & Hhi & Hq).
  pose proof Hwf as [_ _ (La & Lb & Lc) _]. destruct (dom_new_size _ _ Hd) as [Hn H0].
  destruct (dom_get_coset_spec _ _ _ Hd GENERATOR_nonzero) as (d' & Hd' & He').
  assert (Hs' : dom_size d' = dom_size d) by (rewrite <- !dom_elements_length, He'; apply length_map).
  exists (hi ++ replicate (dom_size d - length hi) fr_zero). split; [|split].
  2: { rewrite length_app, length_replicate. lia. }
  2: { intros x. rewrite Hq. f_equal. rewrite take_app_ge, take_replicate, peval_app, peval_zeros by lia. ring. }
  unfold witness_map_from_matrices. rewrite Hd. destruct (Nat.ltb_spec (dom_size d) (num_constraints cs)); [lia|].
  rewrite (rows_a_spec cs mx z (dom_size d)), ret_bind by done.
  rewrite fst_zip, snd_zip by (rewrite !length_map; lia).
  rewrite !copy_at_Ret, !ret_bind by (rewrite length_map, length_replicate; lia).
  rewrite slice_to_Ret, ret_bind by lia. rewrite !take_0, !app_nil_l, !length_map, !drop_replicate, !Nat.add_0_l.
  rewrite copy_at_Ret, ret_bind by (rewrite length_app, length_map, length_take, length_replicate; lia).
  rewrite Hd'. cbn [or_panic]. rewrite ret_bind, (rows_c_spec cs mx z), ret_bind by done.
  rewrite copy_at_Ret, ret_bind by (rewrite length_map, length_replicate; lia). rewrite take_0, app_nil_l, length_map, drop_replicate, Nat.add_0_l.
  rewrite (vanishing_spec _ _ _ Hd). destruct (fr_inverse _) as [inv|] eqn:Hinv.
  2: { apply fr_inverse_None in Hinv. destruct (Hgen _ _ Hd). by apply fr_sub_zero. }
  cbn [or_panic]. rewrite ret_bind. do 2 f_equal.
  change (map (fun r => row_value r z) (cm_b mx) ++ replicate (dom_size d - length (cm_b mx)) fr_zero) with (vec_of (cm_b mx) (dom_size d) z).
  change (map (fun r => row_value r z) (cm_c mx) ++ replicate (dom_size d - length (cm_c mx)) fr_zero) with (vec_of (cm_c mx) (dom_size d) z).
  rewrite (vec_a_copied cs mx) by (done || lia).
  assert (Hfft : forall v, length v = dom_size d -> dom_fft d' (dom_ifft d v) = map (peval (dom_ifft d v)) (dom_elements d')).
  { intros v Hv. apply dom_fft_spec. rewrite dom_ifft_length by done. lia. }
  rewrite !Hfft by (apply length_vec_of || apply length_vec_a; lia || done).
  rewrite mul_evaluations_spec by (by rewrite !length_map). pose proof (ifft_of_values d' hi ltac:(lia)) as Hv. rewrite Hs' in Hv.
  rewrite zip_with_map3, <- Hv. f_equal.
  apply map_ext_in. intros x Hx. rewrite He', <- list_elem_of_In in Hx. apply list_elem_of_fmap in Hx as (y & -> & Hy).
  rewrite Hq, fr_pow_mul, (dom_new_roots _ _ _ Hd Hy). apply fr_inverse_Some in Hinv.
  transitivity ((fr_pow GENERATOR (dom_size d) - fr_one) * inv * peval hi (GENERATOR * y))%fr; [ring|]. rewrite Hinv. ring.
Qed.
End program.

(** ** Completeness *)

Section completeness.
Context {C F Dom G1 G2 GT ML : Type} `{!FieldOps F, LAWS : !FieldLaws F, !FieldInv F, !FieldInvLaws F, !DomainOps F Dom, !DomainLaws F Dom,
  !Synthesizer C F, !GroupOps F G1, !GroupOps F G2, !GroupOps F GT, !GroupLaws F G1, !GroupLaws F G2, !GroupLaws F GT,
  !MsmOps F G1, !MsmOps F G2, !MsmLaws F G1, !MsmLaws F G2, PO : !PairingOps G1 G2 GT ML, PL : !PairingLaws F G1 G2 GT ML}.
Add Ring fr_ring3 : (fr_ring_theory (F:=F)).

(** The equation behind the check. *)
Lemma groth_identity (al be ga de r s gi di ain aaux bin baux cin caux zt hq : F) :
  (ga * gi)%fr = fr_one -> (de * di)%fr = fr_one -> ((ain + aaux) * (bin + baux) - (cin + caux))%fr = (zt * hq)%fr ->
  ((de * r + (ain + aaux) + al) * (de * s + (bin + baux) + be) +
   (((be * ain + al * bin + cin) * gi) * (fr_neg fr_one * ga) +
    ((((de * r + (ain + aaux) + al) * s + (de * s + (bin + baux) + be) * r + fr_neg (de * (r * s)) +
       (be * aaux + al * baux + caux) * di) + zt * di * hq) * (fr_neg fr_one * de))))%fr = (al * be)%fr.
Proof.
  intros Hg Hd Hq. assert (Hc : cin = ((ain + aaux) * (bin + baux) - zt * hq - caux)%fr) by (rewrite <- Hq; ring).
  transitivity ((de * r + (ain + aaux) + al) * (de * s + (bin + baux) + be) -
    (be * ain + al * bin + cin) * (ga * gi) - ((de * r + (ain + aaux) + al) * s + (de * s + (bin + baux) + be) * r - de * (r * s)) * de -
    (be * aaux + al * baux + caux + zt * hq) * (de * di))%fr; [ring|]. rewrite Hg, Hd, Hc. ring.
Qed.

Definition combine (alpha beta inv : F) '(x, y, z) : F := ((beta * x + alpha * y + z) * inv)%fr.

Lemma dot_combine alpha beta inv (a b c z : list F) : length a = length b -> length a = length c ->
  dot (map (combine alpha beta inv) (zip (zip a b) c)) z = ((beta * dot a z + alpha * dot b z + dot c z) * inv)%fr.
Proof.
  revert b c z; induction a as [|x a IH]; intros [|y b] [|w c] z Hb Hc; try done; cbn [zip_with map]; [rewrite !dot_nil; ring|].
  destruct z as [|k z]; [rewrite !(dot_comm _ []), !dot_nil; ring|]. rewrite !dot_cons, IH by (cbn [length] in *; lia).
  cbn [combine]. ring.
Qed.

Lemma calculate_coeff_spec {G} `{!GroupOps F G, !GroupLaws F G, !MsmOps F G, !MsmLaws F G} (g : G) (i v : F) a z :
  (0 < length a)%nat ->
  calculate_coeff (g_mul g i) (map (g_mul g) a) (g_mul g v) z = Ret (g_mul g (i + dot a (fr_one :: z) + v)%fr).
Proof.
  destruct a as [|a0 a]; cbn [length]; intros; [lia|]. unfold calculate_coeff. cbn [map]. cbn [lookup list_lookup or_panic].
  rewrite ret_bind, slice_from_Ret, ret_bind by (cbn [length]; lia). change (drop 1 (g_mul g a0 :: map (g_mul g) a)) with (map (g_mul g) a).
  rewrite msm_multiples, dot_cons. f_equal. rewrite <- !g_mul_add. f_equal. ring.
Qed.

Lemma dot_scaled_powers (k t : F) h m : (m <= length h)%nat ->
  dot (map (fun i => k * fr_pow t i)%fr (seq 0 m)) h = (k * peval (take m h) t)%fr.
Proof.
  intros Hm. assert (Hs : forall o h, (m <= length h)%nat ->
    dot (map (fun i => k * fr_pow t i)%fr (seq o m)) h = (k * dot (take m h) (map (fun i => fr_pow t i) (seq o m)))%fr).
  { clear h Hm. induction m as [|m IH]; intros o [|x h] Hm; cbn [seq map take length] in *; try lia; rewrite ?dot_nil; [ring..|].
    rewrite !dot_cons, IH by lia. ring. }
  rewrite Hs by done. pose proof (dot_powers (take m h) t 0) as Hp. rewrite length_take, Nat.min_l in Hp by done. cbn [Nat.add fr_pow] in Hp.
  rewrite Hp. ring.
Qed.

Lemma prepare_inputs_spec (pvk : PreparedVerifyingKey G1 G2 GT) (g : G1) ks x : gamma_abc_g1 (pvk_vk pvk) = map (g_mul g) ks ->
  length ks = S (length x) -> prepare_inputs pvk x = Ok (g_mul g (dot ks (fr_one :: x))).
Proof.
  unfold prepare_inputs. intros ->. destruct ks as [|k ks]; cbn [length map]; [done|]. intros [= Hl]. rewrite length_map, Hl, Nat.eqb_refl. f_equal.
  rewrite dot_cons. replace (k * fr_one)%fr with k by ring. revert k x Hl; induction ks as [|k' ks IH]; intros k [|y x] Hl; try done.
  - cbn [map zip_with fold_left]. rewrite dot_nil. f_equal. ring.
  - cbn [map zip_with fold_left]. rewrite g_mul_mul, <- g_mul_add, IH by (by injection Hl). rewrite dot_cons. f_equal. ring.
Qed.

(** A setup and a proof of one circuit. *)
Record instance_of (cs0 cs : ConstraintSystem F) (mx : ConstraintMatrices F) (inputs wit : list F) : Prop := {
  io_setup : well_formed cs0 mx;
  io_prove : well_formed cs mx;
  io_counts : num_constraints cs = num_constraints cs0 /\ num_instance_variables cs = num_instance_variables cs0 /\
    num_witness_variables cs = num_witness_variables cs0;
  io_instance : instance_assignment cs = Some (fr_one :: inputs);
  io_witness : witness_assignment cs = Some wit;
  io_lengths : num_instance_variables cs = S (length inputs) /\ num_witness_variables cs = length wit;
  io_satisfied : satisfied mx (fr_one :: inputs ++ wit)
}.

Context (Hgen : generator_outside F Dom).

(** The keys of a setup, as multiples of the two generators. *)
Definition keys_of (dr : SetupDraws F G1 G2) (ni n : nat) (gi di : F) (a b c : list F) : ProvingKey G1 G2 :=
  let zt := (fr_pow (dr_t dr) n - fr_one)%fr in
  let g1 := g_mul (dr_g1 dr) in let g2 := g_mul (dr_g2 dr) in
  mkProvingKey
    (mkVerifyingKey (g1 (dr_alpha dr)) (g2 (dr_beta dr)) (g2 (dr_gamma dr)) (g2 (dr_delta dr))
      (map g1 (map (combine (dr_alpha dr) (dr_beta dr) gi) (zip (zip (take ni a) (take ni b)) (take ni c)))))
    (g1 (dr_beta dr)) (g1 (dr_delta dr)) (map g1 a) (map g1 b) (map g2 b)
    (map g1 (map (fun i => zt * di * fr_pow (dr_t dr) i)%fr (seq 0 (n - 1))))
    (map g1 (map (combine (dr_alpha dr) (dr_beta dr) di) (zip (zip (drop ni a) (drop ni b)) (drop ni c)))).

Lemma setup_spec (shape : C) (dr : SetupDraws F G1 G2) cs mx (d : Dom) :
  synthesize Setup shape = Ok cs -> well_formed cs mx -> dom_new (num_constraints cs + num_instance_variables cs) = Some d ->
  dr_gamma dr <> fr_zero -> dr_delta dr <> fr_zero ->
  exists a b c gi di, circuit_specific_setup (Dom:=Dom) shape dr =
      (let pk := keys_of dr (num_instance_variables cs) (dom_size d) gi di a b c in Ret (Ok (pk, pk_vk pk))) /\
    (dr_gamma dr * gi)%fr = fr_one /\ (dr_delta dr * di)%fr = fr_one /\
    length a = (num_instance_variables cs + num_witness_variables cs)%nat /\ length b = length a /\ length c = length a /\
    forall z, length z = length a ->
      dot a z = peval (dom_ifft d (vec_a cs mx (dom_size d) z)) (dr_t dr) /\
      dot b z = peval (dom_ifft d (vec_of (cm_b mx) (dom_size d) z)) (dr_t dr) /\
      dot c z = peval (dom_ifft d (vec_of (cm_c mx) (dom_size d) z)) (dr_t dr).
Proof.
  intros Hs Hwf Hd Hg0 Hd0. destruct (instance_map_spec cs mx d (dr_t dr) Hwf Hd) as (a & b & c & Him & La & Lb & Lc & Hdot).
  destruct (fr_inverse (dr_gamma dr)) as [gi|] eqn:Hgi; [|by apply fr_inverse_None in Hgi].
  destruct (fr_inverse (dr_delta dr)) as [di|] eqn:Hdi; [|by apply fr_inverse_None in Hdi].
  destruct (dom_new_size _ _ Hd) as [_ Hn0].
  exists a, b, c, gi, di. split_and!; [|by apply fr_inverse_Some|by apply fr_inverse_Some|done..].
  unfold circuit_specific_setup, generate_random_parameters_with_reduction, generate_parameters_with_qap.
  rewrite Hs, Hd, Him. cbv beta iota zeta. rewrite Hgi, Hdi.
  rewrite !slice_to_Ret, !ret_bind by lia. rewrite !slice_from_Ret, !ret_bind by lia.
  destruct (Nat.eqb_spec (dom_size d) 0); [lia|]. rewrite !g_batch_mul_spec. done.
Qed.

Lemma prove_spec (circuit : C) dr cs0 cs mx inputs wit (d : Dom) gi di a b c r s h :
  synthesize Prove circuit = Ok cs -> instance_of cs0 cs mx inputs wit ->
  length a = (num_instance_variables cs + num_witness_variables cs)%nat -> length b = length a -> length c = length a ->
  witness_map_from_matrices (Dom:=Dom) mx (num_instance_variables cs) (num_constraints cs) (fr_one :: inputs ++ wit) = Ret (Ok h) ->
  (dom_size d - 1 <= length h)%nat ->
  let z := fr_one :: inputs ++ wit in let ni := num_instance_variables cs in let n := dom_size d in
  let ea := (dr_delta dr * r + dot a z + dr_alpha dr)%fr in let eb := (dr_delta dr * s + dot b z + dr_beta dr)%fr in
  groth16_prove (Dom:=Dom) (keys_of dr ni n gi di a b c) circuit (r, s) = Ret (Ok (mkProof (g_mul (dr_g1 dr) ea) (g_mul (dr_g2 dr) eb)
    (g_mul (dr_g1 dr) (ea * s + eb * r + fr_neg (dr_delta dr * (r * s)) +
      (dr_beta dr * dot (drop ni a) wit + dr_alpha dr * dot (drop ni b) wit + dot (drop ni c) wit) * di +
      (fr_pow (dr_t dr) n - fr_one) * di * peval (take (n - 1) h) (dr_t dr))%fr))).
Proof.
  intros Hs [_ [Hm Hni _ _] _ Hi Hw [Hl1 Hl2] _] La Lb Lc Hh Hlh z ni n ea eb.
  unfold groth16_prove, create_random_proof_with_reduction, create_proof_with_reduction, witness_map. rewrite Hs, Hm, Hi, Hw.
  change ((fr_one :: inputs) ++ wit) with (fr_one :: inputs ++ wit). rewrite Hh. rewrite slice_from_Ret, ret_bind by (cbn [length]; lia).
  change (drop 1 (fr_one :: inputs)) with inputs. unfold create_proof_with_assignment, keys_of.
  cbn [pk_vk beta_g1 delta_g1 a_query b_g1_query b_g2_query h_query l_query alpha_g1 beta_g2 delta_g2].
  rewrite !g_mul_mul, !msm_multiples. rewrite !calculate_coeff_spec by lia. rewrite !ret_bind. fold z ea eb.
  rewrite dot_scaled_powers, dot_combine by (rewrite ?length_drop; lia). fold n.
  destruct (fr_eqb r fr_zero) eqn:Er; cbn [negb].
  - apply fr_eqb_spec in Er as ->. rewrite !ret_bind. do 3 f_equal. rewrite <- (g_mul_zero (F:=F) (dr_g1 dr)), !g_mul_mul, <- g_mul_neg, <- !g_mul_add. f_equal. ring.
  - rewrite !ret_bind. do 3 f_equal. rewrite !g_mul_mul, <- g_mul_neg, <- !g_mul_add. f_equal.
Qed.

(** Of two satisfied multiples. *)
Lemma pairing_multiples (p : G1) (q : G2) (a b : F) : pairing (g_mul p a) (g_mul q b) = g_mul (pairing p q) (a * b)%fr.
Proof. by rewrite (pairing_mul_l (F:=F)), (pairing_mul_r (F:=F)), g_mul_mul, (Rmul_comm fr_ring_theory). Qed.

(** The run of a setup, a prover and a verifier. *)
Lemma groth16_runs (shape circuit : C) (dr : SetupDraws F G1 G2) r s cs0 cs mx inputs wit (d : Dom) :
  synthesize Setup shape = Ok cs0 -> synthesize Prove circuit = Ok cs -> instance_of cs0 cs mx inputs wit ->
  dom_new (num_constraints cs + num_instance_variables cs) = Some d -> dr_gamma dr <> fr_zero -> dr_delta dr <> fr_zero ->
  exists pk vk proof, circuit_specific_setup (Dom:=Dom) shape dr = Ret (Ok (pk, vk)) /\
    groth16_prove (Dom:=Dom) pk circuit (r, s) = Ret (Ok proof) /\
    verify_with_processed_vk (prepare_verifying_key vk) inputs proof = Ok true.
Proof.
  intros Hs0 Hs Hio Hd Hg0 Hd0. pose proof Hio as [Hwf0 Hwf (Hc1 & Hc2 & Hc3) _ _ [Hl1 Hl2] Hsat].
  rewrite Hc1, Hc2 in Hd. destruct (setup_spec shape dr cs0 mx d Hs0 Hwf0 Hd Hg0 Hd0) as (a & b & c & gi & di & Hset & Hgi & Hdi & La & Lb & Lc & Hdot).
  set (z := fr_one :: inputs ++ wit). assert (Hz : length z = length a) by (unfold z; cbn [length]; rewrite length_app; lia).
  destruct (witness_map_spec Hgen cs0 mx d z Hwf0 Hsat ltac:(lia) Hd) as (h & Hh & Hlh & Hq). rewrite <- Hc1, <- Hc2 in Hh.
  eexists _, _, _. split; [exact Hset|]. split.
  { rewrite <- Hc2. apply (prove_spec circuit dr cs0 cs mx inputs wit d gi di a b c r s h); try done; lia. }
  specialize (Hq (dr_t dr)). destruct (Hdot z Hz) as (Ea & Eb & Ec). rewrite <- Ea, <- Eb, <- Ec in Hq. clear Ea Eb Ec Hdot Hset.
  set (ni := num_instance_variables cs0) in *. rewrite Hc2 in Hl1.
  assert (Hsplit : forall l, length l = length a -> dot l z = (dot (take ni l) (fr_one :: inputs) + dot (drop ni l) wit)%fr).
  { intros l Hl. rewrite <- (take_drop ni l) at 1. change z with ((fr_one :: inputs) ++ wit). apply dot_app. rewrite length_take. cbn [length]. lia. }
  unfold verify_with_processed_vk, groth16_verify_proof. rewrite Hc2.
  rewrite (prepare_inputs_spec _ (dr_g1 dr) (map (combine (dr_alpha dr) (dr_beta dr) gi) (zip (zip (take ni a) (take ni b)) (take ni c))))
    by (reflexivity || (rewrite length_map, !length_zip_with, !length_take; lia)).
  rewrite dot_combine by (rewrite !length_take; lia). unfold verify_proof_with_prepared_inputs. rewrite (multi_pairing_spec (F:=F)). f_equal.
  apply (gt_eqb_spec (F:=F)). cbn [prepare_verifying_key keys_of pk_vk alpha_g1_beta_g2 gamma_g2_neg_pc delta_g2_neg_pc alpha_g1 beta_g2 gamma_g2 delta_g2
    proof_a proof_b proof_c zip_with g_sum foldr]. unfold g_sum. cbn [foldr].
  rewrite <- !g_mul_neg, !pairing_multiples, g_add_zero, <- !g_mul_add. f_equal. fold z.
  rewrite (Hsplit a), (Hsplit b), (Hsplit c) in Hq by done. rewrite (Hsplit a), (Hsplit b) by done.
  etransitivity; [|exact (groth_identity _ _ _ _ r s gi di _ _ _ _ _ _ _ _ Hgi Hdi Hq)]. ring.
Qed.
(** C13: Groth16 as built is complete.  Keys made for a circuit accept the
    proof of every satisfying assignment of it, for all nonzero trapdoors and
    all randomness of the setup and of the prover; nothing on the way panics. *)
Theorem groth16_complete (shape circuit : C) (dr : SetupDraws F G1 G2) r s cs0 cs mx inputs wit (d : Dom) :
  synthesize Setup shape = Ok cs0 -> synthesize Prove circuit = Ok cs -> instance_of cs0 cs mx inputs wit ->
  dom_new (num_constraints cs + num_instance_variables cs) = Some d -> dr_gamma dr <> fr_zero -> dr_delta dr <> fr_zero ->
  exists pk vk proof, circuit_specific_setup (Dom:=Dom) shape dr = Ret (Ok (pk, vk)) /\
    groth16_prove (Dom:=Dom) pk circuit (r, s) = Ret (Ok proof) /\
    verify_with_processed_vk (prepare_verifying_key vk) inputs proof = Ok true.
Proof. apply groth16_runs. Qed.

(** The check as one equation of pairings. *)
Lemma verify_equation (vk : VerifyingKey G1 G2) inputs (proof : Proof G1 G2) : verify_with_processed_vk (prepare_verifying_key vk) inputs proof = Ok true <->
  exists ic, prepare_inputs (prepare_verifying_key vk) inputs = Ok ic /\
    g_add (pairing (proof_a proof) (proof_b proof)) (g_add (pairing ic (g_neg (gamma_g2 vk))) (pairing (proof_c proof) (g_neg (delta_g2 vk)))) =
    pairing (alpha_g1 vk) (beta_g2 vk).
Proof.
  unfold verify_with_processed_vk, groth16_verify_proof. destruct (prepare_inputs _ inputs) as [ic|e]; [|naive_solver].
  unfold verify_proof_with_prepared_inputs. rewrite (multi_pairing_spec (F:=F)). cbn [zip_with]. unfold g_sum. cbn [foldr]. rewrite g_add_zero.
  cbn [prepare_verifying_key gamma_g2_neg_pc delta_g2_neg_pc alpha_g1_beta_g2]. split.
  - intros [= Hv%(gt_eqb_spec (F:=F))]. by exists ic.
  - intros (ic' & [= <-] & Hv). f_equal. by apply (gt_eqb_spec (F:=F)).
Qed.

Lemma rerandomization_factors_nonzero draws (r1 r2 : F) : rerandomization_factors draws = Some (r1, r2) -> r1 <> fr_zero /\ r2 <> fr_zero.
Proof.
  induction draws as [|[x y] draws IH]; cbn [rerandomization_factors]; [done|]. destruct (_ || _) eqn:E; [done|]. intros [= -> ->].
  apply orb_false_iff in E as [E1 E2]. split; intros E; [rewrite (proj2 (fr_eqb_spec _ _) E) in E1|rewrite (proj2 (fr_eqb_spec _ _) E) in E2]; done.
Qed.

(** Proofs are malleable.  From an accepted proof and the verifying key
    alone, [rerandomize_proof] makes another one that the key accepts for the
    same inputs; it never panics, and what was rejected stays rejected. *)
Theorem rerandomized_verifies (vk : VerifyingKey G1 G2) inputs (proof : Proof G1 G2) (draws : list (F * F)) :
  exists o, rerandomize_proof vk proof draws = Ret o /\ forall proof', o = Some proof' ->
    (verify_with_processed_vk (prepare_verifying_key vk) inputs proof' = Ok true <->
     verify_with_processed_vk (prepare_verifying_key vk) inputs proof = Ok true).
Proof.
  unfold rerandomize_proof. destruct (rerandomization_factors draws) as [[r1 r2]|] eqn:Hr; [|by exists None].
  apply rerandomization_factors_nonzero in Hr as [H1 _]. destruct (fr_inverse r1) as [inv|] eqn:Hi; [|by apply fr_inverse_None in Hi].
  cbn [or_panic]. rewrite ret_bind. apply fr_inverse_Some in Hi. eexists. split; [done|]. intros proof' [= <-]. rewrite !verify_equation.
  cbn [proof_a proof_b proof_c]. set (A := proof_a proof). set (B := proof_b proof). set (De := delta_g2 vk).
  assert (Hab : pairing (g_mul A inv) (g_add (g_mul B r1) (g_mul De (r1 * r2)%fr)) = g_add (pairing A B) (g_mul (pairing A De) r2)).
  { rewrite (pairing_mul_l (F:=F)), (pairing_add_r (F:=F)), !(pairing_mul_r (F:=F)), g_add_mul, !g_mul_mul, Hi, g_mul_one. do 2 f_equal.
    transitivity (r2 * (r1 * inv))%fr; [ring|]. rewrite Hi. ring. }
  assert (Hc : pairing (g_add (proof_c proof) (g_mul A r2)) (g_neg De) = g_add (pairing (proof_c proof) (g_neg De)) (g_neg (g_mul (pairing A De) r2))).
  { rewrite (pairing_add_l (F:=F)), (pairing_mul_l (F:=F)). f_equal. rewrite (g_neg_mul (F:=F) De), (pairing_mul_r (F:=F)), (g_neg_mul (F:=F) (g_mul _ r2)), !g_mul_mul. f_equal. ring. }
  rewrite Hab, Hc. set (e := g_mul (pairing A De) r2).
  assert (He : forall x y w : GT, g_add (g_add x e) (g_add y (g_add w (g_neg e))) = g_add x (g_add y w)).
  { intros x y w. rewrite (g_add_assoc y w), <- (g_add_assoc x e), (g_add_comm e), <- (g_add_assoc (g_add y w)), (g_add_comm (g_neg e)), g_add_neg. by rewrite g_add_zero. }
  by setoid_rewrite He.
Qed.

End completeness.
