(* ===== verification/Groth16Examples.v ===== *)
(** * A concrete proof system

    The interfaces of [Groth16.v] on residues: interpolation on the powers of a
    root of unity as the domain, the field itself as the three groups with
    multiplication as the pairing, and the circuit [x * x = y].  The hypotheses
    of the theorems of [Groth16Facts.v] hold there. *)

From Stdlib Require Import Zmod.ZmodInv.
From S2P Require Import Prelude Field Prime Poly Groth16 Groth16Facts.
Open Scope Z_scope.

(** ** Interpolation *)

Section interpolation.
Context {F : Type} `{!FieldOps F, LAWS : !FieldLaws F, !FieldInv F, !FieldInvLaws F}.
Add Ring fr_ring4 : (fr_ring_theory (F:=F)).

Definition fr_inv (a : F) : F := default fr_zero (fr_inverse a).

(** The product of [X - x] over the points. *)
Fixpoint pvanish (points : list F) : list F :=
  match points with
  | [] => [fr_one]
  | x :: rest => pmul [fr_neg x; fr_one] (pvanish rest)
  end.

(** Newton's form. *)
Fixpoint interpolate (points values : list F) : list F :=
  match points, values with
  | x :: rest, v :: vs =>
    let p := interpolate rest vs in
    padd p (pscale ((v - peval p x) * fr_inv (peval (pvanish rest) x))%fr (pvanish rest))
  | _, _ => []
  end.

Definition unit_vector (n i : nat) : list F := map (fun j => if (i =? j)%nat then fr_one else fr_zero) (seq 0 n).

Definition lagrange (points : list F) (t : F) : list F :=
  map (fun i => peval (interpolate points (unit_vector (length points) i)) t) (seq 0 (length points)).

Lemma length_pvanish points : length (pvanish points) = S (length points).
Proof.
  induction points as [|x rest IH]; [done|]. cbn [pvanish length pmul pscale map]. rewrite !length_padd. cbn [length].
  unfold pscale. rewrite !length_map, !length_padd, length_map, IH. cbn [length]. lia.
Qed.

Lemma pvanish_cons x rest t : peval (pvanish (x :: rest)) t = ((t - x) * peval (pvanish rest) t)%fr.
Proof. cbn [pvanish]. rewrite peval_pmul. unfold peval at 1. cbn [foldr]. ring. Qed.

Lemma pvanish_zero points t : peval (pvanish points) t = fr_zero <-> t ∈ points.
Proof.
  induction points as [|x rest IH].
  - split; [|by intros ?%not_elem_of_nil]. cbn [pvanish peval foldr]. intros H. exfalso.
    assert (H1 : fr_to_Z (fr_one (F:=F)) = fr_to_Z (fr_zero (F:=F))) by (f_equal; rewrite <- H; ring).
    unfold fr_one, fr_zero in H1. rewrite !fr_of_Z_spec in H1. discriminate H1.
  - rewrite pvanish_cons, elem_of_cons, <- IH. split.
    + intros [H%fr_sub_zero|H]%fr_integral; auto.
    + intros [-> | ->]; ring.
Qed.

Lemma fr_inv_r (a : F) : a <> fr_zero -> (a * fr_inv a)%fr = fr_one.
Proof.
  intros Ha. unfold fr_inv. destruct (fr_inverse a) as [b|] eqn:E; [by apply fr_inverse_Some|]. by apply fr_inverse_None in E.
Qed.

Lemma length_interpolate points values : length points = length values -> length (interpolate points values) = length points.
Proof.
  revert values; induction points as [|x rest IH]; intros [|v vs] Hl; try done. cbn [interpolate]. rewrite length_padd. unfold pscale.
  rewrite length_map, length_pvanish, IH by (by injection Hl). cbn [length]. lia.
Qed.

Lemma interpolate_spec points values : NoDup points -> length points = length values -> map (peval (interpolate points values)) points = values.
Proof.
  intros Hnd. revert values; induction Hnd as [|x rest Hx _ IH]; intros [|v vs] Hl; try done. cbn [map interpolate].
  specialize (IH vs ltac:(by injection Hl)). set (p := interpolate rest vs) in *. f_equal.
  - rewrite peval_padd, peval_pscale. assert (Hv : peval (pvanish rest) x <> fr_zero) by by rewrite pvanish_zero.
    apply fr_inv_r in Hv. transitivity (peval p x + (v - peval p x) * (peval (pvanish rest) x * fr_inv (peval (pvanish rest) x)))%fr; [ring|].
    rewrite Hv. ring.
  - transitivity (map (peval p) rest); [|done]. apply map_ext_in. intros y Hy%list_elem_of_In. rewrite peval_padd, peval_pscale.
    rewrite (proj2 (pvanish_zero rest y) Hy). ring.
Qed.

(** A sum of unit vectors' interpolations interpolates. *)
Fixpoint unit_sum (points : list F) (i : nat) (vs : list F) : list F :=
  match vs with
  | [] => replicate (length points) fr_zero
  | v :: vs' => padd (pscale v (interpolate points (unit_vector (length points) i))) (unit_sum points (S i) vs')
  end.

Lemma length_unit_vector n i : length (unit_vector n i) = n.
Proof. unfold unit_vector. by rewrite length_map, length_seq. Qed.

Lemma unit_sum_length points i vs : length (unit_sum points i vs) = length points.
Proof.
  revert i; induction vs as [|v vs IH]; intros i; cbn [unit_sum]; [apply length_replicate|].
  rewrite length_padd, IH. unfold pscale. rewrite length_map, length_interpolate by (by rewrite length_unit_vector). lia.
Qed.

Lemma unit_sum_peval points t : forall vs i, peval (unit_sum points i vs) t =
  dot (map (fun j => peval (interpolate points (unit_vector (length points) j)) t) (seq i (length vs))) vs.
Proof.
  induction vs as [|v vs IH]; intros i; cbn [unit_sum length seq map]; [apply peval_zeros|].
  rewrite peval_padd, peval_pscale, IH, dot_cons. ring.
Qed.

(** At the point [j] only the unit vector [j] counts. *)
Lemma dot_units (c : list F) i j : (i <= j)%nat ->
  dot (map (fun k => if (k =? j)%nat then fr_one else fr_zero) (seq i (length c))) c = default fr_zero (c !! (j - i)%nat).
Proof.
  revert i; induction c as [|x c IH]; intros i Hij; [done|]. cbn [length seq map]. rewrite dot_cons. destruct (Nat.eqb_spec i j) as [->|Hne].
  - rewrite Nat.sub_diag. change (default fr_zero ((x :: c) !! 0%nat)) with x.
    replace (map _ (seq (S j) (length c))) with (replicate (length c) (fr_zero (F:=F))); [rewrite dot_zeros_l; ring|].
    clear. generalize (Nat.lt_succ_diag_r j). generalize (S j) as m. induction (length c) as [|l IH]; intros m Hm; cbn [replicate seq map]; [done|].
    destruct (Nat.eqb_spec m j); [lia|]. f_equal. apply IH. lia.
  - rewrite IH by lia. replace (j - i)%nat with (S (j - S i)) by lia. change ((x :: c) !! S (j - S i)) with (c !! (j - S i)%nat). ring.
Qed.

Lemma lagrange_interpolates points values t : NoDup points -> length points = length values ->
  dot (lagrange points t) values = peval (interpolate points values) t.
Proof.
  intros Hnd Hl. unfold lagrange. replace (seq 0 (length points)) with (seq 0 (length values)) by congruence. rewrite <- (unit_sum_peval points t values 0). f_equal.
  apply (interpolation_unique points); [done|apply unit_sum_length|by apply length_interpolate|].
  intros x (j & Hj)%list_elem_of_lookup. rewrite unit_sum_peval.
  assert (Hi : map (fun i => peval (interpolate points (unit_vector (length points) i)) x) (seq 0 (length values)) =
    map (fun k => if (k =? j)%nat then fr_one else fr_zero) (seq 0 (length values))).
  { apply map_ext. intros i. pose proof (interpolate_spec points (unit_vector (length points) i) Hnd ltac:(by rewrite length_unit_vector)) as H1.
    pose proof (map_lookup_eq _ _ _ _ _ H1 Hj) as H2. unfold unit_vector in H2 at 1. apply lookup_lt_Some in Hj as Hlt.
    rewrite list_lookup_fmap, (lookup_seq_lt _ _ _ Hlt) in H2. injection H2 as H2. rewrite <- H2. done. }
  rewrite Hi, (dot_units values 0 j ltac:(lia)), Nat.sub_0_r.
  pose proof (map_lookup_eq _ _ _ _ _ (interpolate_spec points values Hnd Hl) Hj) as H2. by rewrite H2.
Qed.
End interpolation.

(** ** Residues *)

#[local] Existing Instances fr_ops fr_laws.

#[local] Instance fr_inverses : FieldInv Fr := {|
  fr_inverse a := if fr_eqb a fr_zero then None else Some (mk_fr (Z.invmod (fr_to_Z a) FR));
  GENERATOR := mk_fr 5
|}.

#[local] Instance fr_inverses_laws : FieldInvLaws Fr.
Proof.
  assert (Hz : fr_to_Z (fr_zero (F:=Fr)) = 0) by (unfold fr_zero; by rewrite fr_of_Z_spec).
  split.
  - intros a b. cbn [fr_inverse fr_inverses]. destruct (fr_eqb a fr_zero) eqn:E; [done|]. intros [= <-]. apply fr_to_Z_inj.
    change ((fr_to_Z a * (Z.invmod (fr_to_Z a) FR mod FR)) mod FR = 1 mod FR).
    rewrite Zmult_mod_idemp_r, Z.mul_comm, Z.invmod_prime; [done|exact prime_FR|].
    rewrite Z.mod_small by apply fr_to_Z_range. unfold fr_eqb in E. rewrite Hz in E. by apply Z.eqb_neq.
  - intros a. cbn [fr_inverse fr_inverses]. destruct (fr_eqb a fr_zero) eqn:E.
    + apply fr_eqb_spec in E. done.
    + split; [done|]. intros ->. by rewrite (proj2 (fr_eqb_spec _ _) eq_refl) in E.
  - intros H. apply (f_equal fr_to_Z) in H. discriminate H.
Qed.

(** A domain is its points. *)
Record Points := mkPoints { points : list Fr; points_distinct : NoDup points }.

(** An eighth root of unity. *)
Definition omega : Fr := mk_fr 19540430494807482326159819597004422086093766032135589407132600596362845576832.

Definition powers_of (w : Fr) (n : nat) : list Fr := map (fr_pow w) (seq 0 n).

Lemma NoDup_residues (l : list Fr) : bool_decide (NoDup (map fr_to_Z l)) = true -> NoDup l.
Proof. intros H%bool_decide_eq_true. by apply NoDup_fmap_1 in H. Qed.

Definition dom1 : Points := mkPoints (powers_of omega 1) (NoDup_residues (powers_of omega 1) eq_refl).

Lemma dom8_distinct : bool_decide (NoDup (map fr_to_Z (powers_of omega 8))) = true.
Proof. vm_cast_no_check (eq_refl true). Qed.

Definition dom8 : Points := mkPoints (powers_of omega 8) (NoDup_residues _ dom8_distinct).

Lemma coset_distinct (g : Fr) (l : list Fr) : g <> fr_zero -> NoDup l -> NoDup (map (fr_mul g) l).
Proof.
  intros Hg. apply NoDup_fmap_2_strong. intros x y _ _ H.
  assert (Hm : fr_mul g (fr_sub x y) = fr_zero).
  { rewrite (Rsub_def fr_ring_theory), (Rmul_comm fr_ring_theory), (Rdistr_l fr_ring_theory), (Rmul_comm fr_ring_theory x), H.
    rewrite (Rmul_comm fr_ring_theory g y), <- (Rdistr_l fr_ring_theory), (Ropp_def fr_ring_theory).
    apply fr_to_Z_inj. by rewrite fr_mul_spec. }
  apply fr_integral in Hm as [|H0]; [done|]. by apply fr_sub_zero.
Qed.

Definition coset_of (d : Points) (g : Fr) : option Points :=
  match decide (g = fr_zero) with
  | left _ => None
  | right Hg => Some (mkPoints (map (fr_mul g) (points d)) (coset_distinct g (points d) Hg (points_distinct d)))
  end.

#[local] Instance interpolation_domain : DomainOps Fr Points := {|
  dom_new n := if (n <=? 1)%nat then Some dom1 else if (n <=? 8)%nat then Some dom8 else None;
  dom_size d := length (points d);
  dom_elements := points;
  dom_get_coset := coset_of;
  dom_fft d p := map (peval p) (points d);
  dom_ifft d v := interpolate (points d) v;
  evaluate_vanishing_polynomial d x := fr_sub (fr_pow x (length (points d))) fr_one;
  evaluate_all_lagrange_coefficients d t := lagrange (points d) t;
  mul_polynomials_in_evaluation_domain _ p q := zip_with fr_mul p q
|}.

Lemma dom_new_cases n d : dom_new (DomainOps:=interpolation_domain) n = Some d -> d = dom1 /\ (n <= 1)%nat \/ d = dom8 /\ (n <= 8)%nat.
Proof.
  cbn [dom_new interpolation_domain]. destruct (Nat.leb_spec n 1); [intros [= <-]; by left|]. destruct (Nat.leb_spec n 8); [intros [= <-]; by right|done].
Qed.

Lemma roots_of_unity (l : list Fr) : forallb (fun x => fr_eqb (fr_pow x (length l)) fr_one) l = true -> forall x, x ∈ l -> fr_pow x (length l) = fr_one.
Proof. intros H x Hx. rewrite forallb_forall in H. apply fr_eqb_spec, H. by apply list_elem_of_In. Qed.

#[local] Instance interpolation_domain_laws : DomainLaws Fr Points.
Proof.
  split.
  - intros n d [[-> Hn]|[-> Hn]]%dom_new_cases; cbn; lia.
  - intros n d x [[-> Hn]|[-> Hn]]%dom_new_cases; apply roots_of_unity; vm_cast_no_check (eq_refl true).
  - done.
  - apply points_distinct.
  - intros n d g _ Hg. cbn [dom_get_coset interpolation_domain]. unfold coset_of. destruct (decide (g = fr_zero)); [done|]. by eexists.
  - done.
  - intros d v Hv. by apply length_interpolate.
  - intros d v Hv. by apply interpolate_spec; [apply points_distinct|].
  - done.
  - intros n d t _. cbn. unfold lagrange. by rewrite length_map, length_seq.
  - intros n d t v _ Hv. by apply lagrange_interpolates; [apply points_distinct|].
  - done.
Qed.

Lemma five_outside : generator_outside Fr Points.
Proof.
  intros n d [[-> _]|[-> _]]%dom_new_cases H; apply (f_equal fr_to_Z) in H; vm_compute in H; discriminate H.
Qed.

(** ** Groups whose logarithms are known *)

#[local] Instance residue_group : GroupOps Fr Fr := {| g_zero := fr_zero; g_add := fr_add; g_neg := fr_neg; g_mul := fr_mul |}.

#[local] Instance residue_group_laws : GroupLaws Fr Fr.
Proof.
  split; intros; cbn [g_zero g_add g_neg g_mul residue_group].
  - apply (Radd_comm fr_ring_theory).
  - apply (Radd_assoc fr_ring_theory).
  - rewrite (Radd_comm fr_ring_theory). apply (Radd_0_l fr_ring_theory).
  - apply (Ropp_def fr_ring_theory).
  - rewrite (Rmul_comm fr_ring_theory). apply (Rmul_1_l fr_ring_theory).
  - symmetry. apply (Rmul_assoc fr_ring_theory).
  - rewrite !(Rmul_comm fr_ring_theory p). apply (Rdistr_l fr_ring_theory).
  - apply (Rdistr_l fr_ring_theory).
Qed.

#[local] Instance residue_msm : MsmOps Fr Fr := {| g_msm ps ks := g_sum (zip_with g_mul ps ks); g_batch_mul p _ ks := map (g_mul p) ks |}.

#[local] Instance residue_msm_laws : MsmLaws Fr Fr.
Proof. by split. Qed.

#[local] Instance product_pairing : PairingOps Fr Fr Fr (list Fr) := {|
  pairing := fr_mul;
  multi_miller_loop ps qs := zip_with fr_mul ps qs;
  final_exponentiation l := Some (g_sum l);
  gt_eqb := fr_eqb
|}.

#[local] Instance product_pairing_laws : PairingLaws Fr Fr Fr Fr (list Fr).
Proof.
  split; intros; cbn [g_add g_mul residue_group pairing product_pairing multi_miller_loop final_exponentiation gt_eqb].
  - apply (Rdistr_l fr_ring_theory).
  - rewrite !(Rmul_comm fr_ring_theory p). apply (Rdistr_l fr_ring_theory).
  - rewrite <- !(Rmul_assoc fr_ring_theory). f_equal. apply (Rmul_comm fr_ring_theory).
  - apply (Rmul_assoc fr_ring_theory).
  - done.
  - apply fr_eqb_spec.
Qed.

(** ** The circuit of a square *)

Record Square := mkSquare { sq_x : Fr; sq_y : Fr }.

Definition square_matrices : ConstraintMatrices Fr :=
  mkMatrices [[(fr_one, 2%nat)]] [[(fr_one, 2%nat)]] [[(fr_one, 1%nat)]].

Definition square_cs (mode : SynthesisMode) (c : Square) : ConstraintSystem Fr :=
  let values l := match mode with Setup => None | Prove => Some l end in
  mkCS (Some [cm_a square_matrices; cm_b square_matrices; cm_c square_matrices]) 2 1 1 (values [fr_one; sq_y c]) (values [sq_x c]).

#[local] Instance square_synthesizer : Synthesizer Square Fr := {| synthesize mode c := Ok (square_cs mode c) |}.

Lemma square_well_formed mode c : well_formed (square_cs mode c) square_matrices.
Proof. split; cbn; repeat (constructor || lia). Qed.

(** Nine is a square. *)
Definition three : Square := mkSquare (mk_fr 3) (mk_fr 9).
Definition blank : Square := mkSquare fr_zero fr_zero.
Definition sample_draws : SetupDraws Fr Fr Fr := mkDraws (mk_fr 11) (mk_fr 12) (mk_fr 13) (mk_fr 14) (mk_fr 15) (mk_fr 16) (mk_fr 17).

Lemma three_instance : instance_of (square_cs Setup blank) (square_cs Prove three) square_matrices [mk_fr 9] [mk_fr 3].
Proof.
  split; try done; [apply square_well_formed..|].
  intros [|i] ra rb rc; cbn; [|done]. intros [= <-] [= <-] [= <-]. apply fr_to_Z_inj. vm_compute. reflexivity.
Qed.

Lemma groth16_complete_witness :
  exists pk vk proof, circuit_specific_setup (Dom:=Points) blank sample_draws = Ret (Ok (pk, vk)) /\
    groth16_prove (Dom:=Points) pk three (mk_fr 21, mk_fr 22) = Ret (Ok proof) /\
    verify_with_processed_vk (prepare_verifying_key vk) [mk_fr 9] proof = Ok true.
Proof.
  apply (groth16_complete five_outside blank three sample_draws (mk_fr 21) (mk_fr 22) (square_cs Setup blank) (square_cs Prove three)
    square_matrices [mk_fr 9] [mk_fr 3] dom8).
  - reflexivity.
  - reflexivity.
  - exact three_instance.
  - reflexivity.
  - intros H. apply (f_equal fr_to_Z) in H. discriminate H.
  - intros H. apply (f_equal fr_to_Z) in H. discriminate H.
Defined.

(** The key of the setup and the proof above. *)
Definition sample_keys : option (ProvingKey Fr Fr * Proof Fr Fr) :=
  match circuit_specific_setup (Dom:=Points) blank sample_draws with
  | Ret (Ok (pk, _)) =>
    match groth16_prove (Dom:=Points) pk three (mk_fr 21, mk_fr 22) with
    | Ret (Ok proof) => Some (pk, proof)
    | _ => None
    end
  | _ => None
  end.

Definition sample_vk : VerifyingKey Fr Fr :=
  match sample_keys with Some (pk, _) => pk_vk pk | None => mkVerifyingKey fr_zero fr_zero fr_zero fr_zero [] end.

Definition sample_proof : Proof Fr Fr := match sample_keys with Some (_, proof) => proof | None => mkProof fr_zero fr_zero fr_zero end.

Definition second_draws : list (Fr * Fr) := [(fr_zero, mk_fr 5); (mk_fr 7, mk_fr 8)].

Lemma rerandomizes : match rerandomize_proof sample_vk sample_proof second_draws with
  | Ret (Some p) => negb (fr_to_Z (proof_a p) =? fr_to_Z (proof_a sample_proof)) | _ => false end = true.
Proof. vm_cast_no_check (eq_refl true). Qed.

Lemma sample_verifies : verify_with_processed_vk (prepare_verifying_key sample_vk) [mk_fr 9] sample_proof = Ok true.
Proof. vm_cast_no_check (eq_refl (Ok (E:=SynthesisError) true)). Qed.

(** The first pair of draws is refused; the fresh proof is another one and verifies. *)
Lemma rerandomized_verifies_witness :
  exists proof', rerandomize_proof sample_vk sample_proof second_draws = Ret (Some proof') /\
    fr_to_Z (proof_a proof') <> fr_to_Z (proof_a sample_proof) /\
    verify_with_processed_vk (prepare_verifying_key sample_vk) [mk_fr 9] proof' = Ok true.
Proof.
  destruct (rerandomized_verifies sample_vk [mk_fr 9] sample_proof second_draws) as (o & Ho & Hv).
  pose proof rerandomizes as Ha. rewrite Ho in Ha. destruct o as [proof'|]; [|discriminate Ha].
  exists proof'. split; [exact Ho|]. split; [by apply negb_true_iff, Z.eqb_neq in Ha|].
  apply (Hv proof' eq_refl), sample_verifies.
Defined.
