(* ===== verification/Circuit.v ===== *)
(** * The step circuit

    The in-circuit half of [dp-zk/src/step_circuit.rs]: the constraints of one
    fold step and the state it leads to.  A variable of the constraint system is
    its value, and a step returns [None] when the assignment violates one of its
    constraints.  The gadgets of the constraint library act on values as
    documented: [enforce_equal] compares, [to_bits_le] yields the canonical
    bits, [conditionally_select] chooses, and the sponge gadget hashes as the
    native sponge does. *)

From S2P Require Import Prelude Decimal Types Field Auction Events Book Merkle EngineState Engine Witness Prime.
Open Scope Z_scope.

(** [enforce c; k]: continue only when the constraint holds. *)
Notation "'enforce!' c ; k" := (if c then k else None)
  (at level 100, c at level 99, k at level 200, right associativity).

Definition SIZE_BITS : nat := 60.
Definition SOLVENCY_DIFF_BITS : nat := 120.
Definition FR_BITS : nat := 254.

Section circuit.
Context {F : Type} `{!FieldOps F, !Poseidon F}.
Implicit Types (r : CircuitMatchNative F) (ext : AuctionExternalInputs F).

(** ** Gadgets *)

Definition to_bits_le (v : F) : list bool := map (fun i => Z.testbit (fr_to_Z v) (Z.of_nat i)) (seq 0 FR_BITS).

Definition enforce_range_n (v : F) (n : nat) : bool := forallb negb (drop n (to_bits_le v)).

Definition enforce_range_60 (v : F) : bool := enforce_range_n v SIZE_BITS.

Fixpoint merkle_root_var (cur : F) (sibs : list F) (bits : list bool) : F :=
  match sibs, bits with
  | sib :: sibs', bit :: bits' =>
    let left := if bit : bool then sib else cur in
    let right := if bit then cur else sib in
    merkle_root_var (poseidon [left; right]) sibs' bits'
  | _, _ => cur
  end.

(** ** Allocation *)

(** Every round has the width of the circuit; a longer input is an assertion
    failure. *)
Definition alloc_inputs ext : outcome (AuctionExternalInputs F) :=
  if (length (ai_matches ext) <=? IVC_BATCH_SIZE)%nat then
    Ret (mkInputs (ai_min_size ext) (ai_min_price ext) (ai_position_limit ext) (ai_clearing_price ext)
      (ai_admitted_root ext)
      (map (fun i => default default_row (ai_matches ext !! i)) (seq 0 IVC_BATCH_SIZE)))
  else Panic.

(** ** One row *)

(** The variables the loop over the rows updates. *)
Record RowAcc := mkRowAcc {
  ra_settlement : F;
  ra_leaves : list F;
  ra_notionals : list F;
  ra_active : F
}.

Definition scale_factor : F := fr_of_Z SCALE_FACTOR_I128.

Definition row_constraints ext (acc : RowAcc) r : option RowAcc :=
  let bid_side := c_bid_side r in
  let ask_side := c_ask_side r in
  let bid_lp := c_bid_limit_price r in
  let ask_lp := c_ask_limit_price r in
  let m_price := c_match_price r in
  let m_size := c_match_size r in
  let is_active := c_is_active r in
  let one : F := fr_one in
  let zero : F := fr_zero in
  (* Family 1: bits. *)
  enforce! fr_eqb (bid_side * (one - bid_side))%fr zero;
  enforce! fr_eqb (ask_side * (one - ask_side))%fr zero;
  enforce! fr_eqb (is_active * (one - is_active))%fr zero;
  (* Family 2: opposite sides. *)
  enforce! fr_eqb ((bid_side + ask_side - one) * is_active)%fr zero;
  (* Family 4: bounds and minima. *)
  enforce! enforce_range_60 m_size;
  enforce! enforce_range_60 bid_lp;
  enforce! enforce_range_60 ask_lp;
  enforce! enforce_range_60 m_price;
  enforce! enforce_range_60 ((m_size - ai_min_size ext) * is_active)%fr;
  enforce! enforce_range_60 ((bid_lp - ai_min_price ext) * is_active)%fr;
  (* Family 3: the prices cross. *)
  enforce! enforce_range_60 ((bid_lp - m_price) * is_active)%fr;
  enforce! enforce_range_60 ((m_price - ask_lp) * is_active)%fr;
  (* Family 3b: one clearing price. *)
  enforce! fr_eqb ((m_price - ai_clearing_price ext) * is_active)%fr zero;
  (* Family 5: commitments. *)
  enforce! enforce_range_60 (c_bid_order_size r);
  enforce! enforce_range_60 (c_ask_order_size r);
  enforce! enforce_range_60 ((c_bid_order_size r - m_size) * is_active)%fr;
  enforce! enforce_range_60 ((c_ask_order_size r - m_size) * is_active)%fr;
  let bid_commit := poseidon [c_bid_trader r; bid_side; bid_lp; c_bid_order_size r; c_bid_salt r] in
  let ask_commit := poseidon [c_ask_trader r; ask_side; ask_lp; c_ask_order_size r; c_ask_salt r] in
  (* Family 5b: membership. *)
  let bid_member_root := merkle_root_var bid_commit (siblings (c_bid_path r)) (index_bits (c_bid_path r)) in
  enforce! fr_eqb ((bid_member_root - ai_admitted_root ext) * is_active)%fr zero;
  let ask_member_root := merkle_root_var ask_commit (siblings (c_ask_path r)) (index_bits (c_ask_path r)) in
  enforce! fr_eqb ((ask_member_root - ai_admitted_root ext) * is_active)%fr zero;
  (* Families 6 and 7: notional and solvency. *)
  let notional := (m_price * m_size)%fr in
  enforce! enforce_range_60 (c_bid_balance r);
  enforce! enforce_range_60 (c_ask_balance r);
  enforce! enforce_range_n ((c_bid_balance r * scale_factor - notional) * is_active)%fr SOLVENCY_DIFF_BITS;
  enforce! enforce_range_n ((c_ask_balance r - m_size) * is_active)%fr SOLVENCY_DIFF_BITS;
  (* Family 8: positions. *)
  let bid_new_pos := (c_bid_position r + m_size)%fr in
  let ask_new_pos := (c_ask_position r - m_size)%fr in
  enforce! enforce_range_60 ((ai_position_limit ext - bid_new_pos) * is_active)%fr;
  enforce! enforce_range_60 ((ai_position_limit ext + bid_new_pos) * is_active)%fr;
  enforce! enforce_range_60 ((ai_position_limit ext - ask_new_pos) * is_active)%fr;
  enforce! enforce_range_60 ((ai_position_limit ext + ask_new_pos) * is_active)%fr;
  (* Family 9: identities. *)
  enforce! fr_eqb ((poseidon [c_bid_trader_addr r] - c_bid_trader r) * is_active)%fr zero;
  enforce! fr_eqb ((poseidon [c_ask_trader_addr r] - c_ask_trader r) * is_active)%fr zero;
  (* The settlement chain. *)
  let settle_next := poseidon [ra_settlement acc; c_bid_trader_addr r; c_ask_trader_addr r; m_price; m_size] in
  Some (mkRowAcc (settle_next * is_active + ra_settlement acc * (one - is_active))%fr
    (ra_leaves acc ++ [(bid_commit * is_active)%fr; (ask_commit * is_active)%fr])
    (ra_notionals acc ++ [(notional * is_active)%fr])
    (ra_active acc + is_active)%fr).

Fixpoint rows_constraints ext (acc : RowAcc) (rows : list (CircuitMatchNative F)) : option RowAcc :=
  match rows with
  | [] => Some acc
  | r :: rows' => match row_constraints ext acc r with Some acc' => rows_constraints ext acc' rows' | None => None end
  end.

(** ** The step *)

Definition generate_step_constraints (batch_size : nat) (z_i : list F) ext : outcome (option (list F)) :=
  prev_state_hash ← or_panic (z_i !! 0%nat);
  round_nonce ← or_panic (z_i !! 1%nat);
  policy_hash ← or_panic (z_i !! 2%nat);
  settlement_acc ← or_panic (z_i !! 3%nat);
  admit_chain_prev ← or_panic (z_i !! 4%nat);
  let policy_ok := fr_eqb (poseidon [ai_min_size ext; ai_min_price ext; ai_position_limit ext]) policy_hash in
  if negb (batch_size <=? IVC_BATCH_SIZE)%nat then Panic
  else
    Ret (enforce! policy_ok;
         match rows_constraints ext (mkRowAcc settlement_acc [] [] fr_zero) (ai_matches ext) with
         | None => None
         | Some acc =>
           let commitments_root := poseidon (ra_leaves acc) in
           let notionals_root := poseidon (ra_notionals acc) in
           Some [poseidon [prev_state_hash; commitments_root; notionals_root; ra_active acc];
                 (round_nonce + fr_one)%fr; policy_hash; ra_settlement acc;
                 poseidon [admit_chain_prev; ai_admitted_root ext]]
         end).

(** A step from native inputs: allocation, then synthesis. *)
Definition step (batch_size : nat) (z_i : list F) ext : outcome (option (list F)) :=
  ext ← alloc_inputs ext;
  generate_step_constraints batch_size z_i ext.

(** ** What a row and a step mean *)

(** The settlement tuples of the active rows, in order. *)
Definition settled_rows (rows : list (CircuitMatchNative F)) : list (SettlementRow F) :=
  flat_map (fun r => if fr_eqb (c_is_active r) fr_one
                     then [mkSettlementRow (c_bid_trader_addr r) (c_ask_trader_addr r) (c_match_price r) (c_match_size r)]
                     else []) rows.

(** The leaf, or notional, of a row; padding contributes zeroes. *)
Definition row_leaves r : list F :=
  if fr_eqb (c_is_active r) fr_one then [leaf_of r true; leaf_of r false] else [fr_zero; fr_zero].

Definition row_notional r : F :=
  if fr_eqb (c_is_active r) fr_one then (c_match_price r * c_match_size r)%fr else fr_zero.

Definition active_count (rows : list (CircuitMatchNative F)) : nat :=
  length (List.filter (fun r => fr_eqb (c_is_active r) fr_one) rows).

(** A scalar that encodes a signed number within a limit. *)
Definition within (limit : Z) (x : Z) : Prop := exists n, - limit <= n <= limit /\ x mod FR = n mod FR.

(** The bounds every row satisfies, padding included. *)
Record row_bounded r : Prop := {
  rb_bid_side : c_bid_side r = fr_zero \/ c_bid_side r = fr_one;
  rb_ask_side : c_ask_side r = fr_zero \/ c_ask_side r = fr_one;
  rb_size : fr_to_Z (c_match_size r) < 2 ^ 60;
  rb_bid_lp : fr_to_Z (c_bid_limit_price r) < 2 ^ 60;
  rb_ask_lp : fr_to_Z (c_ask_limit_price r) < 2 ^ 60;
  rb_price : fr_to_Z (c_match_price r) < 2 ^ 60;
  rb_bid_size : fr_to_Z (c_bid_order_size r) < 2 ^ 60;
  rb_ask_size : fr_to_Z (c_ask_order_size r) < 2 ^ 60;
  rb_bid_balance : fr_to_Z (c_bid_balance r) < 2 ^ 60;
  rb_ask_balance : fr_to_Z (c_ask_balance r) < 2 ^ 60
}.

(** A fair, authorised and funded trade, over the integers. *)
Record trade_ok ext r : Prop := {
  to_sides : c_bid_side r = fr_zero /\ c_ask_side r = fr_one \/ c_bid_side r = fr_one /\ c_ask_side r = fr_zero;
  to_min_size : fr_to_Z (ai_min_size ext) <= fr_to_Z (c_match_size r);
  to_min_price : fr_to_Z (ai_min_price ext) <= fr_to_Z (c_bid_limit_price r);
  to_bid_cross : fr_to_Z (c_match_price r) <= fr_to_Z (c_bid_limit_price r);
  to_ask_cross : fr_to_Z (c_ask_limit_price r) <= fr_to_Z (c_match_price r);
  to_uniform : c_match_price r = ai_clearing_price ext;
  to_bid_fill : fr_to_Z (c_match_size r) <= fr_to_Z (c_bid_order_size r);
  to_ask_fill : fr_to_Z (c_match_size r) <= fr_to_Z (c_ask_order_size r);
  to_bid_member : root_from_proof (leaf_of r true) (c_bid_path r) = ai_admitted_root ext;
  to_ask_member : root_from_proof (leaf_of r false) (c_ask_path r) = ai_admitted_root ext;
  to_bid_funds : fr_to_Z (c_match_price r) * fr_to_Z (c_match_size r) <= fr_to_Z (c_bid_balance r) * SCALE_FACTOR_I128;
  to_ask_funds : fr_to_Z (c_match_size r) <= fr_to_Z (c_ask_balance r);
  to_bid_position : within (fr_to_Z (ai_position_limit ext)) (fr_to_Z (c_bid_position r) + fr_to_Z (c_match_size r));
  to_ask_position : within (fr_to_Z (ai_position_limit ext)) (fr_to_Z (c_ask_position r) - fr_to_Z (c_match_size r));
  to_bid_identity : c_bid_trader r = poseidon [c_bid_trader_addr r];
  to_ask_identity : c_ask_trader r = poseidon [c_ask_trader_addr r]
}.

Definition row_ok ext r : Prop :=
  row_bounded r /\ (c_is_active r = fr_zero \/ c_is_active r = fr_one /\ trade_ok ext r).

(** A policy whose minima and limit fit the range checks. *)
Definition policy_bounded ext : Prop :=
  fr_to_Z (ai_min_size ext) < 2 ^ 60 /\ fr_to_Z (ai_min_price ext) < 2 ^ 60 /\ fr_to_Z (ai_position_limit ext) < 2 ^ 59.

(** The state after a step over the rows. *)
Definition next_state (h n p s a : F) ext : list F :=
  [poseidon [h; poseidon (flat_map row_leaves (ai_matches ext)); poseidon (map row_notional (ai_matches ext));
             fr_of_Z (Z.of_nat (active_count (ai_matches ext)))];
   (n + fr_one)%fr; p; settlement_chain s (settled_rows (ai_matches ext)); admitted_chain_step a (ai_admitted_root ext)].
End circuit.
