(* ===== verification/CircuitFacts.v ===== *)
(** * What the step circuit enforces

    The constraints of [Circuit] as statements over the integers: every
    constraint is characterised exactly, so that a step accepts its inputs if and
    only if the rows are what [Circuit.row_ok] says.  Primality of the field's
    modulus enters through the boolean constraints. *)

From S2P Require Import Prelude Decimal Types Field Auction Events Book Merkle EngineState Engine Witness Prime Circuit.
Open Scope Z_scope.

Lemma FR_bounds : 2 ^ 130 < FR < 2 ^ 254.
Proof. split; reflexivity. Qed.

(** A number whose bits from [n] on are zero is below [2 ^ n]. *)
Lemma high_bits_zero v n : 0 <= v -> 0 <= n -> (forall i, n <= i -> Z.testbit v i = false) -> v < 2 ^ n.
Proof.
  intros Hv Hn Hb. replace v with (v mod 2 ^ n); [by apply Z.mod_pos_bound, Z.pow_pos_nonneg|].
  apply Z.bits_inj'. intros i Hi. destruct (Z.lt_ge_cases i n).
  - by apply Z.mod_pow2_bits_low.
  - rewrite Z.mod_pow2_bits_high by lia. symmetry. by apply Hb.
Qed.

Lemma low_high_bits v n i : 0 <= v < 2 ^ n -> 0 <= n <= i -> Z.testbit v i = false.
Proof.
  intros Hv Hi. rewrite <- (Z.mod_small v (2 ^ n)) by done. apply Z.mod_pow2_bits_high. lia.
Qed.

(** Differences modulo [FR] of numbers far below it. *)
Lemma range_sub_Z a b n :
  0 <= n <= 120 -> 0 <= a < 2 ^ n -> 0 <= b < 2 ^ 120 -> (a - b) mod FR < 2 ^ n <-> b <= a.
Proof.
  intros Hn Ha Hb. pose proof FR_bounds as [HF _].
  assert (Hp : 2 ^ n <= 2 ^ 120) by (apply Z.pow_le_mono_r; lia).
  assert (Hq : 2 ^ 130 = 2 ^ 120 * 1024) by reflexivity.
  split; intros Hr.
  - destruct (Z.le_gt_cases b a) as [|Hlt]; [done|exfalso].
    rewrite <- (Z.mod_add _ 1), (Z.mod_small (a - b + 1 * FR)) in Hr by lia. lia.
  - rewrite Z.mod_small by lia. lia.
Qed.

(** The two-sided position check. *)
Lemma within_range l x :
  0 <= l < 2 ^ 59 -> (l - x) mod FR < 2 ^ 60 /\ (l + x) mod FR < 2 ^ 60 <-> within l x.
Proof.
  intros Hl. pose proof FR_bounds as [HF _]. assert (2 ^ 60 = 2 * 2 ^ 59) by reflexivity.
  assert (2 ^ 130 = 2 ^ 59 * 2 ^ 71) by reflexivity. assert (2 ^ 10 < 2 ^ 71) by reflexivity. split.
  - intros [Hr1 Hr2]. pose proof (Z.mod_pos_bound (l - x) FR ltac:(lia)). pose proof (Z.mod_pos_bound (l + x) FR ltac:(lia)).
    pose proof (Z.div_mod (l - x) FR ltac:(lia)) as E1. pose proof (Z.div_mod (l + x) FR ltac:(lia)) as E2.
    assert (Hs : FR * ((l - x) / FR + (l + x) / FR) = 2 * l - (l - x) mod FR - (l + x) mod FR) by lia.
    assert ((l - x) / FR + (l + x) / FR = 0) by nia.
    exists (l - (l - x) mod FR). split; [nia|].
    rewrite Zminus_mod_idemp_r. f_equal. lia.
  - intros (n & Hn & Hx). rewrite Zminus_mod, Hx, <- Zminus_mod, Zplus_mod, Hx, <- Zplus_mod.
    rewrite !Z.mod_small by nia. lia.
Qed.

Section field_gadgets.
Context {F : Type} `{!FieldOps F, FL : !FieldLaws F, !Poseidon F}.
Implicit Types (a b x : F).

Lemma fr_zero_Z : fr_to_Z (fr_zero (F:=F)) = 0.
Proof. unfold fr_zero. by rewrite fr_of_Z_spec. Qed.

Lemma fr_one_Z : fr_to_Z (fr_one (F:=F)) = 1.
Proof. unfold fr_one. by rewrite fr_of_Z_spec. Qed.

Lemma fr_mul_one a : (a * fr_one)%fr = a.
Proof. apply fr_to_Z_inj. rewrite fr_mul_spec, fr_one_Z, Z.mul_1_r. apply Z.mod_small, fr_to_Z_range. Qed.

Lemma fr_mul_zero a : (a * fr_zero)%fr = fr_zero.
Proof. apply fr_to_Z_inj. by rewrite fr_mul_spec, fr_zero_Z, Z.mul_0_r. Qed.

Lemma fr_sub_zero_iff a b : (a - b)%fr = fr_zero <-> a = b.
Proof.
  split; [|intros ->; apply fr_to_Z_inj; by rewrite fr_sub_spec, fr_zero_Z, Z.sub_diag].
  intros Hab. apply (f_equal fr_to_Z) in Hab. rewrite fr_sub_spec, fr_zero_Z in Hab. apply fr_to_Z_inj.
  pose proof (fr_to_Z_range a). pose proof (fr_to_Z_range b). apply Z.mod_divide in Hab as [c Hc]; [|done].
  assert (c = 0) by nia. lia.
Qed.

Lemma fr_eqb_refl a : fr_eqb a a = true.
Proof. by apply Z.eqb_eq. Qed.

Lemma fr_zero_neq_one : fr_eqb (F:=F) fr_zero fr_one = false.
Proof. unfold fr_eqb. by rewrite fr_zero_Z, fr_one_Z. Qed.

(** The value of a difference constrained to be zero. *)
Lemma enforce_sub_zero a b : fr_eqb (a - b)%fr fr_zero = true <-> a = b.
Proof. by rewrite fr_eqb_spec, fr_sub_zero_iff. Qed.

(** The boolean constraint; here the modulus must be prime. *)
Lemma enforce_bit x : fr_eqb (x * (fr_one - x))%fr fr_zero = true <-> x = fr_zero \/ x = fr_one.
Proof.
  unfold fr_eqb. rewrite Z.eqb_eq, fr_mul_spec, fr_sub_spec, fr_zero_Z, fr_one_Z, Zmult_mod_idemp_r. split.
  - intros [H|H]%FR_boolean; [left|right|apply fr_to_Z_range]; apply fr_to_Z_inj; by rewrite ?fr_zero_Z, ?fr_one_Z.
  - intros [-> | ->]; by rewrite ?fr_zero_Z, ?fr_one_Z.
Qed.

Lemma enforce_range_spec x n : (n <= FR_BITS)%nat -> enforce_range_n x n = true <-> fr_to_Z x < 2 ^ Z.of_nat n.
Proof.
  intros Hn. pose proof (fr_to_Z_range x) as Hx. pose proof FR_bounds as [_ HF].
  unfold enforce_range_n, to_bits_le. rewrite skipn_map, drop_seq, forallb_forall. split.
  - intros Hb. apply high_bits_zero; [lia..|]. intros i Hi. destruct (Z.lt_ge_cases i 254) as [Hlt|].
    + specialize (Hb (Z.testbit (fr_to_Z x) i)). apply negb_true_iff, Hb. apply in_map_iff.
      exists (Z.to_nat i). rewrite Z2Nat.id by lia. split; [done|]. apply in_seq. unfold FR_BITS in *. lia.
    + apply (low_high_bits _ 254); lia.
  - intros Hv bt (i & <- & Hi%in_seq)%in_map_iff. apply negb_true_iff, (low_high_bits _ (Z.of_nat n)); lia.
Qed.

Lemma range_60 x : enforce_range_60 x = true <-> fr_to_Z x < 2 ^ 60.
Proof. apply (enforce_range_spec x 60). unfold FR_BITS. lia. Qed.

Lemma range_sub_60 a b :
  fr_to_Z a < 2 ^ 60 -> fr_to_Z b < 2 ^ 60 -> enforce_range_60 (a - b)%fr = true <-> fr_to_Z b <= fr_to_Z a.
Proof.
  intros Ha Hb. pose proof (fr_to_Z_range a). pose proof (fr_to_Z_range b).
  rewrite range_60, fr_sub_spec. assert (2 ^ 60 < 2 ^ 120) by reflexivity. apply range_sub_Z; lia.
Qed.

Lemma merkle_root_var_climb a sibs bits : merkle_root_var a sibs bits = climb a sibs bits.
Proof.
  revert a bits; induction sibs as [|s sibs IH]; intros a [|[] bits]; try done; cbn [merkle_root_var climb]; apply IH.
Qed.
End field_gadgets.

(** ** One row *)

Lemma enforce_Some {A} (c : bool) (k : option A) x : (if c then k else None) = Some x <-> c = true /\ k = Some x.
Proof. destruct c; split; [by intros|by intros [_ ?]|done|by intros [? _]]. Qed.

Section row_facts.
Context {F : Type} `{!FieldOps F, FL : !FieldLaws F, !Poseidon F}.
Implicit Types (r : CircuitMatchNative F) (ext : AuctionExternalInputs F) (acc : RowAcc (F:=F)).

(** The accumulator after a row. *)
Definition push_row acc r : RowAcc :=
  mkRowAcc (settlement_chain (ra_settlement acc) (settled_rows [r])) (ra_leaves acc ++ row_leaves r)
    (ra_notionals acc ++ [row_notional r])
    (if fr_eqb (c_is_active r) fr_one then (ra_active acc + fr_one)%fr else ra_active acc).

Lemma solvency_bid (bal price sz : F) :
  fr_to_Z bal < 2 ^ 60 -> fr_to_Z price < 2 ^ 60 -> fr_to_Z sz < 2 ^ 60 ->
  enforce_range_n (bal * scale_factor - price * sz)%fr SOLVENCY_DIFF_BITS = true <->
  fr_to_Z price * fr_to_Z sz <= fr_to_Z bal * SCALE_FACTOR_I128.
Proof.
  intros Hb Hp Hs. pose proof (fr_to_Z_range bal). pose proof (fr_to_Z_range price). pose proof (fr_to_Z_range sz).
  pose proof FR_bounds as [HF _]. assert (Hq : 2 ^ 130 = 2 ^ 60 * 2 ^ 60 * 1024) by reflexivity.
  assert (Hr : 2 ^ 120 = 2 ^ 60 * 2 ^ 60) by reflexivity.
  rewrite enforce_range_spec by (unfold SOLVENCY_DIFF_BITS, FR_BITS; lia).
  unfold scale_factor. rewrite fr_sub_spec, !fr_mul_spec, fr_of_Z_spec.
  rewrite (Z.mod_small SCALE_FACTOR_I128) by done. unfold SCALE_FACTOR_I128 in *.
  rewrite (Z.mod_small (fr_to_Z bal * _)), (Z.mod_small (fr_to_Z price * _)) by nia. apply range_sub_Z; [unfold SOLVENCY_DIFF_BITS; lia|..|nia].
  change (Z.of_nat SOLVENCY_DIFF_BITS) with 120. nia.
Qed.

Lemma solvency_ask (bal sz : F) :
  fr_to_Z bal < 2 ^ 60 -> fr_to_Z sz < 2 ^ 60 ->
  enforce_range_n (bal - sz)%fr SOLVENCY_DIFF_BITS = true <-> fr_to_Z sz <= fr_to_Z bal.
Proof.
  intros Hb Hs. pose proof (fr_to_Z_range bal). pose proof (fr_to_Z_range sz). assert (Hq : 2 ^ 60 < 2 ^ 120) by reflexivity.
  rewrite enforce_range_spec by (unfold SOLVENCY_DIFF_BITS, FR_BITS; lia). rewrite fr_sub_spec.
  change (Z.of_nat SOLVENCY_DIFF_BITS) with 120. apply range_sub_Z; lia.
Qed.

Lemma position_check (limit pos : F) :
  fr_to_Z limit < 2 ^ 59 ->
  enforce_range_60 (limit - pos)%fr = true /\ enforce_range_60 (limit + pos)%fr = true <-> within (fr_to_Z limit) (fr_to_Z pos).
Proof.
  intros Hl. pose proof (fr_to_Z_range limit). rewrite !range_60, fr_sub_spec, fr_add_spec. apply within_range. lia.
Qed.

Lemma within_mod l x : within l (x mod FR) <-> within l x.
Proof. unfold within. by setoid_rewrite Z.mod_mod. Qed.

(** The side constraint of an active row. *)
Lemma opposite_sides (x y : F) :
  x = fr_zero \/ x = fr_one -> y = fr_zero \/ y = fr_one ->
  fr_eqb (x + y - fr_one)%fr fr_zero = true <-> x = fr_zero /\ y = fr_one \/ x = fr_one /\ y = fr_zero.
Proof.
  intros Hx Hy. rewrite enforce_sub_zero.
  assert (Hadd : forall u v : F, (u + v)%fr = fr_one <-> fr_to_Z (u + v)%fr = 1).
  { intros u v. split; [intros ->; apply fr_one_Z|]. intros E. apply fr_to_Z_inj. by rewrite fr_one_Z. }
  assert (H01 : fr_zero (F:=F) <> fr_one) by (intros E%fr_eqb_spec; by rewrite fr_zero_neq_one in E).
  rewrite Hadd, fr_add_spec.
  destruct Hx as [-> | ->], Hy as [-> | ->]; rewrite ?fr_zero_Z, ?fr_one_Z;
    (split; [intros E; first [by vm_compute in E|by auto]|intros [[? ?]|[? ?]]; first [reflexivity|congruence]]).
Qed.

Lemma bit_gate r : c_is_active r = fr_zero \/ c_is_active r = fr_one -> fr_eqb (c_is_active r) fr_one = false -> c_is_active r = fr_zero.
Proof. intros [? | ->]; [done|by rewrite fr_eqb_refl]. Qed.

(** The accumulator an active row computes. *)
Lemma push_active acc r :
  c_is_active r = fr_one ->
  mkRowAcc (poseidon [ra_settlement acc; c_bid_trader_addr r; c_ask_trader_addr r; c_match_price r; c_match_size r] * fr_one +
            ra_settlement acc * (fr_one - fr_one))%fr
    (ra_leaves acc ++ [(leaf_of r true * fr_one)%fr; (leaf_of r false * fr_one)%fr])
    (ra_notionals acc ++ [(c_match_price r * c_match_size r * fr_one)%fr]) (ra_active acc + fr_one)%fr = push_row acc r.
Proof.
  intros Hact. unfold push_row, settled_rows, row_leaves, row_notional. cbn [flat_map]. rewrite Hact, fr_eqb_refl.
  cbn [app settlement_chain fold_left row_bid_addr row_ask_addr row_price row_size]. rewrite !fr_mul_one. f_equal.
  apply fr_to_Z_inj. rewrite fr_add_spec, fr_mul_spec, fr_sub_spec, Z.sub_diag.
  change (0 mod FR) with 0. rewrite Z.mul_0_r, Z.mod_0_l, Z.add_0_r by done. apply Z.mod_small, fr_to_Z_range.
Qed.

Lemma push_padding acc r :
  c_is_active r = fr_zero ->
  mkRowAcc (poseidon [ra_settlement acc; c_bid_trader_addr r; c_ask_trader_addr r; c_match_price r; c_match_size r] * fr_zero +
            ra_settlement acc * (fr_one - fr_zero))%fr
    (ra_leaves acc ++ [(leaf_of r true * fr_zero)%fr; (leaf_of r false * fr_zero)%fr])
    (ra_notionals acc ++ [(c_match_price r * c_match_size r * fr_zero)%fr]) (ra_active acc + fr_zero)%fr = push_row acc r.
Proof.
  intros Hact. unfold push_row, settled_rows, row_leaves, row_notional. cbn [flat_map]. rewrite Hact, fr_zero_neq_one.
  cbn [app settlement_chain fold_left]. rewrite !fr_mul_zero.
  f_equal; apply fr_to_Z_inj; rewrite fr_add_spec, ?fr_mul_spec, ?fr_sub_spec, ?fr_one_Z, ?fr_zero_Z.
  - rewrite Z.add_0_l, Z.mod_mod, Z.sub_0_r, (Z.mod_small 1), Z.mul_1_r by done. apply Z.mod_small, fr_to_Z_range.
  - rewrite Z.add_0_r. apply Z.mod_small, fr_to_Z_range.
Qed.

(** Constraint by constraint: the assignment of an active row. *)
Lemma row_active_sound ext acc acc' r :
  policy_bounded ext -> c_is_active r = fr_one -> row_constraints ext acc r = Some acc' ->
  row_bounded r /\ trade_ok ext r /\ acc' = push_row acc r.
Proof.
  intros (Hms & Hmp & Hlim) Hact. unfold row_constraints. cbv zeta. rewrite !enforce_Some, !enforce_bit, Hact.
  change (poseidon [c_bid_trader r; c_bid_side r; c_bid_limit_price r; c_bid_order_size r; c_bid_salt r]) with (leaf_of r true).
  change (poseidon [c_ask_trader r; c_ask_side r; c_ask_limit_price r; c_ask_order_size r; c_ask_salt r]) with (leaf_of r false).
  rewrite push_active by done.
  intros (Hbs & Has & _ & Hop & Hsz & Hbl & Hal & Hpr & Hminsz & Hminpr & Hbc & Hac & Huni & Hbos & Haos & Hbf & Haf &
    Hbm & Ham & Hbb & Hab & Hbsol & Hasol & Hbp1 & Hbp2 & Hap1 & Hap2 & Hbid & Haid & [= <-]).
  rewrite !fr_mul_one in *. rewrite range_60 in Hsz, Hbl, Hal, Hpr, Hbos, Haos, Hbb, Hab.
  rewrite opposite_sides in Hop by done. rewrite range_sub_60 in Hminsz, Hminpr, Hbc, Hac, Hbf, Haf by done.
  rewrite enforce_sub_zero in Huni, Hbm, Ham, Hbid, Haid. rewrite solvency_bid in Hbsol by done. rewrite solvency_ask in Hasol by done.
  rewrite merkle_root_var_climb in Hbm, Ham.
  pose proof (proj1 (position_check _ _ Hlim) (conj Hbp1 Hbp2)) as Hb. pose proof (proj1 (position_check _ _ Hlim) (conj Hap1 Hap2)) as Ha.
  rewrite fr_add_spec, within_mod in Hb. rewrite fr_sub_spec, within_mod in Ha.
  split; [by split|]. split; [|done]. by split.
Qed.

Lemma row_active_complete ext acc r :
  policy_bounded ext -> c_is_active r = fr_one -> row_bounded r -> trade_ok ext r ->
  row_constraints ext acc r = Some (push_row acc r).
Proof.
  intros (Hms & Hmp & Hlim) Hact [] []. unfold row_constraints. cbv zeta. rewrite !enforce_Some, !enforce_bit, Hact.
  change (poseidon [c_bid_trader r; c_bid_side r; c_bid_limit_price r; c_bid_order_size r; c_bid_salt r]) with (leaf_of r true).
  change (poseidon [c_ask_trader r; c_ask_side r; c_ask_limit_price r; c_ask_order_size r; c_ask_salt r]) with (leaf_of r false).
  rewrite push_active by done. rewrite !fr_mul_one, opposite_sides, solvency_bid, solvency_ask by done.
  rewrite !enforce_sub_zero, !merkle_root_var_climb, !range_sub_60, !range_60 by done.
  assert (Hb : within (fr_to_Z (ai_position_limit ext)) (fr_to_Z (c_bid_position r + c_match_size r)%fr)).
  { by rewrite fr_add_spec, within_mod. }
  assert (Ha : within (fr_to_Z (ai_position_limit ext)) (fr_to_Z (c_ask_position r - c_match_size r)%fr)).
  { by rewrite fr_sub_spec, within_mod. }
  apply position_check in Hb as [Hb1 Hb2]; [|done]. apply position_check in Ha as [Ha1 Ha2]; [|done].
  rewrite !range_60 in Hb1, Hb2, Ha1, Ha2. split_and!; try done; auto.
Qed.

(** Padding is constrained by the bounds alone. *)
Lemma row_padding_spec ext acc acc' r :
  c_is_active r = fr_zero -> row_constraints ext acc r = Some acc' <-> row_bounded r /\ acc' = push_row acc r.
Proof.
  intros Hact. unfold row_constraints. cbv zeta. rewrite !enforce_Some, !enforce_bit, Hact.
  change (poseidon [c_bid_trader r; c_bid_side r; c_bid_limit_price r; c_bid_order_size r; c_bid_salt r]) with (leaf_of r true).
  change (poseidon [c_ask_trader r; c_ask_side r; c_ask_limit_price r; c_ask_order_size r; c_ask_salt r]) with (leaf_of r false).
  rewrite push_padding by done. rewrite !fr_mul_zero, !fr_eqb_refl, !range_60.
  assert (Hz : forall n, (n <= FR_BITS)%nat -> enforce_range_n (fr_zero (F:=F)) n = true).
  { intros n Hn. rewrite enforce_range_spec, fr_zero_Z by done. lia. }
  rewrite !Hz by (unfold SOLVENCY_DIFF_BITS, FR_BITS; lia). rewrite !fr_zero_Z. split.
  - intros (? & ? & _ & _ & ? & ? & ? & ? & _ & _ & _ & _ & _ & ? & ? & _ & _ & _ & _ & ? & ? & _ & _ & _ & _ & _ & _ & _ & _ & [= <-]).
    split; [by split|done].
  - intros [[] ->]. split_and!; try done; auto.
Qed.
End row_facts.

(** ** The step *)

Section step_facts.
Context {F : Type} `{!FieldOps F, FL : !FieldLaws F, !Poseidon F}.
Implicit Types (r : CircuitMatchNative F) (ext : AuctionExternalInputs F) (acc : RowAcc (F:=F)).

Lemma row_constraints_spec ext acc acc' r :
  policy_bounded ext -> row_constraints ext acc r = Some acc' <-> row_ok ext r /\ acc' = push_row acc r.
Proof.
  intros Hp. unfold row_ok. split.
  - intros Hr. assert (Hbit : c_is_active r = fr_zero \/ c_is_active r = fr_one).
    { unfold row_constraints in Hr. cbv zeta in Hr. rewrite !enforce_Some, !enforce_bit in Hr. tauto. }
    destruct Hbit as [Hz|Ho].
    + apply row_padding_spec in Hr as [? ->]; auto.
    + apply row_active_sound in Hr as (? & ? & ->); auto.
  - intros [[Hb [Hz|[Ho Ht]]] ->]; [by apply row_padding_spec|by apply row_active_complete].
Qed.

Lemma rows_constraints_spec ext rows acc acc' :
  policy_bounded ext ->
  rows_constraints ext acc rows = Some acc' <-> Forall (row_ok ext) rows /\ acc' = fold_left push_row rows acc.
Proof.
  intros Hp. revert acc. induction rows as [|r rows IH]; intros acc; cbn [rows_constraints fold_left].
  - split; [intros [= <-]; auto|by intros [_ ->]].
  - destruct (row_constraints ext acc r) as [acc1|] eqn:Hr.
    + apply row_constraints_spec in Hr as [Hok ->]; [|done]. rewrite IH, Forall_cons. tauto.
    + split; [done|]. intros [[Hok _]%Forall_cons _].
      rewrite (proj2 (row_constraints_spec ext acc (push_row acc r) r Hp)) in Hr by done. done.
Qed.

Lemma settlement_chain_app (s : F) l1 l2 : settlement_chain s (l1 ++ l2) = settlement_chain (settlement_chain s l1) l2.
Proof. apply fold_left_app. Qed.

Lemma push_rows s leaves notionals k rows :
  fold_left push_row rows (mkRowAcc s leaves notionals (fr_of_Z (F:=F) (Z.of_nat k))) =
  mkRowAcc (settlement_chain s (settled_rows rows)) (leaves ++ flat_map row_leaves rows)
    (notionals ++ map row_notional rows) (fr_of_Z (Z.of_nat (k + active_count rows))).
Proof.
  revert s leaves notionals k. induction rows as [|r rows IH]; intros s leaves notionals k; cbn [fold_left].
  { by rewrite !app_nil_r, Nat.add_0_r. }
  unfold push_row at 2. cbn [ra_settlement ra_leaves ra_notionals ra_active].
  assert (Hk : (if fr_eqb (c_is_active r) fr_one then (fr_of_Z (Z.of_nat k) + fr_one)%fr else fr_of_Z (Z.of_nat k)) =
    fr_of_Z (F:=F) (Z.of_nat (k + active_count [r]))).
  { unfold active_count. cbn [List.filter]. destruct (fr_eqb _ _); simpl; [|by rewrite Nat.add_0_r].
    apply fr_to_Z_inj. rewrite fr_add_spec, !fr_of_Z_spec, fr_one_Z, Nat2Z.inj_add. apply Zplus_mod_idemp_l. }
  rewrite Hk, IH. cbn [map flat_map]. f_equal.
  - change (settled_rows (r :: rows)) with (settled_rows ([r] ++ rows)).
    unfold settled_rows. by rewrite flat_map_app, settlement_chain_app.
  - by rewrite app_assoc.
  - by rewrite <- app_assoc.
  - f_equal. unfold active_count. cbn [List.filter]. destruct (fr_eqb _ _); simpl; lia.
Qed.

(** The rows as the circuit allocates them. *)
Definition padded ext : AuctionExternalInputs F :=
  set_inputs_matches ext (ai_admitted_root ext)
    (ai_matches ext ++ replicate (IVC_BATCH_SIZE - length (ai_matches ext)) default_row).

Lemma alloc_padded ext : (length (ai_matches ext) <= IVC_BATCH_SIZE)%nat -> alloc_inputs ext = Ret (padded ext).
Proof.
  intros Hlen. unfold alloc_inputs, padded, set_inputs_matches. rewrite (proj2 (Nat.leb_le _ _) Hlen). repeat f_equal.
  apply list_eq. intros i. rewrite list_lookup_fmap. destruct (decide (i < IVC_BATCH_SIZE)%nat) as [Hi|Hi].
  - rewrite lookup_seq_lt by lia. cbn [fmap option_fmap option_map]. rewrite Nat.add_0_l.
    destruct (decide (i < length (ai_matches ext))%nat) as [Hl|Hl].
    + rewrite lookup_app_l by done. destruct (lookup_lt_is_Some_2 _ _ Hl) as [x ->]. done.
    + rewrite lookup_app_r, lookup_replicate_2, (lookup_ge_None_2 (ai_matches ext) i) by lia. done.
  - rewrite lookup_seq_ge, lookup_ge_None_2 by (rewrite ?length_app, ?length_replicate; lia). done.
Qed.

Lemma default_row_ok ext : row_ok ext (default_row (F:=F)).
Proof.
  split; [|by left]. split; cbn [default_row c_bid_side c_ask_side c_match_size c_bid_limit_price c_ask_limit_price c_match_price
    c_bid_order_size c_ask_order_size c_bid_balance c_ask_balance]; rewrite ?fr_zero_Z; (by auto || lia).
Qed.

Lemma row_ok_padded ext r : row_ok (padded ext) r <-> row_ok ext r.
Proof. unfold row_ok. split; (intros [? [?|[? []]]]; (split; [done|]); [by left|right; split; [done|by split]]). Qed.

Lemma rows_ok_padded ext : Forall (row_ok (padded ext)) (ai_matches (padded ext)) <-> Forall (row_ok ext) (ai_matches ext).
Proof.
  cbn [padded set_inputs_matches ai_matches]. rewrite Forall_app, !Forall_forall. setoid_rewrite row_ok_padded.
  split; [by intros [? _]|]. intros Hr. split; [done|]. intros r [-> _]%elem_of_replicate. apply default_row_ok.
Qed.

Lemma step_spec batch_size h n p s a zs ext z' :
  policy_bounded ext -> (batch_size <= IVC_BATCH_SIZE)%nat -> (length (ai_matches ext) <= IVC_BATCH_SIZE)%nat ->
  step batch_size (h :: n :: p :: s :: a :: zs) ext = Ret (Some z') <->
  p = poseidon [ai_min_size ext; ai_min_price ext; ai_position_limit ext] /\
  Forall (row_ok ext) (ai_matches ext) /\ z' = next_state h n p s a (padded ext).
Proof.
  intros Hp Hbs Hlen. unfold step. rewrite alloc_padded by done. cbn [mbind outcome_bind].
  unfold generate_step_constraints. cbn [lookup list_lookup or_panic mbind outcome_bind].
  rewrite (proj2 (Nat.leb_le _ _) Hbs). cbn [negb].
  change (fr_zero (F:=F)) with (fr_of_Z (F:=F) (Z.of_nat 0)).
  set (rows := ai_matches (padded ext)). set (acc0 := mkRowAcc s [] [] (fr_of_Z (Z.of_nat 0))).
  assert (Hspec : forall acc, rows_constraints (padded ext) acc0 rows = Some acc <-> Forall (row_ok ext) (ai_matches ext) /\
    acc = mkRowAcc (settlement_chain s (settled_rows rows)) (flat_map row_leaves rows) (map row_notional rows)
      (fr_of_Z (Z.of_nat (active_count rows)))).
  { intros acc. rewrite rows_constraints_spec by done. unfold rows, acc0. by rewrite rows_ok_padded, push_rows. }
  rewrite <- fr_eqb_spec. split.
  - intros [= [Hpol Hrest]%enforce_Some]. destruct (rows_constraints _ _ _) as [acc|]; [|done].
    destruct (proj1 (Hspec acc) eq_refl) as [Hok ->]. injection Hrest as <-. split_and!; [|done|done].
    apply fr_eqb_spec. apply fr_eqb_spec in Hpol. by symmetry.
  - intros (Hpol & Hok & ->). f_equal. apply enforce_Some. split.
    + apply fr_eqb_spec. apply fr_eqb_spec in Hpol. by symmetry.
    + rewrite (proj2 (Hspec _) (conj Hok eq_refl)). done.
Qed.

(** C15: the step circuit is exact.  For a policy within the range checks, a step
    accepts its inputs if and only if the policy opens the policy hash of the
    state, every row is within bounds and every active row is a trade at the
    one clearing price, between the limits of both orders, within the sizes they
    commit to and above the minima, whose two commitments have paths to the
    admitted root, whose buyer has the quote and whose seller has the base,
    within the position limit on both sides, with identities derived from the
    settled addresses.  The state it leads to is the native one: the settlement
    chain over the active rows and the chain of admitted roots. *)
Theorem step_exact batch_size h n p s a zs ext z' :
  policy_bounded ext -> (batch_size <= IVC_BATCH_SIZE)%nat -> (length (ai_matches ext) <= IVC_BATCH_SIZE)%nat ->
  step batch_size (h :: n :: p :: s :: a :: zs) ext = Ret (Some z') <->
  p = poseidon [ai_min_size ext; ai_min_price ext; ai_position_limit ext] /\
  Forall (row_ok ext) (ai_matches ext) /\ z' = next_state h n p s a (padded ext).
Proof. apply step_spec. Qed.
End step_facts.
