(* ===== verification/Folding.v ===== *)
(** * Folding

    [dp-zk/src/folding.rs] and [dp-aggregator]: the accumulator of a pair's rounds,
    the in-process aggregator with one accumulator per pair, and the aggregators
    that do not fold.  The folding scheme is a library and a parameter:
    [HyperNova] is its interface, and [HyperNovaLaws] says that an accumulator
    starts at its initial state, that a satisfied step advances the state as the
    step circuit says, and that proofs survive serialization. *)

From S2P Require Import Prelude Decimal Types Field Auction Events Book Merkle EngineState Engine Witness Tick Batch Circuit.
Open Scope Z_scope.

(** A step of the library returns [None] when it panics. *)
Class HyperNova (F H P : Type) := {
  hn_init : nat -> list F -> result H Str;
  hn_prove_step : Z -> H -> AuctionExternalInputs F -> H * option (result unit Str);
  hn_ivc_proof : H -> P;
  ivc_z_0 : P -> list F;
  ivc_z_i : P -> list F;
  ivc_serialize : P -> result bytes Str;
  ivc_deserialize : bytes -> result P Str;
  hn_verify : P -> result unit Str
}.

Record FoldingAccumulator (F H : Type) := mkFoldingAccumulator { fa_hn : H; fa_z_0 : list F; fa_n_steps : Z }.
Arguments mkFoldingAccumulator {F H}.
Arguments fa_hn {F H}.
Arguments fa_z_0 {F H}.
Arguments fa_n_steps {F H}.

Record IvcRoundState (F H : Type) := mkIvcRoundState { ir_acc : FoldingAccumulator F H; ir_round_index : Z }.
Arguments mkIvcRoundState {F H}.
Arguments ir_acc {F H}.
Arguments ir_round_index {F H}.

Record InlineFoldingAggregator (F H : Type) := mkInlineAggregator {
  ag_state : gmap Str (IvcRoundState F H);
  ag_batch_size : nat;
  ag_settlement_domain : F;
  ag_finalize_every : Z
}.
Arguments mkInlineAggregator {F H}.
Arguments ag_state {F H}.
Arguments ag_batch_size {F H}.
Arguments ag_settlement_domain {F H}.
Arguments ag_finalize_every {F H}.

Section folding.
Context {F H P : Type} `{!FieldOps F, !Poseidon F, HN : !HyperNova F H P}.

(** ** The accumulator *)

Definition init_accumulator (batch_size : nat) (z_0 : list F) : result (FoldingAccumulator F H) ZkError :=
  match hn_init batch_size z_0 with
  | Err e => Err (ZkIvc (str "init: " ++ e))
  | Ok hn => Ok (mkFoldingAccumulator hn z_0 0)
  end.

(** The accumulator is updated in place, also by a step that fails. *)
Definition fold_step (rng : Z) (acc : FoldingAccumulator F H) (ext : AuctionExternalInputs F) :
    FoldingAccumulator F H * option (result unit ZkError) :=
  match hn_prove_step rng (fa_hn acc) ext with
  | (hn, None) => (mkFoldingAccumulator hn (fa_z_0 acc) (fa_n_steps acc), None)
  | (hn, Some (Err e)) => (mkFoldingAccumulator hn (fa_z_0 acc) (fa_n_steps acc), Some (Err (ZkIvc (str "prove_step: " ++ e))))
  | (hn, Some (Ok _)) => (mkFoldingAccumulator hn (fa_z_0 acc) (wrap64 (fa_n_steps acc + 1)), Some (Ok tt))
  end.

Definition compress_and_finalize (acc : FoldingAccumulator F H) : result (FinalProof F) ZkError :=
  let ivc_proof := hn_ivc_proof (fa_hn acc) in
  match ivc_z_i ivc_proof with
  | [h; n; p; s; a] =>
    match ivc_serialize ivc_proof with
    | Err e => Err (ZkSerialize e)
    | Ok proof_bytes => Ok (mkFinalProof proof_bytes (fa_z_0 acc) [h; n; p; s; a] (fa_n_steps acc) p)
    end
  | _ => Err (ZkIvc (str "z_i has wrong length"))
  end.

Definition list_eqb (l1 l2 : list F) : bool := (length l1 =? length l2)%nat && forallb (fun xy => fr_eqb xy.1 xy.2) (zip l1 l2).

Definition verify_final (proof : FinalProof F) : result unit ZkError :=
  match ivc_deserialize (fp_proof_bytes proof) with
  | Err e => Err (ZkSerialize (str "deserialize ivc_proof: " ++ e))
  | Ok ivc_proof =>
    match hn_verify ivc_proof with
    | Err e => Err (ZkIvc (str "verify: " ++ e))
    | Ok _ =>
      if negb (list_eqb (ivc_z_0 ivc_proof) (fp_z_0 proof)) then
        Err (ZkIvc (str "z_0 mismatch: FinalProof.z_0 does not match the verified proof"))
      else if negb (list_eqb (ivc_z_i ivc_proof) (fp_z_n proof)) then
        Err (ZkIvc (str "z_n mismatch: FinalProof.z_n does not match the verified proof"))
      else if negb (fr_eqb (fp_policy_hash proof) (nth 2 (fp_z_n proof) fr_zero)) then
        Err (ZkIvc (str "policy_hash mismatch: FinalProof.policy_hash does not equal z_n[2]"))
      else Ok tt
    end
  end.

(** ** The aggregator *)

Definition new_with_settlement_domain (batch_size : nat) (finalize_every : Z) (settlement_domain : F) : InlineFoldingAggregator F H :=
  mkInlineAggregator ∅ batch_size settlement_domain finalize_every.

Definition aggregator_new (batch_size : nat) (finalize_every : Z) : InlineFoldingAggregator F H :=
  new_with_settlement_domain batch_size finalize_every fr_zero.

Definition compute_z_0 (ext : AuctionExternalInputs F) (settlement_domain : F) : list F :=
  [fr_zero; fr_zero; poseidon [ai_min_size ext; ai_min_price ext; ai_position_limit ext]; settlement_domain; fr_zero].

Definition set_round (a : InlineFoldingAggregator F H) (pair : Str) (st : IvcRoundState F H) : InlineFoldingAggregator F H :=
  mkInlineAggregator (<[pair := st]> (ag_state a)) (ag_batch_size a) (ag_settlement_domain a) (ag_finalize_every a).

(** A panic of the blocking task is an error of the join. *)
Definition inline_fold_step (rng : Z) (a : InlineFoldingAggregator F H) (pair : Str) (ext : AuctionExternalInputs F) :
    InlineFoldingAggregator F H * result unit AggregatorError :=
  let z_0 := compute_z_0 ext (ag_settlement_domain a) in
  let entry := match ag_state a !! pair with
               | Some st => Ok st
               | None =>
                 match init_accumulator (ag_batch_size a) z_0 with
                 | Err e => Err (AggZk (str "init_accumulator"))
                 | Ok acc => Ok (mkIvcRoundState acc 0)
                 end
               end in
  match entry with
  | Err e => (a, Err e)
  | Ok st =>
    match fold_step rng (ir_acc st) ext with
    | (acc, Some (Ok _)) => (set_round a pair (mkIvcRoundState acc (wrap64 (ir_round_index st + 1))), Ok tt)
    | (acc, Some (Err e)) => (set_round a pair (mkIvcRoundState acc (ir_round_index st)), Err (AggZk (str "prove_step")))
    | (acc, None) => (set_round a pair (mkIvcRoundState acc (ir_round_index st)), Err (AggZk (str "spawn_blocking")))
    end
  end.

(** Finalizing reads the accumulator and leaves it as it is. *)
Definition inline_finalize (a : InlineFoldingAggregator F H) (pair : Str) : result (FinalProof F) AggregatorError :=
  match ag_state a !! pair with
  | None => Err (AggZk (str "no IVC state for pair"))
  | Some st =>
    match compress_and_finalize (ir_acc st) with
    | Ok fp => Ok fp
    | Err _ => Err (AggZk (str "compress_and_finalize"))
    end
  end.

Definition inline_aggregate : result bytes AggregatorError :=
  Err (AggZk (str "aggregate is not supported for InlineFoldingAggregator; use fold_step/finalize")).

(** ** The aggregators that do not fold *)

Definition noop_aggregate : result bytes AggregatorError := Ok (replicate 32 0).
Definition noop_fold_step (pair : Str) (ext : AuctionExternalInputs F) : result unit AggregatorError := Ok tt.
Definition noop_finalize (pair : Str) : result (FinalProof F) AggregatorError :=
  Ok (mkFinalProof (replicate 32 0) (replicate 5 fr_zero) (replicate 5 fr_zero) 0 fr_zero).

Definition subprocess_fold_step (pair : Str) (ext : AuctionExternalInputs F) : result unit AggregatorError :=
  Err (AggZk (str "SubprocessAggregator does not support IVC fold_step")).
Definition subprocess_finalize (pair : Str) : result (FinalProof F) AggregatorError :=
  Err (AggZk (str "SubprocessAggregator does not support IVC finalize")).
End folding.

(** ** What is relied on *)

(** [hn_at bs z_0 z h]: the accumulator [h] of the step circuit of width [bs]
    proves that [z] is reached from [z_0]. *)
Class HyperNovaLaws (F H P : Type) `{!FieldOps F, !Poseidon F, HN : !HyperNova F H P} := {
  hn_at : nat -> list F -> list F -> H -> Prop;
  hn_init_at : forall bs z_0, length z_0 = 5%nat -> exists h, hn_init bs z_0 = Ok h /\ hn_at bs z_0 z_0 h;
  hn_step_at : forall rng bs z_0 z z' h ext, hn_at bs z_0 z h -> step bs z ext = Ret (Some z') ->
    exists h', hn_prove_step rng h ext = (h', Some (Ok tt)) /\ hn_at bs z_0 z' h';
  hn_proof_at : forall bs z_0 z h, hn_at bs z_0 z h ->
    ivc_z_0 (hn_ivc_proof h) = z_0 /\ ivc_z_i (hn_ivc_proof h) = z /\ hn_verify (hn_ivc_proof h) = Ok tt /\
    exists b, ivc_serialize (hn_ivc_proof h) = Ok b /\ ivc_deserialize b = Ok (hn_ivc_proof h)
}.

Section folding_facts.
Context {F H P : Type} `{!FieldOps F, !FieldLaws F, !Poseidon F, HN : !HyperNova F H P, HL : !HyperNovaLaws F H P}.
Implicit Types (a : InlineFoldingAggregator F H).

Lemma list_eqb_refl (l : list F) : list_eqb l l = true.
Proof.
  unfold list_eqb. rewrite Nat.eqb_refl. cbn [andb]. induction l as [|x l IH]; [done|]. cbn [zip zip_with forallb fst snd].
  rewrite IH. unfold fr_eqb. by rewrite Z.eqb_refl.
Qed.

(** The chain of a pair: its accumulator has reached [z] after [n] rounds. *)
Definition chain_at a (pair : Str) (z_0 z : list F) (n : Z) : Prop :=
  exists st, ag_state a !! pair = Some st /\ fa_z_0 (ir_acc st) = z_0 /\ fa_n_steps (ir_acc st) = n /\
    hn_at (ag_batch_size a) z_0 z (fa_hn (ir_acc st)).

(** The state a fold starts from. *)
Definition starts_at a (pair : Str) (ext : AuctionExternalInputs F) (z_0 z : list F) (n : Z) : Prop :=
  chain_at a pair z_0 z n \/
  ag_state a !! pair = None /\ z_0 = compute_z_0 ext (ag_settlement_domain a) /\ z = z_0 /\ n = 0.

Lemma inline_fold_step_ok rng a pair ext z_0 z z' n :
  starts_at a pair ext z_0 z n -> step (ag_batch_size a) z ext = Ret (Some z') -> 0 <= n < u64_max ->
  exists a', inline_fold_step rng a pair ext = (a', Ok tt) /\ chain_at a' pair z_0 z' (n + 1) /\
    ag_batch_size a' = ag_batch_size a /\ ag_settlement_domain a' = ag_settlement_domain a.
Proof.
  intros Hs Hst Hn. unfold inline_fold_step, fold_step.
  assert (exists st, match ag_state a !! pair with
      | Some st => Ok st
      | None => match init_accumulator (ag_batch_size a) (compute_z_0 ext (ag_settlement_domain a)) with
                | Ok acc => Ok (mkIvcRoundState acc 0)
                | Err e => Err (AggZk (str "init_accumulator"))
                end
      end = Ok st /\ fa_z_0 (ir_acc st) = z_0 /\ fa_n_steps (ir_acc st) = n /\
      hn_at (ag_batch_size a) z_0 z (fa_hn (ir_acc st))) as (st & -> & Hz & Hk & Hat).
  { destruct Hs as [(st & -> & ? & ? & ?)|(-> & -> & -> & ->)]; [eauto|].
    unfold init_accumulator. destruct (hn_init_at (ag_batch_size a) (compute_z_0 ext (ag_settlement_domain a)) eq_refl) as (h & -> & ?).
    eexists. split; [reflexivity|]. done. }
  destruct (hn_step_at rng _ _ _ _ _ ext Hat Hst) as (h' & -> & Hat'). eexists. split; [reflexivity|].
  split; [|done]. eexists. split; [apply lookup_insert_eq|]. cbn. rewrite Hk, Hz. split_and!; [done| |done].
  unfold wrap64. rewrite Z.mod_small; [done|]. unfold u64_max in Hn. lia.
Qed.

(** A finalized proof carries the initial and the reached state, and verifies. *)
Lemma inline_finalize_ok a pair z_0 h n p s ad k :
  chain_at a pair z_0 [h; n; p; s; ad] k ->
  exists fp, inline_finalize a pair = Ok fp /\ fp_z_0 fp = z_0 /\ fp_z_n fp = [h; n; p; s; ad] /\ fp_n_steps fp = k /\
    fp_policy_hash fp = p /\ verify_final fp = Ok tt.
Proof.
  intros (st & Hst & Hz & Hk & Hat). destruct (hn_proof_at _ _ _ _ Hat) as (H0 & Hi & Hv & b & Hb & Hd).
  unfold inline_finalize, compress_and_finalize. rewrite Hst, Hi, Hb, Hz, Hk. eexists. split; [reflexivity|].
  cbn [fp_z_0 fp_z_n fp_n_steps fp_policy_hash]. do 4 (split; [done|]).
  unfold verify_final. cbn [fp_proof_bytes fp_z_0 fp_z_n fp_policy_hash nth]. rewrite Hd, Hv, H0, Hi, !list_eqb_refl. cbn [negb].
  unfold fr_eqb. by rewrite Z.eqb_refl.
Qed.
End folding_facts.
