(* ===== verification/Evm.v ===== *)
(** * Contracts: arithmetic, storage and encodings of the EVM

    What the Solidity sources use of their language: checked arithmetic on
    [uint256], [addmod] and [mulmod], reverting calls, mappings with a zero
    default, and [abi.encode].  A call that reverts is an [Err] with its reason;
    the state of the caller is then unchanged. *)

From S2P Require Import Prelude Types Field.
Open Scope Z_scope.

(** ** Checked arithmetic *)

Definition u256_max : Z := 2 ^ 256 - 1.

Definition is_u256 (z : Z) : Prop := 0 <= z <= u256_max.

(** [Panic(0x11)]: overflow or underflow. *)
Definition panic11 : Str := str "Panic(0x11)".

Definition add_u256 (a b : Z) : result Z Str := if a + b <=? u256_max then Ok (a + b) else Err panic11.
Definition sub_u256 (a b : Z) : result Z Str := if b <=? a then Ok (a - b) else Err panic11.
Definition mul_u256 (a b : Z) : result Z Str := if a * b <=? u256_max then Ok (a * b) else Err panic11.
Definition pow_u256 (a n : Z) : result Z Str := if a ^ n <=? u256_max then Ok (a ^ n) else Err panic11.

Definition addmod (a b n : Z) : Z := (a + b) mod n.
Definition mulmod (a b n : Z) : Z := (a * b) mod n.

Lemma add_u256_Ok a b c : add_u256 a b = Ok c <-> c = a + b /\ a + b <= u256_max.
Proof. unfold add_u256. destruct (Z.leb_spec (a + b) u256_max); naive_solver lia. Qed.

Lemma sub_u256_Ok a b c : sub_u256 a b = Ok c <-> c = a - b /\ b <= a.
Proof. unfold sub_u256. destruct (Z.leb_spec b a); naive_solver lia. Qed.

Lemma mul_u256_Ok a b c : mul_u256 a b = Ok c <-> c = a * b /\ a * b <= u256_max.
Proof. unfold mul_u256. destruct (Z.leb_spec (a * b) u256_max); naive_solver lia. Qed.

Lemma pow_u256_Ok a n c : pow_u256 a n = Ok c <-> c = a ^ n /\ a ^ n <= u256_max.
Proof. unfold pow_u256. destruct (Z.leb_spec (a ^ n) u256_max); naive_solver lia. Qed.

(** ** Reverts *)

Notation "'require!' c , m ; k" := (if c then k else Err (str m))
  (at level 200, c at level 100, m at level 100, k at level 200, format "'require!'  c ,  m ; '//' k").

Lemma require_Ok {A} (c : bool) (r : result A Str) (m : Str) (a : A) :
  (if c then r else Err m) = Ok a <-> c = true /\ r = Ok a.
Proof. destruct c; naive_solver. Qed.

(** A loop whose body may revert. *)
Fixpoint fold_checked {S A} (f : S -> A -> result S Str) (s : S) (l : list A) : result S Str :=
  match l with
  | [] => Ok s
  | x :: l' => let? s' := f s x in fold_checked f s' l'
  end.

Lemma let_result_Ok {A B E} (r : result A E) (k : A -> result B E) b :
  (let? x := r in k x) = Ok b <-> exists a, r = Ok a /\ k a = Ok b.
Proof. destruct r; naive_solver. Qed.

(** Peel the checks and the reverting steps off a successful call. *)
Ltac peel H :=
  repeat lazymatch type of H with
  | (if _ then _ else Err _) = Ok _ => apply require_Ok in H as [_ H]
  | (let? x := _ in _) = Ok _ => let x := fresh "x" in let Hx := fresh "Hx" in apply let_result_Ok in H as (x & Hx & H)
  | context [let x := _ in _] => cbv zeta in H
  end.

Lemma fold_checked_invariant {S A} (P : S -> Prop) (f : S -> A -> result S Str) s s' l :
  (forall s x s', x ∈ l -> P s -> f s x = Ok s' -> P s') -> P s -> fold_checked f s l = Ok s' -> P s'.
Proof.
  revert s; induction l as [|x l IH]; intros s Hf HP; simpl; [by intros [= <-]|].
  intros (s1 & H1 & H2)%let_result_Ok. apply (IH s1); [|by eapply Hf; [left|..]|done].
  intros ????. apply Hf. by right.
Qed.

(** ** Mappings *)

Definition amount {K} `{Countable K} (m : gmap K Z) (k : K) : Z := default 0 (m !! k).
Definition flag {K} `{Countable K} (m : gmap K bool) (k : K) : bool := default false (m !! k).

Section mapping.
Context {K : Type} `{Countable K}.

Lemma amount_insert (m : gmap K Z) k k' v : amount (<[k := v]> m) k' = if decide (k = k') then v else amount m k'.
Proof. unfold amount. rewrite lookup_insert. by case_decide. Qed.

Lemma flag_insert (m : gmap K bool) k k' v : flag (<[k := v]> m) k' = if decide (k = k') then v else flag m k'.
Proof. unfold flag. rewrite lookup_insert. by case_decide. Qed.
End mapping.

(** ** A total over the accounts of one token *)

Definition account : Type := Address * Address.

Definition total_of (t : Address) (m : gmap account Z) : Z :=
  map_fold (fun (k : account) v acc => (if decide (k.2 = t) then v else 0) + acc) 0 m.

Lemma total_of_empty t : total_of t ∅ = 0.
Proof. done. Qed.

Lemma total_of_fresh t m (k : account) v :
  m !! k = None -> total_of t (<[k := v]> m) = (if decide (k.2 = t) then v else 0) + total_of t m.
Proof. intros Hk. unfold total_of. rewrite map_fold_insert_L; [done|intros; lia|done]. Qed.

Lemma total_of_insert t m (k : account) v :
  total_of t (<[k := v]> m) = total_of t m + (if decide (k.2 = t) then v - amount m k else 0).
Proof.
  unfold amount. destruct (m !! k) as [u|] eqn:Hk; simpl.
  - rewrite <- (insert_delete_id m k u Hk) at 2. rewrite <- (insert_delete_eq m k v).
    rewrite !total_of_fresh by apply lookup_delete_eq. case_decide; lia.
  - rewrite total_of_fresh by done. case_decide; lia.
Qed.

(** ** [abi.encode] *)

Inductive AbiArg :=
| AWord (w : Z)
| AString (s : bytes).

Definition pad32 (b : bytes) : bytes := b ++ replicate ((32 - length b mod 32) mod 32) 0.

(** The heads, at [offset] the next tail. *)
Fixpoint abi_heads (offset : Z) (args : list AbiArg) : bytes :=
  match args with
  | [] => []
  | AWord w :: rest => be_bytes 32 w ++ abi_heads offset rest
  | AString s :: rest => be_bytes 32 offset ++ abi_heads (offset + 32 + Z.of_nat (length (pad32 s))) rest
  end.

Definition abi_tails (args : list AbiArg) : bytes :=
  flat_map (fun a => match a with AWord _ => [] | AString s => be_bytes 32 (Z.of_nat (length s)) ++ pad32 s end) args.

Definition abi_encode (args : list AbiArg) : bytes :=
  abi_heads (32 * Z.of_nat (length args)) args ++ abi_tails args.

(** [keccak256] of the EVM. *)
Class Keccak := { keccak256 : bytes -> bytes }.
