(* ===== verification/PoseidonBN254.v ===== *)
(** * Contracts: the Poseidon library

    [contracts/src/PoseidonBN254.sol]: the permutation as one loop over
    sixty-five rounds with unrolled arithmetic, and the hash of five elements.
    The reference below is the sponge in its textbook form: vectors, a power and
    a matrix product, four full, fifty-seven partial and four full rounds. *)

From S2P Require Import Prelude Decimal Field Evm PoseidonConstants.
Open Scope Z_scope.

Notation P := FIELD_MODULUS.

Definition FULL_ROUNDS : nat := 8.
Definition PARTIAL_ROUNDS : nat := 57.
Definition TOTAL_ROUNDS : nat := FULL_ROUNDS + PARTIAL_ROUNDS.
Definition HALF_FULL : nat := FULL_ROUNDS / 2.

Definition sbox (x : Z) : Z :=
  let x2 := mulmod x x P in
  let x4 := mulmod x2 x2 P in
  mulmod x4 x P.

(** One row of the matrix product. *)
Definition mds_row (row : word3) (s : word3) : Z :=
  let '(m0, m1, m2) := row in
  let '(s0, s1, s2) := s in
  addmod (addmod (mulmod m0 s0 P) (mulmod m1 s1 P) P) (mulmod m2 s2 P) P.

(** The body of the loop. *)
Definition permute_round (ark : list word3) (mds : word3 * word3 * word3) (s : word3) (r : nat) : word3 :=
  let '(a0, a1, a2) := nth r ark (0, 0, 0) in
  let '(s0, s1, s2) := s in
  let s0 := addmod s0 a0 P in
  let s1 := addmod s1 a1 P in
  let s2 := addmod s2 a2 P in
  let s := if (r <? HALF_FULL)%nat || (TOTAL_ROUNDS - HALF_FULL <=? r)%nat
           then (sbox s0, sbox s1, sbox s2) else (sbox s0, s1, s2) in
  let '(r0, r1, r2) := mds in
  (mds_row r0 s, mds_row r1 s, mds_row r2 s).

Definition permute (ark : list word3) (mds : word3 * word3 * word3) (s : word3) : word3 :=
  fold_left (permute_round ark mds) (seq 0 TOTAL_ROUNDS) s.

Definition poseidon5 (ark : list word3) (mds : word3 * word3 * word3) (a b c d e : Z) : Z :=
  let '(s0, s1, s2) := (0, 0, 0) in
  let s1 := addmod s1 a P in
  let s2 := addmod s2 b P in
  let '(s0, s1, s2) := permute ark mds (s0, s1, s2) in
  let s1 := addmod s1 c P in
  let s2 := addmod s2 d P in
  let '(s0, s1, s2) := permute ark mds (s0, s1, s2) in
  let s1 := addmod s1 e P in
  let '(s0, s1, s2) := permute ark mds (s0, s1, s2) in
  s1.

(** ** The reference *)

Definition ref_mds (rows : list (list Z)) (s : list Z) : list Z :=
  map (fun row => zsum (zip_with Z.mul row s) mod P) rows.

Definition ref_round (full : bool) (rows : list (list Z)) (s c : list Z) : list Z :=
  let s := zip_with Z.add s c in
  ref_mds rows (if full then map (fun x => x ^ 5) s else alter (fun x => x ^ 5) 0%nat s).

Definition ref_permute (ark rows : list (list Z)) (s : list Z) : list Z :=
  let s := fold_left (ref_round true rows) (take 4 ark) s in
  let s := fold_left (ref_round false rows) (take 57 (drop 4 ark)) s in
  fold_left (ref_round true rows) (drop 61 ark) s.

(** Absorb at rate two, permuting after each block. *)
Fixpoint ref_absorb (ark rows : list (list Z)) (s l : list Z) : list Z :=
  match l with
  | [] => s
  | [a] => ref_permute ark rows (zip_with Z.add s [0; a; 0])
  | a :: b :: l' => ref_absorb ark rows (ref_permute ark rows (zip_with Z.add s [0; a; b])) l'
  end.

Definition list3 (w : word3) : list Z := let '(x, y, z) := w in [x; y; z].
Definition rows3 (m : word3 * word3 * word3) : list (list Z) := let '(x, y, z) := m in [list3 x; list3 y; list3 z].

(** The first rate element. *)
Definition sponge_hash (l : list Z) : Z :=
  nth 1 (ref_absorb (map list3 ark) (rows3 mds) [0; 0; 0] l) 0.

(** ** The library computes the reference *)

Lemma P_pos : 0 < P.
Proof. done. Qed.

(** Equality modulo the field. *)
Definition eqm (x y : Z) : Prop := x mod P = y mod P.

#[local] Instance eqm_equiv : Equivalence eqm.
Proof. split; unfold eqm; [done|by intros ?? ->|by intros ??? -> ->]. Qed.

#[local] Instance add_eqm : Proper (eqm ==> eqm ==> eqm) Z.add.
Proof. intros a b Hab c d Hcd. unfold eqm in *. by rewrite Z.add_mod, Hab, Hcd, <- Z.add_mod by done. Qed.

#[local] Instance mul_eqm : Proper (eqm ==> eqm ==> eqm) Z.mul.
Proof. intros a b Hab c d Hcd. unfold eqm in *. by rewrite Z.mul_mod, Hab, Hcd, <- Z.mul_mod by done. Qed.

Lemma eqm_mod x : eqm (x mod P) x.
Proof. unfold eqm. by rewrite Z.mod_mod. Qed.

Lemma eqm_addmod a b : eqm (addmod a b P) (a + b).
Proof. apply eqm_mod. Qed.

Lemma eqm_mulmod a b : eqm (mulmod a b P) (a * b).
Proof. apply eqm_mod. Qed.

Lemma eqm_sbox x : eqm (sbox x) (x ^ 5).
Proof. unfold sbox. rewrite !eqm_mulmod. replace (x ^ 5) with (x * x * (x * x) * x) by ring. done. Qed.

Lemma eqm_pow5 x y : eqm x y -> eqm (x ^ 5) (y ^ 5).
Proof. intros Hxy. replace (x ^ 5) with (x * x * x * x * x) by ring. replace (y ^ 5) with (y * y * y * y * y) by ring. by rewrite Hxy. Qed.

(** A state of the loop and a vector that agree modulo the field. *)
Definition agree (w : word3) (l : list Z) : Prop := let '(x, y, z) := w in exists a b c, l = [a; b; c] /\ eqm x a /\ eqm y b /\ eqm z c.

Lemma mds_row_ref row s l : agree s l -> mds_row row s = zsum (zip_with Z.mul (list3 row) l) mod P.
Proof.
  destruct row as [[m0 m1] m2], s as [[x y] z]. intros (a & b & c & -> & Ha & Hb & Hc). simpl.
  change (eqm (addmod (mulmod m0 x P) (mulmod m1 y P) P + mulmod m2 z P) (m0 * a + (m1 * b + (m2 * c + 0)))).
  rewrite eqm_addmod, !eqm_mulmod, Ha, Hb, Hc. unfold eqm. f_equal. ring.
Qed.

Lemma permute_round_ref arks rows s l r :
  (r < TOTAL_ROUNDS)%nat -> length arks = TOTAL_ROUNDS -> agree s l ->
  agree (permute_round arks rows s r)
    (ref_round ((r <? HALF_FULL)%nat || (TOTAL_ROUNDS - HALF_FULL <=? r)%nat) (rows3 rows) l (nth r (map list3 arks) [0; 0; 0])).
Proof.
  intros Hr Hlen Hag. change [0; 0; 0] with (list3 (0, 0, 0)). rewrite map_nth. unfold permute_round.
  destruct (nth r arks (0, 0, 0)) as [[a0 a1] a2]. destruct s as [[x y] z], Hag as (a & b & c & -> & Ha & Hb & Hc).
  destruct rows as [[r0 r1] r2]. cbv beta iota zeta. set (full := _ || _). cbn [list3 ref_round zip_with]. unfold ref_mds. cbn [rows3 map].
  assert (agree (if full then (sbox (addmod x a0 P), sbox (addmod y a1 P), sbox (addmod z a2 P)) else (sbox (addmod x a0 P), addmod y a1 P, addmod z a2 P))
    (if full then map (fun x => x ^ 5) [a + a0; b + a1; c + a2] else alter (fun x => x ^ 5) 0%nat [a + a0; b + a1; c + a2])) as Hs.
  { assert (forall u v k, eqm u v -> eqm (sbox (addmod u k P)) ((v + k) ^ 5)) as Hsb.
    { intros u v k Huv. rewrite eqm_sbox. apply eqm_pow5. rewrite eqm_addmod. by rewrite Huv. }
    destruct full; simpl; do 3 eexists; split_and!; try reflexivity; try by apply Hsb.
    - rewrite eqm_addmod. by rewrite Hb.
    - rewrite eqm_addmod. by rewrite Hc. }
  rewrite !(mds_row_ref _ _ _ Hs). cbn [agree]. do 3 eexists. split_and!; [done|reflexivity..].
Qed.

(** Consecutive rounds of one kind. *)
Lemma rounds_ref arks rows full k n s l :
  (k + n <= TOTAL_ROUNDS)%nat -> length arks = TOTAL_ROUNDS -> agree s l ->
  (forall r, (k <= r < k + n)%nat -> (r <? HALF_FULL)%nat || (TOTAL_ROUNDS - HALF_FULL <=? r)%nat = full) ->
  agree (fold_left (permute_round arks rows) (seq k n) s)
    (fold_left (ref_round full (rows3 rows)) (take n (drop k (map list3 arks))) l).
Proof.
  revert k s l; induction n as [|n IH]; intros k s l Hk Hlen Hag Hf; [done|].
  destruct (lookup_lt_is_Some_2 (map list3 arks) k) as [c Hc]; [rewrite length_map; lia|].
  rewrite (drop_S _ _ _ Hc). cbn [seq fold_left take firstn].
  apply IH; [lia|done| |intros r Hr; apply Hf; lia].
  rewrite <- (Hf k) by lia. replace c with (nth k (map list3 arks) [0; 0; 0]) by (by apply nth_lookup_Some).
  by apply permute_round_ref; [lia|..].
Qed.

Lemma permute_ref s l : agree s l -> agree (permute ark mds s) (ref_permute (map list3 ark) (rows3 mds) l).
Proof.
  intros Hag. unfold permute, ref_permute. change (seq 0 TOTAL_ROUNDS) with (seq 0 4 ++ seq 4 57 ++ seq 61 4).
  rewrite !fold_left_app. replace (drop 61 (map list3 ark)) with (take 4 (drop 61 (map list3 ark))) by done.
  apply rounds_ref; [vm_compute; lia|done| |].
  2: { intros r Hr. change TOTAL_ROUNDS with 65%nat. change HALF_FULL with 4%nat. destruct (Nat.leb_spec (65 - 4) r); [by destruct (_ <? _)%nat|lia]. }
  apply rounds_ref; [vm_compute; lia|done| |].
  2: { intros r Hr. change TOTAL_ROUNDS with 65%nat. change HALF_FULL with 4%nat. destruct (Nat.leb_spec (65 - 4) r), (Nat.ltb_spec r 4); (done || lia). }
  apply (rounds_ref _ _ true 0 4); [vm_compute; lia|done|done|].
  intros r Hr. change HALF_FULL with 4%nat. destruct (Nat.ltb_spec r 4); [done|lia].
Qed.

Lemma agree_add s l x y z u v w :
  agree s l -> eqm u x -> eqm v y -> eqm w z -> let '(s0, s1, s2) := s in agree (s0 + u, s1 + v, s2 + w) (zip_with Z.add l [x; y; z]).
Proof.
  destruct s as [[s0 s1] s2]. intros (a & b & c & -> & Ha & Hb & Hc) Hu Hv Hw. simpl. do 3 eexists.
  split_and!; [reflexivity|by rewrite Ha, Hu|by rewrite Hb, Hv|by rewrite Hc, Hw].
Qed.

Lemma agree_mod x y z x' y' z' l : agree (x, y, z) l -> eqm x' x -> eqm y' y -> eqm z' z -> agree (x', y', z') l.
Proof. intros (a & b & c & -> & Ha & Hb & Hc) Hx Hy Hz. do 3 eexists. split_and!; [done|by rewrite Hx|by rewrite Hy|by rewrite Hz]. Qed.

(** One block: add into the rate, permute. *)
Lemma block_ref s0 s1 s2 l a b :
  agree (s0, s1, s2) l ->
  agree (permute ark mds (s0, addmod s1 a P, addmod s2 b P)) (ref_permute (map list3 ark) (rows3 mds) (zip_with Z.add l [0; a; b])).
Proof.
  intros Hag. apply permute_ref. apply (agree_mod (s0 + 0) (s1 + a) (s2 + b)).
  - by apply (agree_add (s0, s1, s2) l 0 a b 0 a b).
  - by rewrite Z.add_0_r.
  - apply eqm_addmod.
  - apply eqm_addmod.
Qed.

Lemma half_block_ref s0 s1 s2 l a :
  agree (s0, s1, s2) l ->
  agree (permute ark mds (s0, addmod s1 a P, s2)) (ref_permute (map list3 ark) (rows3 mds) (zip_with Z.add l [0; a; 0])).
Proof.
  intros Hag. apply permute_ref. apply (agree_mod (s0 + 0) (s1 + a) (s2 + 0)).
  - by apply (agree_add (s0, s1, s2) l 0 a 0 0 a 0).
  - by rewrite Z.add_0_r.
  - apply eqm_addmod.
  - by rewrite Z.add_0_r.
Qed.

(** The words of a state are reduced. *)
Definition reduced (w : word3) : Prop := let '(x, y, z) := w in 0 <= x < P /\ 0 <= y < P /\ 0 <= z < P.

Lemma round_reduced arks m s r : reduced (permute_round arks m s r).
Proof.
  unfold permute_round. destruct (nth r arks (0, 0, 0)) as [[a0 a1] a2], s as [[x y] z], m as [[[[? ?] ?] [[? ?] ?]] [[? ?] ?]].
  destruct (_ || _); unfold mds_row, addmod; split_and!; apply Z.mod_pos_bound, P_pos.
Qed.

Lemma permute_reduced arks m s : reduced (permute arks m s).
Proof.
  unfold permute. change (seq 0 TOTAL_ROUNDS) with (seq 0 64 ++ [64%nat]). rewrite fold_left_app. apply round_reduced.
Qed.

Lemma ref_round_mod full rows s c : ref_round full rows s c = map (fun x => x mod P) (ref_round full rows s c).
Proof. unfold ref_round, ref_mds. rewrite map_map. apply map_ext. intros row. by rewrite Z.mod_mod. Qed.

Lemma ref_permute_mod arks rows s :
  length arks = TOTAL_ROUNDS -> ref_permute arks rows s = map (fun x => x mod P) (ref_permute arks rows s).
Proof.
  intros Hlen. unfold ref_permute. destruct (drop 61 arks) as [|c l _] eqn:Hd using rev_ind.
  - apply (f_equal length) in Hd. rewrite length_drop, Hlen in Hd. done.
  - rewrite fold_left_app. cbn [fold_left]. apply ref_round_mod.
Qed.

Lemma poseidon5_sponge a b c d e : poseidon5 ark mds a b c d e = sponge_hash [a; b; c; d; e].
Proof.
  unfold poseidon5, sponge_hash. cbn [ref_absorb].
  assert (agree (0, 0, 0) [0; 0; 0]) as H0 by (do 3 eexists; by split_and!).
  pose proof (block_ref 0 0 0 _ a b H0) as H1. destruct (permute ark mds (0, addmod 0 a P, addmod 0 b P)) as [[x1 y1] z1].
  pose proof (block_ref _ _ _ _ c d H1) as H2. destruct (permute ark mds (x1, addmod y1 c P, addmod z1 d P)) as [[x2 y2] z2].
  pose proof (half_block_ref _ _ _ _ e H2) as H3. pose proof (permute_reduced ark mds (x2, addmod y2 e P, z2)) as Hr.
  destruct (permute ark mds (x2, addmod y2 e P, z2)) as [[x3 y3] z3]. rewrite (ref_permute_mod (map list3 ark) _ _ eq_refl).
  destruct H3 as (u & v & w & -> & _ & Hv & _). simpl. unfold eqm in Hv. rewrite <- Hv. destruct Hr as (_ & Hy & _). symmetry. by apply Z.mod_small.
Qed.

Lemma poseidon5_range a b c d e : 0 <= poseidon5 ark mds a b c d e < P.
Proof.
  unfold poseidon5. destruct (permute _ _ _) as [[x1 y1] z1]. destruct (permute _ _ (x1, _, _)) as [[x2 y2] z2].
  pose proof (permute_reduced ark mds (x2, addmod y2 e P, z2)) as Hr. destruct (permute _ _ _) as [[x3 y3] z3]. apply Hr.
Qed.

(** ** The port

    The contract calls the hash of the library, an argument of its model:
    [library_poseidon5] is what it is linked with.  The library is a port of the
    sponge the circuits use, whose code is not part of the program: what the
    contract relies on is that the two agree on five elements.  The reference
    sponge is an instance. *)

Class Poseidon5 := { hash5 : Z -> Z -> Z -> Z -> Z -> Z }.

Definition library_poseidon5 : Poseidon5 := {| hash5 := poseidon5 ark mds |}.

(** The Solidity port is the sponge the circuits use.  On any five words
    the unrolled library function, with its two-block absorption and its 65
    rounds of inlined matrix products, computes the reference Poseidon sponge of
    rate two over lists, with the same constants. *)
Theorem poseidon5_is_sponge a b c d e : @hash5 library_poseidon5 a b c d e = sponge_hash [a; b; c; d; e].
Proof. apply poseidon5_sponge. Qed.

Class PoseidonPort (F : Type) `{!FieldOps F, !Poseidon F, !Poseidon5} : Prop := {
  poseidon_port : forall a b c d e : F,
    fr_to_Z (poseidon [a; b; c; d; e]) = hash5 (fr_to_Z a) (fr_to_Z b) (fr_to_Z c) (fr_to_Z d) (fr_to_Z e)
}.

Definition sponge_poseidon {F} `{!FieldOps F} : Poseidon F := {| poseidon l := fr_of_Z (sponge_hash (map fr_to_Z l)) |}.

Lemma sponge_port {F} `{!FieldOps F, !FieldLaws F} : @PoseidonPort F _ sponge_poseidon library_poseidon5.
Proof.
  split. intros a b c d e. cbn [poseidon sponge_poseidon map hash5 library_poseidon5]. rewrite <- poseidon5_sponge, fr_of_Z_spec.
  apply Z.mod_small, poseidon5_range.
Qed.
