(* ===== verification/Groth16Verifier.v ===== *)
(** * Contracts: the Groth16 verifier

    [contracts/src/Groth16Verifier.sol]: the check of one proof and of a batch,
    on words, by calls to the curve precompiles of the EVM.  The precompiles are
    parameters; their laws say which words are points and that they compute in
    the groups of those points.

    The theorems: the contract and the vendored verifier of [Groth16.v] answer
    alike on the same key and proof; a batch of valid proofs is accepted; and at
    most [n - 1] challenges let a batch of [n] with an invalid proof through. *)

From S2P Require Import Prelude Types Field Evm Prime Poly Groth16 Groth16Facts.
Open Scope Z_scope.

(** ** Words *)

Definition SNARK_SCALAR_FIELD : Z := FR.
Definition PRIME_Q : Z := 21888242871839275222246405745257275088696311157297823662689037894645226208583.
Definition NUM_PUBLIC_INPUTS : nat := 6.
Definition IC_LEN : nat := 7.
Definition MAX_BATCH : Z := 256.

(** [uint256[2]] and [uint256[2][2]] *)
Abbreviation Word2 := (Z * Z)%type.
Abbreviation Word22 := (Z * Z * (Z * Z))%type.

(** The contracts at [0x06], [0x07] and [0x08]; [None] is a failed call. *)
Class Precompiles := {
  pre_ecAdd : Z -> Z -> Z -> Z -> option Word2;
  pre_ecMul : Z -> Z -> Z -> option Word2;
  pre_ecPairing : list Z -> option Z
}.

(** The immutables: the words of the verifying key. *)
Record Groth16Verifier := mkGroth16Verifier {
  ALPHA1 : Word2;
  BETA2 : Word22;
  GAMMA2 : Word22;
  DELTA2 : Word22;
  IC : list Word2
}.

Record SolProof := mkSolProof { sp_a : Word2; sp_b : Word22; sp_c : Word2 }.

Section contract.
Context `{PRE : !Precompiles, KEC : !Keccak}.
Implicit Types v : Groth16Verifier.

Definition not_infinity1 (p : Word2) : bool := negb (p.1 =? 0) || negb (p.2 =? 0).
Definition not_infinity2 (p : Word22) : bool := not_infinity1 p.1 || not_infinity1 p.2.

(** The constructor; [_ic] has [IC_LEN] entries. *)
Definition new_verifier (_alpha1 : Word2) (_beta2 _gamma2 _delta2 : Word22) (_ic : list Word2) : result Groth16Verifier Str :=
  require! not_infinity1 _alpha1, "alpha1 point at infinity";
  require! not_infinity2 _beta2, "beta2 point at infinity";
  require! not_infinity2 _gamma2, "gamma2 point at infinity";
  require! not_infinity2 _delta2, "delta2 point at infinity";
  require! forallb not_infinity1 _ic, "ic point at infinity";
  Ok (mkGroth16Verifier _alpha1 _beta2 _gamma2 _delta2 _ic).

Definition _ic v (idx : nat) : result Word2 Str :=
  match IC v !! idx with Some p => Ok p | None => Err (str "ic out of range") end.

Definition _negate (p : Word2) : result Word2 Str :=
  if (p.1 =? 0) && (p.2 =? 0) then Ok (0, 0)
  else let? y := sub_u256 PRIME_Q p.2 in Ok (p.1, y).

Definition ecAdd (a b : Word2) : result Word2 Str :=
  match pre_ecAdd a.1 a.2 b.1 b.2 with Some r => Ok r | None => Err (str "ecAdd failed") end.

Definition ecMul (p : Word2) (s : Z) : result Word2 Str :=
  match pre_ecMul p.1 p.2 s with Some r => Ok r | None => Err (str "ecMul failed") end.

Definition words2 (p : Word2) : list Z := [p.1; p.2].
Definition words22 (p : Word22) : list Z := words2 p.1 ++ words2 p.2.

Definition ecPairingDynamic (input : list Z) : result bool Str :=
  match pre_ecPairing input with Some r => Ok (r =? 1) | None => Err (str "ecPairing failed") end.

Definition ecPairingSingle v (a1 : Word2) (a2 : Word22) (c1 d1 : Word2) : result bool Str :=
  let input := words2 a1 ++ words22 a2 ++ words2 (ALPHA1 v) ++ words22 (BETA2 v) ++
    words2 c1 ++ words22 (GAMMA2 v) ++ words2 d1 ++ words22 (DELTA2 v) in
  ecPairingDynamic input.

(** One step of the sum over the inputs, shared by the single and the batch check. *)
Definition add_input v (acc : Word2) '(j, x) : result Word2 Str :=
  let? ic := _ic v (j + 1) in
  let? p := ecMul ic x in
  ecAdd acc p.

Definition _publicInputAccumulator v (input : list Z) : result Word2 Str :=
  let? li := _ic v 0 in
  fold_checked (add_input v) li (imap pair input).

Definition in_field (input : list Z) : bool := forallb (fun x => x <? SNARK_SCALAR_FIELD) input.

Definition verifyProof v (p : SolProof) (input : list Z) : result bool Str :=
  require! in_field input, "input overflow";
  let? vkX := _publicInputAccumulator v input in
  let? a := _negate (sp_a p) in
  ecPairingSingle v a (sp_b p) vkX (sp_c p).

(** ** Batches *)

Definition _checkInputsRange (inputs : list (list Z)) : bool := forallb in_field inputs.

(** [ri] at the start of iteration [i] *)
Definition next_ri (i : nat) (ri r0 : Z) : Z := if (0 <? i)%nat then mulmod ri r0 SNARK_SCALAR_FIELD else ri.

Fixpoint accumulate_loop v (r0 : Z) (inputs : list (list Z)) (i : nat) (ri rSum : Z) (accL : Word2) : result (Z * Word2) Str :=
  match inputs with
  | [] => Ok (rSum, accL)
  | input :: rest =>
    let ri := next_ri i ri r0 in
    let rSum := addmod rSum ri SNARK_SCALAR_FIELD in
    let? li := _publicInputAccumulator v input in
    let? l := ecMul li ri in
    let? accL := ecAdd accL l in
    accumulate_loop v r0 rest (S i) ri rSum accL
  end.

Definition _accumulateRL v (inputs : list (list Z)) (r0 : Z) : result (Z * Word2) Str :=
  accumulate_loop v r0 inputs 0 1 0 (0, 0).

Fixpoint pairing_loop (r0 : Z) (proofs : list SolProof) (i : nat) (ri : Z) (accC : Word2) : result (list Z * Word2) Str :=
  match proofs with
  | [] => Ok ([], accC)
  | p :: rest =>
    let ri := next_ri i ri r0 in
    let? neg := _negate (sp_a p) in
    let? a := ecMul neg ri in
    let? c := ecMul (sp_c p) ri in
    let? accC := ecAdd accC c in
    let? r := pairing_loop r0 rest (S i) ri accC in
    Ok (words2 a ++ words22 (sp_b p) ++ r.1, r.2)
  end.

Definition _buildBatchPairingInput v (proofs : list SolProof) (r0 : Z) (accAlpha accL : Word2) : result (list Z) Str :=
  let? r := pairing_loop r0 proofs 0 1 (0, 0) in
  Ok (r.1 ++ words2 accAlpha ++ words22 (BETA2 v) ++ words2 accL ++ words22 (GAMMA2 v) ++ words2 r.2 ++ words22 (DELTA2 v)).

(** What follows the choice of the challenge. *)
Definition check_batch v (proofs : list SolProof) (inputs : list (list Z)) (r0 : Z) : result bool Str :=
  let? r := _accumulateRL v inputs r0 in
  let? accAlpha := ecMul (ALPHA1 v) r.1 in
  let? pIn := _buildBatchPairingInput v proofs r0 accAlpha r.2 in
  ecPairingDynamic pIn.

Definition FS_DOMAIN : Z := be_value (keccak256 (str "Groth16Batch-v1")).

(** [abi.encode] of a word and four arrays of static rows. *)
Definition abi_rows (rows : list (list Z)) : bytes :=
  be_bytes 32 (Z.of_nat (length rows)) ++ flat_map (flat_map (be_bytes 32)) rows.

Fixpoint abi_offsets (offset : Z) (tails : list bytes) : bytes :=
  match tails with
  | [] => []
  | t :: rest => be_bytes 32 offset ++ abi_offsets (offset + Z.of_nat (length t)) rest
  end.

Definition transcript (proofs : list SolProof) (inputs : list (list Z)) : bytes :=
  let tails := [abi_rows (map (fun p => words2 (sp_a p)) proofs); abi_rows (map (fun p => words22 (sp_b p)) proofs);
    abi_rows (map (fun p => words2 (sp_c p)) proofs); abi_rows inputs] in
  be_bytes 32 FS_DOMAIN ++ abi_offsets 160 tails ++ concat tails.

(** The rehashing loop; [None] when the gas, here [fuel] rounds, runs out. *)
Fixpoint challenge (fuel : nat) (r0 : Z) : option Z :=
  match fuel with
  | O => None
  | S fuel' =>
    if (r0 =? 0) || (r0 =? 1) then
      challenge fuel' (be_value (keccak256 (abi_encode [AWord FS_DOMAIN; AWord r0; AString (str "retry")])) mod SNARK_SCALAR_FIELD)
    else Some r0
  end.

Definition proofs_of (aArr : list Word2) (bArr : list Word22) (cArr : list Word2) : list SolProof :=
  map (fun '(a, b, c) => mkSolProof a b c) (zip (zip aArr bArr) cArr).

Definition verifyProofBatch v (gas : nat) (aArr : list Word2) (bArr : list Word22) (cArr : list Word2) (inputs : list (list Z)) : result bool Str :=
  let n := length aArr in
  require! (0 <? n)%nat, "empty batch";
  require! Z.of_nat n <=? MAX_BATCH, "batch too large";
  require! (length bArr =? n)%nat && (length cArr =? n)%nat && (length inputs =? n)%nat, "length mismatch";
  require! _checkInputsRange inputs, "input overflow";
  let proofs := proofs_of aArr bArr cArr in
  match challenge gas (be_value (keccak256 (transcript proofs inputs)) mod SNARK_SCALAR_FIELD) with
  | None => Err (str "out of gas")
  | Some r0 => check_batch v proofs inputs r0
  end.
End contract.

(** ** Points *)

Class CurveWords (G1 G2 : Type) := {
  g1_of : Word2 -> option G1;
  g1_words : G1 -> Word2;
  g2_of : Word22 -> option G2
}.

(** The pairs of points in the words of a pairing check. *)
Fixpoint pairs_of {G1 G2} `{!CurveWords G1 G2} (ws : list Z) : option (list (G1 * G2)) :=
  match ws with
  | [] => Some []
  | x :: y :: x1 :: x0 :: y1 :: y0 :: rest =>
    match g1_of (x, y), g2_of (x1, x0, (y1, y0)), pairs_of rest with
    | Some p, Some q, Some l => Some ((p, q) :: l)
    | _, _, _ => None
    end
  | _ => None
  end.

(** EIP-196 and EIP-197: zeros are the point at infinity, coordinates are below
    [PRIME_Q], a pair that is no point makes the call fail. *)
Class PrecompileLaws (F G1 G2 GT ML : Type) `{!FieldOps F, !GroupOps F G1, !GroupOps F GT, !PairingOps G1 G2 GT ML, !Precompiles, !CurveWords G1 G2} : Prop := {
  g1_of_words : forall p : G1, g1_of (g1_words p) = Some p;
  g1_of_zero : g1_of (G1:=G1) (0, 0) = Some g_zero;
  g1_of_neg : forall x y (p : G1), g1_of (x, y) = Some p -> (x =? 0) && (y =? 0) = false ->
    y <= PRIME_Q /\ g1_of (x, PRIME_Q - y) = Some (g_neg p);
  ecAdd_spec : forall ax ay bx b_y, pre_ecAdd ax ay bx b_y =
    match g1_of (G1:=G1) (ax, ay), g1_of (bx, b_y) with Some p, Some q => Some (g1_words (g_add p q)) | _, _ => None end;
  ecMul_spec : forall x y s, pre_ecMul x y s =
    match g1_of (G1:=G1) (x, y) with Some p => Some (g1_words (g_mul p (fr_of_Z (F:=F) s))) | None => None end;
  ecPairing_spec : forall ws, pre_ecPairing ws =
    match pairs_of (G1:=G1) (G2:=G2) ws with
    | Some l => Some (if gt_eqb (g_sum (map (fun '(p, q) => pairing p q) l)) g_zero then 1 else 0)
    | None => None
    end
}.

(** ** What the words say *)

Section facts.
Context {F G1 G2 GT ML : Type} `{!FieldOps F, LAWS : !FieldLaws F, !GroupOps F G1, !GroupOps F G2, !GroupOps F GT,
  !GroupLaws F G1, !GroupLaws F G2, !GroupLaws F GT, PO : !PairingOps G1 G2 GT ML, PL : !PairingLaws F G1 G2 GT ML,
  PRE : !Precompiles, KEC : !Keccak, CW : !CurveWords G1 G2, EIP : !PrecompileLaws F G1 G2 GT ML}.
Add Ring fr_ring6 : (fr_ring_theory (F:=F)).

Record key_words (v : Groth16Verifier) (vk : VerifyingKey G1 G2) : Prop := {
  kw_alpha : g1_of (ALPHA1 v) = Some (alpha_g1 vk);
  kw_beta : g2_of (BETA2 v) = Some (beta_g2 vk);
  kw_gamma : g2_of (GAMMA2 v) = Some (gamma_g2 vk);
  kw_delta : g2_of (DELTA2 v) = Some (delta_g2 vk);
  kw_ic : Forall2 (fun w p => g1_of w = Some p) (IC v) (gamma_abc_g1 vk)
}.

Record proof_words (p : SolProof) (pf : Proof G1 G2) : Prop := {
  pw_a : g1_of (sp_a p) = Some (proof_a pf);
  pw_b : g2_of (sp_b p) = Some (proof_b pf);
  pw_c : g1_of (sp_c p) = Some (proof_c pf)
}.

Lemma ecAdd_Ok (a b : Word2) (p q : G1) : g1_of a = Some p -> g1_of b = Some q -> exists w, ecAdd a b = Ok w /\ g1_of w = Some (g_add p q).
Proof.
  intros Ha Hb. unfold ecAdd. rewrite (ecAdd_spec (F:=F) (G1:=G1) (G2:=G2)). rewrite <- !surjective_pairing, Ha, Hb. eexists. split; [done|].
  apply (g1_of_words (F:=F) (G2:=G2)).
Qed.

Lemma ecMul_Ok (a : Word2) (p : G1) s : g1_of a = Some p -> exists w, ecMul a s = Ok w /\ g1_of w = Some (g_mul p (fr_of_Z (F:=F) s)).
Proof.
  intros Ha. unfold ecMul. rewrite (ecMul_spec (F:=F) (G1:=G1) (G2:=G2)). rewrite <- surjective_pairing, Ha. eexists. split; [done|].
  apply (g1_of_words (F:=F) (G2:=G2)).
Qed.

Lemma g_neg_zero {G} `{!GroupOps F G, !GroupLaws F G} : g_neg (g_zero (F:=F) (G:=G)) = g_zero.
Proof. apply (g_add_cancel (F:=F) g_zero). by rewrite g_add_neg, g_add_zero. Qed.

Lemma negate_Ok (a : Word2) (p : G1) : g1_of a = Some p -> exists w, _negate a = Ok w /\ g1_of w = Some (g_neg p).
Proof.
  intros Ha. unfold _negate. destruct a as [x y]. cbn [fst snd]. destruct ((x =? 0) && (y =? 0)) eqn:E.
  - apply andb_true_iff in E as [->%Z.eqb_eq ->%Z.eqb_eq]. exists (0, 0). split; [done|].
    rewrite (g1_of_zero (F:=F) (G2:=G2)) in Ha. injection Ha as <-. rewrite g_neg_zero. apply (g1_of_zero (F:=F) (G2:=G2)).
  - destruct (g1_of_neg (F:=F) (G2:=G2) x y p Ha E) as [Hy Hn]. exists (x, PRIME_Q - y). split; [|done].
    unfold sub_u256. by rewrite (proj2 (Z.leb_le _ _) Hy).
Qed.

(** ** The sum over the inputs *)

Lemma accumulate_inputs v (ics : list G1) input : forall k acc p,
  Forall2 (fun w q => g1_of w = Some q) (drop (k + 1) (IC v)) ics -> length ics = length input -> g1_of acc = Some p ->
  exists w, fold_checked (add_input v) acc (imap (fun i x => (k + i, x)%nat) input) = Ok w /\
    g1_of w = Some (fold_left (fun acc '(i, b) => g_add acc (g_mul b i)) (zip (map fr_of_Z input) ics) p).
Proof.
  revert ics; induction input as [|x input IH]; intros [|q ics] k acc p HF Hl Hacc; try done; [by exists acc|].
  cbn [imap fold_checked]. unfold add_input at 1. rewrite Nat.add_0_r. apply Forall2_cons_inv_r in HF as (w0 & ws & Hq & HF & Hdrop).
  assert (Hk : IC v !! (k + 1)%nat = Some w0) by (rewrite <- (Nat.add_0_r (k + 1)), <- lookup_drop, Hdrop; done).
  unfold _ic. rewrite Hk. destruct (ecMul_Ok w0 q x Hq) as (m & -> & Hm). destruct (ecAdd_Ok acc m p _ Hacc Hm) as (s & -> & Hs).
  destruct (IH ics (S k) s (g_add p (g_mul q (fr_of_Z x)))) as (w & Hw & Hg); [|by injection Hl|exact Hs|].
  { replace (S k + 1)%nat with (S (k + 1)) by lia. replace (drop (S (k + 1)) (IC v)) with ws; [done|].
    pose proof (drop_S _ _ _ Hk) as Hd. rewrite Hdrop in Hd. by injection Hd. }
  exists w. split; [|done]. rewrite <- Hw. f_equal. apply imap_ext. intros i y _. cbn. f_equal. lia.
Qed.

Lemma accumulator_Ok v vk input : key_words v vk -> length (IC v) = S (length input) ->
  exists w ic, _publicInputAccumulator v input = Ok w /\ g1_of w = Some ic /\
    prepare_inputs (prepare_verifying_key (PO:=PO) vk) (map fr_of_Z input) = Ok ic.
Proof.
  intros [_ _ _ _ HF] Hl. unfold _publicInputAccumulator, prepare_inputs, _ic. cbn [pvk_vk prepare_verifying_key].
  destruct (IC v) as [|w0 ws] eqn:Hic; [done|]. apply Forall2_cons_inv_l in HF as (q0 & qs & Hq0 & HF & ->).
  pose proof (Forall2_length _ _ _ HF) as Hlen.
  cbn [lookup list_lookup length] in *.
  destruct (accumulate_inputs v qs input 0 w0 q0) as (w & Hw & Hg); [by rewrite Hic|lia|done|].
  exists w. eexists. split; [exact Hw|]. split; [exact Hg|]. rewrite length_map, (proj2 (Nat.eqb_eq _ _)) by lia. done.
Qed.

(** ** One proof *)

(** How far a proof is from being valid: zero when it is. *)
Definition defect (vk : VerifyingKey G1 G2) (pf : Proof G1 G2) (ic : G1) : GT :=
  g_sum [pairing (g_neg (proof_a pf)) (proof_b pf); pairing (alpha_g1 vk) (beta_g2 vk); pairing ic (gamma_g2 vk); pairing (proof_c pf) (delta_g2 vk)].

Lemma pairs_of_cons (a : Word2) (b : Word22) (p : G1) (q : G2) rest l : g1_of a = Some p -> g2_of b = Some q -> pairs_of rest = Some l ->
  pairs_of (words2 a ++ words22 b ++ rest) = Some ((p, q) :: l).
Proof.
  destruct a as [x y], b as [[x1 x0] [y1 y0]]. intros Ha Hb Hl. cbn [words2 words22 fst snd app pairs_of]. by rewrite Ha, Hb, Hl.
Qed.

Lemma pairing_Ok ws (l : list (G1 * G2)) : pairs_of ws = Some l ->
  ecPairingDynamic ws = Ok (gt_eqb (g_sum (map (fun '(p, q) => pairing p q) l)) g_zero).
Proof.
  intros Hl. unfold ecPairingDynamic. rewrite (ecPairing_spec (F:=F) (G1:=G1) (G2:=G2)), Hl. by destruct (gt_eqb _ _).
Qed.

Lemma verifyProof_defect v vk p pf input : key_words v vk -> proof_words p pf -> length (IC v) = S (length input) -> in_field input = true ->
  exists ic, prepare_inputs (prepare_verifying_key (PO:=PO) vk) (map fr_of_Z input) = Ok ic /\
    verifyProof v p input = Ok (gt_eqb (defect vk pf ic) g_zero).
Proof.
  intros Hk [Ha Hb Hc] Hl Hin. destruct (accumulator_Ok v vk input Hk Hl) as (w & ic & Hw & Hic & Hprep). exists ic. split; [done|].
  unfold verifyProof. rewrite Hin, Hw. destruct (negate_Ok _ _ Ha) as (na & -> & Hna). unfold ecPairingSingle. destruct Hk as [Kal Kbe Kga Kde _].
  rewrite (pairing_Ok _ [(g_neg (proof_a pf), proof_b pf); (alpha_g1 vk, beta_g2 vk); (ic, gamma_g2 vk); (proof_c pf, delta_g2 vk)]); [done|].
  rewrite <- (app_nil_r (words22 (DELTA2 v))). by repeat (apply pairs_of_cons; [done..|]).
Qed.

Lemma g_sum_app {G} `{!GroupOps F G, !GroupLaws F G} (l k : list G) : g_sum (l ++ k) = g_add (g_sum l) (g_sum k).
Proof.
  unfold g_sum. induction l as [|x l IH]; cbn [app foldr]; [by rewrite (g_add_comm (F:=F)), g_add_zero|]. by rewrite IH, (g_add_assoc (F:=F)).
Qed.

Lemma g_neg_add {G} `{!GroupOps F G, !GroupLaws F G} (p q : G) : g_neg (g_add p q) = g_add (g_neg p) (g_neg q).
Proof. by rewrite !(g_neg_mul (F:=F)), g_add_mul. Qed.

Lemma pairing_neg_l (p : G1) (q : G2) : pairing (g_neg p) q = g_neg (pairing p q).
Proof. by rewrite (g_neg_mul (F:=F) p), (pairing_mul_l (F:=F)), <- (g_neg_mul (F:=F)). Qed.

Lemma pairing_neg_r (p : G1) (q : G2) : pairing p (g_neg q) = g_neg (pairing p q).
Proof. by rewrite (g_neg_mul (F:=F) q), (pairing_mul_r (F:=F)), <- (g_neg_mul (F:=F)). Qed.

(** Moving terms across an equation. *)
Lemma g_move (a s g d : GT) : g_add (g_neg a) (g_add s (g_add g d)) = g_zero <-> g_add a (g_add (g_neg g) (g_neg d)) = s.
Proof.
  rewrite <- g_neg_add. set (e := g_add g d). split.
  - intros H. assert (Ha : a = g_add s e).
    { apply (g_add_cancel (F:=F) (g_neg a)). rewrite H, (g_add_comm (F:=F)). apply g_add_neg. }
    by rewrite Ha, <- (g_add_assoc (F:=F)), g_add_neg, g_add_zero.
  - intros <-. rewrite <- (g_add_assoc (F:=F) a), (g_add_comm (F:=F) (g_neg e)), g_add_neg, g_add_zero, (g_add_comm (F:=F)). apply g_add_neg.
Qed.

Lemma defect_zero vk pf ic : gt_eqb (defect vk pf ic) g_zero = true <->
  g_add (pairing (proof_a pf) (proof_b pf)) (g_add (pairing ic (g_neg (gamma_g2 vk))) (pairing (proof_c pf) (g_neg (delta_g2 vk)))) =
  pairing (alpha_g1 vk) (beta_g2 vk).
Proof.
  rewrite (gt_eqb_spec (F:=F)). unfold defect, g_sum. cbn [foldr]. rewrite g_add_zero, pairing_neg_l, !pairing_neg_r. apply g_move.
Qed.

(** C21: the contract and the proof system of the engine agree.  On the words of
    a key and of a proof and on canonical public inputs, [verifyProof] returns,
    and it answers what the verifier of the vendored crate answers. *)
Theorem contract_agrees v vk p pf input :
  key_words v vk -> proof_words p pf -> length (IC v) = S (length input) -> in_field input = true ->
  exists b, verifyProof v p input = Ok b /\ verify_with_processed_vk (prepare_verifying_key (PO:=PO) vk) (map fr_of_Z input) pf = Ok b.
Proof.
  intros Hk Hp Hl Hin. destruct (verifyProof_defect v vk p pf input Hk Hp Hl Hin) as (ic & Hic & ->). eexists. split; [done|].
  pose proof (verify_equation (F:=F) vk (map fr_of_Z input) pf) as Hv. unfold verify_with_processed_vk, groth16_verify_proof in *. rewrite Hic in *.
  revert Hv. unfold verify_proof_with_prepared_inputs. rewrite (multi_pairing_spec (F:=F)). set (b := gt_eqb (g_sum _) _). intros Hv. f_equal.
  apply eq_true_iff_eq. rewrite defect_zero. split.
  - intros ->. destruct (proj1 Hv eq_refl) as (ic' & [= <-] & H). done.
  - intros H. destruct b; [done|]. assert (Ok (E:=SynthesisError) false = Ok true) by (apply Hv; by exists ic). done.
Qed.

(** ** Accepted words *)

(** The words stand for the proof.  [_negate] turns the pair [(0, PRIME_Q)],
    which is no point, into the point at infinity. *)
Definition reads_as (p : SolProof) (pf : Proof G1 G2) : Prop :=
  (g1_of (sp_a p) = Some (proof_a pf) \/ sp_a p = (0, PRIME_Q) /\ proof_a pf = g_zero) /\
  g2_of (sp_b p) = Some (proof_b pf) /\ g1_of (sp_c p) = Some (proof_c pf).

Lemma pairs_of_inv (a : Word2) (b : Word22) rest (l : list (G1 * G2)) : pairs_of (words2 a ++ words22 b ++ rest) = Some l ->
  exists p q l', g1_of a = Some p /\ g2_of b = Some q /\ pairs_of rest = Some l' /\ l = (p, q) :: l'.
Proof.
  destruct a as [x y], b as [[x1 x0] [y1 y0]]. cbn [words2 words22 fst snd app pairs_of].
  destruct (g1_of (x, y)) as [p|]; [|done]. destruct (g2_of _) as [q|]; [|done]. destruct (pairs_of rest) as [l'|]; [|done]. intros [= <-]. by exists p, q, l'.
Qed.

Lemma negate_inv (a na : Word2) (n : G1) : _negate a = Ok na -> g1_of na = Some n ->
  exists p, g_neg p = n /\ (g1_of a = Some p \/ a = (0, PRIME_Q) /\ p = g_zero).
Proof.
  unfold _negate. destruct a as [x y]. cbn [fst snd]. pose proof (g1_of_zero (F:=F) (G1:=G1) (G2:=G2)) as Hz. destruct ((x =? 0) && (y =? 0)) eqn:E.
  - apply andb_true_iff in E as [->%Z.eqb_eq ->%Z.eqb_eq]. intros [= <-] Hn. rewrite Hz in Hn. injection Hn as <-. exists g_zero. split; [apply g_neg_zero|by left].
  - unfold sub_u256. destruct (Z.leb_spec y PRIME_Q) as [Hy|]; [|done]. intros [= <-] Hn. destruct ((x =? 0) && (PRIME_Q - y =? 0)) eqn:E'.
    + apply andb_true_iff in E' as [->%Z.eqb_eq Hq%Z.eqb_eq]. rewrite Hq, Hz in Hn. injection Hn as <-. exists g_zero. split; [apply g_neg_zero|right].
      split; [f_equal; lia|done].
    + destruct (g1_of_neg (F:=F) (G2:=G2) _ _ _ Hn E') as [_ H]. exists (g_neg n). split.
      * rewrite !(g_neg_mul (F:=F)), g_mul_mul. replace (fr_neg fr_one * fr_neg fr_one)%fr with (fr_one (F:=F)) by ring. apply g_mul_one.
      * left. by replace (PRIME_Q - (PRIME_Q - y)) with y in H by lia.
Qed.

(** What the contract accepts, the verifier of the crate accepts. *)
Lemma verifyProof_accepts v vk p input : key_words v vk -> length (IC v) = S (length input) -> verifyProof v p input = Ok true ->
  in_field input = true /\ exists pf, reads_as p pf /\ verify_with_processed_vk (prepare_verifying_key (PO:=PO) vk) (map fr_of_Z input) pf = Ok true.
Proof.
  intros Hk Hl. unfold verifyProof. destruct (in_field input) eqn:Hin; [|done]. destruct (accumulator_Ok v vk input Hk Hl) as (w & ic & -> & Hic & Hprep).
  destruct (_negate (sp_a p)) as [na|] eqn:Hneg; [|done]. unfold ecPairingSingle, ecPairingDynamic. rewrite (ecPairing_spec (F:=F) (G1:=G1) (G2:=G2)).
  rewrite <- (app_nil_r (words22 (DELTA2 v))). destruct (pairs_of _) as [l|] eqn:Hp; [|done]. intros Hv.
  apply pairs_of_inv in Hp as (n & b & l1 & Hn & Hb & Hp & ->). apply pairs_of_inv in Hp as (al & be & l2 & Hal & Hbe & Hp & ->).
  apply pairs_of_inv in Hp as (x & ga & l3 & Hx & Hga & Hp & ->). apply pairs_of_inv in Hp as (c & de & l4 & Hc & Hde & [= <-] & ->).
  destruct Hk as [Kal Kbe Kga Kde _]. assert (al = alpha_g1 vk /\ be = beta_g2 vk /\ ga = gamma_g2 vk /\ de = delta_g2 vk /\ x = ic) as (-> & -> & -> & -> & ->) by (split_and!; congruence).
  destruct (negate_inv _ _ _ Hneg Hn) as (a & Ha & Hread). split; [done|]. exists (mkProof a b c). split; [by split|].
  apply (verify_equation (F:=F)). exists ic. split; [done|]. apply defect_zero. unfold defect. cbn [proof_a proof_b proof_c map] in *. rewrite Ha.
  destruct (gt_eqb _ _) eqn:E in Hv; [exact E|done].
Qed.

(** ** Batches *)

(** The combination of a list with the powers of a challenge. *)
Fixpoint wsum {G} `{!GroupOps F G} (rho : F) (i : nat) (l : list G) : G :=
  match l with
  | [] => g_zero
  | x :: l' => g_add (g_mul x (fr_pow rho i)) (wsum rho (S i) l')
  end.

Lemma g_add_swap {G} `{!GroupOps F G, !GroupLaws F G} (a b c d : G) : g_add (g_add a b) (g_add c d) = g_add (g_add a c) (g_add b d).
Proof. rewrite <- !(g_add_assoc (F:=F)). f_equal. rewrite !(g_add_assoc (F:=F)). f_equal. apply (g_add_comm (F:=F)). Qed.

Lemma g_add_swap4 (a a' b b' c c' d d' : GT) :
  g_add (g_add a a') (g_add (g_add b b') (g_add (g_add c c') (g_add d d'))) =
  g_add (g_add a (g_add b (g_add c d))) (g_add a' (g_add b' (g_add c' d'))).
Proof. by rewrite (g_add_swap a _ a'), (g_add_swap b _ b'), (g_add_swap c _ c'). Qed.

Lemma g_zero_mul {G} `{!GroupOps F G, !GroupLaws F G} (a : F) : g_mul g_zero a = g_zero (F:=F) (G:=G).
Proof. rewrite <- (g_mul_zero (F:=F) g_zero), g_mul_mul. f_equal. ring. Qed.

Lemma wsum_add {G} `{!GroupOps F G, !GroupLaws F G} rho (l k : list G) i : length l = length k ->
  wsum rho i (zip_with g_add l k) = g_add (wsum rho i l) (wsum rho i k).
Proof.
  revert k i; induction l as [|x l IH]; intros [|y k] i Hl; try done; cbn [zip_with wsum]; [by rewrite g_add_zero|].
  rewrite IH, g_add_mul by (by injection Hl). apply g_add_swap.
Qed.

Lemma wsum_pairing rho (l : list G1) (q : G2) i : pairing (wsum rho i l) q = wsum rho i (map (fun p => pairing p q) l).
Proof.
  revert i; induction l as [|x l IH]; intros i; cbn [wsum map].
  - rewrite <- (g_mul_zero (F:=F) g_zero), (pairing_mul_l (F:=F)). apply g_mul_zero.
  - by rewrite (pairing_add_l (F:=F)), (pairing_mul_l (F:=F)), IH.
Qed.

Lemma wsum_constant {G A} `{!GroupOps F G, !GroupLaws F G} rho (x : G) (l : list A) i :
  wsum rho i (map (fun _ => x) l) = g_mul x (fr_sum (map (fr_pow rho) (seq i (length l)))).
Proof.
  revert i; induction l as [|a l IH]; intros i; cbn [map wsum length seq].
  - symmetry. apply g_mul_zero.
  - rewrite IH, <- g_mul_add. done.
Qed.

Lemma wsum_zero {G} `{!GroupOps F G, !GroupLaws F G} rho (l : list G) i : Forall (fun x => x = g_zero) l -> wsum rho i l = g_zero.
Proof. intros H. revert i; induction H as [|x l -> _ IH]; intros i; cbn [wsum]; [done|]. by rewrite IH, g_zero_mul, g_add_zero. Qed.

(** The powers the loops compute. *)
Lemma fr_of_mulmod a b : fr_of_Z (F:=F) (mulmod a b SNARK_SCALAR_FIELD) = (fr_of_Z a * fr_of_Z b)%fr.
Proof.
  apply fr_to_Z_inj. unfold mulmod, SNARK_SCALAR_FIELD. rewrite fr_mul_spec, !fr_of_Z_spec, Z.mod_mod, <- Zmult_mod by discriminate. done.
Qed.

Lemma fr_of_addmod a b : fr_of_Z (F:=F) (addmod a b SNARK_SCALAR_FIELD) = (fr_of_Z a + fr_of_Z b)%fr.
Proof.
  apply fr_to_Z_inj. unfold addmod, SNARK_SCALAR_FIELD. rewrite fr_add_spec, !fr_of_Z_spec, Z.mod_mod, <- Zplus_mod by discriminate. done.
Qed.

Lemma next_power i ri r0 : fr_of_Z (F:=F) (next_ri i ri r0) = fr_pow (fr_of_Z r0) i ->
  fr_of_Z (F:=F) (next_ri (S i) (next_ri i ri r0) r0) = fr_pow (fr_of_Z r0) (S i).
Proof. intros H. unfold next_ri at 1. cbn [Nat.ltb Nat.leb]. rewrite fr_of_mulmod, H. cbn [fr_pow]. ring. Qed.

Lemma accumulate_loop_Ok v vk r0 inputs : key_words v vk -> Forall (fun input => length (IC v) = S (length input)) inputs ->
  forall ics i ri rSum accL (L : G1),
  Forall2 (fun input ic => prepare_inputs (prepare_verifying_key (PO:=PO) vk) (map fr_of_Z input) = Ok ic) inputs ics ->
  fr_of_Z (F:=F) (next_ri i ri r0) = fr_pow (fr_of_Z r0) i -> g1_of accL = Some L ->
  exists rSum' accL', accumulate_loop v r0 inputs i ri rSum accL = Ok (rSum', accL') /\
    fr_of_Z rSum' = (fr_of_Z (F:=F) rSum + fr_sum (map (fr_pow (fr_of_Z r0)) (seq i (length inputs))))%fr /\
    g1_of accL' = Some (g_add L (wsum (fr_of_Z (F:=F) r0) i ics)).
Proof.
  intros Hk Hlen. induction Hlen as [|input inputs Hl _ IH]; intros ics i ri rSum accL L HF Hri HL.
  { apply Forall2_nil_inv_l in HF as ->. exists rSum, accL. split_and!; [done| |cbn [wsum]; by rewrite g_add_zero]. cbn [length seq map]. unfold fr_sum. cbn [foldr]. ring. }
  apply Forall2_cons_inv_l in HF as (ic & ics' & Hic & HF & ->). cbn [accumulate_loop].
  destruct (accumulator_Ok v vk input Hk Hl) as (w & ic' & -> & Hw & Hic'). assert (ic' = ic) as -> by congruence.
  destruct (ecMul_Ok w ic (next_ri i ri r0) Hw) as (l & -> & Hlw). destruct (ecAdd_Ok accL l _ _ HL Hlw) as (a & -> & Ha).
  destruct (IH ics' (S i) (next_ri i ri r0) (addmod rSum (next_ri i ri r0) SNARK_SCALAR_FIELD) a _ HF (next_power _ _ _ Hri) Ha) as (rS & aL & -> & Hr & HaL).
  exists rS, aL. split; [done|]. split.
  - rewrite Hr, fr_of_addmod, Hri. cbn [length seq map]. unfold fr_sum. cbn [foldr]. ring.
  - rewrite HaL, Hri. cbn [wsum]. by rewrite (g_add_assoc (F:=F)).
Qed.

Lemma pairs_of_app ws ws' (l l' : list (G1 * G2)) : pairs_of ws = Some l -> pairs_of ws' = Some l' -> pairs_of (ws ++ ws') = Some (l ++ l').
Proof.
  intros Hl Hl'. revert ws Hl. induction l as [|[p q] l IH]; intros ws.
  - destruct ws as [|x [|y [|x1 [|x0 [|y1 [|y0 ws]]]]]]; cbn [pairs_of]; try done. repeat case_match; done.
  - destruct ws as [|x [|y [|x1 [|x0 [|y1 [|y0 ws]]]]]]; cbn [pairs_of app]; try done.
    destruct (g1_of (x, y)); [|done]. destruct (g2_of _); [|done]. destruct (pairs_of ws) eqn:E; [|done]. intros [= -> -> ->]. by rewrite (IH ws E).
Qed.

Lemma pairing_loop_Ok r0 proofs pfs : Forall2 proof_words proofs pfs -> forall i ri accC (K : G1),
  fr_of_Z (F:=F) (next_ri i ri r0) = fr_pow (fr_of_Z r0) i -> g1_of accC = Some K ->
  exists ws accC' l, pairing_loop r0 proofs i ri accC = Ok (ws, accC') /\ pairs_of ws = Some l /\
    g_sum (map (fun '(p, q) => pairing p q) l) = wsum (fr_of_Z (F:=F) r0) i (map (fun pf => pairing (g_neg (proof_a pf)) (proof_b pf)) pfs) /\
    g1_of accC' = Some (g_add K (wsum (fr_of_Z (F:=F) r0) i (map proof_c pfs))).
Proof.
  induction 1 as [|p pf proofs pfs [Ha Hb Hc] _ IH]; intros i ri accC K Hri HK.
  { exists [], accC, []. split_and!; [done..|]. cbn [map wsum]. by rewrite g_add_zero. }
  cbn [pairing_loop]. destruct (negate_Ok _ _ Ha) as (na & -> & Hna). destruct (ecMul_Ok na _ (next_ri i ri r0) Hna) as (a & -> & Haw).
  destruct (ecMul_Ok _ _ (next_ri i ri r0) Hc) as (c & -> & Hcw). destruct (ecAdd_Ok accC c _ _ HK Hcw) as (k & -> & Hkw).
  destruct (IH (S i) (next_ri i ri r0) k _ (next_power _ _ _ Hri) Hkw) as (ws & aC & l & -> & Hl & Hs & HaC). cbn [fst snd].
  eexists _, _, _. split; [done|]. split; [apply pairs_of_cons; done|]. rewrite Hri in *. split.
  - cbn [map]. unfold g_sum in *. cbn [foldr]. by rewrite Hs, (pairing_mul_l (F:=F)).
  - rewrite HaC. cbn [map wsum]. by rewrite (g_add_assoc (F:=F)).
Qed.

(** The proofs with their inputs. *)
Definition defects (vk : VerifyingKey G1 G2) (pfs : list (Proof G1 G2)) (ics : list G1) : list GT := zip_with (defect vk) pfs ics.

(** The batch check compares one combination of the defects with zero. *)
Lemma check_batch_equation v vk r0 proofs pfs inputs ics : key_words v vk -> Forall2 proof_words proofs pfs ->
  Forall (fun input => length (IC v) = S (length input)) inputs ->
  Forall2 (fun input ic => prepare_inputs (prepare_verifying_key (PO:=PO) vk) (map fr_of_Z input) = Ok ic) inputs ics -> length pfs = length ics ->
  check_batch v proofs inputs r0 = Ok (gt_eqb (wsum (fr_of_Z (F:=F) r0) 0 (defects vk pfs ics)) g_zero).
Proof.
  intros Hk Hp Hlen Hics Hl. pose proof Hk as [Kal Kbe Kga Kde _]. unfold check_batch, _accumulateRL, _buildBatchPairingInput.
  pose proof (g1_of_zero (F:=F) (G1:=G1) (G2:=G2)) as Hz.
  destruct (accumulate_loop_Ok v vk r0 inputs Hk Hlen ics 0 1 0 (0, 0) g_zero Hics eq_refl Hz) as (rS & aL & -> & HrS & HaL). cbn [fst snd].
  destruct (ecMul_Ok (ALPHA1 v) _ rS Kal) as (al & -> & Hal).
  destruct (pairing_loop_Ok r0 proofs pfs Hp 0 1 (0, 0) g_zero eq_refl Hz) as (ws & aC & l & -> & Hws & Hs & HaC). cbn [fst snd].
  rewrite (pairing_Ok _ (l ++ [(g_mul (alpha_g1 vk) (fr_of_Z rS), beta_g2 vk); (g_add g_zero (wsum (fr_of_Z r0) 0 ics), gamma_g2 vk);
    (g_add g_zero (wsum (fr_of_Z r0) 0 (map proof_c pfs)), delta_g2 vk)])).
  2: { apply pairs_of_app; [done|]. rewrite <- (app_nil_r (words22 (DELTA2 v))). by repeat (apply pairs_of_cons; [done..|]). }
  do 2 f_equal. rewrite map_app, g_sum_app, Hs. cbn [map]. unfold g_sum. cbn [foldr]. rewrite !(g_add_comm (F:=F) g_zero), !g_add_zero.
  rewrite !wsum_pairing, (pairing_mul_l (F:=F)), HrS. replace (fr_of_Z (F:=F) 0) with (fr_zero (F:=F)) by done.
  rewrite (Radd_0_l fr_ring_theory), (Forall2_length _ _ _ Hics), <- Hl, <- (wsum_constant (A:=Proof G1 G2)), !map_map.
  unfold defects, defect, g_sum. cbn [foldr]. clear -Hl LAWS GroupLaws0 GroupLaws1 GroupLaws2.
  generalize 0%nat as i. revert ics Hl; induction pfs as [|pf pfs IH]; intros [|ic ics] Hl i; try done; cbn [map wsum zip_with]; [by rewrite !g_add_zero|].
  rewrite <- IH by (by injection Hl). rewrite !g_add_mul, g_zero_mul, g_add_zero.
  apply g_add_swap4.
Qed.

(** A well-formed batch: words of points, one row of six inputs per proof. *)
Record batch_words (v : Groth16Verifier) (vk : VerifyingKey G1 G2) (proofs : list SolProof) (pfs : list (Proof G1 G2)) (inputs : list (list Z)) : Prop := {
  bw_key : key_words v vk;
  bw_proofs : Forall2 proof_words proofs pfs;
  bw_inputs : Forall (fun input => length (IC v) = S (length input) /\ in_field input = true) inputs;
  bw_length : length inputs = length proofs
}.

Lemma batch_points v vk proofs pfs inputs : batch_words v vk proofs pfs inputs ->
  exists ics, Forall2 (fun input ic => prepare_inputs (prepare_verifying_key (PO:=PO) vk) (map fr_of_Z input) = Ok ic) inputs ics /\
    length pfs = length ics /\
    (forall r0, check_batch v proofs inputs r0 = Ok (gt_eqb (wsum (fr_of_Z (F:=F) r0) 0 (defects vk pfs ics)) g_zero)) /\
    (Forall (fun x => x = g_zero) (defects vk pfs ics) <-> Forall2 (fun p input => verifyProof v p input = Ok true) proofs inputs).
Proof.
  intros [Hk Hp Hin Hl].
  assert (Hics : exists ics, Forall2 (fun input ic => prepare_inputs (prepare_verifying_key (PO:=PO) vk) (map fr_of_Z input) = Ok ic) inputs ics).
  { clear -Hk Hin LAWS GroupLaws0 GroupLaws1 GroupLaws2 PL EIP. induction Hin as [|input inputs [H1 H2] _ (ics & IH)]; [by exists []|].
    destruct (accumulator_Ok v vk input Hk H1) as (_ & ic & _ & _ & Hic). exists (ic :: ics). by constructor. }
  destruct Hics as (ics & Hics). exists ics. pose proof (Forall2_length _ _ _ Hics) as L1. pose proof (Forall2_length _ _ _ Hp) as L2.
  split_and!; [done|lia|intros; apply check_batch_equation; try done; [eapply Forall_impl; [exact Hin|by intros ? []]|lia]|].
  clear L2. revert proofs pfs Hp Hl. induction Hics as [|input ic inputs ics Hic Hics IH]; intros [|p proofs] pfs Hp Hl; try done.
  { apply Forall2_nil_inv_l in Hp as ->. split; intros _; constructor. }
  apply Forall2_cons_inv_l in Hp as (pf & pfs' & Hpf & Hp & ->). apply Forall_cons in Hin as [[H1 H2] Hin].
  specialize (IH Hin ltac:(by injection L1) proofs pfs' Hp ltac:(by injection Hl)). cbn [defects zip_with].
  destruct (verifyProof_defect v vk p pf input Hk Hpf H1 H2) as (ic' & Hic' & Hv). assert (ic' = ic) as -> by congruence.
  rewrite Forall_cons, Forall2_cons, <- IH, Hv. rewrite <- (gt_eqb_spec (F:=F)). split; intros [Hd H']; (split; [congruence|done]).
Qed.

(** Batching is complete.  Proofs that the contract accepts one by one are
    accepted as a batch, whatever the challenge. *)
Theorem batch_complete v vk gas aArr bArr cArr pfs inputs r0 :
  batch_words v vk (proofs_of aArr bArr cArr) pfs inputs -> (0 < length aArr)%nat -> Z.of_nat (length aArr) <= MAX_BATCH ->
  length bArr = length aArr -> length cArr = length aArr ->
  challenge gas (be_value (keccak256 (transcript (proofs_of aArr bArr cArr) inputs)) mod SNARK_SCALAR_FIELD) = Some r0 ->
  Forall2 (fun p input => verifyProof v p input = Ok true) (proofs_of aArr bArr cArr) inputs ->
  verifyProofBatch v gas aArr bArr cArr inputs = Ok true.
Proof.
  intros Hb H0 Hmax Lb Lc Hr Hv. destruct (batch_points _ _ _ _ _ Hb) as (ics & _ & _ & Hcheck & Hzero). pose proof Hb as [_ _ Hin Hl].
  assert (Lp : length (proofs_of aArr bArr cArr) = length aArr) by (unfold proofs_of; rewrite length_map, !length_zip_with; lia).
  unfold verifyProofBatch. rewrite (proj2 (Nat.ltb_lt _ _) H0), (proj2 (Z.leb_le _ _) Hmax), Lb, Lc, Hl, Lp, Nat.eqb_refl. cbn [andb].
  replace (_checkInputsRange inputs) with true by (symmetry; unfold _checkInputsRange; rewrite forallb_forall; intros x Hx%list_elem_of_In; by apply (proj1 (Forall_forall _ _) Hin x Hx)).
  rewrite Hr, Hcheck, wsum_zero by (by apply Hzero). f_equal. by apply (gt_eqb_spec (F:=F)).
Qed.

(** In a group of prime order only zero annihilates a nonzero element. *)
Lemma g_mul_annihilates `{!FieldInv F, !FieldInvLaws F} (x : GT) (k : F) : g_mul x k = g_zero -> k = fr_zero \/ x = g_zero.
Proof.
  intros H. destruct (fr_inverse k) as [i|] eqn:Hi; [|left; by apply fr_inverse_None in Hi]. right.
  apply fr_inverse_Some in Hi. by rewrite <- (g_mul_one (F:=F) x), <- Hi, <- g_mul_mul, H, g_zero_mul.
Qed.

Lemma wsum_multiples (e : GT) rho : forall (ds : list F) i, wsum rho i (map (g_mul e) ds) = g_mul e (fr_pow rho i * peval ds rho)%fr.
Proof.
  induction ds as [|d ds IH]; intros i; cbn [map wsum peval foldr].
  - replace (fr_pow rho i * fr_zero)%fr with (fr_zero (F:=F)) by ring. symmetry. apply g_mul_zero.
  - rewrite IH, g_mul_mul, <- g_mul_add. f_equal. cbn [fr_pow]. unfold peval. ring.
Qed.

(** C22: batching is sound.  A batch of [n] proofs that contains an invalid one
    passes the check for at most [n - 1] challenges: if it passes for [n]
    distinct ones, each proof passes on its own. *)
Theorem batch_sound `{!FieldInv F, !FieldInvLaws F} v vk proofs pfs inputs (e : GT) rs :
  (forall x : GT, exists k, x = g_mul e k) -> batch_words v vk proofs pfs inputs ->
  NoDup rs -> Forall (fun r => 0 <= r < SNARK_SCALAR_FIELD) rs -> (length proofs <= length rs)%nat ->
  Forall (fun r => check_batch v proofs inputs r = Ok true) rs ->
  Forall2 (fun p input => verifyProof v p input = Ok true) proofs inputs.
Proof.
  intros Hcyc Hb Hnd Hrange Hlen Hall. destruct (batch_points _ _ _ _ _ Hb) as (ics & _ & L1 & Hcheck & Hzero). apply Hzero.
  assert (Hds : exists ds, defects vk pfs ics = map (g_mul e) ds).
  { generalize (defects vk pfs ics). intros l. induction l as [|x l (ds & ->)]; [by exists []|]. destruct (Hcyc x) as (k & ->). by exists (k :: ds). }
  destruct Hds as (ds & Hds). assert (Ld : length ds = length proofs).
  { apply (f_equal length) in Hds. unfold defects in Hds. rewrite length_zip_with, length_map in Hds.
    pose proof (Forall2_length _ _ _ (bw_proofs _ _ _ _ _ Hb)). lia. }
  destruct (gt_eqb e g_zero) eqn:He; [apply (gt_eqb_spec (F:=F)) in He as He'|].
  { rewrite Hds, Forall_map. apply Forall_forall. intros k _. rewrite He'. apply g_zero_mul. }
  rewrite Hds, Forall_map. assert (Hp : pzero ds).
  { apply (roots_zero (map (fr_of_Z (F:=F)) rs)); [|rewrite length_map; lia|].
    - apply NoDup_fmap_2_strong; [|done]. intros x y Hx Hy Hxy. rewrite Forall_forall in Hrange. apply (f_equal fr_to_Z) in Hxy.
      rewrite !fr_of_Z_spec, !Z.mod_small in Hxy by (by apply Hrange). done.
    - intros rho (r & -> & Hr)%list_elem_of_fmap. rewrite Forall_forall in Hall. specialize (Hall r Hr). rewrite Hcheck, Hds, wsum_multiples in Hall.
      injection Hall as Hz%(gt_eqb_spec (F:=F)). cbn [fr_pow] in Hz. rewrite (Rmul_1_l fr_ring_theory) in Hz.
      apply g_mul_annihilates in Hz as [|Hz]; [done|]. apply (gt_eqb_spec (F:=F)) in Hz. congruence. }
  eapply Forall_impl; [exact Hp|]. intros k ->. apply g_mul_zero.
Qed.
End facts.
