(* ===== verification/DarkPool.v ===== *)
(** * Contracts: the settlement contract

    [contracts/src/DarkPool.sol].  Storage is [DarkPool]; each external function
    is a definition that returns the new storage and the emitted events, or the
    reason of its revert.  The functions inherited from OpenZeppelin (ownership,
    the pause switch, the reentrancy guard) and the token contracts are not
    part of the program and are parameters.  What the verifiers answer reaches a
    call through its environment; they are modelled in [Groth16Verifier.v] and
    [VerifierProxy.v].

    [deposit] and [withdraw] call a token, which may call back.  Each is also
    split at that call, so that other calls can come in between. *)

From S2P Require Import Prelude Decimal Types Field Evm PoseidonConstants PoseidonBN254.
Open Scope Z_scope.

(** ** Parameters *)

(** The base contracts: [Ownable2Step], [Pausable] and [ReentrancyGuard]. *)
Class BaseOps (B : Type) := {
  oz_owner : B -> Address;
  oz_pendingOwner : B -> Address;
  oz_paused : B -> bool;
  oz_entered : B -> bool;
  oz_enter : B -> result B Str;
  oz_leave : B -> B;
  oz_pause : B -> result B Str;
  oz_unpause : B -> result B Str;
  oz_transferOwnership : B -> Address -> B;
  oz_acceptOwnership : B -> Address -> result B Str;
  oz_renounceOwnership : B -> B;
  oz_new : Address -> B
}.

Definition address_0 : Address := replicate 20 0.

(** The documented behaviour the contract relies on. *)
Class BaseLaws (B : Type) `{!BaseOps B} : Prop := {
  oz_enter_iff : forall b, (exists b', oz_enter b = Ok b') <-> oz_entered b = false;
  oz_enter_entered : forall b b', oz_enter b = Ok b' -> oz_entered b' = true /\ oz_owner b' = oz_owner b /\ oz_paused b' = oz_paused b;
  oz_leave_entered : forall b, oz_entered (oz_leave b) = false /\ oz_owner (oz_leave b) = oz_owner b /\ oz_paused (oz_leave b) = oz_paused b;
  oz_pause_paused : forall b b', oz_pause b = Ok b' -> oz_paused b' = true /\ oz_entered b' = oz_entered b /\ oz_owner b' = oz_owner b;
  oz_unpause_paused : forall b b', oz_unpause b = Ok b' -> oz_paused b' = false /\ oz_entered b' = oz_entered b /\ oz_owner b' = oz_owner b;
  oz_transfer_frame : forall b a, oz_entered (oz_transferOwnership b a) = oz_entered b /\ oz_paused (oz_transferOwnership b a) = oz_paused b /\
    oz_owner (oz_transferOwnership b a) = oz_owner b;
  oz_accept_frame : forall b a b', oz_acceptOwnership b a = Ok b' -> oz_entered b' = oz_entered b /\ oz_paused b' = oz_paused b /\ oz_owner b' = a;
  oz_renounce_frame : forall b, oz_entered (oz_renounceOwnership b) = oz_entered b /\ oz_paused (oz_renounceOwnership b) = oz_paused b /\
    oz_owner (oz_renounceOwnership b) = address_0;
  oz_new_state : forall a, oz_owner (oz_new a) = a /\ oz_paused (oz_new a) = false /\ oz_entered (oz_new a) = false;
  oz_accept_iff : forall b a, (exists b', oz_acceptOwnership b a = Ok b') <-> oz_pendingOwner b = a;
  oz_pending_transfer : forall b a, oz_pendingOwner (oz_transferOwnership b a) = a;
  oz_pending_guard : forall b, oz_pendingOwner (oz_leave b) = oz_pendingOwner b /\
    forall b', oz_enter b = Ok b' \/ oz_pause b = Ok b' \/ oz_unpause b = Ok b' -> oz_pendingOwner b' = oz_pendingOwner b;
  oz_pending_new : forall a, oz_pendingOwner (oz_new a) = address_0
}.

(** The state of the token contracts. *)
Class TokenOps (T : Type) := {
  balanceOf : T -> Address -> Address -> Z;
  safeTransferFrom : T -> Address -> Address -> Address -> Z -> result T Str;
  safeTransfer : T -> Address -> Address -> Address -> Z -> result T Str
}.

(** The groups of a Groth16 proof. *)
Record Groth16Proof := mkGroth16Proof { g_a : list Z; g_b : list (list Z); g_c : list Z }.

(** What a call sees: its sender, the block, and the answers of static calls. *)
Record CallEnv := mkCallEnv {
  msg_sender : Address;
  block_timestamp : Z;
  block_chainid : Z;
  this : Address;
  code_length : Address -> Z;
  decimals : Address -> result Z Str;
  verifyProof : Address -> Groth16Proof -> list Z -> result bool Str;
  verifyIvcProof : Address -> bytes -> list Z -> list Z -> Z -> result bool Str
}.

(** ** Data *)

(** [IDarkPool.Match]; order identifiers are words. *)
Record SolMatch := mkSolMatch {
  bidOrderId : Z;
  askOrderId : Z;
  bidTrader : Address;
  askTrader : Address;
  baseToken : Address;
  quoteToken : Address;
  sol_price : Z;
  sol_size : Z
}.

Inductive PoolEvent :=
| EvBatchSettled (batchId : Z) (timestamp : Z)
| EvDeposit (trader token : Address) (value : Z)
| EvWithdrawal (trader token : Address) (value : Z)
| EvOperatorAdded (operator : Address)
| EvOperatorRemoved (operator : Address)
| EvOperatorPubkeyUpdated (oldPubkey newPubkey : bytes) (effectiveAt : Z)
| EvTokenAllowed (token : Address) (allowed : bool)
| EvReserved (trader token : Address) (value : Z)
| EvUnreserveRequested (trader token : Address) (value readyAt : Z)
| EvUnreserved (trader token : Address) (value : Z)
| EvSessionSubmitted (sessionId nSteps policyHash : Z)
| EvAuctionSettled (sessionId auctionId : Z)
| EvIvcEnabledSet (enabled : bool).

(** The funds. *)
Record Escrow := mkEscrow {
  balances : gmap account Z;
  reserved : gmap account Z;
  pendingUnreserve : gmap account Z;
  unreserveReadyAt : gmap account Z
}.

(** The replay guards and the sessions. *)
Record Sessions := mkSessions {
  settledBatch : gmap Z bool;
  settledAuction : gmap Z bool;
  sessionSubmitted : gmap Z bool;
  auctionToSession : gmap Z Z;
  sessionSettlementAcc : gmap Z Z;
  sessionSettled : gmap Z bool
}.

(** What the owner controls. *)
Record Settings := mkSettings {
  operators : gmap Address bool;
  allowedTokens : gmap Address bool;
  ivcVerifier : Address;
  ivcEnabled : bool;
  feeRecipient : Address;
  minSize : Z;
  minPrice : Z;
  positionLimit : Z;
  operatorPubkey : bytes;
  operatorPubkeyEffectiveAt : Z
}.

Record DarkPool (B : Type) := mkDarkPool {
  dp_base : B;
  dp_verifier : Address;
  settlementDomain : Z;
  escrow : Escrow;
  sessions : Sessions;
  settings : Settings
}.
Arguments mkDarkPool {B}.
Arguments dp_base {B}.
Arguments dp_verifier {B}.
Arguments settlementDomain {B}.
Arguments escrow {B}.
Arguments sessions {B}.
Arguments settings {B}.

Definition set_balance (x : Escrow) (k : account) (v : Z) : Escrow :=
  mkEscrow (<[k := v]> (balances x)) (reserved x) (pendingUnreserve x) (unreserveReadyAt x).
Definition set_reserved (x : Escrow) (k : account) (v : Z) : Escrow :=
  mkEscrow (balances x) (<[k := v]> (reserved x)) (pendingUnreserve x) (unreserveReadyAt x).
Definition set_pendingUnreserve (x : Escrow) (k : account) (v : Z) : Escrow :=
  mkEscrow (balances x) (reserved x) (<[k := v]> (pendingUnreserve x)) (unreserveReadyAt x).
Definition set_readyAt (x : Escrow) (k : account) (v : Z) : Escrow :=
  mkEscrow (balances x) (reserved x) (pendingUnreserve x) (<[k := v]> (unreserveReadyAt x)).

(** ** Constants *)

Definition PROTOCOL_FEE_BPS : Z := 5.
Definition MAX_BATCH_SIZE : Z := 256.
Definition SNARK_SCALAR_FIELD : Z := 21888242871839275222246405745257275088548364400416034343698204186575808495617.
Definition MAX_IVC_SETTLE_MATCHES : Z := 32.
Definition BPS_DENOMINATOR : Z := 10000.
Definition SECP256K1_P : Z := 0xFFFFFFFFFFFFFFFFFFFFFFFFFFFFFFFFFFFFFFFFFFFFFFFFFFFFFFFEFFFFFC2F.
Definition SECP256K1_LEGENDRE_EXP : Z := (SECP256K1_P - 1) / 2.
Definition WEI_TO_CIRCUIT_SCALE : Z := 10 ^ 10.
Definition UNRESERVE_DELAY : Z := 3600.

(** [uint256(uint160(a))]. *)
Definition addr_word (a : Address) : Z := be_value a.

(** ** Settlement *)

(** Spend reserved funds; a settled match retires a pending release. *)
Definition consumeReserved (x : Escrow) (trader token : Address) (value : Z) : result Escrow Str :=
  let k := (trader, token) in
  let r := amount (reserved x) k in
  let? r' := sub_u256 r value in
  let x := set_reserved x k r' in
  let p := amount (pendingUnreserve x) k in
  if p =? 0 then Ok x
  else
    let? freeReserved := if p <? r then sub_u256 r p else Ok 0 in
    if freeReserved <? value then
      let? excess := sub_u256 value freeReserved in
      let? newPending := sub_u256 p excess in
      let x := set_pendingUnreserve x k newPending in
      Ok (if newPending =? 0 then set_readyAt x k 0 else x)
    else Ok x.

(** [balances[k] += value]. *)
Definition credit (x : Escrow) (k : account) (value : Z) : result Escrow Str :=
  let? b := add_u256 (amount (balances x) k) value in
  Ok (set_balance x k b).

(** The amounts of a match in units of its two tokens. *)
Definition base_amount (m : SolMatch) (baseDecimals : Z) : result Z Str :=
  let? unit := pow_u256 10 baseDecimals in
  let? scaled := mul_u256 (sol_size m) unit in
  Ok (scaled / 10 ^ 18).

Definition quote_amount (m : SolMatch) (quoteDecimals : Z) : result Z Str :=
  let? gross := mul_u256 (sol_price m) (sol_size m) in
  let? unit := pow_u256 10 quoteDecimals in
  let? scaled := mul_u256 (gross / 10 ^ 18) unit in
  Ok (scaled / 10 ^ 18).

(** The transfers of a match, given its amounts. *)
Definition transfer_legs (feeRecipient : Address) (x : Escrow) (m : SolMatch) (baseAmount notional : Z) : result Escrow Str :=
  let? feeScaled := mul_u256 notional PROTOCOL_FEE_BPS in
  let fee := feeScaled / BPS_DENOMINATOR in
  let? askReceives := sub_u256 notional fee in
  let? x := consumeReserved x (bidTrader m) (quoteToken m) notional in
  let? x := credit x (bidTrader m, baseToken m) baseAmount in
  let? x := consumeReserved x (askTrader m) (baseToken m) baseAmount in
  let? x := credit x (askTrader m, quoteToken m) askReceives in
  credit x (feeRecipient, quoteToken m) fee.

Definition settleMatch (env : CallEnv) (feeRecipient : Address) (x : Escrow) (m : SolMatch) : result Escrow Str :=
  let? baseDecimals := decimals env (baseToken m) in
  let? quoteDecimals := decimals env (quoteToken m) in
  let? baseAmount := base_amount m baseDecimals in
  let? notional := quote_amount m quoteDecimals in
  transfer_legs feeRecipient x m baseAmount notional.

(** ** SEC1 public keys *)

Definition validSec1Tag (pubkey : bytes) : bool :=
  let tag := nth 0 pubkey 0 in
  if (length pubkey =? 33)%nat then (tag =? 2) || (tag =? 3) else tag =? 4.

(** [mload] of a word; memory past the end of the key is not read. *)
Definition readUint256 (data : bytes) (offset : nat) : Z := be_value (take 32 (drop offset data)).

Definition secp256k1Rhs (x : Z) : Z :=
  let x2 := mulmod x x SECP256K1_P in
  addmod (mulmod x2 x SECP256K1_P) 7 SECP256K1_P.

(** The precompiled contract at [0x05]: modular exponentiation, by squaring. *)
Fixpoint modExp_pos (base : Z) (exponent : positive) (modulus : Z) : Z :=
  match exponent with
  | xH => base mod modulus
  | xO e => let h := modExp_pos base e modulus in h * h mod modulus
  | xI e => let h := modExp_pos base e modulus in h * h mod modulus * base mod modulus
  end.

Definition modExp (base exponent modulus : Z) : Z :=
  match exponent with Zpos e => modExp_pos base e modulus | _ => 1 mod modulus end.

Definition isQuadraticResidue (value : Z) : bool := modExp value SECP256K1_LEGENDRE_EXP SECP256K1_P =? 1.

Definition validSec1Point (pubkey : bytes) : bool :=
  let x := readUint256 pubkey 1 in
  if SECP256K1_P <=? x then false
  else
    let rhs := secp256k1Rhs x in
    if (length pubkey =? 33)%nat then isQuadraticResidue rhs
    else
      let y := readUint256 pubkey 33 in
      (y <? SECP256K1_P) && (mulmod y y SECP256K1_P =? rhs).

Definition decodeProof (proof : bytes) : Groth16Proof :=
  let w (i : nat) := be_value (take 32 (drop (32 * i) proof)) in
  mkGroth16Proof [w 0%nat; w 1%nat] [[w 2%nat; w 3%nat]; [w 4%nat; w 5%nat]] [w 6%nat; w 7%nat].

(** The chain over the matches, from the domain of the deployment. *)
Definition settlementChain `{!Poseidon5} (domain : Z) (ms : list SolMatch) : result Z Str :=
  fold_checked (fun acc m =>
    require! (sol_price m mod WEI_TO_CIRCUIT_SCALE =? 0) && (sol_size m mod WEI_TO_CIRCUIT_SCALE =? 0), "match precision";
    Ok (hash5 acc (addr_word (bidTrader m)) (addr_word (askTrader m))
      (sol_price m / WEI_TO_CIRCUIT_SCALE) (sol_size m / WEI_TO_CIRCUIT_SCALE))) domain ms.

(** ** The functions *)

Section pool.
Context {B : Type} `{!BaseOps B, !Keccak, !Poseidon5}.
Implicit Types (p : DarkPool B) (env : CallEnv).

Definition with_base p (b : B) : DarkPool B := mkDarkPool b (dp_verifier p) (settlementDomain p) (escrow p) (sessions p) (settings p).
Definition with_escrow p (x : Escrow) : DarkPool B := mkDarkPool (dp_base p) (dp_verifier p) (settlementDomain p) x (sessions p) (settings p).
Definition with_sessions p (s : Sessions) : DarkPool B := mkDarkPool (dp_base p) (dp_verifier p) (settlementDomain p) (escrow p) s (settings p).
Definition with_settings p (c : Settings) : DarkPool B := mkDarkPool (dp_base p) (dp_verifier p) (settlementDomain p) (escrow p) (sessions p) c.

(** The modifiers. *)
Definition onlyOperator env p : bool := flag (operators (settings p)) (msg_sender env).
Definition whenNotPaused p : bool := negb (oz_paused (dp_base p)).
Definition onlyOwner env p : bool := bool_decide (msg_sender env = oz_owner (dp_base p)).

(** The key of an identifier in the maps of this deployment. *)
Definition SETTLEMENT_ID_DOMAIN : Z := be_value (keccak256 (str "DarkPoolSettlementId-v1")).

Definition domainId env (namespace : Str) (id : Z) : Z :=
  be_value (keccak256 (abi_encode [AWord SETTLEMENT_ID_DOMAIN; AWord (block_chainid env); AWord (addr_word (this env)); AString namespace; AWord id])).

Definition batchKey env (batchId : Z) : Z := domainId env (str "batch") batchId.
Definition auctionKey env (auctionId : Z) : Z := domainId env (str "auction") auctionId.
Definition sessionKey env (sessionId : Z) : Z := domainId env (str "session") sessionId.

Definition valid_pubkey (pubkey : bytes) : result unit Str :=
  require! (length pubkey =? 33)%nat || (length pubkey =? 65)%nat, "bad pubkey len";
  require! validSec1Tag pubkey, "bad pubkey tag";
  require! validSec1Point pubkey, "bad pubkey point";
  Ok tt.

Definition constructor env (verifier_ feeRecipient_ : Address) (operatorPubkey_ : bytes) : result (DarkPool B * list PoolEvent) Str :=
  require! negb (bool_decide (verifier_ = address_0)), "zero verifier";
  require! 0 <? code_length env verifier_, "verifier has no code";
  require! negb (bool_decide (feeRecipient_ = address_0)), "zero fee recipient";
  let? u := valid_pubkey operatorPubkey_ in
  let domain := be_value (keccak256 (abi_encode [AString (str "DarkPoolSettlement-v1"); AWord (block_chainid env); AWord (addr_word (this env))])) mod SNARK_SCALAR_FIELD in
  Ok (mkDarkPool (oz_new (msg_sender env)) verifier_ domain (mkEscrow ∅ ∅ ∅ ∅) (mkSessions ∅ ∅ ∅ ∅ ∅ ∅)
        (mkSettings ∅ ∅ address_0 false feeRecipient_ 0 0 0 operatorPubkey_ (block_timestamp env mod 2 ^ 64)),
      [EvOperatorPubkeyUpdated [] operatorPubkey_ (block_timestamp env mod 2 ^ 64)]).

(** The part of [deposit] before the token is called; it returns the balance
    read before the transfer. *)
Definition deposit_begin {T} `{!TokenOps T} env p (tokens : T) (token : Address) (value : Z) : result (DarkPool B * Z) Str :=
  let? b := oz_enter (dp_base p) in
  require! whenNotPaused p, "EnforcedPause";
  require! 0 <? value, "zero amount";
  require! flag (allowedTokens (settings p)) token, "token not allowed";
  Ok (with_base p b, balanceOf tokens token (this env)).

(** The part after it. *)
Definition deposit_end {T} `{!TokenOps T} env p (tokens : T) (token : Address) (balanceBefore : Z) : result (DarkPool B * list PoolEvent) Str :=
  let? received := sub_u256 (balanceOf tokens token (this env)) balanceBefore in
  require! 0 <? received, "no tokens received";
  let? x := credit (escrow p) (msg_sender env, token) received in
  Ok (with_base (with_escrow p x) (oz_leave (dp_base p)), [EvDeposit (msg_sender env) token received]).

Definition deposit {T} `{!TokenOps T} env p (tokens : T) (token : Address) (value : Z) : result (DarkPool B * T * list PoolEvent) Str :=
  let? begun := deposit_begin env p tokens token value in
  let? tokens := safeTransferFrom tokens token (msg_sender env) (this env) value in
  let? ended := deposit_end env (fst begun) tokens token (snd begun) in
  Ok (fst ended, tokens, snd ended).

Definition withdraw_begin env p (token : Address) (value : Z) : result (DarkPool B) Str :=
  let? b := oz_enter (dp_base p) in
  require! whenNotPaused p, "EnforcedPause";
  require! 0 <? value, "zero amount";
  let k := (msg_sender env, token) in
  require! value <=? amount (balances (escrow p)) k, "insufficient balance";
  let? rest := sub_u256 (amount (balances (escrow p)) k) value in
  Ok (with_base (with_escrow p (set_balance (escrow p) k rest)) b).

Definition withdraw_end env p (token : Address) (value : Z) : DarkPool B * list PoolEvent :=
  (with_base p (oz_leave (dp_base p)), [EvWithdrawal (msg_sender env) token value]).

Definition withdraw {T} `{!TokenOps T} env p (tokens : T) (token : Address) (value : Z) : result (DarkPool B * T * list PoolEvent) Str :=
  let? p := withdraw_begin env p token value in
  let? tokens := safeTransfer tokens token (this env) (msg_sender env) value in
  let '(p, evs) := withdraw_end env p token value in
  Ok (p, tokens, evs).

Definition reserve env p (token : Address) (value : Z) : result (DarkPool B * list PoolEvent) Str :=
  require! whenNotPaused p, "EnforcedPause";
  require! 0 <? value, "zero amount";
  let k := (msg_sender env, token) in
  let x := escrow p in
  require! value <=? amount (balances x) k, "insufficient balance";
  let? b := sub_u256 (amount (balances x) k) value in
  let x := set_balance x k b in
  let? r := add_u256 (amount (reserved x) k) value in
  Ok (with_escrow p (set_reserved x k r), [EvReserved (msg_sender env) token value]).

Definition requestUnreserve env p (token : Address) (value : Z) : result (DarkPool B * list PoolEvent) Str :=
  require! whenNotPaused p, "EnforcedPause";
  require! 0 <? value, "zero amount";
  let k := (msg_sender env, token) in
  let x := escrow p in
  let r := amount (reserved x) k in
  let pd := amount (pendingUnreserve x) k in
  let? available := if pd <? r then sub_u256 r pd else Ok 0 in
  require! value <=? available, "exceeds reserved";
  let? pd' := add_u256 pd value in
  let? readyAt := add_u256 (block_timestamp env) UNRESERVE_DELAY in
  Ok (with_escrow p (set_readyAt (set_pendingUnreserve x k pd') k readyAt),
      [EvUnreserveRequested (msg_sender env) token value readyAt]).

Definition releaseUnreserve env p (token : Address) : result (DarkPool B * list PoolEvent) Str :=
  require! whenNotPaused p, "EnforcedPause";
  let k := (msg_sender env, token) in
  let x := escrow p in
  let pending := amount (pendingUnreserve x) k in
  require! 0 <? pending, "nothing pending";
  require! amount (unreserveReadyAt x) k <=? block_timestamp env, "unreserve not ready";
  let r := amount (reserved x) k in
  let value := if pending <=? r then pending else r in
  let? rest := sub_u256 r value in
  let? x := credit (set_reserved x k rest) k value in
  Ok (with_escrow p (set_readyAt (set_pendingUnreserve x k 0) k 0), [EvUnreserved (msg_sender env) token value]).

Definition mark_batch (s : Sessions) (batch auction : Z) : Sessions :=
  mkSessions (<[batch := true]> (settledBatch s)) (<[auction := true]> (settledAuction s)) (sessionSubmitted s)
    (auctionToSession s) (sessionSettlementAcc s) (sessionSettled s).

Definition mark_session (s : Sessions) (session acc : Z) : Sessions :=
  mkSessions (settledBatch s) (settledAuction s) (<[session := true]> (sessionSubmitted s))
    (auctionToSession s) (<[session := acc]> (sessionSettlementAcc s)) (sessionSettled s).

Definition mark_auction (s : Sessions) (session auction sessionId : Z) : Sessions :=
  mkSessions (settledBatch s) (<[auction := true]> (settledAuction s)) (sessionSubmitted s)
    (<[auction := sessionId]> (auctionToSession s)) (sessionSettlementAcc s) (<[session := true]> (sessionSettled s)).

(** The word at [i] of a fixed-size array. *)
Definition word (l : list Z) (i : nat) : Z := nth i l 0.

Definition submitBatch env p (batchId auctionId : Z) (proof : bytes) (publicInputs : list Z) (ms : list SolMatch) :
    result (DarkPool B * list PoolEvent) Str :=
  require! onlyOperator env p, "not operator";
  require! whenNotPaused p, "EnforcedPause";
  let bk := batchKey env batchId in
  let ak := auctionKey env auctionId in
  let n := Z.of_nat (length ms) in
  require! negb (flag (settledBatch (sessions p)) bk), "batch already settled";
  require! negb (flag (settledAuction (sessions p)) ak), "auction already settled";
  require! (0 <? n) && (n <=? MAX_BATCH_SIZE), "invalid batch size";
  require! (length proof =? 256)%nat, "invalid proof length";
  require! word publicInputs 0 =? n, "match count mismatch";
  require! word publicInputs 3 =? minSize (settings p), "minSize mismatch";
  require! word publicInputs 4 =? minPrice (settings p), "minPrice mismatch";
  require! word publicInputs 5 =? positionLimit (settings p), "positionLimit mismatch";
  let? valid := verifyProof env (dp_verifier p) (decodeProof proof) publicInputs in
  require! valid, "invalid proof";
  let p := with_sessions p (mark_batch (sessions p) bk ak) in
  let? x := fold_checked (settleMatch env (feeRecipient (settings p))) (escrow p) ms in
  Ok (with_escrow p x, [EvBatchSettled batchId (block_timestamp env)]).

Definition submitSession env p (sessionId : Z) (proof : bytes) (z0 zN : list Z) (nSteps policyHash : Z) :
    result (DarkPool B * list PoolEvent) Str :=
  require! onlyOperator env p, "not operator";
  require! whenNotPaused p, "EnforcedPause";
  require! ivcEnabled (settings p), "ivc settlement disabled";
  let sk := sessionKey env sessionId in
  require! negb (flag (sessionSubmitted (sessions p)) sk), "session already submitted";
  require! negb (bool_decide (ivcVerifier (settings p) = address_0)), "ivc verifier not set";
  let? valid := verifyIvcProof env (ivcVerifier (settings p)) proof z0 zN nSteps in
  require! valid, "invalid ivc proof";
  require! word z0 3 =? settlementDomain p, "z0 settlement domain";
  require! policyHash =? word zN 2, "policy hash mismatch";
  Ok (with_sessions p (mark_session (sessions p) sk (word zN 3)), [EvSessionSubmitted sessionId nSteps policyHash]).

Definition settleAuction env p (sessionId auctionId : Z) (ms : list SolMatch) : result (DarkPool B * list PoolEvent) Str :=
  require! onlyOperator env p, "not operator";
  require! whenNotPaused p, "EnforcedPause";
  require! ivcEnabled (settings p), "ivc settlement disabled";
  let sk := sessionKey env sessionId in
  let ak := auctionKey env auctionId in
  let n := Z.of_nat (length ms) in
  require! flag (sessionSubmitted (sessions p)) sk, "session not submitted";
  require! negb (flag (settledAuction (sessions p)) ak), "auction already settled";
  require! negb (flag (sessionSettled (sessions p)) sk), "session already settled";
  let bound := amount (auctionToSession (sessions p)) ak in
  require! (bound =? 0) || (bound =? sessionId), "auction bound to other session";
  require! (0 <? n) && (n <=? MAX_IVC_SETTLE_MATCHES), "invalid ivc batch size";
  let? chain := settlementChain (settlementDomain p) ms in
  require! chain =? amount (sessionSettlementAcc (sessions p)) sk, "settlement binding";
  let p := with_sessions p (mark_auction (sessions p) sk ak sessionId) in
  let? x := fold_checked (settleMatch env (feeRecipient (settings p))) (escrow p) ms in
  Ok (with_escrow p x, [EvAuctionSettled sessionId auctionId]).

(** ** The owner's functions *)

Definition set_operators (c : Settings) (m : gmap Address bool) : Settings :=
  mkSettings m (allowedTokens c) (ivcVerifier c) (ivcEnabled c) (feeRecipient c) (minSize c) (minPrice c) (positionLimit c)
    (operatorPubkey c) (operatorPubkeyEffectiveAt c).

Definition setTokenAllowed env p (token : Address) (allowed : bool) : result (DarkPool B * list PoolEvent) Str :=
  require! onlyOwner env p, "OwnableUnauthorizedAccount";
  require! negb (bool_decide (token = address_0)), "zero token";
  let c := settings p in
  Ok (with_settings p (mkSettings (operators c) (<[token := allowed]> (allowedTokens c)) (ivcVerifier c) (ivcEnabled c)
        (feeRecipient c) (minSize c) (minPrice c) (positionLimit c) (operatorPubkey c) (operatorPubkeyEffectiveAt c)),
      [EvTokenAllowed token allowed]).

Definition addOperator env p (op : Address) : result (DarkPool B * list PoolEvent) Str :=
  require! onlyOwner env p, "OwnableUnauthorizedAccount";
  require! negb (bool_decide (op = address_0)), "zero address";
  Ok (with_settings p (set_operators (settings p) (<[op := true]> (operators (settings p)))), [EvOperatorAdded op]).

Definition removeOperator env p (op : Address) : result (DarkPool B * list PoolEvent) Str :=
  require! onlyOwner env p, "OwnableUnauthorizedAccount";
  Ok (with_settings p (set_operators (settings p) (<[op := false]> (operators (settings p)))), [EvOperatorRemoved op]).

Definition setPolicy env p (minSize_ minPrice_ positionLimit_ : Z) : result (DarkPool B * list PoolEvent) Str :=
  require! onlyOwner env p, "OwnableUnauthorizedAccount";
  let c := settings p in
  Ok (with_settings p (mkSettings (operators c) (allowedTokens c) (ivcVerifier c) (ivcEnabled c) (feeRecipient c)
        minSize_ minPrice_ positionLimit_ (operatorPubkey c) (operatorPubkeyEffectiveAt c)), []).

Definition setFeeRecipient env p (recipient : Address) : result (DarkPool B * list PoolEvent) Str :=
  require! onlyOwner env p, "OwnableUnauthorizedAccount";
  require! negb (bool_decide (recipient = address_0)), "zero address";
  let c := settings p in
  Ok (with_settings p (mkSettings (operators c) (allowedTokens c) (ivcVerifier c) (ivcEnabled c) recipient
        (minSize c) (minPrice c) (positionLimit c) (operatorPubkey c) (operatorPubkeyEffectiveAt c)), []).

Definition setIvcVerifier env p (ivcVerifier_ : Address) : result (DarkPool B * list PoolEvent) Str :=
  require! onlyOwner env p, "OwnableUnauthorizedAccount";
  require! negb (bool_decide (ivcVerifier_ = address_0)), "zero ivc verifier";
  require! 0 <? code_length env ivcVerifier_, "ivc verifier has no code";
  let c := settings p in
  Ok (with_settings p (mkSettings (operators c) (allowedTokens c) ivcVerifier_ (ivcEnabled c) (feeRecipient c)
        (minSize c) (minPrice c) (positionLimit c) (operatorPubkey c) (operatorPubkeyEffectiveAt c)), []).

Definition setIvcEnabled env p (enabled : bool) : result (DarkPool B * list PoolEvent) Str :=
  require! onlyOwner env p, "OwnableUnauthorizedAccount";
  let c := settings p in
  Ok (with_settings p (mkSettings (operators c) (allowedTokens c) (ivcVerifier c) enabled (feeRecipient c)
        (minSize c) (minPrice c) (positionLimit c) (operatorPubkey c) (operatorPubkeyEffectiveAt c)), [EvIvcEnabledSet enabled]).

Definition setOperatorPubkey env p (newPubkey : bytes) (effectiveAt : Z) : result (DarkPool B * list PoolEvent) Str :=
  require! onlyOwner env p, "OwnableUnauthorizedAccount";
  let? u := valid_pubkey newPubkey in
  let c := settings p in
  Ok (with_settings p (mkSettings (operators c) (allowedTokens c) (ivcVerifier c) (ivcEnabled c) (feeRecipient c)
        (minSize c) (minPrice c) (positionLimit c) newPubkey effectiveAt),
      [EvOperatorPubkeyUpdated (operatorPubkey c) newPubkey effectiveAt]).

Definition pause env p : result (DarkPool B * list PoolEvent) Str :=
  require! onlyOwner env p, "OwnableUnauthorizedAccount";
  let? b := oz_pause (dp_base p) in
  Ok (with_base p b, []).

Definition unpause env p : result (DarkPool B * list PoolEvent) Str :=
  require! onlyOwner env p, "OwnableUnauthorizedAccount";
  let? b := oz_unpause (dp_base p) in
  Ok (with_base p b, []).

(** ** Views *)

Definition view_settledBatch env p (batchId : Z) : bool := flag (settledBatch (sessions p)) (batchKey env batchId).
Definition view_settledAuction env p (auctionId : Z) : bool := flag (settledAuction (sessions p)) (auctionKey env auctionId).
Definition view_sessionSubmitted env p (sessionId : Z) : bool := flag (sessionSubmitted (sessions p)) (sessionKey env sessionId).
Definition view_auctionToSession env p (auctionId : Z) : Z := amount (auctionToSession (sessions p)) (auctionKey env auctionId).
Definition view_sessionSettlementAcc env p (sessionId : Z) : Z := amount (sessionSettlementAcc (sessions p)) (sessionKey env sessionId).
Definition view_sessionSettled env p (sessionId : Z) : bool := flag (sessionSettled (sessions p)) (sessionKey env sessionId).

(** ** All calls that do not call a token *)

Inductive Call :=
| CReserve (token : Address) (value : Z)
| CRequestUnreserve (token : Address) (value : Z)
| CReleaseUnreserve (token : Address)
| CSubmitBatch (batchId auctionId : Z) (proof : bytes) (publicInputs : list Z) (ms : list SolMatch)
| CSubmitSession (sessionId : Z) (proof : bytes) (z0 zN : list Z) (nSteps policyHash : Z)
| CSettleAuction (sessionId auctionId : Z) (ms : list SolMatch)
| CSetTokenAllowed (token : Address) (allowed : bool)
| CAddOperator (op : Address)
| CRemoveOperator (op : Address)
| CSetPolicy (minSize_ minPrice_ positionLimit_ : Z)
| CSetFeeRecipient (recipient : Address)
| CSetIvcVerifier (ivcVerifier_ : Address)
| CSetIvcEnabled (enabled : bool)
| CSetOperatorPubkey (newPubkey : bytes) (effectiveAt : Z)
| CPause
| CUnpause
| CTransferOwnership (newOwner : Address)
| CAcceptOwnership
| CRenounceOwnership.

Definition call env p (c : Call) : result (DarkPool B * list PoolEvent) Str :=
  match c with
  | CReserve token value => reserve env p token value
  | CRequestUnreserve token value => requestUnreserve env p token value
  | CReleaseUnreserve token => releaseUnreserve env p token
  | CSubmitBatch b a proof inputs ms => submitBatch env p b a proof inputs ms
  | CSubmitSession s proof z0 zN n h => submitSession env p s proof z0 zN n h
  | CSettleAuction s a ms => settleAuction env p s a ms
  | CSetTokenAllowed token allowed => setTokenAllowed env p token allowed
  | CAddOperator op => addOperator env p op
  | CRemoveOperator op => removeOperator env p op
  | CSetPolicy a b c => setPolicy env p a b c
  | CSetFeeRecipient r => setFeeRecipient env p r
  | CSetIvcVerifier v => setIvcVerifier env p v
  | CSetIvcEnabled b => setIvcEnabled env p b
  | CSetOperatorPubkey k t => setOperatorPubkey env p k t
  | CPause => pause env p
  | CUnpause => unpause env p
  | CTransferOwnership a =>
    require! onlyOwner env p, "OwnableUnauthorizedAccount";
    Ok (with_base p (oz_transferOwnership (dp_base p) a), [])
  | CAcceptOwnership => let? b := oz_acceptOwnership (dp_base p) (msg_sender env) in Ok (with_base p b, [])
  | CRenounceOwnership =>
    require! onlyOwner env p, "OwnableUnauthorizedAccount";
    Ok (with_base p (oz_renounceOwnership (dp_base p)), [])
  end.
End pool.
