(* ===== verification/VerifierProxy.v ===== *)
(** * Contracts: the verifier proxy and the deployment

    [contracts/src/VerifierProxy.sol], [contracts/src/HyperNovaDeciderVerifier.sol]
    and [contracts/script/Deploy.s.sol].  The proxy is a state machine whose
    steps are its external functions; the deployment is the sequence of calls
    the script broadcasts, with the environment variables, the addresses the
    chain assigns and the key file as arguments. *)

From S2P Require Import Prelude Decimal Types Field Prime Poly Groth16 Groth16Facts Evm PoseidonConstants PoseidonBN254 Groth16Verifier DarkPool.
Open Scope Z_scope.

(** ** The proxy *)

Record VerifierProxy (B : Type) := mkVerifierProxy {
  vp_base : B;
  vp_verifier : Address;
  vp_ivcVerifier : Address
}.
Arguments mkVerifierProxy {B}.
Arguments vp_base {B}.
Arguments vp_verifier {B}.
Arguments vp_ivcVerifier {B}.

Inductive ProxyEvent :=
| EvVerifierUpdated (oldVerifier newVerifier : Address)
| EvIvcVerifierUpdated (oldVerifier newVerifier : Address).

Section proxy.
Context {B : Type} `{BASE : !BaseOps B}.
Implicit Types (p : VerifierProxy B) (env : CallEnv).

Definition proxy_onlyOwner env p : bool := bool_decide (msg_sender env = oz_owner (vp_base p)).

(** [_setVerifier] *)
Definition proxy_set env p (newVerifier old : Address) : result (VerifierProxy B * list ProxyEvent) Str :=
  require! negb (bool_decide (newVerifier = address_0)), "zero verifier";
  require! negb (bool_decide (newVerifier = this env)), "self verifier";
  require! 0 <? code_length env newVerifier, "verifier has no code";
  Ok (mkVerifierProxy (vp_base p) newVerifier (vp_ivcVerifier p), [EvVerifierUpdated old newVerifier]).

Definition proxy_new env (initialVerifier initialOwner : Address) : result (VerifierProxy B * list ProxyEvent) Str :=
  require! negb (bool_decide (initialOwner = address_0)), "OwnableInvalidOwner";
  proxy_set env (mkVerifierProxy (oz_new initialOwner) address_0 address_0) initialVerifier address_0.

Definition proxy_setVerifier env p (newVerifier : Address) : result (VerifierProxy B * list ProxyEvent) Str :=
  require! proxy_onlyOwner env p, "OwnableUnauthorizedAccount";
  let old := vp_verifier p in
  require! negb (bool_decide (newVerifier = old)), "same verifier";
  proxy_set env p newVerifier old.

Definition proxy_setIvcVerifier env p (newIvcVerifier : Address) : result (VerifierProxy B * list ProxyEvent) Str :=
  require! proxy_onlyOwner env p, "OwnableUnauthorizedAccount";
  require! negb (bool_decide (newIvcVerifier = address_0)), "zero verifier";
  require! negb (bool_decide (newIvcVerifier = this env)), "self verifier";
  require! 0 <? code_length env newIvcVerifier, "verifier has no code";
  let old := vp_ivcVerifier p in
  Ok (mkVerifierProxy (vp_base p) (vp_verifier p) newIvcVerifier, [EvIvcVerifierUpdated old newIvcVerifier]).

Definition proxy_verifyIvcProof env p (proof : bytes) (z0 zN : list Z) (nSteps : Z) : result bool Str :=
  require! negb (bool_decide (vp_ivcVerifier p = address_0)), "ivc verifier not set";
  DarkPool.verifyIvcProof env (vp_ivcVerifier p) proof z0 zN nSteps.

Definition proxy_verifyProof env p (proof : Groth16Proof) (input : list Z) : result bool Str :=
  DarkPool.verifyProof env (vp_verifier p) proof input.

(** [backend] is the batch function of the contract at an address. *)
Definition proxy_verifyProofBatch (backend : Address -> list Word2 -> list Word22 -> list Word2 -> list (list Z) -> result bool Str) p
    (aArr : list Word2) (bArr : list Word22) (cArr : list Word2) (inputs : list (list Z)) : result bool Str :=
  backend (vp_verifier p) aArr bArr cArr inputs.

(** Inherited from [Ownable2Step]. *)
Definition proxy_transferOwnership env p (newOwner : Address) : result (VerifierProxy B * list ProxyEvent) Str :=
  require! proxy_onlyOwner env p, "OwnableUnauthorizedAccount";
  Ok (mkVerifierProxy (oz_transferOwnership (vp_base p) newOwner) (vp_verifier p) (vp_ivcVerifier p), []).

Definition proxy_acceptOwnership env p : result (VerifierProxy B * list ProxyEvent) Str :=
  let? b := oz_acceptOwnership (vp_base p) (msg_sender env) in
  Ok (mkVerifierProxy b (vp_verifier p) (vp_ivcVerifier p), []).

Definition proxy_renounceOwnership env p : result (VerifierProxy B * list ProxyEvent) Str :=
  require! proxy_onlyOwner env p, "OwnableUnauthorizedAccount";
  Ok (mkVerifierProxy (oz_renounceOwnership (vp_base p)) (vp_verifier p) (vp_ivcVerifier p), []).

Inductive ProxyCall :=
| PSetVerifier (newVerifier : Address)
| PSetIvcVerifier (newIvcVerifier : Address)
| PTransferOwnership (newOwner : Address)
| PAcceptOwnership
| PRenounceOwnership.

Definition proxy_call env p (c : ProxyCall) : result (VerifierProxy B * list ProxyEvent) Str :=
  match c with
  | PSetVerifier a => proxy_setVerifier env p a
  | PSetIvcVerifier a => proxy_setIvcVerifier env p a
  | PTransferOwnership a => proxy_transferOwnership env p a
  | PAcceptOwnership => proxy_acceptOwnership env p
  | PRenounceOwnership => proxy_renounceOwnership env p
  end.

(** A proxy at [self] after its construction and any calls. *)
Inductive proxy_reachable (self : Address) : VerifierProxy B -> Prop :=
| proxy_created env v o p evs : this env = self -> proxy_new env v o = Ok (p, evs) -> proxy_reachable self p
| proxy_called env p c p' evs : proxy_reachable self p -> this env = self -> proxy_call env p c = Ok (p', evs) -> proxy_reachable self p'.
End proxy.

(** ** The stub decider *)

Definition hypernova_verifyIvcProof (proof : bytes) (z0 zN : list Z) (nSteps : Z) : result bool Str := Ok true.

(** ** The deployment *)

(** What the script reads, and the addresses of the contracts it creates. *)
Record DeployEnv := mkDeployEnv {
  de_chainid : Z;
  de_timestamp : Z;
  FEE_RECIPIENT : Address;
  OPERATOR_PUBKEY : bytes;
  de_deployer : Address;
  VERIFIER_GOVERNOR : option Address;
  DARKPOOL_OWNER : option Address;
  IVC_VERIFIER_ADDRESS : option Address;
  BASE_TOKEN : option Address;
  QUOTE_TOKEN : option Address;
  de_vk : Word2 * Word22 * Word22 * Word22 * list Word2;
  at_verifier : Address;
  at_proxy : Address;
  at_pool : Address;
  at_stub : Address;
  de_code : Address -> Z;
  de_codehash : Address -> Z;
  stub_codehash : Z
}.

Definition _isDevTestChain (chainId : Z) : bool := (chainId =? 31337) || (chainId =? 1337) || (chainId =? 11155111).

Record Deployment (B : Type) := mkDeployment {
  dd_verifier : Groth16Verifier;
  dd_proxy : VerifierProxy B;
  dd_pool : DarkPool B;
  dd_ivcImpl : Address
}.
Arguments mkDeployment {B}.
Arguments dd_verifier {B}.
Arguments dd_proxy {B}.
Arguments dd_pool {B}.
Arguments dd_ivcImpl {B}.

Section deploy.
Context {B : Type} `{BASE : !BaseOps B, KEC : !Keccak}.

(** A call by the deployer to the contract at [at_]. *)
Definition deployer_call (de : DeployEnv) (at_ : Address) : CallEnv :=
  mkCallEnv (de_deployer de) (de_timestamp de) (de_chainid de) at_ (de_code de) (fun _ => Err []) (fun _ _ _ => Err []) (fun _ _ _ _ _ => Err []).

Definition pool_only {E} (r : result (DarkPool B * list E) Str) : result (DarkPool B) Str := let? x := r in Ok x.1.
Definition proxy_only {E} (r : result (VerifierProxy B * list E) Str) : result (VerifierProxy B) Str := let? x := r in Ok x.1.

(** The checks before anything is broadcast; they return the decider to wire. *)
Definition deploy_checks (de : DeployEnv) : result (option Address) Str :=
  let k := OPERATOR_PUBKEY de in
  require! (length k =? 33)%nat || (length k =? 65)%nat, "OPERATOR_PUBKEY_HEX must be 33 (compressed) or 65 (uncompressed) bytes";
  let pubkeyTag := nth 0 k 0 in
  require! (length k =? 33)%nat && ((pubkeyTag =? 2) || (pubkeyTag =? 3)) || (length k =? 65)%nat && (pubkeyTag =? 4),
    "OPERATOR_PUBKEY_HEX SEC1 tag does not match length";
  let dev := _isDevTestChain (de_chainid de) in
  require! dev || bool_decide (is_Some (VERIFIER_GOVERNOR de)), "VERIFIER_GOVERNOR must be set on non-dev/test chains";
  require! dev || bool_decide (is_Some (DARKPOOL_OWNER de)), "DARKPOOL_OWNER must be set on non-dev/test chains";
  if dev then Ok None
  else
    let real := default address_0 (IVC_VERIFIER_ADDRESS de) in
    require! negb (bool_decide (real = address_0)),
      "IVC_VERIFIER_ADDRESS required off the dev/test allowlist; the stub decider must never settle real funds";
    require! 0 <? de_code de real, "IVC_VERIFIER_ADDRESS has no code";
    require! negb (de_codehash de real =? stub_codehash de), "IVC_VERIFIER_ADDRESS must not be the all-accepting stub decider";
    Ok (Some real).

Definition allow_token (de : DeployEnv) (pool : DarkPool B) (token : option Address) : result (DarkPool B) Str :=
  match token with
  | Some t => pool_only (setTokenAllowed (deployer_call de (at_pool de)) pool t true)
  | None => Ok pool
  end.

(** [transferOwnership] of the pool, when it goes to another address. *)
Definition hand_over (b : B) (from to : Address) : B := if bool_decide (to = from) then b else oz_transferOwnership b to.

Definition deploy_run (de : DeployEnv) : result (Deployment B) Str :=
  let? real := deploy_checks de in
  let governor := default (de_deployer de) (VERIFIER_GOVERNOR de) in
  let darkPoolOwner := default (de_deployer de) (DARKPOOL_OWNER de) in
  let '(alpha1, beta2, gamma2, delta2, ic) := de_vk de in
  let? verifier := new_verifier alpha1 beta2 gamma2 delta2 ic in
  let to_proxy := deployer_call de (at_proxy de) in
  let to_pool := deployer_call de (at_pool de) in
  let? proxy := proxy_only (proxy_new to_proxy (at_verifier de) (de_deployer de)) in
  let? pool := pool_only (constructor to_pool (at_proxy de) (FEE_RECIPIENT de) (OPERATOR_PUBKEY de)) in
  let? pool := allow_token de pool (BASE_TOKEN de) in
  let? pool := allow_token de pool (QUOTE_TOKEN de) in
  let ivcImpl := match real with Some a => a | None => at_stub de end in
  let? proxy := proxy_only (proxy_setIvcVerifier to_proxy proxy ivcImpl) in
  let? pool := pool_only (setIvcVerifier to_pool pool (at_proxy de)) in
  let? pool := (if _isDevTestChain (de_chainid de) then pool_only (setIvcEnabled to_pool pool true) else Ok pool) in
  let proxy := mkVerifierProxy (hand_over (vp_base proxy) (de_deployer de) governor) (vp_verifier proxy) (vp_ivcVerifier proxy) in
  let pool := with_base pool (hand_over (dp_base pool) (de_deployer de) darkPoolOwner) in
  Ok (mkDeployment verifier proxy pool ivcImpl).
End deploy.

(** ** The pointers of the proxy *)

Section proxy_facts.
Context {B : Type} `{BASE : !BaseOps B, LAWS : !BaseLaws B}.
Implicit Types (p : VerifierProxy B) (env : CallEnv).

Definition pointers_ok (self : Address) p : Prop :=
  vp_verifier p <> address_0 /\ vp_verifier p <> self /\ vp_ivcVerifier p <> self.

Lemma proxy_set_Ok env p a old p' evs : proxy_set env p a old = Ok (p', evs) ->
  a <> address_0 /\ a <> this env /\ 0 < code_length env a /\ p' = mkVerifierProxy (vp_base p) a (vp_ivcVerifier p).
Proof.
  unfold proxy_set. intros (H1%negb_true_iff%bool_decide_eq_false & (H2%negb_true_iff%bool_decide_eq_false & (H3%Z.ltb_lt & [= <- _])%require_Ok)%require_Ok)%require_Ok. done.
Qed.

(** A call moves a pointer only for the owner, and only to code. *)
Lemma proxy_call_spec env p c p' evs : proxy_call env p c = Ok (p', evs) ->
  (vp_verifier p' = vp_verifier p \/ msg_sender env = oz_owner (vp_base p) /\ vp_verifier p' <> address_0 /\
     vp_verifier p' <> this env /\ 0 < code_length env (vp_verifier p')) /\
  (vp_ivcVerifier p' = vp_ivcVerifier p \/ msg_sender env = oz_owner (vp_base p) /\ vp_ivcVerifier p' <> address_0 /\
     vp_ivcVerifier p' <> this env /\ 0 < code_length env (vp_ivcVerifier p')) /\
  (oz_owner (vp_base p') = oz_owner (vp_base p) \/ c = PAcceptOwnership /\ oz_owner (vp_base p') = msg_sender env \/
   c = PRenounceOwnership /\ msg_sender env = oz_owner (vp_base p) /\ oz_owner (vp_base p') = address_0).
Proof.
  destruct c; cbn [proxy_call].
  - unfold proxy_setVerifier. intros (Ho%bool_decide_eq_true & (_ & (H1 & H2 & H3 & ->)%proxy_set_Ok)%require_Ok)%require_Ok. cbn. naive_solver.
  - unfold proxy_setIvcVerifier. intros (Ho%bool_decide_eq_true & (H1%negb_true_iff%bool_decide_eq_false & (H2%negb_true_iff%bool_decide_eq_false &
      (H3%Z.ltb_lt & [= <- _])%require_Ok)%require_Ok)%require_Ok)%require_Ok. cbn. naive_solver.
  - unfold proxy_transferOwnership. intros (_ & [= <- _])%require_Ok. cbn. pose proof (oz_transfer_frame (vp_base p) newOwner). naive_solver.
  - unfold proxy_acceptOwnership. destruct (oz_acceptOwnership _ _) as [b|] eqn:Hb; [|done]. intros [= <- _]. cbn.
    apply oz_accept_frame in Hb as (_ & _ & ->). naive_solver.
  - unfold proxy_renounceOwnership. intros (Ho%bool_decide_eq_true & [= <- _])%require_Ok. cbn. pose proof (oz_renounce_frame (vp_base p)). naive_solver.
Qed.

(** The proxy always routes somewhere.  In every reachable state the
    verifier is set and is not the proxy itself, nor is the decider; a call
    changes a pointer only for the current owner and only to an address with
    code; ownership moves only to an account that accepts it, or is given up by
    the owner. *)
Theorem proxy_guarded self p : self <> address_0 -> proxy_reachable self p ->
  pointers_ok self p /\ forall env c p' evs, this env = self -> proxy_call env p c = Ok (p', evs) ->
    ((vp_verifier p', vp_ivcVerifier p') <> (vp_verifier p, vp_ivcVerifier p) -> msg_sender env = oz_owner (vp_base p)) /\
    (vp_verifier p' <> vp_verifier p -> 0 < code_length env (vp_verifier p')) /\
    (oz_owner (vp_base p') <> oz_owner (vp_base p) -> c = PAcceptOwnership /\ oz_owner (vp_base p') = msg_sender env \/
      c = PRenounceOwnership /\ msg_sender env = oz_owner (vp_base p) /\ oz_owner (vp_base p') = address_0).
Proof.
  intros Hself Hr. split.
  - induction Hr as [env v o p evs Ht Hn|env p c p' evs _ (I1 & I2 & I3) Ht Hc].
    + unfold proxy_new in Hn. apply require_Ok in Hn as [_ Hn]. apply proxy_set_Ok in Hn as (H1 & H2 & _ & ->). rewrite Ht in H2. by split_and!.
    + destruct (proxy_call_spec env p c p' evs Hc) as (Hv & Hi & _). rewrite Ht in *. unfold pointers_ok.
      destruct Hv as [->|(_ & ? & ? & _)], Hi as [->|(_ & ? & ? & _)]; done.
  - intros env c p' evs Ht Hc. destruct (proxy_call_spec env p c p' evs Hc) as (Hv & Hi & Ho). split_and!.
    + intros Hne. destruct Hv as [Hv|[]]; [|done]. destruct Hi as [Hi|[]]; [|done]. congruence.
    + intros Hne. destruct Hv as [|(_ & _ & _ & ?)]; done.
    + intros Hne. by destruct Ho as [|Ho].
Qed.
End proxy_facts.

(** ** Who owns a contract *)

Section ownership.
Context {B T : Type} `{BASE : !BaseOps B, BLAWS : !BaseLaws B, TOK : !TokenOps T, KEC : !Keccak, POS : !Poseidon5}.
Implicit Types (env : CallEnv) (pool : DarkPool B) (proxy : VerifierProxy B).

Definition same_owners (b b' : B) : Prop := oz_owner b' = oz_owner b /\ oz_pendingOwner b' = oz_pendingOwner b.

(** A call of the pool: one that reaches no token, or a half of one that does. *)
Definition pool_stepped env pool pool' : Prop :=
  (exists c evs, DarkPool.call env pool c = Ok (pool', evs)) \/
  (exists (tokens : T) token value before, deposit_begin env pool tokens token value = Ok (pool', before)) \/
  (exists (tokens : T) token before evs, deposit_end env pool tokens token before = Ok (pool', evs)) \/
  (exists token value, withdraw_begin env pool token value = Ok pool') \/
  (exists token value, pool' = fst (withdraw_end env pool token value)).

(** Calls by accounts other than the owner and the one it named. *)
Definition outsider (b : B) env : Prop := msg_sender env <> oz_owner b /\ msg_sender env <> oz_pendingOwner b.

Definition pool_by_others pool pool' : Prop := exists env, outsider (dp_base pool) env /\ pool_stepped env pool pool'.

Definition proxy_by_others proxy proxy' : Prop :=
  exists env c evs, outsider (vp_base proxy) env /\ proxy_call env proxy c = Ok (proxy', evs).

Lemma onlyOwner_outsider env pool : outsider (dp_base pool) env -> onlyOwner env pool = false.
Proof. intros [Ho _]. by apply bool_decide_eq_false. Qed.

Lemma enter_owners (b b' : B) : oz_enter b = Ok b' -> same_owners b b'.
Proof. intros H. destruct (oz_enter_entered _ _ H) as (_ & ? & _). split; [done|]. apply (proj2 (oz_pending_guard b)). by left. Qed.

Lemma leave_owners (b : B) : same_owners b (oz_leave b).
Proof. destruct (oz_leave_entered b) as (_ & ? & _). split; [done|]. apply (proj1 (oz_pending_guard b)). Qed.

Lemma accept_outsider (b b' : B) env : outsider b env -> oz_acceptOwnership b (msg_sender env) <> Ok b'.
Proof. intros [_ Ho] H. apply Ho. symmetry. apply oz_accept_iff. by exists b'. Qed.

Lemma call_by_other env pool c pool' evs :
  outsider (dp_base pool) env -> DarkPool.call env pool c = Ok (pool', evs) -> same_owners (dp_base pool) (dp_base pool').
Proof.
  intros Hout. destruct c; cbn [DarkPool.call]; intros Hc.
  1-6: unfold reserve, requestUnreserve, releaseUnreserve, submitBatch, submitSession, settleAuction in Hc; cbv zeta in Hc.
  18: { destruct (oz_acceptOwnership _ _) eqn:Ha; [by eapply accept_outsider in Ha|done]. }
  7-18: unfold setTokenAllowed, addOperator, removeOperator, setPolicy, setFeeRecipient, setIvcVerifier, setIvcEnabled, setOperatorPubkey, pause, unpause in Hc;
    by rewrite (onlyOwner_outsider env pool Hout) in Hc.
  all: peel Hc; injection Hc as <- _; done.
Qed.

Lemma pool_step_by_other pool pool' : pool_by_others pool pool' -> same_owners (dp_base pool) (dp_base pool').
Proof.
  intros (env & Hout & [(c & evs & H)|[(tk & token & v & before & H)|[(tk & token & before & evs & H)|[(token & v & H)|(token & v & ->)]]]]).
  - by eapply call_by_other.
  - unfold deposit_begin in H. apply let_result_Ok in H as (b & Hb & H). do 3 apply require_Ok in H as [_ H]. injection H as <- _. by apply enter_owners.
  - unfold deposit_end in H. apply let_result_Ok in H as (r & _ & H). apply require_Ok in H as [_ H]. apply let_result_Ok in H as (x & _ & H).
    injection H as <- _. apply leave_owners.
  - unfold withdraw_begin in H. apply let_result_Ok in H as (b & Hb & H). do 2 apply require_Ok in H as [_ H]. cbv zeta in H. apply require_Ok in H as [_ H].
    apply let_result_Ok in H as (x & _ & H). injection H as <-. by apply enter_owners.
  - apply leave_owners.
Qed.

Lemma proxy_step_by_other proxy proxy' : proxy_by_others proxy proxy' -> same_owners (vp_base proxy) (vp_base proxy').
Proof.
  intros (env & c & evs & Hout & H). assert (proxy_onlyOwner env proxy = false) as Hno by (apply bool_decide_eq_false, Hout). destruct c; cbn [proxy_call] in H.
  4: { unfold proxy_acceptOwnership in H. destruct (oz_acceptOwnership _ _) eqn:Ha; [by eapply accept_outsider in Ha|done]. }
  all: unfold proxy_setVerifier, proxy_setIvcVerifier, proxy_transferOwnership, proxy_renounceOwnership in H; by rewrite Hno in H.
Qed.

Lemma owners_kept {A} (R : A -> A -> Prop) (base : A -> B) : (forall x y, R x y -> same_owners (base x) (base y)) ->
  forall x y, rtc R x y -> same_owners (base x) (base y).
Proof. intros HR x y. induction 1 as [|x y z Hxy _ IH]; [done|]. destruct (HR _ _ Hxy), IH. split; congruence. Qed.

(** A contract that [from] owns and has offered to [to]. *)
Definition offered (b : B) (from to : Address) : Prop :=
  oz_owner b = from /\ oz_pendingOwner b = if bool_decide (to = from) then address_0 else to.

Lemma hand_over_offered (b : B) from to : oz_owner b = from -> oz_pendingOwner b = address_0 -> offered (hand_over b from to) from to.
Proof.
  intros Ho Hp. unfold hand_over, offered. case_bool_decide; [done|]. split; [|apply oz_pending_transfer]. by rewrite (proj2 (proj2 (oz_transfer_frame b to))).
Qed.
End ownership.

(** ** A deployment *)

Section deploy_facts.
Context {B T : Type} `{BASE : !BaseOps B, BLAWS : !BaseLaws B, TOK : !TokenOps T, KEC : !Keccak, POS : !Poseidon5}.

Lemma allow_token_frame (de : DeployEnv) (pool pool' : DarkPool B) token : allow_token de pool token = Ok pool' ->
  dp_base pool' = dp_base pool /\ dp_verifier pool' = dp_verifier pool /\ ivcEnabled (settings pool') = ivcEnabled (settings pool).
Proof.
  unfold allow_token, pool_only, setTokenAllowed. destruct token as [t|]; [|by intros [= <-]].
  intros ([? ?] & (_ & (_ & [= <- <-])%require_Ok)%require_Ok & [= <-])%let_result_Ok. done.
Qed.

Lemma deploy_checks_Ok de real : deploy_checks de = Ok real ->
  if _isDevTestChain (de_chainid de) then real = None
  else exists a, real = Some a /\ 0 < de_code de a /\ de_codehash de a <> stub_codehash de /\
    is_Some (VERIFIER_GOVERNOR de) /\ is_Some (DARKPOOL_OWNER de).
Proof.
  unfold deploy_checks. destruct (_isDevTestChain (de_chainid de)).
  - intros (_ & (_ & (_ & (_ & [= <-])%require_Ok)%require_Ok)%require_Ok)%require_Ok. done.
  - cbn [orb]. intros (_ & (_ & (Hg%bool_decide_eq_true & (Ho%bool_decide_eq_true & (_ & (Hc%Z.ltb_lt & (Hh & [= <-])%require_Ok)%require_Ok)%require_Ok)%require_Ok)%require_Ok)%require_Ok)%require_Ok.
    eexists. split; [done|]. split_and!; [done|by apply Z.eqb_neq, negb_true_iff|done..].
Qed.

Lemma accept_exact (b b0 : B) (a : Address) : same_owners b0 b ->
  match oz_acceptOwnership b a with
  | Ok b' => a = oz_pendingOwner b0 /\ oz_owner b' = a
  | Err _ => a <> oz_pendingOwner b0
  end.
Proof.
  intros [_ <-]. destruct (oz_acceptOwnership b a) as [b'|] eqn:Ha.
  - split; [|by apply (oz_accept_frame b a)]. symmetry. apply oz_accept_iff. by exists b'.
  - intros Heq. symmetry in Heq. apply oz_accept_iff in Heq as [b' Hb']. congruence.
Qed.

Lemma accept_pool (pool0 pool : DarkPool B) : rtc (pool_by_others (T:=T)) pool0 pool ->
  same_owners (dp_base pool0) (dp_base pool) /\
  forall env, match DarkPool.call env pool CAcceptOwnership with
              | Ok (pool', _) => msg_sender env = oz_pendingOwner (dp_base pool0) /\ oz_owner (dp_base pool') = msg_sender env
              | Err _ => msg_sender env <> oz_pendingOwner (dp_base pool0)
              end.
Proof.
  intros Hs%(owners_kept _ _ pool_step_by_other). split; [done|]. intros env. cbn [DarkPool.call]. pose proof (accept_exact _ _ (msg_sender env) Hs) as H.
  by destruct (oz_acceptOwnership _ _).
Qed.

Lemma accept_proxy (proxy0 proxy : VerifierProxy B) : rtc proxy_by_others proxy0 proxy ->
  same_owners (vp_base proxy0) (vp_base proxy) /\
  forall env, match proxy_call env proxy PAcceptOwnership with
              | Ok (proxy', _) => msg_sender env = oz_pendingOwner (vp_base proxy0) /\ oz_owner (vp_base proxy') = msg_sender env
              | Err _ => msg_sender env <> oz_pendingOwner (vp_base proxy0)
              end.
Proof.
  intros Hs%(owners_kept _ _ proxy_step_by_other). split; [done|]. intros env. cbn [proxy_call]. unfold proxy_acceptOwnership.
  pose proof (accept_exact _ _ (msg_sender env) Hs) as H. by destruct (oz_acceptOwnership _ _).
Qed.

(** C24: the script keeps the stub off real chains.  When a deployment succeeds,
    the pool verifies through the proxy and the proxy through the fresh
    verifier.  Off the list of development chains the decider behind the proxy
    is code other than the all-accepting stub, sessions are disabled, and a
    governor and an owner were named.  The deployer owns both contracts, and the
    proxy is offered to the governor and the pool to the named owner, unless that
    is the deployer.  Whatever calls other accounts then make, this stays so; the
    account a contract is offered to can accept it at any time and then owns it,
    and no other account can. *)
Theorem deployment_guarded (de : DeployEnv) (d : Deployment B) :
  deploy_run de = Ok d ->
  (dp_verifier (dd_pool d) = at_proxy de /\ ivcVerifier (settings (dd_pool d)) = at_proxy de /\
   vp_verifier (dd_proxy d) = at_verifier de /\ vp_ivcVerifier (dd_proxy d) = dd_ivcImpl d) /\
  (offered (dp_base (dd_pool d)) (de_deployer de) (default (de_deployer de) (DARKPOOL_OWNER de)) /\
   offered (vp_base (dd_proxy d)) (de_deployer de) (default (de_deployer de) (VERIFIER_GOVERNOR de))) /\
  (forall pool, rtc (pool_by_others (T:=T)) (dd_pool d) pool ->
    same_owners (dp_base (dd_pool d)) (dp_base pool) /\
    forall env, match DarkPool.call env pool CAcceptOwnership with
                | Ok (pool', _) => msg_sender env = oz_pendingOwner (dp_base (dd_pool d)) /\ oz_owner (dp_base pool') = msg_sender env
                | Err _ => msg_sender env <> oz_pendingOwner (dp_base (dd_pool d))
                end) /\
  (forall proxy, rtc proxy_by_others (dd_proxy d) proxy ->
    same_owners (vp_base (dd_proxy d)) (vp_base proxy) /\
    forall env, match proxy_call env proxy PAcceptOwnership with
                | Ok (proxy', _) => msg_sender env = oz_pendingOwner (vp_base (dd_proxy d)) /\ oz_owner (vp_base proxy') = msg_sender env
                | Err _ => msg_sender env <> oz_pendingOwner (vp_base (dd_proxy d))
                end) /\
  if _isDevTestChain (de_chainid de) then dd_ivcImpl d = at_stub de /\ ivcEnabled (settings (dd_pool d)) = true
  else de_codehash de (dd_ivcImpl d) <> stub_codehash de /\ 0 < de_code de (dd_ivcImpl d) /\ ivcEnabled (settings (dd_pool d)) = false /\
    is_Some (VERIFIER_GOVERNOR de) /\ is_Some (DARKPOOL_OWNER de).
Proof.
  unfold deploy_run. intros (real & Hreal%deploy_checks_Ok & Hd)%let_result_Ok. destruct (de_vk de) as [[[[al be] ga] dl] ic].
  apply let_result_Ok in Hd as (ver & _ & Hd). apply let_result_Ok in Hd as (px & Hpx & Hd). apply let_result_Ok in Hd as (p0 & Hp0 & Hd).
  apply let_result_Ok in Hd as (p1 & Hp1 & Hd). apply let_result_Ok in Hd as (p2 & Hp2 & Hd). apply let_result_Ok in Hd as (px' & Hpx' & Hd).
  apply let_result_Ok in Hd as (p3 & Hp3 & Hd). apply let_result_Ok in Hd as (p4 & Hp4 & [= <-]).
  apply allow_token_frame in Hp1 as (B1 & V1 & E1). apply allow_token_frame in Hp2 as (B2 & V2 & E2).
  unfold proxy_only, proxy_new in Hpx. apply let_result_Ok in Hpx as ([px0 ev] & Hpx & [= <-]). apply require_Ok in Hpx as [_ Hpx].
  apply proxy_set_Ok in Hpx as (_ & _ & _ & ->). cbn [fst] in *.
  unfold proxy_only, proxy_setIvcVerifier in Hpx'. apply let_result_Ok in Hpx' as ([px1 ev1] & Hpx' & [= <-]).
  do 4 apply require_Ok in Hpx' as [_ Hpx']. injection Hpx' as <- _.
  unfold pool_only, constructor in Hp0. apply let_result_Ok in Hp0 as ([pp ev2] & Hp0 & [= <-]). do 3 apply require_Ok in Hp0 as [_ Hp0].
  apply let_result_Ok in Hp0 as ([] & _ & [= <- _]).
  unfold pool_only, setIvcVerifier in Hp3. apply let_result_Ok in Hp3 as ([pp3 ev3] & Hp3 & [= <-]). do 3 apply require_Ok in Hp3 as [_ Hp3]. injection Hp3 as <- _.
  cbn [fst snd vp_base vp_verifier vp_ivcVerifier dp_base dp_verifier settings ivcEnabled] in *.
  pose proof (oz_new_state (de_deployer de)) as (Hown & _ & _). pose proof (oz_pending_new (de_deployer de)) as Hpend.
  assert (Hp4' : dp_base p4 = dp_base p2 /\ dp_verifier p4 = dp_verifier p2 /\ ivcVerifier (settings p4) = at_proxy de /\
    ivcEnabled (settings p4) = _isDevTestChain (de_chainid de)).
  { destruct (_isDevTestChain (de_chainid de)).
    - unfold pool_only, setIvcEnabled in Hp4. apply let_result_Ok in Hp4 as ([pp4 ev4] & Hp4 & [= <-]). apply require_Ok in Hp4 as [_ Hp4]. by injection Hp4 as <- _.
    - injection Hp4 as <-. cbn. by rewrite E2, E1. }
  destruct Hp4' as (B4 & V4 & I4 & E4).
  cbn [dd_pool dd_proxy dd_ivcImpl with_base dp_base dp_verifier settings vp_base vp_verifier vp_ivcVerifier]. rewrite V4, V2, V1, I4, B4, B2, B1.
  cbn [dp_base dp_verifier deployer_call msg_sender].
  split; [by split_and!|]. split; [split; by apply hand_over_offered|]. split; [apply accept_pool|]. split; [apply accept_proxy|]. rewrite E4.
  destruct (_isDevTestChain (de_chainid de)); [by subst real|]. destruct Hreal as (a & -> & Hc & Hh & Hg & Ho). by split_and!.
Qed.
End deploy_facts.

(** ** The pool behind the proxy *)

Section wired.
Context {F G1 G2 GT ML B : Type} `{!FieldOps F, FLAWS : !FieldLaws F, !GroupOps F G1, !GroupOps F G2, !GroupOps F GT,
  !GroupLaws F G1, !GroupLaws F G2, !GroupLaws F GT, PO : !PairingOps G1 G2 GT ML, PL : !PairingLaws F G1 G2 GT ML,
  PRE : !Precompiles, KEC : !Keccak, POS : !Poseidon5, CW : !CurveWords G1 G2, EIP : !PrecompileLaws F G1 G2 GT ML, BASE : !BaseOps B}.

(** The words of a decoded proof. *)
Definition sol_proof (g : Groth16Proof) : SolProof :=
  let at_ (l : list Z) i := nth i l 0 in
  let b i := nth i (g_b g) [] in
  mkSolProof (at_ (g_a g) 0%nat, at_ (g_a g) 1%nat) (at_ (b 0%nat) 0%nat, at_ (b 0%nat) 1%nat, (at_ (b 1%nat) 0%nat, at_ (b 1%nat) 1%nat))
    (at_ (g_c g) 0%nat, at_ (g_c g) 1%nat).

(** Calls reach the proxy of the pool, and through it the verifier contract. *)
Record wired_to (env : CallEnv) (pool : DarkPool B) (proxy : VerifierProxy B) (v : Groth16Verifier) : Prop := {
  wd_proxy : forall g input, DarkPool.verifyProof env (dp_verifier pool) g input = proxy_verifyProof env proxy g input;
  wd_verifier : forall g input, DarkPool.verifyProof env (vp_verifier proxy) g input = Groth16Verifier.verifyProof v (sol_proof g) input
}.

(** C23: no batch settles without a proof.  When a pool behind the proxy settles
    a batch, the words of its proof are points, and the verifier of the proof
    system accepts them for the public inputs under the key of the deployed
    contract. *)
Theorem settled_batch_proved env (pool : DarkPool B) proxy v (vk : VerifyingKey G1 G2) batchId auctionId proof publicInputs ms r :
  wired_to env pool proxy v -> key_words v vk -> length (IC v) = S (length publicInputs) ->
  submitBatch env pool batchId auctionId proof publicInputs ms = Ok r ->
  in_field publicInputs = true /\ exists pf, reads_as (sol_proof (decodeProof proof)) pf /\
    verify_with_processed_vk (prepare_verifying_key (PO:=PO) vk) (map fr_of_Z publicInputs) pf = Ok true.
Proof.
  intros [Hp Hv] Hk Hl. unfold submitBatch. intros Hs. do 10 apply require_Ok in Hs as [_ Hs].
  apply let_result_Ok in Hs as (valid & Hver & Hs). apply require_Ok in Hs as [Hvalid _]. subst valid.
  rewrite Hp in Hver. unfold proxy_verifyProof in Hver. rewrite Hv in Hver. by apply (verifyProof_accepts (F:=F) v vk).
Qed.
End wired.
