(* ===== verification/PoolFunds.v ===== *)
(** * Contracts: the effect of settlement on the escrow

    What [settleMatch] and a batch of matches do to the accounts: the exact
    amounts every account pays and receives, when a batch succeeds, and that the
    stored amounts stay words with pending releases covered by reserves. *)

From S2P Require Import Prelude Decimal Types Field Evm PoseidonConstants PoseidonBN254 DarkPool.
Open Scope Z_scope.

(** ** Funds *)

(** What the contract owes in one token. *)
Definition owed (t : Address) (x : Escrow) : Z := total_of t (balances x) + total_of t (reserved x).

Lemma owed_balance t x k v : owed t (set_balance x k v) = owed t x + (if decide (k.2 = t) then v - amount (balances x) k else 0).
Proof. unfold owed. simpl. rewrite total_of_insert. case_decide; lia. Qed.

Lemma owed_reserved t x k v : owed t (set_reserved x k v) = owed t x + (if decide (k.2 = t) then v - amount (reserved x) k else 0).
Proof. unfold owed. simpl. rewrite total_of_insert. case_decide; lia. Qed.

Lemma credit_owed t x k v x' : credit x k v = Ok x' -> owed t x' = owed t x + (if decide (k.2 = t) then v else 0).
Proof.
  unfold credit. intros (b & [-> _]%add_u256_Ok & [= <-])%let_result_Ok. rewrite owed_balance. case_decide; lia.
Qed.

(** The result of spending reserved funds. *)
Lemma consumeReserved_spec x a t v x' :
  consumeReserved x a t v = Ok x' ->
  v <= amount (reserved x) (a, t) /\ balances x' = balances x /\
  reserved x' = <[(a, t) := amount (reserved x) (a, t) - v]> (reserved x) /\
  (forall k, k <> (a, t) -> amount (pendingUnreserve x') k = amount (pendingUnreserve x) k /\ amount (unreserveReadyAt x') k = amount (unreserveReadyAt x) k).
Proof.
  unfold consumeReserved. intros (r' & [-> Hle]%sub_u256_Ok & H)%let_result_Ok. split; [done|].
  destruct (_ =? 0); [injection H as <-; by split_and!|].
  apply let_result_Ok in H as (f & _ & H). destruct (_ <? _); [|injection H as <-; by split_and!].
  apply let_result_Ok in H as (ex & _ & H). apply let_result_Ok in H as (np & _ & [= <-]).
  assert (forall k w m, k <> (a, t) -> amount (<[(a, t) := w]> m) k = amount m k) as Hne by (intros; by rewrite amount_insert, decide_False).
  destruct (np =? 0); simpl; (split_and!; [done..|]; intros k Hk; rewrite ?Hne by done; done).
Qed.

Lemma consumeReserved_owed t x a t' v x' : consumeReserved x a t' v = Ok x' -> owed t x' = owed t x - (if decide (t' = t) then v else 0).
Proof.
  intros (_ & Hb & Hr & _)%consumeReserved_spec. unfold owed. rewrite Hb, Hr, total_of_insert. simpl. case_decide; lia.
Qed.

(** A settled match moves funds between accounts. *)
Lemma settleMatch_owed t env fr x m x' : settleMatch env fr x m = Ok x' -> owed t x' = owed t x.
Proof.
  unfold settleMatch, transfer_legs. intros (bd & _ & (qd & _ & (ba & _ & (n & _ & (fs & _ & (ar & [-> _]%sub_u256_Ok & H)%let_result_Ok)%let_result_Ok)%let_result_Ok)%let_result_Ok)%let_result_Ok)%let_result_Ok.
  apply let_result_Ok in H as (x1 & H1%(consumeReserved_owed t) & H). apply let_result_Ok in H as (x2 & H2%(credit_owed t) & H).
  apply let_result_Ok in H as (x3 & H3%(consumeReserved_owed t) & H). apply let_result_Ok in H as (x4 & H4%(credit_owed t) & H5%(credit_owed t)).
  simpl in *. repeat case_decide; lia.
Qed.

Lemma settle_all_owed t env fr x ms x' : fold_checked (settleMatch env fr) x ms = Ok x' -> owed t x' = owed t x.
Proof.
  intros H. refine (fold_checked_invariant (fun y => owed t y = owed t x) _ _ _ _ _ _ H); [|done].
  intros s m s' _ Hs Hm. by rewrite (settleMatch_owed t _ _ _ _ _ Hm).
Qed.

(** ** Well-formed accounts *)

(** Amounts are words, and a pending release is covered by reserved funds. *)
Record account_ok (x : Escrow) (k : account) : Prop := {
  ao_balance : is_u256 (amount (balances x) k);
  ao_reserved : is_u256 (amount (reserved x) k);
  ao_pending : 0 <= amount (pendingUnreserve x) k <= amount (reserved x) k;
  ao_ready : is_u256 (amount (unreserveReadyAt x) k)
}.

Definition escrow_ok (x : Escrow) : Prop := forall k, account_ok x k.

(** Spending reserved funds, on every account. *)
Lemma consumeReserved_exact x a t v x' k :
  escrow_ok x -> 0 <= v -> consumeReserved x a t v = Ok x' ->
  let r := amount (reserved x) k - (if decide ((a, t) = k) then v else 0) in
  v <= amount (reserved x) (a, t) /\ amount (balances x') k = amount (balances x) k /\ amount (reserved x') k = r /\
  amount (pendingUnreserve x') k = Z.min (amount (pendingUnreserve x) k) r /\
  (amount (unreserveReadyAt x') k = amount (unreserveReadyAt x) k \/ amount (pendingUnreserve x') k = 0 /\ amount (unreserveReadyAt x') k = 0).
Proof.
  intros Hok Hv Hc. pose proof (consumeReserved_spec _ _ _ _ _ Hc) as (Hle & Hb & Hr & Hne). cbv zeta.
  rewrite Hb, Hr, amount_insert. split_and!; [done|done| | |].
  - repeat case_decide; simplify_eq; lia.
  - destruct (decide ((a, t) = k)) as [<-|Hk]; [|rewrite (proj1 (Hne k ltac:(congruence))); pose proof (ao_pending _ _ (Hok k)); lia].
    pose proof (ao_pending _ _ (Hok (a, t))) as Hp. revert Hc. unfold consumeReserved. intros (r' & _ & H)%let_result_Ok. simpl in H.
    set (p := amount (pendingUnreserve x) (a, t)) in *. set (r := amount (reserved x) (a, t)) in *.
    destruct (Z.eqb_spec p 0); [injection H as <-; simpl; fold p; lia|]. apply let_result_Ok in H as (f & Hf & H).
    assert (f = r - p) as -> by (destruct (Z.ltb_spec p r); [by apply sub_u256_Ok in Hf as [-> _]|injection Hf as <-; lia]).
    destruct (Z.ltb_spec (r - p) v); [|injection H as <-; simpl; fold p; lia].
    apply let_result_Ok in H as (ex & [-> _]%sub_u256_Ok & H). apply let_result_Ok in H as (np & [-> _]%sub_u256_Ok & [= <-]).
    destruct (_ =? 0); simpl; rewrite amount_insert, decide_True by done; lia.
  - destruct (decide ((a, t) = k)) as [<-|Hk]; [|left; apply Hne; congruence].
    revert Hc. unfold consumeReserved. intros (r' & _ & H)%let_result_Ok. simpl in H.
    destruct (amount (pendingUnreserve x) (a, t) =? 0); [injection H as <-; by left|]. apply let_result_Ok in H as (f & Hf & H).
    destruct (f <? v); [|injection H as <-; by left].
    apply let_result_Ok in H as (ex & _ & H). apply let_result_Ok in H as (np & _ & [= <-]).
    destruct (Z.eqb_spec np 0) as [Hz|Hz]; [right|by left]. simpl. rewrite !amount_insert, !decide_True by done. done.
Qed.

Lemma consumeReserved_ok x a t v x' : escrow_ok x -> 0 <= v -> consumeReserved x a t v = Ok x' -> escrow_ok x'.
Proof.
  intros Hok Hv Hc k. destruct (consumeReserved_exact _ _ _ _ _ k Hok Hv Hc) as (Hle & Hb & Hr & Hp & Hrd).
  destruct (Hok k) as [Hb0 Hr0 Hp0 Hrd0]. unfold is_u256 in *. split; unfold is_u256; rewrite ?Hb, ?Hr, ?Hp; try done.
  - repeat case_decide; simplify_eq; lia.
  - repeat case_decide; simplify_eq; lia.
  - destruct Hrd as [->|[_ ->]]; [done|]. unfold u256_max. lia.
Qed.

(** Enough reserved funds are all it takes. *)
Lemma consumeReserved_total x a t v :
  escrow_ok x -> 0 <= v <= amount (reserved x) (a, t) -> exists x', consumeReserved x a t v = Ok x'.
Proof.
  intros Hok [Hv Hle]. pose proof (ao_pending _ _ (Hok (a, t))) as Hp. unfold consumeReserved. simpl.
  assert (forall u w, w <= u -> sub_u256 u w = Ok (u - w)) as Hsub by (intros; by apply sub_u256_Ok).
  rewrite Hsub by done. simpl. set (p := amount (pendingUnreserve x) (a, t)) in *. set (r := amount (reserved x) (a, t)) in *.
  destruct (p =? 0); [by eauto|].
  replace (if p <? r then sub_u256 r p else Ok 0) with (Ok (E:=Str) (r - p)) by (destruct (Z.ltb_spec p r); [by rewrite Hsub by lia|do 2 f_equal; lia]).
  destruct (Z.ltb_spec (r - p) v); [|by eauto]. rewrite !Hsub by lia. eauto.
Qed.

Lemma credit_exact x k0 v x' k :
  credit x k0 v = Ok x' ->
  amount (balances x') k = amount (balances x) k + (if decide (k0 = k) then v else 0) /\
  reserved x' = reserved x /\ pendingUnreserve x' = pendingUnreserve x /\ unreserveReadyAt x' = unreserveReadyAt x.
Proof.
  unfold credit. intros (b & [-> _]%add_u256_Ok & [= <-])%let_result_Ok. simpl. rewrite amount_insert.
  split_and!; try done. repeat case_decide; simplify_eq; lia.
Qed.

Lemma credit_ok x k0 v x' : escrow_ok x -> 0 <= v -> credit x k0 v = Ok x' -> escrow_ok x'.
Proof.
  intros Hok Hv Hc k. pose proof Hc as (Hb & Hr & Hp & Hrd)%(fun H => credit_exact _ _ _ _ k H).
  unfold credit in Hc. apply let_result_Ok in Hc as (b & [-> Hmax]%add_u256_Ok & [= <-]). simpl in *.
  destruct (Hok k) as [Hb0 Hr0 Hp0 Hrd0]. unfold is_u256 in *. split; unfold is_u256; simpl; try done. rewrite Hb. repeat case_decide; simplify_eq; lia.
Qed.

(** ** The amounts of a match *)

(** Calldata and the answers of tokens are words of their types. *)
Definition typed_match (m : SolMatch) : Prop := is_u256 (sol_price m) /\ is_u256 (sol_size m).
Definition typed_env (env : CallEnv) : Prop := is_u256 (block_timestamp env) /\ forall token d, decimals env token = Ok d -> 0 <= d < 256.

(** What a match moves: base units and quote units. *)
Record leg_amounts := mkLegs { base_units : Z; quote_units : Z }.

Definition fee_of (l : leg_amounts) : Z := quote_units l * PROTOCOL_FEE_BPS / BPS_DENOMINATOR.

Definition amounts_of (env : CallEnv) (m : SolMatch) (l : leg_amounts) : Prop :=
  exists bd qd, decimals env (baseToken m) = Ok bd /\ decimals env (quoteToken m) = Ok qd /\
    base_units l = sol_size m * 10 ^ bd / 10 ^ 18 /\ sol_size m * 10 ^ bd <= u256_max /\
    quote_units l = sol_price m * sol_size m / 10 ^ 18 * 10 ^ qd / 10 ^ 18 /\ sol_price m * sol_size m <= u256_max /\
    sol_price m * sol_size m / 10 ^ 18 * 10 ^ qd <= u256_max /\ 10 ^ bd <= u256_max /\ 10 ^ qd <= u256_max /\
    quote_units l * PROTOCOL_FEE_BPS <= u256_max.

(** What an account pays from its reserve, and what it receives. *)
Definition pays (m : SolMatch) (l : leg_amounts) (k : account) : Z :=
  (if decide ((bidTrader m, quoteToken m) = k) then quote_units l else 0) +
  (if decide ((askTrader m, baseToken m) = k) then base_units l else 0).

Definition receives (fr : Address) (m : SolMatch) (l : leg_amounts) (k : account) : Z :=
  (if decide ((bidTrader m, baseToken m) = k) then base_units l else 0) +
  (if decide ((askTrader m, quoteToken m) = k) then quote_units l - fee_of l else 0) +
  (if decide ((fr, quoteToken m) = k) then fee_of l else 0).

Lemma amounts_nonneg env m l : typed_env env -> typed_match m -> amounts_of env m l -> 0 <= base_units l /\ 0 <= fee_of l <= quote_units l.
Proof.
  intros [_ He] [[Hp _] [Hs _]] (bd & qd & Hbd%He & Hqd%He & Hb & _ & Hq & _).
  assert (0 <= quote_units l) as Hq0.
  { rewrite Hq. apply Z.div_pos; [|done]. apply Z.mul_nonneg_nonneg; [apply Z.div_pos; nia|apply Z.pow_nonneg; lia]. }
  split_and!.
  - rewrite Hb. apply Z.div_pos; [|done]. apply Z.mul_nonneg_nonneg; [done|apply Z.pow_nonneg; lia].
  - apply Z.div_pos; unfold PROTOCOL_FEE_BPS, BPS_DENOMINATOR; lia.
  - apply Z.div_le_upper_bound; unfold PROTOCOL_FEE_BPS, BPS_DENOMINATOR; lia.
Qed.

Lemma pays_nonneg env m l k : typed_env env -> typed_match m -> amounts_of env m l -> 0 <= pays m l k.
Proof. intros H1 H2 H3. pose proof (amounts_nonneg _ _ _ H1 H2 H3). unfold pays. repeat case_decide; lia. Qed.

Lemma receives_nonneg env fr m l k : typed_env env -> typed_match m -> amounts_of env m l -> 0 <= receives fr m l k.
Proof. intros H1 H2 H3. pose proof (amounts_nonneg _ _ _ H1 H2 H3). unfold receives. repeat case_decide; lia. Qed.

(** The conversions compute these amounts. *)
Lemma settleMatch_amounts env fr x m x' :
  settleMatch env fr x m = Ok x' <-> exists l, amounts_of env m l /\ transfer_legs fr x m (base_units l) (quote_units l) = Ok x'.
Proof.
  split.
  - unfold settleMatch. intros (bd & Hbd & (qd & Hqd & (ba & Hba & (n & Hn & H)%let_result_Ok)%let_result_Ok)%let_result_Ok)%let_result_Ok.
    exists (mkLegs ba n). split; [|done]. exists bd, qd. split; [done|]. split; [done|]. simpl.
    unfold base_amount in Hba. apply let_result_Ok in Hba as (u & [-> ?]%pow_u256_Ok & Hba). apply let_result_Ok in Hba as (sc & [-> ?]%mul_u256_Ok & [= <-]).
    unfold quote_amount in Hn. apply let_result_Ok in Hn as (g & [-> ?]%mul_u256_Ok & Hn). apply let_result_Ok in Hn as (u & [-> ?]%pow_u256_Ok & Hn).
    apply let_result_Ok in Hn as (sc & [-> ?]%mul_u256_Ok & [= <-]).
    unfold transfer_legs in H. apply let_result_Ok in H as (fs & [_ ?]%mul_u256_Ok & _). by split_and!.
  - intros (l & (bd & qd & Hbd & Hqd & Hb & ? & Hq & ? & ? & ? & ? & ?) & Htr). unfold settleMatch, base_amount, quote_amount.
    rewrite Hbd, Hqd. assert (forall a n, a ^ n <= u256_max -> pow_u256 a n = Ok (a ^ n)) as Hpow by (intros; by apply pow_u256_Ok).
    assert (forall a n, a * n <= u256_max -> mul_u256 a n = Ok (a * n)) as Hmul by (intros; by apply mul_u256_Ok).
    rewrite !Hpow, Hmul by done. simpl. rewrite Hmul by done. simpl. rewrite Hmul by done. simpl. by rewrite <- Hb, <- Hq.
Qed.

(** One match, on every account. *)
Lemma transfer_legs_exact fr x m l x' k :
  escrow_ok x -> 0 <= base_units l -> 0 <= fee_of l <= quote_units l ->
  transfer_legs fr x m (base_units l) (quote_units l) = Ok x' ->
  escrow_ok x' /\ amount (balances x') k = amount (balances x) k + receives fr m l k /\
  amount (reserved x') k = amount (reserved x) k - pays m l k /\
  amount (pendingUnreserve x') k = Z.min (amount (pendingUnreserve x) k) (amount (reserved x') k) /\
  (amount (unreserveReadyAt x') k = amount (unreserveReadyAt x) k \/ amount (pendingUnreserve x') k = 0 /\ amount (unreserveReadyAt x') k = 0).
Proof.
  intros Hok Hb Hf H. unfold transfer_legs in H. apply let_result_Ok in H as (fs & [-> _]%mul_u256_Ok & H). cbv zeta in H. fold (fee_of l) in H.
  apply let_result_Ok in H as (ar & [-> _]%sub_u256_Ok & H). apply let_result_Ok in H as (x1 & H1 & H). apply let_result_Ok in H as (x2 & H2 & H).
  apply let_result_Ok in H as (x3 & H3 & H). apply let_result_Ok in H as (x4 & H4 & H5).
  assert (escrow_ok x1) as Ok1 by (eapply consumeReserved_ok; [exact Hok| |exact H1]; lia).
  assert (escrow_ok x2) as Ok2 by (eapply credit_ok; [exact Ok1| |exact H2]; lia).
  assert (escrow_ok x3) as Ok3 by (eapply consumeReserved_ok; [exact Ok2| |exact H3]; lia).
  assert (escrow_ok x4) as Ok4 by (eapply credit_ok; [exact Ok3| |exact H4]; lia).
  assert (escrow_ok x') as Ok5 by (eapply credit_ok; [exact Ok4| |exact H5]; lia).
  destruct (consumeReserved_exact _ _ _ (quote_units l) _ k Hok ltac:(lia) H1) as (_ & B1 & R1 & P1 & T1).
  destruct (credit_exact _ _ _ _ k H2) as (B2 & R2 & P2 & T2).
  destruct (consumeReserved_exact _ _ _ (base_units l) _ k Ok2 ltac:(lia) H3) as (_ & B3 & R3 & P3 & T3).
  destruct (credit_exact _ _ _ _ k H4) as (B4 & R4 & P4 & T4). destruct (credit_exact _ _ _ _ k H5) as (B5 & R5 & P5 & T5).
  unfold receives, pays. rewrite R5, P5, T5, R4, P4, T4 in *. rewrite R2, P2, T2 in *. split_and!; [done| | | |].
  - rewrite B5, B4, B3, B2, B1. unfold account in *. lia.
  - rewrite R3, R1. unfold account in *. lia.
  - rewrite P3, P1, R3, R1. unfold account in *. repeat case_decide; lia.
  - destruct T3 as [->|T3]; [|by right]. destruct T1 as [->|[T1 ->]]; [by left|]. right. split; [|done].
    rewrite P3, T1. pose proof (ao_pending _ _ (Ok3 k)) as Hp3. pose proof (ao_reserved _ _ (Ok3 k)) as [Hr3 _]. rewrite R3 in Hr3. lia.
Qed.

(** ** A batch of matches *)

Definition total {A} (f : SolMatch -> leg_amounts -> A -> Z) (ms : list SolMatch) (ls : list leg_amounts) (k : A) : Z :=
  zsum (zip_with (fun m l => f m l k) ms ls).

Lemma total_cons {A} f m l ms ls (k : A) : total f (m :: ms) (l :: ls) k = f m l k + total f ms ls k.
Proof. done. Qed.

Lemma settle_all_exact env fr ms x x' :
  typed_env env -> Forall typed_match ms -> escrow_ok x -> fold_checked (settleMatch env fr) x ms = Ok x' ->
  escrow_ok x' /\ exists ls, Forall2 (amounts_of env) ms ls /\ forall k,
    amount (balances x') k = amount (balances x) k + total (receives fr) ms ls k /\
    amount (reserved x') k = amount (reserved x) k - total pays ms ls k /\
    amount (pendingUnreserve x') k = Z.min (amount (pendingUnreserve x) k) (amount (reserved x') k) /\
    (amount (unreserveReadyAt x') k = amount (unreserveReadyAt x) k \/ amount (pendingUnreserve x') k = 0 /\ amount (unreserveReadyAt x') k = 0).
Proof.
  intros Henv Hms. revert x. induction Hms as [|m ms Hm Hms IH]; intros x Hok; simpl.
  { intros [= <-]. split; [done|]. exists []. split; [constructor|]. intros k. unfold total. simpl. pose proof (ao_pending _ _ (Hok k)).
    split_and!; [lia..|by left]. }
  intros (x1 & (l & Hl & Htr)%settleMatch_amounts & Hrest)%let_result_Ok. pose proof (amounts_nonneg _ _ _ Henv Hm Hl) as [Hb Hf].
  pose proof (fun k => transfer_legs_exact fr x m l x1 k Hok Hb Hf Htr) as Hone.
  destruct (IH x1 (proj1 (Hone (fr, fr))) Hrest) as (Hok' & ls & Hls & Hall). split; [done|]. exists (l :: ls). split; [by constructor|].
  intros k. destruct (Hone k) as (_ & B1 & R1 & P1 & T1). destruct (Hall k) as (B2 & R2 & P2 & T2). unfold total in *. simpl.
  assert (amount (reserved x') k <= amount (reserved x1) k) as Hle.
  { rewrite R2. enough (0 <= zsum (zip_with (fun m l => pays m l k) ms ls)) by lia.
    clear -Henv Hms Hls. induction Hls as [|m l ms ls Ha _ IH]; simpl; [lia|]. apply Forall_cons in Hms as [Hm Hms].
    pose proof (pays_nonneg _ _ _ k Henv Hm Ha). specialize (IH Hms). lia. }
  split_and!; [lia|lia|lia|]. destruct T2 as [->|T2]; [|by right]. destruct T1 as [->|[T1 ->]]; [by left|]. right. split; [|done].
  pose proof (ao_pending _ _ (Hok' k)). lia.
Qed.

(** ** When a batch succeeds *)

Lemma credit_total x k v : amount (balances x) k + v <= u256_max -> exists x', credit x k v = Ok x'.
Proof. intros Hle. unfold credit. rewrite (proj2 (add_u256_Ok _ _ _) (conj eq_refl Hle)). eauto. Qed.

Lemma transfer_legs_total fr x m l :
  escrow_ok x -> 0 <= base_units l -> 0 <= fee_of l <= quote_units l -> quote_units l * PROTOCOL_FEE_BPS <= u256_max ->
  (forall k, pays m l k <= amount (reserved x) k) -> (forall k, amount (balances x) k + receives fr m l k <= u256_max) ->
  exists x', transfer_legs fr x m (base_units l) (quote_units l) = Ok x'.
Proof.
  intros Hok Hb Hf Hmul Hpay Hrec. unfold transfer_legs. rewrite (proj2 (mul_u256_Ok _ _ _) (conj eq_refl Hmul)). cbv zeta. fold (fee_of l).
  rewrite (proj2 (sub_u256_Ok (quote_units l) (fee_of l) _) (conj eq_refl (proj2 Hf))).
  destruct (consumeReserved_total x (bidTrader m) (quoteToken m) (quote_units l)) as [x1 H1]; [done| |rewrite H1].
  { specialize (Hpay (bidTrader m, quoteToken m)). unfold pays in Hpay. rewrite decide_True in Hpay by done. case_decide; lia. }
  assert (escrow_ok x1) as Ok1 by (eapply consumeReserved_ok; [exact Hok| |exact H1]; lia).
  assert (0 <= quote_units l) as Hq0 by lia. pose proof (fun k => consumeReserved_exact _ _ _ _ _ k Hok Hq0 H1) as E1.
  destruct (credit_total x1 (bidTrader m, baseToken m) (base_units l)) as [x2 H2]; [|rewrite H2].
  { destruct (E1 (bidTrader m, baseToken m)) as (_ & -> & _). specialize (Hrec (bidTrader m, baseToken m)). unfold receives in Hrec.
    rewrite decide_True in Hrec by done. repeat case_decide; lia. }
  pose proof (fun k => credit_exact _ _ _ _ k H2) as E2.
  assert (escrow_ok x2) as Ok2 by (eapply credit_ok; [exact Ok1| |exact H2]; lia).
  destruct (consumeReserved_total x2 (askTrader m) (baseToken m) (base_units l)) as [x3 H3]; [done| |rewrite H3].
  { destruct (E2 (askTrader m, baseToken m)) as (_ & -> & _). destruct (E1 (askTrader m, baseToken m)) as (_ & _ & -> & _).
    specialize (Hpay (askTrader m, baseToken m)). unfold pays in Hpay. rewrite (decide_True (P:=(askTrader m, baseToken m) = _)) in Hpay by done.
    unfold account in *. repeat case_decide; lia. }
  pose proof (fun k => consumeReserved_exact _ _ _ _ _ k Ok2 Hb H3) as E3.
  destruct (credit_total x3 (askTrader m, quoteToken m) (quote_units l - fee_of l)) as [x4 H4]; [|rewrite H4].
  { destruct (E3 (askTrader m, quoteToken m)) as (_ & -> & _). destruct (E2 (askTrader m, quoteToken m)) as (-> & _).
    destruct (E1 (askTrader m, quoteToken m)) as (_ & -> & _). specialize (Hrec (askTrader m, quoteToken m)). unfold receives in Hrec.
    rewrite (decide_True (P:=(askTrader m, quoteToken m) = _)) in Hrec by done. unfold account in *. repeat case_decide; lia. }
  destruct (credit_exact _ _ _ _ (fr, quoteToken m) H4) as (B4 & _).
  apply credit_total. rewrite B4. destruct (E3 (fr, quoteToken m)) as (_ & -> & _). destruct (E2 (fr, quoteToken m)) as (-> & _).
  destruct (E1 (fr, quoteToken m)) as (_ & -> & _). specialize (Hrec (fr, quoteToken m)). unfold receives in Hrec.
  rewrite (decide_True (P:=(fr, quoteToken m) = _)) in Hrec by done. unfold account in *. repeat case_decide; lia.
Qed.

Lemma total_nonneg (env : CallEnv) f ms ls (k : account) :
  (forall m l, typed_match m -> amounts_of env m l -> 0 <= f m l k) -> Forall typed_match ms -> Forall2 (amounts_of env) ms ls -> 0 <= total f ms ls k.
Proof.
  intros Hf Hms Hls. unfold total. induction Hls as [|m l ms ls Ha _ IH]; simpl; [lia|]. apply Forall_cons in Hms as [Hm Hms].
  pose proof (Hf m l Hm Ha). specialize (IH Hms). lia.
Qed.

Lemma settle_all_total env fr ms ls x :
  typed_env env -> Forall typed_match ms -> escrow_ok x -> Forall2 (amounts_of env) ms ls ->
  (forall k, total pays ms ls k <= amount (reserved x) k) -> (forall k, amount (balances x) k + total (receives fr) ms ls k <= u256_max) ->
  exists x', fold_checked (settleMatch env fr) x ms = Ok x'.
Proof.
  intros Henv Hms Hok Hls. revert x Hok. induction Hls as [|m l ms ls Ha Hls IH]; intros x Hok Hpay Hrec; [by eexists|].
  apply Forall_cons in Hms as [Hm Hms]. pose proof (amounts_nonneg _ _ _ Henv Hm Ha) as [Hb Hf].
  assert (forall k, 0 <= total pays ms ls k) as Hp by (intros; eapply total_nonneg; [|done..]; intros; by eapply pays_nonneg).
  assert (forall k, 0 <= total (receives fr) ms ls k) as Hr by (intros; eapply total_nonneg; [|done..]; intros; by eapply receives_nonneg).
  setoid_rewrite total_cons in Hpay. setoid_rewrite total_cons in Hrec.
  destruct (transfer_legs_total fr x m l) as [x1 H1]; try done.
  { destruct Ha as (? & ? & ?). intuition. }
  { intros k. specialize (Hpay k). specialize (Hp k). lia. }
  { intros k. specialize (Hrec k). specialize (Hr k). lia. }
  cbn [fold_checked]. rewrite (proj2 (settleMatch_amounts env fr x m x1)) by eauto.
  pose proof (fun k => transfer_legs_exact fr x m l x1 k Hok Hb Hf H1) as E. apply IH; [done|apply (E (fr, fr))|..].
  - intros k. destruct (E k) as (_ & _ & -> & _). specialize (Hpay k). lia.
  - intros k. destruct (E k) as (_ & -> & _). specialize (Hrec k). lia.
Qed.
