(* ===== verification/PoolSafety.v ===== *)
(** * Contracts: solvency and escrow

    The settlement contract as a transition system in which a token that is
    called may call back before it returns: [wstep].  Its theorems say that the
    contract always holds what it owes, that settlement moves funds without
    creating or losing any, that a round settles at most once, and that reserved
    funds stay until a delay has passed. *)

From S2P Require Import Prelude Decimal Types Field Evm PoseidonConstants PoseidonBN254 DarkPool PoolFunds.
Open Scope Z_scope.

(** ** The transition system *)

(** A token call in progress. *)
Inductive Frame :=
| FDeposit (env : CallEnv) (token : Address) (balanceBefore : Z)
| FWithdraw (env : CallEnv) (token : Address) (value : Z)
| FWithdrawn (env : CallEnv) (token : Address) (value : Z).

Record World (B T : Type) := mkWorld {
  w_pool : DarkPool B;
  w_tokens : T;
  w_frame : option Frame;
  w_time : Z
}.
Arguments mkWorld {B T}.
Arguments w_pool {B T}.
Arguments w_tokens {B T}.
Arguments w_frame {B T}.
Arguments w_time {B T}.

Section system.
Context {B T : Type} `{BO : !BaseOps B, BL : !BaseLaws B, KE : !Keccak, P5 : !Poseidon5, TO : !TokenOps T} (addr : Address) (chain : Z).
Implicit Types (w : World B T) (p : DarkPool B) (env : CallEnv).

(** A call to this deployment, not before the last one. *)
Definition here w env : Prop := this env = addr /\ block_chainid env = chain /\ w_time w <= block_timestamp env /\ typed_env env.

(** Calldata is decoded to words. *)
Definition typed_call (c : Call) : Prop :=
  match c with
  | CReserve _ v | CRequestUnreserve _ v => is_u256 v
  | CSubmitBatch _ _ _ _ ms | CSettleAuction _ _ ms => Forall typed_match ms
  | _ => True
  end.

(** What the contract holds of a token. *)
Definition held (tokens : T) (t : Address) : Z := balanceOf tokens t addr.

(** The contract approves no one, so a token that follows its standard lowers
    the contract's holdings only when the contract itself sends.  [t] is such a
    token; nothing is asked of the others. *)
Inductive wstep (t : Address) : option Call -> World B T -> World B T -> Prop :=
| ws_call env c w p evs :
    here w env -> typed_call c -> call env (w_pool w) c = Ok (p, evs) ->
    wstep t (Some c) w (mkWorld p (w_tokens w) (w_frame w) (block_timestamp env))
| ws_tokens w tokens :
    held (w_tokens w) t <= held tokens t -> wstep t None w (mkWorld (w_pool w) tokens (w_frame w) (w_time w))
| ws_deposit_begin env w token value p before :
    here w env -> deposit_begin env (w_pool w) (w_tokens w) token value = Ok (p, before) ->
    wstep t None w (mkWorld p (w_tokens w) (Some (FDeposit env token before)) (block_timestamp env))
| ws_deposit_end env w token before p evs :
    w_frame w = Some (FDeposit env token before) -> deposit_end env (w_pool w) (w_tokens w) token before = Ok (p, evs) ->
    wstep t None w (mkWorld p (w_tokens w) None (w_time w))
| ws_withdraw_begin env w token value p :
    here w env -> withdraw_begin env (w_pool w) token value = Ok p ->
    wstep t None w (mkWorld p (w_tokens w) (Some (FWithdraw env token value)) (block_timestamp env))
| ws_withdraw_send env w token value tokens :
    w_frame w = Some (FWithdraw env token value) ->
    held (w_tokens w) t - (if decide (token = t) then value else 0) <= held tokens t ->
    wstep t None w (mkWorld (w_pool w) tokens (Some (FWithdrawn env token value)) (w_time w))
| ws_withdraw_end env w token value :
    w_frame w = Some (FWithdrawn env token value) ->
    wstep t None w (mkWorld (fst (withdraw_end env (w_pool w) token value)) (w_tokens w) None (w_time w)).

(** A run with its calls. *)
Inductive wrun (t : Address) : list Call -> World B T -> World B T -> Prop :=
| wr_nil w : wrun t [] w w
| wr_cons l cs w1 w2 w3 : wstep t l w1 w2 -> wrun t cs w2 w3 -> wrun t (option_list l ++ cs) w1 w3.

(** The function as a whole is a sequence of steps. *)
Lemma deposit_steps t env w token value p tokens evs :
  here w env -> deposit env (w_pool w) (w_tokens w) token value = Ok (p, tokens, evs) ->
  held (w_tokens w) t <= held tokens t ->
  wrun t [] w (mkWorld p tokens None (block_timestamp env)).
Proof.
  intros Hh Hd Hk. unfold deposit in Hd. apply let_result_Ok in Hd as ([p1 before] & H1 & Hd).
  apply let_result_Ok in Hd as (tk & H2 & Hd). apply let_result_Ok in Hd as ([p2 evs2] & H3 & [= <- <- <-]).
  apply (wr_cons t None) with (2 := wr_cons t None [] _ _ _ (ws_tokens t (mkWorld _ _ _ _) tk Hk) (wr_cons t None [] _ _ _
    (ws_deposit_end t env (mkWorld p1 tk (Some (FDeposit env token before)) _) token before p2 evs2 eq_refl H3) (wr_nil t _))).
  by eapply ws_deposit_begin.
Qed.

Lemma withdraw_steps t env w token value p tokens evs :
  here w env -> withdraw env (w_pool w) (w_tokens w) token value = Ok (p, tokens, evs) ->
  held (w_tokens w) t - (if decide (token = t) then value else 0) <= held tokens t ->
  wrun t [] w (mkWorld p tokens None (block_timestamp env)).
Proof.
  intros Hh Hd Hk. unfold withdraw in Hd. apply let_result_Ok in Hd as (p1 & H1 & Hd).
  apply let_result_Ok in Hd as (tk & H2 & [= <- <- <-]).
  apply (wr_cons t None) with (2 := wr_cons t None [] _ _ _ (ws_withdraw_send t env (mkWorld p1 _ (Some (FWithdraw env token value)) _) token value tk eq_refl Hk)
    (wr_cons t None [] _ _ _ (ws_withdraw_end t env (mkWorld p1 tk (Some (FWithdrawn env token value)) _) token value eq_refl) (wr_nil t _))).
  by eapply ws_withdraw_begin.
Qed.

(** ** Solvency *)

(** What a successful call did. *)
Definition did env p (c : Call) p' : Prop :=
  let x := escrow p in
  match c with
  | CReserve token v =>
    let k := (msg_sender env, token) in
    0 < v <= amount (balances x) k /\ amount (reserved x) k + v <= u256_max /\ sessions p' = sessions p /\
    escrow p' = set_reserved (set_balance x k (amount (balances x) k - v)) k (amount (reserved x) k + v)
  | CRequestUnreserve token v =>
    let k := (msg_sender env, token) in
    0 < v /\ amount (pendingUnreserve x) k + v <= amount (reserved x) k /\ block_timestamp env + UNRESERVE_DELAY <= u256_max /\ sessions p' = sessions p /\
    escrow p' = set_readyAt (set_pendingUnreserve x k (amount (pendingUnreserve x) k + v)) k (block_timestamp env + UNRESERVE_DELAY)
  | CReleaseUnreserve token =>
    let k := (msg_sender env, token) in
    let v := Z.min (amount (pendingUnreserve x) k) (amount (reserved x) k) in
    0 < amount (pendingUnreserve x) k /\ amount (unreserveReadyAt x) k <= block_timestamp env /\
    amount (balances x) k + v <= u256_max /\ sessions p' = sessions p /\
    escrow p' = set_readyAt (set_pendingUnreserve (set_balance (set_reserved x k (amount (reserved x) k - v)) k (amount (balances x) k + v)) k 0) k 0
  | CSubmitBatch b a _ inputs ms =>
    flag (settledBatch (sessions p)) (batchKey env b) = false /\ flag (settledAuction (sessions p)) (auctionKey env a) = false /\
    sessions p' = mark_batch (sessions p) (batchKey env b) (auctionKey env a) /\ word inputs 0 = Z.of_nat (length ms) /\
    fold_checked (settleMatch env (feeRecipient (settings p))) x ms = Ok (escrow p')
  | CSubmitSession s _ z0 zN _ h =>
    flag (sessionSubmitted (sessions p)) (sessionKey env s) = false /\ word z0 3 = settlementDomain p /\ h = word zN 2 /\
    sessions p' = mark_session (sessions p) (sessionKey env s) (word zN 3) /\ escrow p' = x
  | CSettleAuction s a ms =>
    flag (sessionSubmitted (sessions p)) (sessionKey env s) = true /\ flag (settledAuction (sessions p)) (auctionKey env a) = false /\
    flag (sessionSettled (sessions p)) (sessionKey env s) = false /\ (0 < length ms <= 32)%nat /\
    settlementChain (settlementDomain p) ms = Ok (amount (sessionSettlementAcc (sessions p)) (sessionKey env s)) /\
    sessions p' = mark_auction (sessions p) (sessionKey env s) (auctionKey env a) s /\
    fold_checked (settleMatch env (feeRecipient (settings p))) x ms = Ok (escrow p')
  | _ => sessions p' = sessions p /\ escrow p' = x
  end.

Lemma reserve_did env p token v p' evs : reserve env p token v = Ok (p', evs) -> did env p (CReserve token v) p' /\ dp_base p' = dp_base p.
Proof.
  unfold reserve. intros [_ [Hv%Z.ltb_lt H]%require_Ok]%require_Ok. cbv zeta in H. apply require_Ok in H as [Hle%Z.leb_le H]. peel H. injection H as <- _.
  apply sub_u256_Ok in Hx as [-> _]. apply add_u256_Ok in Hx0 as [-> Hr]. by split_and!.
Qed.

Lemma request_did env p token v p' evs :
  requestUnreserve env p token v = Ok (p', evs) -> did env p (CRequestUnreserve token v) p' /\ dp_base p' = dp_base p.
Proof.
  unfold requestUnreserve. intros [_ [Hv%Z.ltb_lt H]%require_Ok]%require_Ok. cbv zeta in H. apply let_result_Ok in H as (av & Hav & H).
  apply require_Ok in H as [Hle%Z.leb_le H]. peel H. injection H as <- _. apply add_u256_Ok in Hx as [-> _], Hx0 as [-> Ht].
  cbn [did]. cbv zeta. split_and!; try done. destruct (Z.ltb_spec (amount (pendingUnreserve (escrow p)) (msg_sender env, token)) (amount (reserved (escrow p)) (msg_sender env, token))).
  - apply sub_u256_Ok in Hav as [-> _]. lia.
  - injection Hav as <-. lia.
Qed.

Lemma release_did env p token p' evs :
  releaseUnreserve env p token = Ok (p', evs) -> did env p (CReleaseUnreserve token) p' /\ dp_base p' = dp_base p.
Proof.
  unfold releaseUnreserve. intros [_ H]%require_Ok. cbv zeta in H. apply require_Ok in H as [Hp%Z.ltb_lt H]. apply require_Ok in H as [Ht%Z.leb_le H].
  set (pd := amount (pendingUnreserve _) _) in *. set (r := amount (reserved _) _) in *.
  assert ((if pd <=? r then pd else r) = Z.min pd r) as Hmin by (destruct (Z.leb_spec pd r); lia). rewrite Hmin in H. peel H.
  apply sub_u256_Ok in Hx as [-> _]. unfold credit in Hx0. apply let_result_Ok in Hx0 as (b & [-> Hb]%add_u256_Ok & [= <-]). injection H as <- _. by split_and!.
Qed.

Lemma submitBatch_did env p b a proof inputs ms p' evs :
  submitBatch env p b a proof inputs ms = Ok (p', evs) -> did env p (CSubmitBatch b a proof inputs ms) p' /\ dp_base p' = dp_base p.
Proof.
  unfold submitBatch. intros [_ [_ H]%require_Ok]%require_Ok. cbv zeta in H.
  apply require_Ok in H as [Hb%negb_true_iff H]. apply require_Ok in H as [Ha%negb_true_iff H].
  apply require_Ok in H as [_ H]. apply require_Ok in H as [_ H]. apply require_Ok in H as [Hn%Z.eqb_eq H]. peel H. injection H as <- _. by split_and!.
Qed.

Lemma submitSession_did env p s proof z0 zN n h p' evs :
  submitSession env p s proof z0 zN n h = Ok (p', evs) -> did env p (CSubmitSession s proof z0 zN n h) p' /\ dp_base p' = dp_base p.
Proof.
  unfold submitSession. intros [_ [_ [_ H]%require_Ok]%require_Ok]%require_Ok. cbv zeta in H.
  apply require_Ok in H as [Hs%negb_true_iff H]. apply require_Ok in H as [_ H]. apply let_result_Ok in H as (ok & _ & H).
  apply require_Ok in H as [_ H]. apply require_Ok in H as [Hz%Z.eqb_eq H]. apply require_Ok in H as [Hh%Z.eqb_eq H]. injection H as <- _. by split_and!.
Qed.

Lemma settleAuction_did env p s a ms p' evs :
  settleAuction env p s a ms = Ok (p', evs) -> did env p (CSettleAuction s a ms) p' /\ dp_base p' = dp_base p.
Proof.
  unfold settleAuction. intros [_ [_ [_ H]%require_Ok]%require_Ok]%require_Ok. cbv zeta in H.
  apply require_Ok in H as [Hs H]. apply require_Ok in H as [Ha%negb_true_iff H]. apply require_Ok in H as [Hd%negb_true_iff H].
  apply require_Ok in H as [_ H]. apply require_Ok in H as [[Hn%Z.ltb_lt Hm%Z.leb_le]%andb_true_iff H].
  apply let_result_Ok in H as (ch & Hc & H). apply require_Ok in H as [->%Z.eqb_eq H]. peel H. injection H as <- _.
  unfold MAX_IVC_SETTLE_MATCHES in Hm. cbn [did]. split_and!; (done || lia).
Qed.

(** Every call, and that none changes the guard or the identity of the deployment. *)
Lemma call_did env p c p' evs :
  call env p c = Ok (p', evs) ->
  did env p c p' /\ settlementDomain p' = settlementDomain p /\ oz_entered (dp_base p') = oz_entered (dp_base p).
Proof.
  destruct c; cbn [call]; intros Hc.
  - pose proof Hc as [? ->]%reserve_did. split; [done|]. unfold reserve in Hc. peel Hc. by injection Hc as <- _.
  - pose proof Hc as [? ->]%request_did. split; [done|]. unfold requestUnreserve in Hc. peel Hc. by injection Hc as <- _.
  - pose proof Hc as [? ->]%release_did. split; [done|]. unfold releaseUnreserve in Hc. peel Hc. by injection Hc as <- _.
  - pose proof Hc as [? ->]%submitBatch_did. split; [done|]. unfold submitBatch in Hc. peel Hc. by injection Hc as <- _.
  - pose proof Hc as [? ->]%submitSession_did. split; [done|]. unfold submitSession in Hc. peel Hc. by injection Hc as <- _.
  - pose proof Hc as [? ->]%settleAuction_did. split; [done|]. unfold settleAuction in Hc. peel Hc. by injection Hc as <- _.
  - unfold setTokenAllowed in Hc. peel Hc. by injection Hc as <- _.
  - unfold addOperator in Hc. peel Hc. by injection Hc as <- _.
  - unfold removeOperator in Hc. peel Hc. by injection Hc as <- _.
  - unfold setPolicy in Hc. peel Hc. by injection Hc as <- _.
  - unfold setFeeRecipient in Hc. peel Hc. by injection Hc as <- _.
  - unfold setIvcVerifier in Hc. peel Hc. by injection Hc as <- _.
  - unfold setIvcEnabled in Hc. peel Hc. by injection Hc as <- _.
  - unfold setOperatorPubkey in Hc. peel Hc. by injection Hc as <- _.
  - unfold pause in Hc. peel Hc. injection Hc as <- _. do 2 (split; [done|]). by eapply oz_pause_paused.
  - unfold unpause in Hc. peel Hc. injection Hc as <- _. do 2 (split; [done|]). by eapply oz_unpause_paused.
  - peel Hc. injection Hc as <- _. do 2 (split; [done|]). by eapply oz_transfer_frame.
  - peel Hc. injection Hc as <- _. do 2 (split; [done|]). by eapply oz_accept_frame.
  - peel Hc. injection Hc as <- _. do 2 (split; [done|]). by eapply oz_renounce_frame.
Qed.

Lemma did_owed t env p c p' : did env p c p' -> owed t (escrow p') = owed t (escrow p).
Proof.
  destruct c; cbn [did]; cbv zeta; intros Hd.
  1: { destruct Hd as (_ & _ & _ & ->). rewrite owed_reserved, owed_balance. simpl. case_decide; lia. }
  1: { by destruct Hd as (_ & _ & _ & _ & ->). }
  1: { destruct Hd as (_ & _ & _ & _ & ->). set (v := Z.min _ _). transitivity (owed t (set_balance (set_reserved (escrow p) (msg_sender env, token)
         (amount (reserved (escrow p)) (msg_sender env, token) - v)) (msg_sender env, token) (amount (balances (escrow p)) (msg_sender env, token) + v))); [done|].
       rewrite owed_balance, owed_reserved. simpl. case_decide; lia. }
  1: { destruct Hd as (_ & _ & _ & _ & Hf). by apply (settle_all_owed t) in Hf. }
  1: { by destruct Hd as (_ & _ & _ & _ & ->). }
  1: { destruct Hd as (_ & _ & _ & _ & _ & _ & Hf). by apply (settle_all_owed t) in Hf. }
  all: by destruct Hd as [_ ->].
Qed.

(** The guard and the reserve for a transfer in progress. *)
Definition covered (t : Address) w : Prop :=
  let o := owed t (escrow (w_pool w)) in
  let h := held (w_tokens w) t in
  match w_frame w with
  | None => oz_entered (dp_base (w_pool w)) = false /\ o <= h
  | Some (FDeposit env token before) =>
    oz_entered (dp_base (w_pool w)) = true /\ this env = addr /\ o <= h /\ (token = t -> o <= before)
  | Some (FWithdraw env token value) =>
    oz_entered (dp_base (w_pool w)) = true /\ 0 < value /\ o + (if decide (token = t) then value else 0) <= h
  | Some (FWithdrawn env token value) => oz_entered (dp_base (w_pool w)) = true /\ o <= h
  end.

(** The guard keeps a second deposit or withdrawal out. *)
Lemma entered_frame t w b : covered t w -> oz_enter (dp_base (w_pool w)) = Ok b -> w_frame w = None.
Proof.
  intros Hc He. assert (oz_entered (dp_base (w_pool w)) = false) as Hf by (apply oz_enter_iff; eauto).
  unfold covered in Hc. destruct (w_frame w) as [[]|]; [destruct Hc as [Ht _]; congruence..|done].
Qed.

Lemma covered_owes t w : covered t w -> owed t (escrow (w_pool w)) <= held (w_tokens w) t.
Proof. unfold covered. cbv zeta. destruct (w_frame w) as [[]|]; repeat case_decide; intuition lia. Qed.

Lemma covered_call t env c w p evs :
  covered t w -> call env (w_pool w) c = Ok (p, evs) -> covered t (mkWorld p (w_tokens w) (w_frame w) (block_timestamp env)).
Proof.
  intros Hc (Hd & _ & He)%call_did. apply (did_owed t) in Hd. unfold covered in *. simpl. by rewrite He, Hd.
Qed.

Lemma covered_tokens t w tokens :
  covered t w -> held (w_tokens w) t <= held tokens t -> covered t (mkWorld (w_pool w) tokens (w_frame w) (w_time w)).
Proof. unfold covered. cbv zeta. simpl. destruct (w_frame w) as [[]|]; repeat case_decide; intuition lia. Qed.

Lemma covered_deposit_begin t env w token value p before :
  here w env -> covered t w -> deposit_begin env (w_pool w) (w_tokens w) token value = Ok (p, before) ->
  covered t (mkWorld p (w_tokens w) (Some (FDeposit env token before)) (block_timestamp env)).
Proof.
  intros (Hthis & _) Hc Hd. unfold deposit_begin in Hd. peel Hd. injection Hd as <- <-.
  pose proof (entered_frame t w _ Hc Hx) as Hn. apply oz_enter_entered in Hx as (He & _). unfold covered in *. simpl. rewrite Hn in Hc. destruct Hc as [_ Hc].
  split_and!; [done|done|done|]. intros ->. unfold held in Hc. by rewrite Hthis.
Qed.

Lemma covered_deposit_end t env w token before p evs :
  covered t w -> w_frame w = Some (FDeposit env token before) -> deposit_end env (w_pool w) (w_tokens w) token before = Ok (p, evs) ->
  covered t (mkWorld p (w_tokens w) None (w_time w)).
Proof.
  intros Hc Hf Hd. unfold covered in Hc. rewrite Hf in Hc. destruct Hc as (_ & Hthis & Hle & Hb).
  unfold deposit_end in Hd. peel Hd. injection Hd as <- _. apply sub_u256_Ok in Hx as [-> Hge]. apply (credit_owed t) in Hx0.
  unfold covered. simpl in *. split; [apply oz_leave_entered|]. rewrite Hx0. case_decide as Ht; [|lia].
  subst. specialize (Hb eq_refl). unfold held. rewrite Hthis in *. lia.
Qed.

Lemma covered_withdraw_begin t env w token value p :
  covered t w -> withdraw_begin env (w_pool w) token value = Ok p ->
  covered t (mkWorld p (w_tokens w) (Some (FWithdraw env token value)) (block_timestamp env)).
Proof.
  intros Hc Hd. unfold withdraw_begin in Hd. apply let_result_Ok in Hd as (b & Hb & Hd). apply require_Ok in Hd as [_ Hd].
  apply require_Ok in Hd as [Hv%Z.ltb_lt Hd]. peel Hd. injection Hd as <-. pose proof (entered_frame t w _ Hc Hb) as Hn.
  apply oz_enter_entered in Hb as (He & _). apply sub_u256_Ok in Hx as [-> _]. unfold covered in *. rewrite Hn in Hc. destruct Hc as [_ Hc].
  simpl. split_and!; [done|done|]. rewrite owed_balance. simpl. case_decide; lia.
Qed.

Lemma covered_step t l w w' : covered t w -> wstep t l w w' -> covered t w'.
Proof.
  intros Hc Hs. destruct Hs as [env c w p evs _ _ H|w tokens H|env w token value p before Hh H|env w token before p evs Hf H|env w token value p Hh H
    |env w token value tokens Hf H|env w token value Hf].
  - by eapply covered_call.
  - by apply covered_tokens.
  - by eapply covered_deposit_begin.
  - by eapply covered_deposit_end.
  - by eapply covered_withdraw_begin.
  - unfold covered in *. rewrite Hf in Hc. simpl. destruct Hc as (? & ? & ?). split; [done|]. lia.
  - unfold covered in *. rewrite Hf in Hc. simpl. destruct Hc as (? & ?). split; [apply oz_leave_entered|done].
Qed.

(** A fresh deployment. *)
Definition deployed w : Prop :=
  exists env verifier fee key evs, constructor env verifier fee key = Ok (w_pool w, evs) /\ w_frame w = None.

Lemma deployed_covered t w : deployed w -> 0 <= held (w_tokens w) t -> covered t w.
Proof.
  intros (env & v & f & k & evs & Hc & Hn) Hh. unfold constructor in Hc. peel Hc. injection Hc as Hp _.
  unfold covered. rewrite Hn, <- Hp. simpl. split; [apply oz_new_state|done].
Qed.

(** C17: the contract can always pay.  From deployment on, whatever calls are made
    and whatever a token does when it is called, including calling back, the
    free and reserved balances of all traders in a standard token add up to at
    most what the contract holds of it; other tokens may misbehave. *)
Theorem pool_solvent t cs w w' :
  deployed w -> 0 <= held (w_tokens w) t -> wrun t cs w w' ->
  owed t (escrow (w_pool w')) <= held (w_tokens w') t.
Proof.
  intros Hd Hh Hs. apply covered_owes. pose proof (deployed_covered t w Hd Hh) as Hc. clear Hd Hh.
  induction Hs as [|l cs w1 w2 w3 H12 _ IH]; [done|]. apply IH. by eapply covered_step.
Qed.

(** ** Types of the accounts *)

Lemma did_ok env p c p' : typed_env env -> typed_call c -> escrow_ok (escrow p) -> did env p c p' -> escrow_ok (escrow p').
Proof.
  intros Henv Hc Hok Hd. destruct c; cbn [did typed_call] in *; cbv zeta in Hd.
  1: { destruct Hd as (Hv & Hr & _ & ->). intros k. destruct (Hok k) as [Hb0 Hr0 Hp0 Ht0]. pose proof (Hok (msg_sender env, token)) as [Hb1 Hr1 _ _].
       unfold is_u256 in *. split; simpl; unfold is_u256; rewrite ?amount_insert; repeat case_decide; subst; lia. }
  1: { destruct Hd as (Hv & Hr & Ht & _ & ->). intros k. destruct (Hok k) as [Hb0 Hr0 Hp0 Ht0]. destruct Henv as [[Ht1 _] _].
       unfold is_u256, UNRESERVE_DELAY in *. split; simpl; unfold is_u256; rewrite ?amount_insert; repeat case_decide; subst; lia. }
  1: { destruct Hd as (Hv & _ & Hb & _ & ->). intros k. destruct (Hok k) as [Hb0 Hr0 Hp0 Ht0]. pose proof (Hok (msg_sender env, token)) as [Hb1 Hr1 Hp1 _].
       unfold is_u256, u256_max in *. split; simpl; unfold is_u256, u256_max; rewrite ?amount_insert; repeat case_decide; subst; lia. }
  1: { destruct Hd as (_ & _ & _ & _ & Hf). by eapply settle_all_exact. }
  1: { by destruct Hd as (_ & _ & _ & _ & ->). }
  1: { destruct Hd as (_ & _ & _ & _ & _ & _ & Hf). by eapply settle_all_exact. }
  all: by destruct Hd as [_ ->].
Qed.

Lemma withdraw_begin_escrow env p token value p' :
  withdraw_begin env p token value = Ok p' ->
  0 < value <= amount (balances (escrow p)) (msg_sender env, token) /\ sessions p' = sessions p /\
  escrow p' = set_balance (escrow p) (msg_sender env, token) (amount (balances (escrow p)) (msg_sender env, token) - value).
Proof.
  unfold withdraw_begin. intros (b & _ & H)%let_result_Ok. apply require_Ok in H as [_ H]. apply require_Ok in H as [Hv%Z.ltb_lt H].
  cbv zeta in H. apply require_Ok in H as [Hle%Z.leb_le H]. peel H. injection H as <-. apply sub_u256_Ok in Hx as [-> _]. by split_and!.
Qed.

Lemma deposit_end_escrow env p tokens token before p' evs :
  deposit_end env p tokens token before = Ok (p', evs) ->
  sessions p' = sessions p /\ exists v, 0 < v /\ credit (escrow p) (msg_sender env, token) v = Ok (escrow p').
Proof.
  unfold deposit_end. intros (r & _ & H)%let_result_Ok. apply require_Ok in H as [Hv%Z.ltb_lt H]. peel H. injection H as <- _. eauto.
Qed.

Lemma deposit_begin_escrow env p (tokens : T) token value p' before :
  deposit_begin env p tokens token value = Ok (p', before) -> sessions p' = sessions p /\ escrow p' = escrow p.
Proof. unfold deposit_begin. intros H. peel H. by injection H as <- _. Qed.

Lemma escrow_ok_step t l w w' : escrow_ok (escrow (w_pool w)) -> wstep t l w w' -> escrow_ok (escrow (w_pool w')).
Proof.
  intros Hok Hs. destruct Hs as [env c w p evs (_ & _ & _ & Ht) Hc H|w tokens H|env w token value p before Hh H|env w token before p evs Hf H|env w token value p Hh H
    |env w token value tokens Hf H|env w token value Hf]; simpl; try done.
  - apply call_did in H as (H & _). by eapply did_ok.
  - by apply deposit_begin_escrow in H as [_ ->].
  - apply deposit_end_escrow in H as (_ & v & Hv & H). eapply credit_ok; [exact Hok| |exact H]. lia.
  - apply withdraw_begin_escrow in H as (Hv & _ & ->). intros k. destruct (Hok k) as [Hb0 Hr0 Hp0 Ht0].
    pose proof (Hok (msg_sender env, token)) as [Hb1 _ _ _]. unfold is_u256 in *. split; simpl; unfold is_u256; rewrite ?amount_insert; try done.
    repeat case_decide; subst; lia.
Qed.

Lemma deployed_ok w : deployed w -> escrow_ok (escrow (w_pool w)).
Proof.
  intros (env & v & f & k & evs & Hc & Hn). unfold constructor in Hc. peel Hc. injection Hc as <- _. intros a. split; simpl; unfold is_u256, amount; rewrite !lookup_empty; by vm_compute.
Qed.

Lemma run_ok t cs w w' : escrow_ok (escrow (w_pool w)) -> wrun t cs w w' -> escrow_ok (escrow (w_pool w')).
Proof. intros Hok Hs. induction Hs as [|l cs w1 w2 w3 H12 _ IH]; [done|]. apply IH. by eapply escrow_ok_step. Qed.

(** Every stored amount is a word, and a pending release never exceeds the
    reserve it is to be taken from, in every state a deployment can reach. *)
Theorem accounts_well_typed t cs w w' k :
  deployed w -> wrun t cs w w' -> account_ok (escrow (w_pool w')) k.
Proof. intros Hd Hs. by apply (run_ok t cs w w' (deployed_ok w Hd) Hs). Qed.

(** ** Rounds settle once *)

(** The two calls settle the same round: the same auction, batch or session. *)
Definition same_round (c c' : Call) : Prop :=
  match c, c' with
  | CSubmitBatch b a _ _ _, CSubmitBatch b' a' _ _ _ => b = b' \/ a = a'
  | CSubmitBatch _ a _ _ _, CSettleAuction _ a' _ | CSettleAuction _ a _, CSubmitBatch _ a' _ _ _ => a = a'
  | CSettleAuction s a _, CSettleAuction s' a' _ => s = s' \/ a = a'
  | _, _ => False
  end.

(** Flags are never taken back. *)
Record kept (s s' : Sessions) : Prop := {
  kp_batch : forall k, flag (settledBatch s) k = true -> flag (settledBatch s') k = true;
  kp_auction : forall k, flag (settledAuction s) k = true -> flag (settledAuction s') k = true;
  kp_submitted : forall k, flag (sessionSubmitted s) k = true ->
    flag (sessionSubmitted s') k = true /\ amount (sessionSettlementAcc s') k = amount (sessionSettlementAcc s) k;
  kp_settled : forall k, flag (sessionSettled s) k = true -> flag (sessionSettled s') k = true
}.

Lemma kept_refl s : kept s s.
Proof. by split. Qed.

Lemma kept_trans s1 s2 s3 : kept s1 s2 -> kept s2 s3 -> kept s1 s3.
Proof.
  intros [B1 A1 S1 T1] [B2 A2 S2 T2]. split; auto. intros k Hk. destruct (S1 k Hk) as [H1 <-]. by apply S2.
Qed.

Lemma kept_batch s b a : kept s (mark_batch s b a).
Proof. split; try done; intros k Hk; simpl; rewrite flag_insert; by case_decide. Qed.

Lemma kept_auction s sk ak i : kept s (mark_auction s sk ak i).
Proof. split; try done; intros k Hk; simpl; rewrite flag_insert; by case_decide. Qed.

Lemma kept_session s k v : flag (sessionSubmitted s) k = false -> kept s (mark_session s k v).
Proof.
  intros Hf. split; try done. intros k' Hk. simpl. rewrite flag_insert, amount_insert. case_decide; [subst; congruence|done].
Qed.

Lemma did_kept env p c p' : did env p c p' -> kept (sessions p) (sessions p').
Proof.
  intros Hd. destruct c; cbn [did] in Hd; cbv zeta in Hd.
  1: { destruct Hd as (_ & _ & -> & _). apply kept_refl. }
  1: { destruct Hd as (_ & _ & _ & -> & _). apply kept_refl. }
  1: { destruct Hd as (_ & _ & _ & -> & _). apply kept_refl. }
  1: { destruct Hd as (_ & _ & -> & _). apply kept_batch. }
  1: { destruct Hd as (Hf & _ & _ & -> & _). by apply kept_session. }
  1: { destruct Hd as (_ & _ & _ & _ & _ & -> & _). apply kept_auction. }
  all: destruct Hd as [-> _]; apply kept_refl.
Qed.

Lemma step_kept t l w w' : wstep t l w w' -> kept (sessions (w_pool w)) (sessions (w_pool w')).
Proof.
  intros Hs. destruct Hs as [env c w p evs Hh Hc H|w tokens H|env w token value p before Hh H|env w token before p evs Hf H|env w token value p Hh H
    |env w token value tokens Hf H|env w token value Hf]; simpl; try apply kept_refl.
  - apply call_did in H as (H & _). by eapply did_kept.
  - apply deposit_begin_escrow in H as [-> _]. apply kept_refl.
  - apply deposit_end_escrow in H as [-> _]. apply kept_refl.
  - apply withdraw_begin_escrow in H as (_ & -> & _). apply kept_refl.
Qed.

Lemma run_kept t cs w w' : wrun t cs w w' -> kept (sessions (w_pool w)) (sessions (w_pool w')).
Proof. induction 1 as [|l cs w1 w2 w3 H12 _ IH]; [apply kept_refl|]. eapply kept_trans; [by eapply step_kept|done]. Qed.

(** The keys of this deployment. *)
Lemma here_key w w' env env' ns i : here w env -> here w' env' -> domainId env ns i = domainId env' ns i.
Proof. intros (Ha & Hc & _) (Ha' & Hc' & _). unfold domainId. by rewrite Ha, Hc, Ha', Hc'. Qed.

(** C18: a round settles once.  After a call has settled an auction, by either
    arm, no later call settles the same auction, the same batch or the same
    session again. *)
Theorem round_settles_once t cs w env c p evs w' env' c' :
  here w env -> call env (w_pool w) c = Ok (p, evs) ->
  wrun t cs (mkWorld p (w_tokens w) (w_frame w) (block_timestamp env)) w' ->
  here w' env' -> same_round c c' -> exists err, call env' (w_pool w') c' = Err err.
Proof.
  intros Hh (Hd & _)%call_did [KB KA KS KT]%run_kept Hh' Hsame. simpl in *.
  destruct (call env' (w_pool w') c') as [[p' evs']|err] eqn:Hc'; [exfalso|by eauto]. apply call_did in Hc' as (Hd' & _).
  assert (forall ns i, domainId env' ns i = domainId env ns i) as Hkey by (intros; by eapply here_key).
  assert (forall k, flag (<[k := true]> (settledAuction (sessions (w_pool w)))) k = true) as Hset by (intros; by rewrite flag_insert, decide_True).
  destruct c, c'; cbn [same_round] in Hsame; try done; cbn [did] in Hd, Hd'; unfold batchKey, auctionKey, sessionKey in *; rewrite !Hkey in Hd'.
  - destruct Hd as (_ & _ & Hs & _), Hd' as (Hb' & Ha' & _). rewrite Hs in KB, KA. destruct Hsame as [<-| <-].
    + rewrite KB in Hb'; [done|]. simpl. by rewrite flag_insert, decide_True.
    + rewrite KA in Ha'; [done|]. simpl. by rewrite flag_insert, decide_True.
  - destruct Hd as (_ & _ & Hs & _), Hd' as (_ & Ha' & _). rewrite Hs in KA. subst. rewrite KA in Ha'; [done|]. simpl. by rewrite flag_insert, decide_True.
  - destruct Hd as (_ & _ & _ & _ & _ & Hs & _), Hd' as (_ & Ha' & _). rewrite Hs in KA. subst. rewrite KA in Ha'; [done|]. simpl. by rewrite flag_insert, decide_True.
  - destruct Hd as (_ & _ & _ & _ & _ & Hs & _), Hd' as (_ & Ha' & Ht' & _). rewrite Hs in KT, KA. destruct Hsame as [<-| <-].
    + rewrite KT in Ht'; [done|]. simpl. by rewrite flag_insert, decide_True.
    + rewrite KA in Ha'; [done|]. simpl. by rewrite flag_insert, decide_True.
Qed.

(** ** Reserved funds *)

Definition settles (l : option Call) : bool :=
  match l with Some (CSubmitBatch _ _ _ _ _) | Some (CSettleAuction _ _ _) => true | _ => false end.

Definition reserve_of w (k : account) : Z := amount (reserved (escrow (w_pool w))) k.
Definition pending_of w (k : account) : Z := amount (pendingUnreserve (escrow (w_pool w))) k.

(** A run and what settlement took from an account on the way. *)
Inductive srun (t : Address) (k : account) : Z -> World B T -> World B T -> Prop :=
| sr_nil w : srun t k 0 w w
| sr_cons l n w1 w2 w3 :
    wstep t l w1 w2 -> srun t k n w2 w3 -> srun t k ((if settles l then reserve_of w1 k - reserve_of w2 k else 0) + n) w1 w3.

(** [low] of the reserve cannot be released before [bar]. *)
Definition locked (k : account) (bar low : Z) w : Prop :=
  low <= reserve_of w k /\ (bar <= amount (unreserveReadyAt (escrow (w_pool w))) k \/ low <= reserve_of w k - pending_of w k).

Lemma locked_did k bar low env c w p :
  escrow_ok (escrow (w_pool w)) -> typed_env env -> typed_call c -> did env (w_pool w) c p ->
  bar - UNRESERVE_DELAY <= block_timestamp env < bar -> locked k bar low w ->
  forall tokens frame time, let w' := mkWorld p tokens frame time in
  locked k bar (low - (if settles (Some c) then reserve_of w k - reserve_of w' k else 0)) w'.
Proof.
  intros Hok Henv Hc Hd Ht Hl tokens frame time w'. unfold locked, reserve_of, pending_of in *. subst w'. cbn [w_pool].
  assert (forall ms, Forall typed_match ms -> fold_checked (settleMatch env (feeRecipient (settings (w_pool w)))) (escrow (w_pool w)) ms = Ok (escrow p) ->
    let d := amount (reserved (escrow (w_pool w))) k - amount (reserved (escrow p)) k in
    low - d <= amount (reserved (escrow p)) k /\ (bar <= amount (unreserveReadyAt (escrow p)) k \/
      low - d <= amount (reserved (escrow p)) k - amount (pendingUnreserve (escrow p)) k)) as Hset.
  { intros ms Hms Hf. destruct (settle_all_exact _ _ _ _ _ Henv Hms Hok Hf) as (_ & ls & _ & E). destruct (E k) as (_ & Hr & Hp & Hy). cbv zeta.
    split; [lia|]. destruct Hl as [Hl1 [Hl2|Hl2]]; [|right; lia]. destruct Hy as [->|[-> _]]; [by left|right; lia]. }
  destruct c; cbn [did settles typed_call] in *; cbv zeta in Hd.
  1: { destruct Hd as (Hv & _ & _ & ->). simpl. rewrite !amount_insert. pose proof (Hok k) as [_ _ ? _]. repeat case_decide; subst; destruct Hl as [? [?|?]]; split; (lia || (left; lia) || (right; lia)). }
  1: { destruct Hd as (Hv & Hle & _ & _ & ->). simpl. rewrite !amount_insert. repeat case_decide; subst; destruct Hl as [? [?|?]]; split; (lia || (left; lia) || (right; lia)). }
  1: { destruct Hd as (Hv & Hr & _ & _ & ->). simpl. rewrite !amount_insert. pose proof (Hok k) as [_ _ ? _]. repeat case_decide; subst; destruct Hl as [? [?|?]]; split; (lia || (left; lia) || (right; lia)). }
  1: { apply (Hset ms); [done|apply Hd]. }
  1: { destruct Hd as (_ & _ & _ & _ & ->). by rewrite Z.sub_0_r. }
  1: { apply (Hset ms); [done|apply Hd]. }
  all: destruct Hd as [_ ->]; by rewrite Z.sub_0_r.
Qed.

Lemma step_time t l w w' : wstep t l w w' -> w_time w <= w_time w'.
Proof. destruct 1; simpl; try lia; match goal with Hh : here _ _ |- _ => destruct Hh as (_ & _ & ? & _) end; lia. Qed.

Lemma locked_step t k l bar low w w' :
  escrow_ok (escrow (w_pool w)) -> wstep t l w w' -> bar - UNRESERVE_DELAY <= w_time w -> w_time w' < bar -> locked k bar low w ->
  locked k bar (low - (if settles l then reserve_of w k - reserve_of w' k else 0)) w'.
Proof.
  intros Hok Hs Hb Hlt Hl. destruct Hs as [env c w p evs (_ & _ & Ht & Hty) Hc H|w tokens H|env w token value p before Hh H|env w token before p evs Hf H|env w token value p Hh H
    |env w token value tokens Hf H|env w token value Hf].
  1: { apply call_did in H as (H & _). simpl in Hlt. apply (locked_did k bar low env c w p); try done. lia. }
  all: cbn [settles]; rewrite Z.sub_0_r; unfold locked, reserve_of, pending_of in *; simpl; try done.
  - by apply deposit_begin_escrow in H as [_ ->].
  - apply deposit_end_escrow in H as (_ & v & _ & H). by destruct (credit_exact _ _ _ _ k H) as (_ & -> & -> & ->).
  - by apply withdraw_begin_escrow in H as (_ & _ & ->).
Qed.

Lemma locked_run t k n bar low w w' :
  escrow_ok (escrow (w_pool w)) -> srun t k n w w' -> bar - UNRESERVE_DELAY <= w_time w -> w_time w' < bar -> locked k bar low w ->
  locked k bar (low - n) w'.
Proof.
  intros Hok Hs. revert low Hok. induction Hs as [w|l n w1 w2 w3 H12 H23 IH]; intros low Hok Hb Hlt Hl; [by rewrite Z.sub_0_r|].
  rewrite Z.sub_add_distr. apply IH.
  - by eapply escrow_ok_step.
  - pose proof (step_time _ _ _ _ H12). lia.
  - done.
  - eapply locked_step; try done. clear -H23 Hlt. induction H23 as [|? ? ? ? ? H]; [done|]. pose proof (step_time _ _ _ _ H). specialize (IHsrun Hlt). lia.
Qed.

(** C20: reserved funds are there when a match settles.  Whatever their owner and
    everyone else call, until [UNRESERVE_DELAY] has passed the reserve of an
    account keeps what was not already pending for release, except for what
    settlement itself takes. *)
Theorem reserve_locked t k n w w' :
  escrow_ok (escrow (w_pool w)) -> srun t k n w w' -> w_time w' < w_time w + UNRESERVE_DELAY ->
  reserve_of w k - pending_of w k - n <= reserve_of w' k.
Proof.
  intros Hok Hs Ht. apply (locked_run t k n (w_time w + UNRESERVE_DELAY) (reserve_of w k - pending_of w k) w w'); try done; [lia|].
  split; [|by right]. pose proof (ao_pending _ _ (Hok k)). unfold reserve_of, pending_of. lia.
Qed.

(** C19: settlement moves exactly the amounts of its matches.  When a batch or an
    auction settles, every account's reserve falls by what its legs pay, every
    balance rises by what its legs receive, the proceeds of a sale lose the
    protocol fee to its recipient, and in every token nothing is created or
    lost. *)
Theorem settlement_exact env w c p evs :
  here w env -> typed_call c -> escrow_ok (escrow (w_pool w)) -> settles (Some c) = true -> call env (w_pool w) c = Ok (p, evs) ->
  exists ms ls, match c with CSubmitBatch _ _ _ _ ms' | CSettleAuction _ _ ms' => ms' = ms | _ => False end /\
    Forall2 (amounts_of env) ms ls /\
    (forall k, amount (balances (escrow p)) k = amount (balances (escrow (w_pool w))) k + total (receives (feeRecipient (settings (w_pool w)))) ms ls k /\
      amount (reserved (escrow p)) k = amount (reserved (escrow (w_pool w))) k - total pays ms ls k /\
      0 <= amount (reserved (escrow p)) k) /\
    forall t, owed t (escrow p) = owed t (escrow (w_pool w)).
Proof.
  intros (_ & _ & _ & Henv) Hc Hok Hs (Hd & _)%call_did.
  assert (exists ms, match c with CSubmitBatch _ _ _ _ ms' | CSettleAuction _ _ ms' => ms' = ms | _ => False end /\ Forall typed_match ms /\
    fold_checked (settleMatch env (feeRecipient (settings (w_pool w)))) (escrow (w_pool w)) ms = Ok (escrow p)) as (ms & Hms & Hty & Hf).
  { destruct c; try done; cbn [did typed_call] in *; exists ms; split_and!; try done; apply Hd. }
  destruct (settle_all_exact _ _ _ _ _ Henv Hty Hok Hf) as (Hok' & ls & Hls & E). exists ms, ls. split_and!; try done.
  - intros k. destruct (E k) as (? & ? & _). split_and!; [done|done|]. apply (ao_reserved _ _ (Hok' k)).
  - intros t. by apply (settle_all_owed t) in Hf.
Qed.
End system.
