(* ===== verification/Settlement.v ===== *)
(** * Settlement: from matches to transactions

    [dp-settlement]: the conversion of a match to the words of the contract
    ([helpers.rs]), the submitter with its transactions ([eth_submitter.rs]), the
    reading of balances ([balance_oracle.rs]) and the watcher ([watcher.rs]).
    The RPC providers are parameters: [RpcOps] is a chain that answers queries
    and executes transactions. *)

From S2P Require Import Prelude Decimal Types Field Auction EngineState Evm PoseidonConstants PoseidonBN254 DarkPool Batch.
Open Scope Z_scope.

(** ** Text of numbers

    [Decimal::to_string], [Decimal::from_str] and [U256::from_str_radix] belong
    to libraries; the source uses them on whole numbers only. *)
Class U256Text (D : Type) `{!DecimalOps D} := {
  u256_from_str_radix : Str -> result Z Str;
  dec_from_u256_text : Z -> result D Str
}.

Class U256TextLaws (D : Type) `{!DecimalOps D, !U256Text D} : Prop := {
  u256_of_whole : forall d : D, 0 <= units d -> u256_from_str_radix (dec_to_string (dec_trunc d)) = Ok (units d / 10 ^ 28);
  dec_of_u256 : forall raw, 0 <= raw < 2 ^ 96 -> exists d : D, dec_from_u256_text raw = Ok d /\ units d = raw * 10 ^ 28;
  dec_of_u256_range : forall raw, 2 ^ 96 <= raw -> exists msg, dec_from_u256_text raw = Err msg
}.

Section convert.
Context {D : Type} `{!DecimalOps D, !U256Text D}.

(** ** Conversions *)

Definition uuid_to_bytes32 (id : Uuid) : bytes := replicate 16 0 ++ be_bytes 16 id.

Definition bytes32_to_uuid (b : bytes) : result Uuid SettlementError :=
  if forallb (fun x => x =? 0) (take 16 b) then Ok (be_value (drop 16 b)) else Err InvalidBytes32.

(** The multiplication panics when it overflows. *)
Definition decimal_to_wei (d : D) : outcome (result Z SettlementError) :=
  if dec_is_sign_negative d then Ret (Err NegativeAmount)
  else
    scaled ← or_panic (dec_mul d (dec_of_Z (10 ^ 18)));
    Ret (if negb (dec_eqb scaled (dec_trunc scaled)) then Err PrecisionLoss
         else match u256_from_str_radix (dec_to_string (dec_trunc scaled)) with
              | Ok z => Ok z
              | Err e => Err (SettlementParse e)
              end).

Definition settlement_match_to_sol (m : SettlementMatch D) : outcome (result SolMatch SettlementError) :=
  let! price := decimal_to_wei (sm_price m) in
  let! sz := decimal_to_wei (sm_size m) in
  if negb (price mod WEI_TO_CIRCUIT_SCALE =? 0) || negb (sz mod WEI_TO_CIRCUIT_SCALE =? 0) then Ret (Err SubCircuitPrecision)
  else Ret (Ok (mkSolMatch (be_value (uuid_to_bytes32 (sm_bid_order_id m))) (be_value (uuid_to_bytes32 (sm_ask_order_id m)))
    (sm_bid_trader m) (sm_ask_trader m) (sm_base_token m) (sm_quote_token m) price sz)).

(** [collect] stops at the first error. *)
Fixpoint matches_to_sol (ms : list (SettlementMatch D)) : outcome (result (list SolMatch) SettlementError) :=
  match ms with
  | [] => Ret (Ok [])
  | m :: ms' =>
    let! s := settlement_match_to_sol m in
    let! rest := matches_to_sol ms' in
    Ret (Ok (s :: rest))
  end.

Definition MAX_MATCHES_PER_BATCH : nat := 256.
Definition GROTH16_PROOF_LEN : nat := 256.

Definition validate_groth16_proof_len (proof : bytes) : result unit SettlementError :=
  if negb (length proof =? GROTH16_PROOF_LEN)%nat
  then Err (InvalidProofLength (Z.of_nat GROTH16_PROOF_LEN) (Z.of_nat (length proof))) else Ok tt.

Definition build_sol_matches (ms : list (SettlementMatch D)) : outcome (result (list SolMatch) SettlementError) :=
  if (MAX_MATCHES_PER_BATCH <? length ms)%nat then Ret (Err (TooManyMatches (Z.of_nat (length ms)))) else matches_to_sol ms.

(** ** Balances *)

(** The product of ten with itself, [n] times. *)
Fixpoint ten_power (n : nat) (divisor : D) : option D :=
  match n with
  | O => Some divisor
  | S n' => match dec_mul divisor (dec_of_Z 10) with Some d => ten_power n' d | None => None end
  end.

Definition raw_to_decimal (raw : Z) (decimals : nat) : result D SettlementError :=
  match dec_from_u256_text raw with
  | Err e => Err (SettlementParse (str "reserved exceeds Decimal range: " ++ e))
  | Ok int =>
    match ten_power decimals (dec_of_Z 1) with
    | None => Err (SettlementParse (str "10^decimals overflows Decimal"))
    | Some divisor =>
      match dec_div int divisor with
      | Some d => Ok d
      | None => Err (SettlementParse (str "reserved / 10^decimals overflows Decimal"))
      end
    end
  end.

(** [pool.reserved] of the contract, [None] when the timeout fires. *)
Definition chain_lookup (read_reserved : Address -> Address -> option (result Z Str)) (trader asset : Address) (decimals : nat) :
    result (D * Z) SettlementError :=
  match read_reserved trader asset with
  | None => Err (Rpc (str "balance oracle lookup timed out"))
  | Some (Err e) => Err (Rpc e)
  | Some (Ok raw) => let? balance := raw_to_decimal raw decimals in Ok (balance, 0)
  end.

Definition insecure_dev_lookup (trader asset : Address) (decimals : nat) : result (D * Z) SettlementError :=
  Ok (dec_of_Z 1000000000, 0).
End convert.

(** ** The submitter *)

Record TxRequest := mkTxRequest {
  tx_call : Call;
  tx_from : Address;
  tx_nonce : Z;
  tx_gas : Z;
  tx_max_fee_per_gas : Z;
  tx_max_priority_fee_per_gas : Z;
  tx_chain_id : Z
}.

(** The providers.  [transact] sends a transaction and waits for its receipt:
    whether it succeeded, and its hash.  Every request may find the chain
    changed. *)
Class RpcOps (C : Type) := {
  get_transaction_count : C -> Address -> C * result Z Str;
  get_latest_base_fee : C -> C * result (option (option Z)) Str;
  get_max_priority_fee_per_gas : C -> C * result Z Str;
  transact : C -> TxRequest -> C * result (bool * Z) Str;
  fmt_tx_hash : Z -> Str
}.

Record EthSubmitter := mkEthSubmitter {
  es_sender : Address;
  es_chain_id : Z;
  es_gas_limit : Z
}.

Definition submitter_new (sender : Address) (chain_id : Z) (gas_limit : option Z) : EthSubmitter :=
  mkEthSubmitter sender chain_id (default 500000 gas_limit).

Section submitter.
Context {D C : Type} `{!DecimalOps D, !U256Text D, !RpcOps C}.

(** An RPC whose error ends the submission. *)
Definition rpc {A R} (r : C * result A Str) (k : C -> A -> outcome (C * result R SettlementError)) : outcome (C * result R SettlementError) :=
  match r with
  | (c, Ok a) => k c a
  | (c, Err e) => Ret (c, Err (Rpc e))
  end.

(** Nonce, fee cap and tip; fees are 128-bit and wrap, as in a release build,
    whose profile leaves the overflow checks off. *)
Definition gas_quote {R} (s : EthSubmitter) (c : C) (k : C -> Z -> Z -> Z -> outcome (C * result R SettlementError)) :
    outcome (C * result R SettlementError) :=
  rpc (get_transaction_count c (es_sender s)) (fun c nonce =>
  rpc (get_latest_base_fee c) (fun c block =>
    match block with
    | None => Ret (c, Err (Rpc (str "no latest block")))
    | Some None => Ret (c, Err (Rpc (str "chain does not support EIP-1559")))
    | Some (Some base_fee) =>
      rpc (get_max_priority_fee_per_gas c) (fun c tip => k c nonce ((base_fee * 2 + tip) mod 2 ^ 128) tip)
    end)).

(** Send, wait, and require success. *)
Definition confirmed {R} (c : C) (tx : TxRequest) (k : C -> Z -> outcome (C * result R SettlementError)) : outcome (C * result R SettlementError) :=
  rpc (transact c tx) (fun c receipt =>
    if fst receipt then k c (snd receipt) else Ret (c, Err (Rpc (str "transaction failed")))).

Definition request (s : EthSubmitter) (call : Call) (nonce fee_cap tip : Z) : TxRequest :=
  mkTxRequest call (es_sender s) nonce (es_gas_limit s) fee_cap tip (es_chain_id s).

Definition submit (s : EthSubmitter) (c : C) (batch_id auction_id : Uuid) (proof : bytes) (public_inputs : list Z) (ms : list (SettlementMatch D)) :
    outcome (C * result Str SettlementError) :=
  match validate_groth16_proof_len proof with
  | Err e => Ret (c, Err e)
  | Ok _ =>
    sol ← build_sol_matches ms;
    match sol with
    | Err e => Ret (c, Err e)
    | Ok sol_matches =>
      gas_quote s c (fun c nonce fee_cap tip =>
        confirmed c (request s (CSubmitBatch (be_value (uuid_to_bytes32 batch_id)) (be_value (uuid_to_bytes32 auction_id)) proof public_inputs sol_matches) nonce fee_cap tip)
          (fun c hash => Ret (c, Ok (fmt_tx_hash hash))))
    end
  end.

Definition submit_session (s : EthSubmitter) (c : C) (session_id : Uuid) (proof : bytes) (z_0 z_n : list Z) (n_steps : Z) (policy_hash : bytes)
    (auction_id : Uuid) (ms : list (SettlementMatch D)) : outcome (C * result Str SettlementError) :=
  sol ← matches_to_sol ms;
  match sol with
  | Err e => Ret (c, Err e)
  | Ok sol_matches =>
    if (MAX_MATCHES_PER_BATCH <? length sol_matches)%nat then Ret (c, Err (TooManyMatches (Z.of_nat (length sol_matches))))
    else
      gas_quote s c (fun c nonce_a fee_cap tip =>
        confirmed c (request s (CSubmitSession (be_value (uuid_to_bytes32 session_id)) proof z_0 z_n n_steps (be_value policy_hash)) nonce_a fee_cap tip)
          (fun c _ =>
            if u64_max <? nonce_a + 1 then Ret (c, Err (Rpc (str "operator nonce overflow")))
            else
              confirmed c (request s (CSettleAuction (be_value (uuid_to_bytes32 session_id)) (be_value (uuid_to_bytes32 auction_id)) sol_matches) (nonce_a + 1) fee_cap tip)
                (fun c hash => Ret (c, Ok (fmt_tx_hash hash)))))
  end.

(** What the engine submits goes to one of the two. *)
Definition submit_params_to (s : EthSubmitter) (c : C) (p : SubmitParams D) : outcome (C * result Str SettlementError) :=
  match p with
  | SubmitBatch batch_id auction_id proof public_inputs ms => submit s c batch_id auction_id proof public_inputs ms
  | SubmitSession session_id proof z_0 z_n n_steps policy_hash auction_id ms =>
    submit_session s c session_id proof z_0 z_n n_steps policy_hash auction_id ms
  end.
End submitter.

(** The submitter of deployments without a chain. *)
Definition noop_submit : result Str SettlementError := Ok (str "0x0000000000000000000000000000000000000000000000000000000000000000").

(** ** The watcher *)

Definition MIN_WATCH_BACKOFF : Z := 1.
Definition MAX_WATCH_BACKOFF : Z := 30.
Definition CONSECUTIVE_FAIL_THRESHOLD : Z := 5.

Record WatchState := mkWatchState { ws_backoff : Z; ws_failures : Z }.

Definition watch_start : WatchState := mkWatchState MIN_WATCH_BACKOFF 0.

(** One iteration of the reconnect loop: the delay slept, whether the watcher is
    reported as degraded, and the next state. *)
Definition watch_retry (s : WatchState) (r : result unit SettlementError) : Z * bool * WatchState :=
  let s := match r with
           | Ok _ => mkWatchState MIN_WATCH_BACKOFF 0
           | Err _ => mkWatchState (ws_backoff s) (Z.min (ws_failures s + 1) u32_max)
           end in
  (ws_backoff s, (match r with Ok _ => false | Err _ => CONSECUTIVE_FAIL_THRESHOLD <=? ws_failures s end),
   mkWatchState (Z.min (ws_backoff s * 2) MAX_WATCH_BACKOFF) (ws_failures s)).

(** A log of the subscription: the decoded batch identifier, if it decodes, with
    its block and transaction. *)
Record WatchLog := mkWatchLog { wl_batch_id : option bytes; wl_block_number : option Z; wl_tx_hash : option Str }.

(** What a log passes to the sink. *)
Definition watch_log (l : WatchLog) : option (Uuid * Z * Str) :=
  match wl_batch_id l with
  | None => None
  | Some b =>
    match bytes32_to_uuid b with
    | Err _ => None
    | Ok id => Some (id, default 0 (wl_block_number l), default [] (wl_tx_hash l))
    end
  end.

(** [run_once]: subscribe, then deliver every log until the subscription closes
    or the watcher is cancelled. *)
Definition run_once {S} (sink : S -> Uuid * Z * Str -> S) (s : S) (subscribed : result unit Str) (logs : list WatchLog) (cancelled : bool) :
    S * result unit SettlementError :=
  match subscribed with
  | Err e => (s, Err (Rpc e))
  | Ok _ =>
    (fold_left (fun s l => match watch_log l with Some x => sink s x | None => s end) logs s,
     if cancelled then Ok tt else Err (Rpc (str "subscription closed")))
  end.

(** ** Exactness of the conversions *)

Lemma pow_256_16 : 256 ^ Z.of_nat 16 = 2 ^ 128.
Proof. vm_compute. reflexivity. Qed.

Lemma be_value_zeros n b : be_value (replicate n 0 ++ b) = be_value b.
Proof. induction n as [|n IH]; [done|]. rewrite <- IH. done. Qed.

Lemma uuid_bytes32_value (id : Uuid) : 0 <= id < 2 ^ 128 -> be_value (uuid_to_bytes32 id) = id.
Proof. intros Hid. unfold uuid_to_bytes32. rewrite be_value_zeros. apply be_value_be_bytes. by rewrite pow_256_16. Qed.

Lemma uuid_bytes32_roundtrip (id : Uuid) : 0 <= id < 2 ^ 128 -> bytes32_to_uuid (uuid_to_bytes32 id) = Ok id.
Proof.
  intros Hid. unfold bytes32_to_uuid, uuid_to_bytes32. rewrite take_app_length', drop_app_length' by done. simpl forallb.
  by rewrite (be_value_be_bytes 16) by (by rewrite pow_256_16).
Qed.

Lemma bytes32_uuid_only b id : bytes32_to_uuid b = Ok id -> length b = 32%nat -> Forall is_byte b -> uuid_to_bytes32 id = b.
Proof.
  unfold bytes32_to_uuid. destruct (forallb _ _) eqn:Hz; [|done]. intros [= <-] Hl Hb. unfold uuid_to_bytes32.
  rewrite <- (take_drop 16 b) at 2. f_equal.
  - apply list_eq_same_length with 16%nat; [rewrite length_take; lia|by rewrite length_replicate|].
    intros i x y Hi Hx Hy. apply lookup_replicate_1 in Hx as [-> _]. rewrite forallb_forall in Hz.
    specialize (Hz y). rewrite Z.eqb_eq in Hz. symmetry. apply Hz, list_elem_of_In, list_elem_of_lookup. eauto.
  - rewrite <- (be_bytes_be_value (drop 16 b)) at 2 by (by apply Forall_drop). by rewrite length_drop, Hl.
Qed.

Section exact.
Context {D F : Type} `{!DecimalOps D, DL : !DecimalLaws D, !FieldOps F, FL : !FieldLaws F, !U256Text D, UL : !U256TextLaws D}.

(** An encodable amount in wei is its scalar, scaled. *)
Lemma decimal_to_wei_encodable (d : D) (f : F) :
  decimal_to_scalar d = Ok f -> decimal_to_wei d = Ret (Ok (fr_to_Z f * WEI_TO_CIRCUIT_SCALE)).
Proof.
  intros Hd. pose proof (decimal_to_scalar_cases (F:=F) d) as Hc. rewrite Hd in Hc. destruct Hc as (Hdp & [H0 Hmax] & Hu).
  unfold decimal_to_wei. assert (dec_is_sign_negative d = false) as ->.
  { unfold decimal_to_scalar in Hd. by destruct (dec_is_sign_negative d). }
  destruct (dec_mul_exact d (dec_of_Z (10 ^ 18)) (fr_to_Z f * 10 ^ 10 * 10 ^ 28)) as (c & -> & Hcu).
  { apply representable_int. unfold MAX_UNITS, ULP in *. pose proof (fr_to_Z_range f). lia. }
  { rewrite units_of_Z by lia. rewrite Hu. unfold ULP. lia. }
  cbn [or_panic mbind outcome_bind]. assert (dec_eqb c (dec_trunc c) = true) as ->.
  { apply dec_eqb_spec. rewrite dec_trunc_units, Hcu, Z.quot_mul by done. done. }
  cbn [negb]. pose proof (fr_to_Z_range f). rewrite u256_of_whole by lia. by rewrite Hcu, Z.div_mul.
Qed.
End exact.
