(* ===== verification/EndToEnd.v ===== *)
(** * From the auction to the chain

    The components together: the matches of a tick become the rows of the step
    circuit ([Provable]), the circuit accepts them ([CircuitFacts]), the aggregator
    folds them and finalizes a proof ([Folding]), the submitter converts the same
    matches to words ([Settlement]), and the contract recomputes the chain of the
    proof and moves the funds ([DarkPool]). *)

From S2P Require Import Prelude Decimal Types Field Auction Events Book Merkle EngineState Engine Admission Witness Tick Batch Machine.
From S2P Require Import Rounds Provable Prime Circuit CircuitFacts Folding Evm PoseidonConstants PoseidonBN254 DarkPool PoolFunds.
From S2P Require Import Settlement.
Open Scope Z_scope.

(** ** What the circuit asks of a match beyond what the engine ensures *)

Section funded.
Context {D F St : Type} `{!DecimalOps D, !DecimalLaws D, !FieldOps F, !FieldLaws F, !Poseidon F, !StoreOps D St, !StoreLaws D St,
  SHA : !Sha256, HEX : !HexOps, HEXL : !HexLaws, ADDR : !AddressOps} {HI : HashIter}.
Implicit Types (e : Engine D St) (p : PendingAggregation D) (mt : Match D).

Definition POSITION_LIMIT : Z := 2 ^ 58.

(** A size in units of [10^-8]. *)
Definition lots (d : D) : Z := units d / ULP.

(** The buyer holds the quote, the seller the base, and both positions stay
    within the limit. *)
Definition match_funded (secrets : gmap Uuid (OrderSecrets D)) mt : Prop :=
  forall bsec asec, secrets !! fill_order_id (match_bid_fill mt) = Some bsec -> secrets !! fill_order_id (match_ask_fill mt) = Some asec ->
    units (match_price mt) * units (match_size mt) <= units (s_balance bsec) * 10 ^ 28 /\
    units (match_size mt) <= units (s_balance asec) /\
    Z.abs (s_position bsec + lots (match_size mt)) <= POSITION_LIMIT /\
    Z.abs (s_position asec - lots (match_size mt)) <= POSITION_LIMIT.

Lemma lots_mul (d : D) z : units d = z * ULP -> lots d = z.
Proof. intros Hd. unfold lots. rewrite Hd. apply Z.div_mul. unfold ULP. lia. Qed.

Lemma ulp_le a b : a * ULP <= b * ULP <-> a <= b.
Proof. unfold ULP. lia. Qed.

(** A position within the limit does not wrap. *)
Lemma within_small l x : 0 <= l < 2 ^ 100 -> Z.abs x < 2 ^ 100 -> within l x <-> Z.abs x <= l.
Proof.
  intros Hl Hx. pose proof FR_bounds as [HF _]. assert (Hp : 2 ^ 130 = 2 ^ 100 * 2 ^ 30) by reflexivity.
  assert (Hq : 4 < 2 ^ 30) by reflexivity. split.
  - intros (n & Hn & Hm). apply Z.cong_iff_0, Z.mod_divide in Hm as [c Hc]; [|lia]. assert (c = 0) by nia. lia.
  - intros Ha. exists x. split; [lia|done].
Qed.

Lemma funds_units (P S B : Z) :
  P * ULP * (S * ULP) <= B * ULP * 10 ^ 28 <-> P * S <= B * SCALE_FACTOR_I128.
Proof.
  replace (P * ULP * (S * ULP)) with (P * S * (ULP * ULP)) by lia.
  replace (B * ULP * 10 ^ 28) with (B * SCALE_FACTOR_I128 * (ULP * ULP)) by (unfold SCALE_FACTOR_I128, ULP; lia).
  symmetry. apply Z.mul_le_mono_pos_r. reflexivity.
Qed.

(** The funding of a match in the units of its row. *)
Lemma match_funded_row (secrets : gmap Uuid (OrderSecrets D)) mt row bsec asec :
  secrets !! fill_order_id (match_bid_fill mt) = Some bsec -> secrets !! fill_order_id (match_ask_fill mt) = Some asec ->
  units (match_price mt) = fr_to_Z (c_match_price row) * ULP -> units (match_size mt) = fr_to_Z (c_match_size row) * ULP ->
  units (s_balance bsec) = fr_to_Z (c_bid_balance row) * ULP -> units (s_balance asec) = fr_to_Z (c_ask_balance row) * ULP ->
  fr_to_Z (c_match_size row) < MAX_ENCODED -> Z.abs (s_position bsec) < MAX_ENCODED -> Z.abs (s_position asec) < MAX_ENCODED ->
  fr_to_Z (c_bid_position row) = s_position bsec mod FR -> fr_to_Z (c_ask_position row) = s_position asec mod FR ->
  match_funded secrets mt <->
  fr_to_Z (c_match_price row) * fr_to_Z (c_match_size row) <= fr_to_Z (c_bid_balance row) * SCALE_FACTOR_I128 /\
  fr_to_Z (c_match_size row) <= fr_to_Z (c_ask_balance row) /\
  within POSITION_LIMIT (fr_to_Z (c_bid_position row) + fr_to_Z (c_match_size row)) /\
  within POSITION_LIMIT (fr_to_Z (c_ask_position row) - fr_to_Z (c_match_size row)).
Proof.
  intros Hb Ha Hp Hs Hbb Hab Hsb Hpb Hpa Hbq Haq. pose proof (fr_to_Z_range (c_match_size row)).
  rewrite <- (within_mod _ (fr_to_Z (c_bid_position row) + _)), <- (within_mod _ (fr_to_Z (c_ask_position row) - _)).
  rewrite Hbq, Haq, Zplus_mod_idemp_l, Zminus_mod_idemp_l, !within_mod.
  assert (Hm : MAX_ENCODED < 2 ^ 99) by reflexivity. assert (2 ^ 100 = 2 * 2 ^ 99) by reflexivity.
  rewrite !within_small by (unfold POSITION_LIMIT; lia). unfold match_funded. split.
  - intros Hf. destruct (Hf bsec asec Hb Ha) as (F1 & F2 & F3 & F4). rewrite (lots_mul _ _ Hs) in F3, F4.
    rewrite Hp, Hs, Hbb in F1. rewrite Hs, Hab in F2. rewrite funds_units in F1. rewrite ulp_le in F2. by split_and!.
  - intros (F1 & F2 & F3 & F4) bsec' asec' Hb' Ha'. rewrite Hb in Hb'. rewrite Ha in Ha'. simplify_eq.
    rewrite (lots_mul _ _ Hs), Hp, Hs, Hbb, Hab, funds_units, ulp_le. by split_and!.
Qed.

(** A row of a fair match satisfies every constraint but those on funds and
    positions, which hold exactly when the match is funded. *)
Lemma row_funded e p ext mt row :
  inputs_of e p ext -> map_Forall (fun _ sec => Z.abs (s_position sec) < MAX_ENCODED) (e_secrets e) ->
  fair_match p mt -> encodable (match_price mt) -> encodable (match_size mt) ->
  units (match_price mt) = fr_to_Z (ai_clearing_price ext) * ULP ->
  row_of (e_secrets e) (pa_orders p) mt row ->
  root_from_proof (leaf_of row true) (c_bid_path row) = ai_admitted_root ext ->
  root_from_proof (leaf_of row false) (c_ask_path row) = ai_admitted_root ext ->
  row_ok ext row <-> match_funded (e_secrets e) mt.
Proof.
  intros Hio Hpos Hfair [_ [Hp0 _]] [_ [Hs0 _]] Hcp Hrow Hbm Ham.
  destruct Hrow as [Hact [Hpr Hprb] [Hsz Hszb] (bo & bsec & Hbo & Hbs & Hbsec & Hbl) (ao & asec & Hao & Has & Hasec & Hal)].
  destruct Hfair as (bo' & ao' & Hbo' & Hao' & Hcross & Hbf & Haf). rewrite Hbo in Hbo'. rewrite Hao in Hao'. simplify_eq.
  destruct (io_policy _ _ _ Hio) as (Hms & Hmp & Hlim).
  destruct Hbl as [Bs [Bp Bpb] [Bz Bzb] [Bb Bbb] Bq Bi _ _]. destruct Hal as [As [Ap Apb] [Az Azb] [Ab Abb] Aq Ai _ _].
  rewrite Hbs in Bs. rewrite Has in As. pose proof (Hpos _ _ Hbsec) as Pb. pose proof (Hpos _ _ Hasec) as Pa. simpl in Pb, Pa.
  rewrite (match_funded_row _ mt row bsec asec) by done. pose proof ULP_pos.
  assert (Hb : row_bounded row).
  { split; try done; [rewrite Bs; by left|rewrite As; by right]. }
  rewrite Hcp in Hpr at 1. assert (Huni : c_match_price row = ai_clearing_price ext) by (apply fr_to_Z_inj; nia).
  rewrite Hcp, <- Huni in Hcross, Hp0. rewrite Ap, Bp, !ulp_le in Hcross. rewrite Hsz, Bz, ulp_le in Hbf. rewrite Hsz, Az, ulp_le in Haf.
  rewrite Hsz in Hs0. assert (0 < fr_to_Z (c_match_price row)) by nia. assert (0 < fr_to_Z (c_match_size row)) by nia. split.
  - intros [_ [Hz|[_ Ht]]]; [rewrite Hact in Hz; symmetry in Hz; apply fr_eqb_spec in Hz; by rewrite fr_zero_neq_one in Hz|].
    destruct Ht. unfold POSITION_LIMIT. by rewrite <- Hlim.
  - intros (F1 & F2 & F3 & F4). split; [done|]. right. split; [done|]. unfold POSITION_LIMIT in F3, F4. rewrite <- Hlim in F3, F4.
    split; try done; try lia. by left.
Qed.

Lemma Forall2_iff {A B} (R : A -> B -> Prop) (P : A -> Prop) (Q : B -> Prop) l1 l2 :
  Forall2 R l1 l2 -> (forall x y, x ∈ l1 -> R x y -> P x <-> Q y) -> Forall P l1 <-> Forall Q l2.
Proof.
  induction 1 as [|x y l1 l2 Hxy _ IH]; intros Hpq; [split; constructor|].
  rewrite !Forall_cons, (Hpq x y), IH; [done|intros; apply Hpq; [by right|done]|by left|done].
Qed.

(** The state of a chain under the engine's policy. *)
Definition policy_hash : F := poseidon [fr_of_Z 1; fr_of_Z 1; fr_of_Z POSITION_LIMIT].

Lemma inputs_policy e p ext :
  inputs_of e p ext -> policy_bounded ext /\ poseidon [ai_min_size ext; ai_min_price ext; ai_position_limit ext] = policy_hash.
Proof.
  intros Hio. destruct (io_policy _ _ _ Hio) as (H1 & H2 & H3). split.
  - unfold policy_bounded. rewrite H1, H2, H3. done.
  - unfold policy_hash. repeat f_equal; apply fr_to_Z_inj; by rewrite ?H1, ?H2, ?H3, fr_of_Z_spec.
Qed.

Lemma rows_funded e p ext :
  inputs_of e p ext -> chunk_ready (F:=F) IVC_BATCH_SIZE (e_secrets e) p -> chunk_provable (F:=F) (e_secrets e) p ->
  Forall (row_ok ext) (ai_matches ext) <-> Forall (match_funded (e_secrets e)) (pa_matches p).
Proof.
  intros Hio [_ Hlegs _ Hfair [cp Huni]] [_ Hps]. destruct (io_rows _ _ _ Hio) as (rows & -> & Hrows).
  assert (Hpos : map_Forall (fun _ sec => Z.abs (s_position sec) < MAX_ENCODED) (e_secrets e)).
  { intros i sec Hi. by destruct (Hps i sec Hi). }
  assert (Hcp : Forall (fun mt => units (match_price mt) = fr_to_Z (ai_clearing_price ext) * ULP) (pa_matches p)).
  { pose proof (io_price _ _ _ Hio) as Hh. destruct (pa_matches p) as [|m0 ms] eqn:Hm; [constructor|].
    apply Forall_forall. intros mt Hmt. rewrite Forall_forall in Huni. rewrite (Huni mt Hmt), <- (Huni m0) by by left. by apply Hh. }
  assert (Hpad : Forall (row_ok ext) (replicate (IVC_BATCH_SIZE - length (pa_matches p)) default_row)).
  { apply Forall_forall. intros r [-> _]%elem_of_replicate. apply default_row_ok. }
  rewrite Forall_app. rewrite Forall_forall in Hlegs, Hfair, Hcp.
  rewrite <- (Forall2_iff _ (match_funded (e_secrets e)) (row_ok ext) _ _ Hrows); [tauto|].
  intros mt row Hmt (Hr & Hb & Ha). destruct (Hlegs mt Hmt) as (_ & _ & ? & ?). symmetry. apply (row_funded e p); auto.
Qed.

(** ** The settlement tuples *)

(** The tuple the contract hashes for a match, as the engine hands it over. *)
Definition tuple_of (m : SettlementMatch D) : SettlementRow F :=
  mkSettlementRow (fr_of_Z (be_value (sm_bid_trader m))) (fr_of_Z (be_value (sm_ask_trader m)))
    (fr_of_Z (lots (sm_price m))) (fr_of_Z (lots (sm_size m))).

(** The rows settle what the submission says. *)
Lemma settlement_rows secrets orders pairs ms rows :
  Forall2 (row_of (F:=F) secrets orders) ms rows ->
  Forall (fun mt => exists bo cfg, orders !! fill_order_id (match_bid_fill mt) = Some bo /\ pairs !! o_pair bo = Some cfg) ms ->
  exists sm, build_settlement_matches orders pairs ms = Ok sm /\ settled_rows rows = map tuple_of sm /\
    Forall2 (fun mt m => sm_price m = match_price mt /\ sm_size m = match_size mt /\
      exists bo ao, orders !! fill_order_id (match_bid_fill mt) = Some bo /\ orders !! fill_order_id (match_ask_fill mt) = Some ao /\
        sm_bid_trader m = o_trader bo /\ sm_ask_trader m = o_trader ao) ms sm.
Proof.
  intros Hrows. induction Hrows as [|mt row ms rows Hr _ IH]; intros Hp; [exists []; split_and!; [done|done|constructor]|].
  apply Forall_cons in Hp as [(bo & cfg & Hbo & Hcfg) Hp]. destruct (IH Hp) as (sm & Hsm & Hs & Hf).
  destruct Hr as [Hact [Hpr _] [Hsz _] (bo' & bsec & Hbo' & _ & _ & Hbl) (ao & asec & Hao & _ & _ & Hal)].
  rewrite Hbo in Hbo'. simplify_eq. cbn [build_settlement_matches]. unfold try_build_settlement_row.
  rewrite Hbo, Hao, Hcfg, Hsm. eexists. split; [reflexivity|].
  unfold settled_rows in *. cbn [flat_map map]. rewrite Hact, fr_eqb_refl. cbn [app]. split.
  - rewrite Hs. f_equal. unfold tuple_of. cbn [sm_bid_trader sm_ask_trader sm_price sm_size].
    rewrite (lots_mul _ _ Hpr), (lots_mul _ _ Hsz), !fr_of_to_Z. destruct Hbl, Hal. by f_equal.
  - constructor; [|done]. cbn. eauto 10.
Qed.
End funded.

(** ** The same chain on both sides *)

Definition is_address (a : Address) : Prop := length a = 20%nat /\ Forall is_byte a.

Lemma be_value_bound b : Forall is_byte b -> 0 <= be_value b < 256 ^ Z.of_nat (length b).
Proof.
  intros Hb. induction b as [|x b IH] using rev_ind; [done|]. apply Forall_app in Hb as [Hb [Hx _]%Forall_cons].
  specialize (IH Hb). unfold be_value in *. rewrite fold_left_app, length_app, Nat2Z.inj_add, Z.pow_add_r by lia. cbn [fold_left].
  change (256 ^ Z.of_nat (length [x])) with 256. unfold is_byte in Hx. revert IH.
  generalize (fold_left (fun acc y => acc * 256 + y) b 0) (256 ^ Z.of_nat (length b)). intros v q. lia.
Qed.

Lemma address_word a : is_address a -> 0 <= be_value a < FR.
Proof.
  intros [Hl Hb%be_value_bound]. rewrite Hl in Hb. assert (256 ^ Z.of_nat 20 < FR) by reflexivity. lia.
Qed.

Section chains.
Context {D F : Type} `{!DecimalOps D, DL : !DecimalLaws D, !FieldOps F, FL : !FieldLaws F, !Poseidon F, !U256Text D, UL : !U256TextLaws D,
  P5 : !Poseidon5, PP : !PoseidonPort F}.

(** A match the submitter and the contract represent exactly. *)
Definition exact_match (m : SettlementMatch D) : Prop :=
  encodable (sm_price m) /\ encodable (sm_size m) /\ is_address (sm_bid_trader m) /\ is_address (sm_ask_trader m).

(** The words of a match. *)
Definition sol_of (m : SettlementMatch D) : SolMatch :=
  mkSolMatch (be_value (uuid_to_bytes32 (sm_bid_order_id m))) (be_value (uuid_to_bytes32 (sm_ask_order_id m)))
    (sm_bid_trader m) (sm_ask_trader m) (sm_base_token m) (sm_quote_token m)
    (lots (sm_price m) * WEI_TO_CIRCUIT_SCALE) (lots (sm_size m) * WEI_TO_CIRCUIT_SCALE).

Lemma encodable_lots (d : D) : encodable d -> exists f : F, decimal_to_scalar d = Ok f /\ lots d = fr_to_Z f /\ 0 <= lots d < 2 ^ 60.
Proof.
  intros [Hd Hb]. destruct (decimal_to_scalar_total (F:=F) d Hd Hb) as [f Hf]. exists f.
  pose proof (scalar_bound _ _ Hf) as [Hu Hm]. rewrite (lots_mul _ _ Hu). unfold MAX_ENCODED in Hm. pose proof (fr_to_Z_range f). auto with lia.
Qed.

Lemma settlement_match_exact (m : SettlementMatch D) : exact_match m -> settlement_match_to_sol m = Ret (Ok (sol_of m)).
Proof.
  intros (Hp & Hs & _). destruct (encodable_lots _ Hp) as (pf & Hpf & Hpl & _). destruct (encodable_lots _ Hs) as (sf & Hsf & Hsl & _).
  unfold settlement_match_to_sol, sol_of. rewrite (decimal_to_wei_encodable _ _ Hpf), (decimal_to_wei_encodable _ _ Hsf).
  cbn [mbind outcome_bind]. rewrite !Z.mod_mul by done. cbn [negb orb Z.eqb]. by rewrite Hpl, Hsl.
Qed.

Lemma matches_to_sol_exact (ms : list (SettlementMatch D)) :
  Forall exact_match ms -> matches_to_sol ms = Ret (Ok (map sol_of ms)).
Proof.
  induction 1 as [|m ms Hm _ IH]; [done|]. cbn [matches_to_sol map]. rewrite (settlement_match_exact _ Hm). cbn [mbind outcome_bind].
  rewrite IH. done.
Qed.

(** The chain of the contract is the chain of the proof. *)
Lemma chains_agree (acc : F) (ms : list (SettlementMatch D)) :
  Forall exact_match ms ->
  settlementChain (fr_to_Z acc) (map sol_of ms) = Ok (fr_to_Z (settlement_chain acc (map tuple_of ms))).
Proof.
  intros Hms. revert acc. induction Hms as [|m ms (Hp & Hs & Hb & Ha) _ IH]; intros acc; [done|].
  unfold settlementChain. cbn [map fold_checked sol_price sol_size sol_of]. rewrite !Z.mod_mul, !Z.div_mul by done.
  cbn [Z.eqb andb]. unfold settlement_chain. cbn [fold_left tuple_of row_bid_addr row_ask_addr row_price row_size].
  specialize (IH (poseidon [acc; fr_of_Z (be_value (sm_bid_trader m)); fr_of_Z (be_value (sm_ask_trader m)); fr_of_Z (lots (sm_price m)); fr_of_Z (lots (sm_size m))])).
  rewrite poseidon_port in IH. unfold settlementChain, settlement_chain in IH. rewrite <- IH.
  rewrite !fr_of_Z_spec. destruct (encodable_lots _ Hp) as (_ & _ & _ & ?). destruct (encodable_lots _ Hs) as (_ & _ & _ & ?).
  assert (2 ^ 60 < FR) by reflexivity. rewrite !Z.mod_small by (auto using address_word || lia). done.
Qed.
End chains.

(** ** A session and its auction on the contract *)

Section contract.
Context {B : Type} `{BO : !BaseOps B, KE : !Keccak, P5 : !Poseidon5}.
Implicit Types (pool : DarkPool B) (env : CallEnv).

(** Two calls of one sender to one deployment. *)
Definition same_caller env1 env2 : Prop :=
  msg_sender env1 = msg_sender env2 /\ block_chainid env1 = block_chainid env2 /\ this env1 = this env2.

(** The contract settles sessions of this sender, and neither the session nor
    the auction is known to it. *)
Record session_open env pool (sid aid : Z) : Prop := {
  so_operator : onlyOperator env pool = true;
  so_running : whenNotPaused pool = true;
  so_enabled : ivcEnabled (settings pool) = true;
  so_verifier : ivcVerifier (settings pool) <> address_0;
  so_session : flag (sessionSubmitted (sessions pool)) (sessionKey env sid) = false;
  so_settled : flag (sessionSettled (sessions pool)) (sessionKey env sid) = false;
  so_auction : flag (settledAuction (sessions pool)) (auctionKey env aid) = false;
  so_bound : amount (auctionToSession (sessions pool)) (auctionKey env aid) = 0
}.

Lemma same_caller_keys env1 env2 id : same_caller env1 env2 -> sessionKey env1 id = sessionKey env2 id /\ auctionKey env1 id = auctionKey env2 id.
Proof. intros (_ & Hc & Ht). unfold sessionKey, auctionKey, domainId. by rewrite Hc, Ht. Qed.

(** The pool after a session has been submitted. *)
Definition with_session env pool (sid acc : Z) : DarkPool B :=
  with_sessions pool (mark_session (sessions pool) (sessionKey env sid) acc).

Lemma submitSession_open env pool sid aid proof z0 zN n h :
  session_open env pool sid aid -> verifyIvcProof env (ivcVerifier (settings pool)) proof z0 zN n = Ok true ->
  word z0 3 = settlementDomain pool -> h = word zN 2 ->
  submitSession env pool sid proof z0 zN n h = Ok (with_session env pool sid (word zN 3), [EvSessionSubmitted sid n h]).
Proof.
  intros [Hop Hru Hen Hve Hse _ _ _] Hok Hd ->. unfold submitSession. rewrite Hop, Hru, Hen, Hse, (bool_decide_eq_false_2 _ Hve), Hok, Hd.
  cbn [negb]. by rewrite !Z.eqb_refl.
Qed.

(** The auction of a submitted session settles exactly when the chain matches. *)
Lemma settleAuction_open env1 env2 pool sid aid acc chain ms :
  same_caller env1 env2 -> session_open env1 pool sid aid -> (0 < length ms <= 32)%nat ->
  settlementChain (settlementDomain pool) ms = Ok chain ->
  settleAuction env2 (with_session env1 pool sid acc) sid aid ms =
  if chain =? acc then
    let p := with_sessions pool (mark_auction (mark_session (sessions pool) (sessionKey env1 sid) acc) (sessionKey env1 sid) (auctionKey env1 aid) sid) in
    let? x := fold_checked (settleMatch env2 (feeRecipient (settings pool))) (escrow pool) ms in
    Ok (with_escrow p x, [EvAuctionSettled sid aid])
  else Err (str "settlement binding").
Proof.
  intros Hsame [Hop Hru Hen _ _ Hst Hau Hbd] Hlen Hch. unfold settleAuction.
  destruct (same_caller_keys _ _ sid Hsame) as [<- _]. destruct (same_caller_keys _ _ aid Hsame) as [_ <-].
  destruct Hsame as (Hs & _). unfold onlyOperator, whenNotPaused in *. rewrite <- Hs.
  cbn [with_session with_sessions settings dp_base sessions mark_session sessionSubmitted settledAuction sessionSettled auctionToSession
    sessionSettlementAcc settlementDomain escrow].
  rewrite Hop, Hru, Hen, flag_insert, amount_insert, Hau, Hst, Hbd, Hch. rewrite !decide_True by done. cbn [negb orb Z.eqb].
  destruct (Z.ltb_spec 0 (Z.of_nat (length ms))); [|lia]. unfold MAX_IVC_SETTLE_MATCHES.
  destruct (Z.leb_spec (Z.of_nat (length ms)) 32); [|lia]. cbn [andb]. done.
Qed.
End contract.

(** ** The whole way *)

Section pipeline.
Context {D F St H P B : Type} `{!DecimalOps D, DL : !DecimalLaws D, !FieldOps F, FL : !FieldLaws F, !Poseidon F, !StoreOps D St, SL : !StoreLaws D St,
  SHA : !Sha256, HEX : !HexOps, HEXL : !HexLaws, ADDR : !AddressOps, HN : !HyperNova F H P, HL : !HyperNovaLaws F H P,
  !U256Text D, UL : !U256TextLaws D, P5 : !Poseidon5, PP : !PoseidonPort F, BO : !BaseOps B, KE : !Keccak} {HI : HashIter}.
Implicit Types (e : Engine D St) (p : PendingAggregation D) (a : InlineFoldingAggregator F H) (pool : DarkPool B) (env : CallEnv).

(** A chunk of a tick of a reachable engine that can be encoded. *)
Record ticked_chunk (tenv : TickEnv) e e' p : Prop := {
  tc_reachable : reachable (F:=F) e;
  tc_room : room e;
  tc_tick : exists ns ps, tick_under_lock (F:=F) tenv e = Ret (e', ns, ps) /\ p ∈ ps;
  tc_provable : chunk_provable (F:=F) (e_secrets e') p;
  tc_fits : set_fits (F:=F) e' p;
  tc_addresses : map_Forall (fun _ o => is_address (o_trader o)) (pa_orders p)
}.

Lemma settled_padding (rows : list (CircuitMatchNative F)) n : settled_rows (rows ++ replicate n default_row) = settled_rows rows.
Proof.
  unfold settled_rows. rewrite flat_map_app. induction n as [|n IH]; [by rewrite app_nil_r|].
  cbn [replicate flat_map default_row c_is_active]. rewrite fr_zero_neq_one. exact IH.
Qed.

(** What a ticked chunk folds and submits. *)
Lemma ticked_chunk_inputs tenv e e' p :
  ticked_chunk tenv e e' p ->
  exists ext sm, fold_inputs (F:=F) e' p = Ret (Some ext) /\ inputs_of e' p ext /\ chunk_ready (F:=F) IVC_BATCH_SIZE (e_secrets e') p /\
    build_settlement_matches (pa_orders p) (es_pair_tokens (e_state e')) (pa_matches p) = Ok sm /\
    settled_rows (ai_matches ext) = map tuple_of sm /\ Forall exact_match sm /\ length sm = length (pa_matches p).
Proof.
  intros [Hre Hro (ns & ps & Ht & Hp) Hpv Hfit Had].
  destruct (tick_chunk _ _ _ _ _ _ Hre Hro Ht Hp) as (Hcan & Hbs & Hready & [cfg Hcfg]).
  destruct (ready_chunk_folds e' p Hcan Hbs Hready Hpv Hfit) as (ext & Hext & Hio).
  destruct (io_rows _ _ _ Hio) as (rows & Hai & Hrows). pose proof (cr_legs _ _ _ Hready) as Hlegs.
  destruct (settlement_rows (e_secrets e') (pa_orders p) (es_pair_tokens (e_state e')) (pa_matches p) rows) as (sm & Hsm & Hset & Hf).
  { eapply Forall2_impl; [exact Hrows|]. by intros mt row (? & _). }
  { eapply Forall_impl; [exact Hlegs|]. intros mt ((bo & sec & Hbo & _ & _ & Hpair & _) & _). exists bo, cfg. by rewrite Hpair. }
  exists ext, sm. rewrite Hai, settled_padding. split_and!; try done; [|symmetry; by eapply Forall2_length].
  clear -Hf Hlegs Had. induction Hf as [|mt m ms sm (Hp & Hs & bo & ao & Hbo & Hao & Hb & Ha) _ IH]; [constructor|].
  apply Forall_cons in Hlegs as [(_ & _ & ? & ?) Hlegs]. constructor; [|by apply IH].
  unfold exact_match. rewrite Hp, Hs, Hb, Ha. split_and!; [done|done|exact (Had _ _ Hbo)|exact (Had _ _ Hao)].
Qed.

(** The state after the step of a chunk. *)
Definition after_chunk (h n s ad : F) (ext : AuctionExternalInputs F) (sm : list (SettlementMatch D)) : list F :=
  [nth 0 (next_state h n policy_hash s ad (padded ext)) fr_zero; (n + fr_one)%fr; policy_hash;
   settlement_chain s (map tuple_of sm); admitted_chain_step ad (ai_admitted_root ext)].

(** One step over the inputs of a chunk. *)
Lemma chunk_step e p ext (sm : list (SettlementMatch D)) bs h n s ad z' :
  inputs_of e p ext -> chunk_ready (F:=F) IVC_BATCH_SIZE (e_secrets e) p -> chunk_provable (F:=F) (e_secrets e) p ->
  settled_rows (ai_matches ext) = map tuple_of sm -> (bs <= IVC_BATCH_SIZE)%nat ->
  step bs [h; n; policy_hash; s; ad] ext = Ret (Some z') <->
  Forall (match_funded (e_secrets e)) (pa_matches p) /\ z' = after_chunk h n s ad ext sm.
Proof.
  intros Hio Hready Hpv Hset Hbs. destruct (inputs_policy e p ext Hio) as [Hpol Hhash].
  rewrite step_spec by (try done; rewrite (io_width _ _ _ Hio); lia). rewrite Hhash, (rows_funded e p ext Hio Hready Hpv).
  replace (after_chunk h n s ad ext sm) with (next_state h n policy_hash s ad (padded ext)); [tauto|].
  unfold after_chunk, next_state. cbn [nth padded set_inputs_matches ai_matches ai_admitted_root]. by rewrite settled_padding, Hset.
Qed.

(** The engine and the circuit agree on a trade but for its funding.  For
    every chunk of a tick of a reachable engine that can be encoded, and any
    state of the chain that carries the engine's policy, the step circuit
    accepts the chunk's inputs if and only if every match is funded: the buyer's
    balance covers price times size, the seller's covers the size, and both
    positions stay within the limit.  None of these is checked when orders are
    matched.  An accepted step extends the settlement chain by exactly the
    tuples of the submission. *)
Theorem chunk_step_exact tenv e e' p bs h n s ad :
  ticked_chunk tenv e e' p -> (bs <= IVC_BATCH_SIZE)%nat ->
  exists ext sm, fold_inputs (F:=F) e' p = Ret (Some ext) /\
    build_settlement_matches (pa_orders p) (es_pair_tokens (e_state e')) (pa_matches p) = Ok sm /\
    ((exists z', step bs [h; n; policy_hash; s; ad] ext = Ret (Some z')) <-> Forall (match_funded (e_secrets e')) (pa_matches p)) /\
    (forall z', step bs [h; n; policy_hash; s; ad] ext = Ret (Some z') ->
      exists h' ad', z' = [h'; (n + fr_one)%fr; policy_hash; settlement_chain s (map tuple_of sm); ad']).
Proof.
  intros Hc Hbs. destruct (ticked_chunk_inputs _ _ _ _ Hc) as (ext & sm & Hext & Hio & Hready & Hsm & Hset & _).
  exists ext, sm. do 2 (split; [done|]).
  pose proof (fun z' => chunk_step e' p ext sm bs h n s ad z' Hio Hready (tc_provable _ _ _ _ Hc) Hset Hbs) as Hst. split.
  - split; [by intros [z' [Hf _]%Hst]|]. intros Hf. eexists. by apply Hst.
  - intros z' [_ ->]%Hst. by do 2 eexists.
Qed.

(** ** Rounds of one chain *)

(** The state of the pair's chain before a round: the accumulator's, or the
    initial one when the pair has none. *)
Definition before_round a (pair : Str) (z_0 z : list F) (k : Z) : Prop :=
  chain_at a pair z_0 z k \/
  ag_state a !! pair = None /\ z_0 = [fr_zero; fr_zero; policy_hash; ag_settlement_domain a; fr_zero] /\ z = z_0 /\ k = 0.

(** What the submitter passes on of a final proof. *)
Definition session_words (zs : list F) : list Z := map be_value (map fr_to_bytes32 zs).

Lemma session_words_value zs : session_words zs = map fr_to_Z zs.
Proof.
  unfold session_words. rewrite map_map. apply map_ext. intros f. apply (be_value_be_bytes 32), fr_to_Z_bytes.
Qed.

(** A funded chunk is folded and finalized; its proof carries the chain over
    its tuples, from wherever the pair's chain was. *)
Lemma round_finalizes tenv rng e e' p a z_0 h n s ad k :
  ticked_chunk tenv e e' p -> Forall (match_funded (e_secrets e')) (pa_matches p) ->
  before_round a (pa_pair p) z_0 [h; n; policy_hash; s; ad] k -> 0 <= k < u64_max -> (ag_batch_size a <= IVC_BATCH_SIZE)%nat ->
  exists ext a' fp sm, fold_inputs (F:=F) e' p = Ret (Some ext) /\ inline_fold_step rng a (pa_pair p) ext = (a', Ok tt) /\
    inline_finalize a' (pa_pair p) = Ok fp /\ chain_at a' (pa_pair p) z_0 (after_chunk h n s ad ext sm) (k + 1) /\
    build_settlement_matches (pa_orders p) (es_pair_tokens (e_state e')) (pa_matches p) = Ok sm /\
    matches_to_sol sm = Ret (Ok (map sol_of sm)) /\ Forall exact_match sm /\ (0 < length sm <= IVC_BATCH_SIZE)%nat /\
    fp_z_0 fp = z_0 /\ fp_z_n fp = after_chunk h n s ad ext sm /\ fp_policy_hash fp = policy_hash /\ verify_final fp = Ok tt.
Proof.
  intros Hc Hf Hb Hk Hbs. destruct (ticked_chunk_inputs _ _ _ _ Hc) as (ext & sm & Hext & Hio & Hready & Hsm & Hset & Hex & Hlen).
  pose proof (proj2 (chunk_step e' p ext sm _ h n s ad _ Hio Hready (tc_provable _ _ _ _ Hc) Hset Hbs) (conj Hf eq_refl)) as Hst.
  destruct (inputs_policy e' p ext Hio) as [_ Hhash].
  assert (Hs : starts_at a (pa_pair p) ext z_0 [h; n; policy_hash; s; ad] k).
  { destruct Hb as [Hb|(Hn & Hz & Hzz & ->)]; [by left|right]. unfold compute_z_0. rewrite Hhash. done. }
  destruct (inline_fold_step_ok rng a (pa_pair p) ext z_0 _ _ k Hs Hst Hk) as (a' & Hfold & Hch & _ & _).
  destruct (inline_finalize_ok _ _ _ _ _ _ _ _ _ Hch) as (fp & Hfin & ? & ? & _ & ? & ?).
  exists ext, a', fp, sm. split_and!; try done; [by apply matches_to_sol_exact|..]; rewrite Hlen; apply (cr_length _ _ _ Hready).
Qed.

(** The two calls of a session on the contract. *)
Lemma round_submits env1 env2 pool sid aid (fp : FinalProof F) sm h n s ad ext z1 z2 z3 z4 :
  same_caller env1 env2 -> session_open env1 pool sid aid -> Forall exact_match sm -> (0 < length sm <= IVC_BATCH_SIZE)%nat ->
  fp_z_0 fp = [z1; z2; z3; fr_of_Z (settlementDomain pool); z4] -> fp_z_n fp = after_chunk h n s ad ext sm ->
  fp_policy_hash fp = policy_hash -> 0 <= settlementDomain pool < FR ->
  verifyIvcProof env1 (ivcVerifier (settings pool)) (fp_proof_bytes fp) (session_words (fp_z_0 fp)) (session_words (fp_z_n fp)) (fp_n_steps fp) = Ok true ->
  exists pool1 ev1, submitSession env1 pool sid (fp_proof_bytes fp) (session_words (fp_z_0 fp)) (session_words (fp_z_n fp)) (fp_n_steps fp)
      (be_value (fr_to_bytes32 (fp_policy_hash fp))) = Ok (pool1, ev1) /\
    settleAuction env2 pool1 sid aid (map sol_of sm) =
    if fr_to_Z (settlement_chain (fr_of_Z (settlementDomain pool)) (map tuple_of sm)) =? fr_to_Z (settlement_chain s (map tuple_of sm)) then
      let pool2 := with_sessions pool (mark_auction (mark_session (sessions pool) (sessionKey env1 sid)
        (fr_to_Z (settlement_chain s (map tuple_of sm)))) (sessionKey env1 sid) (auctionKey env1 aid) sid) in
      let? x := fold_checked (settleMatch env2 (feeRecipient (settings pool))) (escrow pool) (map sol_of sm) in
      Ok (with_escrow pool2 x, [EvAuctionSettled sid aid])
    else Err (str "settlement binding").
Proof.
  intros Hsame Hopen Hex Hlen Hz0 Hzn Hph Hd Hver.
  pose proof (chains_agree (fr_of_Z (settlementDomain pool)) sm Hex) as Hch. rewrite fr_of_Z_spec, Z.mod_small in Hch by done.
  eexists _, _. split.
  - apply (submitSession_open env1 pool sid aid); [done|done|..]; rewrite session_words_value.
    + rewrite Hz0. cbn [map word nth]. unfold word. cbn [nth]. rewrite fr_of_Z_spec. by apply Z.mod_small.
    + rewrite Hzn, Hph. unfold word. cbn [after_chunk map nth]. apply (be_value_be_bytes 32), fr_to_Z_bytes.
  - rewrite session_words_value, Hzn. unfold word. cbn [after_chunk map nth].
    apply settleAuction_open; [done|done| |done]. rewrite length_map. unfold IVC_BATCH_SIZE in Hlen. lia.
Qed.

(** The verifier of the contract accepts what the native one accepts. *)
Definition verifier_complete env pool : Prop :=
  forall fp : FinalProof F, verify_final fp = Ok tt ->
    verifyIvcProof env (ivcVerifier (settings pool)) (fp_proof_bytes fp) (session_words (fp_z_0 fp)) (session_words (fp_z_n fp)) (fp_n_steps fp) = Ok true.

(** The contract holds in reserve what the matches pay, and no balance
    overflows by what they receive. *)
Definition reserves_cover env pool (ms : list SolMatch) : Prop :=
  exists ls, Forall2 (amounts_of env) ms ls /\
    (forall k, total pays ms ls k <= amount (reserved (escrow pool)) k) /\
    (forall k, amount (balances (escrow pool)) k + total (receives (feeRecipient (settings pool))) ms ls k <= u256_max).

Lemma sol_typed (sm : list (SettlementMatch D)) : Forall exact_match sm -> Forall typed_match (map sol_of sm).
Proof.
  intros Hex. apply Forall_map. eapply Forall_impl; [exact Hex|]. intros m (Hp & Hs & _).
  destruct (encodable_lots (F:=F) _ Hp) as (_ & _ & _ & ?). destruct (encodable_lots (F:=F) _ Hs) as (_ & _ & _ & ?).
  unfold typed_match, is_u256, u256_max. cbn [sol_of sol_price sol_size]. unfold WEI_TO_CIRCUIT_SCALE. lia.
Qed.

(** C16: what the auction matches in the first round of a pair can be settled.
    Take a chunk of a tick of a reachable engine, of a pair for which the
    aggregator has no accumulator yet; a later round reverts
    ([later_round_reverts]).  The chunk is provable: the balances and positions
    of the oracle encode, the admitted orders fit the tree, and every match is
    funded and within the position limit.  The contract has the aggregator's
    domain and is open for the session: the caller is an operator, it is not
    paused, sessions are enabled with a verifier, and neither the session nor the
    auction is known to it.  Then the chunk is folded and finalized and the
    submission converts; with a verifier that accepts what the native one
    accepts, the contract accepts the session and settles the auction, provided
    the traders' reserves cover the transfers. *)
Theorem first_round_settles tenv rng e e' p a pool env1 env2 sid aid :
  ticked_chunk tenv e e' p -> Forall (match_funded (e_secrets e')) (pa_matches p) ->
  ag_state a !! pa_pair p = None -> (ag_batch_size a <= IVC_BATCH_SIZE)%nat -> fr_to_Z (ag_settlement_domain a) = settlementDomain pool ->
  same_caller env1 env2 -> session_open env1 pool sid aid -> verifier_complete env1 pool -> typed_env env2 -> escrow_ok (escrow pool) ->
  (forall sm, build_settlement_matches (pa_orders p) (es_pair_tokens (e_state e')) (pa_matches p) = Ok sm -> reserves_cover env2 pool (map sol_of sm)) ->
  exists ext a' fp sm sol pool1 ev1 pool2, fold_inputs (F:=F) e' p = Ret (Some ext) /\ inline_fold_step rng a (pa_pair p) ext = (a', Ok tt) /\
    inline_finalize a' (pa_pair p) = Ok fp /\
    build_settlement_matches (pa_orders p) (es_pair_tokens (e_state e')) (pa_matches p) = Ok sm /\ matches_to_sol sm = Ret (Ok sol) /\
    submitSession env1 pool sid (fp_proof_bytes fp) (session_words (fp_z_0 fp)) (session_words (fp_z_n fp)) (fp_n_steps fp)
      (be_value (fr_to_bytes32 (fp_policy_hash fp))) = Ok (pool1, ev1) /\
    settleAuction env2 pool1 sid aid sol = Ok (pool2, [EvAuctionSettled sid aid]).
Proof.
  intros Hc Hf Hnone Hbs Hdom Hsame Hopen Hcomp Henv Hesc Hres.
  destruct (round_finalizes tenv rng e e' p a [fr_zero; fr_zero; policy_hash; ag_settlement_domain a; fr_zero]
    fr_zero fr_zero (ag_settlement_domain a) fr_zero 0 Hc Hf) as (ext & a' & fp & sm & Hext & Hfold & Hfin & _ & Hsm & Hsol & Hex & Hlen & Hz0 & Hzn & Hph & Hv);
    [by right|done|done|].
  destruct (Hres sm Hsm) as (ls & Hls & Hpay & Hrec).
  assert (Hd : ag_settlement_domain a = fr_of_Z (settlementDomain pool)) by (by rewrite <- Hdom, fr_of_to_Z).
  assert (Hr : 0 <= settlementDomain pool < FR) by (rewrite <- Hdom; apply fr_to_Z_range).
  rewrite Hd in Hz0, Hzn. pose proof (Hcomp fp Hv) as Hver.
  destruct (round_submits env1 env2 pool sid aid fp sm _ _ _ _ ext _ _ _ _ Hsame Hopen Hex Hlen Hz0 Hzn Hph Hr Hver) as (pool1 & ev1 & Hsub & Hset).
  destruct (settle_all_total env2 (feeRecipient (settings pool)) (map sol_of sm) ls (escrow pool)) as [x Hx]; [done|by apply sol_typed|done..|].
  rewrite Z.eqb_refl, Hx in Hset. exists ext, a', fp, sm, (map sol_of sm), pool1, ev1. eexists. by split_and!.
Qed.

(** The tuples hashed along a chain. *)
Fixpoint chain_tuples (acc : F) (rows : list (SettlementRow F)) : list (list F) :=
  match rows with
  | [] => []
  | r :: rows' =>
    let t := [acc; row_bid_addr r; row_ask_addr r; row_price r; row_size r] in
    t :: chain_tuples (poseidon t) rows'
  end.

(** Two different tuples of the two chains with one hash. *)
Definition chains_collide (s1 s2 : F) (rows : list (SettlementRow F)) : Prop :=
  exists t1 t2, t1 ∈ chain_tuples s1 rows /\ t2 ∈ chain_tuples s2 rows /\ t1 <> t2 /\ poseidon t1 = poseidon t2.

Lemma chains_differ s1 s2 rows :
  s1 <> s2 -> settlement_chain s1 rows = settlement_chain s2 rows -> chains_collide s1 s2 rows.
Proof.
  revert s1 s2. induction rows as [|r rows IH]; intros s1 s2 Hne Heq; [done|].
  unfold settlement_chain in Heq. cbn [fold_left] in Heq.
  set (t1 := [s1; row_bid_addr r; row_ask_addr r; row_price r; row_size r]) in *.
  set (t2 := [s2; row_bid_addr r; row_ask_addr r; row_price r; row_size r]) in *.
  destruct (decide (poseidon t1 = poseidon t2)) as [Hc|Hc].
  - exists t1, t2. split_and!; [by left|by left| |done]. by intros [= ?].
  - destruct (IH _ _ Hc Heq) as (u1 & u2 & ? & ? & ? & ?). exists u1, u2. split_and!; [by right|by right|done|done].
Qed.

(** C37: only the first round of a chain settles.  Finalizing leaves the
    accumulator of the pair as it is, so a later round extends the chain of
    everything folded before, while the submission carries the matches of its
    own chunk and the contract starts from its domain: once the chain has left
    the domain the session is accepted, and its auction reverts, unless two
    different tuples of the two chains have one Poseidon hash. *)
Theorem later_round_reverts tenv rng e e' p a pool env1 env2 sid aid z1 z2 z3 z4 h n s ad k :
  ticked_chunk tenv e e' p -> Forall (match_funded (e_secrets e')) (pa_matches p) ->
  chain_at a (pa_pair p) [z1; z2; z3; fr_of_Z (settlementDomain pool); z4] [h; n; policy_hash; s; ad] k ->
  0 <= k < u64_max -> (ag_batch_size a <= IVC_BATCH_SIZE)%nat -> 0 <= settlementDomain pool < FR -> s <> fr_of_Z (settlementDomain pool) ->
  (forall sm, build_settlement_matches (pa_orders p) (es_pair_tokens (e_state e')) (pa_matches p) = Ok sm ->
    ~ chains_collide (fr_of_Z (settlementDomain pool)) s (map tuple_of sm)) ->
  same_caller env1 env2 -> session_open env1 pool sid aid -> verifier_complete env1 pool ->
  exists ext a' fp sm sol pool1 ev1, fold_inputs (F:=F) e' p = Ret (Some ext) /\ inline_fold_step rng a (pa_pair p) ext = (a', Ok tt) /\
    inline_finalize a' (pa_pair p) = Ok fp /\
    build_settlement_matches (pa_orders p) (es_pair_tokens (e_state e')) (pa_matches p) = Ok sm /\ matches_to_sol sm = Ret (Ok sol) /\
    submitSession env1 pool sid (fp_proof_bytes fp) (session_words (fp_z_0 fp)) (session_words (fp_z_n fp)) (fp_n_steps fp)
      (be_value (fr_to_bytes32 (fp_policy_hash fp))) = Ok (pool1, ev1) /\
    settleAuction env2 pool1 sid aid sol = Err (str "settlement binding").
Proof.
  intros Hc Hf Hch Hk Hbs Hd Hs Hnc Hsame Hopen Hcomp.
  destruct (round_finalizes tenv rng e e' p a _ _ _ _ _ _ Hc Hf (or_introl Hch) Hk Hbs)
    as (ext & a' & fp & sm & Hext & Hfold & Hfin & _ & Hsm & Hsol & Hex & Hlen & Hz0 & Hzn & Hph & Hv).
  destruct (round_submits env1 env2 pool sid aid fp sm _ _ _ _ ext _ _ _ _ Hsame Hopen Hex Hlen Hz0 Hzn Hph Hd (Hcomp fp Hv))
    as (pool1 & ev1 & Hsub & Hset).
  exists ext, a', fp, sm, (map sol_of sm), pool1, ev1. split_and!; try done. rewrite Hset.
  destruct (Z.eqb_spec (fr_to_Z (settlement_chain (fr_of_Z (settlementDomain pool)) (map tuple_of sm))) (fr_to_Z (settlement_chain s (map tuple_of sm))))
    as [Heq|]; [|done].
  apply fr_to_Z_inj in Heq. exfalso. apply (Hnc sm Hsm). apply chains_differ; [|done]. intros Hx. by apply Hs.
Qed.
End pipeline.
