(* ===== verification/Resubmit.v ===== *)
(** * Submitting again

    What becomes of a submission whose session reached the contract while its
    settlement did not ([submit_session] of [eth_submitter.rs], retried by
    [batch.rs]).  The chain is a parameter: [ChainLaws] says that a transaction
    with a successful receipt was executed by the contract, and that what the
    contract has recorded is never taken back, which [PoolSafety] proves of it. *)

From S2P Require Import Prelude Decimal Types Field Auction EngineState Evm PoseidonConstants PoseidonBN254 DarkPool PoolFunds.
From S2P Require Import PoolSafety Batch Settlement.
Open Scope Z_scope.

Section chain.
Context {D C B : Type} `{!DecimalOps D, !U256Text D, RPC : !RpcOps C, BO : !BaseOps B, BL : !BaseLaws B, KE : !Keccak, P5 : !Poseidon5}.

Class ChainLaws (addr : Address) (chain : Z) := {
  chain_pool : C -> DarkPool B;
  chain_count : forall c a, kept (sessions (chain_pool c)) (sessions (chain_pool (fst (get_transaction_count c a))));
  chain_fee : forall c, kept (sessions (chain_pool c)) (sessions (chain_pool (fst (get_latest_base_fee c))));
  chain_tip : forall c, kept (sessions (chain_pool c)) (sessions (chain_pool (fst (get_max_priority_fee_per_gas c))));
  chain_transact : forall c tx, kept (sessions (chain_pool c)) (sessions (chain_pool (fst (transact c tx))));
  chain_executes : forall c tx c' h, transact c tx = (c', Ok (true, h)) ->
    exists env p1 p2 evs, this env = addr /\ block_chainid env = chain /\ kept (sessions (chain_pool c)) (sessions p1) /\
      call env p1 (tx_call tx) = Ok (p2, evs) /\ kept (sessions p2) (sessions (chain_pool c'))
}.

Context (addr : Address) (chain : Z) `{CL : !ChainLaws addr chain}.

(** The contract has recorded the session. *)
Definition session_recorded (c : C) (sid : Uuid) : Prop :=
  forall env, this env = addr -> block_chainid env = chain ->
    flag (sessionSubmitted (sessions (chain_pool c))) (sessionKey env (be_value (uuid_to_bytes32 sid))) = true.

Lemma recorded_kept (c c' : C) sid : kept (sessions (chain_pool c)) (sessions (chain_pool c')) -> session_recorded c sid -> session_recorded c' sid.
Proof. intros Hk Hr env Ha Hc. by apply (kp_submitted _ _ Hk), Hr. Qed.

(** An RPC continuation keeps a property of every chain it leaves. *)
Lemma rpc_cases {A R} (r : C * result A Str) (k : C -> A -> outcome (C * result R SettlementError)) out :
  rpc r k = Ret out -> (exists e, r = (fst out, Err e) /\ snd out = Err (Rpc e)) \/ exists c1 x, r = (c1, Ok x) /\ k c1 x = Ret out.
Proof. destruct r as [c1 [x|e]]; simpl; [eauto|]. intros [= <-]. left. by exists e. Qed.

Lemma gas_quote_cases {R} s (c : C) (k : C -> Z -> Z -> Z -> outcome (C * result R SettlementError)) out :
  gas_quote s c k = Ret out ->
  kept (sessions (chain_pool c)) (sessions (chain_pool (fst out))) /\ (exists err, snd out = Err err) \/
  exists c1 nonce cap tip, kept (sessions (chain_pool c)) (sessions (chain_pool c1)) /\ k c1 nonce cap tip = Ret out.
Proof.
  unfold gas_quote. pose proof (chain_count c (es_sender s)) as K1.
  intros [(e & H1 & H2)|(c1 & nonce & H1 & Hk)]%rpc_cases; rewrite H1 in K1; simpl in K1; [left; eauto|].
  pose proof (chain_fee c1) as K2.
  apply rpc_cases in Hk as [(e & H2 & ?)|(c2 & block & H2 & Hk)]; rewrite H2 in K2; simpl in K2;
    [left; split; [by eapply kept_trans|eauto]|]. pose proof (kept_trans _ _ _ K1 K2) as K12.
  destruct block as [[fee|]|]; [|injection Hk as <-; left; eauto..]. pose proof (chain_tip c2) as K3.
  apply rpc_cases in Hk as [(e & H3 & ?)|(c3 & tip & H3 & Hk)]; rewrite H3 in K3; simpl in K3;
    [left; split; [by eapply kept_trans|eauto]|]. right. exists c3. do 3 eexists. split; [by eapply kept_trans|exact Hk].
Qed.

Lemma confirmed_cases {R} (c : C) tx (k : C -> Z -> outcome (C * result R SettlementError)) out :
  confirmed c tx k = Ret out ->
  kept (sessions (chain_pool c)) (sessions (chain_pool (fst out))) /\ (exists err, snd out = Err err) \/
  exists c1 h, transact c tx = (c1, Ok (true, h)) /\ k c1 h = Ret out.
Proof.
  unfold confirmed. pose proof (chain_transact c tx) as K1.
  intros [(e & H1 & H2)|(c1 & [ok h] & H1 & Hk)]%rpc_cases; rewrite H1 in K1; simpl in K1; [left; eauto|].
  destruct ok; [right; eauto|]. injection Hk as <-. left. eauto.
Qed.

(** The contract refuses a session it has recorded. *)
Lemma recorded_refuses (c c1 : C) tx h sid proof z0 zN n ph :
  session_recorded c sid -> tx_call tx = CSubmitSession (be_value (uuid_to_bytes32 sid)) proof z0 zN n ph ->
  transact c tx <> (c1, Ok (true, h)).
Proof.
  intros Hr Hc Ht. destruct (chain_executes c tx c1 h Ht) as (env & p1 & p2 & evs & Ha & Hch & Hk & Hcall & _).
  rewrite Hc in Hcall. apply call_did in Hcall as ((Hf & _) & _).
  destruct (kp_submitted _ _ Hk _ (Hr env Ha Hch)) as [Ht' _]. congruence.
Qed.

(** A recorded session is never settled by a retry.  [submit_session] first
    submits the session and settles only after that; once the contract has
    recorded the session, every further attempt fails at the first step,
    whatever the chain does, and the session stays recorded, so that no retry
    ever succeeds. *)
Theorem session_retry_fails s (c c' : C) sid proof z_0 z_n n_steps ph aid (ms : list (SettlementMatch D)) r :
  session_recorded c sid -> submit_session s c sid proof z_0 z_n n_steps ph aid ms = Ret (c', r) ->
  (exists err, r = Err err) /\ session_recorded c' sid.
Proof.
  intros Hr. unfold submit_session. intros (sol & _ & Hs)%outcome_bind_Ret.
  destruct sol as [sol|err]; [|injection Hs as <- <-; eauto].
  destruct (_ <? _)%nat; [injection Hs as <- <-; eauto|].
  apply gas_quote_cases in Hs as [[Hk He]|(c1 & nonce & cap & tip & Hk & Hs)]; [split; [done|by eapply recorded_kept]|].
  apply confirmed_cases in Hs as [[Hk' He]|(c2 & h & Ht & _)].
  - split; [done|]. eapply recorded_kept; [eapply kept_trans; [exact Hk|exact Hk']|done].
  - exfalso. revert Ht. eapply recorded_refuses; [by eapply recorded_kept|reflexivity].
Qed.
End chain.
