(* ===== verification/Binding.v ===== *)
(** * What a settlement is bound to

    The chain over the matches that [settleAuction] compares with the proven one
    ([_settlementChain] of [DarkPool.sol]), as a commitment: which fields of the
    matches it fixes, and which it leaves to the operator. *)

From S2P Require Import Prelude Decimal Types Field Evm PoseidonBN254 DarkPool.
Open Scope Z_scope.

Section binding.
Context {B : Type} `{BO : !BaseOps B, KE : !Keccak, P5 : !Poseidon5}.

(** The terms of a trade: the words of the traders, the price and the size. *)
Definition terms (m : SolMatch) : Z * Z * Z * Z := (addr_word (bidTrader m), addr_word (askTrader m), sol_price m, sol_size m).

Definition precise (m : SolMatch) : bool :=
  (sol_price m mod WEI_TO_CIRCUIT_SCALE =? 0) && (sol_size m mod WEI_TO_CIRCUIT_SCALE =? 0).

(** What the link of a match hashes. *)
Definition link_input (acc : Z) (m : SolMatch) : Z * Z * Z * Z * Z :=
  (acc, addr_word (bidTrader m), addr_word (askTrader m), sol_price m / WEI_TO_CIRCUIT_SCALE, sol_size m / WEI_TO_CIRCUIT_SCALE).

Definition hash_of (t : Z * Z * Z * Z * Z) : Z := let '(a, b, c, d, e) := t in hash5 a b c d e.

(** The link a match adds. *)
Definition link (acc : Z) (m : SolMatch) : Z := hash_of (link_input acc m).

(** Everything that is hashed for a list of matches. *)
Fixpoint chain_inputs (acc : Z) (ms : list SolMatch) : list (Z * Z * Z * Z * Z) :=
  match ms with
  | [] => []
  | m :: ms' => link_input acc m :: chain_inputs (link acc m) ms'
  end.

(** The hash breaks on two lists: two of the values hashed for them collide, or
    one hashes to the domain. *)
Definition broken (domain : Z) (ms ms' : list SolMatch) : Prop :=
  (exists t t', t ∈ chain_inputs domain ms /\ t' ∈ chain_inputs domain ms' /\ t <> t' /\ hash_of t = hash_of t') \/
  (exists t, t ∈ chain_inputs domain ms ++ chain_inputs domain ms' /\ hash_of t = domain).

Lemma settlementChain_app domain ms m :
  settlementChain domain (ms ++ [m]) =
  let? acc := settlementChain domain ms in if precise m then Ok (link acc m) else Err (str "match precision").
Proof.
  unfold settlementChain. revert domain. induction ms as [|x ms IH]; intros domain; cbn [app fold_checked].
  - unfold precise, link. by destruct (_ && _).
  - destruct (_ && _); [|done]. apply IH.
Qed.

Lemma settlementChain_links ms : forall domain c, settlementChain domain ms = Ok c -> c = fold_left link ms domain.
Proof.
  induction ms as [|m ms IH]; intros domain c H; [by injection H as <-|]. unfold settlementChain in *. cbn [fold_checked] in H.
  destruct (_ && _); [|done]. apply IH in H. exact H.
Qed.

Lemma chain_inputs_app ms m : forall domain, chain_inputs domain (ms ++ [m]) = chain_inputs domain ms ++ [link_input (fold_left link ms domain) m].
Proof. induction ms as [|x ms IH]; intros domain; [done|]. cbn [app chain_inputs fold_left]. by rewrite IH. Qed.

Lemma broken_app domain ms ms' m m' : broken domain ms ms' -> broken domain (ms ++ [m]) (ms' ++ [m']).
Proof.
  unfold broken. rewrite !chain_inputs_app. intros [(t & t' & H)|(t & H)]; [left; exists t, t'|right; exists t]; rewrite !elem_of_app in *; tauto.
Qed.

Lemma settlementChain_terms ms : forall domain ms', map terms ms = map terms ms' -> settlementChain domain ms = settlementChain domain ms'.
Proof.
  induction ms as [|m ms IH]; intros domain [|m' ms'] Ht; try discriminate; [done|]. injection Ht as Hb Ha Hp Hs Ht.
  unfold settlementChain in *. cbn [fold_checked]. rewrite Hb, Ha, Hp, Hs. destruct (_ && _); [|done]. by apply IH.
Qed.

Lemma precise_terms m m' :
  precise m = true -> precise m' = true -> addr_word (bidTrader m) = addr_word (bidTrader m') -> addr_word (askTrader m) = addr_word (askTrader m') ->
  sol_price m / WEI_TO_CIRCUIT_SCALE = sol_price m' / WEI_TO_CIRCUIT_SCALE -> sol_size m / WEI_TO_CIRCUIT_SCALE = sol_size m' / WEI_TO_CIRCUIT_SCALE ->
  terms m = terms m'.
Proof.
  unfold precise, terms. rewrite !andb_true_iff, !Z.eqb_eq. intros [H1 H2] [H3 H4] -> -> Hp Hs.
  assert (Hw : WEI_TO_CIRCUIT_SCALE <> 0) by done. pose proof (Z.div_mod (sol_price m) _ Hw). pose proof (Z.div_mod (sol_price m') _ Hw).
  pose proof (Z.div_mod (sol_size m) _ Hw). pose proof (Z.div_mod (sol_size m') _ Hw).
  assert (sol_price m = sol_price m') as -> by congruence. assert (sol_size m = sol_size m') as -> by congruence. done.
Qed.

(** Two lists with one chain have the same terms, or break the hash. *)
Lemma settlementChain_inj domain c ms : forall ms',
  settlementChain domain ms = Ok c -> settlementChain domain ms' = Ok c ->
  map terms ms = map terms ms' \/ broken domain ms ms'.
Proof.
  revert c. induction ms as [|m ms IH] using rev_ind; intros c ms' H H'; destruct ms' as [|m' ms' _] using rev_ind; [by left|..].
  - apply settlementChain_links in H', H. right; right. eexists. rewrite fold_left_app in H'.
    split; [apply elem_of_app; right; rewrite chain_inputs_app; apply elem_of_app; right; apply list_elem_of_singleton; reflexivity|].
    symmetry. etransitivity; [|exact H']. by rewrite H.
  - apply settlementChain_links in H', H. right; right. eexists. rewrite fold_left_app in H.
    split; [apply elem_of_app; left; rewrite chain_inputs_app; apply elem_of_app; right; apply list_elem_of_singleton; reflexivity|].
    symmetry. etransitivity; [|exact H]. by rewrite H'.
  - rewrite settlementChain_app in H, H'. destruct (settlementChain domain ms) as [a|] eqn:Ha; [|done]. destruct (settlementChain domain ms') as [a'|] eqn:Ha'; [|done].
    destruct (precise m) eqn:Hm; [|done]. destruct (precise m') eqn:Hm'; [|done]. injection H as H. injection H' as H'. rewrite <- H' in H.
    destruct (decide (link_input a m = link_input a' m')) as [Heq|Hne].
    + injection Heq as -> ? ? ? ?. destruct (IH a' ms' eq_refl Ha') as [Ht|Hbad]; [left|right; by apply broken_app].
      rewrite !map_app, Ht. cbn [map]. do 2 f_equal. by apply precise_terms.
    + right; left. exists (link_input a m), (link_input a' m'). rewrite !chain_inputs_app, !elem_of_app, !list_elem_of_singleton.
      rewrite <- (settlementChain_links _ _ _ Ha), <- (settlementChain_links _ _ _ Ha'). split_and!; [by right..|done|exact H].
Qed.

(** The checks of [settleAuction] before the transfers. *)
Lemma settleAuction_checks env (p : DarkPool B) sid aid ms p1 ev :
  settleAuction env p sid aid ms = Ok (p1, ev) ->
  settlementChain (settlementDomain p) ms = Ok (amount (sessionSettlementAcc (sessions p)) (sessionKey env sid)) /\
  forall ms' x, length ms' = length ms -> settlementChain (settlementDomain p) ms' = settlementChain (settlementDomain p) ms ->
    fold_checked (settleMatch env (feeRecipient (settings p))) (escrow p) ms' = Ok x ->
    exists p' ev', settleAuction env p sid aid ms' = Ok (p', ev') /\ escrow p' = x.
Proof.
  unfold settleAuction at 1. cbv zeta. intros H. repeat match type of H with (if ?b then _ else _) = _ => destruct b eqn:?; [|done] end.
  destruct (settlementChain (settlementDomain p) ms) as [chain|] eqn:Hc; [|done].
  destruct (Z.eqb_spec chain (amount (sessionSettlementAcc (sessions p)) (sessionKey env sid))) as [->|]; [|done]. split; [done|].
  intros ms' x Hl Hc' Hf. unfold settleAuction. cbv zeta. rewrite Hl, Hc'.
  repeat match goal with Hb : ?b = true |- context [if ?b then _ else _] => rewrite Hb end.
  rewrite Z.eqb_refl. cbn [escrow with_sessions settings]. rewrite Hf. eauto.
Qed.

(** C25: a proven session can settle one list of trades.  Two lists that the
    contract would settle under the same session have the same traders, prices
    and sizes in the same order, unless the values hashed for them contain a
    collision or a preimage of the settlement domain.  Nothing else is fixed: any list with
    these terms, whatever its order identifiers and its tokens, is settled as
    soon as the reserves in those tokens cover it. *)
Theorem settlement_binding env (p : DarkPool B) sid aid ms ms' p1 ev1 :
  settleAuction env p sid aid ms = Ok (p1, ev1) ->
  (forall p2 ev2, settleAuction env p sid aid ms' = Ok (p2, ev2) ->
    map terms ms = map terms ms' \/ broken (settlementDomain p) ms ms') /\
  (map terms ms = map terms ms' -> forall x, fold_checked (settleMatch env (feeRecipient (settings p))) (escrow p) ms' = Ok x ->
    exists p2 ev2, settleAuction env p sid aid ms' = Ok (p2, ev2) /\ escrow p2 = x).
Proof.
  intros [Hc Hs]%settleAuction_checks. split.
  - intros p2 ev2 [Hc' _]%settleAuction_checks. by eapply settlementChain_inj.
  - intros Ht x Hx. apply Hs; [|by apply settlementChain_terms|done]. rewrite <- (length_map terms ms), Ht. by rewrite length_map.
Qed.
End binding.
