(* ===== verification/PoolExamples.v ===== *)
(** * A concrete deployment

    Instances of what the contract depends on (the base contracts, a ledger of
    tokens, a hash) and a run of it: two tokens are allowed, two traders deposit
    and reserve, and one match between them settles.  The addresses are those of
    the engine's run in [Examples]. *)

From S2P Require Import Prelude Decimal Types Field Auction Events Book Merkle EngineState Engine Evm PoseidonConstants PoseidonBN254.
From S2P Require Import DarkPool PoolFunds PoolSafety Examples.
From S2P Require Import Binding.
Open Scope Z_scope.

(** ** Instances *)

Record Base := mkBase { b_owner : Address; b_pending : Address; b_paused : bool; b_entered : bool }.

#[local] Instance sample_base : BaseOps Base := {|
  oz_owner := b_owner;
  oz_pendingOwner := b_pending;
  oz_paused := b_paused;
  oz_entered := b_entered;
  oz_enter b := if b_entered b then Err (str "ReentrancyGuardReentrantCall") else Ok (mkBase (b_owner b) (b_pending b) (b_paused b) true);
  oz_leave b := mkBase (b_owner b) (b_pending b) (b_paused b) false;
  oz_pause b := if b_paused b then Err (str "EnforcedPause") else Ok (mkBase (b_owner b) (b_pending b) true (b_entered b));
  oz_unpause b := if b_paused b then Ok (mkBase (b_owner b) (b_pending b) false (b_entered b)) else Err (str "ExpectedPause");
  oz_transferOwnership b a := mkBase (b_owner b) a (b_paused b) (b_entered b);
  oz_acceptOwnership b a :=
    if bool_decide (b_pending b = a) then Ok (mkBase a address_0 (b_paused b) (b_entered b)) else Err (str "OwnableUnauthorizedAccount");
  oz_renounceOwnership b := mkBase address_0 address_0 (b_paused b) (b_entered b);
  oz_new a := mkBase a address_0 false false
|}.

#[local] Instance sample_base_laws : BaseLaws Base.
Proof.
  split; simpl.
  - intros b. destruct (b_entered b); split; try done; [by intros []|by eexists].
  - intros b b'. destruct (b_entered b); [done|]. by intros [= <-].
  - done.
  - intros b b'. destruct (b_paused b); [done|]. by intros [= <-].
  - intros b b'. destruct (b_paused b); [|done]. by intros [= <-].
  - done.
  - intros b a b'. case_bool_decide; [|done]. by intros [= <-].
  - done.
  - done.
  - intros b a. case_bool_decide as Ha; split; try done; [by eexists|by intros []].
  - done.
  - intros b. split; [done|]. intros b' [H|[H|H]]; revert H; repeat case_match; by intros [= <-].
  - done.
Qed.

(** A ledger per token. *)
Definition Ledger : Type := gmap (Address * Address) Z.

Definition move (l : Ledger) (token from to : Address) (v : Z) : result Ledger Str :=
  if v <=? amount l (token, from) then
    let l1 := <[(token, from) := amount l (token, from) - v]> l in
    Ok (<[(token, to) := amount l1 (token, to) + v]> l1)
  else Err (str "insufficient balance").

#[local] Instance sample_tokens : TokenOps Ledger := {|
  balanceOf l token a := amount l (token, a);
  safeTransferFrom := move;
  safeTransfer l token from to v := move l token from to v
|}.

#[local] Instance sample_keccak : Keccak := {| keccak256 b := be_bytes 32 (fold_left (fun acc x => (3 * acc + x) mod (2 ^ 61 - 1)) b 1) |}.

(** The chain hashes as the engine's run does. *)
#[local] Instance sample_poseidon5 : Poseidon5 := {| hash5 a b c d e := fold_left (fun acc x => 3 * acc + x) [a; b; c; d; e] 1 mod FR |}.

(** ** The deployment *)

Definition word20 (n : Z) : Address := replicate 19 0 ++ [n].
Definition pool_addr : Address := word20 10.
Definition owner : Address := word20 11.
Definition operator : Address := word20 12.
Definition verifier_addr : Address := word20 13.
Definition fees : Address := word20 14.
Definition sample_chain : Z := 31337.

(** The generator of the curve, uncompressed. *)
Definition sample_pubkey : bytes :=
  4 :: be_bytes 32 0x79BE667EF9DCBBAC55A06295CE870B07029BFCDB2DCE28D959F2815B16F81798 ++
       be_bytes 32 0x483ADA7726A3C4655DA4FBFC0E1108A8FD17B448A68554199C47D08FFB10D4B8.

Definition base_tok : Address := base_token sample_config.
Definition quote_tok : Address := quote_token sample_config.

Definition sample_call (from : Address) (time : Z) : CallEnv :=
  mkCallEnv from time sample_chain pool_addr (fun _ => 1) (fun t => Ok (if bool_decide (t = quote_tok) then 6 else 18))
    (fun _ _ _ => Ok true) (fun _ _ _ _ _ => Ok true).

Definition no_pool : DarkPool Base :=
  mkDarkPool (oz_new owner) owner 0 (mkEscrow ∅ ∅ ∅ ∅) (mkSessions ∅ ∅ ∅ ∅ ∅ ∅) (mkSettings ∅ ∅ owner false owner 0 0 0 [] 0).

Definition pool_or (r : result (DarkPool Base * list PoolEvent) Str) : DarkPool Base := match r with Ok (p, _) => p | Err _ => no_pool end.

Definition run_call (from : Address) (p : DarkPool Base) (c : Call) : DarkPool Base := pool_or (call (sample_call from 100) p c).

Definition run_deposit (from : Address) (pl : DarkPool Base * Ledger) (token : Address) (v : Z) : DarkPool Base * Ledger :=
  match deposit (sample_call from 100) (fst pl) (snd pl) token v with Ok (p, l, _) => (p, l) | Err _ => pl end.

Definition ledger0 : Ledger := <[(quote_tok, trader 1) := 1000000000]> (<[(base_tok, trader 2) := 10 ^ 19]> ∅).

Definition pool0 : DarkPool Base := Eval vm_compute in pool_or (constructor (sample_call owner 100) verifier_addr fees sample_pubkey).
Definition pool1 : DarkPool Base := Eval vm_compute in run_call owner pool0 (CSetTokenAllowed base_tok true).
Definition pool2 : DarkPool Base := Eval vm_compute in run_call owner pool1 (CSetTokenAllowed quote_tok true).
Definition pool3 : DarkPool Base := Eval vm_compute in run_call owner pool2 (CAddOperator operator).
Definition pool4 : DarkPool Base * Ledger := Eval vm_compute in run_deposit (trader 1) (pool3, ledger0) quote_tok 1000000000.
Definition pool5 : DarkPool Base * Ledger := Eval vm_compute in run_deposit (trader 2) pool4 base_tok (10 ^ 19).
Definition pool6 : DarkPool Base := Eval vm_compute in run_call (trader 1) (fst pool5) (CReserve quote_tok 500000000).
Definition pool7 : DarkPool Base := Eval vm_compute in run_call (trader 2) pool6 (CReserve base_tok (5 * 10 ^ 18)).
Definition pool8 : DarkPool Base := Eval vm_compute in run_call owner pool7 (CSetIvcVerifier verifier_addr).
Definition pool9 : DarkPool Base := Eval vm_compute in run_call owner pool8 (CSetIvcEnabled true).

Definition world (p : DarkPool Base) (l : Ledger) : World Base Ledger := mkWorld p l None 100.

Lemma world0_deployed : deployed (mkWorld pool0 ledger0 None 0).
Proof. exists (sample_call owner 100), verifier_addr, fees, sample_pubkey. eexists. split; [|done]. vm_compute. reflexivity. Qed.

Lemma sample_here from (w : World Base Ledger) : w_time w <= 100 -> here pool_addr sample_chain w (sample_call from 100).
Proof.
  intros Ht. split_and!; try done. split; [done|]. intros token d. simpl. intros [= <-]. case_bool_decide; lia.
Qed.

Ltac by_run := lazymatch goal with |- _ = ?r => vm_cast_no_check (eq_refl r) end.

Lemma sample_call_step from c p p' l time evs :
  time <= 100 -> typed_call c -> call (sample_call from 100) p c = Ok (p', evs) ->
  wstep pool_addr sample_chain quote_tok (Some c) (mkWorld p l None time) (world p' l).
Proof. intros Ht Hc Hp. eapply (ws_call _ _ _ (sample_call from 100) c (mkWorld p l None time)); [by apply sample_here|done|exact Hp]. Qed.

Lemma sample_run_cons cs l w1 w2 w3 :
  wstep (B:=Base) (T:=Ledger) pool_addr sample_chain quote_tok l w1 w2 -> wrun pool_addr sample_chain quote_tok cs w2 w3 ->
  wrun pool_addr sample_chain quote_tok (option_list l ++ cs) w1 w3.
Proof. apply wr_cons. Qed.

Lemma sample_run_app cs1 cs2 w1 w2 w3 :
  wrun (B:=Base) (T:=Ledger) pool_addr sample_chain quote_tok cs1 w1 w2 -> wrun pool_addr sample_chain quote_tok cs2 w2 w3 ->
  wrun pool_addr sample_chain quote_tok (cs1 ++ cs2) w1 w3.
Proof. induction 1 as [|l cs w1 w2' w3' Hs _ IH]; intros H2; [done|]. rewrite <- app_assoc. eapply wr_cons; [exact Hs|by apply IH]. Qed.

Lemma sample_deposit from pl pl' token v evs :
  deposit (sample_call from 100) (fst pl) (snd pl) token v = Ok (fst pl', snd pl', evs) ->
  (held pool_addr (snd pl) quote_tok <=? held pool_addr (snd pl') quote_tok) = true ->
  wrun pool_addr sample_chain quote_tok [] (world (fst pl) (snd pl)) (world (fst pl') (snd pl')).
Proof.
  intros Hd Hh%Z.leb_le. apply (deposit_steps pool_addr sample_chain quote_tok (sample_call from 100) (world (fst pl) (snd pl)) token v _ _ evs); try done.
  by apply sample_here.
Qed.

Lemma sample_deposit1 : wrun pool_addr sample_chain quote_tok [] (world pool3 ledger0) (world (fst pool4) (snd pool4)).
Proof.
  apply (sample_deposit (trader 1) (pool3, ledger0) pool4 quote_tok 1000000000 [EvDeposit (trader 1) quote_tok 1000000000]); by_run.
Qed.

Lemma sample_deposit2 : wrun pool_addr sample_chain quote_tok [] (world (fst pool4) (snd pool4)) (world (fst pool5) (snd pool5)).
Proof.
  apply (sample_deposit (trader 2) pool4 pool5 base_tok (10 ^ 19) [EvDeposit (trader 2) base_tok (10 ^ 19)]); by_run.
Qed.

(** The run up to the reserves. *)
Definition sample_calls : list Call :=
  [CSetTokenAllowed base_tok true; CSetTokenAllowed quote_tok true; CAddOperator operator; CReserve quote_tok 500000000; CReserve base_tok (5 * 10 ^ 18);
   CSetIvcVerifier verifier_addr; CSetIvcEnabled true].

Ltac call_step from p p' :=
  eapply (sample_run_cons _ (Some _));
  [eapply (sample_call_step from _ p p'); [done|vm_compute; first [exact I|split; discriminate]|vm_compute; reflexivity]|].

Lemma pool_run : wrun pool_addr sample_chain quote_tok sample_calls (mkWorld pool0 ledger0 None 0) (world pool9 (snd pool5)).
Proof.
  unfold sample_calls.
  call_step owner pool0 pool1.
  call_step owner pool1 pool2.
  call_step owner pool2 pool3.
  eapply (sample_run_app []); [exact sample_deposit1|]. eapply (sample_run_app []); [exact sample_deposit2|].
  call_step (trader 1) (fst pool5) pool6.
  call_step (trader 2) pool6 pool7.
  call_step owner pool7 pool8.
  call_step owner pool8 pool9.
  apply wr_nil.
Qed.

(** ** The theorems on the run *)

Lemma pool_solvent_witness : owed quote_tok (escrow pool9) <= held pool_addr (snd pool5) quote_tok.
Proof.
  apply (pool_solvent pool_addr sample_chain quote_tok sample_calls (mkWorld pool0 ledger0 None 0) (world pool9 (snd pool5))).
  - apply world0_deployed.
  - vm_compute. discriminate.
  - apply pool_run.
Defined.

Lemma accounts_well_typed_witness : account_ok (escrow pool9) (trader 1, quote_tok).
Proof.
  apply (accounts_well_typed pool_addr sample_chain quote_tok sample_calls (mkWorld pool0 ledger0 None 0) (world pool9 (snd pool5))).
  - apply world0_deployed.
  - apply pool_run.
Defined.

Lemma pool9_ok : escrow_ok (escrow pool9).
Proof. exact (run_ok pool_addr sample_chain _ _ _ _ (deployed_ok _ world0_deployed) pool_run). Qed.

(** One match of three units at a price of one hundred. *)
Definition sample_match : SolMatch := mkSolMatch 1 2 (trader 1) (trader 2) base_tok quote_tok (100 * 10 ^ 18) (3 * 10 ^ 18).

Definition sample_settle (batch auction : Z) : Call := CSubmitBatch batch auction (replicate 256 0) [1; 0; 0; 0; 0; 0] [sample_match].

Definition pool10 : DarkPool Base := Eval vm_compute in run_call operator pool9 (sample_settle 5 77).

Lemma sample_settled : call (sample_call operator 100) pool9 (sample_settle 5 77) = Ok (pool10, [EvBatchSettled 5 100]).
Proof. by_run. Qed.

Lemma round_settles_once_witness : exists err, call (sample_call operator 100) pool10 (sample_settle 6 77) = Err err.
Proof.
  apply (round_settles_once pool_addr sample_chain quote_tok [] (world pool9 (snd pool5)) (sample_call operator 100) (sample_settle 5 77) pool10
    [EvBatchSettled 5 100] (world pool10 (snd pool5)) (sample_call operator 100) (sample_settle 6 77)).
  - apply sample_here. done.
  - apply sample_settled.
  - apply wr_nil.
  - apply sample_here. done.
  - right. reflexivity.
Defined.

Definition pool_requested : DarkPool Base := Eval vm_compute in run_call (trader 1) pool9 (CRequestUnreserve quote_tok 400000000).

Lemma sample_requested :
  wstep pool_addr sample_chain quote_tok (Some (CRequestUnreserve quote_tok 400000000)) (world pool9 (snd pool5)) (world pool_requested (snd pool5)).
Proof.
  apply (sample_call_step (trader 1) _ pool9 pool_requested (snd pool5) 100 [EvUnreserveRequested (trader 1) quote_tok 400000000 3700]);
    [done|vm_compute; split; discriminate|by_run].
Qed.

Lemma reserve_locked_witness :
  reserve_of (world pool9 (snd pool5)) (trader 1, quote_tok) - pending_of (world pool9 (snd pool5)) (trader 1, quote_tok) - (0 + 0) <=
  reserve_of (world pool_requested (snd pool5)) (trader 1, quote_tok).
Proof.
  apply (reserve_locked pool_addr sample_chain quote_tok (trader 1, quote_tok) (0 + 0) (world pool9 (snd pool5)) (world pool_requested (snd pool5))).
  - apply pool9_ok.
  - apply (sr_cons pool_addr sample_chain quote_tok (trader 1, quote_tok) (Some (CRequestUnreserve quote_tok 400000000)) 0
      (world pool9 (snd pool5)) (world pool_requested (snd pool5)) (world pool_requested (snd pool5))).
    + apply sample_requested.
    + apply sr_nil.
  - reflexivity.
Defined.

Lemma settlement_exact_witness :
  exists ms ls, [sample_match] = ms /\ Forall2 (amounts_of (sample_call operator 100)) ms ls /\
    (forall k, amount (balances (escrow pool10)) k = amount (balances (escrow pool9)) k + total (receives fees) ms ls k /\
      amount (reserved (escrow pool10)) k = amount (reserved (escrow pool9)) k - total pays ms ls k /\
      0 <= amount (reserved (escrow pool10)) k) /\
    forall t, owed t (escrow pool10) = owed t (escrow pool9).
Proof.
  apply (settlement_exact pool_addr sample_chain (sample_call operator 100) (world pool9 (snd pool5)) (sample_settle 5 77) pool10 [EvBatchSettled 5 100]).
  - apply sample_here. done.
  - constructor; [|constructor]. vm_compute. split; split; discriminate.
  - apply pool9_ok.
  - reflexivity.
  - apply sample_settled.
Defined.

(** A session proven for the match, settled with it and with one that differs in
    the identifiers of its orders. *)
Definition session_acc : Z := Eval vm_compute in match settlementChain (settlementDomain pool9) [sample_match] with Ok c => c | Err _ => 0 end.
Definition pool_session : DarkPool Base := Eval vm_compute in
  pool_or (submitSession (sample_call operator 100) pool9 5 [] [0; 0; 0; settlementDomain pool9; 0] [0; 0; 7; session_acc; 0] 1 7).
Definition other_match : SolMatch := mkSolMatch 8 9 (trader 1) (trader 2) base_tok quote_tok (100 * 10 ^ 18) (3 * 10 ^ 18).
Definition pool_session_settled : DarkPool Base := Eval vm_compute in pool_or (settleAuction (sample_call operator 100) pool_session 5 77 [sample_match]).

Lemma settlement_binding_witness :
  (forall p2 ev2, settleAuction (sample_call operator 100) pool_session 5 77 [other_match] = Ok (p2, ev2) ->
    map terms [sample_match] = map terms [other_match] \/ broken (settlementDomain pool_session) [sample_match] [other_match]) /\
  (map terms [sample_match] = map terms [other_match] ->
    forall x, fold_checked (settleMatch (sample_call operator 100) (feeRecipient (settings pool_session))) (escrow pool_session) [other_match] = Ok x ->
    exists p2 ev2, settleAuction (sample_call operator 100) pool_session 5 77 [other_match] = Ok (p2, ev2) /\ escrow p2 = x).
Proof.
  apply (settlement_binding (sample_call operator 100) pool_session 5 77 [sample_match] [other_match] pool_session_settled [EvAuctionSettled 5 77]). by_run.
Defined.
