(* ===== verification/VerifierExamples.v ===== *)
(** * A concrete verifier

    The curve of [Groth16Examples.v] in words: a residue is its smaller
    multiple of plus or minus one, with the sign in the second word.  Two proofs
    under one key, a batch of them, a proxy, a deployment and a settled batch
    show that the hypotheses of [Groth16Verifier.v] and [VerifierProxy.v] can
    hold. *)

From S2P Require Import Prelude Decimal Types Field Prime Poly Groth16 Groth16Facts Groth16Examples Evm PoseidonConstants PoseidonBN254.
From S2P Require Import Groth16Verifier DarkPool VerifierProxy PoolFunds PoolSafety Examples PoolExamples.
Open Scope Z_scope.

#[local] Existing Instances sample_tokens fr_ops fr_laws fr_inverses fr_inverses_laws residue_group residue_group_laws product_pairing product_pairing_laws
  sample_base sample_base_laws sample_keccak sample_poseidon5.

(** ** Words *)

Definition word_point (w : Word2) : option Fr :=
  let '(x, y) := w in
  if (x =? 0) && (y =? 0) then Some fr_zero
  else if (0 <? x) && (2 * x <? FR) then
    if y =? 1 then Some (mk_fr x) else if y =? PRIME_Q - 1 then Some (mk_fr (- x)) else None
  else None.

Definition point_word (p : Fr) : Word2 :=
  let z := fr_to_Z p in
  if z =? 0 then (0, 0) else if 2 * z <? FR then (z, 1) else (FR - z, PRIME_Q - 1).

#[local] Instance residue_words : CurveWords Fr Fr := {|
  g1_of := word_point;
  g1_words := point_word;
  g2_of '(x1, _, _) := if (0 <=? x1) && (x1 <? FR) then Some (mk_fr x1) else None
|}.

#[local] Instance residue_precompiles : Precompiles := {|
  pre_ecAdd ax ay bx b_y :=
    match g1_of (ax, ay), g1_of (bx, b_y) with Some p, Some q => Some (g1_words (fr_add p q)) | _, _ => None end;
  pre_ecMul x y s := match g1_of (x, y) with Some p => Some (g1_words (fr_mul p (fr_of_Z s))) | None => None end;
  pre_ecPairing ws :=
    match pairs_of (G1:=Fr) (G2:=Fr) ws with
    | Some l => Some (if fr_eqb (g_sum (map (fun '(p, q) => fr_mul p q) l)) fr_zero then 1 else 0)
    | None => None
    end
|}.

Lemma FR_odd z : 2 * z <> FR.
Proof. unfold FR. lia. Qed.

Lemma word_point_word p : word_point (point_word p) = Some p.
Proof.
  unfold point_word. pose proof (fr_to_Z_range p) as Hr. assert (HQ : 1 < PRIME_Q - 1) by (unfold PRIME_Q; lia).
  assert (Hmk : forall z, z mod FR = fr_to_Z p -> mk_fr z = p) by (intros z Hz; apply fr_to_Z_inj; exact Hz).
  destruct (Z.eqb_spec (fr_to_Z p) 0) as [H0|H0].
  { cbn. f_equal. apply fr_to_Z_inj. rewrite H0. done. }
  destruct (Z.ltb_spec (2 * fr_to_Z p) FR) as [H2|H2]; unfold word_point.
  - destruct (Z.eqb_spec (fr_to_Z p) 0); [done|]. cbn [andb]. replace (0 <? fr_to_Z p) with true by lia. replace (2 * fr_to_Z p <? FR) with true by lia.
    cbn [andb Z.eqb]. f_equal. apply Hmk. by apply Z.mod_small.
  - pose proof (FR_odd (fr_to_Z p)). destruct (Z.eqb_spec (FR - fr_to_Z p) 0); [lia|]. cbn [andb].
    replace (0 <? FR - fr_to_Z p) with true by lia. replace (2 * (FR - fr_to_Z p) <? FR) with true by lia. cbn [andb].
    destruct (Z.eqb_spec (PRIME_Q - 1) 1); [lia|]. rewrite Z.eqb_refl. f_equal. apply Hmk.
    replace (- (FR - fr_to_Z p)) with (fr_to_Z p + -1 * FR) by lia. rewrite Z.mod_add by discriminate. by apply Z.mod_small.
Qed.

Lemma mk_fr_neg z : fr_neg (mk_fr z) = mk_fr (- z).
Proof. apply fr_to_Z_inj. rewrite fr_neg_spec. change (fr_to_Z (mk_fr z)) with (z mod FR). change (fr_to_Z (mk_fr (- z))) with ((- z) mod FR).
  rewrite <- Z.sub_0_l, Zminus_mod_idemp_r, Z.sub_0_l. done. Qed.

Lemma word_point_neg x y p : word_point (x, y) = Some p -> (x =? 0) && (y =? 0) = false ->
  y <= PRIME_Q /\ word_point (x, PRIME_Q - y) = Some (fr_neg p).
Proof.
  assert (HQ : 1 < PRIME_Q - 1) by (unfold PRIME_Q; lia). unfold word_point at 1. intros H H0. rewrite H0 in H. destruct ((0 <? x) && (2 * x <? FR)) eqn:Hx; [|done].
  apply andb_true_iff in Hx as Hx'. unfold word_point. replace (x =? 0) with false by lia. cbn [andb]. rewrite Hx.
  destruct (Z.eqb_spec y 1) as [->|Hy1].
  - injection H as <-. split; [lia|]. destruct (Z.eqb_spec (PRIME_Q - 1) 1); [lia|]. by rewrite Z.eqb_refl, mk_fr_neg.
  - destruct (Z.eqb_spec y (PRIME_Q - 1)) as [->|]; [|done]. injection H as <-. split; [lia|].
    replace (PRIME_Q - (PRIME_Q - 1)) with 1 by lia. cbn [Z.eqb]. rewrite mk_fr_neg. by rewrite Z.opp_involutive.
Qed.

#[local] Instance residue_precompile_laws : PrecompileLaws Fr Fr Fr Fr (list Fr).
Proof.
  split; try done.
  - exact word_point_word.
  - exact word_point_neg.
Qed.

(** ** Two proofs *)

Definition sample_vk2 : VerifyingKey Fr Fr := mkVerifyingKey (mk_fr 2) (mk_fr 3) (mk_fr 5) (mk_fr 7) (replicate 7 (mk_fr 1)).

Definition plus (n : Z) : Word2 := (n, 1).
Definition twist (n : Z) : Word22 := (n, 0, (0, 0)).

Definition sample_verifier : Groth16Verifier := mkGroth16Verifier (plus 2) (twist 3) (twist 5) (twist 7) (replicate 7 (plus 1)).

Lemma sample_key_words : key_words sample_verifier sample_vk2.
Proof. split; try by_run. repeat (constructor; [by_run|]). constructor. Qed.

Definition sample_inputs : list Z := [1; 2; 3; 4; 5; 6].

(** [2 * 3 + 22 * 5 + 1 * 7 = 123 * 1 = 41 * 3] *)
Definition proof1 : SolProof := mkSolProof (plus 123) (twist 1) (plus 1).
Definition proof2 : SolProof := mkSolProof (plus 41) (twist 3) (plus 1).
Definition pf1 : Proof Fr Fr := mkProof (mk_fr 123) (mk_fr 1) (mk_fr 1).
Definition pf2 : Proof Fr Fr := mkProof (mk_fr 41) (mk_fr 3) (mk_fr 1).

Lemma contract_agrees_witness :
  exists b, Groth16Verifier.verifyProof sample_verifier proof1 sample_inputs = Ok b /\
    verify_with_processed_vk (prepare_verifying_key sample_vk2) (map fr_of_Z sample_inputs) pf1 = Ok b.
Proof.
  apply (contract_agrees (F:=Fr) sample_verifier sample_vk2 proof1 pf1 sample_inputs).
  - exact sample_key_words.
  - split; by_run.
  - reflexivity.
  - by_run.
Defined.

Lemma sample_batch_words : batch_words sample_verifier sample_vk2 [proof1; proof2] [pf1; pf2] [sample_inputs; sample_inputs].
Proof.
  split; [exact sample_key_words| | |done].
  - by repeat (constructor; [split; by_run|]).
  - by repeat (constructor; [split; [reflexivity|by_run]|]).
Qed.

Definition sample_as : list Word2 := [sp_a proof1; sp_a proof2].
Definition sample_bs : list Word22 := [sp_b proof1; sp_b proof2].
Definition sample_cs : list Word2 := [sp_c proof1; sp_c proof2].

Definition sample_challenge : Z := Eval vm_compute in
  be_value (keccak256 (transcript (proofs_of sample_as sample_bs sample_cs) [sample_inputs; sample_inputs])) mod Groth16Verifier.SNARK_SCALAR_FIELD.

Lemma sample_both_verify : Forall2 (fun p input => Groth16Verifier.verifyProof sample_verifier p input = Ok true) [proof1; proof2] [sample_inputs; sample_inputs].
Proof. by repeat (constructor; [by_run|]). Qed.

Lemma batch_complete_witness : verifyProofBatch sample_verifier 1 sample_as sample_bs sample_cs [sample_inputs; sample_inputs] = Ok true.
Proof.
  apply (batch_complete (F:=Fr) sample_verifier sample_vk2 1 sample_as sample_bs sample_cs [pf1; pf2] [sample_inputs; sample_inputs] sample_challenge).
  - exact sample_batch_words.
  - cbn. lia.
  - by vm_compute.
  - reflexivity.
  - reflexivity.
  - by_run.
  - exact sample_both_verify.
Defined.

Lemma batch_sound_witness :
  Forall2 (fun p input => Groth16Verifier.verifyProof sample_verifier p input = Ok true) [proof1; proof2] [sample_inputs; sample_inputs].
Proof.
  apply (batch_sound (F:=Fr) sample_verifier sample_vk2 [proof1; proof2] [pf1; pf2] [sample_inputs; sample_inputs] fr_one [2; 3]).
  - intros x. exists x. symmetry. apply (Rmul_1_l fr_ring_theory).
  - exact sample_batch_words.
  - apply NoDup_cons. split; [intros H%list_elem_of_singleton; lia|apply NoDup_singleton].
  - by repeat (constructor; [by vm_compute|]).
  - reflexivity.
  - by repeat (constructor; [by_run|]).
Defined.

(** ** A proxy and a deployment *)

Definition proxy_addr : Address := word20 20.
Definition groth_addr : Address := word20 21.
Definition decider_addr : Address := word20 22.

Definition proxy_env : CallEnv := mkCallEnv owner 100 1 proxy_addr (fun _ => 1) (fun _ => Err []) (fun _ _ _ => Err []) (fun _ _ _ _ _ => Err []).

Definition sample_proxy : VerifierProxy Base := mkVerifierProxy (oz_new owner) groth_addr address_0.

Lemma proxy_guarded_witness : pointers_ok proxy_addr sample_proxy.
Proof.
  apply (proxy_guarded proxy_addr sample_proxy).
  - by vm_compute.
  - by eapply (proxy_created proxy_addr proxy_env groth_addr owner).
Defined.

(** On a real chain, with a decider that is not the stub. *)
Definition mainnet : DeployEnv :=
  mkDeployEnv 1 100 fees sample_pubkey owner (Some (word20 30)) (Some (word20 31)) (Some decider_addr) (Some base_tok) None
    (plus 2, twist 3, twist 5, twist 7, replicate 7 (plus 1)) groth_addr proxy_addr pool_addr (word20 40) (fun _ => 1)
    (fun a => if bool_decide (a = decider_addr) then 7 else 9) 9.

Definition mainnet_deployment : Deployment Base := Eval vm_compute in
  match deploy_run (B:=Base) mainnet with Ok d => d | Err _ => mkDeployment sample_verifier sample_proxy no_pool [] end.

Lemma deployment_guarded_witness :
  ivcEnabled (settings (dd_pool mainnet_deployment)) = false /\ de_codehash mainnet (dd_ivcImpl mainnet_deployment) <> stub_codehash mainnet /\
  oz_owner (dp_base (dd_pool mainnet_deployment)) = owner /\ oz_pendingOwner (dp_base (dd_pool mainnet_deployment)) = word20 31.
Proof.
  destruct (deployment_guarded (T:=Ledger) mainnet mainnet_deployment) as (_ & ([Ho Hp] & _) & _ & _ & Hc & _ & He & _).
  - by_run.
  - split_and!; [exact He|exact Hc|exact Ho|exact Hp].
Defined.

(** ** A settled batch *)

Definition settle_inputs : list Z := [1; 0; 0; 0; 0; 0].

(** [2 * 3 + 2 * 5 + 1 * 7 = 23 * 1] *)
Definition settle_proof : bytes := flat_map (be_bytes 32) [23; 1; 1; 0; 0; 0; 1; 1].

Definition wired_proxy : VerifierProxy Base := mkVerifierProxy (oz_new owner) groth_addr decider_addr.

(** The pool's verifier is the proxy; behind it is the contract. *)
Definition wired_env : CallEnv :=
  mkCallEnv operator 100 sample_chain pool_addr (fun _ => 1) (fun t => Ok (if bool_decide (t = quote_tok) then 6 else 18))
    (fun _ g input => Groth16Verifier.verifyProof sample_verifier (sol_proof g) input) (fun _ _ _ _ _ => Ok true).

Definition settled_pool : DarkPool Base * list PoolEvent := Eval vm_compute in
  match submitBatch wired_env pool7 1 2 settle_proof settle_inputs [sample_match] with Ok r => r | Err _ => (no_pool, []) end.

Lemma settled_batch_proved_witness :
  in_field settle_inputs = true /\ exists pf, reads_as (G1:=Fr) (G2:=Fr) (sol_proof (decodeProof settle_proof)) pf /\
    verify_with_processed_vk (prepare_verifying_key sample_vk2) (map fr_of_Z settle_inputs) pf = Ok true.
Proof.
  apply (settled_batch_proved (F:=Fr) wired_env pool7 wired_proxy sample_verifier sample_vk2 1 2 settle_proof settle_inputs [sample_match] settled_pool).
  - by split.
  - exact sample_key_words.
  - reflexivity.
  - by_run.
Defined.
