(* ===== verification/EndToEndExamples.v ===== *)
(** * The whole way, on a concrete run

    The engine's run of [Examples] and the deployment of [PoolExamples] joined by
    a folding scheme that carries the states themselves: the hypotheses of the
    theorems about the circuit, the aggregator, the submitter and the contract
    hold together. *)

From S2P Require Import Prelude Decimal Types Field Auction Events Book Merkle EngineState Engine Admission Witness Tick Batch Machine.
From S2P Require Import Rounds Provable Examples Prime Circuit CircuitFacts Folding Evm PoseidonConstants PoseidonBN254 DarkPool.
From S2P Require Import PoolFunds PoolSafety Settlement EndToEnd Resubmit PoolExamples.
Open Scope Z_scope.

#[local] Existing Instances fr_ops fr_laws small_poseidon canonical_iter sample_sha sample_hex sample_hex_laws sample_addr
  sample_base sample_base_laws sample_tokens sample_keccak sample_poseidon5.

(** ** Instances *)

#[local] Instance sample_port : PoseidonPort Fr.
Proof. split. intros a b c d e. cbn [poseidon small_poseidon hash5 sample_poseidon5 fold_left]. done. Qed.

#[local] Instance sample_u256 : U256Text Z := {|
  u256_from_str_radix s := match s with [z] => Ok (z / 10 ^ 28) | _ => Err (str "digit") end;
  dec_from_u256_text raw := if raw <? 2 ^ 96 then Ok (raw * 10 ^ 28) else Err (str "range")
|}.

(** Proofs are the states, which serialize to ten scalars. *)
Definition IvcProof : Type := list Fr * list Fr.

Fixpoint read_scalars (n : nat) (b : bytes) : list Fr :=
  match n with O => [] | S n' => fr_of_Z (be_value (take 32 b)) :: read_scalars n' (drop 32 b) end.

Lemma read_scalars_app (l : list Fr) b : read_scalars (length l) (flat_map fr_to_bytes32 l ++ b) = l.
Proof.
  revert b; induction l as [|x l IH]; intros b; [done|]. cbn [length read_scalars flat_map]. rewrite <- app_assoc.
  assert (Hx : length (fr_to_bytes32 x) = 32%nat) by exact (length_be_bytes 32 (fr_to_Z x)).
  rewrite take_app_length', drop_app_length' by done. rewrite IH. f_equal.
  unfold fr_to_bytes32. rewrite (be_value_be_bytes 32) by apply fr_to_Z_bytes. apply fr_of_to_Z.
Qed.

Lemma length_scalars (l : list Fr) : length (flat_map fr_to_bytes32 l) = (32 * length l)%nat.
Proof.
  induction l as [|x l IH]; [done|]. cbn [flat_map length].
  assert (Hx : length (fr_to_bytes32 x) = 32%nat) by exact (length_be_bytes 32 (fr_to_Z x)). rewrite length_app, IH, Hx. lia.
Qed.

#[local] Instance sample_hn : HyperNova Fr (nat * list Fr * list Fr) IvcProof := {|
  hn_init bs z_0 := Ok (bs, z_0, z_0);
  hn_prove_step rng h ext :=
    match step (fst (fst h)) (snd h) ext with
    | Ret (Some z') => (fst (fst h), snd (fst h), z', Some (Ok tt))
    | Ret None => (h, Some (Err (str "unsatisfied")))
    | Panic => (h, None)
    end;
  hn_ivc_proof h := (snd (fst h), snd h);
  ivc_z_0 := fst;
  ivc_z_i := snd;
  ivc_serialize p := Ok (flat_map fr_to_bytes32 (fst p) ++ flat_map fr_to_bytes32 (snd p));
  ivc_deserialize b := Ok (read_scalars 5 b, read_scalars 5 (drop 160 b));
  hn_verify _ := Ok tt
|}.

Lemma step_length bs z ext z' : step bs z ext = Ret (Some z') -> length z' = 5%nat.
Proof.
  unfold step. intros (ext' & _ & Hs)%outcome_bind_Ret. unfold generate_step_constraints in Hs.
  do 5 (apply outcome_bind_Ret in Hs as (? & _ & Hs)). cbv zeta in Hs. destruct (negb _); [done|]. injection Hs as Hs.
  apply enforce_Some in Hs as [_ Hs]. destruct (rows_constraints _ _ _); [|done]. by injection Hs as <-.
Qed.

#[local, refine] Instance sample_hn_laws : HyperNovaLaws Fr (nat * list Fr * list Fr) IvcProof := {|
  hn_at bs z_0 z h := h = (bs, z_0, z) /\ length z_0 = 5%nat /\ length z = 5%nat
|}.
Proof.
  - intros bs z_0 Hl. by eexists.
  - intros rng bs z_0 z z' h ext (-> & H0 & _) Hs. cbn [hn_prove_step sample_hn fst snd]. rewrite Hs.
    eexists. split; [reflexivity|]. split_and!; [done|done|by eapply step_length].
  - intros bs z_0 z h (-> & H0 & H1). cbn [hn_ivc_proof ivc_z_0 ivc_z_i hn_verify ivc_serialize ivc_deserialize sample_hn fst snd].
    split_and!; [done|done|done|]. eexists. split; [reflexivity|].
    pose proof (read_scalars_app z_0 (flat_map fr_to_bytes32 z)) as R0. pose proof (read_scalars_app z []) as R1.
    rewrite H0 in R0. rewrite H1, app_nil_r in R1. rewrite drop_app_length' by (by rewrite length_scalars, H0). by rewrite R0, R1.
Defined.

#[local] Instance sample_u256_laws : U256TextLaws Z.
Proof.
  split.
  - intros d Hd. change (dec_to_string (dec_trunc d)) with [units (dec_trunc d)]. cbn [u256_from_str_radix sample_u256].
    rewrite dec_trunc_units, Z.div_mul, Z.quot_div_nonneg by lia. done.
  - intros raw Hr. cbn [dec_from_u256_text sample_u256]. destruct (Z.ltb_spec raw (2 ^ 96)); [|lia]. eexists. split; [reflexivity|].
    apply dec_units_id, representable_int. lia.
  - intros raw Hr. cbn [dec_from_u256_text sample_u256]. destruct (Z.ltb_spec raw (2 ^ 96)); [lia|]. by eexists.
Qed.

(** ** The chunk of the run *)

Definition is_addressb (a : Address) : bool := (length a =? 20)%nat && forallb (fun x => (0 <=? x) && (x <? 256)) a.

Lemma is_addressb_true a : is_addressb a = true -> is_address a.
Proof.
  intros [Hl%Nat.eqb_eq Hb]%andb_true_iff. split; [done|]. rewrite forallb_forall in Hb. apply Forall_forall.
  intros x Hx%list_elem_of_In. apply Hb in Hx. apply andb_true_iff in Hx as [?%Z.leb_le ?%Z.ltb_lt]. unfold is_byte. lia.
Qed.

Lemma chunk1_ticked : ticked_chunk tick_env eng3 eng4 chunk1.
Proof.
  split.
  - apply eng3_reachable.
  - apply room_by_run. by_run.
  - exists (snd (fst ticked)), (snd ticked). split; [by_run|]. apply list_elem_of_lookup. exists 0%nat. by_run.
  - apply chunk1_provable.
  - apply chunk1_fits.
  - apply (map_Forall_by_run (fun o : Order Z => is_address (o_trader o)) (fun o => is_addressb (o_trader o))); [|by_run].
    intros o. apply is_addressb_true.
Qed.

Definition fundedb (secrets : gmap Uuid (OrderSecrets Z)) (mt : Match Z) : bool :=
  match secrets !! fill_order_id (match_bid_fill mt), secrets !! fill_order_id (match_ask_fill mt) with
  | Some bsec, Some asec =>
    (units (match_price mt) * units (match_size mt) <=? units (s_balance bsec) * 10 ^ 28) && (units (match_size mt) <=? units (s_balance asec)) &&
    (Z.abs (s_position bsec + lots (match_size mt)) <=? POSITION_LIMIT) && (Z.abs (s_position asec - lots (match_size mt)) <=? POSITION_LIMIT)
  | _, _ => true
  end.

Lemma fundedb_true secrets mt : fundedb secrets mt = true -> match_funded secrets mt.
Proof.
  unfold fundedb, match_funded. intros Hf bsec asec Hb Ha. rewrite Hb, Ha, !andb_true_iff, !Z.leb_le in Hf. tauto.
Qed.

Lemma chunk1_funded : Forall (match_funded (e_secrets eng4)) (pa_matches chunk1).
Proof.
  apply Forall_forall. intros mt Hmt. apply fundedb_true.
  assert (Hall : forallb (fundedb (e_secrets eng4)) (pa_matches chunk1) = true) by by_run.
  rewrite forallb_forall in Hall. by apply Hall, list_elem_of_In.
Qed.

Lemma chunk_step_exact_witness :
  exists ext sm, fold_inputs (F:=Fr) eng4 chunk1 = Ret (Some ext) /\
    build_settlement_matches (pa_orders chunk1) (es_pair_tokens (e_state eng4)) (pa_matches chunk1) = Ok sm /\
    ((exists z', step 8 [fr_zero; fr_zero; policy_hash; fr_one; fr_zero] ext = Ret (Some z')) <-> Forall (match_funded (e_secrets eng4)) (pa_matches chunk1)) /\
    (forall z', step 8 [fr_zero; fr_zero; policy_hash; fr_one; fr_zero] ext = Ret (Some z') ->
      exists h' ad', z' = [h'; (fr_zero + fr_one)%fr; policy_hash; settlement_chain fr_one (map tuple_of sm); ad']).
Proof.
  apply (chunk_step_exact (F:=Fr) tick_env eng3 eng4 chunk1 8 fr_zero fr_zero fr_one fr_zero).
  - apply chunk1_ticked.
  - apply Nat.leb_le. reflexivity.
Defined.

Definition ext1 : AuctionExternalInputs Fr := default no_inputs (the_inputs eng4 chunk1).

Lemma step_exact_witness :
  step 8 [fr_zero; fr_zero; policy_hash; fr_one; fr_zero] ext1 = Ret (Some (next_state fr_zero fr_zero policy_hash fr_one fr_zero (padded ext1))) <->
  policy_hash = poseidon [ai_min_size ext1; ai_min_price ext1; ai_position_limit ext1] /\
  Forall (row_ok ext1) (ai_matches ext1) /\
  next_state fr_zero fr_zero policy_hash fr_one fr_zero (padded ext1) = next_state fr_zero fr_zero policy_hash fr_one fr_zero (padded ext1).
Proof.
  apply (step_exact 8 fr_zero fr_zero policy_hash fr_one fr_zero [] ext1 (next_state fr_zero fr_zero policy_hash fr_one fr_zero (padded ext1))).
  - split_and!; vm_compute; reflexivity.
  - apply Nat.leb_le. reflexivity.
  - apply Nat.leb_le. by_run.
Defined.

(** ** A first round *)

Definition sample_agg : InlineFoldingAggregator Fr (nat * list Fr * list Fr) :=
  new_with_settlement_domain 8 1 (fr_of_Z (settlementDomain pool9)).

Lemma sample_same : same_caller (sample_call operator 100) (sample_call operator 100).
Proof. done. Qed.

Lemma sample_open : session_open (sample_call operator 100) pool9 900 77.
Proof. split; first [by_run|vm_compute; discriminate]. Qed.

Lemma sample_typed_env : typed_env (sample_call operator 100).
Proof. split; [done|]. intros token d. simpl. intros [= <-]. case_bool_decide; lia. Qed.

Definition sm1 : list (SettlementMatch Z) := Eval vm_compute in
  match build_settlement_matches (pa_orders chunk1) (es_pair_tokens (e_state eng4)) (pa_matches chunk1) with Ok sm => sm | Err _ => [] end.

Lemma sm1_built : build_settlement_matches (pa_orders chunk1) (es_pair_tokens (e_state eng4)) (pa_matches chunk1) = Ok sm1.
Proof. by_run. Qed.

Definition sol1 : list SolMatch := Eval vm_compute in map sol_of sm1.
Definition legs1 : leg_amounts := Eval vm_compute in
  match sol1 with
  | m :: _ => mkLegs (sol_size m * 10 ^ 18 / 10 ^ 18) (sol_price m * sol_size m / 10 ^ 18 * 10 ^ 6 / 10 ^ 18)
  | [] => mkLegs 0 0
  end.

Lemma sample_reserves : reserves_cover (sample_call operator 100) pool9 sol1.
Proof.
  exists [legs1]. split_and!.
  - constructor; [|constructor]. exists 18, 6. split_and!; vm_compute; first [reflexivity|discriminate].
  - intros k. destruct (decide (k = (trader 1, quote_tok))) as [->|]; [vm_compute; discriminate|].
    destruct (decide (k = (trader 2, base_tok))) as [->|]; [vm_compute; discriminate|].
    pose proof (ao_reserved _ _ (pool9_ok k)) as [Hr _]. revert Hr. generalize (amount (reserved (escrow pool9)) k). intros r Hr.
    unfold sol1, total, pays. cbn [zip_with zsum foldr bidTrader askTrader baseToken quoteToken].
    do 2 (rewrite decide_False by (intros <-; done)). lia.
  - intros k. destruct (decide (k = (trader 1, base_tok))) as [->|]; [vm_compute; discriminate|].
    destruct (decide (k = (trader 2, quote_tok))) as [->|]; [vm_compute; discriminate|].
    destruct (decide (k = (fees, quote_tok))) as [->|]; [vm_compute; discriminate|].
    pose proof (ao_balance _ _ (pool9_ok k)) as [_ Hb]. revert Hb. generalize (amount (balances (escrow pool9)) k). intros r Hr.
    unfold sol1, total, receives. cbn [zip_with zsum foldr bidTrader askTrader baseToken quoteToken].
    do 3 (rewrite decide_False by (intros <-; done)). lia.
Qed.

Lemma sample_complete : verifier_complete (F:=Fr) (H:=nat * list Fr * list Fr) (P:=IvcProof) (sample_call operator 100) pool9.
Proof. intros fp _. reflexivity. Qed.

Lemma sample_cover sm :
  build_settlement_matches (pa_orders chunk1) (es_pair_tokens (e_state eng4)) (pa_matches chunk1) = Ok sm ->
  reserves_cover (sample_call operator 100) pool9 (map sol_of sm).
Proof. rewrite sm1_built. intros [= <-]. exact sample_reserves. Qed.

Lemma first_round_settles_witness :
  exists ext a' fp sm sol p1 ev1 p2, fold_inputs (F:=Fr) eng4 chunk1 = Ret (Some ext) /\ inline_fold_step 5 sample_agg (pa_pair chunk1) ext = (a', Ok tt) /\
    inline_finalize a' (pa_pair chunk1) = Ok fp /\
    build_settlement_matches (pa_orders chunk1) (es_pair_tokens (e_state eng4)) (pa_matches chunk1) = Ok sm /\ matches_to_sol sm = Ret (Ok sol) /\
    submitSession (sample_call operator 100) pool9 900 (fp_proof_bytes fp) (session_words (fp_z_0 fp)) (session_words (fp_z_n fp)) (fp_n_steps fp)
      (be_value (fr_to_bytes32 (fp_policy_hash fp))) = Ok (p1, ev1) /\
    settleAuction (sample_call operator 100) p1 900 77 sol = Ok (p2, [EvAuctionSettled 900 77]).
Proof.
  apply (first_round_settles (P:=IvcProof) tick_env 5 eng3 eng4 chunk1 sample_agg pool9 (sample_call operator 100) (sample_call operator 100) 900 77).
  - apply chunk1_ticked.
  - apply chunk1_funded.
  - reflexivity.
  - apply Nat.leb_le. reflexivity.
  - reflexivity.
  - apply sample_same.
  - apply sample_open.
  - apply sample_complete.
  - apply sample_typed_env.
  - apply pool9_ok.
  - apply sample_cover.
Defined.

(** ** A later round *)

Definition later_z_0 : list Fr := [fr_zero; fr_zero; fr_zero; fr_of_Z (settlementDomain pool9); fr_zero].
Definition later_z : list Fr := [fr_one; fr_one; policy_hash; fr_one; fr_one].
Definition later_agg : InlineFoldingAggregator Fr (nat * list Fr * list Fr) :=
  mkInlineAggregator {[pa_pair chunk1 := mkIvcRoundState (mkFoldingAccumulator (8%nat, later_z_0, later_z) later_z_0 1) 1]}
    8 (fr_of_Z (settlementDomain pool9)) 1.

Lemma later_chain : chain_at (P:=IvcProof) later_agg (pa_pair chunk1) later_z_0 later_z 1.
Proof. eexists. split; [apply lookup_singleton_eq|]. done. Qed.

Lemma later_differ : fr_one <> fr_of_Z (F:=Fr) (settlementDomain pool9).
Proof. intros Heq%(f_equal fr_to_Z). revert Heq. vm_compute. discriminate. Qed.

Lemma later_collides_not sm :
  build_settlement_matches (pa_orders chunk1) (es_pair_tokens (e_state eng4)) (pa_matches chunk1) = Ok sm ->
  ~ chains_collide (F:=Fr) (fr_of_Z (settlementDomain pool9)) fr_one (map tuple_of sm).
Proof.
  rewrite sm1_built. intros [= <-] (t1 & t2 & H1 & H2 & _ & Hp). unfold sm1 in H1, H2. cbn [map chain_tuples] in H1, H2.
  apply list_elem_of_singleton in H1 as ->. apply list_elem_of_singleton in H2 as ->.
  apply (f_equal fr_to_Z) in Hp. revert Hp. vm_compute. discriminate.
Qed.

Lemma later_round_reverts_witness :
  exists ext a' fp sm sol p1 ev1, fold_inputs (F:=Fr) eng4 chunk1 = Ret (Some ext) /\ inline_fold_step 5 later_agg (pa_pair chunk1) ext = (a', Ok tt) /\
    inline_finalize a' (pa_pair chunk1) = Ok fp /\
    build_settlement_matches (pa_orders chunk1) (es_pair_tokens (e_state eng4)) (pa_matches chunk1) = Ok sm /\ matches_to_sol sm = Ret (Ok sol) /\
    submitSession (sample_call operator 100) pool9 900 (fp_proof_bytes fp) (session_words (fp_z_0 fp)) (session_words (fp_z_n fp)) (fp_n_steps fp)
      (be_value (fr_to_bytes32 (fp_policy_hash fp))) = Ok (p1, ev1) /\
    settleAuction (sample_call operator 100) p1 900 77 sol = Err (str "settlement binding").
Proof.
  apply (later_round_reverts (P:=IvcProof) tick_env 5 eng3 eng4 chunk1 later_agg pool9 (sample_call operator 100) (sample_call operator 100) 900 77
    fr_zero fr_zero fr_zero fr_zero fr_one fr_one fr_one fr_one 1).
  - apply chunk1_ticked.
  - apply chunk1_funded.
  - apply later_chain.
  - vm_compute. split; [discriminate|reflexivity].
  - apply Nat.leb_le. reflexivity.
  - vm_compute. split; [discriminate|reflexivity].
  - apply later_differ.
  - apply later_collides_not.
  - apply sample_same.
  - apply sample_open.
  - apply sample_complete.
Defined.

(** ** A retry *)

(** A chain of one contract, whose transactions come from the operator. *)
#[local] Instance sample_rpc : RpcOps (DarkPool Base) := {|
  get_transaction_count p _ := (p, Ok 0);
  get_latest_base_fee p := (p, Ok (Some (Some 7)));
  get_max_priority_fee_per_gas p := (p, Ok 1);
  transact p tx := match call (sample_call operator 100) p (tx_call tx) with Ok (p', _) => (p', Ok (true, 1)) | Err _ => (p, Ok (false, 1)) end;
  fmt_tx_hash _ := str "tx"
|}.

#[local, refine] Instance sample_chain_laws : ChainLaws (C:=DarkPool Base) (B:=Base) pool_addr sample_chain := {| chain_pool p := p |}.
Proof.
  - intros. apply kept_refl.
  - intros. apply kept_refl.
  - intros. apply kept_refl.
  - intros p tx. cbn [transact sample_rpc]. destruct (call _ _ _) as [[p' evs]|] eqn:Hc; [|apply kept_refl].
    apply call_did in Hc as (Hd & _). by eapply did_kept.
  - intros p tx p' h. cbn [transact sample_rpc]. destruct (call _ _ _) as [[p2 evs]|] eqn:Hc; [|done]. intros [= <- <-].
    exists (sample_call operator 100), p, p2, evs. split_and!; try done; apply kept_refl.
Defined.

Definition retry_sid : Uuid := 900.
Definition retry_words : list Z := [0; 0; 5; settlementDomain pool9; 0].
Definition pool_recorded : DarkPool Base := Eval vm_compute in
  run_call operator pool9 (CSubmitSession (be_value (uuid_to_bytes32 retry_sid)) [] retry_words retry_words 1 5).

Lemma retry_recorded : session_recorded (C:=DarkPool Base) (B:=Base) pool_addr sample_chain pool_recorded retry_sid.
Proof. intros tenv Ha Hc. unfold sessionKey, domainId. rewrite Ha, Hc. by_run. Qed.

Lemma session_retry_fails_witness :
  (exists err, Err (A:=Str) (Rpc (str "transaction failed")) = Err err) /\
  session_recorded (C:=DarkPool Base) (B:=Base) pool_addr sample_chain pool_recorded retry_sid.
Proof.
  apply (session_retry_fails (D:=Z) pool_addr sample_chain (submitter_new operator sample_chain None) pool_recorded pool_recorded retry_sid [] retry_words
    retry_words 1 (be_bytes 32 5) 77 sm1 (Err (Rpc (str "transaction failed")))).
  - apply retry_recorded.
  - by_run.
Defined.
