(* ===== verification/Text.v ===== *)
(** * Strings of the standard library

    The operations on strings and the text forms of network addresses that the
    server uses: splitting, prefixes, UTF-8, and the parsers and printers of
    [std::net]. *)

From S2P Require Import Prelude Decimal Types.
Open Scope Z_scope.

(** ** Splitting *)

(** A character, as a string of one. *)
Definition char (s : string) : Z := default 0 (head (str s)).
Arguments char s%_string.

Fixpoint strip_prefix (p s : Str) : option Str :=
  match p, s with
  | [], _ => Some s
  | a :: p', b :: s' => if a =? b then strip_prefix p' s' else None
  | _ :: _, [] => None
  end.

(** [split] at the characters of a set; the parts may be empty. *)
Fixpoint split_at (sep : Z -> bool) (s : Str) : list Str :=
  match s with
  | [] => [[]]
  | c :: s' =>
    if sep c then [] :: split_at sep s'
    else match split_at sep s' with [] => [[c]] | p :: ps => (c :: p) :: ps end
  end.

(** [split_once] and [rsplit_once] at a character. *)
Fixpoint split_once (c : Z) (s : Str) : option (Str * Str) :=
  match s with
  | [] => None
  | x :: s' => if x =? c then Some ([], s') else match split_once c s' with Some (a, b) => Some (x :: a, b) | None => None end
  end.

Definition rsplit_once (c : Z) (s : Str) : option (Str * Str) :=
  match split_once c (reverse s) with Some (a, b) => Some (reverse b, reverse a) | None => None end.

(** [split_once] at a string. *)
Fixpoint split_once_str (p s : Str) : option (Str * Str) :=
  match strip_prefix p s with
  | Some r => Some ([], r)
  | None => match s with [] => None | x :: s' => match split_once_str p s' with Some (a, b) => Some (x :: a, b) | None => None end end
  end.

Definition hex_digit (d : Z) : Z := if d <? 10 then 48 + d else 87 + d.

Definition to_ascii_lowercase_char (c : Z) : Z := if (65 <=? c) && (c <=? 90) then c + 32 else c.
Definition to_ascii_lowercase (s : Str) : Str := map to_ascii_lowercase_char s.
Definition is_ascii_alphabetic (c : Z) : bool := ((65 <=? c) && (c <=? 90)) || ((97 <=? c) && (c <=? 122)).

(** ** UTF-8 *)

(** [len] of a string is its number of bytes. *)
Definition utf8_len_char (c : Z) : Z := if c <? 128 then 1 else if c <? 2048 then 2 else if c <? 65536 then 3 else 4.
Definition utf8_len (s : Str) : Z := fold_right (fun c n => utf8_len_char c + n) 0 s.

Definition is_cont (b : Z) : bool := (128 <=? b) && (b <=? 191).

(** [std::str::from_utf8]: no overlong form, no surrogate, nothing above
    [10FFFF]. *)
Fixpoint from_utf8 (b : bytes) : option Str :=
  match b with
  | [] => Some []
  | b0 :: r0 =>
    if b0 <? 128 then cons b0 <$> from_utf8 r0
    else
      match r0 with
      | b1 :: r1 =>
        if (194 <=? b0) && (b0 <=? 223) && is_cont b1 then cons ((b0 - 192) * 64 + (b1 - 128)) <$> from_utf8 r1
        else
          match r1 with
          | b2 :: r2 =>
            let c3 := (b0 - 224) * 4096 + (b1 - 128) * 64 + (b2 - 128) in
            if (224 <=? b0) && (b0 <=? 239) && is_cont b1 && is_cont b2 && (2048 <=? c3) && negb ((55296 <=? c3) && (c3 <=? 57343))
            then cons c3 <$> from_utf8 r2
            else
              match r2 with
              | b3 :: r3 =>
                let c4 := (b0 - 240) * 262144 + (b1 - 128) * 4096 + (b2 - 128) * 64 + (b3 - 128) in
                if (240 <=? b0) && (b0 <=? 244) && is_cont b1 && is_cont b2 && is_cont b3 && (65536 <=? c4) && (c4 <=? 1114111)
                then cons c4 <$> from_utf8 r3
                else None
              | [] => None
              end
          | [] => None
          end
      | [] => None
      end
  end.

(** [as_bytes]. *)
Definition utf8_char (c : Z) : bytes :=
  if c <? 128 then [c]
  else if c <? 2048 then [192 + c / 64; 128 + c mod 64]
  else if c <? 65536 then [224 + c / 4096; 128 + c / 64 mod 64; 128 + c mod 64]
  else [240 + c / 262144; 128 + c / 4096 mod 64; 128 + c / 64 mod 64; 128 + c mod 64].
Definition as_bytes (s : Str) : bytes := flat_map utf8_char s.

(** The values of the type [char]. *)
Definition is_char (c : Z) : Prop := 0 <= c <= 1114111 /\ ~ (55296 <= c <= 57343).

(** ** Network addresses *)

(** An address is its number. *)
Inductive IpAddr := V4 (a : Z) | V6 (a : Z).

#[export] Instance IpAddr_eq_dec : EqDecision IpAddr.
Proof. solve_decision. Defined.

(** The parsers of [std::net] consume a prefix. *)
Definition digit_of (radix c : Z) : option Z :=
  let d := if (48 <=? c) && (c <=? 57) then Some (c - 48)
           else if (97 <=? c) && (c <=? 122) then Some (c - 87)
           else if (65 <=? c) && (c <=? 90) then Some (c - 55)
           else None in
  match d with Some d => if d <? radix then Some d else None | None => None end.

(** The longest run of digits. *)
Fixpoint read_digits (radix : Z) (s : Str) : list Z * Str :=
  match s with
  | c :: s' => match digit_of radix c with Some d => let '(ds, r) := read_digits radix s' in (d :: ds, r) | None => ([], s) end
  | [] => ([], [])
  end.

Definition digits_value (radix : Z) (ds : list Z) : Z := fold_left (fun n d => n * radix + d) ds 0.

(** [max] is the largest value of the target type. *)
Definition read_number (radix : Z) (max_digits : option nat) (allow_zero_prefix : bool) (max : Z) (s : Str) : option (Z * Str) :=
  let '(ds, r) := read_digits radix s in
  let n := digits_value radix ds in
  if (length ds =? 0)%nat then None
  else if match max_digits with Some m => (m <? length ds)%nat | None => false end then None
  else if negb allow_zero_prefix && bool_decide (head ds = Some 0) && (1 <? length ds)%nat then None
  else if max <? n then None
  else Some (n, r).

Definition read_char (c : Z) (s : Str) : option Str := match s with x :: r => if x =? c then Some r else None | [] => None end.

Definition read_octet (s : Str) : option (Z * Str) := read_number 10 (Some 3%nat) false 255 s.

Definition read_ipv4_addr (s : Str) : option (Z * Str) :=
  '(a, s) ← read_octet s;
  s ← read_char (char ".") s; '(b, s) ← read_octet s;
  s ← read_char (char ".") s; '(c, s) ← read_octet s;
  s ← read_char (char ".") s; '(d, s) ← read_octet s;
  Some (((a * 256 + b) * 256 + c) * 256 + d, s).

Definition read_separator {A} (sep : Z) (index : nat) (inner : Str -> option (A * Str)) (s : Str) : option (A * Str) :=
  match index with O => inner s | S _ => s ← read_char sep s; inner s end.

(** Up to [limit] groups of an IPv6 address; whether they end in an embedded
    IPv4 address. *)
Fixpoint read_groups (limit i : nat) (s : Str) : list Z * bool * Str :=
  match limit with
  | O => ([], false, s)
  | S limit' =>
    match (if (1 <=? limit')%nat then read_separator (char ":") i read_ipv4_addr s else None) with
    | Some (v4, s') => ([v4 / 65536; v4 mod 65536], true, s')
    | None =>
      match read_separator (char ":") i (read_number 16 (Some 4%nat) true 65535) s with
      | Some (g, s') => let '(gs, e, r) := read_groups limit' (S i) s' in (g :: gs, e, r)
      | None => ([], false, s)
      end
    end
  end.

Definition groups_value (gs : list Z) : Z := fold_left (fun n g => n * 65536 + g) gs 0.

Definition read_ipv6_addr (s : Str) : option (Z * Str) :=
  let '(head, head_ipv4, s) := read_groups 8 0 s in
  if (length head =? 8)%nat then Some (groups_value head, s)
  else if head_ipv4 then None
  else
    s ← read_char (char ":") s;
    s ← read_char (char ":") s;
    let '(tail, _, s) := read_groups (8 - (length head + 1)) 0 s in
    Some (groups_value (head ++ replicate (8 - length head - length tail) 0 ++ tail), s).

Definition whole {A} (r : option (A * Str)) : option A := match r with Some (a, []) => Some a | _ => None end.

Definition read_ip_addr (s : Str) : option (IpAddr * Str) :=
  match read_ipv4_addr s with
  | Some (a, s') => Some (V4 a, s')
  | None => match read_ipv6_addr s with Some (a, s') => Some (V6 a, s') | None => None end
  end.

Definition parse_ip (s : Str) : option IpAddr := whole (read_ip_addr s).

(** [SocketAddr::from_str], with the port and the scope dropped. *)
Definition read_port (s : Str) : option Str := s ← read_char (char ":") s; '(_, s) ← read_number 10 None true 65535 s; Some s.

Definition read_socket_addr_v4 (s : Str) : option (IpAddr * Str) := '(a, s) ← read_ipv4_addr s; s ← read_port s; Some (V4 a, s).

Definition read_scope_id (s : Str) : option Str := s ← read_char (char "%") s; '(_, s) ← read_number 10 None true u32_max s; Some s.

Definition read_socket_addr_v6 (s : Str) : option (IpAddr * Str) :=
  s ← read_char (char "[") s;
  '(a, s) ← read_ipv6_addr s;
  let s := default s (read_scope_id s) in
  s ← read_char (char "]") s;
  s ← read_port s;
  Some (V6 a, s).

Definition parse_socket_addr (s : Str) : option IpAddr :=
  whole (match read_socket_addr_v4 s with Some r => Some r | None => read_socket_addr_v6 s end).

(** ** Printing *)

Fixpoint print_radix (fuel : nat) (radix n : Z) (acc : Str) : Str :=
  let d := n mod radix in
  let acc := (if d <? 10 then 48 + d else 87 + d) :: acc in
  match fuel with O => acc | S f => if n <? radix then acc else print_radix f radix (n / radix) acc end.

(** Every number of 128 bits prints in 40 digits. *)
Definition print_dec (n : Z) : Str := if n <? 0 then char "-" :: print_radix 40 10 (- n) [] else print_radix 40 10 n [].

Definition print_octets (a : Z) : Str :=
  let o n := print_radix 3 10 (n mod 256) [] in
  o (a / 16777216) ++ str "." ++ o (a / 65536) ++ str "." ++ o (a / 256) ++ str "." ++ o a.

Definition segments (a : Z) : list Z := map (fun i => a / 65536 ^ i mod 65536) [7; 6; 5; 4; 3; 2; 1; 0].

(** The first of the longest runs of zeros, as its start and length. *)
Fixpoint zero_run (i : nat) (gs : list Z) (current longest : nat * nat) : nat * nat :=
  match gs with
  | [] => longest
  | g :: gs' =>
    if g =? 0 then
      let current := if (snd current =? 0)%nat then (i, 1%nat) else (fst current, S (snd current)) in
      zero_run (S i) gs' current (if (snd longest <? snd current)%nat then current else longest)
    else zero_run (S i) gs' (0%nat, 0%nat) longest
  end.

Definition print_segments (gs : list Z) : Str :=
  match gs with
  | [] => []
  | g :: gs' => print_radix 4 16 g [] ++ flat_map (fun g => char ":" :: print_radix 4 16 g []) gs'
  end.

Definition print_ip (ip : IpAddr) : Str :=
  match ip with
  | V4 a => print_octets a
  | V6 a =>
    if a / 2 ^ 32 =? 65535 then str "::ffff:" ++ print_octets (a mod 2 ^ 32)
    else
      let '(start, len) := zero_run 0 (segments a) (0%nat, 0%nat) (0%nat, 0%nat) in
      if (1 <? len)%nat then print_segments (take start (segments a)) ++ str "::" ++ print_segments (drop (start + len) (segments a))
      else print_segments (segments a)
  end.

Definition is_loopback (ip : IpAddr) : bool := match ip with V4 a => a / 16777216 =? 127 | V6 a => a =? 1 end.

(** ** Facts *)

Ltac bools := repeat match goal with
  | |- context [?a <? ?b] => destruct (Z.ltb_spec a b); try lia
  | |- context [?a <=? ?b] => destruct (Z.leb_spec a b); try lia
  end.

Lemma split64 c : c = c / 64 * 64 + c mod 64 /\ 0 <= c mod 64 < 64.
Proof. pose proof (Z.div_mod c 64). pose proof (Z.mod_pos_bound c 64). lia. Qed.

Lemma from_utf8_char c b : is_char c -> from_utf8 (utf8_char c ++ b) = cons c <$> from_utf8 b.
Proof.
  intros [Hr Hs]. unfold utf8_char. pose proof (split64 c) as [H1 ?].
  pose proof (split64 (c / 64)) as [H2 ?]. pose proof (split64 (c / 64 / 64)) as [H3 ?].
  assert (E2 : c / 4096 = c / 64 / 64) by (rewrite Z.div_div by lia; done).
  assert (E3 : c / 262144 = c / 64 / 64 / 64) by (rewrite !Z.div_div by lia; done).
  rewrite E2, E3. set (q1 := c / 64) in *. set (q2 := q1 / 64) in *. set (q3 := q2 / 64) in *.
  destruct (Z.ltb_spec c 128); [cbn [app from_utf8]; bools; done|].
  destruct (Z.ltb_spec c 2048); [|destruct (Z.ltb_spec c 65536)]; cbn [app from_utf8]; unfold is_cont; bools; cbn [andb negb];
    do 2 f_equal; lia.
Qed.

Lemma from_utf8_as_bytes s : Forall is_char s -> from_utf8 (as_bytes s) = Some s.
Proof.
  induction 1 as [|c s Hc _ IH]; [done|]. unfold as_bytes in *. cbn [flat_map]. by rewrite from_utf8_char, IH.
Qed.

Lemma strip_prefix_Some p : forall s t, strip_prefix p s = Some t <-> s = p ++ t.
Proof.
  induction p as [|a p IH]; intros s t; simpl; [split; [by intros [= ->]|by intros ->]|].
  destruct s as [|b s]; [by split|]. destruct (Z.eqb_spec a b) as [->|Hne].
  - rewrite IH. split; [by intros ->|by intros [= ->]].
  - split; [done|]. by intros [= -> _].
Qed.

Lemma utf8_len_bytes s : utf8_len s = Z.of_nat (length (as_bytes s)).
Proof.
  induction s as [|c s IH]; [done|]. unfold as_bytes in *. cbn [utf8_len fold_right flat_map]. fold (utf8_len s). rewrite length_app, IH.
  unfold utf8_len_char, utf8_char. destruct (c <? 128); [|destruct (c <? 2048); [|destruct (c <? 65536)]]; cbn [length]; lia.
Qed.
