(* ===== verification/SnapshotFiles.v ===== *)
(** * Snapshots in a directory

    [dp-event/src/file_snapshot.rs]: one file per snapshot, named by its number,
    written to a sibling and renamed.  A directory is the map from the names of
    its files to their contents, or missing; names that are not UTF-8 are
    passed over by the code and are left out.  A write is the list of its file
    operations, so that it can fail or be cut by a crash at any of them.  A crash
    keeps the contents that were synced and leaves anything in the files that
    were not; the best-effort sync of the directory keeps the rename.

    The theorems: the directory implements the store of [MemSnapshotStore]
    through faults and crashes, and the snapshotter and recovery behave over it
    as over that store. *)

From S2P Require Import Prelude Decimal Types Events FileStore Field EngineState Engine Text Witness Snapshot Recover.
Open Scope Z_scope.

Definition Dir : Type := option (gmap Str bytes).

(** What fails: the write at operation [k] after [j] bytes, the listing, the
    reading or removal of the file of a number. *)
Record DirEnv := mkDirEnv {
  fault_write : option (nat * nat);
  fault_list : bool;
  fault_read : Z -> bool;
  fault_remove : Z -> bool
}.

Definition sound_dir : DirEnv := mkDirEnv None false (fun _ => false) (fun _ => false).

(** ** Names *)

Definition SNAP_EXT : Str := str "snap".
Definition SEQ_DIGITS : nat := 20.

(** [n] decimal digits of [z], the last first. *)
Fixpoint le_digits (n : nat) (z : Z) : Str :=
  match n with
  | O => []
  | S n' => 48 + z mod 10 :: le_digits n' (z / 10)
  end.

(** [{seq:020}] *)
Definition seq_digits (sq : Z) : Str := reverse (le_digits SEQ_DIGITS sq).

Definition path_for (sq : Z) : Str := seq_digits sq ++ str "." ++ SNAP_EXT.

(** [with_extension("tmp")] of it *)
Definition tmp_for (sq : Z) : Str := seq_digits sq ++ str ".tmp".

Definition strip_suffix (suffix s : Str) : option Str :=
  option_map reverse (strip_prefix (reverse suffix) (reverse s)).

(** [str::parse::<u64>]: a sign is allowed, overflow is an error. *)
Definition parse_u64 (s : Str) : option Z :=
  let s := match s with c :: s' => if c =? char "+" then s' else s | [] => s end in
  if negb (bool_decide (s = [])) && forallb is_digit s && (digits_value s <? 2 ^ 64) then Some (digits_value s) else None.

Definition parse_seq_from_filename (name : Str) : option Z :=
  match strip_suffix (str "." ++ SNAP_EXT) name with
  | None => None
  | Some stem => if negb (utf8_len stem =? Z.of_nat SEQ_DIGITS) then None else parse_u64 stem
  end.

(** ** File operations *)

Inductive FsOp :=
| FsCreate (name : Str)
| FsAppend (name : Str) (b : bytes)
| FsSync (name : Str)
| FsRename (from to : Str).

Definition fs_apply (m : gmap Str bytes) (op : FsOp) : gmap Str bytes :=
  match op with
  | FsCreate n => <[n := []]> m
  | FsAppend n b => <[n := default [] (m !! n) ++ b]> m
  | FsSync _ => m
  | FsRename a b => match m !! a with Some c => <[b := c]> (delete a m) | None => m end
  end.

(** An operation that fails; an append may have written [j] bytes. *)
Definition fs_torn (m : gmap Str bytes) (j : nat) (op : FsOp) : gmap Str bytes :=
  match op with FsAppend n b => fs_apply m (FsAppend n (take j b)) | _ => m end.

Definition write_ops (sq : Z) (envelope : bytes) : list FsOp :=
  [FsCreate (tmp_for sq); FsAppend (tmp_for sq) envelope; FsSync (tmp_for sq); FsRename (tmp_for sq) (path_for sq)].

(** The operations up to the fault. *)
Definition fs_run (fault : option (nat * nat)) (m : gmap Str bytes) (ops : list FsOp) : gmap Str bytes * result unit EventError :=
  match fault with
  | Some (k, j) =>
    match ops !! k with
    | Some op => (fs_torn (fold_left fs_apply (take k ops) m) j op, Err EvIo)
    | None => (fold_left fs_apply ops m, Ok tt)
    end
  | None => (fold_left fs_apply ops m, Ok tt)
  end.

(** ** [FileSnapshotStore] *)

(** [created]: whether the directory could be created. *)
Definition dir_open (created : bool) (d : Dir) : result Dir EventError :=
  match d with
  | Some _ => Ok d
  | None => if created then Ok (Some ∅) else Err EvIo
  end.

Section store.
Variable env : DirEnv.

Definition file_write (d : Dir) (sq : Z) (envelope : bytes) : Dir * result unit EventError :=
  match d with
  | None => (None, Err EvIo)
  | Some m => let '(m', r) := fs_run (fault_write env) m (write_ops sq envelope) in (Some m', r)
  end.

Definition file_list_seqs (d : Dir) : result (list Z) EventError :=
  match d with
  | None => Ok []
  | Some m => if fault_list env then Err EvIo else Ok (sort_by Z.compare (omap parse_seq_from_filename (map_to_list m).*1))
  end.

(** [fs::read]: [Ok None] is a missing file. *)
Definition fs_read (d : Dir) (sq : Z) : result (option bytes) EventError :=
  match d with
  | None => Ok None
  | Some m =>
    match m !! path_for sq with
    | None => Ok None
    | Some b => if fault_read env sq then Err EvIo else Ok (Some b)
    end
  end.

Definition file_read_latest (d : Dir) : result (option (Z * bytes)) EventError :=
  let? seqs := file_list_seqs d in
  match last seqs with
  | None => Ok None
  | Some sq =>
    let? b := fs_read d sq in
    match b with Some b => Ok (Some (sq, b)) | None => Err EvIo end
  end.

Definition file_read_at (d : Dir) (sq : Z) : result (option bytes) EventError := fs_read d sq.

Fixpoint delete_loop (d : Dir) (before_seq : Z) (seqs : list Z) : Dir * result unit EventError :=
  match seqs with
  | [] => (d, Ok tt)
  | sq :: seqs' =>
    if sq <? before_seq then
      match d with
      | Some m =>
        match m !! path_for sq with
        | None => delete_loop d before_seq seqs'
        | Some _ => if fault_remove env sq then (d, Err EvIo) else delete_loop (Some (delete (path_for sq) m)) before_seq seqs'
        end
      | None => delete_loop d before_seq seqs'
      end
    else delete_loop d before_seq seqs'
  end.

Definition file_delete_before (d : Dir) (before_seq : Z) : Dir * result unit EventError :=
  match file_list_seqs d with
  | Err e => (d, Err e)
  | Ok seqs => delete_loop d before_seq seqs
  end.

#[local] Instance file_snap_ops : SnapStoreOps Dir := {|
  snap_write := file_write;
  snap_read_latest := file_read_latest;
  snap_read_at := file_read_at;
  snap_list_seqs := file_list_seqs;
  snap_delete_before := file_delete_before
|}.
End store.

(** ** Power loss *)

(** The names whose contents an operation leaves off the medium: a write makes
    its file volatile, a sync makes it durable, and a rename takes the contents
    as they are. *)
Definition fs_dirty (u : gset Str) (op : FsOp) : gset Str :=
  match op with
  | FsCreate n | FsAppend n _ => {[n]} ∪ u
  | FsSync n => u ∖ {[n]}
  | FsRename a b => if decide (a ∈ u) then {[b]} ∪ (u ∖ {[a]}) else u ∖ {[a; b]}
  end.

(** What a power loss during or after the operations leaves, when the contents
    of the names [u] were volatile before: the operations took effect up to some
    point, or all of them once the directory is synced too; a volatile file is
    lost or holds anything. *)
Inductive crashed (dir_synced : bool) (u : gset Str) (f : gmap Str bytes) (ops : list FsOp) (g : gmap Str bytes) : Prop :=
| crashed_at k :
    (dir_synced = true -> (length ops <= k)%nat) ->
    (forall name, name ∉ fold_left fs_dirty (take k ops) u -> g !! name = fold_left fs_apply (take k ops) f !! name) ->
    crashed dir_synced u f ops g.

(** Only siblings are volatile. *)
Definition settled (u : gset Str) : Prop := forall name, name ∈ u -> exists sq, name = tmp_for sq.

(** ** Names and numbers *)

Definition is_u64 (sq : Z) : Prop := 0 <= sq < 2 ^ 64.

Lemma length_le_digits n z : length (le_digits n z) = n.
Proof. revert z. induction n as [|n IH]; intros z; [done|]. cbn [le_digits length]. by rewrite IH. Qed.

Lemma le_digits_digits n z : forallb is_digit (le_digits n z) = true.
Proof.
  revert z. induction n as [|n IH]; intros z; [done|]. cbn [le_digits forallb]. rewrite IH, andb_true_r.
  pose proof (Z.mod_pos_bound z 10). unfold is_digit. apply andb_true_iff. rewrite !Z.leb_le. lia.
Qed.

Lemma digits_value_le n z : 0 <= z -> digits_value (reverse (le_digits n z)) = z mod 10 ^ Z.of_nat n.
Proof.
  unfold digits_value. revert z. induction n as [|n IH]; intros z Hz; [by rewrite Z.mod_1_r|].
  cbn [le_digits]. rewrite reverse_cons, fold_left_app, IH by (apply Z.div_pos; lia). cbn [fold_left].
  rewrite Nat2Z.inj_succ, Z.pow_succ_r, Z.rem_mul_r by lia. lia.
Qed.

Lemma digits_utf8 s : forallb is_digit s = true -> utf8_len s = Z.of_nat (length s).
Proof.
  induction s as [|c s IH]; [done|]. cbn [forallb utf8_len fold_right length]. fold (utf8_len s). intros [Hc Hs]%andb_true_iff.
  rewrite (IH Hs). unfold is_digit in Hc. unfold utf8_len_char. destruct (Z.ltb_spec c 128); lia.
Qed.

Lemma seq_digits_facts sq : is_u64 sq ->
  forallb is_digit (seq_digits sq) = true /\ length (seq_digits sq) = SEQ_DIGITS /\ digits_value (seq_digits sq) = sq.
Proof.
  intros Hsq. unfold seq_digits. split_and!.
  - pose proof (le_digits_digits SEQ_DIGITS sq) as H. rewrite forallb_forall in *. intros c Hc. apply H.
    by rewrite <- list_elem_of_In, elem_of_reverse, list_elem_of_In in *.
  - by rewrite length_reverse, length_le_digits.
  - rewrite digits_value_le by apply Hsq. apply Z.mod_small. unfold is_u64, SEQ_DIGITS in *. split; [lia|]. eapply Z.lt_trans; [apply Hsq|]. reflexivity.
Qed.

Lemma strip_prefix_app (p s : Str) : strip_prefix p (p ++ s) = Some s.
Proof. induction p as [|c p IH]; [done|]. cbn [app strip_prefix]. by rewrite Z.eqb_refl. Qed.

Lemma strip_suffix_app (a suffix : Str) : strip_suffix suffix (a ++ suffix) = Some a.
Proof. unfold strip_suffix. rewrite reverse_app, strip_prefix_app. cbn. by rewrite reverse_involutive. Qed.

Lemma parse_path sq : is_u64 sq -> parse_seq_from_filename (path_for sq) = Some sq.
Proof.
  intros Hsq. destruct (seq_digits_facts sq Hsq) as (Hd & Hl & Hv). unfold parse_seq_from_filename, path_for. rewrite strip_suffix_app.
  rewrite (digits_utf8 _ Hd), Hl, Z.eqb_refl. cbn [negb]. unfold parse_u64.
  destruct (seq_digits sq) as [|c s] eqn:Hs; [done|]. destruct (Z.eqb_spec c (char "+")) as [->|_]; [done|].
  rewrite bool_decide_eq_false_2 by done. rewrite Hd, Hv. destruct (Z.ltb_spec sq (2 ^ 64)) as [|H]; [done|]. destruct Hsq. lia.
Qed.

Lemma parse_tmp sq : parse_seq_from_filename (tmp_for sq) = None.
Proof. unfold parse_seq_from_filename, tmp_for, strip_suffix. rewrite reverse_app. done. Qed.

Lemma parse_range name sq : parse_seq_from_filename name = Some sq -> is_u64 sq.
Proof.
  unfold parse_seq_from_filename. destruct (strip_suffix _ name) as [stem|]; [|done]. destruct (negb _); [done|]. unfold parse_u64.
  cbv zeta. set (s := match stem with [] => stem | c :: s' => if c =? char "+" then s' else stem end). destruct (forallb is_digit s) eqn:Hd; [|by rewrite andb_false_r].
  destruct (_ && _) eqn:Hb; [|done]. intros [= <-]. apply andb_true_iff in Hb as [_ Hb%Z.ltb_lt]. split; [|done].
  unfold digits_value. assert (forall acc, 0 <= acc -> 0 <= fold_left (fun acc c => acc * 10 + (c - 48)) s acc) as H; [|by apply H].
  clear Hb. induction s as [|c s IH]; intros acc Ha; [done|]. cbn [forallb fold_left] in *. apply andb_true_iff in Hd as [Hc Hd].
  apply IH; [done|]. unfold is_digit in Hc. lia.
Qed.

(** ** What a directory represents *)

(** A name that parses is the name of its number, and the files are the map. *)
Record holds (f : gmap Str bytes) (m : gmap Z bytes) : Prop := {
  holds_names : forall name sq, is_Some (f !! name) -> parse_seq_from_filename name = Some sq -> name = path_for sq;
  holds_files : forall sq, is_u64 sq -> m !! sq = f !! path_for sq;
  holds_range : forall sq, is_Some (m !! sq) -> is_u64 sq
}.

Definition represents (d : Dir) (m : gmap Z bytes) : Prop :=
  match d with None => m = ∅ | Some f => holds f m end.

Lemma path_inj a b : is_u64 a -> is_u64 b -> path_for a = path_for b -> a = b.
Proof. intros Ha Hb H. apply (f_equal parse_seq_from_filename) in H. rewrite !parse_path in H by done. congruence. Qed.

Lemma path_tmp a b : is_u64 a -> path_for a <> tmp_for b.
Proof. intros Ha H. apply (f_equal parse_seq_from_filename) in H. by rewrite parse_path, parse_tmp in H. Qed.

(** The sibling does not count. *)
Lemma holds_tmp f g m t : holds f m -> (forall name, name <> tmp_for t -> g !! name = f !! name) -> holds g m.
Proof.
  intros [Hn Hf Hr] Hg. split; [|intros sq Hsq; rewrite Hg; [by apply Hf|by apply path_tmp]|done].
  intros name sq Hs Hp. destruct (decide (name = tmp_for t)) as [->|Hne]; [by rewrite parse_tmp in Hp|]. rewrite Hg in Hs by done. by apply Hn.
Qed.

Lemma holds_insert f m sq b : is_u64 sq -> holds f m -> holds (<[path_for sq := b]> f) (<[sq := b]> m).
Proof.
  intros Hsq [Hn Hf Hr]. split.
  - intros name s Hs Hp. destruct (decide (name = path_for sq)) as [->|Hne]; [rewrite parse_path in Hp by done; congruence|].
    rewrite lookup_insert_ne in Hs by done. by apply Hn.
  - intros s Hs. destruct (decide (s = sq)) as [->|Hne]; [by rewrite !lookup_insert_eq|].
    rewrite !lookup_insert_ne; [by apply Hf| |done]. intros H%path_inj; done.
  - intros s [x [[<- _]|[_ Hx]]%lookup_insert_Some]; [done|]. by apply Hr.
Qed.

Lemma holds_delete f m sq : is_u64 sq -> holds f m -> holds (delete (path_for sq) f) (delete sq m).
Proof.
  intros Hsq [Hn Hf Hr]. split.
  - intros name s [x [_ Hx]%lookup_delete_Some] Hp. by eapply Hn.
  - intros s Hs. destruct (decide (s = sq)) as [->|Hne]; [by rewrite !lookup_delete_eq|].
    rewrite !lookup_delete_ne; [by apply Hf| |done]. intros H%path_inj; done.
  - intros s [x [_ Hx]%lookup_delete_Some]. by apply Hr.
Qed.

(** Nor do any siblings. *)
Lemma holds_settled f g m u : holds f m -> settled u -> (forall name, name ∉ u -> g !! name = f !! name) -> holds g m.
Proof.
  intros [Hn Hf Hr] Hu Hg. split; [| |done].
  - intros name sq Hs Hp. destruct (decide (name ∈ u)) as [[t ->]%Hu|Hne]; [by rewrite parse_tmp in Hp|]. rewrite Hg in Hs by done. by apply Hn.
  - intros sq Hsq. rewrite Hg; [by apply Hf|]. intros [t Ht]%Hu. by eapply path_tmp.
Qed.

(** The file operations before the rename touch the sibling only. *)
Lemma ops_frame sq b k f name : (k <= 3)%nat -> name <> tmp_for sq -> fold_left fs_apply (take k (write_ops sq b)) f !! name = f !! name.
Proof.
  intros Hk Hne. do 4 (destruct k as [|k]; [cbn [take write_ops fold_left fs_apply]; by rewrite ?lookup_insert_ne by congruence|]). lia.
Qed.

Lemma written f sq b : fold_left fs_apply (write_ops sq b) f = <[path_for sq := b]> (delete (tmp_for sq) f).
Proof.
  cbn [write_ops fold_left fs_apply]. rewrite !lookup_insert_eq. cbn [default app]. by rewrite !delete_insert_eq.
Qed.

Lemma holds_written f m sq b : is_u64 sq -> holds f m -> holds (fold_left fs_apply (write_ops sq b) f) (<[sq := b]> m).
Proof.
  intros Hsq Hh. rewrite written. apply holds_insert; [done|]. apply (holds_tmp f _ m sq Hh). intros name Hne. by rewrite lookup_delete_ne.
Qed.

(** A write fails without a trace, and for a reason, or succeeds. *)
Lemma write_refines env d m sq b d' r : is_u64 sq -> represents d m -> file_write env d sq b = (d', r) ->
  (r = Ok tt /\ represents d' (<[sq := b]> m)) \/ (r = Err EvIo /\ represents d' m /\ (d = None \/ is_Some (fault_write env))).
Proof.
  intros Hsq Hd. destruct d as [f|]; [|intros [= <- <-]; right; by eauto]. cbn [represents] in Hd. unfold file_write, fs_run.
  destruct (fault_write env) as [[k j]|]; [|intros [= <- <-]; left; split; [done|by apply holds_written]].
  destruct (write_ops sq b !! k) as [op|] eqn:Hop; [|intros [= <- <-]; left; split; [done|by apply holds_written]].
  intros [= <- <-]. right. split_and!; [done| |by eauto]. apply (holds_tmp f _ m sq Hd). intros name Hne.
  assert (k <= 3)%nat as Hk by (apply lookup_lt_Some in Hop; cbn in Hop; lia).
  rewrite <- (ops_frame sq b k f name Hk Hne). do 4 (destruct k as [|k]; [injection Hop as <-; cbn [fs_torn fs_apply]; by rewrite ?lookup_insert_ne by congruence|]). lia.
Qed.

(** At no point of a write is the content of a snapshot volatile: the sibling is
    synced when it is renamed. *)
Lemma write_settled sq b k u : is_u64 sq -> settled u -> settled (fold_left fs_dirty (take k (write_ops sq b)) u).
Proof.
  intros Hsq Hu. pose proof (path_tmp sq sq Hsq) as Hpt.
  assert (forall v, v ⊆ {[tmp_for sq]} ∪ u -> settled v) as Hv.
  { intros v Hsub name [Hn%elem_of_singleton|Hn]%Hsub%elem_of_union; [by eauto|by apply Hu]. }
  do 4 (destruct k as [|k]; [apply Hv; cbn [take write_ops fold_left fs_dirty]; set_solver|]).
  apply Hv. cbn [take write_ops fold_left fs_dirty]. rewrite take_nil. cbn [fold_left]. rewrite decide_False by set_solver. set_solver.
Qed.

(** After a crash in the middle of a write the old snapshots are there, with
    the new one or without it, and the new one is there once the directory was
    synced. *)
Lemma crash_refines synced u f m sq b g : is_u64 sq -> settled u -> holds f m -> crashed synced u f (write_ops sq b) g ->
  (synced = false /\ holds g m) \/ holds g (<[sq := b]> m).
Proof.
  intros Hsq Hu Hh [k Hall Hg]. pose proof (write_settled sq b k u Hsq Hu) as Hs. destruct (decide (k <= 3)%nat) as [Hk|Hk].
  - left. split; [destruct synced; [|done]; specialize (Hall eq_refl); cbn in Hall; lia|].
    assert (holds (fold_left fs_apply (take k (write_ops sq b)) f) m) as Hm.
    { apply (holds_tmp f _ m sq Hh). intros name Hne. by apply ops_frame. }
    by apply (holds_settled _ _ _ _ Hm Hs).
  - right. rewrite (take_ge (write_ops sq b)) in Hg, Hs by (cbn; lia). by apply (holds_settled _ _ _ _ (holds_written f m sq b Hsq Hh) Hs).
Qed.

(** The numbers a directory lists. *)
Lemma listed_elem f m sq : holds f m -> sq ∈ omap parse_seq_from_filename (map_to_list f).*1 <-> sq ∈ (map_to_list m).*1.
Proof.
  intros [Hn Hf Hr]. rewrite list_elem_of_omap, list_elem_of_fmap. split.
  - intros (name & ([nm b] & -> & Hin%elem_of_map_to_list)%list_elem_of_fmap & Hp). cbn [fst] in Hp.
    assert (nm = path_for sq) as -> by (apply Hn; [by exists b|exact Hp]). exists (sq, b). split; [done|].
    apply elem_of_map_to_list. rewrite Hf; [done|]. by eapply parse_range.
  - intros ([s b] & -> & Hin%elem_of_map_to_list). cbn [fst]. assert (is_u64 s) as Hs by (apply Hr; by exists b).
    exists (path_for s). split; [|by apply parse_path]. apply list_elem_of_fmap. exists (path_for s, b). split; [done|].
    apply elem_of_map_to_list. by rewrite <- Hf.
Qed.

Lemma NoDup_omap_inj {A B} (g : A -> option B) l :
  NoDup l -> (forall x y z, x ∈ l -> y ∈ l -> g x = Some z -> g y = Some z -> x = y) -> NoDup (omap g l).
Proof.
  induction 1 as [|x l Hx Hl IH]; intros Hinj; [constructor|]. cbn. destruct (g x) as [z|] eqn:Hg.
  - constructor; [|apply IH; intros; eapply Hinj; try done; by right].
    intros (y & Hy & Hgy)%list_elem_of_omap. assert (x = y) as -> by (eapply Hinj; [left|by right|done..]). done.
  - apply IH. intros. eapply Hinj; try done; by right.
Qed.

Lemma listed_keys f m : holds f m -> sort_by Z.compare (omap parse_seq_from_filename (map_to_list f).*1) = MemSnapshotStore.keys m.
Proof.
  intros Hh. apply sort_by_perm_eq.
  - intros a b. rewrite Z.compare_gt_iff, Z.compare_lt_iff. done.
  - unfold cmp_le. intros a b c. rewrite !Z.compare_le_iff. lia.
  - apply NoDup_Permutation; [|apply NoDup_fst_map_to_list|intros sq; by apply listed_elem].
    apply NoDup_omap_inj; [apply NoDup_fst_map_to_list|]. intros x y z ([nx bx] & -> & Hx%elem_of_map_to_list)%list_elem_of_fmap
      ([ny by_] & -> & Hy%elem_of_map_to_list)%list_elem_of_fmap Hz1 Hz2. cbn [fst] in *.
    rewrite (holds_names _ _ Hh nx z (mk_is_Some _ _ Hx) Hz1). by rewrite (holds_names _ _ Hh ny z (mk_is_Some _ _ Hy) Hz2).
  - unfold cmp_le. intros a b _ _. rewrite !Z.compare_le_iff. lia.
Qed.

Lemma list_refines env d m : represents d m ->
  file_list_seqs env d = MemSnapshotStore.list_seqs m \/ (file_list_seqs env d = Err EvIo /\ fault_list env = true).
Proof.
  destruct d as [f|]; cbn [represents file_list_seqs].
  - intros Hh. destruct (fault_list env); [by right|left]. unfold MemSnapshotStore.list_seqs. by rewrite (listed_keys f m Hh).
  - intros ->. by left.
Qed.

Lemma fs_read_refines env d m sq : is_u64 sq -> represents d m ->
  fs_read env d sq = MemSnapshotStore.read_at m sq \/ fs_read env d sq = Err EvIo /\ fault_read env sq = true.
Proof.
  intros Hsq. destruct d as [f|]; cbn [represents fs_read]; unfold MemSnapshotStore.read_at, MemSnapshotStore.Snaps.
  - intros Hh. rewrite (holds_files _ _ Hh sq Hsq). destruct (f !! path_for sq) as [b|]; [|by left]. destruct (fault_read env sq); [by right|by left].
  - intros ->. by left.
Qed.

Lemma key_facts (m : gmap Z bytes) sq : sq ∈ MemSnapshotStore.keys m <-> is_Some (m !! sq).
Proof.
  unfold MemSnapshotStore.keys. rewrite sort_by_perm, list_elem_of_fmap. split.
  - intros ([s b] & -> & Hin%elem_of_map_to_list). eauto.
  - intros [b Hb]. exists (sq, b). split; [done|]. by apply elem_of_map_to_list.
Qed.

Lemma read_latest_refines env d m : represents d m ->
  file_read_latest env d = MemSnapshotStore.read_latest m \/
  (file_read_latest env d = Err EvIo /\ (fault_list env = true \/ exists sq, fault_read env sq = true)).
Proof.
  intros Hd. unfold file_read_latest. destruct (list_refines env d m Hd) as [->|[-> Hf]]; [|by auto].
  unfold MemSnapshotStore.list_seqs, MemSnapshotStore.read_latest. destruct (last (MemSnapshotStore.keys m)) as [sq|] eqn:Hl; [|by left].
  assert (is_Some (m !! sq)) as [b Hb]. { apply key_facts. rewrite last_lookup in Hl. by eapply list_elem_of_lookup_2. }
  assert (is_u64 sq) as Hsq. { destruct d as [f|]; cbn in Hd; [|by rewrite Hd in Hb]. apply (holds_range _ _ Hd). by exists b. }
  destruct (fs_read_refines env d m sq Hsq Hd) as [->|[-> Hf]]; [|by eauto 6]. unfold MemSnapshotStore.read_at, MemSnapshotStore.Snaps. rewrite Hb. by left.
Qed.

Lemma delete_loop_refines env before seqs : forall d m d' r, represents d m -> Forall is_u64 seqs -> delete_loop env d before seqs = (d', r) ->
  exists m', represents d' m' /\ m' ⊆ m /\ (forall sq, before <= sq -> m' !! sq = m !! sq) /\
    (r = Err EvIo /\ (exists sq, fault_remove env sq = true) \/ r = Ok tt /\ forall sq, sq ∈ seqs -> sq < before -> m' !! sq = None).
Proof.
  induction seqs as [|sq seqs IH]; intros d m d' r Hd Hs; cbn [delete_loop].
  { intros [= <- <-]. exists m. split_and!; [done..|]. right. split; [done|]. by intros sq ?%not_elem_of_nil. }
  apply Forall_cons in Hs as [Hsq Hs]. destruct (Z.ltb_spec sq before) as [Hlt|Hge].
  2: { intros H. destruct (IH _ _ _ _ Hd Hs H) as (m' & Hm' & Hsub & Hkeep & Hr). exists m'. split_and!; [done..|].
       destruct Hr as [|[-> Hr]]; [by left|right]. split; [done|]. intros s [->|Hin]%elem_of_cons Hlt; [lia|by apply Hr]. }
  assert (m !! sq = None -> delete_loop env d before seqs = (d', r) -> exists m', represents d' m' /\ m' ⊆ m /\
    (forall s, before <= s -> m' !! s = m !! s) /\ (r = Err EvIo /\ (exists sq, fault_remove env sq = true) \/ r = Ok tt /\ forall s, s ∈ sq :: seqs -> s < before -> m' !! s = None)) as Hskip.
  { intros Hnone H. destruct (IH _ _ _ _ Hd Hs H) as (m' & Hm' & Hsub & Hkeep & Hr). exists m'. split_and!; [done..|].
    destruct Hr as [|[-> Hr]]; [by left|right]. split; [done|]. intros s [->|Hin]%elem_of_cons Hlt'; [by eapply lookup_weaken_None|by apply Hr]. }
  destruct d as [f|]; [|apply Hskip; by rewrite Hd]. cbn [represents] in Hd. pose proof (holds_files _ _ Hd sq Hsq) as Hf.
  destruct (f !! path_for sq) as [b|]; [|by apply Hskip]. destruct (fault_remove env sq) eqn:Hfault.
  { intros [= <- <-]. exists m. split_and!; [done..|by eauto]. }
  intros H. destruct (IH (Some _) (delete sq m) _ _ (holds_delete _ _ _ Hsq Hd) Hs H) as (m' & Hm' & Hsub & Hkeep & Hr). exists m'. split_and!.
  - done.
  - transitivity (delete sq m); [done|apply delete_subseteq].
  - intros s Hle. rewrite (Hkeep s Hle). apply lookup_delete_ne. lia.
  - destruct Hr as [|[-> Hr]]; [by left|right]. split; [done|].
    intros s [->|Hin]%elem_of_cons Hlt'; [|by apply Hr]. eapply lookup_weaken_None; [|exact Hsub]. apply lookup_delete_eq.
Qed.

Lemma delete_refines env d m before d' r : represents d m -> file_delete_before env d before = (d', r) ->
  (r = Ok tt /\ represents d' (fst (MemSnapshotStore.delete_before m before))) \/
  (r = Err EvIo /\ (fault_list env = true \/ exists sq, fault_remove env sq = true) /\
    exists m', represents d' m' /\ m' ⊆ m /\ forall sq, before <= sq -> m' !! sq = m !! sq).
Proof.
  intros Hd. unfold file_delete_before. destruct (list_refines env d m Hd) as [->|[-> Hf]].
  2: { intros [= <- <-]. right. split_and!; [done|by left|]. by exists m. }
  unfold MemSnapshotStore.list_seqs. intros H. assert (Forall is_u64 (MemSnapshotStore.keys m)) as Hu.
  { apply Forall_forall. intros sq [b Hb]%key_facts. destruct d as [f|]; cbn in Hd; [|by rewrite Hd in Hb]. apply (holds_range _ _ Hd). by exists b. }
  destruct (delete_loop_refines _ _ _ _ _ _ _ Hd Hu H) as (m' & Hm' & Hsub & Hkeep & [[-> Hf]|[-> Hgone]]).
  - right. split_and!; [done|by right|]. by exists m'.
  - left. split; [done|]. enough (m' = fst (MemSnapshotStore.delete_before m before)) as Heq by (rewrite <- Heq; exact Hm').
    apply (map_eq (M:=gmap Z)). intros sq. destruct (Z.le_gt_cases before sq) as [Hle|Hlt].
    + rewrite (Hkeep sq Hle). symmetry. destruct (m !! sq) as [b|] eqn:Hb; [by apply (map_lookup_filter_Some (M:=gmap Z))|apply (map_lookup_filter_None (M:=gmap Z)); by left].
    + transitivity (@None bytes); [|symmetry; apply (map_lookup_filter_None (M:=gmap Z)); right; intros b _; cbn; lia].
      destruct (m !! sq) as [b|] eqn:Hb; [apply Hgone; [apply key_facts; by exists b|done]|by eapply lookup_weaken_None].
Qed.

(** C36: the directory implements the store of snapshots, through faults and
    crashes.  Each operation has the effect and the answer of the map the
    directory represents, or fails because a file operation it performs failed
    (a write also because the directory is missing).  A write that fails changes
    nothing a reader sees; a sweep that fails leaves some of the old snapshots
    and never touches a younger one.  After a power loss at any point of a write,
    which leaves anything in files that were not synced, the directory
    represents the map without or with the whole new envelope, and with it once
    the directory was synced; at every point only siblings are unsynced, so this
    holds again of the next write. *)
Theorem snapshot_directory env d m : represents d m ->
  (file_list_seqs env d = MemSnapshotStore.list_seqs m \/ (file_list_seqs env d = Err EvIo /\ fault_list env = true)) /\
  (file_read_latest env d = MemSnapshotStore.read_latest m \/
    (file_read_latest env d = Err EvIo /\ (fault_list env = true \/ exists sq, fault_read env sq = true))) /\
  (forall sq, is_u64 sq -> file_read_at env d sq = MemSnapshotStore.read_at m sq \/
    (file_read_at env d sq = Err EvIo /\ fault_read env sq = true)) /\
  (forall sq b, is_u64 sq -> let '(d', r) := file_write env d sq b in
    (r = Ok tt /\ represents d' (fst (MemSnapshotStore.write m sq b))) \/
    (r = Err EvIo /\ represents d' m /\ (d = None \/ is_Some (fault_write env)))) /\
  (forall before, let '(d', r) := file_delete_before env d before in
    (r = Ok tt /\ represents d' (fst (MemSnapshotStore.delete_before m before))) \/
    (r = Err EvIo /\ (fault_list env = true \/ exists sq, fault_remove env sq = true) /\
      exists m', represents d' m' /\ m' ⊆ m /\ forall sq, before <= sq -> m' !! sq = m !! sq)) /\
  (forall f u sq b, d = Some f -> is_u64 sq -> settled u ->
    (forall k, settled (fold_left fs_dirty (take k (write_ops sq b)) u)) /\
    (forall synced g, crashed synced u f (write_ops sq b) g ->
      (synced = false /\ represents (Some g) m) \/ represents (Some g) (fst (MemSnapshotStore.write m sq b)))).
Proof.
  intros Hd. split_and!.
  - by apply list_refines.
  - by apply read_latest_refines.
  - intros sq Hsq. by apply fs_read_refines.
  - intros sq b Hsq. destruct (file_write env d sq b) as [d' r] eqn:Hw. by eapply write_refines.
  - intros before. destruct (file_delete_before env d before) as [d' r] eqn:Hw. by eapply delete_refines.
  - intros f u sq b -> Hsq Hu. split; [intros k; by apply write_settled|]. intros synced g Hc. by eapply crash_refines.
Qed.

(** ** The engine over a directory *)

Section engine_over.
Context {D F St : Type} `{!DecimalOps D, !FieldOps F, !Poseidon F, !StoreOps D St, !BincodeOps (SerializableState D), !Aead, SHA : !Sha256,
  HEX : !HexOps, ADDR : !AddressOps} {HI : HashIter}.
#[local] Instance sound_ops : SnapStoreOps Dir := file_snap_ops sound_dir.

Lemma sound_list d m : represents d m -> snap_list_seqs d = snap_list_seqs (m : MemSnapshotStore.Snaps).
Proof. destruct d as [f|]; [|by intros ->]. intros Hh. cbn. unfold MemSnapshotStore.list_seqs. by rewrite (listed_keys f m Hh). Qed.

Lemma sound_read d m sq : is_u64 sq -> represents d m -> snap_read_at d sq = snap_read_at (m : MemSnapshotStore.Snaps) sq.
Proof. intros Hsq Hd. by destruct (fs_read_refines sound_dir d m sq Hsq Hd) as [|[_ ?]]. Qed.

Lemma keys_u64 d m : represents d m -> Forall is_u64 (MemSnapshotStore.keys m).
Proof.
  intros Hd. apply Forall_forall. intros sq [b Hb]%key_facts.
  destruct d as [f|]; cbn in Hd; [|by rewrite Hd in Hb]. apply (holds_range _ _ Hd). by exists b.
Qed.

Lemma try_envelopes_over d m key (a : RecAcc D St) seqs : represents d m -> Forall is_u64 seqs ->
  try_envelopes d key a seqs = try_envelopes (m : MemSnapshotStore.Snaps) key a seqs.
Proof.
  intros Hd. induction 1 as [|sq seqs Hsq _ IH]; [done|]. cbn [try_envelopes]. rewrite (sound_read d m sq Hsq Hd), IH. done.
Qed.

Lemma recover_over fuel renv d m key (e : Engine D St) : represents d m ->
  recover (F:=F) fuel renv (Some d) key e = recover (F:=F) fuel renv (Some (m : MemSnapshotStore.Snaps)) key e.
Proof.
  intros Hd. unfold recover. destruct (es_recovered (e_state e)); [done|].
  set (a := mkRecAcc _ _ _ _). enough (recover_snapshot (Some d) key a = recover_snapshot (Some (m : MemSnapshotStore.Snaps)) key a) as ->; [done|].
  unfold recover_snapshot, try_restore_from_snapshots. rewrite (sound_list d m Hd).
  cbn [snap_list_seqs MemSnapshotStore.mem_snap_ops]. unfold MemSnapshotStore.list_seqs.
  destruct (MemSnapshotStore.keys m) as [|sq seqs] eqn:Hk; [done|]. destruct key as [k|]; [|done].
  rewrite (try_envelopes_over d m k a (reverse (sq :: seqs)) Hd); [done|]. apply Forall_reverse. rewrite <- Hk. by eapply keys_u64.
Qed.

Lemma sound_write f m sq b : is_u64 sq -> holds f m -> exists g,
  snap_write (Some f : Dir) sq b = (Some g, Ok tt) /\ holds g (<[sq := b]> m).
Proof. intros Hsq Hh. eexists. split; [done|]. by apply holds_written. Qed.

Lemma delete_loop_some before seqs : forall f, exists g, delete_loop sound_dir (Some f) before seqs = (Some g, Ok tt).
Proof.
  induction seqs as [|sq seqs IH]; intros f; cbn [delete_loop]; [by exists f|]. destruct (sq <? before); [|apply IH].
  destruct (f !! path_for sq); [|apply IH]. cbn [fault_remove sound_dir]. apply IH.
Qed.

Lemma sound_delete f m before : holds f m -> exists g,
  snap_delete_before (Some f : Dir) before = (Some g, Ok tt) /\ holds g (fst (MemSnapshotStore.delete_before m before)).
Proof.
  intros Hh. cbn [snap_delete_before sound_ops file_snap_ops]. destruct (file_delete_before sound_dir (Some f) before) as [d' r] eqn:Hdel.
  pose proof Hdel as H2. unfold file_delete_before in H2. cbn [file_list_seqs fault_list sound_dir] in H2.
  destruct (delete_loop_some before (sort_by Z.compare (omap parse_seq_from_filename (map_to_list f).*1)) f) as [g Hg]. rewrite Hg in H2. injection H2 as <- <-.
  exists g. split; [done|]. by destruct (delete_refines sound_dir (Some f) m before _ _ Hh Hdel) as [[_ ?]|[? _]].
Qed.

Lemma prune_over f m n : holds f m -> forall m', prune_snapshots (m : MemSnapshotStore.Snaps) n = Ret m' ->
  exists g, prune_snapshots (Some f : Dir) n = Ret (Some g) /\ holds g m'.
Proof.
  intros Hh m'. unfold prune_snapshots. destruct (n =? 0)%nat; [intros [= <-]; by exists f|].
  rewrite (sound_list (Some f) m Hh). cbn [snap_list_seqs MemSnapshotStore.mem_snap_ops]. unfold MemSnapshotStore.list_seqs.
  destruct (n <? _)%nat; [|intros [= <-]; by exists f]. destruct (MemSnapshotStore.keys m !! _) as [cut|]; [|done].
  cbn [or_panic mbind outcome_bind]. intros [= <-]. destruct (sound_delete f m cut Hh) as (g & -> & Hg). by exists g.
Qed.

(** Snapshots and recovery work over a directory as over the map it
    represents.  A snapshot that is taken gives the same engine, the same
    answer and a directory that represents the new map; recovery from the
    directory is recovery from the map; and after a crash in the middle of a
    write recovery is that from the map without or with the new envelope. *)
Theorem engine_over_directory fuel renv senv key nonce config (e : Engine D St) f m :
  represents (Some f) m -> is_u64 (snd (capture_snapshot_state e)) ->
  (forall e' m' r, take_snapshot senv key nonce config e (m : MemSnapshotStore.Snaps) = Ret (e', m', r) ->
    exists g, take_snapshot senv key nonce config e (Some f : Dir) = Ret (e', Some g, r) /\ represents (Some g) m') /\
  recover (F:=F) fuel renv (Some (Some f : Dir)) key e = recover (F:=F) fuel renv (Some (m : MemSnapshotStore.Snaps)) key e /\
  (forall synced u sq b g, is_u64 sq -> settled u -> crashed synced u f (write_ops sq b) g -> forall e2 : Engine D St,
    recover (F:=F) fuel renv (Some (Some g : Dir)) key e2 = recover (F:=F) fuel renv (Some (m : MemSnapshotStore.Snaps)) key e2 \/
    recover (F:=F) fuel renv (Some (Some g : Dir)) key e2 =
      recover (F:=F) fuel renv (Some (fst (MemSnapshotStore.write m sq b))) key e2).
Proof.
  intros Hh Hu. split_and!.
  - intros e' m' r. unfold take_snapshot. destruct key as [k|]; [|intros [= <- <- <-]; by exists f].
    destruct (capture_snapshot_state e) as [state sq]. destruct (encode_envelope state sq k nonce) as [b|]; [|intros [= <- <- <-]; by exists f].
    destruct (sound_write f m sq b Hu Hh) as (g & -> & Hg). cbn [snap_write MemSnapshotStore.mem_snap_ops MemSnapshotStore.write].
    destruct (prune_snapshots _ (sc_retain_count config)) as [m2|] eqn:Hp; [|done].
    cbn [mbind outcome_bind]. intros [= <- <- <-]. destruct (prune_over g _ _ Hg _ Hp) as (g' & -> & Hg'). by exists g'.
  - by apply recover_over.
  - intros synced u sq b g Hsq Hset Hc e2. destruct (crash_refines synced u f m sq b g Hsq Hset Hh Hc) as [[_ Hg]|Hg]; [left|right]; by apply recover_over.
Qed.
End engine_over.

(** A sign counts as a digit of the name: a file so named is listed under a
    number whose own file does not exist, and hides the snapshots below it. *)
Lemma signed_name_breaks_latest b c :
  file_read_latest sound_dir (Some (<[str "+0000000000000000005.snap" := b]> (<[path_for 4 := c]> ∅))) = Err EvIo.
Proof. by vm_compute. Qed.
