(* ===== verification/RateLimit.v ===== *)
(** * API: the rate limiter

    The token buckets of [ratelimit.rs] of [dp-api].  Their contents are [f64];
    [F64] models the non-negative ones as multiples of the least positive double
    with every operation rounded to nearest, ties to even.  Exponents have no
    upper bound: a product beyond the largest double is infinite in the code
    and larger than any capacity here, and in both cases is cut to the capacity.
    The rate and the capacity of the theorems are non-negative and finite. *)

From S2P Require Import Prelude Decimal Types Field Auction Events EngineState Engine.
Open Scope Z_scope.

(** ** Non-negative doubles *)

Module F64.

(** The number one, in units of [2^-1074]. *)
Definition one : Z := 2 ^ 1074.

(** The distance of the doubles at [v], and the doubles. *)
Definition ulp (v : Z) : Z := if v <? 2 ^ 53 then 1 else 2 ^ (Z.log2 v - 52).
Definition is_f64 (v : Z) : bool := (0 <=? v) && (v mod ulp v =? 0).

(** The double nearest to [num / den]. *)
Definition round (num den : Z) : Z :=
  let u := ulp (num / den) in
  let t := num / (den * u) in
  let r := num - t * (den * u) in
  if 2 * r <? den * u then t * u
  else if den * u <? 2 * r then (t + 1) * u
  else if Z.even t then t * u
  else (t + 1) * u.

Definition of_Z (n : Z) : Z := round (n * one) 1.
Definition add (a b : Z) : Z := round (a + b) 1.
Definition sub (a b : Z) : Z := round (a - b) 1.
Definition mul (a b : Z) : Z := round (a * b) one.
Definition div (a b : Z) : Z := round (a * one) b.

(** [Duration::as_secs_f64] on nanoseconds. *)
Definition as_secs_f64 (d : Z) : Z := add (of_Z (d / 1000000000)) (div (of_Z (d mod 1000000000)) (of_Z 1000000000)).
End F64.

(** ** Buckets *)

Record Bucket := mkBucket { bk_tokens : Z; bk_last_fill : Z }.

Record Limiter := mkLimiter {
  rl_buckets : gmap Str Bucket;
  rl_rate : Z;
  rl_capacity : Z;
  rl_stale_after : Z
}.

(** [with_trusted_proxies]. *)
Definition limiter_new (rate burst stale_after : Z) : Limiter :=
  mkLimiter ∅ rate burst (if stale_after =? 0 then secs 600 else stale_after).

Definition set_buckets (s : Limiter) (m : gmap Str Bucket) : Limiter := mkLimiter m (rl_rate s) (rl_capacity s) (rl_stale_after s).

(** [saturating_duration_since]. *)
Definition duration_since (now t : Z) : Z := Z.max 0 (now - t).

Definition allow (now : Z) (key : Str) (s : Limiter) : Limiter * bool :=
  let bucket := default (mkBucket (rl_capacity s) now) (rl_buckets s !! key) in
  let tokens := F64.add (bk_tokens bucket) (F64.mul (F64.as_secs_f64 (duration_since now (bk_last_fill bucket))) (rl_rate s)) in
  let tokens := if rl_capacity s <? tokens then rl_capacity s else tokens in
  if tokens <? F64.one then (set_buckets s (<[key := mkBucket tokens now]> (rl_buckets s)), false)
  else (set_buckets s (<[key := mkBucket (F64.sub tokens F64.one) now]> (rl_buckets s)), true).

Definition limiter_evict (now : Z) (s : Limiter) : Limiter :=
  set_buckets s (filter (fun x => duration_since now (bk_last_fill x.2) <= rl_stale_after s) (rl_buckets s)).

Definition bucket_count (s : Limiter) : nat := size (rl_buckets s).

(** ** Rounding *)

Module F64Facts.
Import F64.

Lemma one_pos : 0 < one.
Proof. by vm_compute. Qed.

Lemma ulp_pos v : 0 < ulp v.
Proof. unfold ulp. destruct (Z.ltb_spec v (2 ^ 53)); [lia|]. apply Z.pow_pos_nonneg; [lia|]. pose proof (Z.log2_le_mono (2 ^ 53) v ltac:(done)) as Hm. rewrite Z.log2_pow2 in Hm; lia. Qed.

(** An [ulp] is at most the part of [2^-52] of the number, or one. *)
Lemma ulp_small v : 0 <= v -> 2 ^ 52 * ulp v <= Z.max v (2 ^ 52).
Proof.
  intros Hv. unfold ulp. destruct (Z.ltb_spec v (2 ^ 53)); [lia|].
  pose proof (Z.log2_spec v ltac:(lia)) as [Hl _]. pose proof (Z.log2_le_mono (2 ^ 53) v ltac:(done)) as Hm. rewrite Z.log2_pow2 in Hm by lia.
  rewrite <- Z.pow_add_r by lia. replace (52 + (Z.log2 v - 52)) with (Z.log2 v) by lia. lia.
Qed.

Lemma ulp_mono v w : 0 <= v <= w -> ulp v <= ulp w /\ ulp w mod ulp v = 0.
Proof.
  intros [Hv Hw]. unfold ulp. destruct (Z.ltb_spec v (2 ^ 53)), (Z.ltb_spec w (2 ^ 53)); try lia; try (split; [lia|by rewrite Z.mod_1_r]).
  - split; [|by rewrite Z.mod_1_r]. pose proof (ulp_pos w) as Hp. unfold ulp in Hp. destruct (Z.ltb_spec w (2 ^ 53)); lia.
  - pose proof (Z.log2_le_mono v w Hw). pose proof (Z.log2_le_mono (2 ^ 53) v ltac:(done)) as Hm. rewrite Z.log2_pow2 in Hm by lia.
    split; [apply Z.pow_le_mono_r; lia|].
    replace (Z.log2 w - 52) with ((Z.log2 w - Z.log2 v) + (Z.log2 v - 52)) by lia. rewrite Z.pow_add_r by lia. apply Z.mod_mul. apply Z.pow_nonzero; lia.
Qed.

(** The rounding as a multiple of the unit at the quotient. *)
Lemma round_error num den :
  0 <= num -> 0 < den ->
  let u := ulp (num / den) in
  0 <= round num den /\ 2 * (den * round num den) <= 2 * num + den * u /\ round num den mod u = 0.
Proof.
  intros Hn Hd u. pose proof (ulp_pos (num / den)) as Hu. fold u in Hu. unfold round. fold u.
  pose proof (Z.div_mod num (den * u) ltac:(nia)) as Hdm. pose proof (Z.mod_pos_bound num (den * u) ltac:(nia)) as Hb.
  set (t := num / (den * u)) in *. assert (0 <= t) by (apply Z.div_pos; nia).
  assert (Hm : forall x, x * u mod u = 0) by (intros x; apply Z.mod_mul; lia).
  repeat case_match; rewrite ?Hm; repeat match goal with H : (_ <? _) = true |- _ => apply Z.ltb_lt in H | H : (_ <? _) = false |- _ => apply Z.ltb_ge in H end;
    split_and!; try done; nia.
Qed.

(** Rounding a number of full precision has a relative error only. *)
Lemma round_relative num den :
  0 <= num -> 0 < den -> num = 0 \/ 2 ^ 52 * den <= num -> 2 ^ 53 * (den * round num den) <= (2 ^ 53 + 1) * num.
Proof.
  intros Hn Hd Hc. pose proof (round_error num den Hn Hd) as (_ & He & _).
  pose proof (Z.div_mod num den ltac:(lia)) as Hq. pose proof (Z.mod_pos_bound num den Hd) as Hr.
  pose proof (Z.div_pos num den Hn Hd) as Hq0. pose proof (ulp_small (num / den) Hq0) as Hu.
  destruct Hc as [->|Hc].
  - assert (Hz : round 0 den = 0); [|rewrite Hz; lia].
    unfold round. rewrite (Z.div_0_l den) by lia. change (ulp 0) with 1. rewrite Z.mul_1_r, Z.div_0_l by lia.
    destruct (Z.ltb_spec (2 * (0 - 0 * den)) den); lia.
  - assert (2 ^ 52 <= num / den) by (apply Z.div_le_lower_bound; lia). rewrite Z.max_l in Hu by lia. nia.
Qed.

Lemma round_absolute num den : 0 <= num -> 0 < den -> 2 ^ 53 * (den * round num den) <= (2 ^ 53 + 1) * num + 2 ^ 53 * den.
Proof.
  intros Hn Hd. pose proof (round_error num den Hn Hd) as (_ & He & _).
  pose proof (Z.div_mod num den ltac:(lia)) as Hq. pose proof (Z.mod_pos_bound num den Hd) as Hr.
  pose proof (Z.div_pos num den Hn Hd) as Hq0. pose proof (ulp_small (num / den) Hq0) as Hu. nia.
Qed.

(** Rounding up to a double goes no further. *)
Lemma round_below x c : 0 <= x < c -> is_f64 c = true -> round x 1 <= c.
Proof.
  intros Hx [_ Hc%Z.eqb_eq]%andb_true_iff. destruct (ulp_mono x c ltac:(lia)) as [_ Hm]. pose proof (ulp_pos x) as Hp. pose proof (ulp_pos c) as Hpc.
  apply Z.mod_divide in Hc as [a Ha]; [|lia]. apply Z.mod_divide in Hm as [b Hb]; [|lia]. rewrite Hb, Z.mul_assoc in Ha.
  unfold round. rewrite Z.div_1_r, !Z.mul_1_l. set (u := ulp x) in *.
  assert (x / u < a * b) by (apply Z.div_lt_upper_bound; lia).
  assert ((x / u + 1) * u <= c) by nia. assert (x / u * u <= c) by nia. by repeat case_match.
Qed.

Lemma round_near x c : 0 <= x <= c -> 2 * round x 1 <= 2 * x + ulp c.
Proof.
  intros Hx. pose proof (round_error x 1 ltac:(lia) ltac:(lia)) as (_ & He & _). rewrite Z.div_1_r in He.
  destruct (ulp_mono x c Hx) as [Hm _]. lia.
Qed.

(** A multiple of the unit is its own rounding. *)
Lemma round_exact x : 0 <= x -> x mod ulp x = 0 -> round x 1 = x.
Proof.
  intros Hx Hm. pose proof (ulp_pos x). unfold round. rewrite Z.div_1_r, !Z.mul_1_l.
  pose proof (Z.div_mod x (ulp x) ltac:(lia)) as Hd. rewrite Hm in Hd. destruct (Z.ltb_spec (2 * (x - x / ulp x * ulp x)) (ulp x)); lia.
Qed.

Lemma round_int x : 0 <= x -> 2 ^ 53 * round x 1 <= (2 ^ 53 + 1) * x.
Proof.
  intros Hx. destruct (Z.lt_ge_cases x (2 ^ 53)).
  - rewrite round_exact; [lia|done|]. unfold ulp. destruct (Z.ltb_spec x (2 ^ 53)); [apply Z.mod_1_r|lia].
  - pose proof (round_relative x 1 Hx ltac:(lia)). lia.
Qed.

Lemma one_large : 2 ^ 52 * 10 ^ 9 <= one.
Proof. by vm_compute. Qed.

Lemma of_Z_exact n : 0 <= n < 2 ^ 53 -> of_Z n = n * one.
Proof.
  intros Hn. destruct (decide (n = 0)) as [->|]; [by vm_compute|]. unfold of_Z. apply round_exact; [pose proof one_pos; nia|].
  unfold ulp. destruct (Z.ltb_spec (n * one) (2 ^ 53)); [apply Z.mod_1_r|].
  unfold one. rewrite Z.log2_mul_pow2 by lia. pose proof (Z.log2_nonneg n).
  assert (Z.log2 n < 53) by (apply Z.log2_lt_pow2; lia).
  replace (2 ^ 1074) with (2 ^ (52 - Z.log2 n) * 2 ^ (1074 + Z.log2 n - 52)) by (rewrite <- Z.pow_add_r by lia; f_equal; lia).
  rewrite Z.mul_assoc. apply Z.mod_mul, Z.pow_nonzero; lia.
Qed.

Lemma round_nonneg num den : 0 <= num -> 0 < den -> 0 <= round num den.
Proof. intros Hn Hd. apply (round_error num den Hn Hd). Qed.

(** The seconds of a duration, at most one part in [2^51] too many. *)
Lemma as_secs_bound d : 0 <= d -> 0 <= as_secs_f64 d /\ 2 ^ 51 * 10 ^ 9 * as_secs_f64 d <= (2 ^ 51 + 1) * (d * one).
Proof.
  intros Hd. unfold as_secs_f64. pose proof one_pos as H1. pose proof one_large as Hl.
  pose proof (Z.div_mod d 1000000000 ltac:(lia)) as Hdm. pose proof (Z.mod_pos_bound d 1000000000 ltac:(lia)) as Hr.
  set (sec := d / 1000000000) in *. set (n := d mod 1000000000) in *. assert (0 <= sec) by (apply Z.div_pos; lia).
  rewrite (of_Z_exact n) by lia. rewrite (of_Z_exact 1000000000) by lia.
  pose proof (round_int (sec * one) ltac:(nia)) as HA. pose proof (round_nonneg (sec * one) 1 ltac:(nia) ltac:(lia)) as HA0.
  assert (HB : 2 ^ 53 * (1000000000 * div (n * one) (1000000000 * one)) <= (2 ^ 53 + 1) * (n * one)).
  { pose proof (round_relative (n * one * one) (1000000000 * one) ltac:(nia) ltac:(lia)) as HB. unfold div.
    apply (Zmult_le_reg_r _ _ one); [lia|]. transitivity ((2 ^ 53 + 1) * (n * one * one)); [|lia].
    etransitivity; [|apply HB]; [lia|]. destruct (decide (n = 0)) as [->|]; [left; lia|right]. nia. }
  pose proof (round_nonneg (n * one * one) (1000000000 * one) ltac:(nia) ltac:(lia)) as HB0. unfold of_Z, div, add in *.
  set (a := round (sec * one) 1) in *. set (b := round (n * one * one) (1000000000 * one)) in *.
  pose proof (round_int (a + b) ltac:(lia)) as HE. pose proof (round_nonneg (a + b) 1 ltac:(lia) ltac:(lia)) as HE0. split; [done|].
  replace (d * one) with (1000000000 * (sec * one) + n * one) by (rewrite Hdm; ring).
  assert (0 <= sec * one) by nia. assert (0 <= n * one) by nia. lia.
Qed.

(** The tokens of a refill. *)
Lemma refill_bound d r : 0 <= d -> 0 <= r ->
  0 <= mul (as_secs_f64 d) r /\ 2 ^ 50 * 10 ^ 9 * (mul (as_secs_f64 d) r - 2) <= (2 ^ 50 + 1) * (d * r).
Proof.
  intros Hd Hr. destruct (as_secs_bound d Hd) as [H0 Hs]. pose proof one_pos as H1. set (e := as_secs_f64 d) in *. unfold mul.
  split; [apply round_nonneg; nia|]. pose proof (round_absolute (e * r) one ltac:(nia) H1) as Hm. set (x := round (e * r) one) in *.
  apply (Z.mul_le_mono_nonneg_r _ _ r) in Hs; [|done]. apply (Zmult_le_reg_r _ _ one); [lia|].
  assert (0 <= d * one * r) by nia. assert (Hx : 0 <= e * r) by nia.
  assert (2 ^ 51 * 10 ^ 9 * (e * r) <= (2 ^ 51 + 1) * (d * one * r)) by lia.
  clearbody x e. clear Hs. revert H1 Hm H H2. generalize one. intros w H1 Hm H H2.
  replace ((2 ^ 50 + 1) * (d * r) * w) with ((2 ^ 50 + 1) * (d * w * r)) by lia.
  replace (2 ^ 50 * 10 ^ 9 * (x - 2) * w) with (2 ^ 50 * 10 ^ 9 * (w * x) - 2 ^ 51 * 10 ^ 9 * w) by lia. lia.
Qed.
End F64Facts.

(** ** How many requests pass *)

Inductive LimiterOp := LAllow (now : Z) (key : Str) | LEvict (now : Z).

Definition op_time (op : LimiterOp) : Z := match op with LAllow t _ | LEvict t => t end.

Definition limiter_exec (op : LimiterOp) (s : Limiter) : Limiter * bool :=
  match op with LAllow now key => allow now key s | LEvict now => (limiter_evict now s, false) end.

(** The requests of a client: how many were made, and how many passed. *)
Fixpoint limiter_run (k : Str) (ops : list LimiterOp) (s : Limiter) : Limiter * Z * Z :=
  match ops with
  | [] => (s, 0, 0)
  | op :: ops' =>
    let '(s1, ok) := limiter_exec op s in
    let '(s2, made, passed) := limiter_run k ops' s1 in
    let mine := match op with LAllow _ key => bool_decide (key = k) | LEvict _ => false end in
    (s2, (if mine then 1 else 0) + made, (if mine && ok then 1 else 0) + passed)
  end.

(** Instants do not go back, and stay within a period. *)
Fixpoint in_order (from upto : Z) (ops : list LimiterOp) : Prop :=
  match ops with
  | [] => from <= upto
  | op :: ops' => from <= op_time op /\ in_order (op_time op) upto ops'
  end.

Lemma in_order_le from upto ops : in_order from upto ops -> from <= upto.
Proof. revert from; induction ops as [|op ops IH]; intros from; simpl; [done|]. intros [H1 H2%IH]. lia. Qed.

Section bound.
Context (rate capacity stale : Z).
Context (Hrate : 0 <= rate) (Hcap : F64.is_f64 capacity = true) (Hstale : capacity * 10 ^ 9 <= rate * stale).
Implicit Types s : Limiter.

Definition of_config s : Prop := rl_rate s = rate /\ rl_capacity s = capacity /\ rl_stale_after s = stale.

(** What rounding may add to a call. *)
Definition slack : Z := 2 * F64.ulp capacity + 2.

(** The tokens of a client, and since when. *)
Definition tokens_of s (k : Str) (now : Z) : Z * Z :=
  match rl_buckets s !! k with Some b => (bk_tokens b, bk_last_fill b) | None => (capacity, now) end.

(** [spent] has gone and the rest is there: no more than the capacity, the
    refills since [t0], and the rounding of [n] calls. *)
Definition within_budget (t0 now : Z) s (k : Str) (n spent : Z) : Prop :=
  let '(tok, last) := tokens_of s k now in
  0 <= tok <= capacity /\ last <= now /\
  2 ^ 50 * 10 ^ 9 * (spent * F64.one + tok) <= 2 ^ 50 * 10 ^ 9 * (capacity + n * slack) + (2 ^ 50 + 1) * ((last - t0) * rate).

Lemma capacity_nonneg : 0 <= capacity.
Proof. unfold F64.is_f64 in Hcap. apply andb_true_iff in Hcap as [H _]. by apply Z.leb_le. Qed.

(** One refill and one withdrawal. *)
Lemma refill_cap tok d :
  0 <= tok <= capacity -> 0 <= d ->
  let x := F64.add tok (F64.mul (F64.as_secs_f64 d) rate) in
  let x := if capacity <? x then capacity else x in
  0 <= x <= capacity /\ 2 ^ 50 * 10 ^ 9 * x <= 2 ^ 50 * 10 ^ 9 * (tok + F64.ulp capacity + 2) + (2 ^ 50 + 1) * (d * rate).
Proof.
  intros Ht Hd. destruct (F64Facts.refill_bound d rate Hd Hrate) as [H0 Hr]. pose proof capacity_nonneg as Hc. pose proof (F64Facts.ulp_pos capacity) as Hu.
  set (inc := F64.mul (F64.as_secs_f64 d) rate) in *. unfold F64.add. pose proof (F64Facts.round_nonneg (tok + inc) 1 ltac:(lia) ltac:(lia)) as Hn.
  destruct (Z.ltb_spec capacity (F64.round (tok + inc) 1)) as [Hlt|Hge]; cbv zeta.
  - assert (capacity <= tok + inc); [|lia]. destruct (Z.lt_ge_cases (tok + inc) capacity) as [Hl|]; [|done].
    pose proof (F64Facts.round_below (tok + inc) capacity ltac:(lia) Hcap). lia.
  - split; [lia|]. destruct (Z.le_gt_cases (tok + inc) capacity) as [Hl|Hg].
    + pose proof (F64Facts.round_near (tok + inc) capacity ltac:(lia)). lia.
    + lia.
Qed.

Lemma allow_budget t0 now0 now s k n spent key :
  of_config s -> now0 <= now -> within_budget t0 now0 s k n spent ->
  let '(s', ok) := allow now key s in
  of_config s' /\ within_budget t0 now s' k (n + if bool_decide (key = k) then 1 else 0) (spent + if bool_decide (key = k) && ok then 1 else 0).
Proof.
  intros (Hr & Hc & Hs) Hle Hw. unfold allow. rewrite Hr, Hc. pose proof (F64Facts.ulp_pos capacity) as Hu.
  set (b := default (mkBucket capacity now) (rl_buckets s !! key)). case_bool_decide as Hk; [subst key|].
  - assert (Hb : 0 <= bk_tokens b <= capacity /\ 0 <= duration_since now (bk_last_fill b) /\
      2 ^ 50 * 10 ^ 9 * (spent * F64.one + bk_tokens b) + (2 ^ 50 + 1) * (duration_since now (bk_last_fill b) * rate) <=
      2 ^ 50 * 10 ^ 9 * (capacity + n * slack) + (2 ^ 50 + 1) * ((now - t0) * rate)).
    { unfold within_budget, tokens_of in Hw. subst b. unfold duration_since. destruct (rl_buckets s !! k) as [b|]; cbn [from_option id bk_tokens bk_last_fill];
        destruct Hw as (Ht & Hl & Hw); (split; [done|split; [lia|]]).
      - rewrite Z.max_r by lia. lia.
      - rewrite Z.max_l by lia. assert ((now0 - t0) * rate <= (now - t0) * rate) by (apply Z.mul_le_mono_nonneg_r; lia). lia. }
    clearbody b. destruct Hb as (Ht & Hd & Hb). destruct (refill_cap (bk_tokens b) (duration_since now (bk_last_fill b)) Ht Hd) as [Hx Hxb]. cbv zeta in Hx, Hxb.
    set (x := if capacity <? _ then capacity else _) in *. pose proof F64Facts.one_pos as H1. unfold within_budget, tokens_of, slack in *.
    destruct (Z.ltb_spec x F64.one) as [Hlt|Hge]; (split; [done|]); cbn [set_buckets rl_buckets]; rewrite lookup_insert_eq; cbn [bk_tokens bk_last_fill andb].
    + split; [done|split; [lia|]]. lia.
    + pose proof (F64Facts.round_nonneg (x - F64.one) 1 ltac:(lia) ltac:(lia)). pose proof (F64Facts.round_near (x - F64.one) capacity ltac:(lia)) as Hn.
      fold (F64.sub x F64.one) in *. split; [split; [done|]|split; [lia|]].
      * apply (F64Facts.round_below (x - F64.one) capacity); [lia|done].
      * lia.
  - unfold within_budget, tokens_of in *.
    assert (Hsame : forall nb, set_buckets s (<[key := nb]> (rl_buckets s)) = mkLimiter (<[key := nb]> (rl_buckets s)) rate capacity stale)
      by (intros; unfold set_buckets; by rewrite Hr, Hc, Hs).
    destruct (_ <? F64.one); rewrite Hsame; (split; [done|]); cbn [rl_buckets andb]; rewrite !Z.add_0_r, lookup_insert_ne by done;
      (destruct (rl_buckets s !! k) as [b0|]; destruct Hw as (Ht & Hl & Hw); (split; [done|split; [lia|]]); [done|];
       assert ((now0 - t0) * rate <= (now - t0) * rate) by (apply Z.mul_le_mono_nonneg_r; lia); lia).
Qed.

Lemma evict_budget t0 now0 now s k n spent :
  of_config s -> t0 <= now0 <= now -> within_budget t0 now0 s k n spent ->
  of_config (limiter_evict now s) /\ within_budget t0 now (limiter_evict now s) k n spent.
Proof.
  intros (Hr & Hc & Hs) Hle Hw. split; [done|]. pose proof capacity_nonneg as Hc0. unfold within_budget, tokens_of in *. cbn [limiter_evict set_buckets rl_buckets].
  destruct (rl_buckets s !! k) as [b|] eqn:Hb.
  - destruct Hw as (Ht & Hl & Hw). destruct (filter _ _ !! k) as [b'|] eqn:Hf.
    + apply map_lookup_filter_Some in Hf as [Hb' _]. rewrite Hb in Hb'. injection Hb' as <-. split; [done|split; [lia|done]].
    + apply map_lookup_filter_None in Hf as [Hn|Hn]; [congruence|]. specialize (Hn b Hb). cbn [snd] in Hn. rewrite Hs in Hn. unfold duration_since in Hn.
      split; [lia|split; [lia|]]. assert (stale < now - bk_last_fill b \/ stale < 0) as Hd by lia.
      assert (capacity * 10 ^ 9 <= (now - bk_last_fill b) * rate) by nia.
      assert (0 <= (now - bk_last_fill b) * rate) by nia. lia.
  - destruct Hw as (Ht & Hl & Hw). replace (filter _ _ !! k) with (@None Bucket); [|symmetry; apply map_lookup_filter_None; by left].
    split; [done|split; [lia|]]. assert ((now0 - t0) * rate <= (now - t0) * rate) by (apply Z.mul_le_mono_nonneg_r; lia). lia.
Qed.

Lemma run_budget t0 now0 upto s k n spent ops :
  of_config s -> t0 <= now0 -> in_order now0 upto ops -> within_budget t0 now0 s k n spent ->
  let '(s', made, passed) := limiter_run k ops s in exists now, now <= upto /\ within_budget t0 now s' k (n + made) (spent + passed).
Proof.
  revert s now0 n spent; induction ops as [|op ops IH]; intros s now0 n spent Hcf Ht Ho Hw; cbn [limiter_run].
  { exists now0. rewrite !Z.add_0_r. done. }
  cbn [in_order] in Ho. destruct Ho as [Hle Ho].
  assert (Hstep : let '(s1, ok) := limiter_exec op s in let mine := match op with LAllow _ key => bool_decide (key = k) | LEvict _ => false end in
    of_config s1 /\ within_budget t0 (op_time op) s1 k (n + if mine then 1 else 0) (spent + if mine && ok then 1 else 0)).
  { destruct op as [now key|now]; cbn [limiter_exec op_time] in *.
    - exact (allow_budget t0 now0 now s k n spent key Hcf Hle Hw).
    - cbn [andb]. rewrite !Z.add_0_r. by apply (evict_budget t0 now0). }
  destruct (limiter_exec op s) as [s1 ok]. cbv zeta in Hstep. destruct Hstep as [Hcf1 Hw1].
  pose proof (IH s1 (op_time op) _ _ Hcf1 ltac:(lia) Ho Hw1) as Hr. destruct (limiter_run k ops s1) as [[s2 made] passed].
  destruct Hr as (now & Hn & Hr). exists now. split; [done|]. by rewrite !Z.add_assoc.
Qed.
End bound.

(** The limiter limits.  With a capacity that is refilled before a bucket
    counts as stale, in any period, whatever all clients request and whenever
    buckets are evicted, the requests of a client that pass are at most the
    capacity, the refill of the period, and the rounding of the arithmetic: a
    part in [2^50] of the refill and two units in the last place of the capacity
    per request. *)
Theorem limiter_bound rate capacity stale t0 t1 k ops :
  0 <= rate -> F64.is_f64 capacity = true -> 0 < stale -> capacity * 10 ^ 9 <= rate * stale -> in_order t0 t1 ops ->
  let '(_, made, passed) := limiter_run k ops (limiter_new rate capacity stale) in
  2 ^ 50 * 10 ^ 9 * (passed * F64.one) <= 2 ^ 50 * 10 ^ 9 * (capacity + made * (2 * F64.ulp capacity + 2)) + (2 ^ 50 + 1) * ((t1 - t0) * rate).
Proof.
  intros Hr Hc Hst Hs Ho. pose proof (capacity_nonneg capacity Hc) as H0.
  assert (Hcf : of_config rate capacity stale (limiter_new rate capacity stale)).
  { split_and!; try done. unfold limiter_new. cbn [rl_stale_after]. destruct (Z.eqb_spec stale 0); [lia|done]. }
  pose proof (run_budget rate capacity stale Hr Hc Hs t0 t0 t1 (limiter_new rate capacity stale) k 0 0 ops Hcf ltac:(lia) Ho) as Hrun.
  destruct (limiter_run k ops _) as [[s' made] passed]. destruct Hrun as (now & Hn & Hw).
  { unfold within_budget, tokens_of. cbn [limiter_new rl_buckets]. rewrite lookup_empty. split; [lia|split; [lia|]]. lia. }
  unfold within_budget in Hw. destruct (tokens_of capacity s' k now) as [tok last]. destruct Hw as (Ht & Hl & Hw). unfold slack in Hw. rewrite !Z.add_0_l in Hw.
  assert ((last - t0) * rate <= (t1 - t0) * rate) by (apply Z.mul_le_mono_nonneg_r; lia). lia.
Qed.
