(* ===== verification/Client.v ===== *)
(** * API: requests and their clients

    Statuses, headers and identities of requests, and the key a request is
    accounted under ([ratelimit.rs] of [dp-api]): the wallet, the API key, or
    the address of the client, which is that of the connection unless a trusted
    proxy forwarded it.  Address ranges belong to the crate [ipnet] and are a
    parameter. *)

From S2P Require Import Prelude Decimal Types Field Auction Events EngineState Engine Text.
Open Scope Z_scope.

(** ** Requests *)

(** The codes of [tonic] the server answers with. *)
Inductive Code :=
| InvalidArgument
| NotFound
| AlreadyExists
| PermissionDenied
| ResourceExhausted
| FailedPrecondition
| OutOfRange
| Internal
| Unavailable
| DataLoss
| Unauthenticated.

#[export] Instance Code_eq_dec : EqDecision Code.
Proof. solve_decision. Defined.

(** A status with its message. *)
Record Status := mkStatus { st_code : Code; st_message : Str }.

(** The headers of a request by name, in order; [None] is a value that is not
    visible ASCII ([to_str] fails). *)
Definition Headers : Type := Str -> list (option Str).

(** [get] returns the first value of a name. *)
Definition header (h : Headers) (name : Str) : option (option Str) := head (h name).

Definition AUTH_HEADER : Str := str "x-api-key".

Inductive AuthenticatedIdentity := ApiKey | Wallet (a : Address).

(** ** Trusted proxies *)

Class IpNetOps (N : Type) := {
  net_parse : Str -> result N Str;
  net_host : IpAddr -> N;
  net_contains : N -> IpAddr -> bool
}.

Section proxies.
Context {N : Type} `{!IpNetOps N}.

Definition TrustedProxies : Type := list N.

(** One entry of the list, [None] when it is blank. *)
Definition parse_proxy (tok : Str) : result (option N) Str :=
  let tok := Pair.trim tok in
  if bool_decide (tok = []) then Ok None
  else if existsb (Z.eqb (char "/")) tok then
    match net_parse tok with Ok n => Ok (Some n) | Err e => Err (str "invalid trusted-proxy CIDR '" ++ tok ++ str "': " ++ e) end
  else
    match parse_ip tok with
    | Some ip => Ok (Some (net_host ip))
    | None => Err (str "invalid trusted-proxy IP '" ++ tok ++ str "'")
    end.

Fixpoint parse_proxies (toks : list Str) : result TrustedProxies Str :=
  match toks with
  | [] => Ok []
  | tok :: toks' =>
    let? n := parse_proxy tok in
    let? ns := parse_proxies toks' in
    Ok (match n with Some n => n :: ns | None => ns end)
  end.

Definition proxies_parse (spec : Str) : result TrustedProxies Str :=
  parse_proxies (split_at (fun c => (c =? char ",") || (c =? 32) || (c =? 9) || (c =? 10)) spec).

Definition proxies_contain (t : TrustedProxies) (ip : IpAddr) : bool := existsb (fun n => net_contains n ip) t.

(** ** The address of the client *)

Definition parse_forwarded_ip (s : Str) : option IpAddr :=
  let s := Pair.trim s in
  if bool_decide (s = []) then None
  else
    match parse_ip s with
    | Some ip => Some ip
    | None =>
      match parse_socket_addr s with
      | Some ip => Some ip
      | None => match rsplit_once (char ":") s with Some (host, _) => parse_ip host | None => None end
      end
    end.

(** The addresses of the forwarding headers, in order. *)
Definition forwarded_chain (h : Headers) : list IpAddr :=
  flat_map (fun v => match v with
                     | None => []
                     | Some s => omap parse_forwarded_ip (split_at (Z.eqb (char ",")) s)
                     end) (h (str "x-forwarded-for")).

Definition forwarded_for_client (trusted : TrustedProxies) (h : Headers) : option IpAddr :=
  let chain := forwarded_chain h in
  match List.find (fun ip => negb (proxies_contain trusted ip)) (rev chain) with
  | Some ip => Some ip
  | None => head chain
  end.

Definition real_ip (h : Headers) : option IpAddr :=
  match header h (str "x-real-ip") with Some (Some s) => parse_forwarded_ip s | _ => None end.

Definition resolve_client_ip (trusted : TrustedProxies) (h : Headers) (peer : option IpAddr) : option IpAddr :=
  match peer with
  | None => None
  | Some peer_ip =>
    if bool_decide (trusted = []) || negb (proxies_contain trusted peer_ip) then Some peer_ip
    else
      match forwarded_for_client trusted h with
      | Some ip => Some ip
      | None => match real_ip h with Some ip => Some ip | None => Some peer_ip end
      end
  end.

(** ** Keys *)

Context `{!AddressOps}.

Definition ip_client_key (trusted : TrustedProxies) (h : Headers) (peer : option IpAddr) : Str :=
  match resolve_client_ip trusted h peer with Some ip => print_ip ip | None => str "anonymous" end.

(** An address prints as [{:#x}]. *)
Definition client_key (identity : option AuthenticatedIdentity) (h : Headers) (peer : option IpAddr) (trusted : TrustedProxies) : Str :=
  match identity with
  | Some (Wallet a) => fmt_address a
  | _ =>
    match header h AUTH_HEADER with
    | Some (Some (c :: s)) => c :: s
    | _ => ip_client_key trusted h peer
    end
  end.

(** ** Forwarding cannot be forged *)

Lemma find_last_untrusted trusted pre c hops :
  proxies_contain trusted c = false -> Forall (fun ip => proxies_contain trusted ip = true) hops ->
  List.find (fun ip => negb (proxies_contain trusted ip)) (rev (pre ++ c :: hops)) = Some c.
Proof.
  intros Hc Hh. rewrite rev_app_distr. cbn [rev]. rewrite <- app_assoc. apply Forall_rev in Hh. induction Hh as [|x l Hx _ IH]; simpl; [by rewrite Hc|].
  rewrite Hx. apply IH.
Qed.

(** The address a client is accounted under is not its own choice.  A peer
    that is no trusted proxy is accounted under its own address whatever it puts
    into the headers.  Behind trusted proxies that append the address they see,
    the client is the last untrusted address of the chain, whatever entries the
    client put in front of it. *)
Theorem client_ip_unforgeable trusted h peer :
  (proxies_contain trusted peer = false -> resolve_client_ip trusted h (Some peer) = Some peer) /\
  (forall forged client hops, proxies_contain trusted peer = true -> forwarded_chain h = forged ++ client :: hops ->
    proxies_contain trusted client = false -> Forall (fun ip => proxies_contain trusted ip = true) hops ->
    resolve_client_ip trusted h (Some peer) = Some client).
Proof.
  unfold resolve_client_ip. split.
  - intros Hp. rewrite Hp. by rewrite orb_true_r.
  - intros forged client hops Hp Hch Hc Hh. rewrite Hp. rewrite bool_decide_false by (by intros ->). cbn [orb negb].
    unfold forwarded_for_client. by rewrite Hch, find_last_untrusted.
Qed.
End proxies.
