(* ===== verification/Siwe.v ===== *)
(** * API: signing in with a wallet

    [siwe.rs] of [dp-api]: the store of single-use nonces with its budget per
    client, the verification of a signed message, and the session tokens.  The
    parser and the signature check of the crate [siwe] and the coder of
    [jsonwebtoken] are parameters.  Instants and durations are nanoseconds. *)

From S2P Require Import Prelude Decimal Types Field Auction Events EngineState Engine Text.
Open Scope Z_scope.

(** ** The nonce store *)

Definition MAX_NONCES : Z := 10000.
Definition MAX_NONCES_PER_IP : Z := 128.

Record NonceEntry := mkNonceEntry { ne_created : Z; ne_owner : Str }.

Record NonceInner := mkNonceInner { ni_nonces : gmap Str NonceEntry; ni_per_ip : gmap Str Z }.

Definition nonces_new : NonceInner := mkNonceInner ∅ ∅.

(** [Instant::elapsed] never goes below zero. *)
Definition elapsed (now created : Z) : Z := Z.max 0 (now - created).

(** Counts are [usize]. *)
Definition decrement_owner (per_ip : gmap Str Z) (owner : Str) : gmap Str Z :=
  match per_ip !! owner with
  | Some count =>
    let count := wrap64 (count - 1) in
    if count =? 0 then delete owner per_ip else <[owner := count]> per_ip
  | None => per_ip
  end.

(** [nonce] is what [siwe::generate_nonce] draws. *)
Definition generate_for (now : Z) (nonce client_key : Str) (i : NonceInner) : NonceInner * option Str :=
  if MAX_NONCES <=? Z.of_nat (size (ni_nonces i)) then (i, None)
  else if MAX_NONCES_PER_IP <=? default 0 (ni_per_ip i !! client_key) then (i, None)
  else
    (mkNonceInner (<[nonce := mkNonceEntry now client_key]> (ni_nonces i))
       (<[client_key := default 0 (ni_per_ip i !! client_key) + 1]> (ni_per_ip i)), Some nonce).

Definition generate (now : Z) (nonce : Str) (i : NonceInner) : NonceInner * option Str :=
  generate_for now nonce (str "anonymous") i.

Definition consume (ttl now : Z) (nonce : Str) (i : NonceInner) : NonceInner * bool :=
  match ni_nonces i !! nonce with
  | Some entry =>
    (mkNonceInner (delete nonce (ni_nonces i)) (decrement_owner (ni_per_ip i) (ne_owner entry)),
     elapsed now (ne_created entry) <=? ttl)
  | None => (i, false)
  end.

(** The closure of [retain], on one entry. *)
Definition evict_entry (ttl now : Z) (i : NonceInner) (x : Str * NonceEntry) : NonceInner :=
  if elapsed now (ne_created x.2) <=? ttl then i
  else mkNonceInner (delete x.1 (ni_nonces i)) (decrement_owner (ni_per_ip i) (ne_owner x.2)).

Definition evict_stale {HI : HashIter} (ttl now : Z) (i : NonceInner) : NonceInner :=
  fold_left (evict_entry ttl now) (hm_iter (ni_nonces i)) i.

(** ** Messages *)

Inductive SiweError :=
| SiweParse (e : Str)
| NonceInvalid
| SiweExpired
| ExpirationRequired
| ExpiryTooFar
| NotYetValid
| IssuedInFuture
| DomainMismatch (expected got : Str)
| ChainMismatch (expected got : Z)
| SiweVerification (e : Str).

Definition siwe_error_text (e : SiweError) : Str :=
  match e with
  | SiweParse e => str "failed to parse SIWE message: " ++ e
  | NonceInvalid => str "nonce invalid or expired"
  | SiweExpired => str "SIWE message expired"
  | ExpirationRequired => str "SIWE message must set an expiration time"
  | ExpiryTooFar => str "SIWE message expiration is too far in the future"
  | NotYetValid => str "SIWE message not yet valid"
  | IssuedInFuture => str "SIWE message issued_at is in the future"
  | DomainMismatch expected got => str "domain mismatch: expected " ++ expected ++ str ", got " ++ got
  | ChainMismatch expected got => str "chain ID mismatch: expected " ++ print_dec expected ++ str ", got " ++ print_dec got
  | SiweVerification e => str "signature verification failed: " ++ e
  end.

Definition NONCE_TTL_SECS : Z := 300.
Definition NONCE_TTL : Z := secs NONCE_TTL_SECS.
Definition ISSUED_AT_LEEWAY : Z := secs 120.
Definition MAX_EXPIRY_WINDOW : Z := secs (2 * NONCE_TTL_SECS).

(** The fields of [siwe::Message] that are read. *)
Record SiweMessage := mkSiweMessage {
  sm_domain : Str;
  sm_address : Address;
  sm_chain_id : Z;
  sm_nonce : Str;
  sm_issued_at : Z;
  sm_expiration_time : option Z;
  sm_not_before : option Z
}.

Class SiweOps := {
  siwe_parse : Str -> result SiweMessage Str;
  verify_eip191 : SiweMessage -> bytes -> result unit Str
}.

(** The type of the parsed address is [[u8; 20]]. *)
Class SiweLaws `{!SiweOps} : Prop := {
  siwe_address : forall s m, siwe_parse s = Ok m -> length (sm_address m) = 20%nat /\ Forall is_byte (sm_address m)
}.

Section verify.
Context `{!SiweOps}.

(** The checks before the nonce; [now] is the server's wall clock. *)
Definition check_message (now : Z) (signature : bytes) (expected_chain_id : option Z) (expected_domain : option Str)
    (message : SiweMessage) : result unit SiweError :=
  let? _ := match expected_domain with
            | Some domain => if bool_decide (sm_domain message = domain) then Ok tt else Err (DomainMismatch domain (sm_domain message))
            | None => Ok tt
            end in
  let? _ := match expected_chain_id with
            | Some expected => if sm_chain_id message =? expected then Ok tt else Err (ChainMismatch expected (sm_chain_id message))
            | None => Ok tt
            end in
  if now + ISSUED_AT_LEEWAY <? sm_issued_at message then Err IssuedInFuture
  else
    let? _ := match sm_expiration_time message with
              | None => Err ExpirationRequired
              | Some exp =>
                if exp <? now then Err SiweExpired
                else if now + MAX_EXPIRY_WINDOW <? exp then Err ExpiryTooFar
                else Ok tt
              end in
    let? _ := match sm_not_before message with
              | Some nbf => if now <? nbf then Err NotYetValid else Ok tt
              | None => Ok tt
              end in
    match verify_eip191 message signature with
    | Err e => Err (SiweVerification e)
    | Ok _ => Ok tt
    end.

(** [mono] is the monotonic clock of the nonce store. *)
Definition verify_siwe_message (now mono ttl : Z) (message_str : Str) (signature : bytes) (expected_chain_id : option Z)
    (expected_domain : option Str) (i : NonceInner) : NonceInner * result Address SiweError :=
  match siwe_parse message_str with
  | Err e => (i, Err (SiweParse e))
  | Ok message =>
    match check_message now signature expected_chain_id expected_domain message with
    | Err e => (i, Err e)
    | Ok _ =>
      let '(i', ok) := consume ttl mono (sm_nonce message) i in
      if ok then (i', Ok (sm_address message)) else (i', Err NonceInvalid)
    end
  end.
End verify.

(** ** Session tokens *)

Definition JWT_ISSUER : Str := str "darkpool".

Record Claims := mkClaims { c_sub : Str; c_iss : Str; c_aud : Str; c_iat : Z; c_exp : Z }.

(** [encode] and [decode] of the crate, with the algorithm pinned; [decode]
    takes the issuer and the audience to expect and the time in seconds. *)
Class JwtOps := {
  jwt_encode : bytes -> Claims -> result Str Str;
  jwt_decode : bytes -> Str -> Str -> Z -> Str -> result Claims Str
}.

(** The tolerance the crate adds to the expiry by default. *)
Definition jwt_leeway : Z := 60.

Class JwtLaws `{!JwtOps} : Prop := {
  jwt_accepts : forall key iss aud now c t, jwt_encode key c = Ok t ->
    c_iss c = iss -> c_aud c = aud -> now <= c_exp c -> jwt_decode key iss aud now t = Ok c;
  jwt_expires : forall key iss aud now c t, jwt_encode key c = Ok t -> c_exp c + jwt_leeway < now ->
    exists e, jwt_decode key iss aud now t = Err e;
  jwt_validates : forall key iss aud now c t, jwt_decode key iss aud now t = Ok c ->
    c_iss c = iss /\ c_aud c = aud /\ now <= c_exp c + jwt_leeway
}.

(** The key of both directions, and the lifetime. *)
Record JwtManager := mkJwtManager { jm_key : bytes; jm_ttl : Z }.

Definition jwt_manager_new (secret : Str) (ttl : Z) : JwtManager := mkJwtManager (as_bytes secret) ttl.

Section jwt.
Context `{!JwtOps, !AddressOps}.

(** [now] is the wall clock, in nanoseconds since the epoch; before it, zero. *)
Definition unix_secs (now : Z) : Z := Z.max 0 now / 1000000000.

Definition issue (j : JwtManager) (now : Z) (address : Address) : result (Str * Z) Str :=
  let iat := unix_secs now in
  let exp := wrap64 (iat + jm_ttl j / 1000000000) in
  let? token := jwt_encode (jm_key j) (mkClaims (fmt_address address) JWT_ISSUER JWT_ISSUER iat exp) in
  Ok (token, exp).

Definition jwt_verify (j : JwtManager) (now : Z) (token : Str) : result Claims Str :=
  jwt_decode (jm_key j) JWT_ISSUER JWT_ISSUER (unix_secs now) token.

Definition address_from_claims (c : Claims) : option Address := parse_address (c_sub c).
End jwt.

(** The configuration of the endpoints; [NonceStore::new] takes the lifetime of
    a nonce. *)
Record SiweState := mkSiweState {
  ss_nonce_ttl : Z;
  ss_jwt : JwtManager;
  ss_chain_id : option Z;
  ss_expected_domain : option Str
}.

(** ** The budget of a client *)

(** The nonces a client holds, and the count kept for it. *)
Definition owned (i : NonceInner) (k : Str) : Z := Z.of_nat (size (filter (fun x => ne_owner x.2 = k) (ni_nonces i))).
Definition counted (i : NonceInner) (k : Str) : Z := default 0 (ni_per_ip i !! k).

Definition one_if (P : Prop) `{!Decision P} : Z := if decide P then 1 else 0.

Record nonces_ok (i : NonceInner) : Prop := {
  no_total : Z.of_nat (size (ni_nonces i)) <= MAX_NONCES;
  no_counted : forall k, owned i k <= counted i k;
  no_range : forall k c, ni_per_ip i !! k = Some c -> 1 <= c <= MAX_NONCES_PER_IP
}.

Definition nonces_exact (i : NonceInner) : Prop := forall k, owned i k = counted i k.

Lemma owned_insert (m : gmap Str NonceEntry) p p' n en k :
  m !! n = None -> owned (mkNonceInner (<[n := en]> m) p) k = owned (mkNonceInner m p') k + one_if (ne_owner en = k).
Proof.
  intros Hn. unfold owned, one_if. cbn [ni_nonces]. case_decide.
  - rewrite map_filter_insert_True by done. rewrite map_size_insert_None; [lia|]. apply map_lookup_filter_None. by left.
  - rewrite map_filter_insert_False by done. rewrite delete_id by done. lia.
Qed.

Lemma owned_delete (m : gmap Str NonceEntry) p p' n en k :
  m !! n = Some en -> owned (mkNonceInner (delete n m) p) k = owned (mkNonceInner m p') k - one_if (ne_owner en = k).
Proof.
  intros Hn. rewrite <- (insert_delete_id m n en Hn) at 2. rewrite (owned_insert _ _ p) by apply lookup_delete_eq. lia.
Qed.

Lemma owned_nonneg i k : 0 <= owned i k.
Proof. unfold owned. lia. Qed.

Lemma decrement_counted p o k :
  (exists c, p !! o = Some c /\ 1 <= c <= MAX_NONCES_PER_IP) ->
  default 0 (decrement_owner p o !! k) = default 0 (p !! k) - one_if (o = k).
Proof.
  intros (c & Hc & Hr). unfold decrement_owner, one_if, MAX_NONCES_PER_IP in *. rewrite Hc, wrap64_id by (unfold u64_max; lia).
  destruct (Z.eqb_spec (c - 1) 0); case_decide; subst.
  - rewrite lookup_delete_eq, Hc. simpl. lia.
  - rewrite lookup_delete_ne by done. lia.
  - rewrite lookup_insert_eq, Hc. simpl. lia.
  - rewrite lookup_insert_ne by done. lia.
Qed.

Lemma decrement_range p o k c :
  (forall k c, p !! k = Some c -> 1 <= c <= MAX_NONCES_PER_IP) -> decrement_owner p o !! k = Some c -> 1 <= c <= MAX_NONCES_PER_IP.
Proof.
  intros Hr. unfold decrement_owner. destruct (p !! o) as [c0|] eqn:Ho; [|apply Hr]. pose proof (Hr _ _ Ho) as H0. unfold MAX_NONCES_PER_IP in *.
  rewrite wrap64_id by (unfold u64_max; lia). destruct (Z.eqb_spec (c0 - 1) 0).
  - intros [_ Hk]%lookup_delete_Some. by eapply Hr.
  - intros [[<- <-]|[_ Hk]]%lookup_insert_Some; [lia|by eapply Hr].
Qed.

(** A nonce is taken out with its count. *)
Lemma take_ok i n en :
  nonces_ok i -> ni_nonces i !! n = Some en ->
  let i' := mkNonceInner (delete n (ni_nonces i)) (decrement_owner (ni_per_ip i) (ne_owner en)) in
  nonces_ok i' /\ (nonces_exact i -> nonces_exact i').
Proof.
  intros [Ht Hc Hr] Hn i'. destruct i as [m p]. cbn [ni_nonces ni_per_ip] in *.
  assert (Hsome : exists c, p !! ne_owner en = Some c /\ 1 <= c <= MAX_NONCES_PER_IP).
  { pose proof (Hc (ne_owner en)) as H1. pose proof (owned_delete m p p n en (ne_owner en) Hn) as H2. unfold one_if in H2. rewrite decide_True in H2 by done.
    pose proof (owned_nonneg (mkNonceInner (delete n m) p) (ne_owner en)). unfold counted in H1. cbn [ni_per_ip] in H1.
    destruct (p !! ne_owner en) as [c|] eqn:Ho; simpl in H1; [|lia]. exists c. split; [done|by eapply Hr]. }
  subst i'. split; [split|].
  - cbn [ni_nonces]. pose proof (map_size_delete n m) as Hs. rewrite Hn in Hs. simpl in Hs. rewrite Hs. lia.
  - intros k. rewrite (owned_delete _ _ p _ _ _ Hn). unfold counted. cbn [ni_per_ip]. rewrite decrement_counted by done.
    specialize (Hc k). unfold counted in Hc. cbn [ni_per_ip] in Hc. lia.
  - intros k c. cbn [ni_per_ip]. by apply decrement_range.
  - intros He k. rewrite (owned_delete _ _ p _ _ _ Hn). unfold counted. cbn [ni_per_ip]. rewrite decrement_counted by done. by rewrite (He k).
Qed.

Lemma generate_ok now n key i :
  nonces_ok i -> nonces_ok (fst (generate_for now n key i)) /\
  (nonces_exact i -> ni_nonces i !! n = None -> nonces_exact (fst (generate_for now n key i))).
Proof.
  intros [Ht Hc Hr]. unfold generate_for.
  destruct (Z.leb_spec MAX_NONCES (Z.of_nat (size (ni_nonces i)))); [done|].
  destruct (Z.leb_spec MAX_NONCES_PER_IP (default 0 (ni_per_ip i !! key))) as [|Hk]; [done|]. destruct i as [m p]. cbn [fst ni_nonces ni_per_ip] in *.
  assert (Hcnt : forall k, default 0 (<[key := default 0 (p !! key) + 1]> p !! k) = default 0 (p !! k) + one_if (key = k)).
  { intros k. unfold one_if. case_decide; subst; [by rewrite lookup_insert_eq|]. rewrite lookup_insert_ne by done. lia. }
  split; [split|].
  - cbn [ni_nonces]. rewrite map_size_insert. destruct (m !! n); simpl; lia.
  - intros k. specialize (Hc k). unfold counted in *. cbn [ni_per_ip] in *. rewrite Hcnt. destruct (m !! n) as [en|] eqn:Hn.
    + rewrite <- insert_delete_eq. rewrite (owned_insert _ _ p) by apply lookup_delete_eq. rewrite (owned_delete _ _ p _ _ _ Hn).
      unfold one_if. cbn [ne_owner]. repeat case_decide; lia.
    + rewrite (owned_insert _ _ p) by done. cbn [ne_owner]. lia.
  - intros k c. cbn [ni_per_ip]. intros [[<- <-]|[_ Hp]]%lookup_insert_Some; [|by eapply Hr].
    destruct (p !! key) as [c0|] eqn:H0; simpl in *; [specialize (Hr _ _ H0)|]; unfold MAX_NONCES_PER_IP in *; lia.
  - intros He Hn k. rewrite (owned_insert _ _ p) by done. rewrite (He k). unfold counted. cbn [ni_per_ip ne_owner]. by rewrite Hcnt.
Qed.

Lemma consume_ok ttl now n i :
  nonces_ok i -> nonces_ok (fst (consume ttl now n i)) /\ (nonces_exact i -> nonces_exact (fst (consume ttl now n i))).
Proof. intros Hok. unfold consume. destruct (ni_nonces i !! n) as [en|] eqn:Hn; [|done]. by apply take_ok. Qed.

Lemma evict_list ttl now l i :
  NoDup l.*1 -> (forall n en, (n, en) ∈ l -> ni_nonces i !! n = Some en) -> nonces_ok i ->
  let i' := fold_left (evict_entry ttl now) l i in
  nonces_ok i' /\ (nonces_exact i -> nonces_exact i') /\
  (forall n en, ni_nonces i' !! n = Some en <-> ni_nonces i !! n = Some en /\ ((n, en) ∈ l -> elapsed now (ne_created en) <= ttl)).
Proof.
  revert i; induction l as [|[n en] l IH]; intros i Hnd Hl Hok; cbn [fold_left]; [split_and!; [done|done|]; intros n en; split; [|tauto]; intros Hs; split; [done|]; by intros ?%not_elem_of_nil|].
  cbn [fmap list_fmap fst] in Hnd. apply NoDup_cons in Hnd as [Hn Hnd]. unfold evict_entry at 2 4 6. cbn [fst snd].
  assert (Hin : ni_nonces i !! n = Some en) by (apply Hl; left).
  assert (Hl' : forall n0 en0, (n0, en0) ∈ l -> n0 <> n) by (intros n0 en0 H0 ->; apply Hn, list_elem_of_fmap; by exists (n, en0)).
  destruct (Z.leb_spec (elapsed now (ne_created en)) ttl) as [Hle|Hgt].
  - destruct (IH i Hnd) as (H1 & H2 & H3); [intros; apply Hl; by right|done|]. split_and!; [done|done|].
    intros n0 en0. rewrite H3. split; intros [Hs Hc]; (split; [done|]).
    + intros [[= -> ->]|Hin']%elem_of_cons; [done|by apply Hc].
    + intros Hin'. apply Hc. by right.
  - destruct (take_ok i n en Hok Hin) as [Hok' Hex].
    destruct (IH (mkNonceInner (delete n (ni_nonces i)) (decrement_owner (ni_per_ip i) (ne_owner en))) Hnd) as (H1 & H2 & H3); [|done|].
    { intros n0 en0 H0. cbn [ni_nonces]. rewrite lookup_delete_ne; [apply Hl; by right|]. intros ->. by eapply Hl'. }
    split_and!; [done|by intros ?%Hex%H2|]. intros n0 en0. rewrite H3. cbn [ni_nonces]. rewrite lookup_delete_Some. split.
    + intros [[Hne Hs] Hc]. split; [done|]. intros [[= -> ->]|Hin']%elem_of_cons; [done|by apply Hc].
    + intros [Hs Hc]. split; [split; [|done]|intros Hin'; apply Hc; by right]. intros ->. rewrite Hin in Hs. injection Hs as ->. specialize (Hc ltac:(left)). lia.
Qed.

Lemma evict_ok {HI : HashIter} ttl now i :
  nonces_ok i -> nonces_ok (evict_stale ttl now i) /\ (nonces_exact i -> nonces_exact (evict_stale ttl now i)) /\
  (forall n en, ni_nonces (evict_stale ttl now i) !! n = Some en <-> ni_nonces i !! n = Some en /\ elapsed now (ne_created en) <= ttl).
Proof.
  intros Hok. destruct (evict_list ttl now (hm_iter (ni_nonces i)) i) as (H1 & H2 & H3).
  - apply NoDup_hm_keys.
  - intros n en. by rewrite elem_of_hm_iter.
  - done.
  - split_and!; [done|done|]. intros n en. unfold evict_stale. rewrite H3. split; intros [Hs Hc]; (split; [done|]); auto.
    apply Hc. by apply elem_of_hm_iter.
Qed.

(** ** Runs of the sign-in endpoints *)

Section runs.
Context `{!SiweOps} {HI : HashIter} (ttl : Z) (expected_chain_id : option Z) (expected_domain : option Str).

Inductive AuthOp :=
| ANonce (mono : Z) (nonce client_key : Str)
| AVerify (now mono : Z) (message : Str) (signature : bytes)
| AEvict (mono : Z).

(** What the clients see: nonces issued and logins accepted. *)
Inductive AuthEvent :=
| Issued (mono : Z) (nonce client_key : Str)
| LoggedIn (mono : Z) (nonce : Str) (a : Address).

Definition auth_exec (op : AuthOp) (i : NonceInner) : NonceInner * list AuthEvent :=
  match op with
  | ANonce mono nonce k => let '(i', r) := generate_for mono nonce k i in (i', match r with Some n => [Issued mono n k] | None => [] end)
  | AVerify now mono msg sig =>
    let '(i', r) := verify_siwe_message now mono ttl msg sig expected_chain_id expected_domain i in
    (i', match r, siwe_parse msg with Ok a, Ok m => [LoggedIn mono (sm_nonce m) a] | _, _ => [] end)
  | AEvict mono => (evict_stale ttl mono i, [])
  end.

Fixpoint auth_run (ops : list AuthOp) (i : NonceInner) : NonceInner * list AuthEvent :=
  match ops with
  | [] => (i, [])
  | op :: ops' => let '(i1, evs1) := auth_exec op i in let '(i2, evs2) := auth_run ops' i1 in (i2, evs1 ++ evs2)
  end.

Definition issues (n : Str) (evs : list AuthEvent) : nat :=
  length (List.filter (fun e => match e with Issued _ n' _ => bool_decide (n' = n) | _ => false end) evs).
Definition accepts (n : Str) (evs : list AuthEvent) : nat :=
  length (List.filter (fun e => match e with LoggedIn _ n' _ => bool_decide (n' = n) | _ => false end) evs).

Lemma issues_app n e1 e2 : issues n (e1 ++ e2) = (issues n e1 + issues n e2)%nat.
Proof. unfold issues. rewrite List.filter_app. apply length_app. Qed.
Lemma accepts_app n e1 e2 : accepts n (e1 ++ e2) = (accepts n e1 + accepts n e2)%nat.
Proof. unfold accepts. rewrite List.filter_app. apply length_app. Qed.

(** The events so far account for the nonces of the store. *)
Definition accounted (i : NonceInner) (evs : list AuthEvent) : Prop :=
  forall n, match ni_nonces i !! n with
  | Some en => (accepts n evs < issues n evs)%nat /\ Issued (ne_created en) n (ne_owner en) ∈ evs
  | None => (accepts n evs <= issues n evs)%nat
  end.

(** Every accepted login uses up an earlier nonce that is fresh enough. *)
Definition logins_ok (evs : list AuthEvent) : Prop :=
  forall evs1 t n a evs2, evs = evs1 ++ LoggedIn t n a :: evs2 ->
    (accepts n evs1 < issues n evs1)%nat /\ exists t0 k, Issued t0 n k ∈ evs1 /\ t - t0 <= ttl.

Lemma logins_snoc evs e :
  logins_ok evs -> (forall t n a, e = LoggedIn t n a -> (accepts n evs < issues n evs)%nat /\ exists t0 k, Issued t0 n k ∈ evs /\ t - t0 <= ttl) ->
  logins_ok (evs ++ [e]).
Proof.
  intros Hl He evs1 t n a evs2 Heq. destruct evs2 as [|e2 evs2 _] using rev_ind.
  - apply app_inj_tail in Heq as [-> ->]. by eapply He.
  - rewrite app_comm_cons, app_assoc in Heq. apply app_inj_tail in Heq as [-> _]. by eapply Hl.
Qed.

Lemma consume_accounted now n i evs :
  accounted i evs -> accounted (fst (consume ttl now n i)) evs.
Proof.
  intros Ha m. unfold consume. destruct (ni_nonces i !! n) as [en|] eqn:Hn; [|apply Ha]. cbn [fst ni_nonces].
  destruct (decide (n = m)) as [<-|Hne]; [rewrite lookup_delete_eq|rewrite lookup_delete_ne by done; apply Ha].
  specialize (Ha n). rewrite Hn in Ha. lia.
Qed.

Lemma exec_accounted op i evs :
  nonces_ok i -> accounted i evs -> logins_ok evs ->
  let '(i', evs') := auth_exec op i in nonces_ok i' /\ accounted i' (evs ++ evs') /\ logins_ok (evs ++ evs').
Proof.
  intros Hok Ha Hl. destruct op as [mono n k|now mono msg sig|mono]; cbn [auth_exec].
  - pose proof (generate_ok mono n k i Hok) as [Hok' _]. destruct (generate_for mono n k i) as [i' r] eqn:Hg. simpl in Hok'. split; [done|].
    unfold generate_for in Hg. destruct (_ <=? _); [injection Hg as <- <-; by rewrite app_nil_r|].
    destruct (_ <=? _); [injection Hg as <- <-; by rewrite app_nil_r|]. injection Hg as <- <-. split; [|by apply logins_snoc].
    intros m. cbn [ni_nonces]. rewrite accepts_app, issues_app. unfold accepts at 2 4, issues at 2 4. cbn [List.filter].
    specialize (Ha m). destruct (decide (n = m)) as [<-|Hne].
    + rewrite lookup_insert_eq, bool_decide_true by done. cbn [length ne_created ne_owner]. split; [|apply elem_of_app; right; by left].
      destruct (ni_nonces i !! n); lia.
    + rewrite lookup_insert_ne, bool_decide_false by done. cbn [length]. destruct (ni_nonces i !! m); [|lia].
      destruct Ha as [? ?]. split; [lia|]. apply elem_of_app. by left.
  - unfold verify_siwe_message. destruct (siwe_parse msg) as [m|e]; [|by rewrite app_nil_r].
    destruct (check_message _ _ _ _ _); [|by rewrite app_nil_r].
    pose proof (consume_ok ttl mono (sm_nonce m) i Hok) as [Hok' _]. pose proof (consume_accounted mono (sm_nonce m) i evs Ha) as Ha'.
    pose proof (Ha (sm_nonce m)) as Hm. unfold consume in *. destruct (ni_nonces i !! sm_nonce m) as [en|] eqn:Hn; [|by rewrite app_nil_r].
    cbn [fst] in *. destruct (Z.leb_spec (elapsed mono (ne_created en)) ttl) as [Hle|]; [|by rewrite app_nil_r]. destruct Hm as [Hlt Hin]. split_and!.
    + done.
    + intros n. specialize (Ha' n). cbn [ni_nonces] in *. rewrite accepts_app, issues_app. unfold accepts at 2 4, issues at 2 4. cbn [List.filter length].
      destruct (decide (sm_nonce m = n)) as [<-|Hne].
      * rewrite lookup_delete_eq, bool_decide_true by done. cbn [length]. lia.
      * rewrite bool_decide_false by done. cbn [length]. destruct (delete _ _ !! n); [|lia]. destruct Ha' as [? ?].
        split; [lia|]. apply elem_of_app. by left.
    + apply logins_snoc; [done|]. intros t n a0 [= <- <- <-]. split; [done|]. exists (ne_created en), (ne_owner en). split; [done|].
      unfold elapsed in Hle. lia.
  - pose proof (evict_ok ttl mono i Hok) as (Hok' & _ & Hs). rewrite app_nil_r. split_and!; [done| |done].
    intros n. specialize (Ha n). destruct (ni_nonces (evict_stale ttl mono i) !! n) as [en|] eqn:Hn.
    + apply Hs in Hn as [Hn _]. by rewrite Hn in Ha.
    + destruct (ni_nonces i !! n); [|done]. lia.
Qed.

Lemma run_accounted ops i evs :
  nonces_ok i -> accounted i evs -> logins_ok evs ->
  let '(i', evs') := auth_run ops i in nonces_ok i' /\ accounted i' (evs ++ evs') /\ logins_ok (evs ++ evs').
Proof.
  revert i evs; induction ops as [|op ops IH]; intros i evs Hok Ha Hl; cbn [auth_run]; [by rewrite app_nil_r|].
  pose proof (exec_accounted op i evs Hok Ha Hl) as Hx. destruct (auth_exec op i) as [i1 evs1]. destruct Hx as (H1 & H2 & H3).
  pose proof (IH i1 (evs ++ evs1) H1 H2 H3) as Hr. destruct (auth_run ops i1) as [i2 evs2]. by rewrite app_assoc.
Qed.

Lemma nonces_new_ok : nonces_ok nonces_new.
Proof. split; [by vm_compute|intros k; by unfold owned|]. intros k c. cbn [nonces_new ni_per_ip]. by rewrite lookup_empty. Qed.

(** A login uses up a nonce.  Whatever the clients request and whenever
    stale nonces are evicted, each accepted login is preceded by more issues of
    its nonce than logins with it, one of them at most [ttl] old: no signed
    message is accepted twice.  The store never holds more than its maximum, and
    no client more than its share, with a count that never underflows. *)
Theorem login_uses_nonce ops :
  let '(i, evs) := auth_run ops nonces_new in
  logins_ok evs /\ Z.of_nat (size (ni_nonces i)) <= MAX_NONCES /\ forall k, owned i k <= MAX_NONCES_PER_IP.
Proof.
  pose proof (run_accounted ops nonces_new [] nonces_new_ok) as Hr. destruct (auth_run ops nonces_new) as [i evs].
  destruct Hr as ([Ht Hc Hk] & _ & Hl).
  - intros n. cbn [nonces_new ni_nonces]. by rewrite lookup_empty.
  - intros evs1 t n a evs2 Heq. by destruct evs1.
  - split_and!; [done|done|]. intros k. specialize (Hc k). unfold counted in Hc. destruct (ni_per_ip i !! k) as [c|] eqn:Hp; simpl in Hc.
    + apply Hk in Hp. lia.
    + unfold MAX_NONCES_PER_IP. lia.
Qed.
End runs.
