(* ===== verification/Auth.v ===== *)
(** * API: who is calling

    [auth.rs] of [dp-api] and the two sign-in endpoints of [rest.rs]: API keys
    compared by digest, session tokens, and the way from a signed message to a
    request made in the name of its wallet. *)

From S2P Require Import Prelude Decimal Types Field Auction Events EngineState Engine Text Client Siwe.
Open Scope Z_scope.

(** ** Statuses *)

Definition invalid_argument (m : Str) : Status := mkStatus InvalidArgument m.
Definition not_found (m : Str) : Status := mkStatus NotFound m.
Definition already_exists (m : Str) : Status := mkStatus AlreadyExists m.
Definition permission_denied (m : Str) : Status := mkStatus PermissionDenied m.
Definition resource_exhausted (m : Str) : Status := mkStatus ResourceExhausted m.
Definition failed_precondition (m : Str) : Status := mkStatus FailedPrecondition m.
Definition internal (m : Str) : Status := mkStatus Internal m.
Definition data_loss (m : Str) : Status := mkStatus DataLoss m.
Definition unauthenticated (m : Str) : Status := mkStatus Unauthenticated m.

Definition MSG_MISSING_API_KEY : Str := str "missing api key".
Definition MSG_INVALID_API_KEY : Str := str "invalid api key".
Definition MSG_RATE_LIMIT_EXCEEDED : Str := str "rate limit exceeded".

Section auth.
Context `{SH : !Sha256, JO : !JwtOps, AO : !AddressOps}.

(** ** The check of a request *)

Record AuthCore := mkAuthCore { ac_disabled : bool; ac_digests : list bytes; ac_jwt : option JwtManager }.

Definition digest_keys (keys : list Str) : list bytes :=
  map (fun k => sha256 (as_bytes k)) (List.filter (fun k => negb (bool_decide (k = []))) keys).

Definition auth_new (keys : list Str) : AuthCore := mkAuthCore (bool_decide (keys = [])) (digest_keys keys) None.

Definition auth_new_with_jwt (keys : list Str) (jwt : JwtManager) : AuthCore :=
  mkAuthCore (bool_decide (keys = [])) (digest_keys keys) (Some jwt).

(** Every digest is compared, whatever the outcome so far. *)
Definition verify_key (a : AuthCore) (key : Str) : bool :=
  let presented := sha256 (as_bytes key) in
  fold_left (fun matched digest => matched || bool_decide (presented = digest)) (ac_digests a) false.

Definition check_api_key (a : AuthCore) (h : Headers) : result AuthenticatedIdentity Status :=
  if ac_disabled a then Ok ApiKey
  else
    match header h AUTH_HEADER with
    | None => Err (unauthenticated MSG_MISSING_API_KEY)
    | Some None => Err (unauthenticated MSG_INVALID_API_KEY)
    | Some (Some key) =>
      if bool_decide (key = []) then Err (unauthenticated MSG_MISSING_API_KEY)
      else if verify_key a key then Ok ApiKey
      else Err (unauthenticated MSG_INVALID_API_KEY)
    end.

Definition AUTHORIZATION : Str := str "authorization".

(** [now] is the wall clock. *)
Definition check_bearer (a : AuthCore) (now : Z) (token : Str) : result AuthenticatedIdentity Status :=
  match ac_jwt a with
  | None => Err (unauthenticated (str "bearer authentication not enabled"))
  | Some jwt =>
    match jwt_verify jwt now token with
    | Err e => Err (unauthenticated (str "invalid token: " ++ e))
    | Ok claims =>
      match address_from_claims claims with
      | None => Err (unauthenticated (str "invalid address in token"))
      | Some addr => Ok (Wallet addr)
      end
    end
  end.

Definition auth_check (a : AuthCore) (now : Z) (h : Headers) : result AuthenticatedIdentity Status :=
  match header h AUTHORIZATION with
  | Some None => Err (unauthenticated (str "invalid authorization header"))
  | Some (Some v) =>
    match strip_prefix (str "Bearer ") v with
    | Some token => check_bearer a now token
    | None => check_api_key a h
    end
  | None => check_api_key a h
  end.

(** ** Signing in *)

Context `{SO : !SiweOps, HO : !HexOps}.

Record VerifyResponse := mkVerifyResponse { vr_token : Str; vr_expires_at : Z; vr_address : Str }.

(** [key] is what the limiter recorded, [nonce] the drawn nonce. *)
Definition rest_auth_nonce (mono : Z) (nonce : Str) (key : option Str) (i : NonceInner) : NonceInner * result Str Status :=
  let '(i', r) := generate_for mono nonce (default (str "anonymous") key) i in
  (i', match r with Some n => Ok n | None => Err (resource_exhausted (str "nonce store full")) end).

Definition parse_signature (s : Str) : result bytes Status :=
  match hex_decode (default s (strip_prefix (str "0x") s)) with
  | None => Err (invalid_argument (str "invalid signature hex"))
  | Some b => if (length b =? 65)%nat then Ok b else Err (invalid_argument (str "signature must be 65 bytes"))
  end.

Definition rest_auth_verify (st : SiweState) (now mono : Z) (message signature : Str) (i : NonceInner) :
    NonceInner * result VerifyResponse Status :=
  match parse_signature signature with
  | Err e => (i, Err e)
  | Ok sig =>
    let '(i', r) := verify_siwe_message now mono (ss_nonce_ttl st) message sig (ss_chain_id st) (ss_expected_domain st) i in
    (i', match r with
         | Err e => Err (unauthenticated (siwe_error_text e))
         | Ok address =>
           match issue (ss_jwt st) now address with
           | Err e => Err (internal (str "jwt issue: " ++ e))
           | Ok (token, expires_at) => Ok (mkVerifyResponse token expires_at (fmt_address address))
           end
         end)
  end.

(** ** Facts *)

Lemma fold_or (P : bytes -> bool) l b : fold_left (fun m d => m || P d) l b = b || existsb P l.
Proof. revert b; induction l as [|d l IH]; intros b; simpl; [by rewrite orb_false_r|]. by rewrite IH, orb_assoc. Qed.

(** An API key passes when its digest is that of a configured key. *)
Lemma verify_key_spec a key : verify_key a key = true <-> sha256 (as_bytes key) ∈ ac_digests a.
Proof.
  unfold verify_key. rewrite fold_or, orb_false_l, existsb_exists. split.
  - intros (d & Hd & He%bool_decide_eq_true). rewrite He. by apply list_elem_of_In.
  - intros Hd. exists (sha256 (as_bytes key)). split; [by apply list_elem_of_In|by apply bool_decide_eq_true].
Qed.

(** What a request that passes has shown. *)
Lemma auth_check_ok a now h id :
  auth_check a now h = Ok id ->
  (id = ApiKey /\ (ac_disabled a = true \/ exists key, header h AUTH_HEADER = Some (Some key) /\ key <> [] /\ sha256 (as_bytes key) ∈ ac_digests a)) \/
  (exists addr token jwt claims, id = Wallet addr /\ header h AUTHORIZATION = Some (Some (str "Bearer " ++ token)) /\
    ac_jwt a = Some jwt /\ jwt_verify jwt now token = Ok claims /\ parse_address (c_sub claims) = Some addr).
Proof.
  assert (Hkey : check_api_key a h = Ok id -> id = ApiKey /\
    (ac_disabled a = true \/ exists key, header h AUTH_HEADER = Some (Some key) /\ key <> [] /\ sha256 (as_bytes key) ∈ ac_digests a)).
  { unfold check_api_key. destruct (ac_disabled a); [intros [= <-]; auto|].
    destruct (header h AUTH_HEADER) as [[key|]|]; [|done..]. case_bool_decide; [done|].
    destruct (verify_key a key) eqn:Hv; [|done]. intros [= <-]. apply verify_key_spec in Hv. eauto 10. }
  unfold auth_check. destruct (header h AUTHORIZATION) as [[v|]|] eqn:Hh; [|done|auto].
  destruct (strip_prefix (str "Bearer ") v) as [token|] eqn:Ht; [|auto]. apply strip_prefix_Some in Ht as ->.
  unfold check_bearer. destruct (ac_jwt a) as [jwt|]; [|done]. destruct (jwt_verify jwt now token) as [c|] eqn:Hv; [|done].
  unfold address_from_claims. destruct (parse_address (c_sub c)) as [addr|] eqn:Ha; [|done].
  intros [= <-]. right. exists addr, token, jwt, c. split_and!; done.
Qed.
End auth.

(** ** Sessions *)

Section session.
Context `{SH : !Sha256, JO : !JwtOps, AO : !AddressOps, SO : !SiweOps, HO : !HexOps}.
Context `{JL : !JwtLaws, AL : !AddressLaws, SL : !SiweLaws}.

(** A message the server accepts from [now], with the nonce store [i]. *)
Record login_ok (st : SiweState) (now mono : Z) (i : NonceInner) (m : SiweMessage) (sig : bytes) : Prop := {
  lo_signed : verify_eip191 m sig = Ok tt;
  lo_domain : forall d, ss_expected_domain st = Some d -> sm_domain m = d;
  lo_chain : forall c, ss_chain_id st = Some c -> sm_chain_id m = c;
  lo_issued : sm_issued_at m <= now + ISSUED_AT_LEEWAY;
  lo_expires : exists exp, sm_expiration_time m = Some exp /\ now <= exp <= now + MAX_EXPIRY_WINDOW;
  lo_starts : forall nbf, sm_not_before m = Some nbf -> nbf <= now;
  lo_nonce : exists en, ni_nonces i !! sm_nonce m = Some en /\ mono - ne_created en <= ss_nonce_ttl st
}.

Lemma check_message_ok now sig chain dom m :
  check_message now sig chain dom m = Ok tt ->
  verify_eip191 m sig = Ok tt /\ (forall d, dom = Some d -> sm_domain m = d) /\ (forall c, chain = Some c -> sm_chain_id m = c) /\
  sm_issued_at m <= now + ISSUED_AT_LEEWAY /\ (exists exp, sm_expiration_time m = Some exp /\ now <= exp <= now + MAX_EXPIRY_WINDOW) /\
  (forall nbf, sm_not_before m = Some nbf -> nbf <= now).
Proof.
  unfold check_message.
  destruct (match dom with Some _ => _ | None => _ end) as [[]|] eqn:Hd; [|done]; simpl.
  destruct (match chain with Some _ => _ | None => _ end) as [[]|] eqn:Hc; [|done]; simpl.
  destruct (Z.ltb_spec (now + ISSUED_AT_LEEWAY) (sm_issued_at m)); [done|].
  destruct (sm_expiration_time m) as [exp|]; [|done].
  destruct (Z.ltb_spec exp now); [done|]. destruct (Z.ltb_spec (now + MAX_EXPIRY_WINDOW) exp); [done|]; simpl.
  destruct (match sm_not_before m with Some _ => _ | None => _ end) as [[]|] eqn:Hn; [|done]; simpl.
  destruct (verify_eip191 m sig) as [[]|]; [|done]. intros _. split_and!; try done.
  - intros d ->. by case_bool_decide.
  - intros c ->. by destruct (Z.eqb_spec (sm_chain_id m) c).
  - eexists. split; [done|lia].
  - intros nbf Heq. rewrite Heq in Hn. destruct (Z.ltb_spec now nbf); [done|lia].
Qed.

Lemma rest_auth_verify_ok st now mono msg signature i i' r :
  rest_auth_verify st now mono msg signature i = (i', Ok r) ->
  exists m sig, parse_signature signature = Ok sig /\ siwe_parse msg = Ok m /\ login_ok st now mono i m sig /\
    ni_nonces i' = delete (sm_nonce m) (ni_nonces i) /\ issue (ss_jwt st) now (sm_address m) = Ok (vr_token r, vr_expires_at r).
Proof.
  unfold rest_auth_verify. destruct (parse_signature signature) as [sig|]; [|done]. unfold verify_siwe_message.
  destruct (siwe_parse msg) as [m|]; [|done]. destruct (check_message _ _ _ _ m) as [[]|] eqn:Hc; [|done].
  apply check_message_ok in Hc as (? & ? & ? & ? & ? & ?). unfold consume.
  destruct (ni_nonces i !! sm_nonce m) as [en|] eqn:Hn; [|done].
  destruct (Z.leb_spec (elapsed mono (ne_created en)) (ss_nonce_ttl st)) as [Hle|]; [|done].
  destruct (issue (ss_jwt st) now (sm_address m)) as [[token exp]|] eqn:Hi; [|done]. intros [= <- <-].
  exists m, sig. cbn [ni_nonces vr_token vr_expires_at]. split_and!; try done. split; try done.
  exists en. split; [done|]. unfold elapsed in Hle. lia.
Qed.

(** C28: from a signature to a session and no further.  A login that succeeds was
    signed by the wallet over a message of this site, this chain, this moment
    and a fresh nonce, which is used up.  The token it returns makes the
    requests that carry it requests of exactly that wallet until it expires,
    and makes them fail as unauthenticated once the tolerance of a minute after
    the expiry is over. *)
Theorem login_session st auth now mono msg signature i i' r :
  ac_jwt auth = Some (ss_jwt st) -> unix_secs now + jm_ttl (ss_jwt st) / 1000000000 <= u64_max -> 0 <= jm_ttl (ss_jwt st) ->
  rest_auth_verify st now mono msg signature i = (i', Ok r) ->
  exists m sig, siwe_parse msg = Ok m /\ login_ok st now mono i m sig /\ ni_nonces i' !! sm_nonce m = None /\
    vr_expires_at r = unix_secs now + jm_ttl (ss_jwt st) / 1000000000 /\
    forall now' h, header h AUTHORIZATION = Some (Some (str "Bearer " ++ vr_token r)) ->
      (unix_secs now' <= vr_expires_at r -> auth_check auth now' h = Ok (Wallet (sm_address m))) /\
      (vr_expires_at r + jwt_leeway < unix_secs now' -> exists e, auth_check auth now' h = Err (unauthenticated e)).
Proof.
  intros Hj Hmax Httl Hv. apply rest_auth_verify_ok in Hv as (m & sig & _ & Hm & Hl & Hi & Hiss).
  exists m, sig. rewrite Hi, lookup_delete_eq. destruct (siwe_address msg m Hm) as [Ha Hb].
  unfold issue in Hiss. destruct (jwt_encode _ _) as [token|] eqn:He; [|done]. simpl in Hiss. injection Hiss as Ht Hx.
  assert (0 <= unix_secs now) by (unfold unix_secs; apply Z.div_pos; lia).
  assert (0 <= jm_ttl (ss_jwt st) / 1000000000) by (apply Z.div_pos; lia).
  rewrite wrap64_id in He, Hx by lia. split_and!; try done. intros now' h Hh.
  assert (Hc : auth_check auth now' h = check_bearer auth now' token).
  { unfold auth_check. rewrite Hh, (proj2 (strip_prefix_Some _ _ _) eq_refl). by rewrite Ht. }
  rewrite Hc. unfold check_bearer, jwt_verify. rewrite Hj, <- Hx. split; intros Hn.
  - rewrite (jwt_accepts _ _ _ _ _ _ He) by done. unfold address_from_claims. simpl. by rewrite parse_fmt_address.
  - destruct (jwt_expires _ JWT_ISSUER JWT_ISSUER (unix_secs now') _ _ He) as [e ->]; [simpl; lia|]. by eexists.
Qed.
End session.
