(* ===== verification/Keys.v ===== *)
(** * The operator's decryption keys

    [ecies_decrypter.rs], [key_source.rs] and [multi_key_decrypter.rs] of
    [dp-crypto], and the key administration of [admin.rs] of [dp-api].  A
    [Decrypter] is the record of its two methods.  The JSON of an order is the
    object its derived implementations of serde write and read, by the names of
    the fields; ECIES, the text of JSON, the files and the environment are
    parameters. *)

From S2P Require Import Prelude Decimal Types Field Auction Events EngineState Engine Witness Text.
Open Scope Z_scope.

(** ** Parameters *)

Class EciesOps := {
  secret_parse : bytes -> result unit Str;
  public_of_secret : bytes -> bytes;
  ecies_decrypt : bytes -> bytes -> result bytes Str;
  ecies_encrypt : Z -> bytes -> bytes -> bytes
}.

(** Encryption under a public key is undone by its secret, and refused under
    any other key: the ciphertext is authenticated. *)
Class EciesLaws `{!EciesOps} : Prop := {
  ecies_right : forall rng sk m, secret_parse sk = Ok tt -> ecies_decrypt sk (ecies_encrypt rng (public_of_secret sk) m) = Ok m;
  ecies_wrong : forall rng sk pk m, secret_parse sk = Ok tt -> public_of_secret sk <> pk ->
    exists e, ecies_decrypt sk (ecies_encrypt rng pk m) = Err e;
  public_bytes : forall sk, Forall is_byte (public_of_secret sk)
}.

(** A value of JSON as a field of a struct meets it: an [i64], a string, or
    anything else. *)
Inductive JsonValue := JNum (z : Z) | JText (s : Str) | JOther.

Inductive JsonDoc := JObject (members : list (Str * JsonValue)) | JArray (items : list JsonValue) | JScalar.

(** The text of [serde_json], and how a decimal and an address are written and
    read inside it. *)
Class OrderJson (D : Type) := {
  json_write : JsonDoc -> bytes;
  json_read : bytes -> option JsonDoc;
  dec_json : D -> Str;
  dec_of_json : JsonValue -> option D;
  address_json : Address -> Str;
  address_of_json : JsonValue -> option Address
}.

Class OrderJsonLaws (D : Type) `{!OrderJson D} : Prop := {
  json_reads : forall ms, Forall (fun m => snd m <> JOther) ms -> json_read (json_write (JObject ms)) = Some (JObject ms);
  dec_reads : forall d, dec_of_json (JText (dec_json d)) = Some d;
  address_reads : forall a, address_of_json (JText (address_json a)) = Some a
}.

(** ** Derived implementations of serde *)

(** The value of the one member of that name; a missing and a repeated field
    are errors, other members are passed over. *)
Definition member (ms : list (Str * JsonValue)) (name : Str) : option JsonValue :=
  match List.filter (fun m => bool_decide (fst m = name)) ms with [(_, v)] => Some v | _ => None end.

(** The fields of a struct, from an object or in order from an array. *)
Definition struct_fields (names : list Str) (doc : JsonDoc) : option (list JsonValue) :=
  match doc with
  | JObject ms => mapM (member ms) names
  | JArray items => if (length items =? length names)%nat then Some items else None
  | JScalar => None
  end.

Definition text_of_json (v : JsonValue) : option Str := match v with JText s => Some s | _ => None end.
Definition i64_of_json (v : JsonValue) : option Z := match v with JNum z => Some z | _ => None end.

(** [Deserialize_repr] and [Serialize_repr] of [Side] *)
Definition side_of_json (v : JsonValue) : option Side :=
  match v with JNum 0 => Some Buy | JNum 1 => Some Sell | _ => None end.

Definition side_json (s : Side) : JsonValue := JNum (side_u8 s).

(** [decrypted_order.rs] *)
Definition decrypted_order_fields : list Str :=
  [str "trader"; str "pair"; str "side"; str "price"; str "size"; str "commitment_key"; str "salt"; str "nonce";
   str "expires_at_unix_nanos"; str "ttl"].

Section order_json.
Context {D : Type} `{OJ : !OrderJson D}.

Definition order_to_json (o : DecryptedOrder D) : bytes :=
  json_write (JObject (zip decrypted_order_fields
    [JText (address_json (d_trader o)); JText (d_pair o); side_json (d_side o); JText (dec_json (d_price o)); JText (dec_json (d_size o));
     JText (d_commitment_key o); JText (d_salt o); JText (d_nonce o); JNum (d_expires_at_unix_nanos o); JNum (d_ttl o)])).

Definition order_from_json (b : bytes) : option (DecryptedOrder D) :=
  vs ← (json_read b ≫= struct_fields decrypted_order_fields);
  match vs with
  | [t; p; s; price; sz; k; salt; nonce; exp; ttl] =>
    t ← address_of_json t; p ← text_of_json p; s ← side_of_json s; price ← dec_of_json price; sz ← dec_of_json sz; k ← text_of_json k;
    salt ← text_of_json salt; nonce ← text_of_json nonce; exp ← i64_of_json exp; ttl ← i64_of_json ttl;
    Some (mkDecryptedOrder t p s price sz k salt nonce exp ttl)
  | _ => None
  end.

Lemma member_zip names vs ms name v :
  NoDup names -> length names = length vs -> zip names vs = ms -> (name, v) ∈ ms -> member ms name = Some v.
Proof.
  intros Hnd Hl <-. unfold member. revert vs Hl; induction Hnd as [|n names Hn Hnd IH]; intros [|w vs] Hl; try done; [by intros ?%not_elem_of_nil|]. injection Hl as Hl.
  cbn [zip_with List.filter fst]. intros [[= -> ->]|Hin]%elem_of_cons.
  - rewrite bool_decide_true by done. replace (List.filter _ _) with (@nil (Str * JsonValue)); [done|]. symmetry. clear -Hn. revert vs.
    induction names as [|m names IH]; intros [|w vs]; [done..|]. apply not_elem_of_cons in Hn as [Hm Hn]. cbn [zip_with List.filter fst].
    rewrite bool_decide_false by congruence. by apply IH.
  - rewrite bool_decide_false; [by apply IH|]. intros ->. apply Hn. apply elem_of_lookup_zip_with in Hin as (i & x & y & [= -> ->] & Hx & _).
    by eapply list_elem_of_lookup_2.
Qed.

Lemma struct_fields_zip names vs : NoDup names -> length names = length vs -> struct_fields names (JObject (zip names vs)) = Some vs.
Proof.
  intros Hnd Hl. cbn [struct_fields]. apply mapM_Some_2. apply Forall2_same_length_lookup_2; [done|]. intros i n v Hn Hv.
  eapply member_zip; [done..|]. apply elem_of_lookup_zip_with. by exists i, n, v.
Qed.

Context `{OL : !OrderJsonLaws D}.

(** What an order in JSON with the fields of the struct is read as. *)
Lemma order_from_members names vs : names = decrypted_order_fields -> length vs = 10%nat -> Forall (fun v => v <> JOther) vs ->
  json_read (json_write (JObject (zip names vs))) ≫= struct_fields decrypted_order_fields = Some vs.
Proof.
  intros -> Hl Hv. rewrite json_reads; [apply struct_fields_zip; [apply (bool_decide_unpack _); by vm_compute|done]|].
  apply Forall_forall. intros [n v] (i & x & y & [= -> ->] & _ & Hy)%elem_of_lookup_zip_with. rewrite Forall_forall in Hv. apply Hv. by eapply list_elem_of_lookup_2.
Qed.

Lemma json_roundtrip (o : DecryptedOrder D) : order_from_json (order_to_json o) = Some o.
Proof.
  unfold order_from_json, order_to_json. rewrite order_from_members by (done || by repeat constructor).
  destruct o as [t p s price sz k salt nonce exp ttl]. cbn -[address_of_json dec_of_json]. rewrite address_reads. cbn -[address_of_json dec_of_json].
  destruct s; cbn -[address_of_json dec_of_json]; rewrite !dec_reads; cbn -[address_of_json dec_of_json]; by rewrite ?dec_reads.
Qed.
End order_json.

(** The files, the passphrase of the environment, and the crate [age]. *)
Record KeyEnv := mkKeyEnv {
  ke_read : Str -> option Str;
  ke_passphrase : option Str;
  ke_age : Str -> Str -> result bytes Str
}.

Section keys.
Context {D : Type} `{HO : !HexOps, EO : !EciesOps, OJ : !OrderJson D}.

(** ** One key *)

Record Decrypter := mkDecrypter {
  dk_decrypt : bytes -> result (DecryptedOrder D) CryptoError;
  dk_public : option bytes
}.

Definition ecies_decrypter_decrypt (secret_key ciphertext : bytes) : result (DecryptedOrder D) CryptoError :=
  match ecies_decrypt secret_key ciphertext with
  | Err e => Err (DecryptionFailed e)
  | Ok plaintext => match order_from_json plaintext with Some o => Ok o | None => Err DeserializationFailed end
  end.

Definition ecies_decrypter (secret_key : bytes) : Decrypter :=
  mkDecrypter (ecies_decrypter_decrypt secret_key) (Some (public_of_secret secret_key)).

(** [EciesDecrypter::from_bytes]. *)
Definition ecies_from_bytes (secret_key : bytes) : result Decrypter CryptoError :=
  if negb (length secret_key =? 32)%nat then Err (InvalidKeyFile (str "expected 32 bytes, got " ++ print_dec (Z.of_nat (length secret_key))))
  else
    match secret_parse secret_key with
    | Err e => Err (InvalidKeyFile (str "invalid secp256k1 scalar: " ++ e))
    | Ok _ => Ok (ecies_decrypter secret_key)
    end.

Definition noop_decrypt (ciphertext : bytes) : result (DecryptedOrder D) CryptoError :=
  match order_from_json ciphertext with Some o => Ok o | None => Err DeserializationFailed end.

(** ** Where keys come from *)

Definition load_operator_key_file (env : KeyEnv) (path : Str) : result bytes CryptoError :=
  match ke_read env path with
  | None => Err CryptoIo
  | Some raw =>
    match hex_decode (trim_0x (Pair.trim raw)) with
    | None => Err HexDecode
    | Some key => if negb (length key =? 32)%nat then Err (InvalidKeyFile (str "expected 32 bytes, got " ++ print_dec (Z.of_nat (length key)))) else Ok key
    end
  end.

Definition parse_hex_secret (b : bytes) : result bytes CryptoError :=
  match from_utf8 b with
  | None => Err (CryptoKeySource (str "non-utf8 secret"))
  | Some s => match hex_decode (trim_0x (Pair.trim s)) with Some key => Ok key | None => Err HexDecode end
  end.

Definition resolve_secret_bytes (env : KeyEnv) (uri : Str) : result bytes CryptoError :=
  let uri := Pair.trim uri in
  match strip_prefix (str "file:") uri with
  | Some path => load_operator_key_file env path
  | None =>
    match strip_prefix (str "age:") uri with
    | Some path =>
      match ke_passphrase env with
      | None => Err (CryptoKeySource (str "age: key URI requires DARKPOOL_KEY_PASSPHRASE env var"))
      | Some pass =>
        match ke_age env path pass with
        | Err e => Err (CryptoKeySource (str "age: " ++ e))
        | Ok b => parse_hex_secret b
        end
      end
    | None =>
      match strip_prefix (str "awskms:") uri with
      | Some _ => Err (CryptoKeySource (str "awskms: key URI requires the `aws-kms` feature"))
      | None => Err (CryptoKeySource (str "unsupported key URI scheme: " ++ uri))
      end
    end
  end.

(** [KeySource::from_uri] and [into_decrypter]. *)
Definition key_source_from_uri (env : KeyEnv) (uri : Str) : result bytes CryptoError :=
  let? secret := resolve_secret_bytes env (Pair.trim uri) in
  if negb (length secret =? 32)%nat then Err (InvalidKeyFile (str "expected 32-byte secp256k1 secret, got " ++ print_dec (Z.of_nat (length secret)))) else Ok secret.

Definition decrypter_from_uri (env : KeyEnv) (uri : Str) : result Decrypter CryptoError :=
  let? secret := key_source_from_uri env uri in ecies_from_bytes secret.

(** ** The set of keys *)

Inductive KeyStatus := KeyActive | KeyRotating | KeySunset.

Record KeyEntry := mkKeyEntry { k_id : Str; k_status : KeyStatus; k_decrypter : Decrypter }.

Definition MAX_KEY_ID_LEN : Z := 64.

Definition validate_key_id (id : Str) : result unit CryptoError :=
  if bool_decide (id = []) then Err (CryptoKeySource (str "key_id must not be empty"))
  else if MAX_KEY_ID_LEN <? utf8_len id then Err (CryptoKeySource (str "key_id exceeds 64 chars: " ++ print_dec (utf8_len id) ++ str " given"))
  else if negb (forallb (fun c => Pair.is_ascii_alphanumeric c || (c =? char ".") || (c =? char "_") || (c =? char "-")) id)
  then Err (CryptoKeySource (str "key_id may only contain ASCII alphanumerics and '.', '_', '-'"))
  else Ok tt.

(** An upsert: the first entry of the name is replaced. *)
Fixpoint keys_insert (entry : KeyEntry) (keys : list KeyEntry) : list KeyEntry :=
  match keys with
  | [] => [entry]
  | e :: keys' => if bool_decide (k_id e = k_id entry) then entry :: keys' else e :: keys_insert entry keys'
  end.

Definition keys_remove (id : Str) (keys : list KeyEntry) : list KeyEntry * bool :=
  let keys' := List.filter (fun e => negb (bool_decide (k_id e = id))) keys in
  (keys', negb (length keys' =? length keys)%nat).

Fixpoint keys_set_status (id : Str) (status : KeyStatus) (keys : list KeyEntry) : list KeyEntry * bool :=
  match keys with
  | [] => ([], false)
  | e :: keys' =>
    if bool_decide (k_id e = id) then (mkKeyEntry (k_id e) status (k_decrypter e) :: keys', true)
    else let '(r, b) := keys_set_status id status keys' in (e :: r, b)
  end.

Definition keys_list (keys : list KeyEntry) : list (Str * KeyStatus) := map (fun e => (k_id e, k_status e)) keys.

Definition is_active_key (e : KeyEntry) : bool := match k_status e with KeyActive => true | _ => false end.

Definition active_public_key_hex (keys : list KeyEntry) : option Str :=
  match List.find is_active_key keys with
  | Some e => option_map hex_encode (dk_public (k_decrypter e))
  | None => None
  end.

Definition status_rank (s : KeyStatus) : Z := match s with KeyActive => 0 | KeyRotating => 1 | KeySunset => 2 end.

Definition sorted_snapshot (keys : list KeyEntry) : list KeyEntry :=
  sort_by (fun a b => Z.compare (status_rank (k_status a)) (status_rank (k_status b))) keys.

(** The loop over the entries, with the error kept so far. *)
Fixpoint decrypt_loop (ciphertext : bytes) (last_err : option CryptoError) (keys : list KeyEntry) : result (DecryptedOrder D) CryptoError :=
  match keys with
  | [] => Err (default (DecryptionFailed (str "all keys failed")) last_err)
  | e :: keys' =>
    match dk_decrypt (k_decrypter e) ciphertext with
    | Ok o => Ok o
    | Err err => decrypt_loop ciphertext (match last_err with None => Some err | Some _ => last_err end) keys'
    end
  end.

Definition multi_decrypt (keys : list KeyEntry) (ciphertext : bytes) : result (DecryptedOrder D) CryptoError :=
  match sorted_snapshot keys with
  | [] => Err (DecryptionFailed (str "no decryption keys registered"))
  | l => decrypt_loop ciphertext None l
  end.

(** ** Administration *)

Inductive AdminKeyError := AdminInvalid (m : Str) | AdminNotFound (m : Str) | AdminResolve (m : Str).

(** The display of an error, which carries those of other crates. *)
Context (crypto_text : CryptoError -> Str).

Definition key_upsert (env : KeyEnv) (id uri : Str) (status : KeyStatus) (keys : list KeyEntry) : list KeyEntry * result unit AdminKeyError :=
  match validate_key_id id with
  | Err e => (keys, Err (AdminInvalid (crypto_text e)))
  | Ok _ =>
    match decrypter_from_uri env uri with
    | Err e => (keys, Err (AdminResolve (crypto_text e)))
    | Ok dec => (keys_insert (mkKeyEntry id status dec) keys, Ok tt)
    end
  end.

Inductive KeyOp :=
| KUpsert (env : KeyEnv) (id uri : Str) (status : KeyStatus)
| KSunset (id : Str)
| KRemove (id : Str).

Definition key_exec (op : KeyOp) (keys : list KeyEntry) : list KeyEntry :=
  match op with
  | KUpsert env id uri status => fst (key_upsert env id uri status keys)
  | KSunset id => fst (keys_set_status id KeySunset keys)
  | KRemove id => fst (keys_remove id keys)
  end.

(** ** What the set of keys decrypts *)

(** The entries are made by [decrypter_from_uri]. *)
Definition from_secret (e : KeyEntry) : Prop := exists sk, secret_parse sk = Ok tt /\ k_decrypter e = ecies_decrypter sk.

Definition holds_key (pk : bytes) (keys : list KeyEntry) : Prop := Exists (fun e => dk_public (k_decrypter e) = Some pk) keys.

(** An operation that leaves the secret of [id] in place: it may demote or
    promote the key, and do anything to the others. *)
Definition keeps (id sk : bytes) (op : KeyOp) : Prop :=
  match op with
  | KUpsert env i uri _ => i = id -> forall sk', key_source_from_uri env uri = Ok sk' -> sk' = sk
  | KSunset _ => True
  | KRemove i => i <> id
  end.

Definition entry_of (id sk : bytes) (e : KeyEntry) : Prop := k_id e = id /\ k_decrypter e = ecies_decrypter sk.

Lemma ecies_from_bytes_ok sk d : ecies_from_bytes sk = Ok d -> secret_parse sk = Ok tt /\ d = ecies_decrypter sk.
Proof.
  unfold ecies_from_bytes. destruct (negb _); [done|].
  destruct (secret_parse sk) as [[]|] eqn:Hp; intros [= <-]. done.
Qed.

Lemma from_uri_ok env uri d :
  decrypter_from_uri env uri = Ok d -> exists sk, key_source_from_uri env uri = Ok sk /\ secret_parse sk = Ok tt /\ d = ecies_decrypter sk.
Proof.
  unfold decrypter_from_uri. destruct (key_source_from_uri env uri) as [sk|e]; simpl; [|done].
  intros H%ecies_from_bytes_ok. by exists sk.
Qed.

Lemma keys_insert_Forall (P : KeyEntry -> Prop) e keys : P e -> Forall P keys -> Forall P (keys_insert e keys).
Proof. intros He. induction 1; simpl; [by repeat constructor|]. case_bool_decide; by constructor. Qed.

Lemma keys_insert_Exists (P : KeyEntry -> Prop) e keys :
  Exists P keys -> (forall x, P x -> k_id x = k_id e -> P e) -> Exists P (keys_insert e keys).
Proof.
  intros H Hsame. induction H as [x l Hx|x l H IH]; simpl; case_bool_decide; try (by constructor).
  - constructor. eauto.
Qed.

Lemma keys_set_status_Forall (P : KeyEntry -> Prop) id st keys :
  (forall e, P e -> P (mkKeyEntry (k_id e) st (k_decrypter e))) -> Forall P keys -> Forall P (fst (keys_set_status id st keys)).
Proof.
  intros Hst. induction 1 as [|x l Hx H IH]; simpl; [constructor|].
  case_bool_decide; simpl; [by constructor; auto|]. destruct (keys_set_status id st l); by constructor.
Qed.

Lemma keys_set_status_Exists (P : KeyEntry -> Prop) id st keys :
  (forall e, P e -> P (mkKeyEntry (k_id e) st (k_decrypter e))) -> Exists P keys -> Exists P (fst (keys_set_status id st keys)).
Proof.
  intros Hst. induction 1 as [x l Hx|x l H IH]; simpl; case_bool_decide; simpl; try (by constructor; auto);
    destruct (keys_set_status id st l); by constructor.
Qed.

Lemma keys_remove_Forall (P : KeyEntry -> Prop) id keys : Forall P keys -> Forall P (fst (keys_remove id keys)).
Proof. simpl. induction 1; simpl; [constructor|]. destruct (negb _); [by constructor|done]. Qed.

Lemma keys_remove_Exists (P : KeyEntry -> Prop) id keys :
  (forall e, P e -> k_id e <> id) -> Exists P keys -> Exists P (fst (keys_remove id keys)).
Proof.
  simpl. intros Hid. induction 1 as [x l Hx|x l H IH]; simpl.
  - rewrite bool_decide_false by auto. by constructor.
  - destruct (negb _); [by constructor|done].
Qed.

Lemma key_exec_from_secret op keys : Forall from_secret keys -> Forall from_secret (key_exec op keys).
Proof.
  intros H. destruct op as [env id uri st|id|id]; simpl key_exec.
  - unfold key_upsert. destruct (validate_key_id id); [|done].
    destruct (decrypter_from_uri env uri) as [d|e] eqn:Hd; [|done].
    apply from_uri_ok in Hd as (sk & _ & Hp & ->). apply keys_insert_Forall; [by exists sk|done].
  - apply keys_set_status_Forall; [|done]. intros e (sk & ? & ?). by exists sk.
  - by apply keys_remove_Forall.
Qed.

Lemma key_exec_keeps id sk op keys :
  keeps id sk op -> Exists (entry_of id sk) keys -> Exists (entry_of id sk) (key_exec op keys).
Proof.
  intros Hk H. destruct op as [env i uri st|i|i]; simpl key_exec; simpl in Hk.
  - unfold key_upsert. destruct (validate_key_id i); [|done].
    destruct (decrypter_from_uri env uri) as [d|e] eqn:Hd; [|done].
    apply from_uri_ok in Hd as (sk' & Hs & _ & ->). apply keys_insert_Exists; [done|].
    intros x [Hx _] Heq. simpl in Heq. split; simpl; [congruence|]. f_equal. apply Hk; [congruence|done].
  - apply keys_set_status_Exists; [|done]. by intros e [? ?].
  - apply keys_remove_Exists; [|done]. intros e [? _]. congruence.
Qed.

Lemma keys_run_keeps id sk ops : forall keys,
  Forall (keeps id sk) ops -> Forall from_secret keys -> Exists (entry_of id sk) keys ->
  Forall from_secret (foldl (fun k op => key_exec op k) keys ops) /\ Exists (entry_of id sk) (foldl (fun k op => key_exec op k) keys ops).
Proof.
  induction ops as [|op ops IH]; intros keys Hk Hs He; simpl; [done|].
  inversion Hk; subst. apply IH; [done|by apply key_exec_from_secret|by apply key_exec_keeps].
Qed.

Lemma active_key_entry keys pub :
  Forall from_secret keys -> active_public_key_hex keys = Some pub ->
  exists id sk, Exists (entry_of id sk) keys /\ pub = hex_encode (public_of_secret sk).
Proof.
  unfold active_public_key_hex. intros H. destruct (List.find is_active_key keys) as [e|] eqn:Hf; [|done].
  apply find_some in Hf as [Hin _]. rewrite Forall_forall in H.
  destruct (H e) as (sk & Hp & Hd); [by apply list_elem_of_In|].
  rewrite Hd; simpl. intros [= <-]. exists (k_id e), sk. split; [|done].
  rewrite Exists_exists. exists e. split; [by apply list_elem_of_In|done].
Qed.
End keys.

(** ** Decryption *)

Section decrypts.
Context {D : Type} `{HO : !HexOps, EO : !EciesOps, OJ : !OrderJson D, EL : !EciesLaws, OL : !OrderJsonLaws D, HL : !HexLaws} (crypto_text : CryptoError -> Str).
Implicit Types (keys : list (@KeyEntry D)) (o : DecryptedOrder D).

Lemma decrypt_loop_holds rng pk o keys : forall last,
  Forall from_secret keys -> holds_key pk keys -> decrypt_loop (ecies_encrypt rng pk (order_to_json o)) last keys = Ok o.
Proof.
  induction keys as [|e keys IH]; intros last Hs Hh; [by inversion Hh|]. simpl.
  inversion Hs as [|? ? (sk & Hp & Hd) Hs']; subst. rewrite Hd. simpl. unfold ecies_decrypter_decrypt.
  destruct (decide (public_of_secret sk = pk)) as [<-|Hne].
  - by rewrite ecies_right, json_roundtrip.
  - destruct (ecies_wrong rng sk pk (order_to_json o)) as [err ->]; [done..|]. apply IH; [done|].
    inversion Hh as [? ? Hx|]; [|done]. rewrite Hd in Hx. simpl in Hx. congruence.
Qed.

Lemma decrypt_loop_lacks rng pk m keys : forall last,
  Forall from_secret keys -> ~ holds_key pk keys -> exists e, @decrypt_loop D (ecies_encrypt rng pk m) last keys = Err e.
Proof.
  induction keys as [|e keys IH]; intros last Hs Hh; simpl; [by eexists|].
  inversion Hs as [|? ? (sk & Hp & Hd) Hs']; subst. rewrite Hd. simpl. unfold ecies_decrypter_decrypt.
  destruct (ecies_wrong rng sk pk m) as [err ->]; [done| |].
  - intros <-. apply Hh. constructor. by rewrite Hd.
  - apply IH; [done|]. intros H. apply Hh. by constructor.
Qed.

Lemma multi_decrypt_loop keys c : keys <> [] -> multi_decrypt keys c = decrypt_loop c None (sorted_snapshot keys).
Proof.
  intros Hne. unfold multi_decrypt. destruct (sorted_snapshot keys) eqn:Hs; [|done].
  apply (f_equal length) in Hs. unfold sorted_snapshot in Hs. rewrite sort_by_perm in Hs. by destruct keys.
Qed.

(** What the decrypter answers, whatever the statuses and the order of its
    keys: an order encrypted to a public key is recovered exactly when some
    entry, of any status, has that public key, and refused otherwise. *)
Lemma multi_decrypt_spec rng pk o keys :
  Forall from_secret keys ->
  (holds_key pk keys -> multi_decrypt keys (ecies_encrypt rng pk (order_to_json o)) = Ok o) /\
  (~ holds_key pk keys -> exists e, multi_decrypt keys (ecies_encrypt rng pk (order_to_json o)) = Err e).
Proof.
  intros Hs. assert (Hp : sorted_snapshot keys ≡ₚ keys) by apply sort_by_perm. split; intros Hh.
  - rewrite multi_decrypt_loop by (intros ->; inversion Hh).
    apply decrypt_loop_holds; [by rewrite Hp|]. unfold holds_key. by rewrite Hp.
  - destruct (decide (length keys = 0%nat)) as [Hl|Hl].
    + apply nil_length_inv in Hl as ->. by eexists.
    + rewrite multi_decrypt_loop by (by intros ->). apply decrypt_loop_lacks; [by rewrite Hp|].
      unfold holds_key. by rewrite Hp.
Qed.

Lemma entry_holds id sk keys : Exists (entry_of id sk) keys -> holds_key (public_of_secret sk) keys.
Proof. intros H. eapply Exists_impl; [exact H|]. intros e [_ Hd]. by rewrite Hd. Qed.

(** C29: rotating the operator's keys loses no order.  The public key the API
    announces decodes to the public key of an entry of the set; an order
    encrypted to it is recovered, and recovered exactly, after any sequence of
    registrations, promotions, demotions and removals that leaves the secret of
    that entry in place.  Once no entry has that public key, the same
    ciphertext is refused. *)
Theorem rotation_keeps_orders keys pub :
  Forall from_secret keys -> active_public_key_hex keys = Some pub ->
  exists id sk pk, hex_decode pub = Some pk /\
    (forall ops rng o, Forall (keeps id sk) ops ->
      multi_decrypt (foldl (fun k op => key_exec crypto_text op k) keys ops) (ecies_encrypt rng pk (order_to_json o)) = Ok o) /\
    (forall ops rng o, ~ holds_key pk (foldl (fun k op => key_exec crypto_text op k) keys ops) ->
      exists e, multi_decrypt (foldl (fun k op => key_exec crypto_text op k) keys ops) (ecies_encrypt rng pk (order_to_json o)) = Err e).
Proof.
  intros Hs Ha. destruct (active_key_entry keys pub Hs Ha) as (id & sk & He & ->).
  exists id, sk, (public_of_secret sk). split; [apply hex_decode_encode, public_bytes|]. split; intros ops rng o Hk.
  - destruct (keys_run_keeps crypto_text id sk ops keys Hk Hs He) as [Hs' He'].
    apply multi_decrypt_spec; [done|]. by apply entry_holds in He'.
  - apply multi_decrypt_spec; [|done]. clear Hk Ha He. revert keys Hs.
    induction ops as [|op ops IH]; intros keys Hs; simpl; [done|]. by apply IH, key_exec_from_secret.
Qed.
End decrypts.
