(* ===== verification/Api.v ===== *)
(** * API: the service

    The trading service and the administration of [dp-api]: validation of
    requests ([validation.rs]), conversions ([conv.rs]), the status of an error
    ([error.rs]), the handlers ([handler.rs], [admin.rs]) and their JSON
    ([rest.rs]).  A handler takes the engine and returns it with the response;
    the pieces of an operation that run outside its lock take what they saw as
    an argument.  The text form of identifiers and decimals is a parameter. *)

From S2P Require Import Prelude Decimal Types Field Auction Events Book EngineState Engine Witness Tick Text Client Siwe Auth Keys.
Open Scope Z_scope.

Class UuidOps := { uuid_to_string : Uuid -> Str; uuid_parse : Str -> result Uuid Str }.

Class UuidLaws `{!UuidOps} : Prop := { uuid_roundtrip : forall u, 0 <= u < 2 ^ 128 -> uuid_parse (uuid_to_string u) = Ok u }.

Class DecimalParse (D : Type) := { dec_from_str : Str -> result D Str }.

(** ** Errors *)

Definition error_text (e : DarkPoolError) : Str :=
  match e with
  | PairRequired => str "pair is required"
  | PriceMustBePositive => str "price must be positive"
  | SizeMustBePositive => str "size must be positive"
  | CommitmentKeyRequired => str "commitment key is required"
  | LimitMustBePositive => str "limit must be > 0"
  | OrderNotFound => str "order not found"
  | PairNotRegistered p => str "pair not registered: " ++ p
  | PairNotAccepting p => str "pair not accepting orders (suspended or delisted): " ++ p
  | OrderSizeBelowMinimum p min => str "order size below minimum for " ++ p ++ str " (min " ++ min ++ str ")"
  | OrderPriceNotOnTick p tick => str "price not on tick for " ++ p ++ str " (tick " ++ tick ++ str ")"
  | InvalidPair p => str "invalid pair: " ++ p
  | PairAlreadyRegistered p => str "pair already registered: " ++ p
  | CannotSuspendDelistedPair p => str "cannot suspend delisted pair: " ++ p
  | TraderAddressMismatch expected found => str "trader address mismatch: expected " ++ expected ++ str ", found " ++ found
  | DuplicateOrder => str "duplicate order: this encrypted payload was already submitted"
  | SaltInvalid => str "invalid salt: expected 32-byte lowercase hex"
  | OrderNonceInvalid => str "invalid order nonce: expected 32-byte lowercase hex"
  | OrderExpiryInvalid => str "invalid order expiry"
  | OrderExpired => str "order expired"
  | OrderExpiryTooFar s => str "order expiry exceeds max freshness window (" ++ print_dec s ++ str " seconds)"
  | InvalidOrderProof => str "invalid order proof"
  | EncryptedPayloadTooLarge max => str "encrypted_payload exceeds max size (" ++ print_dec max ++ str " bytes)"
  | TooManyRestingOrdersForTrader max => str "too many resting orders for trader (max " ++ print_dec max ++ str ")"
  | OrderBookCapacityExceeded max => str "order book capacity exceeded (max " ++ print_dec max ++ str ")"
  end.

(** [text] is the display of the remaining errors, which carry those of other
    crates. *)
Definition engine_error_to_status {D} (text : EngineError D -> Str) (err : EngineError D) : Status :=
  match err with
  | Validation OrderNotFound => not_found (error_text OrderNotFound)
  | Validation (PairNotRegistered _ as e) => not_found (error_text e)
  | Validation (PairAlreadyRegistered _ as e) => already_exists (error_text e)
  | Validation ((PairNotAccepting _ | CannotSuspendDelistedPair _) as e) => failed_precondition (error_text e)
  | Validation ((OrderExpired | OrderExpiryTooFar _) as e) => failed_precondition (error_text e)
  | Validation (TraderAddressMismatch _ _ as e) => permission_denied (error_text e)
  | Validation (DuplicateOrder as e) => already_exists (error_text e)
  | Validation ((TooManyRestingOrdersForTrader _ | OrderBookCapacityExceeded _) as e) => resource_exhausted (error_text e)
  | DecryptErr DeserializationFailed => invalid_argument (text err)
  | Validation ((PairRequired | PriceMustBePositive | SizeMustBePositive | CommitmentKeyRequired | LimitMustBePositive
                | OrderSizeBelowMinimum _ _ | OrderPriceNotOnTick _ _ | SaltInvalid | OrderNonceInvalid | OrderExpiryInvalid
                | InvalidOrderProof | EncryptedPayloadTooLarge _ | InvalidPair _) as e) => invalid_argument (error_text e)
  | other => internal (text other)
  end.

(** The codes of [http]. *)
Definition http_status (c : Code) : Z :=
  match c with
  | InvalidArgument => 400
  | NotFound => 404
  | Unauthenticated => 401
  | PermissionDenied => 403
  | ResourceExhausted => 429
  | AlreadyExists => 409
  | FailedPrecondition => 400
  | OutOfRange => 400
  | _ => 500
  end.

(** ** Messages *)

Record OrderInfo := mkOrderInfo {
  oi_id : Str;
  oi_pair : Str;
  oi_side : Z;
  oi_price : Str;
  oi_size : Str;
  oi_remaining_size : Str;
  oi_commitment_key : Str;
  oi_submitted_at_unix : Z;
  oi_expires_at_unix : Z
}.

(** [AuctionEvent] and [AuctionSummary]. *)
Record AuctionInfo := mkAuctionInfo {
  ai_auction_id : Str;
  ai_pair : Str;
  ai_clearing_price : Str;
  ai_matched_volume : Str;
  ai_match_count : Z;
  ai_timestamp_unix : Z
}.

Record PairInfo := mkPairInfo {
  pi_pair : Str;
  pi_base_token : Str;
  pi_quote_token : Str;
  pi_min_order_size : Str;
  pi_tick_size : Str;
  pi_auction_interval_ms : option Z;
  pi_status : Z;
  pi_base_decimals : option Z;
  pi_quote_decimals : option Z
}.

Record PlaceOrderRequest := mkPlaceOrderRequest { po_commitment : bytes; po_proof : bytes; po_encrypted_payload : bytes }.

Record RegisterPairRequest := mkRegisterPairRequest {
  rp_pair : Str;
  rp_base_token : Str;
  rp_quote_token : Str;
  rp_min_order_size : Str;
  rp_tick_size : Str;
  rp_auction_interval_ms : option Z;
  rp_base_decimals : option Z;
  rp_quote_decimals : option Z
}.

(** ** Conversions *)

Definition side_to_proto (s : Side) : Z := match s with Buy => 1 | Sell => 2 end.
Definition pair_status_to_proto (s : PairStatus) : Z := match s with Active => 1 | Suspended => 2 | Delisted => 3 end.

(** [timestamp]: the second an instant lies in. *)
Definition timestamp (t : DateTime) : Z := t / 1000000000.

(** [as i32] on 32 bits. *)
Definition as_i32 (n : Z) : Z := let n := wrap32 n in if n <? 2 ^ 31 then n else n - 2 ^ 32.

Definition auction_interval_to_proto_ms (d : Duration) : Z :=
  let ms := d / 1000000 in if u32_max <? ms then u32_max else ms.

Section conv.
Context {D : Type} `{DO : !DecimalOps D, UO : !UuidOps, AO : !AddressOps}.

Definition order_to_proto (o : Order D) : OrderInfo :=
  mkOrderInfo (uuid_to_string (o_id o)) (o_pair o) (side_to_proto (o_side o)) (dec_to_string (o_price o)) (dec_to_string (o_size o))
    (dec_to_string (o_remaining_size o)) (o_commitment_key o) (timestamp (o_submitted_at o)) (timestamp (o_expires_at o)).

Definition notification_proto (n : AuctionNotification D) : AuctionInfo :=
  mkAuctionInfo (uuid_to_string (n_auction_id n)) (n_pair n) (dec_to_string (n_clearing_price n)) (dec_to_string (n_matched_volume n))
    (as_i32 (n_match_count n)) (timestamp (n_timestamp n)).

Definition parse_uuid (s : Str) : result Uuid Status :=
  match uuid_parse s with Ok u => Ok u | Err e => Err (invalid_argument (str "invalid order_id: " ++ e)) end.

Definition pair_config_to_proto (pair : Str) (cfg : PairConfig D) : PairInfo :=
  mkPairInfo pair (fmt_address (base_token cfg)) (fmt_address (quote_token cfg)) (dec_to_string (min_order_size cfg)) (dec_to_string (tick_size cfg))
    (option_map auction_interval_to_proto_ms (auction_interval cfg)) (pair_status_to_proto (status cfg))
    (Some (base_decimals cfg)) (Some (quote_decimals cfg)).
End conv.

(** ** Validation *)

Definition MAX_PROOF_BYTES : Z := 64 * 1024.
Definition MAX_CIPHERTEXT_BYTES : Z := MAX_ENCRYPTED_PAYLOAD_BYTES.
Definition PLACE_ORDER_BODY_LIMIT : Z := (MAX_PROOF_BYTES + MAX_CIPHERTEXT_BYTES) * 2.

Definition validate_proof (proof : bytes) : result unit Status :=
  if bool_decide (proof = []) then Err (invalid_argument (str "proof is required"))
  else if MAX_PROOF_BYTES <? Z.of_nat (length proof) then Err (invalid_argument (str "proof exceeds max size"))
  else Ok tt.

Definition validate_place_order (req : PlaceOrderRequest) : result unit Status :=
  if bool_decide (po_commitment req = []) then Err (invalid_argument (str "commitment is required"))
  else
    let? _ := validate_proof (po_proof req) in
    if bool_decide (po_encrypted_payload req = []) then Err (invalid_argument (str "encrypted_payload is required"))
    else if MAX_CIPHERTEXT_BYTES <? Z.of_nat (length (po_encrypted_payload req)) then Err (invalid_argument (str "encrypted_payload exceeds max size"))
    else Ok tt.

Definition canonicalise_pair (pair : Str) : result Str Status :=
  match Pair.parse pair with
  | Ok p => Ok p
  | Err PairRequired => Err (invalid_argument (str "pair is required"))
  | Err other => Err (invalid_argument (error_text other))
  end.

Section service.
Context {D F St : Type} `{DO : !DecimalOps D, FO : !FieldOps F, PO : !Poseidon F, STO : !StoreOps D St, SH : !Sha256, HO : !HexOps, AO : !AddressOps,
  UO : !UuidOps, DP : !DecimalParse D} {HI : HashIter}.
Context (text : EngineError D -> Str).
Implicit Types e : Engine D St.

Definition validate_pair_known e (pair : Str) : result Str Status :=
  let? canonical := canonicalise_pair pair in
  match pair_status e canonical with
  | Some Active | Some Suspended => Ok canonical
  | Some Delisted | None => Err (not_found (str "pair " ++ canonical ++ str " is not registered"))
  end.

Definition validate_pair_for_history e (pair : Str) : result Str Status :=
  let? canonical := canonicalise_pair pair in
  match pair_status e canonical with
  | Some _ => Ok canonical
  | None => Err (not_found (str "pair " ++ canonical ++ str " is not registered"))
  end.

(** ** The trading service *)

Definition caller_address (identity : option AuthenticatedIdentity) : option Address :=
  match identity with Some (Wallet addr) => Some addr | _ => None end.

Definition required_wallet_address (identity : option AuthenticatedIdentity) : result Address Status :=
  match caller_address identity with Some a => Ok a | None => Err (permission_denied (str "wallet authentication required")) end.

Definition status_of {A} (r : result A (EngineError D)) : result A Status :=
  match r with Ok a => Ok a | Err err => Err (engine_error_to_status text err) end.

Definition place_order (env : PlaceEnv D F) (senv : StoreEnv) (s_seen s_cfg : EngineState D) (identity : option AuthenticatedIdentity)
    (req : PlaceOrderRequest) e : outcome (Engine D St * result OrderInfo Status) :=
  match required_wallet_address identity with
  | Err s => Ret (e, Err s)
  | Ok caller =>
    match validate_place_order req with
    | Err s => Ret (e, Err s)
    | Ok _ =>
      '(e', r) ← place_encrypted_order env senv s_seen s_cfg e (po_proof req) (po_encrypted_payload req) caller;
      Ret (e', let? order := status_of r in Ok (order_to_proto order))
    end
  end.

(** The order as its owner sees it. *)
Definition owned_order e (caller : option Address) (id : Uuid) : option (Order D) :=
  match get_order e id with
  | Some o => if bool_decide (caller = Some (o_trader o)) then Some o else None
  | None => None
  end.

Definition order_not_found (order_id : Str) : Status := not_found (str "order " ++ order_id ++ str " not found").

(** [e_seen] is the engine when the owner is checked. *)
Definition api_cancel_order (env : StoreEnv) (now : DateTime) (e_seen : Engine D St) (identity : option AuthenticatedIdentity)
    (order_id reason : Str) e : outcome (Engine D St * result unit Status) :=
  let caller := caller_address identity in
  match parse_uuid order_id with
  | Err s => Ret (e, Err s)
  | Ok id =>
    match owned_order e_seen caller id with
    | None => Ret (e, Err (order_not_found order_id))
    | Some _ =>
      let reason := if bool_decide (reason = []) then None else Some reason in
      '(e', r) ← cancel_order env now e id reason;
      Ret (e', status_of r)
    end
  end.

Definition api_get_order e (identity : option AuthenticatedIdentity) (order_id : Str) : result OrderInfo Status :=
  let caller := caller_address identity in
  let? id := parse_uuid order_id in
  match owned_order e caller id with
  | Some o => Ok (order_to_proto o)
  | None => Err (order_not_found order_id)
  end.

(** An empty filter is none. *)
Definition pair_filter (validate : Str -> result Str Status) (pair : Str) : result (option Str) Status :=
  if bool_decide (pair = []) then Ok None else let? p := validate pair in Ok (Some p).

Definition list_orders e (identity : option AuthenticatedIdentity) (pair : Str) : result (list OrderInfo) Status :=
  match caller_address identity with
  | None => Ok []
  | Some trader =>
    let? filter := pair_filter (validate_pair_known e) pair in
    Ok (map order_to_proto
          (List.filter (fun o => match filter with Some p => bool_decide (o_pair o = p) | None => true end) (orders_by_trader e trader)))
  end.

(** [limit] has 32 bits and a sign. *)
Definition api_get_auction_history e (pair : Str) (limit : Z) : result (list AuctionInfo) Status :=
  let? canonical := pair_filter (validate_pair_for_history e) pair in
  Ok (map notification_proto (get_auction_history e canonical (Z.to_nat (Z.max limit 0)))).

(** What a subscriber receives: a notification, or the number it missed. *)
Definition map_broadcast_item (pair : Str) (item : result (AuctionNotification D) Z) : option (result AuctionInfo Status) :=
  match item with
  | Ok n =>
    if negb (bool_decide (pair = [])) && negb (bool_decide (n_pair n = pair)) then None
    else Some (Ok (notification_proto n))
  | Err n => Some (Err (data_loss (str "stream lagged; " ++ print_dec n ++ str " auction events skipped")))
  end.

(** The stream on the items the engine broadcasts from now on. *)
Definition stream_auctions e (pair : Str) (items : list (result (AuctionNotification D) Z)) : result (list (result AuctionInfo Status)) Status :=
  let? pair := (if bool_decide (pair = []) then Ok [] else validate_pair_known e pair) in
  Ok (omap (map_broadcast_item pair) items).

Definition api_list_pairs e : list PairInfo :=
  map (fun pc => pair_config_to_proto pc.1 pc.2) (List.filter (fun pc => is_active (status pc.2)) (list_pairs e)).

(** ** Administration *)

(** The message of the parser itself is left out. *)
Definition admin_parse_address (s field : Str) : result Address Status :=
  match parse_address (Pair.trim s) with Some a => Ok a | None => Err (invalid_argument (str "invalid " ++ field)) end.

Definition parse_decimal_nonneg (s field : Str) : result D Status :=
  match dec_from_str (Pair.trim s) with
  | Err e => Err (invalid_argument (str "invalid " ++ field ++ str ": " ++ e))
  | Ok d => if dec_is_sign_negative d then Err (invalid_argument (field ++ str " must be >= 0")) else Ok d
  end.

Definition parse_decimals (v : option Z) (field : Str) : result Z Status :=
  match v with
  | None => Ok 18
  | Some d => if d <=? 30 then Ok d else Err (invalid_argument (field ++ str " must be <= 30, got " ++ print_dec d))
  end.

(** The configuration a request asks for. *)
Definition requested_config (req : RegisterPairRequest) : result (PairConfig D) Status :=
  let? base := admin_parse_address (rp_base_token req) (str "base_token") in
  let? quote := admin_parse_address (rp_quote_token req) (str "quote_token") in
  let? min_order_size := parse_decimal_nonneg (rp_min_order_size req) (str "min_order_size") in
  let? tick_size := parse_decimal_nonneg (rp_tick_size req) (str "tick_size") in
  if bool_decide (rp_auction_interval_ms req = Some 0) then Err (invalid_argument (str "auction_interval_ms must be > 0"))
  else
    let auction_interval := option_map (fun ms => ms * 1000000) (rp_auction_interval_ms req) in
    let? base_decimals := parse_decimals (rp_base_decimals req) (str "base_decimals") in
    let? quote_decimals := parse_decimals (rp_quote_decimals req) (str "quote_decimals") in
    Ok (mkPairConfig base quote base_decimals quote_decimals min_order_size tick_size auction_interval Active).

Definition api_register_pair (env : StoreEnv) (now : DateTime) (req : RegisterPairRequest) e : Engine D St * result PairInfo Status :=
  match requested_config req with
  | Err s => (e, Err s)
  | Ok cfg =>
    let '(e', r) := register_pair_with_event env now e (rp_pair req) cfg in
    (e', let? canonical := status_of r in Ok (pair_config_to_proto canonical cfg))
  end.

Definition api_suspend_pair (env : StoreEnv) (now : DateTime) (pair : Str) e : Engine D St * result unit Status :=
  if bool_decide (pair = []) then (e, Err (invalid_argument (str "pair is required")))
  else let '(e', r) := suspend_pair env now e pair in (e', status_of r).

Definition api_delist_pair (env : StoreEnv) (now : DateTime) (pair : Str) e : outcome (Engine D St * result Z Status) :=
  if bool_decide (pair = []) then Ret (e, Err (invalid_argument (str "pair is required")))
  else
    '(e', r) ← delist_pair env now e pair;
    Ret (e', let? cancelled := status_of r in Ok (wrap32 (Z.of_nat cancelled))).

(** Strings compare by their bytes, which order as their characters do. *)
Definition pair_cmp (a b : PairInfo) : comparison := str_cmp (pi_pair a) (pi_pair b).

Definition list_pairs_admin e : list PairInfo :=
  sort_by pair_cmp (map (fun pc => pair_config_to_proto pc.1 pc.2) (list_pairs e)).
End service.
