(* ===== verification/OrderProof.v ===== *)
(** * The proof of an order

    [dp-zk/src/commitment_circuit.rs]: the constraints of the per-order proof,
    its keys and their envelope; [dp-engine/src/order_proof.rs]: the verifier
    the engine pins; and [dp-zk-wasm/src/lib.rs]: the prover of the browser.
    The constraints are boolean, as those of [Circuit.v]; the Groth16 scheme is
    third-party ([Groth16Ops]). *)

From S2P Require Import Prelude Decimal Types Field Auction Events Book Merkle EngineState Engine Admission Witness Tick Batch Machine.
From S2P Require Import Provable Prime Circuit CircuitFacts Text Api.
Open Scope Z_scope.

Record CommitmentPreimageCircuit (F : Type) := mkPreimage {
  pc_trader_id : F;
  pc_trader_addr : F;
  pc_side : F;
  pc_limit_price : F;
  pc_size : F;
  pc_salt : F
}.
Arguments mkPreimage {F}.
Arguments pc_trader_id {F}.
Arguments pc_trader_addr {F}.
Arguments pc_side {F}.
Arguments pc_limit_price {F}.
Arguments pc_size {F}.
Arguments pc_salt {F}.

(** ** The constraints *)

Section constraints.
Context {F : Type} `{!FieldOps F, !Poseidon F}.
Implicit Types c : CommitmentPreimageCircuit F.

Definition compute_commitment_native c : F :=
  commit_native (mkOrderCommitmentInput (pc_trader_id c) (pc_side c) (pc_limit_price c) (pc_size c) (pc_salt c)).

(** The public inputs come in the order of their allocation; a prover assigns
    [order_publics]. *)
Definition generate_constraints c (inputs : list F) : bool :=
  match inputs with
  | [expected; nullifier] =>
    (* Family 1: the side is a bit. *)
    fr_eqb (pc_side c * (fr_one - pc_side c))%fr fr_zero &&
    (* Family 4: ranges. *)
    enforce_range_60 (pc_limit_price c) &&
    enforce_range_60 (pc_size c) &&
    (* Family 9: the identity. *)
    fr_eqb (poseidon [pc_trader_addr c]) (pc_trader_id c) &&
    (* Family 5: the commitment. *)
    (let computed := poseidon [pc_trader_id c; pc_side c; pc_limit_price c; pc_size c; pc_salt c] in
     fr_eqb computed expected &&
     (* The nullifier. *)
     fr_eqb (poseidon [nullifier_domain; computed; pc_salt c]) nullifier)
  | _ => false
  end.

Definition order_publics c : OrderProofPublics F := derive_publics (compute_commitment_native c) (pc_salt c).
End constraints.

(** ** Keys and proofs *)

(** The crate [ark_groth16] on this circuit, and its serialization; [Z] is the
    randomness a call draws.  Errors are their messages.  [OrderGroth16.v] shows
    that the vendored crate implements the interface. *)
Class Groth16Ops (F PK VK PVK PF : Type) := {
  g16_setup : CommitmentPreimageCircuit F -> Z -> result (PK * VK) Str;
  g16_prepare : VK -> PVK;
  g16_prove : PK -> CommitmentPreimageCircuit F -> Z -> result PF Str;
  g16_verify : PVK -> list F -> PF -> result bool Str;
  pk_write : PK -> result bytes Str;
  pk_read : bytes -> result PK Str;
  vk_write : VK -> result bytes Str;
  vk_read : bytes -> result VK Str;
  pf_write : PF -> result bytes Str;
  pf_read : bytes -> result PF Str;
  fr_write : F -> result bytes Str
}.

(** Keys of one setup belong together: a prover with a satisfying assignment
    obtains a proof that verifies.  What is written is read back. *)
Class Groth16Laws (F PK VK PVK PF : Type) `{!FieldOps F, !Poseidon F, !Groth16Ops F PK VK PVK PF} : Prop := {
  g16_complete : forall shape rng pk vk c rng',
    g16_setup shape rng = Ok (pk, vk) -> generate_constraints c (as_inputs (order_publics c)) = true ->
    exists pf, g16_prove pk c rng' = Ok pf /\ g16_verify (g16_prepare vk) (as_inputs (order_publics c)) pf = Ok true;
  pk_roundtrip : forall pk b, pk_write pk = Ok b -> pk_read b = Ok pk;
  vk_roundtrip : forall vk b, vk_write vk = Ok b -> vk_read b = Ok vk;
  pf_roundtrip : forall pf, exists b, pf_write pf = Ok b /\ pf_read b = Ok pf;
  fr_write_total : forall f, exists b, fr_write f = Ok b
}.

Definition COMMITMENT_CIRCUIT_VERSION : bytes := str "v3-poseidon-commitment-nullifier".
Definition KEY_ENVELOPE_MAGIC : bytes := str "DPCMTKEY".

Definition wrap_key_envelope (body : bytes) : bytes :=
  KEY_ENVELOPE_MAGIC ++ le_bytes 4 (Z.of_nat (length COMMITMENT_CIRCUIT_VERSION)) ++ COMMITMENT_CIRCUIT_VERSION ++ body.

(** [u32::from_le_bytes]. *)
Definition le_value (b : bytes) : Z := be_value (reverse b).

Definition unwrap_key_envelope (b : bytes) : result bytes ZkError :=
  let header := (length KEY_ENVELOPE_MAGIC + 4)%nat in
  if (length b <? header)%nat || negb (bool_decide (take (length KEY_ENVELOPE_MAGIC) b = KEY_ENVELOPE_MAGIC)) then
    Err (ZkSerialize (str "commitment key blob: missing or invalid envelope magic (regenerate via `dp-zk-cli setup-commitment-circuit`)"))
  else
    let ver_len := le_value (take 4 (drop (length KEY_ENVELOPE_MAGIC) b)) in
    let ver_end := Z.of_nat header + ver_len in
    if Z.of_nat (length b) <? ver_end then Err (ZkSerialize (str "commitment key blob: truncated version field"))
    else
      match from_utf8 (take (Z.to_nat ver_len) (drop header b)) with
      | None => Err (ZkSerialize (str "commitment key blob: non-utf8 version"))
      | Some ver =>
        if negb (bool_decide (ver = COMMITMENT_CIRCUIT_VERSION)) then
          Err (ZkSetup (str "commitment key version mismatch: expected " ++ COMMITMENT_CIRCUIT_VERSION ++ str ", found " ++ ver ++
            str " (regenerate keys via `dp-zk-cli setup-commitment-circuit`)"))
        else Ok (drop (Z.to_nat ver_end) b)
      end.

Section keys.
Context {D F PK VK PVK PF : Type} `{!DecimalOps D, !FieldOps F, !Poseidon F, !Groth16Ops F PK VK PVK PF}.

(** The setup looks at the shape only. *)
Definition generate_keys (rng : Z) : outcome (result (PK * VK) ZkError) :=
  trader_id ← match derive_trader_id (D:=D) (F:=F) [] with Ok f => Ret f | Err _ => Panic end;
  let shape := mkPreimage trader_id fr_zero fr_zero fr_zero fr_zero fr_zero in
  Ret match g16_setup shape rng with Ok ks => Ok ks | Err e => Err (ZkSetup e) end.

Definition prove_with_key (pk : PK) (c : CommitmentPreimageCircuit F) (rng : Z) : result (OrderProofPublics F * bytes) ZkError :=
  match g16_prove pk c rng with
  | Err e => Err (ZkProve e)
  | Ok proof =>
    match pf_write proof with
    | Err e => Err (ZkSerialize e)
    | Ok b => Ok (order_publics c, b)
    end
  end.

Definition serialize_vk (vk : VK) : result bytes ZkError :=
  match vk_write vk with Err e => Err (ZkSerialize e) | Ok b => Ok (wrap_key_envelope b) end.

Definition serialize_pk (pk : PK) : result bytes ZkError :=
  match pk_write pk with Err e => Err (ZkSerialize e) | Ok b => Ok (wrap_key_envelope b) end.

Definition deserialize_vk (b : bytes) : result VK ZkError :=
  let? body := unwrap_key_envelope b in
  match vk_read body with Err e => Err (ZkSerialize (str "deserialize vk: " ++ e)) | Ok vk => Ok vk end.

Definition deserialize_pk (b : bytes) : result PK ZkError :=
  let? body := unwrap_key_envelope b in
  match pk_read body with Err e => Err (ZkSerialize (str "deserialize pk: " ++ e)) | Ok pk => Ok pk end.

Definition verify_proof_with_processed_vk (pvk : PVK) (proof_bytes : bytes) (publics : OrderProofPublics F) : result bool ZkError :=
  match pf_read proof_bytes with
  | Err e => Err (ZkSerialize (str "deserialize proof: " ++ e))
  | Ok proof => match g16_verify pvk (as_inputs publics) proof with Err e => Err (ZkProve e) | Ok valid => Ok valid end
  end.

Definition verify_proof_with_vk (vk : VK) (proof_bytes : bytes) (publics : OrderProofPublics F) : result bool ZkError :=
  verify_proof_with_processed_vk (g16_prepare vk) proof_bytes publics.

Definition verify_proof (vk_bytes proof_bytes : bytes) (publics : OrderProofPublics F) : result bool ZkError :=
  let? vk := deserialize_vk vk_bytes in verify_proof_with_vk vk proof_bytes publics.

(** ** The engine's verifier *)

Definition verifier_from_bytes (b : bytes) : result PVK ZkError :=
  let? vk := deserialize_vk b in Ok (g16_prepare vk).

(** The engine looks at success only. *)
Definition verify (pvk : PVK) (proof : bytes) (publics : OrderProofPublics F) : bool :=
  match verify_proof_with_processed_vk pvk proof publics with Ok true => true | Ok false | Err _ => false end.
End keys.

(** ** The prover of the browser *)

Record WitnessInput := mkWitnessInput {
  wi_trader_addr : Str;
  wi_side : Z;
  wi_price : Str;
  wi_size : Str;
  wi_salt_hex : Str
}.

(** Where [prove_order] gives up. *)
Inductive ProveError (D : Type) :=
| BadHex (field : Str)
| BadLength (field : Str) (len : Z)
| BadScalar (field : Str) (e : EncodingError D)
| BadSide (sd : Z)
| BadDecimal (field e : Str)
| BadKey (e : ZkError)
| ProveFailed (e : ZkError)
| SerializeFailed (e : Str).
Arguments BadHex {D}.
Arguments BadLength {D}.
Arguments BadScalar {D}.
Arguments BadSide {D}.
Arguments BadDecimal {D}.
Arguments BadKey {D}.
Arguments ProveFailed {D}.
Arguments SerializeFailed {D}.

Record ProveResult := mkProveResult { pr_proof : bytes; pr_commitment : bytes }.

Section prover.
Context {D F PK VK PVK PF : Type} `{!DecimalOps D, !FieldOps F, !Poseidon F, !Groth16Ops F PK VK PVK PF, HEX : !HexOps, !DecimalParse D}.

Definition decode_hex_field (name value : Str) : result bytes (ProveError D) :=
  let trimmed :=
    match strip_prefix (str "0x") value with
    | Some s => s
    | None => default value (strip_prefix (str "0X") value)
    end in
  match hex_decode trimmed with None => Err (BadHex name) | Some b => Ok b end.

Definition scalar_of {A} (name : Str) (r : result A (EncodingError D)) : result A (ProveError D) :=
  match r with Ok a => Ok a | Err e => Err (BadScalar name e) end.

(** A field of [len] bytes in hexadecimal. *)
Definition sized_field (name value : Str) (len : nat) : result bytes (ProveError D) :=
  let? b := decode_hex_field name value in
  if (length b =? len)%nat then Ok b else Err (BadLength name (Z.of_nat (length b))).

Definition decimal_field (name value : Str) : result D (ProveError D) :=
  match dec_from_str value with Ok d => Ok d | Err e => Err (BadDecimal name e) end.

(** The assignment of an order; the witness is parsed JSON. *)
Definition order_circuit (w : WitnessInput) : result (CommitmentPreimageCircuit F) (ProveError D) :=
  let? addr := sized_field (str "trader_addr") (wi_trader_addr w) 20 in
  let? trader_addr := scalar_of (str "trader_addr") (bytes_to_scalar addr) in
  let? trader_id := scalar_of (str "derive_trader_id") (derive_trader_id addr) in
  if 1 <? wi_side w then Err (BadSide (wi_side w))
  else
    let side := fr_of_Z (wi_side w) in
    let? price := decimal_field (str "price") (wi_price w) in
    let? sz := decimal_field (str "size") (wi_size w) in
    let? price_fr := scalar_of (str "price") (decimal_to_scalar price) in
    let? size_fr := scalar_of (str "size") (decimal_to_scalar sz) in
    let? salt_bytes := sized_field (str "salt_hex") (wi_salt_hex w) 32 in
    let? salt := scalar_of (str "salt_hex") (bytes32_to_scalar salt_bytes) in
    Ok (mkPreimage trader_id trader_addr side price_fr size_fr salt).

Definition prove_order (w : WitnessInput) (pk_bytes : bytes) (rng : Z) : result ProveResult (ProveError D) :=
  let? c := order_circuit w in
  match deserialize_pk pk_bytes with
  | Err e => Err (BadKey e)
  | Ok pk =>
    match prove_with_key pk c rng with
    | Err e => Err (ProveFailed e)
    | Ok (publics, proof) =>
      match fr_write (pub_commitment publics) with
      | Err e => Err (SerializeFailed e)
      | Ok commitment => Ok (mkProveResult proof commitment)
      end
    end
  end.

(** What crosses to the page: two lengths, the proof and the commitment. *)
Definition prove_order_wasm (w : WitnessInput) (pk_bytes : bytes) (rng : Z) : result bytes (ProveError D) :=
  let? r := prove_order w pk_bytes rng in
  Ok (le_bytes 4 (wrap32 (Z.of_nat (length (pr_proof r)))) ++ le_bytes 4 (wrap32 (Z.of_nat (length (pr_commitment r)))) ++
      pr_proof r ++ pr_commitment r).
End prover.

(** ** The envelope of a key *)

Lemma Ok_inv {A E} (x y : A) : Ok (E:=E) x = Ok y -> x = y.
Proof. by intros [= ->]. Qed.

(** Bytes that decode to ASCII are that text. *)
Lemma from_utf8_ascii n : forall b s, (length b <= n)%nat -> from_utf8 b = Some s -> Forall (fun c => c < 128) s -> b = s.
Proof.
  induction n as [|n IH]; intros b s Hn; (destruct b as [|b0 r0]; [by intros [= <-]|]); [simpl in Hn; lia|].
  cbn [from_utf8]. destruct (Z.ltb_spec b0 128).
  { intros (s' & H1 & ->)%fmap_Some Hs. apply Forall_cons in Hs as [_ Hs]. f_equal. apply (IH r0); [simpl in Hn; lia|done..]. }
  destruct r0 as [|b1 r1]; [done|]. destruct ((194 <=? b0) && (b0 <=? 223) && is_cont b1) eqn:E2.
  { intros (s' & H1 & ->)%fmap_Some Hs. apply Forall_cons in Hs as [Hc _]. unfold is_cont in E2. lia. }
  destruct r1 as [|b2 r2]; [done|]. cbv zeta. destruct (_ && _ && _ && _ && _ && negb _) eqn:E3.
  { intros (s' & H1 & ->)%fmap_Some Hs. apply Forall_cons in Hs as [Hc _]. unfold is_cont in E3. lia. }
  destruct r2 as [|b3 r3]; [done|]. destruct (_ && _ && _ && _ && _ && _ && _) eqn:E4; [|done].
  intros (s' & H1 & ->)%fmap_Some Hs. apply Forall_cons in Hs as [Hc _]. unfold is_cont in E4. lia.
Qed.

Lemma le_value_le_bytes n z : 0 <= z < 256 ^ Z.of_nat n -> le_value (le_bytes n z) = z.
Proof. intros Hz. unfold le_value. rewrite be_value_le_bytes. by apply Z.mod_small. Qed.

Lemma unwrap_wrap body : unwrap_key_envelope (wrap_key_envelope body) = Ok body.
Proof.
  assert (Hl : length (wrap_key_envelope body) = (44 + length body)%nat) by reflexivity.
  unfold unwrap_key_envelope. cbv zeta. rewrite Hl. destruct (Nat.ltb_spec (44 + length body) (length KEY_ENVELOPE_MAGIC + 4)); [simpl in *; lia|].
  change (take (length KEY_ENVELOPE_MAGIC) (wrap_key_envelope body)) with KEY_ENVELOPE_MAGIC. rewrite bool_decide_true by done.
  cbn [orb negb]. change (le_value _) with 32.
  destruct (Z.ltb_spec (Z.of_nat (44 + length body)) (Z.of_nat (length KEY_ENVELOPE_MAGIC + 4) + 32)); [simpl in *; lia|].
  change (from_utf8 _) with (Some COMMITMENT_CIRCUIT_VERSION). cbv iota beta. by rewrite bool_decide_true by done.
Qed.

(** An envelope opens to a body exactly when it is the envelope of that body:
    keys of another circuit version are never loaded. *)
Theorem key_envelope_exact b body :
  Forall is_byte b -> unwrap_key_envelope b = Ok body <-> b = wrap_key_envelope body.
Proof.
  intros Hb. split; [|intros ->; apply unwrap_wrap]. unfold unwrap_key_envelope. cbv zeta.
  set (n := length KEY_ENVELOPE_MAGIC). destruct (Nat.ltb_spec (length b) (n + 4)); cbn [orb]; [done|].
  case_bool_decide as Hm; cbn [negb]; [|done]. set (v := take 4 (drop n b)).
  assert (Hv : Forall is_byte v) by (unfold v; apply Forall_take, Forall_drop, Hb).
  assert (Hlv : length v = 4%nat) by (unfold v; rewrite length_take, length_drop; lia).
  destruct (le_bytes_be_value v Hv) as [Hv1 Hv2]. rewrite Hlv in Hv1, Hv2. fold (le_value v) in Hv1, Hv2.
  destruct (Z.ltb_spec (Z.of_nat (length b)) (Z.of_nat (n + 4) + le_value v)); [done|].
  set (t := take (Z.to_nat (le_value v)) (drop (n + 4) b)).
  destruct (from_utf8 t) as [ver|] eqn:Hu; [|done]. case_bool_decide as Hver; cbn [negb]; [|done].
  intros Hbody. assert (body = drop (Z.to_nat (Z.of_nat (n + 4) + le_value v)) b) as -> by congruence. clear Hbody.
  assert (Ht : t = COMMITMENT_CIRCUIT_VERSION).
  { rewrite <- Hver. apply (from_utf8_ascii (length t)); [done..|]. rewrite Hver. by repeat constructor. }
  assert (Hlt : length t = Z.to_nat (le_value v)) by (unfold t; rewrite length_take, length_drop; lia).
  rewrite Ht in Hlt. unfold wrap_key_envelope. rewrite Hlt, Z2Nat.id, Hv1, <- Hm, <- Ht by lia.
  replace (Z.to_nat (Z.of_nat (n + 4) + le_value v)) with (Z.to_nat (le_value v) + (n + 4))%nat by lia.
  assert (Hdd : forall i j, drop (i + j) b = drop i (drop j b)) by (intros; rewrite drop_drop; f_equal; lia).
  rewrite (Hdd (Z.to_nat (le_value v)) (n + 4)%nat). unfold t. rewrite take_drop.
  replace (n + 4)%nat with (4 + n)%nat by lia. rewrite (Hdd 4%nat n). unfold v. by rewrite !take_drop.
Qed.

Lemma key_envelope_exact_witness :
  unwrap_key_envelope (wrap_key_envelope [1; 2; 3]) = Ok [1; 2; 3] <-> wrap_key_envelope [1; 2; 3] = wrap_key_envelope [1; 2; 3].
Proof. apply (key_envelope_exact (wrap_key_envelope [1; 2; 3]) [1; 2; 3]). by repeat constructor. Defined.

(** ** What the proof shows *)

Section facts.
Context {D F PK VK PVK PF St : Type} `{!DecimalOps D, !DecimalLaws D, !FieldOps F, !FieldLaws F, !Poseidon F,
  !Groth16Ops F PK VK PVK PF, !Groth16Laws F PK VK PVK PF, HEX : !HexOps, !DecimalParse D, SHA : !Sha256, ADDR : !AddressOps}.
Implicit Types (c : CommitmentPreimageCircuit F) (d : DecryptedOrder D).

(** The assignment is a well-formed order with this commitment and nullifier. *)
Record opens c (x n : F) : Prop := {
  op_side : pc_side c = fr_zero \/ pc_side c = fr_one;
  op_price : fr_to_Z (pc_limit_price c) < 2 ^ 60;
  op_size : fr_to_Z (pc_size c) < 2 ^ 60;
  op_trader : pc_trader_id c = poseidon [pc_trader_addr c];
  op_commitment : x = compute_commitment_native c;
  op_nullifier : n = compute_nullifier_native x (pc_salt c)
}.

Lemma constraints_exact c x n : generate_constraints c [x; n] = true <-> opens c x n.
Proof.
  unfold generate_constraints. rewrite !andb_true_iff, enforce_bit, !range_60, !fr_eqb_spec. split.
  - intros ((((Hs & Hp) & Hz) & Ht) & Hc & Hn). split; try done. rewrite <- Hn, <- Hc. done.
  - intros [Hs Hp Hz Ht Hc Hn]. split_and!; try done. rewrite Hn, Hc. done.
Qed.

Lemma side_bit sd : side_u8 sd = 0 \/ side_u8 sd = 1.
Proof. destruct sd; auto. Qed.

(** What the engine derives for an order is what the circuit is about. *)
Lemma derived_opens (addr : Address) sd (price sz b : D) pos salt sec :
  (sd = 0 \/ sd = 1) -> derive_order_secrets (F:=F) addr sd price sz b pos salt = Ok sec ->
  exists c x n, bytes_to_scalar (D:=D) addr = Ok (pc_trader_addr c) /\ derive_trader_id (D:=D) addr = Ok (pc_trader_id c) /\
    pc_side c = fr_of_Z sd /\ decimal_to_scalar price = Ok (pc_limit_price c) /\ decimal_to_scalar sz = Ok (pc_size c) /\
    bytes32_to_scalar (D:=D) salt = Ok (pc_salt c) /\ opens c x n /\ s_commitment sec = fr_to_bytes32 x /\ s_nullifier sec = fr_to_bytes32 n.
Proof.
  intros Hsd (_ & _ & _ & _ & _ & tid & x & n & sf & pf & szf & Htid & Ht & Hs & Hp & Hz & Hx & Hn & Hsc & Hsn)%derive_order_secrets_Ok.
  revert Htid. unfold derive_trader_id_bytes. destruct (derive_trader_id addr) as [f|] eqn:Hf; [|done]. intros [= Htid].
  rewrite <- Htid in Ht. change (be_bytes 32 (fr_to_Z f)) with (fr_to_bytes32 f) in Ht. rewrite bytes32_to_scalar_encode in Ht. injection Ht as <-.
  pose proof Hf as Ha. unfold derive_trader_id in Ha. destruct (bytes_to_scalar addr) as [a|] eqn:Haddr; [|done]. injection Ha as Ha.
  exists (mkPreimage f a (fr_of_Z sd) pf szf sf), x, n. cbn [pc_trader_addr pc_trader_id pc_side pc_limit_price pc_size pc_salt].
  split_and!; try done. destruct (scalar_bound _ _ Hp) as [_ Hp']. destruct (scalar_bound _ _ Hz) as [_ Hz'].
  split; cbn [pc_trader_addr pc_trader_id pc_side pc_limit_price pc_size pc_salt]; try done.
  - destruct Hsd as [-> | ->]; [by left|by right].
  - rewrite Hx. unfold compute_commitment_native. cbn [pc_trader_addr pc_trader_id pc_side pc_limit_price pc_size pc_salt].
    destruct Hsd as [-> | ->]; done.
Qed.

(** The text of a salt has no prefix to strip. *)
Lemma salt_field (name text : Str) salt :
  parse_order_salt (D:=D) (F:=F) text = Ok salt -> sized_field (D:=D) name text 32 = Ok salt.
Proof.
  unfold parse_order_salt, parse_lowercase_hex32. destruct (negb _ || negb _) eqn:Hg; [done|].
  apply orb_false_iff in Hg as [_ Hhex%negb_false_iff].
  assert (Hp : forall p, is_lower_hex p = false -> strip_prefix [48; p] text = None).
  { intros p Hp. destruct text as [|a [|b t]]; cbn [strip_prefix]; [done|by destruct (48 =? a)|].
    destruct (48 =? a); [|done]. destruct (Z.eqb_spec p b) as [<-|]; [|done]. cbn [forallb] in Hhex. rewrite Hp in Hhex.
    by rewrite andb_false_r in Hhex. }
  unfold sized_field, decode_hex_field. change (str "0x") with [48; 120]. change (str "0X") with [48; 88].
  rewrite !Hp by done. cbn [default]. destruct (hex_decode text) as [b|]; [|done].
  destruct (Nat.eqb_spec (length b) 32) as [Hl|]; [|done]. destruct (bytes32_to_scalar b); [|done]. by intros [= <-].
Qed.

(** The prover and the order it proves speak of the same fields. *)
Record describes (w : WitnessInput) d : Prop := {
  de_trader : decode_hex_field (D:=D) (str "trader_addr") (wi_trader_addr w) = Ok (d_trader d);
  de_length : length (d_trader d) = 20%nat;
  de_side : wi_side w = side_u8 (d_side d);
  de_price : dec_from_str (wi_price w) = Ok (d_price d);
  de_size : dec_from_str (wi_size w) = Ok (d_size d);
  de_salt : wi_salt_hex w = d_salt d
}.

Lemma order_circuit_opens w d salt b pos sec :
  describes w d -> parse_order_salt (D:=D) (F:=F) (d_salt d) = Ok salt ->
  derive_order_secrets (F:=F) (d_trader d) (side_u8 (d_side d)) (d_price d) (d_size d) b pos salt = Ok sec ->
  exists c x n, order_circuit (D:=D) w = Ok c /\ opens c x n /\ s_commitment sec = fr_to_bytes32 x /\ s_nullifier sec = fr_to_bytes32 n.
Proof.
  intros [Htr Hlen Hside Hprice Hsize Hsalt] Hps Hsec.
  destruct (derived_opens _ _ _ _ _ _ _ _ (side_bit (d_side d)) Hsec) as (c & x & n & Ha & Hid & Hs & Hp & Hz & Hsf & Ho & Hc & Hn).
  exists c, x, n. split; [|done]. unfold order_circuit, sized_field at 1. rewrite Htr, Hlen. cbn [Nat.eqb scalar_of].
  rewrite Ha, Hid. cbn [scalar_of]. rewrite Hside. replace (1 <? side_u8 (d_side d)) with false by by destruct (d_side d).
  unfold decimal_field. rewrite Hprice, Hsize, Hp, Hz. cbn [scalar_of]. rewrite Hsalt, (salt_field _ _ _ Hps), Hsf. cbn [scalar_of].
  destruct c; simpl in *. by rewrite Hs.
Qed.

(** The gate lets every honest order through, with any proof system that keeps
    the laws. *)
Lemma gate_accepts_honest rng rng' (pk : PK) (vk : VK) pkb vkb w d salt b pos sec :
  generate_keys (D:=D) (F:=F) (PVK:=PVK) (PF:=PF) rng = Ret (Ok (pk, vk)) -> serialize_pk pk = Ok pkb -> serialize_vk vk = Ok vkb ->
  describes w d -> parse_order_salt (D:=D) (F:=F) (d_salt d) = Ok salt ->
  derive_order_secrets (F:=F) (d_trader d) (side_u8 (d_side d)) (d_price d) (d_size d) b pos salt = Ok sec ->
  exists pvk r, verifier_from_bytes vkb = Ok pvk /\ prove_order (D:=D) w pkb rng' = Ok r /\
    check_proof (Some (verify pvk)) (pr_proof r) sec = Ok tt.
Proof.
  unfold generate_keys. intros (tid & _ & Hk)%outcome_bind_Ret Hpk Hvk Hw Hsalt Hsec. revert Hk.
  destruct (g16_setup _ rng) as [[pk' vk']|] eqn:Hset; [|done]. intros [= -> ->].
  destruct (order_circuit_opens w d salt b pos sec Hw Hsalt Hsec) as (c & x & n & Hc & Ho & Hsc & Hsn).
  assert (Hpub : order_publics c = mkOrderProofPublics x n) by (destruct Ho; unfold order_publics, derive_publics; congruence).
  destruct (g16_complete _ _ _ _ c rng' Hset) as (pf & Hprove & Hver).
  { rewrite Hpub. by apply constraints_exact. }
  destruct (pf_roundtrip pf) as (pfb & Hw1 & Hr1). destruct (fr_write_total (pub_commitment (order_publics c))) as (cb & Hcb).
  revert Hpk Hvk. unfold serialize_pk, serialize_vk. destruct (pk_write pk) as [pkb'|] eqn:Hpk; [|done].
  destruct (vk_write vk) as [vkb'|] eqn:Hvk; [|done]. intros <-%Ok_inv <-%Ok_inv.
  exists (g16_prepare vk), (mkProveResult pfb cb). split_and!.
  - unfold verifier_from_bytes, deserialize_vk. by rewrite unwrap_wrap, (vk_roundtrip _ _ Hvk).
  - unfold prove_order, deserialize_pk, prove_with_key. by rewrite Hc, unwrap_wrap, (pk_roundtrip _ _ Hpk), Hprove, Hw1, Hcb.
  - unfold check_proof, verify, verify_proof_with_processed_vk. cbn [pr_proof].
    rewrite Hsc, Hsn, !bytes32_to_scalar_encode, Hr1, <- Hpub, Hver. done.
Qed.

(** Two different inputs with one hash. *)
Definition collides (l l' : list F) : Prop := l <> l' /\ poseidon l = poseidon l'.

Lemma poseidon_inj l l' : poseidon (F:=F) l = poseidon l' -> l = l' \/ collides l l'.
Proof. intros H. destruct (decide (l = l')); [by left|by right]. Qed.

(** What the commitment of an assignment hashes. *)
Definition committed (c : CommitmentPreimageCircuit F) : list F := [pc_trader_id c; pc_side c; pc_limit_price c; pc_size c; pc_salt c].

(** Two openings of one commitment are one, or exhibit a collision. *)
Lemma opens_inj c c' x n n' : opens c x n -> opens c' x n' ->
  c = c' \/ collides (committed c) (committed c') \/ collides [pc_trader_addr c] [pc_trader_addr c'].
Proof.
  intros [_ _ _ Ht Hx _] [_ _ _ Ht' Hx' _].
  assert (poseidon (committed c) = poseidon (committed c')) as [Heq|]%poseidon_inj; [rewrite Hx in Hx'; exact Hx'| |by right; left].
  injection Heq as Hid Hsd Hpr Hsz Hst.
  assert (poseidon [pc_trader_addr c] = poseidon [pc_trader_addr c']) as [[= Had]|]%poseidon_inj by congruence; [|by right; right].
  left. destruct c, c'. simpl in *. congruence.
Qed.

(** C11: an order that was admitted was proved by somebody who knew it.  When
    the engine pins a verifying key, the assignment that the extractor of the
    proof system, whatever it is, reads off the accepted proof is the order: it
    is the assignment made of the trader, side, price, size and salt of the
    decrypted order.  Otherwise the extractor fails on this very proof, or the
    assignment it reads and the order are a collision of the hash. *)
Theorem admitted_order_proved extract (pvk : PVK) (env : PlaceEnv D F) s_cfg proof ciphertext caller p d key cfg salt nonce :
  pe_verifier env = Some (verify pvk) -> Accepted env s_cfg proof ciphertext caller p d key cfg salt nonce ->
  exists pf x n o, let c := extract [x; n] pf in
    pf_read proof = Ok pf /\ g16_verify pvk [x; n] pf = Ok true /\
    s_commitment (p_secrets p) = fr_to_bytes32 x /\ s_nullifier (p_secrets p) = fr_to_bytes32 n /\
    bytes_to_scalar (D:=D) caller = Ok (pc_trader_addr o) /\ pc_side o = fr_of_Z (side_u8 (d_side d)) /\
    decimal_to_scalar (d_price d) = Ok (pc_limit_price o) /\ decimal_to_scalar (d_size d) = Ok (pc_size o) /\
    bytes32_to_scalar (D:=D) salt = Ok (pc_salt o) /\
    (generate_constraints c [x; n] = false \/
     collides (committed c) (committed o) \/ collides [pc_trader_addr c] [pc_trader_addr o] \/
     c = o).
Proof.
  intros Hver Hacc.
  destruct (ac_proof _ _ _ _ _ _ _ _ _ _ _ Hacc _ Hver) as (x & n & Hx & Hn & Hv). destruct (ac_secrets _ _ _ _ _ _ _ _ _ _ _ Hacc) as (bp & _ & Hsec).
  destruct (derived_opens _ _ _ _ _ _ _ _ (side_bit (d_side d)) Hsec) as (o & x' & n' & Ha & Hid & Hs & Hp & Hz & Hsf & Ho & Hc' & Hn').
  rewrite Hx in Hc'. apply fr_to_bytes32_inj in Hc' as <-. rewrite Hn in Hn'. apply fr_to_bytes32_inj in Hn' as <-.
  revert Hv. unfold verify, verify_proof_with_processed_vk. destruct (pf_read proof) as [pf|] eqn:Hpf; [|done].
  destruct (g16_verify _ _ pf) as [[]|] eqn:Hg; try done. intros _. cbn [as_inputs pub_commitment pub_nullifier] in Hg.
  exists pf, x, n, o. cbv zeta. split_and!; try done; [by rewrite <- (ac_trader _ _ _ _ _ _ _ _ _ _ _ Hacc)|].
  destruct (generate_constraints _ _) eqn:Hcw; [right|by left]. apply constraints_exact in Hcw.
  destruct (opens_inj _ _ _ _ _ Hcw Ho) as [|[|]]; tauto.
Qed.
End facts.
