(* ===== verification/OrderGroth16.v ===== *)
(** * The order proof on the vendored proof system

    [Groth16.v] implements the interface [OrderProof.v] is written against: with
    the order circuit synthesized faithfully, its completeness is the law the
    gate of the engine relies on. *)

From S2P Require Import Prelude Decimal Types Field Auction Events Book Merkle EngineState Engine Admission.
From S2P Require Import Prime Poly Groth16 Groth16Facts Circuit Text Api OrderProof.
Open Scope Z_scope.

(** [CanonicalSerialize] of keys, proofs and scalars. *)
Class Codec (F G1 G2 : Type) := {
  c_pk_write : ProvingKey G1 G2 -> result bytes Str;
  c_pk_read : bytes -> result (ProvingKey G1 G2) Str;
  c_vk_write : VerifyingKey G1 G2 -> result bytes Str;
  c_vk_read : bytes -> result (VerifyingKey G1 G2) Str;
  c_pf_write : Proof G1 G2 -> result bytes Str;
  c_pf_read : bytes -> result (Proof G1 G2) Str;
  c_fr_write : F -> result bytes Str
}.

Class CodecLaws (F G1 G2 : Type) `{!Codec F G1 G2} : Prop := {
  c_pk_roundtrip : forall pk b, c_pk_write pk = Ok b -> c_pk_read b = Ok pk;
  c_vk_roundtrip : forall vk b, c_vk_write vk = Ok b -> c_vk_read b = Ok vk;
  c_pf_roundtrip : forall pf, exists b, c_pf_write pf = Ok b /\ c_pf_read b = Ok pf;
  c_fr_write_total : forall f, exists b, c_fr_write f = Ok b
}.

(** What a seed of the generator draws, and how an error prints. *)
Class Draws (F G1 G2 : Type) := {
  draw_setup : Z -> SetupDraws F G1 G2;
  draw_proof : Z -> F * F;
  synthesis_message : SynthesisError -> Str
}.

(** The gadgets of the constraint library turn the order circuit into one set
    of matrices, whatever the values; the public inputs follow the constant
    one, and an assignment within the constraints satisfies the matrices. *)
Class FaithfulSynthesis (F : Type) `{!FieldOps F, !Poseidon F, !Synthesizer (CommitmentPreimageCircuit F) F} (mx : ConstraintMatrices F) : Prop := {
  synthesis_instance : forall shape c, generate_constraints c (as_inputs (order_publics c)) = true ->
    exists cs0 cs wit, synthesize Setup shape = Ok cs0 /\ synthesize Prove c = Ok cs /\
      instance_of cs0 cs mx (as_inputs (order_publics c)) wit
}.

Section built.
Context {F Dom G1 G2 GT ML : Type} `{!FieldOps F, LAWS : !FieldLaws F, !Poseidon F, !FieldInv F, !FieldInvLaws F, !DomainOps F Dom, !DomainLaws F Dom,
  !Synthesizer (CommitmentPreimageCircuit F) F,
  !GroupOps F G1, !GroupOps F G2, !GroupOps F GT, !GroupLaws F G1, !GroupLaws F G2, !GroupLaws F GT,
  !MsmOps F G1, !MsmOps F G2, !MsmLaws F G1, !MsmLaws F G2, PO : !PairingOps G1 G2 GT ML, PL : !PairingLaws F G1 G2 GT ML,
  CD : !Codec F G1 G2, !CodecLaws F G1 G2, !Draws F G1 G2}.

(** A panic takes the caller down; it is an error without a message here, and
    the law below shows that an honest prover meets none. *)
Definition settled {A} (o : outcome (result A SynthesisError)) : result A Str :=
  match o with Ret (Ok a) => Ok a | Ret (Err e) => Err (synthesis_message e) | Panic => Err [] end.

#[local] Instance built_groth16 : Groth16Ops F (ProvingKey G1 G2) (VerifyingKey G1 G2) (PreparedVerifyingKey G1 G2 GT) (Proof G1 G2) := {|
  g16_setup shape rng := settled (circuit_specific_setup (Dom:=Dom) shape (draw_setup rng));
  g16_prepare := prepare_verifying_key;
  g16_prove pk c rng := settled (groth16_prove (Dom:=Dom) pk c (draw_proof rng));
  g16_verify pvk inputs proof :=
    match verify_with_processed_vk pvk inputs proof with Ok v => Ok v | Err e => Err (synthesis_message e) end;
  pk_write := c_pk_write;
  pk_read := c_pk_read;
  vk_write := c_vk_write;
  vk_read := c_vk_read;
  pf_write := c_pf_write;
  pf_read := c_pf_read;
  fr_write := c_fr_write
|}.

(** A setup that returns keys had a domain and nonzero trapdoors. *)
Lemma setup_Ok_inv (shape : CommitmentPreimageCircuit F) (dr : SetupDraws F G1 G2) cs pk vk :
  synthesize Setup shape = Ok cs -> circuit_specific_setup (Dom:=Dom) shape dr = Ret (Ok (pk, vk)) ->
  (exists d : Dom, dom_new (num_constraints cs + num_instance_variables cs) = Some d) /\ dr_gamma dr <> fr_zero /\ dr_delta dr <> fr_zero.
Proof.
  intros Hs. unfold circuit_specific_setup, generate_random_parameters_with_reduction, generate_parameters_with_qap. rewrite Hs.
  destruct (dom_new _) as [d|] eqn:Hd; [|done]. destruct (instance_map_with_evaluation _ _) as [[[[[[[a b] c] zt] q] m]|]|]; [|done..].
  destruct (fr_inverse (dr_gamma dr)) eqn:Hg; [|done]. destruct (fr_inverse (dr_delta dr)) eqn:Hdl; [|done]. intros _.
  split; [by exists d|]. split; intros H0; apply fr_inverse_None in H0; congruence.
Qed.

Context (Hgen : generator_outside F Dom) {mx : ConstraintMatrices F} `{!FaithfulSynthesis F mx}.

Lemma built_complete shape rng (pk : ProvingKey G1 G2) (vk : VerifyingKey G1 G2) c rng' :
  g16_setup shape rng = Ok (pk, vk) -> generate_constraints c (as_inputs (order_publics c)) = true ->
  exists pf, g16_prove pk c rng' = Ok pf /\ g16_verify (g16_prepare vk) (as_inputs (order_publics c)) pf = Ok true.
Proof.
  cbn [g16_setup g16_prove g16_verify g16_prepare built_groth16]. intros Hset Hc. unfold settled in Hset.
  destruct (circuit_specific_setup shape _) as [[[pk' vk']|]|] eqn:Hcs; try done. injection Hset as -> ->.
  destruct (synthesis_instance shape c Hc) as (cs0 & cs & wit & Hs0 & Hs & Hio). pose proof Hio as [_ _ (Hc1 & Hc2 & _) _ _ _ _].
  destruct (setup_Ok_inv shape _ cs0 pk vk Hs0 Hcs) as ((d & Hd) & Hg & Hdl). rewrite <- Hc1, <- Hc2 in Hd. destruct (draw_proof rng') as [r s] eqn:Hr.
  destruct (groth16_runs Hgen shape c (draw_setup rng) r s cs0 cs mx _ wit d Hs0 Hs Hio Hd Hg Hdl) as (pk2 & vk2 & pf & H1 & H2 & H3).
  rewrite Hcs in H1. injection H1 as <- <-. exists pf. unfold settled. rewrite H2. split; [done|]. by rewrite H3.
Qed.

(** The vendored crate keeps what the gate expects of a proof system. *)
#[local] Instance built_laws : Groth16Laws F (ProvingKey G1 G2) (VerifyingKey G1 G2) (PreparedVerifyingKey G1 G2 GT) (Proof G1 G2).
Proof.
  split; [exact built_complete|exact c_pk_roundtrip|exact c_vk_roundtrip|exact c_pf_roundtrip|exact c_fr_write_total].
Qed.
(** C12: the proof gate lets every honest order through.  With the keys of a
    setup of the vendored proof system, in the envelopes the setup writes, the
    browser's prover succeeds on every order whose secrets the engine can
    derive, and the engine's check against the verifying key accepts the
    proof. *)
Theorem honest_proof_accepted {D : Type} `{!DecimalOps D, !DecimalLaws D, HEX : !HexOps, !DecimalParse D, SHA : !Sha256, ADDR : !AddressOps}
    rng rng' (pk : ProvingKey G1 G2) (vk : VerifyingKey G1 G2) pkb vkb w (d : DecryptedOrder D) salt b pos sec :
  generate_keys (D:=D) (Groth16Ops0:=built_groth16) rng = Ret (Ok (pk, vk)) -> serialize_pk pk = Ok pkb -> serialize_vk vk = Ok vkb ->
  describes w d -> parse_order_salt (D:=D) (F:=F) (d_salt d) = Ok salt ->
  derive_order_secrets (F:=F) (d_trader d) (side_u8 (d_side d)) (d_price d) (d_size d) b pos salt = Ok sec ->
  exists pvk r, verifier_from_bytes vkb = Ok pvk /\ prove_order (D:=D) w pkb rng' = Ok r /\
    check_proof (Some (verify pvk)) (pr_proof r) sec = Ok tt.
Proof. apply (gate_accepts_honest (PVK:=PreparedVerifyingKey G1 G2 GT) (PF:=Proof G1 G2)). Qed.
End built.
