(* ===== verification/OrderProofExamples.v ===== *)
(** * A proved order

    The bid of the sample run, with a scheme whose proofs are the assignments
    themselves and with the vendored proof system on residues: the hypotheses
    of the theorems of [OrderProof.v] and [OrderGroth16.v] can hold. *)

From S2P Require Import Prelude Decimal Types Field Auction Events Book Merkle EngineState Engine Admission Witness Tick Batch Machine.
From S2P Require Import Examples Prime Poly Groth16 Groth16Facts Groth16Examples Circuit CircuitFacts Text Api OrderProof OrderGroth16.
Open Scope Z_scope.

#[local] Existing Instances fr_ops fr_laws canonical_iter small_poseidon sample_sha sample_hex sample_addr.

#[local] Instance single_decimal : DecimalParse Z := {| dec_from_str s := match s with [x] => Ok x | _ => Err (str "decimal") end |}.

(** A transparent scheme: no secrecy, but complete, and extraction is reading. *)
#[local] Instance transparent : Groth16Ops Fr unit unit unit (CommitmentPreimageCircuit Fr) := {|
  g16_setup _ _ := Ok (tt, tt);
  g16_prepare _ := tt;
  g16_prove _ c _ := Ok c;
  g16_verify _ inputs c := Ok (generate_constraints c inputs);
  pk_write _ := Ok [];
  pk_read _ := Ok tt;
  vk_write _ := Ok [];
  vk_read _ := Ok tt;
  pf_write c := Ok (map fr_to_Z [pc_trader_id c; pc_trader_addr c; pc_side c; pc_limit_price c; pc_size c; pc_salt c]);
  pf_read b :=
    match map fr_of_Z b with
    | [i; a; s; p; z; t] => Ok (mkPreimage i a s p z t)
    | _ => Err (str "proof")
    end;
  fr_write f := Ok [fr_to_Z f]
|}.

#[local] Instance transparent_laws : Groth16Laws Fr unit unit unit (CommitmentPreimageCircuit Fr).
Proof.
  split.
  - intros shape rng pk vk c rng' _ Hc. exists c. split; [done|]. cbn [g16_verify transparent]. by rewrite Hc.
  - intros [] b _. done.
  - intros [] b _. done.
  - intros [i a s p z t]. eexists. split; [reflexivity|]. cbn [pf_read transparent map pc_trader_id pc_trader_addr pc_side pc_limit_price pc_size pc_salt].
    by rewrite !fr_of_to_Z.
  - intros f. by eexists.
Qed.

(** The bid of the run, as the browser is given it. *)
Definition bid_witness : WitnessInput :=
  mkWitnessInput (hex_encode (trader 1)) 0 [Examples.whole 100] [Examples.whole 5] (hex64 101).

Definition bid_plain : DecryptedOrder Z := sample_plain 1 Buy 100 5.

Definition bid_secrets : OrderSecrets Z := Eval vm_compute in
  match derive_order_secrets (F:=Fr) (trader 1) 0 (Examples.whole 100) (Examples.whole 5) (Examples.whole 1000) 0 (be_bytes 32 101) with
  | Ok s => s | Err _ => mkOrderSecrets [] [] [] [] 0 0 end.

Lemma bid_described : describes bid_witness bid_plain.
Proof. split; by_run. Qed.

(** The proof the browser returns for the bid. *)
Definition bid_proof : bytes := Eval vm_compute in
  match prove_order (D:=Z) (F:=Fr) bid_witness (wrap_key_envelope []) 0 with Ok r => pr_proof r | Err _ => [] end.

Definition pinned_env : PlaceEnv Z Fr :=
  mkPlaceEnv (fun _ => Ok bid_plain) (fun _ _ _ => Ok (Examples.whole 1000, 0)) (Some (verify tt)) (secs 500) 1.

Definition bid_prepared : Prepared Z := Eval vm_compute in
  match prepare_order pinned_env (e_state eng1) (e_state eng1) bid_proof [1] (trader 1) with
  | Ret (Ok p) => p
  | _ => mkPrepared (order_in eng2 1) bid_secrets (mkReplayProtection [] []) end.

Lemma bid_prepares : prepare_order pinned_env (e_state eng1) (e_state eng1) bid_proof [1] (trader 1) = Ret (Ok bid_prepared).
Proof. by_run. Qed.

Lemma admitted_order_proved_witness :
  exists d salt pf x n o, let c := pf in
    pf_read bid_proof = Ok pf /\ g16_verify tt [x; n] pf = Ok true /\
    s_commitment (p_secrets bid_prepared) = fr_to_bytes32 x /\ s_nullifier (p_secrets bid_prepared) = fr_to_bytes32 n /\
    bytes_to_scalar (D:=Z) (trader 1) = Ok (pc_trader_addr o) /\ pc_side o = fr_of_Z (side_u8 (d_side d)) /\
    decimal_to_scalar (D:=Z) (d_price d) = Ok (pc_limit_price o) /\ decimal_to_scalar (D:=Z) (d_size d) = Ok (pc_size o) /\
    bytes32_to_scalar (D:=Z) salt = Ok (pc_salt o) /\
    (generate_constraints c [x; n] = false \/ collides (committed c) (committed o) \/ collides [pc_trader_addr c] [pc_trader_addr o] \/ c = o).
Proof.
  destruct (prepare_order_Ok _ _ _ _ _ _ _ bid_prepares) as (d & key & cfg & salt & nonce & Hacc). exists d, salt.
  apply (admitted_order_proved (F:=Fr) (fun _ pf => pf) tt pinned_env (e_state eng1) bid_proof [1] (trader 1) bid_prepared d key cfg salt nonce).
  - reflexivity.
  - exact Hacc.
Defined.

(** ** The vendored proof system on an order

    Residues for the groups, and the part of the order circuit that this hash
    leaves linear, with the bit of the side: four constraints over the
    variables one, commitment, nullifier, identity, address, side, price, size
    and salt. *)

#[local] Existing Instances fr_inverses fr_inverses_laws interpolation_domain interpolation_domain_laws
  residue_group residue_group_laws residue_msm residue_msm_laws product_pairing product_pairing_laws.

Definition coefficient (z : Z) : Fr := fr_of_Z z.

Definition order_matrices : ConstraintMatrices Fr :=
  let one := [(fr_one, 0%nat)] in
  mkMatrices
    [[(fr_one, 5%nat)]; [(coefficient 3, 0%nat); (fr_one, 4%nat)];
     [(coefficient 243, 0%nat); (coefficient 81, 3%nat); (coefficient 27, 5%nat); (coefficient 9, 6%nat); (coefficient 3, 7%nat); (fr_one, 8%nat)];
     [(fr_add (coefficient 27) (fr_mul (coefficient 9) nullifier_domain), 0%nat); (coefficient 3, 1%nat); (fr_one, 8%nat)]]
    [[(fr_one, 0%nat); (fr_neg fr_one, 5%nat)]; one; one; one]
    [[]; [(fr_one, 3%nat)]; [(fr_one, 1%nat)]; [(fr_one, 2%nat)]].

Definition order_cs (mode : SynthesisMode) (c : CommitmentPreimageCircuit Fr) : ConstraintSystem Fr :=
  let values l := match mode with Setup => None | Prove => Some l end in
  mkCS (Some [cm_a order_matrices; cm_b order_matrices; cm_c order_matrices]) 3 6 4
    (values (fr_one :: as_inputs (order_publics c)))
    (values [pc_trader_id c; pc_trader_addr c; pc_side c; pc_limit_price c; pc_size c; pc_salt c]).

#[local] Instance order_synthesizer : Synthesizer (CommitmentPreimageCircuit Fr) Fr := {| synthesize mode c := Ok (order_cs mode c) |}.

Lemma order_well_formed mode c : well_formed (order_cs mode c) order_matrices.
Proof. split; cbn; repeat (constructor || lia). Qed.

Lemma fr_of_Z_add a b : fr_of_Z (F:=Fr) (a + b) = fr_add (fr_of_Z a) (fr_of_Z b).
Proof. apply fr_to_Z_inj. rewrite fr_add_spec, !fr_of_Z_spec. apply Zplus_mod. Qed.

Lemma fr_of_Z_mul a b : fr_of_Z (F:=Fr) (a * b) = fr_mul (fr_of_Z a) (fr_of_Z b).
Proof. apply fr_to_Z_inj. rewrite fr_mul_spec, !fr_of_Z_spec. apply Zmult_mod. Qed.

Lemma small_poseidon_linear (l : list Fr) : poseidon l = fold_left (fun acc x => fr_add (fr_mul (coefficient 3) acc) x) l fr_one.
Proof.
  change (poseidon l) with (fr_of_Z (F:=Fr) (fold_left (fun acc x => 3 * acc + fr_to_Z x) l 1)). unfold fr_one. generalize 1 as a.
  induction l as [|x l IH]; intros a; cbn [fold_left]; [done|]. rewrite IH. f_equal.
  unfold coefficient. by rewrite fr_of_Z_add, fr_of_Z_mul, fr_of_to_Z.
Qed.

Add Ring fr_ring5 : (fr_ring_theory (F:=Fr)).

Lemma coefficient_mul a b : coefficient (a * b) = fr_mul (coefficient a) (coefficient b).
Proof. apply fr_of_Z_mul. Qed.

Lemma satisfied_rows (mx : ConstraintMatrices Fr) z :
  Forall (fun '(ra, rb, rc) => fr_mul (row_value ra z) (row_value rb z) = row_value rc z) (zip (zip (cm_a mx) (cm_b mx)) (cm_c mx)) -> satisfied mx z.
Proof.
  intros H i ra rb rc Ha Hb Hc. rewrite Forall_lookup in H. apply (H i (ra, rb, rc)).
  rewrite lookup_zip_with, lookup_zip_with, Ha, Hb, Hc. done.
Qed.

Lemma order_satisfied c : generate_constraints c (as_inputs (order_publics c)) = true ->
  satisfied order_matrices (fr_one :: as_inputs (order_publics c) ++ [pc_trader_id c; pc_trader_addr c; pc_side c; pc_limit_price c; pc_size c; pc_salt c]).
Proof.
  unfold generate_constraints, as_inputs. rewrite !andb_true_iff, !fr_eqb_spec. intros ((((Hs & _) & _) & Ht) & Hc & Hn).
  rewrite small_poseidon_linear in Ht, Hc, Hn. rewrite small_poseidon_linear in Hn. cbn [fold_left] in Ht, Hc, Hn.
  set (x := pub_commitment (order_publics c)) in *. set (n := pub_nullifier (order_publics c)) in *. rewrite Hc in Hn.
  assert (H9 : coefficient 9 = fr_mul (coefficient 3) (coefficient 3)) by apply (coefficient_mul 3 3).
  assert (H27 : coefficient 27 = fr_mul (coefficient 3) (coefficient 9)) by apply (coefficient_mul 3 9).
  assert (H81 : coefficient 81 = fr_mul (coefficient 3) (coefficient 27)) by apply (coefficient_mul 3 27).
  assert (H243 : coefficient 243 = fr_mul (coefficient 3) (coefficient 81)) by apply (coefficient_mul 3 81).
  assert (Hrow : forall row z, row_value (F:=Fr) row z = foldr (fun '(k, i) acc => fr_add (fr_mul k (default fr_zero (z !! i))) acc) fr_zero row).
  { intros row z. unfold row_value, fr_sum. induction row as [|[k i] row IH]; [done|]. cbn [map foldr]. by rewrite IH. }
  apply satisfied_rows. unfold order_matrices. cbn [cm_a cm_b cm_c zip_with]. repeat (apply Forall_cons; split); [..|by apply Forall_nil];
    rewrite !Hrow; cbn [foldr app lookup list_lookup from_option id].
  - etransitivity; [|exact Hs]. ring.
  - etransitivity; [|rewrite <- Ht; reflexivity]. ring.
  - rewrite <- Hc, H243, H81, H27, H9. ring.
  - rewrite <- Hn, H27, H9. ring.
Qed.

#[local] Instance order_faithful : FaithfulSynthesis Fr order_matrices.
Proof.
  split. intros shape c Hc. exists (order_cs Setup shape), (order_cs Prove c), [pc_trader_id c; pc_trader_addr c; pc_side c; pc_limit_price c; pc_size c; pc_salt c].
  split_and!; [done..|]. split; try done; [apply order_well_formed..|]. by apply order_satisfied.
Qed.

(** Residues are written as they are, lists with their lengths. *)
Definition write_list (l : list Fr) : bytes := Z.of_nat (length l) :: map fr_to_Z l.

Definition read_list (b : bytes) : list Fr * bytes :=
  match b with
  | [] => ([], [])
  | n :: rest => (map fr_of_Z (take (Z.to_nat n) rest), drop (Z.to_nat n) rest)
  end.

Lemma read_write_list l b : read_list (write_list l ++ b) = (l, b).
Proof.
  unfold write_list. cbn [app read_list]. rewrite Nat2Z.id, take_app_length', drop_app_length' by (by rewrite length_map). f_equal.
  rewrite map_map. rewrite <- (map_id l) at 2. apply map_ext. apply fr_of_to_Z.
Qed.

Definition write_vk (vk : VerifyingKey Fr Fr) : bytes :=
  write_list [alpha_g1 vk; beta_g2 vk; gamma_g2 vk; delta_g2 vk] ++ write_list (gamma_abc_g1 vk).

Definition read_vk (b : bytes) : result (VerifyingKey Fr Fr) Str * bytes :=
  let '(h, b1) := read_list b in
  let '(abc, b2) := read_list b1 in
  (match h with [al; be; ga; de] => Ok (mkVerifyingKey al be ga de abc) | _ => Err (str "vk") end, b2).

Definition write_pk (pk : ProvingKey Fr Fr) : bytes :=
  write_vk (pk_vk pk) ++ write_list [beta_g1 pk; delta_g1 pk] ++ write_list (a_query pk) ++ write_list (b_g1_query pk) ++
  write_list (b_g2_query pk) ++ write_list (h_query pk) ++ write_list (l_query pk).

Definition read_pk (b : bytes) : result (ProvingKey Fr Fr) Str :=
  let '(vk, b0) := read_vk b in
  let '(h, b1) := read_list b0 in
  let '(qa, b2) := read_list b1 in
  let '(qb1, b3) := read_list b2 in
  let '(qb2, b4) := read_list b3 in
  let '(qh, b5) := read_list b4 in
  let '(ql, _) := read_list b5 in
  match vk, h with Ok vk, [be; de] => Ok (mkProvingKey vk be de qa qb1 qb2 qh ql) | _, _ => Err (str "pk") end.

#[local] Instance residue_codec : Codec Fr Fr Fr := {|
  c_pk_write pk := Ok (write_pk pk);
  c_pk_read := read_pk;
  c_vk_write vk := Ok (write_vk vk);
  c_vk_read b := (read_vk b).1;
  c_pf_write pf := Ok (write_list [proof_a pf; proof_b pf; proof_c pf]);
  c_pf_read b := match (read_list b).1 with [x; y; z] => Ok (mkProof x y z) | _ => Err (str "proof") end;
  c_fr_write f := Ok [fr_to_Z f]
|}.

Lemma read_write_vk vk b : read_vk (write_vk vk ++ b) = (Ok vk, b).
Proof. unfold read_vk, write_vk. rewrite <- app_assoc, !read_write_list. by destruct vk. Qed.

#[local] Instance residue_codec_laws : CodecLaws Fr Fr Fr.
Proof.
  split.
  - intros pk b [= <-]. cbn [c_pk_read residue_codec]. unfold read_pk, write_pk. rewrite read_write_vk, !read_write_list.
    rewrite <- (app_nil_r (write_list (l_query pk))), read_write_list. by destruct pk.
  - intros vk b [= <-]. cbn [c_vk_read residue_codec]. by rewrite <- (app_nil_r (write_vk vk)), read_write_vk.
  - intros pf. eexists. split; [reflexivity|]. cbn [c_pf_read residue_codec]. rewrite <- (app_nil_r (write_list _)), read_write_list. by destruct pf.
  - intros f. by eexists.
Qed.

#[local] Instance residue_draws : Draws Fr Fr Fr := {|
  draw_setup n := mkDraws (mk_fr (n + 11)) (mk_fr (n + 12)) (mk_fr (n + 13)) (mk_fr (n + 14)) (mk_fr (n + 15)) (mk_fr (n + 16)) (mk_fr (n + 17));
  draw_proof n := (mk_fr (n + 21), mk_fr (n + 22));
  synthesis_message _ := str "synthesis"
|}.

#[local] Existing Instance built_groth16.

Lemma built_generates : exists pk vk, generate_keys (D:=Z) (Groth16Ops0:=built_groth16) 0 = Ret (Ok (pk, vk)).
Proof.
  set (shape := mkPreimage (poseidon [fr_zero]) fr_zero fr_zero fr_zero fr_zero fr_zero).
  destruct (setup_spec (Dom:=Points) (G1:=Fr) (G2:=Fr) shape (draw_setup 0) (order_cs Setup shape) order_matrices dom8)
    as (a & b & c & gi & di & Hset & _); [done|apply order_well_formed|done|intros H; apply (f_equal fr_to_Z) in H; discriminate H..|].
  eexists _, _. unfold generate_keys. cbn [derive_trader_id bytes_to_scalar length Nat.ltb Nat.leb Nat.eqb andb mbind outcome_bind].
  cbn [g16_setup built_groth16]. change (fr_of_Z (be_value [])) with (fr_zero (F:=Fr)). fold shape. rewrite Hset. reflexivity.
Qed.

(** The bid, proved with the vendored prover and accepted by the engine. *)
Lemma honest_proof_accepted_witness :
  exists pk vk (pvk : PreparedVerifyingKey Fr Fr Fr) r, generate_keys (D:=Z) (Groth16Ops0:=built_groth16) 0 = Ret (Ok (pk, vk)) /\
    verifier_from_bytes (Groth16Ops0:=built_groth16) (wrap_key_envelope (write_vk vk)) = Ok pvk /\
    prove_order (D:=Z) (Groth16Ops0:=built_groth16) bid_witness (wrap_key_envelope (write_pk pk)) 0 = Ok r /\
    check_proof (Some (verify (Groth16Ops0:=built_groth16) pvk)) (pr_proof r) bid_secrets = Ok tt.
Proof.
  destruct built_generates as (pk & vk & Hk).
  destruct (honest_proof_accepted (F:=Fr) (D:=Z) (mx:=order_matrices) five_outside 0 0 pk vk
    (wrap_key_envelope (write_pk pk)) (wrap_key_envelope (write_vk vk)) bid_witness bid_plain
    (be_bytes 32 101) (Examples.whole 1000) 0 bid_secrets) as (pvk & r & H1 & H2 & H3).
  - exact Hk.
  - reflexivity.
  - reflexivity.
  - exact bid_described.
  - by_run.
  - by_run.
  - exists pk, vk, pvk, r. split_and!; [exact Hk|exact H1|exact H2|exact H3].
Defined.
