(* ===== verification/ZkCli.v ===== *)
(** * The prover's command line and the child process

    [dp-zk-cli] — the subcommands [commit], [prove-single-order],
    [setup-commitment-circuit] and the batch prover that is also the binary
    [dp-aggregator] — the demonstration prover [setup_and_prove] of
    [commitment_circuit.rs], and [SubprocessAggregator::aggregate], which runs
    that binary.  JSON, the seeded generator of random numbers and the way a
    child process ends are parameters; a message of an error is modelled by its
    kind.

    The theorems: the setup writes a pair of keys that belong together or leaves
    no torn or mixed pair behind; a proof of the demonstration verifies for the
    commitment that [commit] prints; and no run of the aggregator's own binary
    yields a proof, so that recovery drops every orphan auction. *)

From S2P Require Import Prelude Decimal Types Field Auction Events Book Merkle EngineState Engine Admission Witness Provable Text Api.
From S2P Require Import FileStore Snapshot Recover SnapshotFiles Prime Circuit OrderProof.
Open Scope Z_scope.

(** ** [commit.rs] and [prove_single.rs] *)

Inductive CliError (D : Type) :=
| CliHex (field : Str)
| CliLength (field : Str) (len : Z)
| CliScalar (field : Str) (e : EncodingError D)
| CliSide (sd : Z)
| CliMissing (what : Str)
| CliProof (e : ZkError).
Arguments CliHex {D}.
Arguments CliLength {D}.
Arguments CliScalar {D}.
Arguments CliSide {D}.
Arguments CliMissing {D}.
Arguments CliProof {D}.

Record CommitInput (D : Type) := mkCommitInput {
  cmi_trader_id : option Str;
  cmi_salt : Str;
  cmi_side : Z;
  cmi_limit_price : D;
  cmi_size : D;
  cmi_commitment_key : option Str
}.
Arguments mkCommitInput {D}.
Arguments cmi_trader_id {D}.
Arguments cmi_salt {D}.
Arguments cmi_side {D}.
Arguments cmi_limit_price {D}.
Arguments cmi_size {D}.
Arguments cmi_commitment_key {D}.

Record ProveSingleInput (D : Type) := mkProveSingleInput {
  psi_salt : Str;
  psi_side : Z;
  psi_limit_price : D;
  psi_size : D;
  psi_trader_addr : option Str;
  psi_commitment_key : option Str
}.
Arguments mkProveSingleInput {D}.
Arguments psi_salt {D}.
Arguments psi_side {D}.
Arguments psi_limit_price {D}.
Arguments psi_size {D}.
Arguments psi_trader_addr {D}.
Arguments psi_commitment_key {D}.

Record ScalarOutput := mkScalarOutput { so_trader_id : Str; so_side : Str; so_limit_price : Str; so_size : Str; so_salt : Str }.

Record ProveSingleOutput := mkProveSingleOutput {
  pso_scalars : ScalarOutput;
  pso_commitment : Str;
  pso_proof : Str;
  pso_verification_key : Str
}.

(** [StdRng::from_seed] and [from_entropy], as the randomness drawn. *)
Record RngEnv := mkRngEnv { rng_from_seed : bytes -> Z; rng_entropy : Z; rng_next : Z -> Z }.

(** The seed in the first eight of 32 bytes. *)
Definition full_seed (s : Z) : bytes := le_bytes 8 s ++ replicate 24 0.

Section cli.
Context {D F PK VK PVK PF : Type} `{!DecimalOps D, !FieldOps F, !Poseidon F, !Groth16Ops F PK VK PVK PF, HEX : !HexOps}.

Definition cli_scalar {A} (name : Str) (r : result A (EncodingError D)) : result A (CliError D) :=
  match r with Ok a => Ok a | Err e => Err (CliScalar name e) end.

(** [hex::decode(text.trim_start_matches("0x"))] of 32 bytes, as a scalar *)
Definition hex32_scalar (name text : Str) : result F (CliError D) :=
  match hex_decode (trim_0x text) with
  | None => Err (CliHex name)
  | Some b =>
    if negb (length b =? 32)%nat then Err (CliLength name (Z.of_nat (length b)))
    else cli_scalar name (bytes32_to_scalar b)
  end.

Definition resolve_trader_id (inp : CommitInput D) : result F (CliError D) :=
  match cmi_trader_id inp with
  | Some tid => hex32_scalar (str "trader_id") tid
  | None =>
    match cmi_commitment_key inp with
    | Some ck => cli_scalar (str "derive trader_id") (derive_trader_id (as_bytes ck))
    | None => Err (CliMissing (str "must provide either trader_id or commitment_key"))
    end
  end.

Definition cli_side (sd : Z) : result F (CliError D) :=
  if sd =? 0 then Ok fr_zero else if sd =? 1 then Ok fr_one else Err (CliSide sd).

Definition compute_commitment (inp : CommitInput D) : result Str (CliError D) :=
  let? trader_id := resolve_trader_id inp in
  let? salt := hex32_scalar (str "salt") (cmi_salt inp) in
  let? limit_price := cli_scalar (str "limit_price") (decimal_to_scalar (cmi_limit_price inp)) in
  let? sz := cli_scalar (str "size") (decimal_to_scalar (cmi_size inp)) in
  let? side := cli_side (cmi_side inp) in
  let ci := mkOrderCommitmentInput trader_id side limit_price sz salt in
  Ok (hex_encode (fr_to_bytes32 (commit_native ci))).

Definition decode_trader_addr (value : Str) : result bytes (CliError D) :=
  let trimmed := match strip_prefix (str "0x") value with Some s => s | None => default value (strip_prefix (str "0X") value) end in
  match hex_decode trimmed with
  | None => Err (CliHex (str "trader_addr"))
  | Some b => if negb (length b =? 20)%nat then Err (CliLength (str "trader_addr") (Z.of_nat (length b))) else Ok b
  end.

Definition resolve_identity (inp : ProveSingleInput D) : result (F * F) (CliError D) :=
  match psi_trader_addr inp with
  | Some addr =>
    let? addr_bytes := decode_trader_addr addr in
    let? trader_addr := cli_scalar (str "trader_addr") (bytes_to_scalar addr_bytes) in
    let? trader_id := cli_scalar (str "derive trader_id") (derive_trader_id addr_bytes) in
    Ok (trader_id, trader_addr)
  | None =>
    match psi_commitment_key inp with
    | None => Err (CliMissing (str "trader_addr is required to prove the trader-identity binding"))
    | Some ck =>
      let? trader_addr := cli_scalar (str "commitment_key") (bytes_to_scalar (as_bytes ck)) in
      let? trader_id := cli_scalar (str "derive trader_id") (derive_trader_id (as_bytes ck)) in
      Ok (trader_id, trader_addr)
    end
  end.

Definition single_circuit (inp : ProveSingleInput D) : result (CommitmentPreimageCircuit F) (CliError D) :=
  let? ids := resolve_identity inp in
  let? salt := hex32_scalar (str "salt") (psi_salt inp) in
  let? limit_price := cli_scalar (str "limit_price") (decimal_to_scalar (psi_limit_price inp)) in
  let? sz := cli_scalar (str "size") (decimal_to_scalar (psi_size inp)) in
  let? side := cli_side (psi_side inp) in
  Ok (mkPreimage (fst ids) (snd ids) side limit_price sz salt).

(** ** [setup_and_prove] *)

Record SingleOrderProof := mkSingleOrderProof { sop_publics : OrderProofPublics F; sop_proof_bytes : bytes; sop_vk_bytes : bytes }.

(** Two calls draw from the generator. *)
Definition setup_and_prove (c : CommitmentPreimageCircuit F) (rng rng' : Z) : outcome (result SingleOrderProof ZkError) :=
  let! keys := generate_keys (D:=D) (F:=F) (PVK:=PVK) (PF:=PF) rng in
  let '(pk, vk) := keys in
  Ret (let? pp := prove_with_key (VK:=VK) (PVK:=PVK) pk c rng' in
       let? vk_bytes := serialize_vk (F:=F) (PK:=PK) (PVK:=PVK) (PF:=PF) vk in
       let? ok := verify_proof (PK:=PK) (VK:=VK) (PVK:=PVK) (PF:=PF) vk_bytes (snd pp) (fst pp) in
       if negb ok then Err ZkVerify else Ok (mkSingleOrderProof (fst pp) (snd pp) vk_bytes)).

(** [make_rng] of [prove_single.rs] falls back to a fixed seed. *)
Definition fixture_rng (env : RngEnv) (seed : option Z) : Z := rng_from_seed env (full_seed (default 1234567890 seed)).

Definition generate_proof (env : RngEnv) (inp : ProveSingleInput D) (seed : option Z) : outcome (result ProveSingleOutput (CliError D)) :=
  match single_circuit inp with
  | Err e => Ret (Err e)
  | Ok c =>
    let commitment := compute_commitment_native c in
    let rng := fixture_rng env seed in
    result ← setup_and_prove c rng (rng_next env rng);
    Ret match result with
        | Err e => Err (CliProof e)
        | Ok r =>
          let text f := hex_encode (fr_to_bytes32 f) in
          Ok (mkProveSingleOutput
            (mkScalarOutput (text (pc_trader_id c)) (text (pc_side c)) (text (pc_limit_price c)) (text (pc_size c)) (text (pc_salt c)))
            (text commitment) (hex_encode (sop_proof_bytes r)) (hex_encode (sop_vk_bytes r)))
        end
  end.

(** ** [setup_commitment.rs] *)

Definition PK_FILENAME : Str := str "commitment_pk.bin".
Definition VK_FILENAME : Str := str "commitment_vk.bin".
Definition PK_TMP : Str := str "commitment_pk.tmp".
Definition VK_TMP : Str := str "commitment_vk.tmp".

Inductive SetupError :=
| CreateDir
| RefuseOverwrite
| KeyGeneration (e : ZkError)
| SerializeKey (e : ZkError)
| WriteKey.

(** [write_atomic]: [fs::write] creates and fills the sibling. *)
Definition write_atomic (path tmp : Str) (b : bytes) : list FsOp := [FsCreate tmp; FsAppend tmp b; FsRename tmp path].

(** [make_rng]: a seed or the entropy of the system. *)
Definition setup_rng (env : RngEnv) (seed : option Z) : Z :=
  match seed with Some s => rng_from_seed env (full_seed s) | None => rng_entropy env end.

(** [created]: whether a missing directory could be created; [fault] is the
    file operation that fails. *)
Definition generate_and_write (env : RngEnv) (created : bool) (fault : option (nat * nat)) (d : Dir) (seed : option Z) :
    outcome (Dir * result (Str * Str) SetupError) :=
  match dir_open created d with
  | Err _ => Ret (d, Err CreateDir)
  | Ok None => Ret (d, Err CreateDir)
  | Ok (Some f) =>
    if bool_decide (is_Some (f !! PK_FILENAME)) || bool_decide (is_Some (f !! VK_FILENAME)) then Ret (Some f, Err RefuseOverwrite)
    else
      keys ← generate_keys (D:=D) (F:=F) (PVK:=PVK) (PF:=PF) (setup_rng env seed);
      Ret match keys with
          | Err e => (Some f, Err (KeyGeneration e))
          | Ok (pk, vk) =>
            match serialize_pk (F:=F) (VK:=VK) (PVK:=PVK) (PF:=PF) pk, serialize_vk (F:=F) (PK:=PK) (PVK:=PVK) (PF:=PF) vk with
            | Err e, _ => (Some f, Err (SerializeKey e))
            | Ok _, Err e => (Some f, Err (SerializeKey e))
            | Ok pk_bytes, Ok vk_bytes =>
              match fs_run fault f (write_atomic PK_FILENAME PK_TMP pk_bytes ++ write_atomic VK_FILENAME VK_TMP vk_bytes) with
              | (g, Err _) => (Some g, Err WriteKey)
              | (g, Ok _) => (Some g, Ok (PK_FILENAME, VK_FILENAME))
              end
            end
          end
  end.

(** Exit codes: a seed needs the acknowledgement. *)
Definition run_setup_commitment (env : RngEnv) (created : bool) (fault : option (nat * nat)) (d : Dir) (seed : option Z)
    (allow_insecure_seed_for_fixtures : bool) : outcome (Dir * Z) :=
  if bool_decide (is_Some seed) && negb allow_insecure_seed_for_fixtures then Ret (d, 2)
  else
    r ← generate_and_write env created fault d seed;
    Ret (fst r, match snd r with Ok _ => 0 | Err _ => 4 end).
End cli.

(** [run_commit]: the exit code and what is printed; [input] is what was read
    and what it parses to. *)
Definition run_commit {D F} `{!DecimalOps D, !FieldOps F, !Poseidon F, HEX : !HexOps} (input : option (option (CommitInput D))) : Z * option Str :=
  match input with
  | None | Some None => (2, None)
  | Some (Some inp) => match compute_commitment (F:=F) inp with Ok hex => (0, Some hex) | Err _ => (2, None) end
  end.

(** ** The batch prover *)

Record AggregatorMatch (D : Type) := mkAggregatorMatch { am_auction_id : Str; am_bid_order_id : Str; am_ask_order_id : Str; am_price : D; am_size : D }.
Arguments mkAggregatorMatch {D}.
Arguments am_auction_id {D}.
Arguments am_bid_order_id {D}.
Arguments am_ask_order_id {D}.
Arguments am_price {D}.
Arguments am_size {D}.

Record AggregatorInput (D : Type) := mkAggregatorInput {
  agi_batch_id : Str;
  agi_matches : list (AggregatorMatch D);
  agi_private_witness : option (list (MatchWitness D));
  agi_policy : option (Policy D)
}.
Arguments mkAggregatorInput {D}.
Arguments agi_batch_id {D}.
Arguments agi_matches {D}.
Arguments agi_private_witness {D}.
Arguments agi_policy {D}.

Record ParsedInput (D : Type) := mkParsedInput {
  pi_batch_id : Uuid;
  pi_auction_ids : list Uuid;
  pi_witness : BatchWitness D;
  pi_prices : list D;
  pi_sizes : list D
}.
Arguments mkParsedInput {D}.
Arguments pi_batch_id {D}.
Arguments pi_auction_ids {D}.
Arguments pi_witness {D}.
Arguments pi_prices {D}.
Arguments pi_sizes {D}.

(** The input as [subprocess.rs] writes it: the decimals are texts. *)
Record WireInput (D : Type) := mkWireInput {
  wr_batch_id : Str;
  wr_matches : list (AggregatorMatch Str);
  wr_private_witness : option (list (MatchWitness D));
  wr_policy : option (Policy D)
}.
Arguments mkWireInput {D}.
Arguments wr_batch_id {D}.
Arguments wr_matches {D}.
Arguments wr_private_witness {D}.
Arguments wr_policy {D}.

(** The JSON of the two sides; [utf8_lossy] is [String::from_utf8_lossy]. *)
Class AggregatorJson (D : Type) := {
  agg_write : WireInput D -> option bytes;
  agg_read : bytes -> option (AggregatorInput D);
  utf8_lossy : bytes -> Str
}.

(** How a child process ends, as the parent sees it. *)
Inductive ChildRun :=
| SpawnFailed
| StdinFailed
| ReadFailed
| ReadTimeout
| WaitFailed
| Exited (stdout stderr : bytes) (code : option Z).

Section batch.
Context {D : Type} `{!DecimalOps D, UUID : !UuidOps, AJ : !AggregatorJson D}.

(** [collect] of the identifiers stops at the first that does not parse. *)
Fixpoint parse_auction_ids (l : list (AggregatorMatch D)) : result (list Uuid) Str :=
  match l with
  | [] => Ok []
  | x :: l' =>
    match uuid_parse (am_auction_id x) with
    | Err e => Err (str "auction_id: " ++ e)
    | Ok u => let? us := parse_auction_ids l' in Ok (u :: us)
    end
  end.

Definition build_witness (input : AggregatorInput D) : result (ParsedInput D) Str :=
  match uuid_parse (agi_batch_id input) with
  | Err e => Err (str "batch_id: " ++ e)
  | Ok batch_id =>
    if bool_decide (length (agi_matches input) = 0%nat) then Err (str "matches array is empty")
    else
      let? auction_ids := parse_auction_ids (agi_matches input) in
      match auction_ids with
      | [] => Err (str "matches array is empty")
      | auction_id :: _ =>
        if existsb (fun a => negb (a =? auction_id)) auction_ids then Err (str "matches span multiple auction ids")
        else
          match agi_private_witness input with
          | None => Err (str "missing private_witness; not invoked via dp-zk integration")
          | Some private =>
            if negb (length private =? length (agi_matches input))%nat then
              Err (str "matches/private_witness length mismatch: matches=" ++ print_dec (Z.of_nat (length (agi_matches input))) ++
                   str ", private_witness=" ++ print_dec (Z.of_nat (length private)))
            else
              Ok (mkParsedInput batch_id auction_ids
                (mkBatchWitness batch_id auction_id private (default into_policy (agi_policy input)))
                (map am_price (agi_matches input)) (map am_size (agi_matches input)))
          end
      end
  end.

(** The error is the exit code and the message. *)
Definition prove_from_bytes (input_bytes : bytes) : result bytes (Z * Str) :=
  match agg_read input_bytes with
  | None => Err (2, str "parse input")
  | Some input =>
    match build_witness input with
    | Err e => Err (2, e)
    | Ok _ => Err (4, str "IVC proving is not implemented in dp-zk-cli; use InlineFoldingAggregator")
    end
  end.

(** What is written to the standard output and to the error output, and the
    exit code; [written] tells whether the output could be written. *)
Definition run_prover_io (stdin : option bytes) (written : bool) : bytes * Str * Z :=
  match stdin with
  | None => ([], str "read stdin", 2)
  | Some buf =>
    match prove_from_bytes buf with
    | Ok b => if written then (b, [], 0) else ([], str "write stdout", 4)
    | Err (exit_code, message) => ([], message, exit_code)
    end
  end.

(** ** [SubprocessAggregator] *)

Definition subprocess_new (exists_ : Str -> bool) (bin_path : Str) (timeout : option Duration) : result (Str * Duration) AggregatorError :=
  if exists_ bin_path then Ok (bin_path, default (secs 30) timeout) else Err (BinaryNotFound bin_path).

Fixpoint trim_newlines_rev (b : bytes) : bytes :=
  match b with c :: b' => if c =? 10 then trim_newlines_rev b' else b | [] => [] end.

(** [while proof.last() == Some(&b'\n')] *)
Definition trim_newlines (b : bytes) : bytes := reverse (trim_newlines_rev (reverse b)).

(** [child] runs the binary on its input. *)
Definition aggregate (child : bytes -> ChildRun) (batch_id auction_id : Uuid) (ms : list (Match D)) (witness : BatchWitness D) :
    result bytes AggregatorError :=
  let private_witness := match bw_matches witness with [] => None | l => Some l end in
  let input := mkWireInput (uuid_to_string batch_id)
    (map (fun m => mkAggregatorMatch (uuid_to_string auction_id) (uuid_to_string (fill_order_id (match_bid_fill m)))
       (uuid_to_string (fill_order_id (match_ask_fill m))) (dec_to_string (match_price m)) (dec_to_string (match_size m))) ms)
    private_witness (Some (bw_policy witness)) in
  match agg_write input with
  | None => Err AggSerialize
  | Some payload =>
    match child payload with
    | SpawnFailed | StdinFailed | ReadFailed | WaitFailed => Err AggIo
    | ReadTimeout => Err AggTimeout
    | Exited stdout stderr code =>
      if bool_decide (code = Some 0) then Ok (trim_newlines stdout)
      else Err (ProcessFailed (default (-1) code) (utf8_lossy stderr))
    end
  end.

(** The child runs the repository's binary: when it ends by itself it has the
    output and the exit code of [run_prover_io]. *)
Definition runs_own_binary (child : bytes -> ChildRun) : Prop :=
  forall payload out err code, child payload = Exited out err (Some code) ->
    exists stdin written, code = snd (run_prover_io stdin written).
End batch.

(** ** The binary proves nothing *)

Section own_binary.
Context {D St : Type} `{!DecimalOps D, !StoreOps D St, UUID : !UuidOps, AJ : !AggregatorJson D} {HI : HashIter}.

Lemma run_prover_fails stdin written : snd (run_prover_io stdin written) = 2 \/ snd (run_prover_io stdin written) = 4.
Proof.
  unfold run_prover_io, prove_from_bytes. destruct stdin as [b|]; [|by left]. destruct (agg_read b) as [input|]; [|by left].
  destruct (build_witness input); [by right|by left].
Qed.

Lemma aggregate_fails child batch_id auction_id (ms : list (Match D)) witness :
  runs_own_binary child -> exists e, aggregate child batch_id auction_id ms witness = Err e.
Proof.
  intros Hown. unfold aggregate. destruct (agg_write _) as [payload|]; [|eauto].
  destruct (child payload) as [| | | | |out err code] eqn:Hc; eauto. destruct (bool_decide_reflect (code = Some 0)) as [->|]; [|eauto].
  destruct (Hown _ _ _ _ Hc) as (stdin & written & H0). destruct (run_prover_fails stdin written); lia.
Qed.

(** No run of the repository's own batch prover gives a proof: whatever its
    input, the binary exits with code 2 or 4 and the aggregator that runs it
    returns an error.  So recovery with that aggregator re-aggregates no orphan
    auction: it takes them off its list one by one and leaves the engine, its
    log and its pending batches as they are, without an error. *)
Theorem own_binary_proves_nothing (child : bytes -> ChildRun) (renv : RecoverEnv D) (a : RecAcc D St) ids :
  runs_own_binary child -> rv_aggregate renv = aggregate child ->
  NoDup ids -> Forall (fun i => is_Some (ra_matches_by_auction a !! i)) ids ->
  (forall batch_id auction_id ms witness, exists e, rv_aggregate renv batch_id auction_id ms witness = Err e) /\
  exists a', recover_orphans renv a ids = Ret (a', Ok tt) /\ ra_engine a' = ra_engine a /\
    forall i, ra_matches_by_auction a' !! i = if bool_decide (i ∈ ids) then None else ra_matches_by_auction a !! i.
Proof.
  intros Hown Hrv Hnd Hall. split; [intros; rewrite Hrv; by apply aggregate_fails|].
  revert a Hnd Hall. induction ids as [|i ids IH]; intros a Hnd Hall; cbn [recover_orphans].
  { exists a. split_and!; [done..|]. intros i. by rewrite bool_decide_eq_false_2 by apply not_elem_of_nil. }
  apply NoDup_cons in Hnd as [Hi Hnd]. apply Forall_cons in Hall as [[os Hos] Hall].
  unfold recover_orphan. rewrite Hos. cbn [or_panic mbind outcome_bind]. cbv zeta. rewrite Hrv.
  match goal with |- context [aggregate child ?x ?y ?z ?w] => destruct (aggregate_fails child x y z w Hown) as [e ->] end.
  cbn [fst snd mbind outcome_bind]. set (a1 := mkRecAcc _ _ _ _).
  destruct (IH a1 Hnd) as (a' & -> & He & Hm).
  - eapply Forall_impl; [apply Forall_and; split; [exact Hall|apply Forall_forall; intros x Hx; exact Hx]|].
    intros x [Hx Hin]. subst a1. cbn [ra_matches_by_auction]. rewrite lookup_delete_ne; [done|]. intros ->. done.
  - exists a'. split_and!; [done..|]. intros x. rewrite Hm. subst a1. cbn [ra_matches_by_auction].
    destruct (decide (x = i)) as [->|Hne]; [rewrite lookup_delete_eq|rewrite lookup_delete_ne by done].
    + rewrite (bool_decide_eq_true_2 (i ∈ i :: ids)) by left. by destruct (bool_decide _).
    + destruct (bool_decide_reflect (x ∈ ids)) as [Hin|Hni]; [rewrite bool_decide_eq_true_2 by (by right)|rewrite bool_decide_eq_false_2 by (by rewrite not_elem_of_cons)]; done.
Qed.
End own_binary.

(** ** The demonstration prover *)

Section demonstration.
Context {D F PK VK PVK PF : Type} `{!DecimalOps D, !DecimalLaws D, !FieldOps F, !FieldLaws F, !Poseidon F, G : !Groth16Ops F PK VK PVK PF,
  GL : !Groth16Laws F PK VK PVK PF, HEX : !HexOps, HEXL : !HexLaws}.

Lemma cli_scalar_Ok {A} name (r : result A (EncodingError D)) a : cli_scalar name r = Ok a -> r = Ok a.
Proof. destruct r; simpl; congruence. Qed.

Lemma resolve_identity_Ok (inp : ProveSingleInput D) ids : resolve_identity (F:=F) inp = Ok ids -> fst ids = poseidon [snd ids].
Proof.
  assert (forall b (t a : F), bytes_to_scalar (D:=D) b = Ok a -> derive_trader_id (D:=D) b = Ok t -> t = poseidon [a]) as Hid.
  { intros b t a Ha. unfold derive_trader_id. rewrite Ha. by intros [= <-]. }
  unfold resolve_identity. destruct (psi_trader_addr inp) as [addr|].
  - destruct (decode_trader_addr addr) as [b|]; [|done]. destruct (cli_scalar _ (bytes_to_scalar b)) as [a|] eqn:Ha; [|done].
    destruct (cli_scalar _ (derive_trader_id b)) as [t|] eqn:Ht; [|done]. intros [= <-]. eapply Hid; by eapply cli_scalar_Ok.
  - destruct (psi_commitment_key inp) as [ck|]; [|done]. destruct (cli_scalar _ (bytes_to_scalar _)) as [a|] eqn:Ha; [|done].
    destruct (cli_scalar _ (derive_trader_id _)) as [t|] eqn:Ht; [|done]. intros [= <-]. eapply Hid; by eapply cli_scalar_Ok.
Qed.

(** The fields of an assignment, and that it satisfies the circuit. *)
Lemma single_circuit_Ok (inp : ProveSingleInput D) (c : CommitmentPreimageCircuit F) : single_circuit inp = Ok c ->
  (hex32_scalar (D:=D) (str "salt") (psi_salt inp) = Ok (pc_salt c) /\ decimal_to_scalar (psi_limit_price inp) = Ok (pc_limit_price c) /\
   decimal_to_scalar (psi_size inp) = Ok (pc_size c) /\ cli_side (D:=D) (psi_side inp) = Ok (pc_side c)) /\
  generate_constraints c (as_inputs (order_publics c)) = true.
Proof.
  unfold single_circuit. destruct (resolve_identity inp) as [ids|] eqn:Hi; [|done]. apply resolve_identity_Ok in Hi.
  destruct (hex32_scalar _ _) as [salt|] eqn:Hs; [|done]. destruct (cli_scalar _ (decimal_to_scalar (psi_limit_price inp))) as [p|] eqn:Hp; [|done].
  destruct (cli_scalar _ (decimal_to_scalar (psi_size inp))) as [z|] eqn:Hz; [|done]. destruct (cli_side _) as [sd|] eqn:Hsd; [|done].
  intros [= <-]. apply cli_scalar_Ok in Hp, Hz. split; [done|]. apply constraints_exact.
  destruct (scalar_bound _ _ Hp) as [_ Hp']. destruct (scalar_bound _ _ Hz) as [_ Hz']. split; cbn; try done.
  revert Hsd. unfold cli_side. destruct (_ =? 0); [intros [= <-]; by left|]. destruct (_ =? 1); [intros [= <-]; by right|done].
Qed.

Lemma setup_and_prove_total (c : CommitmentPreimageCircuit F) rng rng' (pk : PK) (vk : VK) vkb :
  generate_keys (D:=D) (F:=F) (PVK:=PVK) (PF:=PF) rng = Ret (Ok (pk, vk)) -> serialize_vk (PVK:=PVK) (PF:=PF) vk = Ok vkb ->
  generate_constraints c (as_inputs (order_publics c)) = true ->
  exists pfb, setup_and_prove (D:=D) (PVK:=PVK) (PF:=PF) c rng rng' = Ret (Ok (mkSingleOrderProof (order_publics c) pfb vkb)) /\
    verify_proof (PVK:=PVK) (PF:=PF) vkb pfb (order_publics c) = Ok true.
Proof.
  intros Hk Hv Hc. pose proof Hk as Hk2. unfold generate_keys in Hk2. apply outcome_bind_Ret in Hk2 as (tid & _ & Hset). cbv zeta in Hset.
  destruct (g16_setup _ rng) as [[pk' vk']|] eqn:Hs; [|done]. injection Hset as -> ->.
  destruct (g16_complete _ _ _ _ c rng' Hs Hc) as (pf & Hprove & Hver). destruct (pf_roundtrip pf) as (pfb & Hw & Hr).
  assert (verify_proof (PVK:=PVK) (PF:=PF) vkb pfb (order_publics c) = Ok true) as Hok.
  { revert Hv. unfold verify_proof, verify_proof_with_vk, verify_proof_with_processed_vk, deserialize_vk, serialize_vk.
    destruct (vk_write vk) as [b|] eqn:Hvk; [|done]. intros <-%Ok_inv. by rewrite unwrap_wrap, (vk_roundtrip _ _ Hvk), Hr, Hver. }
  exists pfb. split; [|exact Hok]. unfold setup_and_prove. rewrite Hk. cbn [mbind outcome_bind]. unfold prove_with_key.
  rewrite Hprove, Hw. by rewrite Hv; cbn [fst snd]; rewrite Hok.
Qed.

(** The demonstration prover succeeds on every input it can encode, once
    the setup gives keys, and its output stands by itself: the printed proof
    verifies under the printed key for the commitment and the nullifier of the
    printed salt, and the printed commitment is the one [commit] computes for
    the printed trader and the same order. *)
Theorem fixture_proof_verifies env (inp : ProveSingleInput D) (c : CommitmentPreimageCircuit F) seed (pk : PK) (vk : VK) vkb :
  single_circuit inp = Ok c ->
  generate_keys (D:=D) (F:=F) (PVK:=PVK) (PF:=PF) (fixture_rng env seed) = Ret (Ok (pk, vk)) -> serialize_vk (PVK:=PVK) (PF:=PF) vk = Ok vkb ->
  exists out pfb x s, generate_proof (F:=F) (PVK:=PVK) (PF:=PF) env inp seed = Ret (Ok out) /\
    pso_proof out = hex_encode pfb /\ pso_verification_key out = hex_encode vkb /\
    hex_decode (pso_commitment out) = Some (fr_to_bytes32 x) /\ hex_decode (so_salt (pso_scalars out)) = Some (fr_to_bytes32 s) /\
    verify_proof (PVK:=PVK) (PF:=PF) vkb pfb (derive_publics x s) = Ok true /\
    compute_commitment (F:=F) (mkCommitInput (Some (so_trader_id (pso_scalars out))) (psi_salt inp) (psi_side inp)
      (psi_limit_price inp) (psi_size inp) None) = Ok (pso_commitment out).
Proof.
  intros Hc Hk Hv. destruct (single_circuit_Ok inp c Hc) as ((Hs & Hp & Hz & Hsd) & Hcon).
  destruct (setup_and_prove_total c _ (rng_next env (fixture_rng env seed)) pk vk vkb Hk Hv Hcon) as (pfb & Hsp & Hver).
  unfold generate_proof. rewrite Hc, Hsp. cbn [mbind outcome_bind]. cbv zeta.
  eexists _, pfb, (compute_commitment_native c), (pc_salt c). split; [reflexivity|].
  cbn [pso_proof pso_verification_key pso_commitment pso_scalars so_salt so_trader_id sop_proof_bytes sop_vk_bytes].
  assert (forall f : F, Forall is_byte (fr_to_bytes32 f)) as Hb by (intros f; apply Forall_reverse, le_bytes_byte).
  split_and!; [done..|by rewrite hex_decode_encode|by rewrite hex_decode_encode|exact Hver|].
  unfold compute_commitment, resolve_trader_id. cbn [cmi_trader_id cmi_salt cmi_side cmi_limit_price cmi_size].
  unfold hex32_scalar at 1. rewrite trim_0x_hex by (by apply hex_encode_digits). rewrite hex_decode_encode by done.
  replace (length (fr_to_bytes32 (pc_trader_id c)) =? 32)%nat with true by (unfold fr_to_bytes32; by rewrite (length_be_bytes 32)).
  cbn [negb]. rewrite bytes32_to_scalar_encode. cbn [cli_scalar]. by rewrite Hs, Hp, Hz, Hsd.
Qed.
End demonstration.

(** ** The setup *)

Section setup.
Context {D F PK VK PVK PF : Type} `{!DecimalOps D, !DecimalLaws D, !FieldOps F, !FieldLaws F, !Poseidon F, G : !Groth16Ops F PK VK PVK PF,
  GL : !Groth16Laws F PK VK PVK PF, HEX : !HexOps, !DecimalParse D, SHA : !Sha256, ADDR : !AddressOps}.

Definition key_free (d : Dir) : Prop := forall f, d = Some f -> f !! PK_FILENAME = None /\ f !! VK_FILENAME = None.

(** The browser proves with one file, the engine verifies with the other. *)
Definition keys_work (pkb vkb : bytes) : Prop :=
  exists pvk : PVK, verifier_from_bytes (F:=F) (PK:=PK) (VK:=VK) (PF:=PF) vkb = Ok pvk /\
  forall w (d : DecryptedOrder D) salt b pos sec rng,
    describes w d -> parse_order_salt (D:=D) (F:=F) (d_salt d) = Ok salt ->
    derive_order_secrets (F:=F) (d_trader d) (side_u8 (d_side d)) (d_price d) (d_size d) b pos salt = Ok sec ->
    exists r, prove_order (D:=D) (F:=F) (VK:=VK) (PVK:=PVK) (PF:=PF) w pkb rng = Ok r /\
      check_proof (Some (verify (F:=F) (PK:=PK) (VK:=VK) (PF:=PF) pvk)) (pr_proof r) sec = Ok tt.

Lemma setup_keys_work rng (pk : PK) (vk : VK) pkb vkb :
  generate_keys (D:=D) (F:=F) (PVK:=PVK) (PF:=PF) rng = Ret (Ok (pk, vk)) ->
  serialize_pk (PVK:=PVK) (PF:=PF) pk = Ok pkb -> serialize_vk (PVK:=PVK) (PF:=PF) vk = Ok vkb -> keys_work pkb vkb.
Proof.
  intros Hk Hp Hv. unfold keys_work. pose proof Hv as Hv2. unfold serialize_vk in Hv2. destruct (vk_write vk) as [vb|] eqn:Hw; [|done].
  apply Ok_inv in Hv2. assert (verifier_from_bytes (F:=F) (PK:=PK) (VK:=VK) (PF:=PF) vkb = Ok (g16_prepare vk)) as Hpvk.
  { unfold verifier_from_bytes, deserialize_vk. by rewrite <- Hv2, unwrap_wrap, (vk_roundtrip _ _ Hw). }
  exists (g16_prepare vk). split; [exact Hpvk|]. intros w d salt b pos sec rng' Hw' Hs Hsec.
  destruct (gate_accepts_honest rng rng' pk vk pkb vkb w d salt b pos sec Hk Hp Hv Hw' Hs Hsec) as (pvk & r & Hpvk' & Hr & Hc).
  assert (pvk = g16_prepare vk) as -> by congruence. by exists r.
Qed.

(** An atomic write touches its file only at the end, and its sibling. *)
Lemma atomic_frame path tmp b k f name : (k <= 2)%nat -> name <> tmp ->
  fold_left fs_apply (take k (write_atomic path tmp b)) f !! name = f !! name.
Proof.
  intros Hk Hne. do 3 (destruct k as [|k]; [cbn [take write_atomic fold_left fs_apply]; by rewrite ?lookup_insert_ne by congruence|]). lia.
Qed.

Lemma atomic_written path tmp b f : fold_left fs_apply (write_atomic path tmp b) f = <[path := b]> (delete tmp f).
Proof. cbn [write_atomic fold_left fs_apply]. rewrite !lookup_insert_eq. cbn [default app]. by rewrite !delete_insert_eq. Qed.

Lemma atomic_torn path tmp b k j f op name : write_atomic path tmp b !! k = Some op -> name <> tmp ->
  fs_torn (fold_left fs_apply (take k (write_atomic path tmp b)) f) j op !! name = f !! name.
Proof.
  intros Hop Hne. assert (k <= 2)%nat as Hk by (apply lookup_lt_Some in Hop; cbn in Hop; lia).
  rewrite <- (atomic_frame path tmp b k f name Hk Hne).
  do 3 (destruct k as [|k]; [injection Hop as <-; cbn [fs_torn fs_apply]; by rewrite ?lookup_insert_ne by congruence|]). lia.
Qed.

(** The sibling is not synced before it is renamed: a power loss after the
    rename, even one after the directory reached the medium, can leave anything
    under the name of the key. *)
Lemma unsynced_key_torn path tmp b (junk : bytes) f : path <> tmp ->
  exists g, crashed true ∅ f (write_atomic path tmp b) g /\ g !! path = Some junk.
Proof.
  intros Hne. exists (<[path := junk]> (fold_left fs_apply (write_atomic path tmp b) f)). split; [|apply lookup_insert_eq].
  apply crashed_at with 3%nat; [done|]. rewrite take_ge by done. intros name Hn. rewrite lookup_insert_ne; [done|]. intros <-. apply Hn.
  cbn [write_atomic fold_left fs_dirty]. rewrite decide_True by set_solver. set_solver.
Qed.

Lemma pair_written f pkb vkb fault g r :
  fs_run fault f (write_atomic PK_FILENAME PK_TMP pkb ++ write_atomic VK_FILENAME VK_TMP vkb) = (g, r) ->
  f !! PK_FILENAME = None -> f !! VK_FILENAME = None ->
  match r with
  | Ok _ => g !! PK_FILENAME = Some pkb /\ g !! VK_FILENAME = Some vkb
  | Err _ => g !! VK_FILENAME = None /\ (g !! PK_FILENAME = None \/ g !! PK_FILENAME = Some pkb)
  end.
Proof.
  intros Hrun Hp Hv.
  assert (fold_left fs_apply (write_atomic PK_FILENAME PK_TMP pkb ++ write_atomic VK_FILENAME VK_TMP vkb) f !! PK_FILENAME = Some pkb /\
    fold_left fs_apply (write_atomic PK_FILENAME PK_TMP pkb ++ write_atomic VK_FILENAME VK_TMP vkb) f !! VK_FILENAME = Some vkb) as Hdone.
  { rewrite fold_left_app, !atomic_written, lookup_insert_eq. split; [|done].
    rewrite lookup_insert_ne, lookup_delete_ne by discriminate. apply lookup_insert_eq. }
  revert Hrun. unfold fs_run. destruct fault as [[k j]|]; [|by intros [= <- <-]].
  destruct (_ !! k) as [op|] eqn:Hop; [|by intros [= <- <-]]. intros [<- <-]%pair_equal_spec.
  destruct (Nat.lt_ge_cases k 3) as [Hk|Hk].
  - rewrite lookup_app_l in Hop by exact Hk. rewrite take_app_le by (cbn; lia).
    rewrite !(atomic_torn _ _ _ _ _ _ _ _ Hop) by discriminate. by rewrite Hp, Hv; auto.
  - rewrite lookup_app_r in Hop by exact Hk. rewrite take_app_ge by exact Hk. rewrite fold_left_app, atomic_written.
    rewrite !(atomic_torn _ _ _ _ _ _ _ _ Hop) by discriminate. rewrite lookup_insert_eq, lookup_insert_ne, lookup_delete_ne by discriminate. by auto.
Qed.

(** The one-time setup never leaves keys that do not belong together.  It
    touches nothing when a key file is there.  When it succeeds, the two files
    are keys of one setup: whatever order the browser proves with the proving
    key file, the engine that pinned the verifying key file accepts.  When it
    fails, at whatever file operation, there is no verifying key file, and the
    proving key file is absent or complete. *)
Theorem setup_keys_paired env created fault (d : Dir) seed d' r :
  generate_and_write (D:=D) (F:=F) (PK:=PK) (VK:=VK) (PVK:=PVK) (PF:=PF) env created fault d seed = Ret (d', r) ->
  (~ key_free d -> d' = d /\ r = Err RefuseOverwrite) /\
  (key_free d ->
    match r with
    | Ok paths => paths = (PK_FILENAME, VK_FILENAME) /\
        exists f pkb vkb, d' = Some f /\ f !! PK_FILENAME = Some pkb /\ f !! VK_FILENAME = Some vkb /\ keys_work pkb vkb
    | Err _ => forall f, d' = Some f -> f !! VK_FILENAME = None /\
        (f !! PK_FILENAME = None \/ exists pkb pk, f !! PK_FILENAME = Some pkb /\ deserialize_pk (F:=F) (VK:=VK) (PVK:=PVK) (PF:=PF) pkb = Ok pk)
    end).
Proof.
  unfold generate_and_write. destruct (dir_open created d) as [[f|]|] eqn:Ho.
  2,3: intros [= <- <-]; assert (d = None) as -> by (destruct d, created; by cbn in Ho); split; [intros Hn; destruct Hn; by intros f|by intros _ f].
  assert (key_free d <-> f !! PK_FILENAME = None /\ f !! VK_FILENAME = None) as Hfree.
  { destruct d as [f0|]; cbn in Ho; [injection Ho as ->|destruct created; [injection Ho as <-|done]]; unfold key_free.
    - split; [intros H; by apply H|by intros H f' [= <-]].
    - by rewrite !lookup_empty. }
  destruct (_ || _) eqn:Hex.
  { intros [= <- <-]. apply orb_true_iff in Hex. rewrite !bool_decide_eq_true in Hex. split.
    - intros _. split; [|done]. destruct d as [f0|]; cbn in Ho; [by injection Ho as ->|]. destruct created; [injection Ho as <-|done]. by destruct Hex as [[x Hx]|[x Hx]].
    - intros [Hp Hv]%Hfree. rewrite Hp, Hv in Hex. by destruct Hex as [[x Hx]|[x Hx]]. }
  apply orb_false_iff in Hex as [Hp%bool_decide_eq_false Hv%bool_decide_eq_false]. rewrite <- eq_None_not_Some in Hp, Hv.
  intros (keys & Hk & H)%outcome_bind_Ret. split; [intros Hn; destruct Hn; by apply Hfree|]. intros _.
  destruct keys as [[pk vk]|e]; [|injection H as <- <-; intros f' [= <-]; by auto].
  destruct (serialize_pk pk) as [pkb|] eqn:Hpk; [|injection H as <- <-; intros f' [= <-]; by auto].
  destruct (serialize_vk vk) as [vkb|] eqn:Hvk; [|injection H as <- <-; intros f' [= <-]; by auto].
  destruct (fs_run _ _ _) as [g rr] eqn:Hrun. pose proof (pair_written _ _ _ _ _ _ Hrun Hp Hv) as Hw. destruct rr as [u|e]; injection H as <- <-.
  - split; [done|]. exists g, pkb, vkb. destruct Hw. split_and!; [done..|]. by eapply setup_keys_work.
  - intros f' [= <-]. destruct Hw as [Hnv Hpp]. split; [done|]. destruct Hpp as [|Hpp]; [by left|right]. exists pkb, pk. split; [done|].
    revert Hpk. unfold serialize_pk, deserialize_pk. destruct (pk_write pk) as [b|] eqn:Hwr; [|done]. intros <-%Ok_inv. by rewrite unwrap_wrap, (pk_roundtrip _ _ Hwr).
Qed.
End setup.
