(* ===== verification/OrderClient.v ===== *)
(** * The native client

    [dp-client]: the encodings and commitments of [encoding.rs] and
    [commitment.rs], the encryption of [encrypt.rs], the submission of
    [submit.rs], the exports of [wasm.rs] and the tool [dp-trade].  An error text
    that quotes a value is modelled by its kind and the value.  ECIES, JSON,
    base64, hexadecimal text, the files, the clock and the random bytes are
    parameters; the request of [dp-trade] is a value and is not sent.

    The theorems: the engine decrypts a submission to the order it was made of
    and derives the commitment it announces; the salts that [dp-trade] draws are
    mostly refused; and the commitment that the browser export computes is not
    the order's. *)

From S2P Require Import Prelude Decimal Types Field Auction Events Book Merkle EngineState Engine Admission Witness Text Keys Api.
From S2P Require Import Prime Circuit OrderProof.
Open Scope Z_scope.

(** [payload.rs] *)
Record OrderPayload (D : Type) := mkOrderPayload {
  op_trader : Str;
  op_pair : Str;
  op_side : Side;
  op_price : D;
  op_size : D;
  op_commitment_key : Str;
  op_salt : Str;
  op_nonce : Str;
  op_expires_at_unix_nanos : Z;
  op_ttl : Z
}.
Arguments mkOrderPayload {D}.
Arguments op_trader {D}.
Arguments op_pair {D}.
Arguments op_side {D}.
Arguments op_price {D}.
Arguments op_size {D}.
Arguments op_commitment_key {D}.
Arguments op_salt {D}.
Arguments op_nonce {D}.
Arguments op_expires_at_unix_nanos {D}.
Arguments op_ttl {D}.

(** [error.rs] *)
Inductive ClientError (D : Type) :=
| Encryption (e : Str)
| Encoding (e : EncodingError D)
| InvalidKey (len : Z)
| InvalidPayload (m : Str)
| ClientIo
| ClientJson
| ClientHex
| Http (e : Str).
Arguments Encryption {D}.
Arguments Encoding {D}.
Arguments InvalidKey {D}.
Arguments InvalidPayload {D}.
Arguments ClientIo {D}.
Arguments ClientJson {D}.
Arguments ClientHex {D}.
Arguments Http {D}.

(** [ecies::encrypt] parses the key it is given. *)
Class ClientOps := {
  ecies_try_encrypt : Z -> bytes -> bytes -> result bytes Str;
  b64_encode : bytes -> Str
}.

(** A key of the operator is 65 bytes and encrypts; an address is read from its
    hexadecimal digits. *)
Class ClientLaws (D : Type) `{!HexOps, !EciesOps, !OrderJson D, !ClientOps} : Prop := {
  encrypts : forall rng sk m, secret_parse sk = Ok tt ->
    ecies_try_encrypt rng (public_of_secret sk) m = Ok (ecies_encrypt rng (public_of_secret sk) m) /\ length (public_of_secret sk) = 65%nat;
  address_text : forall t addr, strip_prefix (str "0x") t ≫= hex_decode = Some addr -> length addr = 20%nat -> address_of_json (JText t) = Some addr
}.

(** The names [payload.rs] gives its fields. *)
Definition payload_fields : list Str :=
  [str "trader"; str "pair"; str "side"; str "price"; str "size"; str "commitment_key"; str "salt"; str "nonce";
   str "expires_at_unix_nanos"; str "ttl"].

Definition is_ascii_hexdigit (c : Z) : bool := is_lower_hex c || ((65 <=? c) && (c <=? 70)).

Section client.
Context {D F : Type} `{!DecimalOps D, !FieldOps F, !Poseidon F, HEX : !HexOps, CO : !ClientOps, OJ : !OrderJson D, DP : !DecimalParse D}.
Implicit Types p : OrderPayload D.

(** ** [payload.rs] *)

Definition payload_to_json p : bytes :=
  json_write (JObject (zip payload_fields
    [JText (op_trader p); JText (op_pair p); side_json (op_side p); JText (dec_json (op_price p)); JText (dec_json (op_size p));
     JText (op_commitment_key p); JText (op_salt p); JText (op_nonce p); JNum (op_expires_at_unix_nanos p); JNum (op_ttl p)])).

Definition payload_from_json (text : Str) : option (OrderPayload D) :=
  vs ← (json_read (as_bytes text) ≫= struct_fields payload_fields);
  match vs with
  | [t; p; s; price; sz; k; salt; nonce; exp; ttl] =>
    t ← text_of_json t; p ← text_of_json p; s ← side_of_json s; price ← dec_of_json price; sz ← dec_of_json sz; k ← text_of_json k;
    salt ← text_of_json salt; nonce ← text_of_json nonce; exp ← i64_of_json exp; ttl ← i64_of_json ttl;
    Some (mkOrderPayload t p s price sz k salt nonce exp ttl)
  | _ => None
  end.

(** ** [encoding.rs] and [commitment.rs] *)

Definition client_decimal_to_scalar (d : D) : result F (ClientError D) :=
  if dec_is_sign_negative d then Err (Encoding (Negative d))
  else
    match dec_mul d (dec_of_Z SCALE_FACTOR_I128) with
    | None => Err (Encoding (Overflow d))
    | Some scaled =>
      if (0 <? dec_scale scaled) && negb (dec_is_zero (dec_fract scaled)) then Err (Encoding (Precision d))
      else
        match dec_to_i128 (dec_trunc scaled) with
        | None => Err (Encoding (Overflow d))
        | Some int => if (0 <=? int) && (int <? MAX_ENCODED) then Ok (fr_of_Z int) else Err (Encoding (Overflow d))
        end
    end.

Definition client_from_decimals (trader_id : F) (side : Z) (limit_price sz : D) (salt : F) : result (OrderCommitmentInput F) (ClientError D) :=
  let? s := (if side =? 0 then Ok fr_zero else if side =? 1 then Ok fr_one
             else Err (InvalidPayload (str "side must be 0 or 1, got " ++ print_dec side))) in
  let? p := client_decimal_to_scalar limit_price in
  let? z := client_decimal_to_scalar sz in
  Ok (mkOrderCommitmentInput trader_id s p z salt).

Definition client_commit_native (input : OrderCommitmentInput F) : F := poseidon (as_field_elements input).

Definition scalar_to_be_bytes (f : F) : bytes := be_bytes 32 (fr_to_Z f).

Definition client_bytes_to_scalar (b : bytes) : result F (ClientError D) :=
  if (32 <? length b)%nat then Err (Encoding (FieldElementTooLong (Z.of_nat (length b))))
  else
    let scalar := fr_of_Z (be_value b) in
    if (length b =? 32)%nat && negb (bool_decide (scalar_to_be_bytes scalar = b)) then Err (Encoding NonCanonicalFieldElement)
    else Ok scalar.

Definition client_bytes32_to_scalar (b : bytes) : result F (ClientError D) :=
  if negb (length b =? 32)%nat then Err (Encoding (InvalidFieldElementLength (Z.of_nat (length b)))) else client_bytes_to_scalar b.

Definition client_derive_trader_id (commitment_key_bytes : bytes) : result F (ClientError D) :=
  let? scalar := client_bytes_to_scalar commitment_key_bytes in Ok (poseidon [scalar]).

(** ** [encrypt.rs] *)

Definition validate_pubkey_len (b : bytes) : result unit (ClientError D) :=
  if (length b =? 33)%nat || (length b =? 65)%nat then Ok tt else Err (InvalidKey (Z.of_nat (length b))).

Definition encrypt_order (rng : Z) (operator_pubkey : bytes) p : result bytes (ClientError D) :=
  let? _ := validate_pubkey_len operator_pubkey in
  match ecies_try_encrypt rng operator_pubkey (payload_to_json p) with Ok c => Ok c | Err e => Err (Encryption e) end.

(** [trim_start_matches] of a prefix *)
Fixpoint trim_prefixes (fuel : nat) (pre s : Str) : Str :=
  match fuel with
  | O => s
  | S fuel' => match strip_prefix pre s with Some r => trim_prefixes fuel' pre r | None => s end
  end.

Definition parse_operator_pubkey_hex (hex_str : Str) : result bytes (ClientError D) :=
  let s := Pair.trim hex_str in
  let s := trim_prefixes (length s) (str "0x") s in
  let s := trim_prefixes (length s) (str "0X") s in
  match hex_decode s with
  | None => Err ClientHex
  | Some b => let? _ := validate_pubkey_len b in Ok b
  end.

(** [read] is the file system. *)
Definition load_operator_pubkey_file (read : Str -> option Str) (path : Str) : result bytes (ClientError D) :=
  match read path with None => Err ClientIo | Some raw => parse_operator_pubkey_hex raw end.

(** ** [submit.rs] *)

Definition PLACEHOLDER_PROOF : bytes := str "dp-client-v0".

Record OrderSubmission := mkOrderSubmission {
  os_commitment : bytes;
  os_proof : bytes;
  os_encrypted_payload : bytes;
  os_trader_id : bytes;
  os_salt : bytes
}.

Definition trader_message : Str := str "trader must be a 0x-prefixed 20-byte address".

Definition validate_trader (trader : Str) : result unit (ClientError D) :=
  match strip_prefix (str "0x") trader with
  | Some digits => if (utf8_len trader =? 42) && forallb is_ascii_hexdigit digits then Ok tt else Err (InvalidPayload trader_message)
  | None => Err (InvalidPayload trader_message)
  end.

Definition parse_trader_address (trader : Str) : result bytes (ClientError D) :=
  let? _ := validate_trader trader in
  match strip_prefix (str "0x") trader ≫= hex_decode with
  | None => Err ClientHex
  | Some b => if (length b =? 20)%nat then Ok b else Err (InvalidPayload trader_message)
  end.

Definition client_parse_lowercase_hex32 (hex_value name : Str) : result bytes (ClientError D) :=
  let refused := Err (InvalidPayload (name ++ str " must be a 32-byte lowercase hex string")) in
  if negb (utf8_len hex_value =? 64) || negb (forallb is_lower_hex hex_value) then refused
  else
    match hex_decode hex_value with
    | None => Err ClientHex
    | Some b => if (length b =? 32)%nat then Ok b else refused
    end.

(** [prepare_order_with_entropy]; the entropy is not used. *)
Definition prepare_submission (rng : Z) (operator_pubkey : bytes) p : result OrderSubmission (ClientError D) :=
  if bool_decide (Pair.trim (op_commitment_key p) = []) then Err (InvalidPayload (str "commitment_key must be non-empty"))
  else
    let? _ := validate_trader (op_trader p) in
    let? trader_addr := parse_trader_address (op_trader p) in
    let? trader_id_fr := client_derive_trader_id trader_addr in
    let trader_id := scalar_to_be_bytes trader_id_fr in
    let? salt := client_parse_lowercase_hex32 (op_salt p) (str "salt") in
    let? _ := client_parse_lowercase_hex32 (op_nonce p) (str "nonce") in
    if op_expires_at_unix_nanos p <=? 0 then Err (InvalidPayload (str "expires_at_unix_nanos must be a positive Unix nanosecond timestamp"))
    else
      let? salt_fr := client_bytes32_to_scalar salt in
      let? inp := client_from_decimals trader_id_fr (side_u8 (op_side p)) (op_price p) (op_size p) salt_fr in
      let commitment := scalar_to_be_bytes (client_commit_native inp) in
      let? encrypted_payload := encrypt_order rng operator_pubkey p in
      Ok (mkOrderSubmission commitment PLACEHOLDER_PROOF encrypted_payload trader_id salt).

(** ** [wasm.rs] *)

Inductive WasmError :=
| WClient (e : ClientError D)
| WDecimal (e : Str)
| WJson
| WHex
| WMessage (m : Str).

Definition js {A} (r : result A (ClientError D)) : result A WasmError := match r with Ok a => Ok a | Err e => Err (WClient e) end.

(** The members of the JSON object that is returned. *)
Definition submission_object (sub : OrderSubmission) : list (Str * Str) :=
  [(str "commitment", hex_encode (os_commitment sub)); (str "proof", hex_encode (os_proof sub));
   (str "encrypted_payload", b64_encode (os_encrypted_payload sub));
   (str "trader_id", hex_encode (os_trader_id sub)); (str "salt", hex_encode (os_salt sub))].

Definition prepare_order_wasm (rng : Z) (operator_pubkey_hex order_json : Str) : result (list (Str * Str)) WasmError :=
  let? pk := js (parse_operator_pubkey_hex operator_pubkey_hex) in
  let? payload := match payload_from_json order_json with Some p => Ok p | None => Err WJson end in
  let? sub := js (prepare_submission rng pk payload) in
  Ok (submission_object sub).

Definition encrypt_order_wasm (rng : Z) (pubkey_hex order_json : Str) : result bytes WasmError :=
  let? pk := js (parse_operator_pubkey_hex pubkey_hex) in
  let? payload := match payload_from_json order_json with Some p => Ok p | None => Err WJson end in
  js (encrypt_order rng pk payload).

Definition compute_commitment_wasm (commitment_key : Str) (side : Z) (price sz salt_hex : Str) : result Str WasmError :=
  let? trader_id := js (client_derive_trader_id (as_bytes commitment_key)) in
  let parse d := match dec_from_str d with Ok x => Ok x | Err e => Err (WDecimal e) end in
  let? price_d := parse price in
  let? size_d := parse sz in
  if negb (utf8_len salt_hex =? 64) || negb (forallb is_lower_hex salt_hex) then Err (WMessage (str "salt must be a 32-byte lowercase hex string"))
  else
    match hex_decode salt_hex with
    | None => Err WHex
    | Some salt_bytes =>
      if negb (length salt_bytes =? 32)%nat then Err (WMessage (str "salt must be exactly 32 bytes, got " ++ print_dec (Z.of_nat (length salt_bytes))))
      else
        let? salt_fr := js (client_bytes32_to_scalar salt_bytes) in
        let? inp := js (client_from_decimals trader_id side price_d size_d salt_fr) in
        Ok (hex_encode (scalar_to_be_bytes (client_commit_native inp)))
    end.

Definition derive_trader_id_wasm (commitment_key : Str) : result Str WasmError :=
  let? f := js (client_derive_trader_id (as_bytes commitment_key)) in
  Ok (hex_encode (scalar_to_be_bytes f)).

(** ** [dp-trade] *)

Definition i64_max : Z := 2 ^ 63 - 1.

(** Durations are counts of nanoseconds; [now] is the time since the epoch. *)
Definition unix_nanos_after (now : option Z) (ttl : Z) : result Z (ClientError D) :=
  match now with
  | None => Err (InvalidPayload (str "system clock before Unix epoch"))
  | Some now =>
    if (2 ^ 64 * 1000000000 <=? now + ttl) then Err (InvalidPayload (str "ttl overflows Unix timestamp"))
    else if i64_max <? now + ttl then Err (InvalidPayload (str "expiry exceeds i64 nanoseconds"))
    else Ok (now + ttl)
  end.

Definition random_hex32 (draw : bytes) : Str := hex_encode draw.

Record TradeArgs := mkTradeArgs {
  ta_trader : Str;
  ta_pair : Str;
  ta_side : Side;
  ta_price : D;
  ta_size : D;
  ta_commitment_key : Str;
  ta_operator_key : Str
}.

(** [exists_] tells whether the argument names a file. *)
Definition resolve_operator_key (exists_ : Str -> bool) (read : Str -> option Str) (input : Str) : result bytes (ClientError D) :=
  if exists_ input then load_operator_pubkey_file read input else parse_operator_pubkey_hex input.

(** [run] up to the submission; [ttl] is the parsed duration, [salt_draw] and
    [nonce_draw] are 32 random bytes each. *)
Definition trade (exists_ : Str -> bool) (read : Str -> option Str) (now : option Z) (rng : Z) (salt_draw nonce_draw : bytes)
    (args : TradeArgs) (ttl : Z) : result OrderSubmission (ClientError D) :=
  let? operator_pubkey := resolve_operator_key exists_ read (ta_operator_key args) in
  if i64_max <? ttl then Err (InvalidPayload (str "ttl exceeds i64 nanoseconds"))
  else
    let? expires_at_unix_nanos := unix_nanos_after now ttl in
    let payload := mkOrderPayload (ta_trader args) (ta_pair args) (ta_side args) (ta_price args) (ta_size args)
      (ta_commitment_key args) (random_hex32 salt_draw) (random_hex32 nonce_draw) expires_at_unix_nanos ttl in
    prepare_submission rng operator_pubkey payload.

Inductive OutputFormat := OutJson | OutHex | OutBase64.

(** The names and texts that are printed. *)
Definition print_submission (sub : OrderSubmission) (fmt : OutputFormat) : list (Str * Str) :=
  let all (f : bytes -> Str) :=
    [(str "commitment", f (os_commitment sub)); (str "proof", f (os_proof sub)); (str "encrypted_payload", f (os_encrypted_payload sub));
     (str "trader_id", f (os_trader_id sub)); (str "salt", f (os_salt sub))] in
  match fmt with
  | OutJson => submission_object sub
  | OutHex => all hex_encode
  | OutBase64 => all b64_encode
  end.

Record HttpRequest := mkHttpRequest {
  hr_url : Str;
  hr_headers : list (Str * Str);
  hr_body : list (Str * Str)
}.

(** [trim_end_matches('/')] *)
Definition trim_end_slashes (s : Str) : Str :=
  reverse (trim_prefixes (length s) (str "/") (reverse s)).

Definition http_request (server : Str) (api_key bearer_token : option Str) (sub : OrderSubmission) : HttpRequest :=
  mkHttpRequest (trim_end_slashes server ++ str "/v1/orders")
    (match bearer_token with Some token => [(str "authorization", str "Bearer " ++ token)] | None => [] end ++
     match api_key with Some k => [(str "x-api-key", k)] | None => [] end)
    [(str "commitment", b64_encode (os_commitment sub)); (str "proof", b64_encode (os_proof sub));
     (str "encryptedPayload", b64_encode (os_encrypted_payload sub))].

(** The answer of the server is the status, whether it is a success, and the
    body, or a transport error. *)
Definition submit_http (send : HttpRequest -> result (Str * bool * Str) Str) (server : Str) (api_key bearer_token : option Str)
    (sub : OrderSubmission) : result unit (ClientError D) :=
  match send (http_request server api_key bearer_token sub) with
  | Err e => Err (Http e)
  | Ok (status, ok, text) => if ok then Ok tt else Err (Http (status ++ str ": " ++ text))
  end.
End client.

(** ** Agreement with the engine *)

(** The order the engine should see. *)
Definition order_of {D} (p : OrderPayload D) (addr : bytes) : DecryptedOrder D :=
  mkDecryptedOrder addr (op_pair p) (op_side p) (op_price p) (op_size p)
    (op_commitment_key p) (op_salt p) (op_nonce p) (op_expires_at_unix_nanos p) (op_ttl p).

Lemma lower_hex_len s : forallb is_lower_hex s = true -> utf8_len s = Z.of_nat (length s).
Proof.
  induction s as [|c s IH]; [done|]. cbn [forallb utf8_len fold_right length]. fold (utf8_len s).
  intros [Hc Hs]%andb_true_iff. rewrite (IH Hs). unfold is_lower_hex in Hc. unfold utf8_len_char. destruct (Z.ltb_spec c 128); lia.
Qed.

Lemma be_bytes_bytes n z : Forall is_byte (be_bytes n z).
Proof. apply Forall_reverse, le_bytes_byte. Qed.

Section client_facts.
Context {D F : Type} `{!DecimalOps D, !DecimalLaws D, !FieldOps F, !FieldLaws F, !Poseidon F, HEX : !HexOps, HL : !HexLaws,
  CO : !ClientOps, OJ : !OrderJson D, DP : !DecimalParse D}.
Implicit Types p : OrderPayload D.

Definition enc {A} (r : result A (EncodingError D)) : result A (ClientError D) :=
  match r with Ok a => Ok a | Err e => Err (Encoding e) end.

Lemma enc_Ok {A} (r : result A (EncodingError D)) a : enc r = Ok a -> r = Ok a.
Proof. by destruct r; simpl; intros [=->]. Qed.

(** The client's encoders are the engine's. *)
Lemma client_decimal (d : D) : client_decimal_to_scalar (F:=F) d = enc (decimal_to_scalar d).
Proof.
  unfold client_decimal_to_scalar, decimal_to_scalar. destruct (dec_is_sign_negative d); [done|]. destruct (dec_mul _ _) as [x|]; [|done].
  destruct (_ && _); [done|]. destruct (dec_to_i128 _) as [i|]; [|done]. by destruct (_ && _).
Qed.

Lemma client_bytes b : client_bytes_to_scalar (D:=D) (F:=F) b = enc (bytes_to_scalar b).
Proof. unfold client_bytes_to_scalar, bytes_to_scalar. destruct (_ <? _)%nat; [done|]. cbv zeta. change (scalar_to_be_bytes (F:=F)) with (fr_to_bytes32 (F:=F)). by destruct (_ && _). Qed.

Lemma client_bytes32 b : client_bytes32_to_scalar (D:=D) (F:=F) b = enc (bytes32_to_scalar b).
Proof. unfold client_bytes32_to_scalar, bytes32_to_scalar. destruct (negb _); [done|]. apply client_bytes. Qed.

Lemma client_trader_id b : client_derive_trader_id (D:=D) (F:=F) b = enc (derive_trader_id b).
Proof. unfold client_derive_trader_id, derive_trader_id. rewrite client_bytes. by destruct (bytes_to_scalar b). Qed.

Lemma client_input t sd price sz salt : sd = 0 \/ sd = 1 ->
  client_from_decimals (D:=D) (F:=F) t sd price sz salt = enc (from_decimals t sd price sz salt).
Proof.
  unfold client_from_decimals, from_decimals. rewrite !client_decimal.
  intros [-> | ->]; cbn [Z.eqb]; (destruct (decimal_to_scalar price); [|done]); by destruct (decimal_to_scalar sz).
Qed.

Lemma client_hex32_engine s name b err :
  client_parse_lowercase_hex32 (D:=D) s name = Ok b -> parse_lowercase_hex32 (D:=D) s err = Ok b.
Proof.
  unfold client_parse_lowercase_hex32, parse_lowercase_hex32. destruct (forallb is_lower_hex s) eqn:Hs; [|by rewrite orb_true_r].
  rewrite (lower_hex_len _ Hs). destruct (Z.eqb_spec (Z.of_nat (length s)) 64) as [Hl|]; [|done].
  assert (length s = 64%nat) as -> by lia. cbn [Nat.eqb negb orb]. destruct (hex_decode s) as [b'|]; [|done].
  destruct (_ =? _)%nat; [|done]. by intros [= ->].
Qed.

Lemma from_decimals_id (t : F) sd (price sz : D) salt inp k :
  from_decimals t sd price sz salt = Ok inp ->
  from_decimals k sd price sz salt = Ok (mkOrderCommitmentInput k (ci_side inp) (ci_limit_price inp) (ci_size inp) (ci_salt inp)).
Proof. unfold from_decimals. destruct (decimal_to_scalar price); [|done]. destruct (decimal_to_scalar sz); [|done]. by intros <-%Ok_inv. Qed.

(** What a submission was made of. *)
Record Submitted (rng : Z) (pk : bytes) p (sub : OrderSubmission) (addr nonce : bytes) (inp : OrderCommitmentInput F) : Prop := {
  su_addr : parse_trader_address (D:=D) (op_trader p) = Ok addr;
  su_id : derive_trader_id (D:=D) addr = Ok (ci_trader_id inp);
  su_salt : client_parse_lowercase_hex32 (D:=D) (op_salt p) (str "salt") = Ok (os_salt sub);
  su_nonce : client_parse_lowercase_hex32 (D:=D) (op_nonce p) (str "nonce") = Ok nonce;
  su_scalar : bytes32_to_scalar (D:=D) (os_salt sub) = Ok (ci_salt inp);
  su_input : from_decimals (ci_trader_id inp) (side_u8 (op_side p)) (op_price p) (op_size p) (ci_salt inp) = Ok inp;
  su_cipher : encrypt_order rng pk p = Ok (os_encrypted_payload sub);
  su_commitment : os_commitment sub = fr_to_bytes32 (commit_native inp);
  su_trader_id : os_trader_id sub = fr_to_bytes32 (ci_trader_id inp)
}.

Lemma prepare_submission_Ok rng pk p sub :
  prepare_submission (F:=F) rng pk p = Ok sub -> exists addr nonce inp, Submitted rng pk p sub addr nonce inp.
Proof.
  unfold prepare_submission. case_bool_decide; [done|]. destruct (validate_trader _); [|done].
  destruct (parse_trader_address _) as [addr|] eqn:Ha; [|done].
  rewrite client_trader_id. destruct (derive_trader_id addr) as [t|] eqn:Ht; [|done]. cbn [enc].
  destruct (client_parse_lowercase_hex32 (op_salt p) _) as [salt|] eqn:Hs; [|done].
  destruct (client_parse_lowercase_hex32 (op_nonce p) _) as [nonce|] eqn:Hn; [|done]. destruct (_ <=? 0); [done|].
  rewrite client_bytes32. destruct (bytes32_to_scalar salt) as [sf|] eqn:Hsf; [|done]. cbn [enc].
  rewrite client_input by (destruct (op_side p); [by left|by right]).
  destruct (from_decimals _ _ _ _ _) as [inp|] eqn:Hi; [|done]. cbn [enc].
  destruct (encrypt_order rng pk p) as [c|] eqn:Hc; [|done]. intros [= <-].
  assert (ci_trader_id inp = t /\ ci_salt inp = sf) as [<- <-].
  { revert Hi. unfold from_decimals. destruct (decimal_to_scalar (op_price p)); [|done]. destruct (decimal_to_scalar (op_size p)); [|done]. by intros [= <-]. }
  by exists addr, nonce, inp.
Qed.

Lemma parse_trader_address_Ok t addr : parse_trader_address (D:=D) t = Ok addr ->
  strip_prefix (str "0x") t ≫= hex_decode = Some addr /\ length addr = 20%nat.
Proof.
  unfold parse_trader_address. destruct (validate_trader t); [|done]. destruct (_ ≫= _) as [b|]; [|done].
  destruct (Nat.eqb_spec (length b) 20); [|done]. by intros [= ->].
Qed.

(** The engine derives the secrets of a submission whatever balance it looks up. *)
Lemma submitted_secrets rng pk p sub addr nonce inp balance position :
  Submitted rng pk p sub addr nonce inp ->
  exists sec, derive_order_secrets (F:=F) addr (side_u8 (op_side p)) (op_price p) (op_size p) balance position (os_salt sub) = Ok sec /\
    s_commitment sec = os_commitment sub /\ s_trader_id sec = os_trader_id sub /\ s_salt sec = os_salt sub.
Proof.
  intros S. unfold derive_order_secrets, compute_poseidon_commitment_fr, derive_trader_id_bytes.
  rewrite (su_id _ _ _ _ _ _ _ S). cbn [encoded]. fold (fr_to_bytes32 (ci_trader_id inp)).
  rewrite bytes32_to_scalar_encode, (su_scalar _ _ _ _ _ _ _ S). cbn [encoded]. rewrite (su_input _ _ _ _ _ _ _ S). cbn [encoded].
  eexists. split; [done|]. cbn [s_commitment s_trader_id s_salt].
  by rewrite (su_commitment _ _ _ _ _ _ _ S), (su_trader_id _ _ _ _ _ _ _ S).
Qed.

(** ** The theorems *)

Section submitted.
Context `{EO : !EciesOps, EL : !EciesLaws, OL : !OrderJsonLaws D, CL : !ClientLaws D, SHA : !Sha256, ADDR : !AddressOps}.

(** The fields the client writes are the fields the engine reads. *)
Lemma payload_json p addr : strip_prefix (str "0x") (op_trader p) ≫= hex_decode = Some addr -> length addr = 20%nat ->
  order_from_json (payload_to_json p) = Some (order_of p addr).
Proof.
  intros Ha Hl. unfold order_from_json, payload_to_json. rewrite (order_from_members payload_fields) by (done || by repeat constructor).
  cbn [mbind option_bind text_of_json]. rewrite (address_text _ _ Ha Hl), !dec_reads. cbn [mbind option_bind i64_of_json].
  unfold order_of. by destruct (op_side p).
Qed.

Lemma submission_decrypts rng sk p sub addr nonce inp : secret_parse sk = Ok tt ->
  Submitted rng (public_of_secret sk) p sub addr nonce inp ->
  ecies_decrypter_decrypt sk (os_encrypted_payload sub) = Ok (order_of p addr).
Proof.
  intros Hsk S. pose proof (su_cipher _ _ _ _ _ _ _ S) as Hc. unfold encrypt_order, validate_pubkey_len in Hc.
  destruct (encrypts rng sk (payload_to_json p) Hsk) as [He Hl]. rewrite Hl, He in Hc. cbn [Nat.eqb orb] in Hc.
  assert (os_encrypted_payload sub = ecies_encrypt rng (public_of_secret sk) (payload_to_json p)) as -> by congruence.
  unfold ecies_decrypter_decrypt. rewrite ecies_right by done.
  destruct (parse_trader_address_Ok _ _ (su_addr _ _ _ _ _ _ _ S)) as [Ha Hlen]. by rewrite (payload_json p addr Ha Hlen).
Qed.

(** C14: what the client submits, the engine takes for the order it was made
    of.  Under the operator's key the payload decrypts to that order: the JSON
    the client writes has the names and types of the fields the engine reads.
    If in addition the ciphertext is within the size limit and not in the replay
    set, and the checks of the plaintext, the pair, the expiry and the balance
    lookup pass, then the engine derives exactly the commitment, trader identity
    and salt the client computed, and its answer is that of the proof
    verifier. *)
Theorem submission_admitted (env : PlaceEnv D F) (s_seen s_cfg : EngineState D) rng sk p sub caller key spend expires bp :
  secret_parse sk = Ok tt -> pe_decrypt env = ecies_decrypter_decrypt sk ->
  prepare_submission (F:=F) rng (public_of_secret sk) p = Ok sub ->
  parse_trader_address (D:=D) (op_trader p) = Ok caller ->
  Z.of_nat (length (os_encrypted_payload sub)) <= MAX_ENCRYPTED_PAYLOAD_BYTES ->
  ciphertext_digest (os_encrypted_payload sub) ∉ es_seen_ciphertexts s_seen ->
  check_plaintext caller (order_of p caller) = Ok key ->
  check_pair s_cfg key (order_of p caller) = Ret (Ok spend) ->
  validate_order_freshness (D:=D) (op_expires_at_unix_nanos p) (pe_now env) = Ok expires ->
  pe_lookup env caller (fst spend) (snd spend) = Ok bp ->
  ecies_decrypter_decrypt sk (os_encrypted_payload sub) = Ok (order_of p caller) /\
  exists sec nonce, s_commitment sec = os_commitment sub /\ s_trader_id sec = os_trader_id sub /\ s_salt sec = os_salt sub /\
    parse_order_nonce (D:=D) (op_nonce p) = Ok nonce /\
    prepare_order env s_seen s_cfg (os_proof sub) (os_encrypted_payload sub) caller =
    Ret (let? _ := check_proof (pe_verifier env) (os_proof sub) sec in
         Ok (mkPrepared (new_order env key (order_of p caller) (os_encrypted_payload sub) expires) sec
           (mkReplayProtection (s_nullifier sec) (order_nonce_digest caller nonce)))).
Proof.
  intros Hsk Hd Hsub Hcaller Hlen Hseen Hplain Hpair Hfresh Hlook.
  destruct (prepare_submission_Ok _ _ _ _ Hsub) as (addr & nonce & inp & S).
  assert (addr = caller) as -> by (pose proof (su_addr _ _ _ _ _ _ _ S); congruence).
  destruct (submitted_secrets _ _ _ _ _ _ _ (fst bp) (snd bp) S) as (sec & Hsec & Hc & Ht & Hsalt).
  pose proof (client_hex32_engine _ _ _ OrderNonceInvalid (su_nonce _ _ _ _ _ _ _ S)) as Hnonce.
  pose proof (submission_decrypts _ _ _ _ _ _ _ Hsk S) as Hdec. split; [done|].
  exists sec, nonce. split_and!; [done..|].
  unfold prepare_order. destruct (Z.ltb_spec MAX_ENCRYPTED_PAYLOAD_BYTES (Z.of_nat (length (os_encrypted_payload sub)))); [lia|].
  rewrite bool_decide_false by done. rewrite Hd, Hdec, Hplain, Hpair. cbn [mbind outcome_bind].
  unfold derive_prepared, parse_order_salt, parse_order_nonce. cbn [order_of d_expires_at_unix_nanos d_salt d_nonce].
  rewrite Hfresh, (client_hex32_engine _ _ _ SaltInvalid (su_salt _ _ _ _ _ _ _ S)), (su_scalar _ _ _ _ _ _ _ S), Hnonce.
  cbn [new_order o_trader o_side o_price o_size order_of d_trader d_side d_price d_size]. by rewrite Hlook, Hsec.
Qed.
End submitted.

(** [dp-trade] draws its salt as 32 random bytes without reducing them: it
    submits only if the draw is below the field order, which is less than one
    fifth of the draws, and refuses the order otherwise. *)
Theorem trade_salt_canonical exists_ read now rng salt_draw nonce_draw args ttl sub :
  Forall is_byte salt_draw -> length salt_draw = 32%nat ->
  trade (D:=D) (F:=F) exists_ read now rng salt_draw nonce_draw args ttl = Ok sub ->
  be_value salt_draw < FR /\ 5 * FR < 2 ^ 256.
Proof.
  intros Hb Hl. unfold trade. destruct (resolve_operator_key _ _ _) as [pk|]; [|done]. destruct (_ <? _); [done|].
  destruct (unix_nanos_after _ _) as [ex|]; [|done]. cbv zeta. intros (addr & nonce & inp & S)%prepare_submission_Ok.
  split; [|done]. pose proof (su_salt _ _ _ _ _ _ _ S) as Hs. unfold client_parse_lowercase_hex32, random_hex32 in Hs. cbn [op_salt] in Hs.
  destruct (_ || _); [done|]. rewrite hex_decode_encode, Hl in Hs by done. cbn [Nat.eqb] in Hs.
  assert (os_salt sub = salt_draw) as He by congruence. pose proof (su_scalar _ _ _ _ _ _ _ S) as Hf. rewrite He in Hf.
  apply bytes32_to_scalar_Ok in Hf. rewrite <- Hf. unfold fr_to_bytes32. rewrite (be_value_be_bytes 32) by apply fr_to_Z_bytes. apply fr_to_Z_range.
Qed.

Lemma scalar_bytes (f : F) : Forall is_byte (scalar_to_be_bytes f).
Proof. apply be_bytes_bytes. Qed.

Lemma hex_encode_inj a b : Forall is_byte a -> Forall is_byte b -> hex_encode a = hex_encode b -> a = b.
Proof. intros Ha Hb He. apply (f_equal hex_decode) in He. rewrite !hex_decode_encode in He by done. congruence. Qed.

(** The commitment that the browser export computes from an order's own
    values is the commitment of its submission only if the commitment key and
    the trader's address are bytes of one scalar, or these very values are a
    collision of the hash: the export derives the identity from the key, the
    submission and the engine from the address. *)
Theorem exported_commitment rng pk p sub price sz text :
  prepare_submission (F:=F) rng pk p = Ok sub ->
  dec_from_str price = Ok (op_price p) -> dec_from_str sz = Ok (op_size p) ->
  compute_commitment_wasm (F:=F) (op_commitment_key p) (side_u8 (op_side p)) price sz (op_salt p) = Ok text ->
  exists addr fa fk inp, parse_trader_address (D:=D) (op_trader p) = Ok addr /\
    bytes_to_scalar (D:=D) addr = Ok fa /\ bytes_to_scalar (D:=D) (as_bytes (op_commitment_key p)) = Ok fk /\
    os_commitment sub = fr_to_bytes32 (commit_native inp) /\
    (text = hex_encode (os_commitment sub) ->
     fa = fk \/ collides [fa] [fk] \/ collides (as_field_elements inp) (poseidon [fk] :: drop 1 (as_field_elements inp))).
Proof.
  intros (addr & nonce & inp & S)%prepare_submission_Ok Hp Hz. unfold compute_commitment_wasm. rewrite client_trader_id, Hp, Hz.
  destruct (derive_trader_id (as_bytes (op_commitment_key p))) as [kid|] eqn:Hk; [|done]. cbn [enc js].
  pose proof (su_salt _ _ _ _ _ _ _ S) as Hs. unfold client_parse_lowercase_hex32 in Hs. destruct (_ || _); [done|].
  destruct (hex_decode (op_salt p)) as [b|]; [|done]. destruct (length b =? 32)%nat; [|done]. cbn [negb].
  assert (b = os_salt sub) as -> by congruence. rewrite client_bytes32, (su_scalar _ _ _ _ _ _ _ S). cbn [enc js].
  rewrite client_input by (destruct (op_side p); [by left|by right]).
  rewrite (from_decimals_id _ _ _ _ _ _ kid (su_input _ _ _ _ _ _ _ S)). cbn [enc js]. intros Ht%Ok_inv.
  pose proof (su_id _ _ _ _ _ _ _ S) as Hid. revert Hid Hk. unfold derive_trader_id.
  destruct (bytes_to_scalar addr) as [fa|] eqn:Ha; [|done]. destruct (bytes_to_scalar (as_bytes _)) as [fk|] eqn:Hf; [|done].
  intros Hid%Ok_inv <-%Ok_inv. exists addr, fa, fk, inp. split_and!; [apply (su_addr _ _ _ _ _ _ _ S)|done..|apply (su_commitment _ _ _ _ _ _ _ S)|].
  intros He. rewrite He, (su_commitment _ _ _ _ _ _ _ S) in Ht. apply hex_encode_inj in Ht; [|apply scalar_bytes..]. apply fr_to_bytes32_inj in Ht.
  symmetry in Ht. apply poseidon_inj in Ht as [Heq|]; [|by right; right]. injection Heq as Heq. rewrite <- Hid in Heq.
  apply poseidon_inj in Heq as [[= Heq]|]; [by left|by right; left].
Qed.
End client_facts.
