(* ===== verification/Sse.v ===== *)
(** * API: the limiter of open streams

    [SseStreamLimiter] and [SseStreamPermit] of [rest.rs].  The limiter keeps a
    semaphore per client in a map and drops it once it is idle.  The map has a
    lock; the semaphores and the reference counts are shared without one, so
    the steps of the state machine are the pieces between which other tasks
    run: looking up the semaphore, acquiring, releasing, tidying the map, and
    letting go of the last reference. *)

From S2P Require Import Prelude Decimal Types.
Open Scope Z_scope.

(** How far a task is: it holds the semaphore of its key ([Waiting]), a permit
    as well ([Open]), has given the permit back ([Closing]), and has tidied the
    map ([Closed]). *)
Inductive Stage := Waiting | Open | Closing | Closed.

#[export] Instance Stage_eq_dec : EqDecision Stage.
Proof. solve_decision. Defined.

Record Task := mkTask { t_key : Str; t_sem : Z; t_stage : Stage }.

(** A semaphore is a number; [sl_avail] has its free permits. *)
Record Sse := mkSse {
  sl_map : gmap Str Z;
  sl_avail : gmap Z Z;
  sl_tasks : gmap Z Task;
  sl_next : Z
}.

Definition sse_new : Sse := mkSse ∅ ∅ ∅ 0.

(** The references of a task to its semaphore: a permit has its own. *)
Definition task_refs (t : Task) : Z := match t_stage t with Open => 2 | _ => 1 end.

(** A sum over the tasks. *)
Definition weigh (f : Task -> Z) (m : gmap Z Task) : Z := map_fold (fun _ t n => f t + n) 0 m.

Definition refs_to (sem : Z) (t : Task) : Z := if t_sem t =? sem then task_refs t else 0.
Definition in_map (l : Sse) (sem : Z) : bool := existsb (fun ks => ks.2 =? sem) (map_to_list (sl_map l)).

(** [Arc::strong_count]. *)
Definition strong_count (l : Sse) (sem : Z) : Z := (if in_map l sem then 1 else 0) + weigh (refs_to sem) (sl_tasks l).

Definition available_permits (l : Sse) (sem : Z) : Z := default 0 (sl_avail l !! sem).

Section limiter.
Context (max_per_key : Z).

(** The idle semaphores leave the map, then the one of the key is looked up or
    made. *)
Definition retain (l : Sse) : gmap Str Z :=
  filter (fun ks => available_permits l ks.2 < max_per_key \/ 1 < strong_count l ks.2) (sl_map l).

Definition acquire_begin (id : Z) (key : Str) (l : Sse) : Sse * Task :=
  let m := retain l in
  match m !! key with
  | Some sem =>
    let t := mkTask key sem Waiting in
    (mkSse m (sl_avail l) (<[id := t]> (sl_tasks l)) (sl_next l), t)
  | None =>
    let sem := sl_next l in
    let t := mkTask key sem Waiting in
    (mkSse (<[key := sem]> m) (<[sem := max_per_key]> (sl_avail l)) (<[id := t]> (sl_tasks l)) (sem + 1), t)
  end.

Definition set_stage (t : Task) (s : Stage) : Task := mkTask (t_key t) (t_sem t) s.

(** [try_acquire_owned]; without a permit the task ends. *)
Definition acquire_end (id : Z) (t : Task) (l : Sse) : Sse * bool :=
  if 0 <? available_permits l (t_sem t) then
    (mkSse (sl_map l) (<[t_sem t := available_permits l (t_sem t) - 1]> (sl_avail l)) (<[id := set_stage t Open]> (sl_tasks l)) (sl_next l), true)
  else (mkSse (sl_map l) (sl_avail l) (delete id (sl_tasks l)) (sl_next l), false).

(** [drop] of a permit: first the permit itself, *)
Definition release (id : Z) (t : Task) (l : Sse) : Sse :=
  mkSse (sl_map l) (<[t_sem t := available_permits l (t_sem t) + 1]> (sl_avail l)) (<[id := set_stage t Closing]> (sl_tasks l)) (sl_next l).

(** then the map, under its lock, *)
Definition tidy (id : Z) (t : Task) (l : Sse) : Sse :=
  let m := if (available_permits l (t_sem t) =? max_per_key) && (strong_count l (t_sem t) <=? 2)
           then delete (t_key t) (sl_map l) else sl_map l in
  mkSse m (sl_avail l) (<[id := set_stage t Closed]> (sl_tasks l)) (sl_next l).

(** then the fields. *)
Definition let_go (id : Z) (l : Sse) : Sse := mkSse (sl_map l) (sl_avail l) (delete id (sl_tasks l)) (sl_next l).

(** One piece of one task; a refused stream is an answer to its client. *)
Inductive sse_step : Sse -> Sse -> Prop :=
| step_begin l id key : sl_tasks l !! id = None -> sse_step l (fst (acquire_begin id key l))
| step_end l id t : sl_tasks l !! id = Some t -> t_stage t = Waiting -> sse_step l (fst (acquire_end id t l))
| step_release l id t : sl_tasks l !! id = Some t -> t_stage t = Open -> sse_step l (release id t l)
| step_tidy l id t : sl_tasks l !! id = Some t -> t_stage t = Closing -> sse_step l (tidy id t l)
| step_let_go l id t : sl_tasks l !! id = Some t -> t_stage t = Closed -> sse_step l (let_go id l).

(** The open streams of a client. *)
Definition open_of (key : Str) (t : Task) : Z := if bool_decide (t_key t = key /\ t_stage t = Open) then 1 else 0.
Definition open_streams (l : Sse) (key : Str) : Z := weigh (open_of key) (sl_tasks l).

(** ** Sums *)

Lemma weigh_insert f m i t : m !! i = None -> weigh f (<[i := t]> m) = f t + weigh f m.
Proof. intros H. unfold weigh. rewrite map_fold_insert_L; [done| |done]. intros. lia. Qed.

Lemma weigh_delete f m i t : m !! i = Some t -> weigh f (delete i m) = weigh f m - f t.
Proof. intros H. rewrite <- (insert_delete_id m i t H) at 2. rewrite weigh_insert by apply lookup_delete_eq. lia. Qed.

Lemma weigh_update f m i t t' : m !! i = Some t -> weigh f (<[i := t']> m) = weigh f m - f t + f t'.
Proof.
  intros H. rewrite <- insert_delete_eq, weigh_insert by apply lookup_delete_eq. rewrite (weigh_delete f m i t H). lia.
Qed.

Lemma weigh_ge f g m : (forall i t, m !! i = Some t -> f t <= g t) -> weigh f m <= weigh g m.
Proof.
  revert m. apply (map_ind (fun m => (forall i t, m !! i = Some t -> f t <= g t) -> weigh f m <= weigh g m)); [done|].
  intros i t m Hn IH H. rewrite !weigh_insert by done.
  assert (f t <= g t) by (apply (H i); apply lookup_insert_eq).
  assert (weigh f m <= weigh g m); [|lia]. apply IH. intros j u Hj. apply (H j). rewrite lookup_insert_ne; [done|]. by intros ->; rewrite Hn in Hj.
Qed.

Lemma weigh_zero m : weigh (fun _ => 0) m = 0.
Proof. induction m as [|i t m Hn IH] using map_ind; [done|]. by rewrite weigh_insert, IH. Qed.

Lemma weigh_nonneg f m : (forall t, 0 <= f t) -> 0 <= weigh f m.
Proof. intros H. rewrite <- (weigh_zero m). apply weigh_ge. auto. Qed.

Lemma refs_to_nonneg sem t : 0 <= refs_to sem t.
Proof. unfold refs_to, task_refs. repeat case_match; lia. Qed.

(** The references of two tasks add up. *)
Lemma weigh_two f m i j t u :
  (forall t, 0 <= f t) -> i <> j -> m !! i = Some t -> m !! j = Some u -> f t + f u <= weigh f m.
Proof.
  intros Hf Hij Hi Hj. pose proof (weigh_delete f m i t Hi) as H1.
  assert (Hj' : delete i m !! j = Some u) by (by rewrite lookup_delete_ne).
  pose proof (weigh_delete f _ j u Hj') as H2. pose proof (weigh_nonneg f (delete j (delete i m)) Hf). lia.
Qed.

Lemma weigh_one f m i t : (forall t, 0 <= f t) -> m !! i = Some t -> f t <= weigh f m.
Proof. intros Hf Hi. pose proof (weigh_delete f m i t Hi). pose proof (weigh_nonneg f (delete i m) Hf). lia. Qed.

(** ** The invariant *)

(** The permits out of a semaphore. *)
Definition out_of (sem : Z) (t : Task) : Z := if bool_decide (t_sem t = sem /\ t_stage t = Open) then 1 else 0.

Record sse_ok (l : Sse) : Prop := {
  so_task : forall id t, sl_tasks l !! id = Some t -> t_stage t <> Closed -> sl_map l !! t_key t = Some (t_sem t);
  so_sem : forall key sem, sl_map l !! key = Some sem ->
    sem < sl_next l /\ 0 <= available_permits l sem /\ available_permits l sem + weigh (out_of sem) (sl_tasks l) = max_per_key;
  so_inj : forall k1 k2 sem, sl_map l !! k1 = Some sem -> sl_map l !! k2 = Some sem -> k1 = k2
}.

Lemma in_map_true l key sem : sl_map l !! key = Some sem -> in_map l sem = true.
Proof.
  intros H. unfold in_map. apply existsb_exists. exists (key, sem). split; [|by rewrite Z.eqb_refl].
  apply list_elem_of_In. by apply elem_of_map_to_list.
Qed.

(** The permits of the semaphore of a key are the streams of the client. *)
Lemma open_out l key sem : sse_ok l -> sl_map l !! key = Some sem -> weigh (out_of sem) (sl_tasks l) = open_streams l key.
Proof.
  intros [Ht _ Hi] Hk. unfold open_streams.
  apply Z.le_antisymm; apply weigh_ge; intros i t Hit; unfold out_of, open_of.
  - case_bool_decide as H1; [|case_bool_decide; lia]. rewrite bool_decide_true; [lia|]. destruct H1 as [<- Hs].
    split; [|done]. eapply Hi; [|exact Hk]. apply (Ht i t Hit). by rewrite Hs.
  - case_bool_decide as H1; [|case_bool_decide; lia]. rewrite bool_decide_true; [lia|]. destruct H1 as [<- Hs].
    split; [|done]. pose proof (Ht i t Hit ltac:(by rewrite Hs)) as He. congruence.
Qed.

(** A semaphore that leaves the map has no task that still counts on it. *)
Lemma retain_kept l id t : sse_ok l -> sl_tasks l !! id = Some t -> t_stage t <> Closed -> retain l !! t_key t = Some (t_sem t).
Proof.
  intros Hok Hi Hs. pose proof (so_task _ Hok id t Hi Hs) as Hm. apply map_lookup_filter_Some. split; [done|]. right. simpl.
  unfold strong_count. rewrite (in_map_true _ _ _ Hm).
  pose proof (weigh_one (refs_to (t_sem t)) (sl_tasks l) id t (refs_to_nonneg _) Hi) as H1.
  unfold refs_to at 1 in H1. rewrite Z.eqb_refl in H1. unfold task_refs in H1. destruct (t_stage t); lia.
Qed.

Lemma retain_sub l key sem : retain l !! key = Some sem -> sl_map l !! key = Some sem.
Proof. intros [? _]%map_lookup_filter_Some. done. Qed.

Lemma out_of_other sem t : t_sem t <> sem -> out_of sem t = 0.
Proof. intros H. unfold out_of. by rewrite bool_decide_false by (by intros [? _]). Qed.

Lemma out_of_open t : t_stage t = Open -> out_of (t_sem t) t = 1.
Proof. intros H. unfold out_of. by rewrite bool_decide_true. Qed.

Lemma out_of_shut sem t : t_stage t <> Open -> out_of sem t = 0.
Proof. intros H. unfold out_of. by rewrite bool_decide_false by (by intros [_ ?]). Qed.

Lemma out_of_insert sem id t m : m !! id = None -> t_stage t <> Open -> weigh (out_of sem) (<[id := t]> m) = weigh (out_of sem) m.
Proof. intros Hn Hs. rewrite weigh_insert, (out_of_shut sem t) by done. done. Qed.

Lemma out_of_fresh l : sse_ok l -> weigh (out_of (sl_next l)) (sl_tasks l) = 0.
Proof.
  intros [Ht Hm _]. apply Z.le_antisymm; [|apply weigh_nonneg; intros t; unfold out_of; case_bool_decide; lia].
  rewrite <- (weigh_zero (sl_tasks l)). apply weigh_ge. intros i t Hi. unfold out_of. case_bool_decide as H1; [|lia].
  destruct H1 as [Heq Hs]. pose proof (Ht i t Hi ltac:(by rewrite Hs)) as He. apply Hm in He as [He _]. lia.
Qed.

Lemma begin_ok l id key : 0 <= max_per_key -> sse_ok l -> sl_tasks l !! id = None -> sse_ok (fst (acquire_begin id key l)).
Proof.
  intros H0 Hok Hn. pose proof Hok as [Ht Hm Hi]. unfold acquire_begin.
  destruct (retain l !! key) as [sem|] eqn:Hk; split; cbn [fst sl_map sl_avail sl_tasks sl_next].
  - intros i t [[<- <-]|[_ Hit]]%lookup_insert_Some Hs; [done|]. by apply (retain_kept _ i).
  - intros k s Hks. rewrite out_of_insert by done. by apply retain_sub, Hm in Hks.
  - intros k1 k2 s H1%retain_sub H2%retain_sub. by eapply Hi.
  - intros i t [[<- <-]|[_ Hit]]%lookup_insert_Some Hs; [apply lookup_insert_eq|].
    pose proof (retain_kept _ i t Hok Hit Hs) as He. rewrite lookup_insert_ne; [done|]. intros ->. congruence.
  - intros k s Hks. rewrite out_of_insert by done. unfold available_permits. cbn [sl_avail].
    apply lookup_insert_Some in Hks as [[<- <-]|[_ Hks]].
    + rewrite lookup_insert_eq. simpl. rewrite out_of_fresh by done. lia.
    + apply retain_sub, Hm in Hks as (? & ? & ?). rewrite lookup_insert_ne by lia. split_and!; [lia|done|done].
  - intros k1 k2 s [[<- <-]|[_ H1]]%lookup_insert_Some [[<- Heq]|[_ H2]]%lookup_insert_Some; try done.
    + apply retain_sub, Hm in H2 as [? _]. lia.
    + subst s. apply retain_sub, Hm in H1 as [? _]. lia.
    + apply retain_sub in H1, H2. by eapply Hi.
Qed.

(** A task changes its stage and the free permits of its semaphore follow. *)
Lemma move_ok l id t s n :
  sse_ok l -> sl_tasks l !! id = Some t -> t_stage t <> Closed -> s <> Closed ->
  0 <= n -> n + out_of (t_sem t) (set_stage t s) = available_permits l (t_sem t) + out_of (t_sem t) t ->
  sse_ok (mkSse (sl_map l) (<[t_sem t := n]> (sl_avail l)) (<[id := set_stage t s]> (sl_tasks l)) (sl_next l)).
Proof.
  intros [Ht Hm Hi] Hit Hs Hs' Hn He. split; cbn [sl_map sl_avail sl_tasks sl_next]; [| |done].
  - intros i u [[<- <-]|[_ Hu]]%lookup_insert_Some Hc; [|by apply (Ht i)]. simpl. by apply (Ht id).
  - intros k sem Hk. apply Hm in Hk as (? & ? & Hw). rewrite (weigh_update _ _ _ _ _ Hit). unfold available_permits in *. cbn [sl_avail].
    destruct (decide (t_sem t = sem)) as [<-|Hne].
    + rewrite lookup_insert_eq. simpl. split_and!; lia.
    + rewrite lookup_insert_ne by done. rewrite !out_of_other by done. split_and!; lia.
Qed.

(** A task without a permit leaves, or closes. *)
Lemma leave_ok l m id t tasks :
  sse_ok l -> sl_tasks l !! id = Some t -> t_stage t <> Open ->
  tasks = delete id (sl_tasks l) \/ tasks = <[id := set_stage t Closed]> (sl_tasks l) ->
  (forall i u, i <> id -> sl_tasks l !! i = Some u -> t_stage u <> Closed -> m !! t_key u = Some (t_sem u)) -> m ⊆ sl_map l ->
  sse_ok (mkSse m (sl_avail l) tasks (sl_next l)).
Proof.
  intros [Ht Hm Hi] Hit Hs Htasks Hkeep Hsub.
  assert (Hout : forall sem, weigh (out_of sem) tasks = weigh (out_of sem) (sl_tasks l)).
  { intros sem. assert (out_of sem t = 0) as H0 by (by apply out_of_shut).
    destruct Htasks as [->| ->]; [rewrite (weigh_delete _ _ _ _ Hit)|rewrite (weigh_update _ _ _ _ _ Hit)]; rewrite H0; [lia|].
    rewrite (out_of_shut sem (set_stage t Closed)) by done. lia. }
  split; cbn [sl_map sl_avail sl_tasks sl_next].
  - intros i u Hu Hc. destruct Htasks as [->| ->].
    + apply lookup_delete_Some in Hu as [Hne Hu]. by apply (Hkeep i).
    + apply lookup_insert_Some in Hu as [[<- <-]|[Hne Hu]]; [done|]. by apply (Hkeep i).
  - intros k sem Hk. rewrite Hout. apply (Hm k). by eapply lookup_weaken.
  - intros k1 k2 sem H1 H2. eapply Hi; by eapply lookup_weaken.
Qed.

Lemma step_ok l l' : 0 <= max_per_key -> sse_ok l -> sse_step l l' -> sse_ok l'.
Proof.
  intros H0 Hok Hstep. destruct Hstep as [l id key Hn|l id t Hit Hs|l id t Hit Hs|l id t Hit Hs|l id t Hit Hs].
  - by apply begin_ok.
  - unfold acquire_end. destruct (Z.ltb_spec 0 (available_permits l (t_sem t))); cbn [fst].
    + apply move_ok; rewrite ?Hs; try done; try lia. pose proof (out_of_open (set_stage t Open) eq_refl) as Ho. cbn [t_sem set_stage] in Ho. rewrite Ho, out_of_shut by (by rewrite Hs). lia.
    + eapply leave_ok; [done|exact Hit|by rewrite Hs|by left|intros; by eapply so_task|done].
  - unfold release. pose proof (so_task _ Hok id t Hit ltac:(by rewrite Hs)) as Hm. apply (so_sem _ Hok) in Hm as (_ & Ha & _).
    apply move_ok; rewrite ?Hs; try done; try lia. rewrite (out_of_open t Hs), out_of_shut by done. lia.
  - unfold tidy. eapply leave_ok; [done|exact Hit|by rewrite Hs|by right| |case_match; [apply delete_subseteq|done]].
    intros i u Hne Hu Hc. pose proof (so_task _ Hok i u Hu Hc) as Hm.
    destruct (_ =? max_per_key); [|done]. destruct (Z.leb_spec (strong_count l (t_sem t)) 2) as [Hle|]; [|done]. simpl.
    rewrite lookup_delete_ne; [done|]. intros Heq. pose proof (so_task _ Hok id t Hit ltac:(by rewrite Hs)) as Hmt.
    assert (t_sem u = t_sem t) as Hsem by congruence. unfold strong_count in Hle. rewrite (in_map_true _ _ _ Hmt) in Hle.
    pose proof (weigh_two (refs_to (t_sem t)) _ _ _ _ _ (refs_to_nonneg _) Hne Hu Hit) as H2. unfold refs_to at 1 2 in H2.
    rewrite Hsem, Z.eqb_refl in H2. unfold task_refs in H2. rewrite Hs in H2. destruct (t_stage u); lia.
  - unfold let_go. eapply leave_ok; [done|exact Hit|by rewrite Hs|by left|intros; by eapply so_task|done].
Qed.

(** C32: no client has more open streams than the limit, however the tasks of the
    server interleave, although idle semaphores are dropped from the map and
    made anew; and a stream is refused only to a client that has as many open
    as the limit. *)
Theorem sse_streams_bounded l :
  0 <= max_per_key -> rtc sse_step sse_new l ->
  (forall key, 0 <= open_streams l key <= max_per_key) /\
  (forall id t, sl_tasks l !! id = Some t -> t_stage t = Waiting ->
    (snd (acquire_end id t l) = false <-> open_streams l (t_key t) = max_per_key)).
Proof.
  intros H0 Hs. assert (sse_ok l) as Hok.
  { remember sse_new as l0 eqn:E. assert (sse_ok l0) as Hl0 by (subst; split; intros *; cbn [sse_new sl_map sl_tasks]; by rewrite lookup_empty).
    clear E. induction Hs; [done|]. eauto using step_ok. }
  assert (Hnn : forall key, 0 <= open_streams l key) by (intros; apply weigh_nonneg; intros; unfold open_of; case_bool_decide; lia).
  split.
  - intros key. split; [done|]. destruct (sl_map l !! key) as [sem|] eqn:Hk.
    + rewrite <- (open_out l key sem Hok Hk). apply (so_sem _ Hok) in Hk. lia.
    + rewrite <- (weigh_zero (sl_tasks l)) in H0. etransitivity; [|exact H0]. apply weigh_ge. intros i t Hit. unfold open_of.
      case_bool_decide as H1; [|lia]. destruct H1 as [<- Ho]. by rewrite (so_task _ Hok i t Hit ltac:(by rewrite Ho)) in Hk.
  - intros id t Hit Hw. pose proof (so_task _ Hok id t Hit ltac:(by rewrite Hw)) as Hk.
    rewrite <- (open_out l _ _ Hok Hk). apply (so_sem _ Hok) in Hk as (_ & Ha & He). unfold acquire_end.
    destruct (Z.ltb_spec 0 (available_permits l (t_sem t))); simpl; split; try done; lia.
Qed.
End limiter.
