(* ===== verification/Server.v ===== *)
(** * API: the server

    The routes of [rest.rs] with the layers [router_with_ops] puts around them:
    authentication before rate limiting on the public and the administrative
    routes, each with its own keys; limiting by address on the sign-in and the
    operational ones; and nothing on the probes.  [serve] answers one request.
    A request is its route with the values the extractors of [axum] decode; the
    gRPC listener runs the same trading handlers behind the same two layers. *)

From S2P Require Import Prelude Decimal Types Field Auction Events Book EngineState Engine Witness Tick.
From S2P Require Import Text RateLimit Client Siwe Auth Keys Api Sse.
Open Scope Z_scope.

(** ** Requests and responses *)

Inductive PublicRoute :=
| RPlaceOrder (req : PlaceOrderRequest)
| RCancelOrder (order_id reason : Str)
| RGetOrder (order_id : Str)
| RListOrders (pair : Str)
| RAuctionHistory (pair : Str) (limit : Z)
| RStreamAuctions (pair : Str)
| RListPairs.

Inductive AdminRoute :=
| RRegisterPair (req : RegisterPairRequest)
| RSuspendPair (pair : Str)
| RDelistPair (pair : Str)
| RListPairsAdmin
| RRegisterKey (id uri : Str) (status : option Str)
| RListKeys
| RDeleteKey (key_id : Str)
| RSunsetKey (key_id : Str).

Inductive Route :=
| Public (r : PublicRoute)
| Admin (r : AdminRoute)
| AuthNonce
| AuthVerify (message signature : Str)
| Healthz
| Readyz
| MetricsPage
| OperatorPubkey.

(** [rq_peer] is the address of the connection. *)
Record Request := mkRequest { rq_route : Route; rq_headers : Headers; rq_peer : option IpAddr }.

(** ** JSON *)

Record OrderInfoJson := mkOrderInfoJson {
  oj_id : Str;
  oj_pair : Str;
  oj_side : Str;
  oj_price : Str;
  oj_size : Str;
  oj_remaining_size : Str;
  oj_commitment_key : Str;
  oj_submitted_at_unix : Str;
  oj_expires_at_unix : Str
}.

Definition side_str (s : Z) : Str :=
  if s =? 1 then str "SIDE_BUY" else if s =? 2 then str "SIDE_SELL" else str "SIDE_UNSPECIFIED".

Definition order_info_json (o : OrderInfo) : OrderInfoJson :=
  mkOrderInfoJson (oi_id o) (oi_pair o) (side_str (oi_side o)) (oi_price o) (oi_size o) (oi_remaining_size o) (oi_commitment_key o)
    (print_dec (oi_submitted_at_unix o)) (print_dec (oi_expires_at_unix o)).

Record AuctionJson := mkAuctionJson {
  aj_auction_id : Str;
  aj_pair : Str;
  aj_clearing_price : Str;
  aj_matched_volume : Str;
  aj_match_count : Z;
  aj_timestamp_unix : Str
}.

Definition auction_summary_json (a : AuctionInfo) : AuctionJson :=
  mkAuctionJson (ai_auction_id a) (ai_pair a) (ai_clearing_price a) (ai_matched_volume a) (ai_match_count a) (print_dec (ai_timestamp_unix a)).

Record PairInfoJson := mkPairInfoJson {
  pj_pair : Str;
  pj_base_token : Str;
  pj_quote_token : Str;
  pj_min_order_size : Str;
  pj_tick_size : Str;
  pj_auction_interval_ms : option Z;
  pj_status : Str;
  pj_base_decimals : option Z;
  pj_quote_decimals : option Z
}.

Definition pair_info_json (p : PairInfo) : PairInfoJson :=
  let status := if pi_status p =? 1 then str "PAIR_STATUS_ACTIVE"
                else if pi_status p =? 2 then str "PAIR_STATUS_SUSPENDED"
                else if pi_status p =? 3 then str "PAIR_STATUS_DELISTED"
                else str "PAIR_STATUS_UNSPECIFIED" in
  mkPairInfoJson (pi_pair p) (pi_base_token p) (pi_quote_token p) (pi_min_order_size p) (pi_tick_size p) (pi_auction_interval_ms p) status
    (pi_base_decimals p) (pi_quote_decimals p).

(** The bodies of the responses. *)
Inductive Body :=
| BError (code : Code) (message : Str)
| BOrder (o : OrderInfoJson)
| BOrders (os : list OrderInfoJson)
| BAuctions (l : list AuctionJson)
| BStream (pair : Str) (task : Z)
| BPairs (ps : list PairInfoJson)
| BPair (p : PairInfoJson)
| BDelisted (cancelled_orders : Z)
| BEmpty
| BNoContent
| BKey (id status : Str)
| BKeys (ks : list (Str * Str))
| BNonce (nonce : Str)
| BSession (v : VerifyResponse)
| BHealth (st : Str) (failed : option Str)
| BMetrics (m : Str)
| BPubkey (pk : Str)
| BNoPubkey.

Record Response := mkResponse { rs_status : Z; rs_body : Body }.

Definition ok_response (b : Body) : Response := mkResponse 200 b.
Definition status_to_response (s : Status) : Response := mkResponse (http_status (st_code s)) (BError (st_code s) (st_message s)).
Definition respond {A} (f : A -> Body) (r : result A Status) : Response :=
  match r with Ok a => ok_response (f a) | Err s => status_to_response s end.

(** ** Key administration *)

Definition key_status_text (s : KeyStatus) : Str :=
  match s with KeyActive => str "active" | KeyRotating => str "rotating" | KeySunset => str "sunset" end.

Definition parse_status (s : option Str) : result KeyStatus Status :=
  match option_map (fun s => to_ascii_lowercase (Pair.trim s)) s with
  | None => Ok KeyRotating
  | Some s =>
    if bool_decide (s = str "active") then Ok KeyActive
    else if bool_decide (s = str "rotating") || bool_decide (s = []) then Ok KeyRotating
    else if bool_decide (s = str "sunset") then Ok KeySunset
    else Err (invalid_argument (str "invalid status: " ++ s ++ str " (expected active|rotating|sunset)"))
  end.

Definition key_admin_err (e : AdminKeyError) : Status :=
  match e with
  | AdminInvalid m => invalid_argument m
  | AdminNotFound m => not_found m
  | AdminResolve m => failed_precondition m
  end.

(** ** Probes *)

(** The probes in their order, each with the outcome of its check. *)
Fixpoint probes_check (probes : list (Str * result unit Str)) : result unit (Str * Str) :=
  match probes with
  | [] => Ok tt
  | (name, r) :: probes' => match r with Ok _ => probes_check probes' | Err reason => Err (name, reason) end
  end.

Definition rest_readyz (probes : list (Str * result unit Str)) : Response :=
  match probes_check probes with
  | Ok _ => ok_response (BHealth (str "ready") None)
  | Err (name, _) => mkResponse 503 (BHealth (str "not_ready") (Some name))
  end.

(** ** The server *)

Section server.
Context {D F St N : Type} `{DO : !DecimalOps D, FO : !FieldOps F, PO : !Poseidon F, STO : !StoreOps D St, SH : !Sha256, HO : !HexOps, AO : !AddressOps,
  UO : !UuidOps, DP : !DecimalParse D, JO : !JwtOps, SO : !SiweOps, EO : !EciesOps, OJ : !OrderJson D, NO : !IpNetOps N} {HI : HashIter}.

(** The display of the errors that carry those of other crates. *)
Context (text : EngineError D -> Str) (crypto_text : CryptoError -> Str).

Record Server := mkServer {
  sv_engine : Engine D St;
  sv_keys : list (@KeyEntry D);
  sv_nonces : NonceInner;
  sv_limiter : Limiter;
  sv_sse : Sse
}.

Record ServerConfig := mkServerConfig {
  sc_auth : AuthCore;
  sc_admin_auth : AuthCore;
  sc_trusted : list N;
  sc_siwe : option SiweState;
  sc_sse_streams_per_key : Z
}.

(** What one request finds outside: the two clocks, what is drawn at random,
    what the chain, the store and the key files answer, and the states that its
    earlier pieces saw. *)
Record ServeEnv := mkServeEnv {
  en_now : DateTime;
  en_mono : Z;
  en_store : StoreEnv;
  en_lookup : Address -> Address -> Z -> result (D * Z) SettlementError;
  en_verifier : option (bytes -> OrderProofPublics F -> bool);
  en_new_id : Uuid;
  en_nonce : Str;
  en_task : Z;
  en_keys : list (@KeyEntry D);
  en_key_env : KeyEnv;
  en_seen : EngineState D;
  en_cfg : EngineState D;
  en_check : Engine D St;
  en_probes : list (Str * result unit Str);
  en_metrics : Str
}.

Definition place_env (env : ServeEnv) : PlaceEnv D F :=
  mkPlaceEnv (multi_decrypt (en_keys env)) (en_lookup env) (en_verifier env) (en_now env) (en_new_id env).

Definition set_engine (s : Server) (e : Engine D St) : Server := mkServer e (sv_keys s) (sv_nonces s) (sv_limiter s) (sv_sse s).
Definition set_keys (s : Server) (k : list (@KeyEntry D)) : Server := mkServer (sv_engine s) k (sv_nonces s) (sv_limiter s) (sv_sse s).
Definition set_nonces (s : Server) (n : NonceInner) : Server := mkServer (sv_engine s) (sv_keys s) n (sv_limiter s) (sv_sse s).
Definition set_limiter (s : Server) (l : Limiter) : Server := mkServer (sv_engine s) (sv_keys s) (sv_nonces s) l (sv_sse s).
Definition set_sse (s : Server) (l : Sse) : Server := mkServer (sv_engine s) (sv_keys s) (sv_nonces s) (sv_limiter s) l.

(** The stream is opened once a permit is acquired. *)
Definition rest_stream_auctions (cfg : ServerConfig) (env : ServeEnv) (identity : AuthenticatedIdentity) (rq : Request) (pair : Str) (s : Server) :
    Server * Response :=
  match (if bool_decide (pair = []) then Ok [] else validate_pair_known (sv_engine s) pair) with
  | Err st => (s, status_to_response st)
  | Ok canonical =>
    let key := client_key (Some identity) (rq_headers rq) (rq_peer rq) (sc_trusted cfg) in
    let '(l, t) := acquire_begin (sc_sse_streams_per_key cfg) (en_task env) key (sv_sse s) in
    let '(l', ok) := acquire_end (en_task env) t l in
    (set_sse s l', if ok then ok_response (BStream canonical (en_task env))
                   else status_to_response (resource_exhausted (str "too many open auction streams for client key")))
  end.

Definition serve_public (cfg : ServerConfig) (env : ServeEnv) (identity : AuthenticatedIdentity) (rq : Request) (r : PublicRoute) (s : Server) :
    outcome (Server * Response) :=
  let e := sv_engine s in
  let id := Some identity in
  match r with
  | RPlaceOrder req =>
    '(e', r) ← place_order text (place_env env) (en_store env) (en_seen env) (en_cfg env) id req e;
    Ret (set_engine s e', respond (fun o => BOrder (order_info_json o)) r)
  | RCancelOrder order_id reason =>
    '(e', r) ← api_cancel_order text (en_store env) (en_now env) (en_check env) id order_id reason e;
    Ret (set_engine s e', respond (fun _ => BEmpty) r)
  | RGetOrder order_id => Ret (s, respond (fun o => BOrder (order_info_json o)) (api_get_order e id order_id))
  | RListOrders pr => Ret (s, respond (fun os => BOrders (map order_info_json os)) (list_orders e id pr))
  | RAuctionHistory pr limit => Ret (s, respond (fun l => BAuctions (map auction_summary_json l)) (api_get_auction_history e pr limit))
  | RStreamAuctions pr => Ret (rest_stream_auctions cfg env identity rq pr s)
  | RListPairs => Ret (s, ok_response (BPairs (map pair_info_json (api_list_pairs e))))
  end.

Definition rest_register_key (env : ServeEnv) (id uri : Str) (status : option Str) (s : Server) : Server * Response :=
  let id := Pair.trim id in
  let uri := Pair.trim uri in
  if bool_decide (id = []) then (s, status_to_response (key_admin_err (AdminInvalid (str "id is required"))))
  else if bool_decide (uri = []) then (s, status_to_response (key_admin_err (AdminInvalid (str "uri is required"))))
  else
    match parse_status status with
    | Err st => (s, status_to_response st)
    | Ok st =>
      let '(keys, r) := key_upsert crypto_text (en_key_env env) id uri st (sv_keys s) in
      (set_keys s keys, match r with
                        | Ok _ => ok_response (BKey id (key_status_text st))
                        | Err e => status_to_response (key_admin_err e)
                        end)
    end.

Definition rest_delete_key (key_id : Str) (s : Server) : Server * Response :=
  let '(keys, found) := keys_remove key_id (sv_keys s) in
  (set_keys s keys, if found then mkResponse 204 BNoContent else status_to_response (key_admin_err (AdminNotFound key_id))).

Definition rest_sunset_key (key_id : Str) (s : Server) : Server * Response :=
  let '(keys, found) := keys_set_status key_id KeySunset (sv_keys s) in
  (set_keys s keys, if found then ok_response (BKey key_id (key_status_text KeySunset))
                    else status_to_response (key_admin_err (AdminNotFound key_id))).

Definition serve_admin (env : ServeEnv) (r : AdminRoute) (s : Server) : outcome (Server * Response) :=
  let e := sv_engine s in
  match r with
  | RRegisterPair req =>
    let '(e', r) := api_register_pair text (en_store env) (en_now env) req e in
    Ret (set_engine s e', respond (fun p => BPair (pair_info_json p)) r)
  | RSuspendPair pr =>
    let '(e', r) := api_suspend_pair text (en_store env) (en_now env) pr e in
    Ret (set_engine s e', respond (fun _ => BEmpty) r)
  | RDelistPair pr =>
    '(e', r) ← api_delist_pair text (en_store env) (en_now env) pr e;
    Ret (set_engine s e', respond BDelisted r)
  | RListPairsAdmin => Ret (s, ok_response (BPairs (map pair_info_json (list_pairs_admin e))))
  | RRegisterKey id uri status => Ret (rest_register_key env id uri status s)
  | RListKeys => Ret (s, ok_response (BKeys (map (fun k => (k.1, key_status_text k.2)) (keys_list (sv_keys s)))))
  | RDeleteKey key_id => Ret (rest_delete_key key_id s)
  | RSunsetKey key_id => Ret (rest_sunset_key key_id s)
  end.

Definition rest_operator_pubkey (s : Server) : Response :=
  match active_public_key_hex (sv_keys s) with
  | Some pk => ok_response (BPubkey pk)
  | None => mkResponse 503 BNoPubkey
  end.

(** ** Layers *)

(** [auth_axum_mw]. *)
Definition authenticated (auth : AuthCore) (env : ServeEnv) (rq : Request) (s : Server)
    (next : AuthenticatedIdentity -> Server -> outcome (Server * Response)) : outcome (Server * Response) :=
  match auth_check auth (en_now env) (rq_headers rq) with
  | Ok identity => next identity s
  | Err st => Ret (s, status_to_response st)
  end.

(** [ratelimit_axum_mw] and [ratelimit_ip_axum_mw] on their keys. *)
Definition limited (env : ServeEnv) (key : Str) (s : Server) (next : Server -> outcome (Server * Response)) : outcome (Server * Response) :=
  let '(l, ok) := allow (en_mono env) key (sv_limiter s) in
  let s := set_limiter s l in
  if ok then next s else Ret (s, status_to_response (resource_exhausted MSG_RATE_LIMIT_EXCEEDED)).

Definition no_route : Response := mkResponse 404 BEmpty.

Definition serve (cfg : ServerConfig) (env : ServeEnv) (rq : Request) (s : Server) : outcome (Server * Response) :=
  let by_identity auth next :=
    authenticated auth env rq s (fun identity s =>
      limited env (client_key (Some identity) (rq_headers rq) (rq_peer rq) (sc_trusted cfg)) s (next identity)) in
  let ip_key := ip_client_key (sc_trusted cfg) (rq_headers rq) (rq_peer rq) in
  match rq_route rq with
  | Public r => by_identity (sc_auth cfg) (fun identity s => serve_public cfg env identity rq r s)
  | Admin r => by_identity (sc_admin_auth cfg) (fun _ s => serve_admin env r s)
  | AuthNonce =>
    match sc_siwe cfg with
    | None => Ret (s, no_route)
    | Some st =>
      limited env ip_key s (fun s =>
        let '(i, r) := rest_auth_nonce (en_mono env) (en_nonce env) (Some ip_key) (sv_nonces s) in
        Ret (set_nonces s i, respond BNonce r))
    end
  | AuthVerify message signature =>
    match sc_siwe cfg with
    | None => Ret (s, no_route)
    | Some st =>
      limited env ip_key s (fun s =>
        let '(i, r) := rest_auth_verify st (en_now env) (en_mono env) message signature (sv_nonces s) in
        Ret (set_nonces s i, respond BSession r))
    end
  | Healthz => Ret (s, ok_response (BHealth (str "ok") None))
  | Readyz => Ret (s, rest_readyz (en_probes env))
  | MetricsPage => limited env ip_key s (fun s => Ret (s, ok_response (BMetrics (en_metrics env))))
  | OperatorPubkey => limited env ip_key s (fun s => Ret (s, rest_operator_pubkey s))
  end.
End server.
