(* ===== verification/ApiSafety.v ===== *)
(** * API: who can do what

    The engine behind the server.  The effect of a request on the resting
    orders, the registry and the keys is bounded by the identity it
    authenticates with, and what a trader can read is a function of the
    trader's own orders.  The handler of a cancellation checks the owner and
    cancels in two separate pieces; what runs between them does not change
    owners. *)

From S2P Require Import Prelude Decimal Types Field Auction Events Book EngineState Engine Admission Witness Tick Batch Machine.
From S2P Require Import Text RateLimit Client Siwe Auth Keys Api Sse Server.
Open Scope Z_scope.

Section safety.
Context {D F St N : Type} `{DO : !DecimalOps D, DL : !DecimalLaws D, FO : !FieldOps F, FL : !FieldLaws F, PO : !Poseidon F,
  STO : !StoreOps D St, STL : !StoreLaws D St, SH : !Sha256, HO : !HexOps, AO : !AddressOps,
  UO : !UuidOps, DP : !DecimalParse D, JO : !JwtOps, SO : !SiweOps, EO : !EciesOps, OJ : !OrderJson D, NO : !IpNetOps N} {HI : HashIter}.
Context (text : EngineError D -> Str) (crypto_text : CryptoError -> Str).
Implicit Types (e : Engine D St) (o : Order D) (s : @Server D St) (m : gmap Uuid (Order D)).

Notation find e i := (Book.find_order (es_book (e_state e)) i).

(** ** Owners *)

(** The engine at the check and the engine at the cancellation: operations ran
    in between, and none drew an identifier that was in the book. *)
Definition checked_before e0 e : Prop :=
  exists ops, ok_run (F:=F) e0 ops /\ foldM (fun e op => exec (F:=F) op e) e0 ops = Ret e /\
    Forall (fun op => forall i, i ∈ placed_ids op -> find e0 i = None) ops.

Definition same_owner m0 m : Prop := forall i o0 o, m0 !! i = Some o0 -> m !! i = Some o -> o_trader o = o_trader o0.

(** Once gone from the book, an order is never back. *)
Lemma run_same_owner ops m0 : forall e m e',
  engine_inv (F:=F) e m -> same_owner m0 m -> ok_run (F:=F) e ops -> foldM (fun e op => exec (F:=F) op e) e ops = Ret e' ->
  Forall (fun op => forall i, i ∈ placed_ids op -> m0 !! i = None) ops ->
  exists m', engine_inv (F:=F) e' m' /\ same_owner m0 m'.
Proof.
  induction ops as [|op ops IH]; intros e m e' Hinv Hown Hrun Hf Hid; simpl in Hf; [injection Hf as <-; eauto|].
  destruct Hrun as (Hr & Hok & Hrun). inversion Hid as [|? ? Hop Hids]; subst.
  destruct (exec_effect op e m Hinv Hr Hok) as (e1 & m1 & He & Hinv1 & Hinh). rewrite He in Hf, Hrun. simpl in Hf.
  apply (IH e1 m1 e' Hinv1); [|done..]. intros i o0 o1 H0 H1.
  destruct (Hinh i o1 H1) as [Hin|(o & Ho & ->)]; [apply Hop in Hin; congruence|by apply (Hown i)].
Qed.

Lemma checked_owner e0 e i o0 o :
  reachable (F:=F) e0 -> checked_before e0 e -> find e0 i = Some o0 -> find e i = Some o -> o_trader o = o_trader o0.
Proof.
  intros (m0 & Hinv)%reachable_inv (ops & Hrun & Hf & Hid). rewrite (find_order_lookup _ m0) by apply Hinv.
  assert (Hself : same_owner m0 m0) by (intros j a b Ha Hb; congruence).
  destruct (run_same_owner ops m0 e0 m0 e Hinv Hself Hrun Hf) as (m & Hinv' & Hown).
  { eapply Forall_impl; [exact Hid|]. simpl. intros op Hop j Hj. rewrite <- (find_order_lookup _ m0) by apply Hinv. auto. }
  rewrite (find_order_lookup _ m) by apply Hinv'. apply Hown.
Qed.

Lemma checked_reachable e0 e : reachable (F:=F) e0 -> checked_before e0 e -> reachable (F:=F) e.
Proof. intros Hr (ops & Hrun & Hf & _). eapply steps_trans; [exact Hr|]. by eapply ok_run_steps. Qed.

(** ** The effect of a request *)

Section effect.
Context (cfg : @ServerConfig N) (env : @ServeEnv D F St) (rq : Request).

(** What the identity of a request allows. *)
Definition as_wallet (a : Address) : Prop := auth_check (sc_auth cfg) (en_now env) (rq_headers rq) = Ok (Wallet a).
Definition as_operator : Prop := exists id, auth_check (sc_admin_auth cfg) (en_now env) (rq_headers rq) = Ok id.

Definition may_remove (i : Uuid) o : Prop :=
  (exists order_id reason, rq_route rq = Public (RCancelOrder order_id reason) /\ uuid_parse order_id = Ok i /\ as_wallet (o_trader o)) \/
  (exists pr, rq_route rq = Admin (RDelistPair pr) /\ Pair.parse pr = Ok (o_pair o) /\ as_operator).

Definition may_place o : Prop := exists req, rq_route rq = Public (RPlaceOrder req) /\ as_wallet (o_trader o).

Definition may_administer : Prop := exists r, rq_route rq = Admin r /\ as_operator.

Record api_effect s s' : Prop := {
  ae_lost : forall i o, find (sv_engine s) i = Some o -> find (sv_engine s') i = Some o \/ (find (sv_engine s') i = None /\ may_remove i o);
  ae_gained : forall i o, find (sv_engine s') i = Some o -> find (sv_engine s) i = Some o \/ (find (sv_engine s) i = None /\ may_place o);
  ae_pairs : es_pair_tokens (e_state (sv_engine s')) = es_pair_tokens (e_state (sv_engine s)) \/ may_administer;
  ae_keys : sv_keys s' = sv_keys s \/ may_administer
}.

Lemma effect_frame s s' :
  (forall i, find (sv_engine s') i = find (sv_engine s) i) ->
  (es_pair_tokens (e_state (sv_engine s')) = es_pair_tokens (e_state (sv_engine s)) \/ may_administer) ->
  (sv_keys s' = sv_keys s \/ may_administer) -> api_effect s s'.
Proof. intros Hf Hp Hk. split; [| |done..]; intros i o; rewrite Hf; auto. Qed.

Lemma effect_same s s' : sv_engine s' = sv_engine s -> sv_keys s' = sv_keys s -> api_effect s s'.
Proof. intros He Hk. apply effect_frame; [by rewrite He|left; by rewrite He|by left]. Qed.

(** Only the engine and the keys matter, not the counters of the layers. *)
Lemma effect_counters s0 s s' : sv_engine s = sv_engine s0 -> sv_keys s = sv_keys s0 -> api_effect s s' -> api_effect s0 s'.
Proof. intros He Hk [H1 H2 H3 H4]. rewrite He in H1, H2, H3. rewrite Hk in H4. by split. Qed.

Local Ltac untouched := do 2 eexists; split_and!; [done|by apply effect_same|done..].

Lemma place_effect s req a :
  rq_route rq = Public (RPlaceOrder req) -> as_wallet a -> reachable (F:=F) (sv_engine s) -> room (sv_engine s) ->
  find (sv_engine s) (en_new_id env) = None ->
  exists e' r, place_order text (place_env env) (en_store env) (en_seen env) (en_cfg env) (Some (Wallet a)) req (sv_engine s) = Ret (e', r) /\
    api_effect s (set_engine s e').
Proof.
  intros Hrt Ha (m & Hinv)%reachable_inv Hr Hid. unfold place_order. cbn [required_wallet_address caller_address].
  destruct (validate_place_order req); [|untouched].
  rewrite (find_order_lookup _ m) in Hid by apply Hinv.
  destruct (inv_place (place_env env) (en_store env) (en_seen env) (en_cfg env) (sv_engine s) m (po_proof req) (po_encrypted_payload req) a
    Hinv Hr Hid) as (e' & r & m' & -> & Hinv' & Hpl). simpl. do 2 eexists. split; [done|].
  assert (Hf : forall i, find (sv_engine s) i = m !! i) by (intros; apply find_order_lookup, Hinv).
  assert (Hf' : forall i, find e' i = m' !! i) by (intros; apply find_order_lookup, Hinv').
  destruct r as [o|err].
  - destruct Hpl as (p & d & key & c & salt & nonce & sq & Hacc & -> & (_ & -> & _ & _ & _ & book & Hst)).
    assert (o_id (p_order p) = en_new_id env /\ o_trader (p_order p) = a) as [Hoid Htr].
    { rewrite (ac_order _ _ _ _ _ _ _ _ _ _ _ Hacc). split; [done|]. apply (ac_trader _ _ _ _ _ _ _ _ _ _ _ Hacc). }
    rewrite Hoid in Hf'. split; cbn [sv_engine set_engine sv_keys]; [..|left; by rewrite Hst|by left]; intros i o; rewrite Hf, Hf'.
    + intros Ho. left. rewrite lookup_insert_ne; [done|]. intros <-. change (pe_new_id (place_env env)) with (en_new_id env) in Hid. congruence.
    + intros [[<- <-]|[_ Ho]]%lookup_insert_Some; [|by left]. right. split; [done|]. exists req. simpl. by rewrite Htr.
  - destruct Hpl as (-> & Hst & _). apply effect_frame; cbn [sv_engine set_engine sv_keys]; [|left; by rewrite Hst|by left].
    intros i. by rewrite Hf, Hf'.
Qed.

Lemma cancel_effect s order_id reason identity :
  rq_route rq = Public (RCancelOrder order_id reason) -> auth_check (sc_auth cfg) (en_now env) (rq_headers rq) = Ok identity ->
  reachable (F:=F) (en_check env) -> checked_before (en_check env) (sv_engine s) -> room (sv_engine s) ->
  exists e' r, api_cancel_order text (en_store env) (en_now env) (en_check env) (Some identity) order_id reason (sv_engine s) = Ret (e', r) /\
    api_effect s (set_engine s e').
Proof.
  intros Hrt Hauth Hreach Hchk Hr. unfold api_cancel_order, parse_uuid.
  destruct (uuid_parse order_id) as [i|] eqn:Hu; [|untouched].
  unfold owned_order, get_order. destruct (find (en_check env) i) as [o0|] eqn:Ho0; [|untouched].
  case_bool_decide as Hcall; [|untouched].
  destruct identity as [|a]; [done|]. injection Hcall as Ha.
  destruct (reachable_inv _ (checked_reachable _ _ Hreach Hchk)) as (m & Hinv).
  destruct (inv_cancel (en_store env) (en_now env) (sv_engine s) m i (if bool_decide (reason = []) then None else Some reason) Hinv Hr)
    as (e' & r & m' & Heq & Hinv' & _ & Hres).
  rewrite Heq. simpl. do 2 eexists. split; [done|].
  assert (Hf : forall j, find (sv_engine s) j = m !! j) by (intros; apply find_order_lookup, Hinv).
  assert (Hf' : forall j, find e' j = m' !! j) by (intros; apply find_order_lookup, Hinv').
  assert (Hp : es_pair_tokens (e_state e') = es_pair_tokens (e_state (sv_engine s))).
  { revert Heq. unfold cancel_order. cbv zeta. destruct (negb _); [by intros [= <- _]|].
    destruct (st_append _ _ _) as [st [evs|]]; [|by intros [= <- _]].
    by intros (ev & _ & (book & _ & [= <- _])%outcome_bind_Ret)%outcome_bind_Ret. }
  destruct r as [u|err].
  - destruct Hres as (_ & -> & _). split; cbn [sv_engine set_engine sv_keys]; [..|by left|by left]; intros j o; rewrite Hf, Hf'.
    + intros Ho. destruct (decide (i = j)) as [<-|Hne]; [|left; by rewrite lookup_delete_ne].
      right. rewrite lookup_delete_eq. split; [done|]. left. exists order_id, reason. split_and!; [done..|]. unfold as_wallet.
      rewrite Hauth. do 2 f_equal. rewrite Ha. symmetry. eapply checked_owner; [done..|]. by rewrite Hf.
    + intros [_ Ho]%lookup_delete_Some. by left.
  - destruct Hres as [-> _]. apply effect_frame; cbn [sv_engine set_engine sv_keys]; [|by left|by left]. intros j. by rewrite Hf, Hf'.
Qed.

(** A delisting that fails leaves the state as it is. *)
Lemma delist_err senv now e pr e' err : delist_pair senv now e pr = Ret (e', Err err) -> e_state e' = e_state e.
Proof.
  unfold delist_pair. destruct (Pair.parse pr) as [key|]; [|by intros [= <- _]].
  destruct (es_pair_tokens (e_state e) !! key) as [c|]; [|by intros [= <- _]].
  assert (delist_open senv now e key c = Ret (e', Err err) -> e_state e' = e_state e); [|by destruct (status c)].
  unfold delist_open. cbv zeta. destruct (st_append _ _ _) as [st [evs|]]; [|by intros [= <- _]].
  by intros (book & _ & [=])%outcome_bind_Ret.
Qed.

Lemma delist_effect s pr :
  rq_route rq = Admin (RDelistPair pr) -> as_operator -> reachable (F:=F) (sv_engine s) -> room (sv_engine s) ->
  exists e' r, api_delist_pair text (en_store env) (en_now env) pr (sv_engine s) = Ret (e', r) /\ api_effect s (set_engine s e').
Proof.
  intros Hrt Hop (m & Hinv)%reachable_inv Hr. unfold api_delist_pair. case_bool_decide; [untouched|].
  destruct (inv_delist (en_store env) (en_now env) (sv_engine s) m pr Hinv Hr) as (e' & r & m' & Heq & Hinv' & _ & Hdel).
  rewrite Heq. simpl. do 2 eexists. split; [done|].
  assert (Hadm : may_administer) by (by exists (RDelistPair pr)).
  destruct r as [n|err].
  2: { apply effect_frame; cbn [sv_engine set_engine sv_keys]; [|by right|by left]. intros i. by rewrite (delist_err _ _ _ _ _ _ Heq). }
  assert (exists key, Pair.parse pr = Ok key) as (key & Hkey).
  { revert Heq. unfold delist_pair. destruct (Pair.parse pr); [eauto|done]. }
  destruct (Hdel n key eq_refl Hkey) as [_ Hm'].
  assert (Hf : forall i, find (sv_engine s) i = m !! i) by (intros; apply find_order_lookup, Hinv).
  assert (Hf' : forall i, find e' i = m' !! i) by (intros; apply find_order_lookup, Hinv').
  split; cbn [sv_engine set_engine sv_keys]; [..|by right|by right]; intros i o; rewrite Hf, Hf'.
  - intros Ho. destruct (m' !! i) as [o'|] eqn:Ho'.
    + apply Hm' in Ho' as [Ho' _]. left. congruence.
    + right. split; [done|]. right. exists pr. split_and!; [done| |done].
      destruct (decide (o_pair o = key)) as [->|Hne]; [done|]. rewrite (proj2 (Hm' i o)) in Ho'; done.
  - intros [? _]%Hm'. by left.
Qed.

Lemma public_effect s identity r :
  rq_route rq = Public r -> auth_check (sc_auth cfg) (en_now env) (rq_headers rq) = Ok identity ->
  reachable (F:=F) (en_check env) -> checked_before (en_check env) (sv_engine s) -> room (sv_engine s) ->
  find (sv_engine s) (en_new_id env) = None ->
  exists s' resp, serve_public text cfg env identity rq r s = Ret (s', resp) /\ api_effect s s'.
Proof.
  intros Hrt Hauth Hreach Hchk Hr Hid. pose proof (checked_reachable _ _ Hreach Hchk) as Hre.
  destruct r; cbn [serve_public]; try (untouched).
  - destruct identity as [|a]; [untouched|].
    destruct (place_effect s req a Hrt Hauth Hre Hr Hid) as (e' & res & -> & He). simpl. eauto.
  - destruct (cancel_effect s order_id reason identity Hrt Hauth Hreach Hchk Hr) as (e' & res & -> & He). simpl. eauto.
  - unfold rest_stream_auctions. destruct (if bool_decide _ then _ else _); [|untouched].
    destruct (acquire_begin _ _ _ _) as [l t]. destruct (acquire_end _ t l). untouched.
Qed.

Lemma admin_effect s r :
  rq_route rq = Admin r -> as_operator -> reachable (F:=F) (sv_engine s) -> room (sv_engine s) ->
  exists s' resp, serve_admin text crypto_text env r s = Ret (s', resp) /\ api_effect s s'.
Proof.
  intros Hrt Hop Hre Hr. assert (Hadm : may_administer) by (by exists r).
  assert (Hkeys : forall keys, api_effect s (set_keys s keys)) by (intros; apply effect_frame; [done|by left|by right]).
  assert (Hbook : forall e', es_book (e_state e') = es_book (e_state (sv_engine s)) -> api_effect s (set_engine s e')).
  { intros e' He. apply effect_frame; [|by right|by left]. intros i. cbn [sv_engine set_engine]. by rewrite He. }
  destruct r; cbn [serve_admin]; try (untouched).
  - unfold api_register_pair. destruct (requested_config req) as [c|]; [|untouched].
    destruct (register_pair_with_event _ _ _ _ _) as [e' res] eqn:He. do 2 eexists. split; [done|]. apply Hbook. revert He.
    unfold register_pair_with_event. repeat case_match; by intros [= <- _].
  - unfold api_suspend_pair. case_bool_decide; [untouched|].
    destruct (suspend_pair _ _ _ _) as [e' res] eqn:He. do 2 eexists. split; [done|]. apply Hbook. revert He.
    unfold suspend_pair. repeat case_match; by intros [= <- _].
  - destruct (delist_effect s pair Hrt Hop Hre Hr) as (e' & res & -> & He). simpl. eauto.
  - unfold rest_register_key. repeat (case_bool_decide; [untouched|]).
    destruct (parse_status status); [|untouched]. destruct (key_upsert _ _ _ _ _ _). eauto.
  - unfold rest_delete_key. destruct (keys_remove _ _). eauto.
  - unfold rest_sunset_key. destruct (keys_set_status _ _ _). eauto.
Qed.

(** Requests without an identity. *)
Lemma limited_effect s key next :
  (forall s1, sv_engine s1 = sv_engine s -> sv_keys s1 = sv_keys s -> exists s' resp, next s1 = Ret (s', resp) /\ api_effect s1 s') ->
  exists s' resp, limited (F:=F) env key s next = Ret (s', resp) /\ api_effect s s'.
Proof.
  intros Hnext. unfold limited. destruct (allow _ _ _) as [l ok]. destruct ok.
  - destruct (Hnext (set_limiter s l)) as (s' & resp & -> & He); [done..|]. do 2 eexists. split; [done|]. by eapply effect_counters; [..|exact He].
  - do 2 eexists. split; [done|]. by apply effect_same.
Qed.
End effect.

Lemma auth_check_err a now h st : auth_check a now h = Err st -> st_code st = Unauthenticated.
Proof. unfold auth_check, check_bearer, check_api_key. repeat case_match; by intros [= <-]. Qed.

Local Ltac untouched := do 2 eexists; split_and!; [done|by apply effect_same|done..].

(** C26: the authority of a request is the identity it proves.  Whatever the
    request, the state it meets and the tasks that run between its pieces, the
    server answers without a panic, and: an order leaves the book only by a
    request of its own trader or by a delisting of its pair by the operator; an
    order enters it only by a request of the trader it belongs to; the registry
    of pairs and the decryption keys change only by a request that passed the
    check of the operator's keys.  A request to the administration that does not
    pass it changes nothing and is answered 401. *)
Theorem api_authority cfg env rq s :
  reachable (F:=F) (en_check env) -> checked_before (en_check env) (sv_engine s) -> room (sv_engine s) ->
  find (sv_engine s) (en_new_id env) = None ->
  exists s' resp, serve (N:=N) (F:=F) text crypto_text cfg env rq s = Ret (s', resp) /\ api_effect cfg env rq s s' /\
    (forall r, rq_route rq = Admin r -> ~ as_operator cfg env rq -> s' = s /\ rs_status resp = 401).
Proof.
  intros Hreach Hchk Hr Hid. unfold serve.
  destruct (rq_route rq) as [r|r| |message signature| | | |] eqn:Hrt.
  - unfold authenticated. destruct (auth_check _ _ _) as [identity|st] eqn:Ha; [|untouched].
    edestruct limited_effect as (s' & resp & Heq & He); [|do 2 eexists; split_and!; [exact Heq|exact He|done]].
    intros s1 H1 H2. eapply public_effect; try done; by rewrite H1.
  - unfold authenticated. destruct (auth_check _ _ _) as [identity|st] eqn:Ha.
    + edestruct limited_effect as (s' & resp & Heq & He); [|do 2 eexists; split_and!; [exact Heq|exact He|]].
      * intros s1 H1 H2. eapply admin_effect; [done|by exists identity| |by rewrite H1]. rewrite H1. by eapply checked_reachable.
      * intros r0 _ Hno. destruct Hno. by exists identity.
    + do 2 eexists. split_and!; [done|by apply effect_same|]. intros r0 _ _. split; [done|].
      unfold status_to_response. cbn [rs_status]. by rewrite (auth_check_err _ _ _ _ Ha).
  - destruct (sc_siwe cfg); [|untouched].
    edestruct limited_effect as (s' & resp & Heq & He); [|do 2 eexists; split_and!; [exact Heq|exact He|done]].
    intros s1 H1 H2. cbv beta. destruct (rest_auth_nonce _ _ _ _). untouched.
  - destruct (sc_siwe cfg); [|untouched].
    edestruct limited_effect as (s' & resp & Heq & He); [|do 2 eexists; split_and!; [exact Heq|exact He|done]].
    intros s1 H1 H2. cbv beta. destruct (rest_auth_verify _ _ _ _ _ _). untouched.
  - untouched.
  - untouched.
  - edestruct limited_effect as (s' & resp & Heq & He); [|do 2 eexists; split_and!; [exact Heq|exact He|done]].
    intros s1 H1 H2. untouched.
  - edestruct limited_effect as (s' & resp & Heq & He); [|do 2 eexists; split_and!; [exact Heq|exact He|done]].
    intros s1 H1 H2. untouched.
Qed.

(** ** What a trader can read *)

(** The orders of [a], as a list. *)
Lemma orders_by_trader_perm e m a :
  engine_inv (F:=F) e m -> orders_by_trader e a ≡ₚ List.filter (fun o => bool_decide (o_trader o = a)) (orders_of m).
Proof.
  intros Hinv. unfold orders_by_trader. rewrite sort_by_perm. apply filter_bool_perm, iter_all_perm, Hinv.
Qed.

(** Two engines that show [a] the same. *)
Record same_view (a : Address) e1 e2 : Prop := {
  sv_registry : es_pair_tokens (e_state e1) = es_pair_tokens (e_state e2);
  sv_own : forall i o, o_trader o = a -> (find e1 i = Some o <-> find e2 i = Some o)
}.

Lemma owned_order_view a e1 e2 i : same_view a e1 e2 -> owned_order e1 (Some a) i = owned_order e2 (Some a) i.
Proof.
  intros [_ Hv]. unfold owned_order, get_order.
  assert (Hone : forall e1 e2 : Engine D St, (forall i o, o_trader o = a -> (find e1 i = Some o -> find e2 i = Some o)) ->
    forall o, owned_order e1 (Some a) i = Some o -> owned_order e2 (Some a) i = Some o).
  { clear. intros e1 e2 Hv o. unfold owned_order, get_order. destruct (find e1 i) as [o1|] eqn:H1; [|done].
    case_bool_decide as Ht; [|done]. intros [= ->]. injection Ht as Ht. rewrite (Hv i o (eq_sym Ht) H1). by rewrite bool_decide_true by congruence. }
  apply option_eq. intros o. split; apply Hone; intros j x Hx; apply (Hv j x Hx).
Qed.

Lemma own_orders_perm a e1 e2 :
  reachable (F:=F) e1 -> reachable (F:=F) e2 -> same_view a e1 e2 -> orders_by_trader e1 a ≡ₚ orders_by_trader e2 a.
Proof.
  intros (m1 & H1)%reachable_inv (m2 & H2)%reachable_inv [_ Hv].
  rewrite (orders_by_trader_perm _ m1 a H1), (orders_by_trader_perm _ m2 a H2).
  assert (Hnd : forall e m, engine_inv (F:=F) e m -> NoDup (List.filter (fun o => bool_decide (o_trader o = a)) (orders_of m))).
  { intros e m Hinv. apply NoDup_filter_bool. eapply NoDup_map_1, NoDup_orders_of, (ei_book _ _ Hinv). }
  apply NoDup_Permutation; [by apply (Hnd e1)|by apply (Hnd e2)|].
  intros o. rewrite !elem_of_list_filter_bool, (elem_of_orders_of _ _ _ (ei_book _ _ H1)), (elem_of_orders_of _ _ _ (ei_book _ _ H2)).
  assert (forall e m, engine_inv (F:=F) e m -> forall i, find e i = m !! i) as Hf.
  { intros e m Hinv i. apply find_order_lookup, Hinv. }
  split; intros [Hm Ht]; (split; [|done]); apply bool_decide_eq_true in Ht.
  - rewrite <- (Hf _ _ H2). apply Hv; [done|]. by rewrite (Hf _ _ H1).
  - rewrite <- (Hf _ _ H1). apply Hv; [done|]. by rewrite (Hf _ _ H2).
Qed.

Definition same_answer (r1 r2 : result (list OrderInfo) Status) : Prop :=
  match r1, r2 with Ok l1, Ok l2 => l1 ≡ₚ l2 | Err s1, Err s2 => s1 = s2 | _, _ => False end.

(** C27: no trader learns of another's orders by asking for orders.  In two engines
    with the same registry in which the orders of [a] are the same, and the
    orders of the others arbitrary, [a] gets the same answer for every
    identifier, is allowed the same cancellations, and gets the same orders
    listed under every filter, namely exactly the orders of [a].  The
    identity of an API key sees no orders at all. *)
Theorem reads_reveal_own a e1 e2 :
  reachable (F:=F) e1 -> reachable (F:=F) e2 -> same_view a e1 e2 ->
  (forall order_id, api_get_order e1 (Some (Wallet a)) order_id = api_get_order e2 (Some (Wallet a)) order_id) /\
  (forall i, owned_order e1 (Some a) i = owned_order e2 (Some a) i) /\
  (forall pr, same_answer (list_orders e1 (Some (Wallet a)) pr) (list_orders e2 (Some (Wallet a)) pr)) /\
  (forall l oi, list_orders e1 (Some (Wallet a)) [] = Ok l -> (oi ∈ l <-> exists i o, find e1 i = Some o /\ o_trader o = a /\ oi = order_to_proto o)) /\
  (forall pr order_id i, list_orders e1 (Some ApiKey) pr = Ok [] /\ owned_order e1 (caller_address (Some ApiKey)) i = None /\
    api_get_order e1 (Some ApiKey) order_id = api_get_order e2 (Some ApiKey) order_id).
Proof.
  intros Hr1 Hr2 Hv. assert (Hown : forall i, owned_order e1 (Some a) i = owned_order e2 (Some a) i) by (intros; by apply owned_order_view).
  assert (Hnone : forall e i, owned_order e (caller_address (Some ApiKey)) i = None)
    by (intros e i; unfold owned_order; destruct (get_order e i); [by rewrite bool_decide_false|done]).
  split_and!; [|done| | |].
  - intros order_id. unfold api_get_order. destruct (parse_uuid order_id); simpl; [|done]. by rewrite Hown.
  - intros pr. unfold list_orders. cbn [caller_address].
    assert (Hval : validate_pair_known e1 pr = validate_pair_known e2 pr).
    { unfold validate_pair_known, pair_status, pair_config. by rewrite (sv_registry _ _ _ Hv). }
    unfold pair_filter. case_bool_decide; simpl; rewrite ?Hval; [|destruct (validate_pair_known e2 pr); simpl; [|done]];
      apply Permutation_map, filter_bool_perm; by apply own_orders_perm.
  - intros l oi. unfold list_orders. cbn [caller_address]. unfold pair_filter. rewrite bool_decide_true by done. simpl. intros [= <-].
    destruct (reachable_inv _ Hr1) as (m & Hinv). rewrite list_elem_of_fmap.
    assert (Hf : forall i, find e1 i = m !! i) by (intros; apply find_order_lookup, Hinv). split.
    + intros (o & -> & [Ho _]%elem_of_list_filter_bool). rewrite (orders_by_trader_perm _ m a Hinv) in Ho.
      apply elem_of_list_filter_bool in Ho as [Ho Ht]. apply (elem_of_orders_of _ _ _ (ei_book _ _ Hinv)) in Ho.
      exists (o_id o), o. rewrite Hf. split_and!; [done|by apply bool_decide_eq_true in Ht|done].
    + intros (i & o & Ho & Ht & ->). exists o. split; [done|]. apply elem_of_list_filter_bool. split; [|done].
      rewrite (orders_by_trader_perm _ m a Hinv). apply elem_of_list_filter_bool. split; [|by apply bool_decide_eq_true].
      apply (elem_of_orders_of _ _ _ (ei_book _ _ Hinv)). rewrite Hf in Ho.
      by destruct (represents_located _ _ _ _ (ei_book _ _ Hinv) Ho) as (_ & _ & _ & ->).
  - intros pr order_id i. split_and!; [done|apply Hnone|]. unfold api_get_order. destruct (parse_uuid order_id); simpl; [|done]. by rewrite !Hnone.
Qed.
End safety.
