(* ===== verification/Boot.v ===== *)
(** * The server: configuration and start

    [config.rs] and [main.rs] of [dp-api]: the checks of the configuration, the
    parsing of the key list and the pair seed, and the sequence of [main] up to
    the listeners, which either fails before it serves or returns what was
    wired and recovered.  A failure is a constructor, in place of its message.  What the
    files, the databases, the chain client and the other crates answer is
    [BootEnv]. *)

From S2P Require Import Prelude Decimal Types Field Auction Events Book EngineState Engine Witness Tick Batch Circuit Folding.
From S2P Require Import FileStore Snapshot Recover Replay Recovery.
From S2P Require Import Text RateLimit Client Siwe Auth Keys Api Sse Server.
Open Scope Z_scope.

(** ** Configuration *)

(** Addresses of listeners are those of their interface; durations are
    nanoseconds; the two numbers of type [f64] are as in [F64]. *)
Record Config := mkConfig {
  cf_grpc_addr : IpAddr;
  cf_http_addr : IpAddr;
  cf_tls_cert : Str;
  cf_tls_key : Str;
  cf_tls_client_ca : Str;
  cf_insecure : bool;
  cf_auction_interval : Duration;
  cf_api_keys_raw : Str;
  cf_operator_api_keys_raw : Str;
  cf_allow_unauthenticated_admin : bool;
  cf_pair_seed_json : Str;
  cf_rate_limit : Z;
  cf_rate_burst : Z;
  cf_rate_stale_after : Duration;
  cf_request_timeout : Duration;
  cf_max_concurrent_requests : Z;
  cf_http2_max_concurrent_streams : Z;
  cf_sse_streams_per_key : Z;
  cf_trusted_proxies : Str;
  cf_event_log : Str;
  cf_event_db : Str;
  cf_snapshot_enabled : bool;
  cf_snapshot_dir : Str;
  cf_snapshot_key_uri : Str;
  cf_operator_key : Str;
  cf_operator_key_uris : Str;
  cf_signer_key_uri : Str;
  cf_aggregator_bin : Str;
  cf_aggregator_timeout : Duration;
  cf_zk_proving_key : Str;
  cf_order_proof_vk : Str;
  cf_allow_unverified_order_proofs : bool;
  cf_zk_batch_size : Z;
  cf_submit_timeout : Duration;
  cf_eth_rpc : Str;
  cf_settlement_private_rpc : Str;
  cf_allow_public_settlement : bool;
  cf_contract_addr : Str;
  cf_chain_id : Z;
  cf_submit_gas : Z;
  cf_siwe_enabled : bool;
  cf_session_secret_raw : Str;
  cf_session_ttl : Duration;
  cf_siwe_domain_raw : Str
}.

Definition opt (s : Str) : option Str := let t := Pair.trim s in if bool_decide (t = []) then None else Some t.

(** A list with commas, without its blanks. *)
Definition comma_list (s : Str) : list Str :=
  List.filter (fun p => negb (bool_decide (p = []))) (map Pair.trim (split_at (Z.eqb (char ",")) s)).

Definition api_keys (c : Config) : list Str := comma_list (cf_api_keys_raw c).
Definition operator_api_keys (c : Config) : list Str := comma_list (cf_operator_api_keys_raw c).

(** The messages of [config.rs] and [main.rs]. *)
Inductive BootError :=
| SessionSecretMissing
| SessionSecretTooShort
| AdminWouldBeOpen
| ZeroRequestTimeout
| ZeroConcurrentRequests
| ZeroHttp2Streams
| ZeroSseStreams
| PrivateRpcWithoutRpc
| PublicSettlement
| PlaintextExposed
| TlsKeyMissing
| TlsCertMissing
| TlsCaAlone
| StoreUnavailable (e : Str)
| VerifyingKeyUnreadable (e : Str)
| OrderProofVkMissing
| SnapshotKeyUnreadable (e : CryptoError)
| SnapshotKeyMissing
| BadStatusSuffix (s : Str)
| BadKeyId (e : CryptoError)
| KeyUnreadable (e : CryptoError)
| AggregatorBinMissing (path : Str)
| ProvingKeyUnset
| ProvingKeyDirMissing (dir : Str)
| ProvingKeyFileMissing (file dir : Str)
| SignerUnreadable (e : Str)
| ContractAddrMissing
| BadRpcUrl
| BadPrivateRpcUrl
| BadContractAddr
| RecoveryFailed
| SeedUnparseable (e : Str)
| SeedBadAddress (pair : Str)
| SeedBadDecimal (pair : Str)
| SeedBadDecimals (pair : Str)
| SeedRefused (pair : Str)
| BadTrustedProxies (e : Str)
| TlsUnreadable (e : Str).

(** ** Checks *)

Definition validate_siwe_config (c : Config) : result unit BootError :=
  if negb (cf_siwe_enabled c) then Ok tt
  else
    match opt (cf_session_secret_raw c) with
    | None => Err SessionSecretMissing
    | Some s => if utf8_len s <? 32 then Err SessionSecretTooShort else Ok tt
    end.

Definition validate_admin_auth (c : Config) : result unit BootError :=
  if bool_decide (operator_api_keys c = []) && negb (cf_allow_unauthenticated_admin c) then Err AdminWouldBeOpen else Ok tt.

Definition validate_server_limits (c : Config) : result unit BootError :=
  if cf_request_timeout c =? 0 then Err ZeroRequestTimeout
  else if cf_max_concurrent_requests c =? 0 then Err ZeroConcurrentRequests
  else if cf_http2_max_concurrent_streams c =? 0 then Err ZeroHttp2Streams
  else if cf_sse_streams_per_key c =? 0 then Err ZeroSseStreams
  else Ok tt.

Definition validate_settlement_transport (c : Config) : result unit BootError :=
  let private_rpc := opt (cf_settlement_private_rpc c) in
  let rpc := opt (cf_eth_rpc c) in
  if bool_decide (is_Some private_rpc) && bool_decide (rpc = None) then Err PrivateRpcWithoutRpc
  else if negb (bool_decide (is_Some rpc) && bool_decide (is_Some (opt (cf_signer_key_uri c)))) then Ok tt
  else if bool_decide (private_rpc = None) && negb (cf_allow_public_settlement c) then Err PublicSettlement
  else Ok tt.

Inductive TlsMode := Plaintext | Tls (cert key : Str) | Mtls (cert key client_ca : Str).

Definition tls_mode (c : Config) : result TlsMode BootError :=
  match opt (cf_tls_cert c), opt (cf_tls_key c), opt (cf_tls_client_ca c) with
  | None, None, None => Ok Plaintext
  | Some c, Some k, None => Ok (Tls c k)
  | Some c, Some k, Some ca => Ok (Mtls c k ca)
  | Some _, None, _ => Err TlsKeyMissing
  | None, Some _, _ => Err TlsCertMissing
  | None, None, Some _ => Err TlsCaAlone
  end.

Definition validate_plaintext_bind (c : Config) (mode : TlsMode) : result unit BootError :=
  match mode with
  | Plaintext =>
    if cf_insecure c then Ok tt
    else if bool_decide (List.filter (fun a => negb (is_loopback a)) [cf_grpc_addr c; cf_http_addr c] = []) then Ok tt
    else Err PlaintextExposed
  | _ => Ok tt
  end.

(** ** Keys of the operator *)

Definition parse_status_word (s : Str) : option KeyStatus :=
  if bool_decide (s = str "active") then Some KeyActive
  else if bool_decide (s = str "rotating") then Some KeyRotating
  else if bool_decide (s = str "sunset") then Some KeySunset
  else None.

Definition is_status_shaped (s : Str) : bool := negb (bool_decide (s = [])) && (utf8_len s <=? 16) && forallb is_ascii_alphabetic s.

Section key_list.
Context {D : Type} `{SH : !Sha256, HO : !HexOps, EO : !EciesOps, OJ : !OrderJson D}.

(** Two hexadecimal digits for each of the first three bytes. *)
Definition short_id_for_uri (uri : Str) : Str :=
  flat_map (fun b => [hex_digit (b / 16); hex_digit (b mod 16)]) (take 3 (sha256 (as_bytes uri))).

Definition parse_key_uri_spec (spec : Str) (already_seeded : bool) : result (Str * KeyStatus * Str) BootError :=
  let default_status := if already_seeded then KeyRotating else KeyActive in
  let? hs := match rsplit_once (char "@") spec with
             | Some (h, s) =>
               match parse_status_word s with
               | Some status => Ok (h, status)
               | None => if is_status_shaped s then Err (BadStatusSuffix s) else Ok (spec, default_status)
               end
             | None => Ok (spec, default_status)
             end in
  let '(head, status) := hs in
  match rsplit_once (char "#") head with
  | Some (u, c :: i) => Ok (u, status, c :: i)
  | _ => Ok (head, status, str "key-" ++ short_id_for_uri head)
  end.

(** The loop over the list; [seeded] tells whether a key was registered. *)
Fixpoint seed_keys (env : KeyEnv) (specs : list Str) (seeded : bool) (keys : list (@KeyEntry D)) : result (list (@KeyEntry D)) BootError :=
  match specs with
  | [] => Ok keys
  | raw :: specs' =>
    let trimmed := Pair.trim raw in
    if bool_decide (trimmed = []) then seed_keys env specs' seeded keys
    else
      let? spec := parse_key_uri_spec trimmed seeded in
      let '(uri, status, id) := spec in
      match validate_key_id id with
      | Err e => Err (BadKeyId e)
      | Ok _ =>
        match decrypter_from_uri env uri with
        | Err e => Err (KeyUnreadable e)
        | Ok dec => seed_keys env specs' true (keys_insert (mkKeyEntry id status dec) keys)
        end
      end
  end.

Definition boot_keys (c : Config) (env : KeyEnv) : result (list (@KeyEntry D)) BootError :=
  match opt (cf_operator_key_uris c) with
  | Some uris => seed_keys env (split_at (Z.eqb (char ",")) uris) false []
  | None =>
    match opt (cf_operator_key c) with
    | Some path =>
      match (let? sk := load_operator_key_file env path in ecies_from_bytes (D:=D) sk) with
      | Err e => Err (KeyUnreadable e)
      | Ok dec => Ok (keys_insert (mkKeyEntry (str "primary") KeyActive dec) [])
      end
    | None => Ok []
    end
  end.
End key_list.

(** ** Logging *)

Definition sanitize_uri_for_log (uri : Str) : Str :=
  match split_once (char "?") uri with Some (head, _) => head ++ str "?<redacted>" | None => uri end.

Definition sanitize_db_url (url : Str) : Str :=
  match split_once_str (str "://") url with
  | None => url
  | Some (scheme, rest) =>
    match split_once (char "@") rest with
    | None => url
    | Some (_, host) => scheme ++ str "://" ++ host
    end
  end.

(** ** The pair seed *)

Record PairSeedEntry := mkPairSeedEntry {
  ps_pair : Str;
  ps_base_token : Str;
  ps_quote_token : Str;
  ps_min_order_size : Str;
  ps_tick_size : Str;
  ps_auction_interval_ms : option Z;
  ps_base_decimals : option Z;
  ps_quote_decimals : option Z
}.

Definition seed_decimals (v : option Z) (pr : Str) : result Z BootError :=
  match v with
  | None => Ok 18
  | Some d => if d <=? 30 then Ok d else Err (SeedBadDecimals pr)
  end.

Section boot.
Context {D F St Sn N : Type} `{DO : !DecimalOps D, FO : !FieldOps F, PO : !Poseidon F, STO : !StoreOps D St, SH : !Sha256, HO : !HexOps, AO : !AddressOps,
  DP : !DecimalParse D, EO : !EciesOps, OJ : !OrderJson D, NO : !IpNetOps N,
  SNO : !SnapStoreOps Sn, BC : !BincodeOps (SerializableState D), AE : !Aead} {HI : HashIter}.

Definition seed_address (pr s : Str) : result Address BootError :=
  match parse_address (Pair.trim s) with Some a => Ok a | None => Err (SeedBadAddress pr) end.

Definition seed_decimal (pr s : Str) : result D BootError :=
  if bool_decide (s = []) then Ok dec_zero
  else match dec_from_str (Pair.trim s) with Ok d => Ok d | Err _ => Err (SeedBadDecimal pr) end.

(** The configuration of one entry of the seed. *)
Definition seed_config (e : PairSeedEntry) : result (PairConfig D) BootError :=
  let? base := seed_address (ps_pair e) (ps_base_token e) in
  let? quote := seed_address (ps_pair e) (ps_quote_token e) in
  let? min := seed_decimal (ps_pair e) (ps_min_order_size e) in
  let? tick := seed_decimal (ps_pair e) (ps_tick_size e) in
  let? base_decimals := seed_decimals (ps_base_decimals e) (ps_pair e) in
  let? quote_decimals := seed_decimals (ps_quote_decimals e) (ps_pair e) in
  Ok (mkPairConfig base quote base_decimals quote_decimals min tick (option_map (fun ms => ms * 1000000) (ps_auction_interval_ms e)) Active).

Fixpoint seed_pairs (env : StoreEnv) (now : DateTime) (entries : list PairSeedEntry) (e : Engine D St) : Engine D St * result unit BootError :=
  match entries with
  | [] => (e, Ok tt)
  | entry :: entries' =>
    match seed_config entry with
    | Err err => (e, Err err)
    | Ok cfg =>
      match register_pair_with_event env now e (ps_pair entry) cfg with
      | (e', Err _) => (e', Err (SeedRefused (ps_pair entry)))
      | (e', Ok _) => seed_pairs env now entries' e'
      end
    end
  end.

(** ** What is wired *)

Inductive StoreKind := PgEvents (url : Str) | FileEvents (path : Str) | MemEvents.
Inductive SnapshotKind := PgSnapshots (url : Str) | FileSnapshots (dir : Str) | MemSnapshots.
Inductive SnapshotKey := KeyOfUri (key : bytes) | EphemeralKey.
Inductive AggregatorKind := NoopAggregator | SubprocessAggregator (bin : Str) (timeout : Duration).
Inductive TxTransport := PrivateRpc | PublicMempool.
Inductive SubmitterKind := NoopSubmitter | OnChainSubmitter (read_rpc submit_rpc contract : Str) (transport : TxTransport).
Inductive OracleKind := InsecureDevOracle | ChainBalanceOracle (contract : Address).

Record BootEnv := mkBootEnv {
  be_is_file : Str -> bool;
  be_is_dir : Str -> bool;
  be_key_env : KeyEnv;
  be_open_store : StoreKind -> result unit Str;
  be_open_snapshots : SnapshotKind -> result unit Str;
  be_verifying_key : Str -> result (bytes -> OrderProofPublics F -> bool) Str;
  be_signer : Str -> result unit Str;
  be_url : Str -> bool;
  be_snapshots : SnapshotKind -> Sn;
  be_ephemeral_key : bytes;
  be_aggregate : Uuid -> Uuid -> list (Match D) -> BatchWitness D -> result bytes AggregatorError;
  be_batch_id : Uuid -> Uuid;
  be_append : Uuid -> StoreEnv;
  be_seed_json : Str -> result (list PairSeedEntry) Str;
  be_tls : TlsMode -> result unit Str;
  be_empty_store : StoreKind -> St;
  be_store_env : StoreEnv;
  be_now : DateTime
}.

Record Booted := mkBooted {
  bt_tls : TlsMode;
  bt_store : StoreKind;
  bt_snapshots : option SnapshotKind;
  bt_snapshot_key : option SnapshotKey;
  bt_verifier : option (bytes -> OrderProofPublics F -> bool);
  bt_aggregator : AggregatorKind;
  bt_submitter : SubmitterKind;
  bt_oracle : OracleKind;
  bt_config : @ServerConfig N;
  bt_server : @Server D St
}.

Definition boot_result {A B} (f : A -> B) (r : result unit A) : result unit B := match r with Ok _ => Ok tt | Err e => Err (f e) end.

Definition store_kind (c : Config) : StoreKind :=
  match opt (cf_event_db c) with
  | Some url => PgEvents url
  | None => match opt (cf_event_log c) with Some path => FileEvents path | None => MemEvents end
  end.

Definition snapshot_kind (c : Config) : option SnapshotKind :=
  if negb (cf_snapshot_enabled c) then None
  else
    match opt (cf_event_db c) with
    | Some url => Some (PgSnapshots url)
    | None =>
      match opt (cf_snapshot_dir c) with
      | Some dir => Some (FileSnapshots dir)
      | None => if bool_decide (is_Some (opt (cf_event_log c))) then None else Some MemSnapshots
      end
    end.

Definition boot_verifier (c : Config) (env : BootEnv) : result (option (bytes -> OrderProofPublics F -> bool)) BootError :=
  match opt (cf_order_proof_vk c) with
  | Some path => match be_verifying_key env path with Ok v => Ok (Some v) | Err e => Err (VerifyingKeyUnreadable e) end
  | None => if cf_allow_unverified_order_proofs c then Ok None else Err OrderProofVkMissing
  end.

(** [SnapshotCipher::from_key_uri]. *)
Definition cipher_from_key_uri (env : KeyEnv) (uri : Str) : result bytes CryptoError :=
  let? b := resolve_secret_bytes env uri in cipher_from_bytes b.

Definition boot_snapshot_key (c : Config) (env : BootEnv) (snaps : option SnapshotKind) : result (option SnapshotKey) BootError :=
  match snaps with
  | None => Ok None
  | Some _ =>
    match opt (cf_snapshot_key_uri c) with
    | Some uri => match cipher_from_key_uri (be_key_env env) uri with Ok k => Ok (Some (KeyOfUri k)) | Err e => Err (SnapshotKeyUnreadable e) end
    | None =>
      if bool_decide (is_Some (opt (cf_event_db c))) || bool_decide (is_Some (opt (cf_snapshot_dir c))) then Err SnapshotKeyMissing
      else Ok (Some EphemeralKey)
    end
  end.

Definition validate_zk_key_dir (env : BootEnv) (dir : Str) : result unit BootError :=
  if negb (be_is_dir env dir) then Err (ProvingKeyDirMissing dir)
  else
    match List.find (fun f => negb (be_is_file env (dir ++ str "/" ++ f))) [str "proving_key.bin"; str "verifying_key.bin"; str "keys_metadata.json"] with
    | Some f => Err (ProvingKeyFileMissing f dir)
    | None => Ok tt
    end.

(** The aggregator, and the deadline of a submission when one is wired. *)
Definition boot_aggregator (c : Config) (env : BootEnv) : result (AggregatorKind * option Duration) BootError :=
  match opt (cf_aggregator_bin c) with
  | None => Ok (NoopAggregator, None)
  | Some bin =>
    if negb (be_is_file env bin) then Err (AggregatorBinMissing bin)
    else
      match opt (cf_zk_proving_key c) with
      | None => Err ProvingKeyUnset
      | Some dir =>
        let? _ := validate_zk_key_dir env dir in
        let timeout := if cf_aggregator_timeout c =? 0 then secs 30 else cf_aggregator_timeout c in
        let submit_timeout := if cf_submit_timeout c =? 0 then cf_aggregator_timeout c else cf_submit_timeout c in
        Ok (SubprocessAggregator bin timeout, Some submit_timeout)
      end
  end.

Definition boot_submitter (c : Config) (env : BootEnv) : result (SubmitterKind * OracleKind) BootError :=
  match opt (cf_eth_rpc c), opt (cf_signer_key_uri c) with
  | Some rpc, Some uri =>
    let? _ := boot_result SignerUnreadable (be_signer env uri) in
    match opt (cf_contract_addr c) with
    | None => Err ContractAddrMissing
    | Some contract =>
      let '(settlement_rpc, transport) := match opt (cf_settlement_private_rpc c) with Some r => (r, PrivateRpc) | None => (rpc, PublicMempool) end in
      if negb (be_url env rpc) then Err BadRpcUrl
      else if negb (be_url env settlement_rpc) then Err match transport with PrivateRpc => BadPrivateRpcUrl | PublicMempool => BadRpcUrl end
      else
        match parse_address contract with
        | None => Err BadContractAddr
        | Some a => Ok (OnChainSubmitter rpc settlement_rpc contract transport, ChainBalanceOracle a)
        end
    end
  | _, _ => Ok (NoopSubmitter, InsecureDevOracle)
  end.

Definition boot_seed (c : Config) (env : BootEnv) (e : Engine D St) : result (Engine D St) BootError :=
  if negb (bool_decide (list_pairs e = [])) then Ok e
  else
    match opt (cf_pair_seed_json c) with
    | None => Ok e
    | Some seed =>
      match be_seed_json env seed with
      | Err err => Err (SeedUnparseable err)
      | Ok entries =>
        match seed_pairs (be_store_env env) (be_now env) entries e with
        | (e', Ok _) => Ok e'
        | (_, Err err) => Err err
        end
      end
    end.

Definition boot_siwe (c : Config) : option SiweState :=
  if cf_siwe_enabled c then
    Some (mkSiweState NONCE_TTL (jwt_manager_new (default [] (opt (cf_session_secret_raw c))) (cf_session_ttl c))
            (if 0 <? cf_chain_id c then Some (cf_chain_id c) else None) (opt (cf_siwe_domain_raw c)))
  else None.

Definition boot_auth (c : Config) : AuthCore :=
  match boot_siwe c with
  | Some siwe => auth_new_with_jwt (api_keys c) (ss_jwt siwe)
  | None => auth_new (api_keys c)
  end.

(** What [main] has wired when it recovers. *)
Record Wired := mkWired {
  wi_tls : TlsMode;
  wi_snapshot_key : option SnapshotKey;
  wi_verifier : option (bytes -> OrderProofPublics F -> bool);
  wi_keys : list (@KeyEntry D);
  wi_aggregator : AggregatorKind;
  wi_submitter : SubmitterKind;
  wi_oracle : OracleKind;
  wi_engine : Engine D St
}.

Definition boot_wire (c : Config) (env : BootEnv) : result Wired BootError :=
  let? _ := validate_siwe_config c in
  let? _ := validate_admin_auth c in
  let? _ := validate_server_limits c in
  let? _ := validate_settlement_transport c in
  let? mode := tls_mode c in
  let? _ := validate_plaintext_bind c mode in
  let store := store_kind c in
  let? _ := boot_result StoreUnavailable (be_open_store env store) in
  let snaps := snapshot_kind c in
  let? _ := match snaps with Some k => boot_result StoreUnavailable (be_open_snapshots env k) | None => Ok tt end in
  let e := engine_new (be_empty_store env store) (cf_auction_interval c) in
  let? verifier := boot_verifier c env in
  let? snapshot_key := boot_snapshot_key c env snaps in
  let? keys := boot_keys c (be_key_env env) in
  let? agg := boot_aggregator c env in
  let e := match snd agg with Some t => set_submit_timeout e t | None => e end in
  let? sub := boot_submitter c env in
  Ok (mkWired mode snapshot_key verifier keys (fst agg) (fst sub) (snd sub) e).

(** The recovery sees the wired keys, aggregator and snapshots. *)
Definition recover_env (env : BootEnv) (w : Wired) : RecoverEnv D :=
  mkRecoverEnv (multi_decrypt (wi_keys w))
    match wi_aggregator w with
    | NoopAggregator => fun _ _ _ _ => noop_aggregate
    | SubprocessAggregator _ _ => be_aggregate env
    end (be_batch_id env) (be_append env) (be_now env).

Definition snapshot_key_bytes (env : BootEnv) (k : SnapshotKey) : bytes :=
  match k with KeyOfUri b => b | EphemeralKey => be_ephemeral_key env end.

Definition boot_serve (c : Config) (env : BootEnv) (w : Wired) (e : Engine D St) : result Booted BootError :=
  let? e := boot_seed c env e in
  let? trusted := match proxies_parse (cf_trusted_proxies c) with Ok t => Ok t | Err err => Err (BadTrustedProxies err) end in
  let? _ := boot_result TlsUnreadable (be_tls env (wi_tls w)) in
  Ok (mkBooted (wi_tls w) (store_kind c) (snapshot_kind c) (wi_snapshot_key w) (wi_verifier w) (wi_aggregator w) (wi_submitter w) (wi_oracle w)
        (mkServerConfig (boot_auth c) (auth_new (operator_api_keys c)) trusted (boot_siwe c) (cf_sse_streams_per_key c))
        (mkServer e (wi_keys w) nonces_new (limiter_new (cf_rate_limit c) (cf_rate_burst c) (cf_rate_stale_after c)) sse_new)).

(** [main], up to the listeners; [fuel] bounds the batches that are replayed. *)
Definition boot (fuel : nat) (c : Config) (env : BootEnv) : outcome (option (result Booted BootError)) :=
  match boot_wire c env with
  | Err err => Ret (Some (Err err))
  | Ok w =>
    r ← recover (F:=F) fuel (recover_env env w) (option_map (be_snapshots env) (snapshot_kind c))
          (option_map (snapshot_key_bytes env) (wi_snapshot_key w)) (wi_engine w);
    Ret match r with
        | None => None
        | Some (_, Err _) => Some (Err RecoveryFailed)
        | Some (e, Ok _) => Some (boot_serve c env w e)
        end
  end.

(** ** Facts *)

(** One step of [main] has succeeded. *)
Local Ltac passed H x Hx := match type of H with (match ?r with Ok _ => _ | Err _ => _ end) = Ok _ => destruct r as [x|] eqn:Hx; [|discriminate] end.

Lemma seed_keys_secret env specs : forall seeded keys keys',
  Forall from_secret keys -> seed_keys (D:=D) env specs seeded keys = Ok keys' -> Forall from_secret keys'.
Proof.
  induction specs as [|raw specs IH]; intros seeded keys keys' Hs; cbn [seed_keys]; [by intros [= <-]|].
  case_bool_decide as Hb; [by apply IH|]. intros H. passed H spec Hspec. destruct spec as [[uri status] id].
  destruct (validate_key_id id); [|done]. destruct (decrypter_from_uri env uri) as [d|] eqn:Hd; [|done].
  eapply IH; [|exact H]. apply from_uri_ok in Hd as (sk & _ & Hp & ->). apply keys_insert_Forall; [by exists sk|done].
Qed.

Lemma boot_keys_secret c env keys : boot_keys (D:=D) c env = Ok keys -> Forall from_secret keys.
Proof.
  unfold boot_keys. destruct (opt (cf_operator_key_uris c)); [apply seed_keys_secret; constructor|].
  destruct (opt (cf_operator_key c)) as [path|]; [|intros [= <-]; constructor].
  destruct (load_operator_key_file env path) as [sk|]; [|done]. destruct (ecies_from_bytes sk) as [d|] eqn:Hd; [|done]. apply ecies_from_bytes_ok in Hd as [Hp ->].
  intros [= <-]. constructor; [by exists sk|constructor].
Qed.

Lemma plaintext_bind_ok c :
  validate_plaintext_bind c Plaintext = Ok tt ->
  cf_insecure c = true \/ (is_loopback (cf_grpc_addr c) = true /\ is_loopback (cf_http_addr c) = true).
Proof.
  unfold validate_plaintext_bind. destruct (cf_insecure c); [by left|]. intros H. right. revert H. cbn [List.filter].
  destruct (is_loopback (cf_grpc_addr c)), (is_loopback (cf_http_addr c)); done.
Qed.

Lemma submitter_ok c env sub oracle :
  validate_settlement_transport c = Ok tt -> boot_submitter c env = Ok (sub, oracle) ->
  match sub with
  | NoopSubmitter => True
  | OnChainSubmitter _ submit_rpc _ transport => (exists a, oracle = ChainBalanceOracle a) /\
    match transport with PrivateRpc => opt (cf_settlement_private_rpc c) = Some submit_rpc | PublicMempool => cf_allow_public_settlement c = true end
  end.
Proof.
  unfold validate_settlement_transport, boot_submitter. intros Hv.
  destruct (opt (cf_eth_rpc c)) as [rpc|]; [|by intros [= <- _]]. destruct (opt (cf_signer_key_uri c)) as [uri|]; [|by intros [= <- _]].
  intros H. passed H u Hu. destruct (opt (cf_contract_addr c)) as [contract|]; [|done].
  destruct (opt (cf_settlement_private_rpc c)) as [private|] eqn:Hp; repeat (case_match; try done); injection H as <- <-; (split; [by eexists|]); [done|].
  revert Hv. simpl. destruct (cf_allow_public_settlement c); done.
Qed.

Lemma snapshot_key_ok c env key :
  boot_snapshot_key c env (snapshot_kind c) = Ok key ->
  match snapshot_kind c with
  | None => key = None
  | Some MemSnapshots => is_Some key
  | Some _ => exists k, key = Some (KeyOfUri k) /\ length k = 32%nat
  end.
Proof.
  assert (Huri : forall uri k, cipher_from_key_uri (be_key_env env) uri = Ok k -> length k = 32%nat).
  { intros uri k H. unfold cipher_from_key_uri in H. passed H b Hb. unfold cipher_from_bytes in H.
    destruct (Nat.eqb_spec (length b) SNAPSHOT_KEY_LEN) as [Hl|]; [|done]. by injection H as <-. }
  unfold boot_snapshot_key, snapshot_kind. destruct (cf_snapshot_enabled c); simpl; [|by intros [= <-]].
  destruct (opt (cf_event_db c)); simpl.
  - destruct (opt (cf_snapshot_key_uri c)) as [uri|]; [|done]. destruct (cipher_from_key_uri _ uri) eqn:Hk; [|done]. intros [= <-]. eauto.
  - destruct (opt (cf_snapshot_dir c)); simpl.
    + destruct (opt (cf_snapshot_key_uri c)) as [uri|]; [|done]. destruct (cipher_from_key_uri _ uri) eqn:Hk; [|done]. intros [= <-]. eauto.
    + destruct (opt (cf_event_log c)); simpl; [by intros [= <-]|].
      destruct (opt (cf_snapshot_key_uri c)) as [uri|]; [destruct (cipher_from_key_uri _ uri); [|done]|]; intros [= <-]; eauto.
Qed.

(** Whom the administration lets in. *)
Definition operator_only `{JO : !JwtOps} (c : Config) (a : AuthCore) : Prop :=
  forall now h id, auth_check a now h = Ok id ->
    exists key k, header h AUTH_HEADER = Some (Some key) /\ k ∈ operator_api_keys c /\ sha256 (as_bytes key) = sha256 (as_bytes k).

Lemma admin_auth_ok `{JO : !JwtOps} c :
  validate_admin_auth c = Ok tt -> cf_allow_unauthenticated_admin c = false -> operator_only c (auth_new (operator_api_keys c)).
Proof.
  unfold validate_admin_auth. intros Hv Ha now h id Hc. rewrite Ha in Hv.
  apply auth_check_ok in Hc as [(_ & [Hd|(key & Hk & _ & Hin)])|(addr & token & jwt & claims & _ & _ & Hj & _)]; [| |done].
  - simpl in Hd. apply bool_decide_eq_true in Hd. rewrite Hd in Hv. done.
  - exists key. simpl in Hin. unfold digest_keys in Hin. apply list_elem_of_In, in_map_iff in Hin as (k & Heq & Hk').
    apply filter_In in Hk' as [Hk' _]. exists k. split_and!; [done|by apply list_elem_of_In|done].
Qed.

(** The checks that [main] has passed when it recovers. *)
Record wired_ok (c : Config) (env : BootEnv) (w : Wired) : Prop := {
  wo_siwe : validate_siwe_config c = Ok tt;
  wo_admin : validate_admin_auth c = Ok tt;
  wo_transport : validate_settlement_transport c = Ok tt;
  wo_bind : validate_plaintext_bind c (wi_tls w) = Ok tt;
  wo_verifier : boot_verifier c env = Ok (wi_verifier w);
  wo_snapshot_key : boot_snapshot_key c env (snapshot_kind c) = Ok (wi_snapshot_key w);
  wo_keys : boot_keys c (be_key_env env) = Ok (wi_keys w);
  wo_submitter : boot_submitter c env = Ok (wi_submitter w, wi_oracle w);
  wo_mode : tls_mode c = Ok (wi_tls w)
}.

Lemma boot_wire_ok c env w : boot_wire c env = Ok w -> wired_ok c env w.
Proof.
  unfold boot_wire. intros H. passed H u1 Hsiwe. destruct u1. passed H u2 Hadmin. destruct u2. passed H u3 Hlim. passed H u4 Hset. destruct u4.
  passed H mode Hmode. passed H u5 Hbind. destruct u5. passed H u6 Hst. passed H u7 Hsn. passed H verifier Hver. passed H skey Hskey.
  passed H keys Hkeys. passed H agg Hagg. passed H sub Hsub. injection H as <-. split; try done. simpl. by destruct sub.
Qed.

(** What [main] has passed when it serves. *)
Lemma boot_Ok fuel c env b : boot fuel c env = Ret (Some (Ok b)) ->
  exists w, wired_ok c env w /\ bt_tls b = wi_tls w /\ bt_submitter b = wi_submitter w /\ be_tls env (wi_tls w) = Ok tt.
Proof.
  unfold boot. destruct (boot_wire c env) as [w|] eqn:Hw; [|done]. intros ([[e [[]|]]|] & _ & H)%outcome_bind_Ret; [|done..].
  injection H as H. exists w. split; [by apply boot_wire_ok|]. unfold boot_serve in H. passed H e2 He2. passed H trusted Htr. passed H u Htls. injection H as <-.
  split_and!; [done..|]. destruct (be_tls env (wi_tls w)) as [[]|]; [done|discriminate].
Qed.

Lemma submitter_signer c env read_rpc submit_rpc contract transport oracle :
  boot_submitter c env = Ok (OnChainSubmitter read_rpc submit_rpc contract transport, oracle) ->
  exists uri, opt (cf_signer_key_uri c) = Some uri /\ be_signer env uri = Ok tt.
Proof.
  unfold boot_submitter. destruct (opt (cf_eth_rpc c)); [|done]. destruct (opt (cf_signer_key_uri c)) as [uri|]; [|done].
  intros H. exists uri. split; [done|]. destruct (be_signer env uri) as [[]|]; [done|discriminate].
Qed.

(** C30: the server does not start open.  If [main] reaches its listeners then,
    unless the flag for local development was set: only a request that presents
    one of the operator's keys reaches the administration; a listener without
    TLS is bound to loopback; signed settlements go to the private endpoint;
    and order proofs are verified.  With no flag at all: whenever
    settlements are signed, balances are read from the chain; snapshots on disk
    or in a database are sealed with a configured key of 32 bytes; the secret
    of the session tokens has at least 32 bytes; and every decryption key is a
    valid secret. *)
Theorem boot_fails_closed `{JO : !JwtOps} fuel c env b :
  boot fuel c env = Ret (Some (Ok b)) ->
  (cf_allow_unauthenticated_admin c = false -> operator_only c (sc_admin_auth (bt_config b))) /\
  (bt_tls b = Plaintext -> cf_insecure c = true \/ (is_loopback (cf_grpc_addr c) = true /\ is_loopback (cf_http_addr c) = true)) /\
  match bt_submitter b with
  | NoopSubmitter => True
  | OnChainSubmitter _ submit_rpc _ transport => (exists a, bt_oracle b = ChainBalanceOracle a) /\
    match transport with PrivateRpc => opt (cf_settlement_private_rpc c) = Some submit_rpc | PublicMempool => cf_allow_public_settlement c = true end
  end /\
  (bt_verifier b = None -> cf_allow_unverified_order_proofs c = true) /\
  match bt_snapshots b with
  | None => bt_snapshot_key b = None
  | Some MemSnapshots => is_Some (bt_snapshot_key b)
  | Some _ => exists k, bt_snapshot_key b = Some (KeyOfUri k) /\ length k = 32%nat
  end /\
  (forall siwe, sc_siwe (bt_config b) = Some siwe -> (32 <= length (jm_key (ss_jwt siwe)))%nat) /\
  Forall from_secret (sv_keys (bt_server b)).
Proof.
  unfold boot. destruct (boot_wire c env) as [w|] eqn:Hw; [|done]. intros ([[e [[]|]]|] & _ & H)%outcome_bind_Ret; [|done..].
  injection H as H. apply boot_wire_ok in Hw as [Hsiwe Hadmin Hset Hbind Hver Hskey Hkeys Hsub _]. unfold boot_serve in H.
  passed H e2 He2. passed H trusted Htr. passed H u8 Htls. injection H as <-.
  cbn [bt_config bt_tls bt_submitter bt_oracle bt_verifier bt_snapshots bt_snapshot_key bt_server sc_admin_auth sc_siwe sv_keys]. split_and!.
  - intros Ha. by apply admin_auth_ok.
  - intros Hm. rewrite Hm in Hbind. by apply plaintext_bind_ok.
  - by apply (submitter_ok c env).
  - intros Hn. rewrite Hn in Hver. revert Hver. unfold boot_verifier. destruct (opt (cf_order_proof_vk c)); [destruct (be_verifying_key _ _); done|].
    by destruct (cf_allow_unverified_order_proofs c).
  - by apply (snapshot_key_ok c env).
  - intros siwe. unfold boot_siwe, validate_siwe_config in *. destruct (cf_siwe_enabled c); [|done]. intros [= <-]. simpl in *.
    destruct (opt (cf_session_secret_raw c)) as [s|]; [|done]. destruct (Z.ltb_spec (utf8_len s) 32) as [|Hl]; [done|].
    rewrite utf8_len_bytes in Hl. simpl. lia.
  - by eapply boot_keys_secret.
Qed.

(** ** The seed and the administration *)

(** The request that asks for the same pair. *)
Definition request_of (e : PairSeedEntry) : RegisterPairRequest :=
  mkRegisterPairRequest (ps_pair e) (ps_base_token e) (ps_quote_token e) (ps_min_order_size e) (ps_tick_size e)
    (ps_auction_interval_ms e) (ps_base_decimals e) (ps_quote_decimals e).

Lemma seed_address_ok pr s field a : seed_address pr s = Ok a <-> admin_parse_address s field = Ok a.
Proof. unfold seed_address, admin_parse_address. destruct (parse_address (Pair.trim s)); split; congruence. Qed.

Lemma seed_decimal_ok pr s field (d : D) :
  s <> [] -> (seed_decimal pr s = Ok d /\ dec_is_sign_negative d = false) <-> parse_decimal_nonneg s field = Ok d.
Proof.
  intros Hs. unfold seed_decimal, parse_decimal_nonneg. rewrite bool_decide_false by done.
  destruct (dec_from_str (Pair.trim s)) as [x|]; [|split; [by intros [? _]|done]].
  destruct (dec_is_sign_negative x) eqn:Hn; split; try done.
  - intros [[= ->] ?]. congruence.
  - by intros [[= ->] _].
  - by intros [= ->].
Qed.

Lemma seed_decimals_ok v pr field d : seed_decimals v pr = Ok d <-> parse_decimals v field = Ok d.
Proof. unfold seed_decimals, parse_decimals. destruct v as [x|]; [destruct (x <=? 30)|]; split; congruence. Qed.

(** What the seed of the registry lets through.  An entry with both sizes
    given yields the configuration that the administration would register for
    it, except that the seed also takes negative sizes and an auction interval
    of zero, which the administration refuses. *)
Theorem seed_matches_admin e (cfg : PairConfig D) :
  ps_min_order_size e <> [] -> ps_tick_size e <> [] ->
  (seed_config e = Ok cfg /\ dec_is_sign_negative (min_order_size cfg) = false /\ dec_is_sign_negative (tick_size cfg) = false /\
    ps_auction_interval_ms e <> Some 0) <-> requested_config (request_of e) = Ok cfg.
Proof.
  intros Hm Ht. unfold seed_config, requested_config. cbn [request_of rp_base_token rp_quote_token rp_min_order_size rp_tick_size rp_auction_interval_ms rp_base_decimals rp_quote_decimals].
  split.
  - intros (H & Hneg1 & Hneg2 & Hz). passed H a Ha. passed H q Hq. passed H mn Hmn. passed H tk Htk. passed H bd Hbd. passed H qd Hqd.
    injection H as <-. simpl in Hneg1, Hneg2.
    rewrite (proj1 (seed_address_ok _ _ (str "base_token") a) Ha), (proj1 (seed_address_ok _ _ (str "quote_token") q) Hq),
      (proj1 (seed_decimal_ok _ _ (str "min_order_size") mn Hm) (conj Hmn Hneg1)), (proj1 (seed_decimal_ok _ _ (str "tick_size") tk Ht) (conj Htk Hneg2)),
      (bool_decide_false _ Hz), (proj1 (seed_decimals_ok _ _ (str "base_decimals") bd) Hbd), (proj1 (seed_decimals_ok _ _ (str "quote_decimals") qd) Hqd).
    done.
  - intros H. passed H a Ha. passed H q Hq. passed H mn Hmn. passed H tk Htk. case_bool_decide as Hz; [done|]. passed H bd Hbd. passed H qd Hqd.
    injection H as <-. apply (seed_address_ok (ps_pair e)) in Ha, Hq. apply (seed_decimal_ok (ps_pair e)) in Hmn as [Hmn ?], Htk as [Htk ?]; [|done..].
    apply (seed_decimals_ok _ (ps_pair e)) in Hbd, Hqd. rewrite Ha, Hq, Hmn, Htk, Hbd, Hqd. done.
Qed.

(** Every configuration that an administrator's request or the seed file makes
    survives the event that records it, so the runs of a server are runs the log
    can tell. *)
Theorem served_configs_recorded (cfg : PairConfig D) :
  (forall t a, parse_address t = Some a -> length a = 20%nat /\ Forall is_byte a) ->
  (exists req, requested_config req = Ok cfg /\ (forall ms, rp_auction_interval_ms req = Some ms -> 0 <= ms <= u64_max)) \/
  (exists entry, seed_config entry = Ok cfg /\ (forall ms, ps_auction_interval_ms entry = Some ms -> 0 <= ms <= u64_max)) ->
  config_recorded cfg.
Proof.
  intros Haddr [(req & H & Hms)|(entry & H & Hms)]; revert H.
  - unfold requested_config, admin_parse_address. intros H. passed H a Ha. passed H q Hq. passed H mn Hmn. passed H tk Htk.
    case_bool_decide; [done|]. passed H bd Hbd. passed H qd Hqd. injection H as <-.
    destruct (parse_address _) as [a'|] eqn:Ea in Ha; [|done]. destruct (parse_address _) as [q'|] eqn:Eq in Hq; [|done].
    injection Ha as <-. injection Hq as <-. split; [by eapply Haddr|]. split; [by eapply Haddr|]. split; [done|].
    simpl. intros d. destruct (rp_auction_interval_ms req); intros [= <-]. eauto.
  - unfold seed_config, seed_address. intros H. passed H a Ha. passed H q Hq. passed H mn Hmn. passed H tk Htk. passed H bd Hbd. passed H qd Hqd.
    injection H as <-. destruct (parse_address _) as [a'|] eqn:Ea in Ha; [|done]. destruct (parse_address _) as [q'|] eqn:Eq in Hq; [|done].
    injection Ha as <-. injection Hq as <-. split; [by eapply Haddr|]. split; [by eapply Haddr|]. split; [done|].
    simpl. intros d. destruct (ps_auction_interval_ms entry); intros [= <-]. eauto.
Qed.
End boot.

(** ** Credentials in the log *)

Lemma split_once_app c a b : c ∉ a -> split_once c (a ++ c :: b) = Some (a, b).
Proof.
  induction a as [|x a IH]; simpl; intros Hn; [by rewrite Z.eqb_refl|]. apply not_elem_of_cons in Hn as [Hx Hn].
  destruct (Z.eqb_spec x c); [congruence|]. by rewrite IH.
Qed.

Lemma split_scheme scheme rest : char ":" ∉ scheme -> split_once_str (str "://") (scheme ++ str "://" ++ rest) = Some (scheme, rest).
Proof.
  induction scheme as [|x s IH]; intros Hn; [done|]. apply not_elem_of_cons in Hn as [Hx Hn]. cbn [app split_once_str].
  destruct (strip_prefix (str "://") (x :: s ++ str "://" ++ rest)) eqn:Hp; [|by rewrite IH].
  apply strip_prefix_Some in Hp. injection Hp as -> _. by destruct Hx.
Qed.

(** What is logged of the address of the database.  The user and the password
    are cut out when neither contains the character before the host; of a
    password that contains it, the part after its first occurrence is logged. *)
Theorem db_password_logged scheme userinfo tail host :
  char ":" ∉ scheme -> char "@" ∉ userinfo ->
  sanitize_db_url (scheme ++ str "://" ++ userinfo ++ str "@" ++ host) = scheme ++ str "://" ++ host /\
  sanitize_db_url (scheme ++ str "://" ++ userinfo ++ str "@" ++ tail ++ str "@" ++ host) = scheme ++ str "://" ++ tail ++ str "@" ++ host.
Proof.
  intros Hs Hu. unfold sanitize_db_url. rewrite !split_scheme by done.
  change (str "@" ++ host) with (char "@" :: host). change (str "@" ++ tail ++ char "@" :: host) with (char "@" :: tail ++ char "@" :: host).
  rewrite !split_once_app by done. done.
Qed.
