(* ===== verification/Transport.v ===== *)
(** * The server: certificates and the signing key

    [tls.rs] of [dp-api], the task of [main.rs] that reloads certificates on a
    signal, and [signer.rs] of [dp-settlement].  The parsing of PEM, the
    builders of [rustls] and [axum-server], [age] and the parser of a private
    key are parameters, with no law.

    The theorem: whatever the files hold when the server starts and at every
    later signal, a listener never falls back to a weaker posture than the one
    configured, and what the REST listener presents was loaded whole from one
    state of the files. *)

From S2P Require Import Prelude Decimal Types Field Auction Events Book EngineState Engine Witness Tick Batch Circuit Folding.
From S2P Require Import FileStore Snapshot Recover.
From S2P Require Import Text RateLimit Client Siwe Auth Keys Api Sse Server Boot.
Open Scope Z_scope.

(** ** Certificates *)

Inductive TlsError :=
| TlsIo (path : Str) (source : Str)
| MalformedPem (path msg : Str)
| MalformedKey (path : Str)
| MalformedCa (path msg : Str)
| Rustls (msg : Str).

(** The files at one moment. *)
Definition Files : Type := Str -> result bytes Str.

(** [root_add] is [RootCertStore::add] of one certificate; [pem_file_config]
    is [RustlsConfig::from_pem_file], which asks no certificate of a client. *)
Class PemOps (Cert Key : Type) := {
  pem_certs : bytes -> list (result Cert Str);
  pem_private_key : bytes -> result (option Key) Str;
  root_add : Cert -> result unit Str;
  verifier_build : list Cert -> result unit Str;
  with_single_cert : list Cert -> Key -> result unit Str;
  pem_file_config : Files -> Str -> Str -> result (list Cert * Key) Str
}.

(** [ServerTlsConfig]: the identity and the roots of clients, as texts. *)
Record TonicTls := mkTonicTls { tt_cert_pem : bytes; tt_key_pem : bytes; tt_client_ca : option bytes }.

(** [ServerConfig]: [None] asks no certificate of a client. *)
Record RestTls (Cert Key : Type) := mkRestTls { rt_chain : list Cert; rt_key : Key; rt_client_roots : option (list Cert) }.
Arguments mkRestTls {Cert Key}.
Arguments rt_chain {Cert Key}.
Arguments rt_key {Cert Key}.
Arguments rt_client_roots {Cert Key}.

Section tls.
Context {Cert Key : Type} `{PO : !PemOps Cert Key}.

Definition read_file (files : Files) (path : Str) : result bytes TlsError :=
  match files path with Ok b => Ok b | Err e => Err (TlsIo path e) end.

(** [collect] into a [Result] stops at the first error. *)
Fixpoint collect_certs (l : list (result Cert Str)) : result (list Cert) Str :=
  match l with
  | [] => Ok []
  | Err e :: _ => Err e
  | Ok c :: l' => let? cs := collect_certs l' in Ok (c :: cs)
  end.

Definition load_cert_chain_from_bytes (pem : bytes) (path_for_error : Str) : result (list Cert) TlsError :=
  match collect_certs (pem_certs pem) with
  | Err e => Err (MalformedPem path_for_error e)
  | Ok [] => Err (MalformedPem path_for_error (str "no certificates found in PEM"))
  | Ok certs => Ok certs
  end.

Definition load_cert_chain (files : Files) (path : Str) : result (list Cert) TlsError :=
  let? pem := read_file files path in load_cert_chain_from_bytes pem path.

Definition load_private_key_from_bytes (pem : bytes) (path_for_error : Str) : result Key TlsError :=
  match pem_private_key pem with
  | Err e => Err (MalformedPem path_for_error e)
  | Ok None => Err (MalformedKey path_for_error)
  | Ok (Some k) => Ok k
  end.

Definition load_private_key (files : Files) (path : Str) : result Key TlsError :=
  let? pem := read_file files path in load_private_key_from_bytes pem path.

Fixpoint ca_loop (path_for_error : Str) (l : list (result Cert Str)) (roots : list Cert) : result (list Cert) TlsError :=
  match l with
  | [] => Ok roots
  | Err e :: _ => Err (MalformedCa path_for_error e)
  | Ok cert :: l' =>
    match root_add cert with
    | Err e => Err (MalformedCa path_for_error e)
    | Ok _ => ca_loop path_for_error l' (roots ++ [cert])
    end
  end.

Definition load_ca_bundle_from_bytes (pem : bytes) (path_for_error : Str) : result (list Cert) TlsError :=
  let? roots := ca_loop path_for_error (pem_certs pem) [] in
  if (length roots =? 0)%nat then Err (MalformedCa path_for_error (str "no CA certificates found in bundle")) else Ok roots.

Definition load_ca_bundle (files : Files) (path : Str) : result (list Cert) TlsError :=
  let? pem := read_file files path in load_ca_bundle_from_bytes pem path.

Definition rustls_result {A} (r : result A Str) : result A TlsError := match r with Ok a => Ok a | Err e => Err (Rustls e) end.

Definition build_mtls_server_config (files : Files) (cert key client_ca : Str) : result (RestTls Cert Key) TlsError :=
  let? cert_chain := load_cert_chain files cert in
  let? private_key := load_private_key files key in
  let? roots := load_ca_bundle files client_ca in
  let? _ := rustls_result (verifier_build roots) in
  let? _ := rustls_result (with_single_cert cert_chain private_key) in
  Ok (mkRestTls cert_chain private_key (Some roots)).

Definition tonic_server_tls (files : Files) (mode : TlsMode) : result (option TonicTls) TlsError :=
  match mode with
  | Plaintext => Ok None
  | Tls cert key =>
    let? cert_pem := read_file files cert in
    let? key_pem := read_file files key in
    let? _ := load_cert_chain_from_bytes cert_pem cert in
    let? _ := load_private_key_from_bytes key_pem key in
    Ok (Some (mkTonicTls cert_pem key_pem None))
  | Mtls cert key client_ca =>
    let? cert_pem := read_file files cert in
    let? key_pem := read_file files key in
    let? ca_pem := read_file files client_ca in
    let? _ := load_cert_chain_from_bytes cert_pem cert in
    let? _ := load_private_key_from_bytes key_pem key in
    let? _ := load_ca_bundle_from_bytes ca_pem client_ca in
    Ok (Some (mkTonicTls cert_pem key_pem (Some ca_pem)))
  end.

Definition axum_rustls_config (files : Files) (mode : TlsMode) : result (option (RestTls Cert Key)) TlsError :=
  match mode with
  | Plaintext => Ok None
  | Tls cert key =>
    let? cfg := rustls_result (pem_file_config files cert key) in
    Ok (Some (mkRestTls (fst cfg) (snd cfg) None))
  | Mtls cert key client_ca =>
    let? server_cfg := build_mtls_server_config files cert key client_ca in
    Ok (Some server_cfg)
  end.

(** The configuration is replaced in place. *)
Definition reload_axum_rustls (files : Files) (cfg : RestTls Cert Key) (mode : TlsMode) : RestTls Cert Key * result unit TlsError :=
  match mode with
  | Plaintext => (cfg, Err (Rustls (str "cannot hot-reload TLS for a plaintext listener")))
  | Tls cert key =>
    match rustls_result (pem_file_config files cert key) with
    | Ok new => (mkRestTls (fst new) (snd new) None, Ok tt)
    | Err e => (cfg, Err e)
    end
  | Mtls cert key client_ca =>
    match build_mtls_server_config files cert key client_ca with
    | Ok server_cfg => (server_cfg, Ok tt)
    | Err e => (cfg, Err e)
    end
  end.

(** One turn of the task that waits for the signal, on the configuration of the
    REST listener. *)
Definition sighup (c : Config) (rest : option (RestTls Cert Key)) (files : Files) : option (RestTls Cert Key) :=
  match tls_mode c with
  | Err _ => rest
  | Ok Plaintext => rest
  | Ok mode => match rest with Some rest_cfg => Some (fst (reload_axum_rustls files rest_cfg mode)) | None => None end
  end.

(** [main] loads the material of gRPC, then that of REST. *)
Definition boot_tls (text : TlsError -> Str) (grpc_files rest_files : Files) (mode : TlsMode) : result unit Str :=
  match tonic_server_tls grpc_files mode with
  | Err e => Err (text e)
  | Ok _ => match axum_rustls_config rest_files mode with Err e => Err (text e) | Ok _ => Ok tt end
  end.

(** ** Facts *)

Lemma ca_loop_Ok path l : forall roots roots', ca_loop path l roots = Ok roots' -> exists certs, l = map Ok certs /\ roots' = roots ++ certs.
Proof.
  induction l as [|[c|e] l IH]; intros roots roots'; cbn [ca_loop]; [intros [= <-]; exists []; by rewrite app_nil_r| |done].
  destruct (root_add c); [|done]. intros (certs & -> & ->)%IH. exists (c :: certs). by rewrite <- app_assoc.
Qed.

Lemma ca_bundle_Ok pem path roots : load_ca_bundle_from_bytes pem path = Ok roots -> pem_certs pem = map Ok roots /\ roots <> [].
Proof.
  unfold load_ca_bundle_from_bytes. destruct (ca_loop _ _ _) as [r|] eqn:Hl; [|done]. apply ca_loop_Ok in Hl as (certs & -> & ->).
  cbn [app]. destruct certs; [done|]. cbn. by intros [= <-].
Qed.

(** A successful load of REST's material, by mode. *)
Lemma axum_posture files mode r : axum_rustls_config files mode = Ok r ->
  match mode with
  | Plaintext => r = None
  | Tls _ _ => exists t, r = Some t /\ rt_client_roots t = None
  | Mtls _ _ ca => exists t pem roots, r = Some t /\ files ca = Ok pem /\ pem_certs pem = map Ok roots /\ roots <> [] /\ rt_client_roots t = Some roots
  end.
Proof.
  destruct mode as [|cert key|cert key ca]; cbn [axum_rustls_config]; [by intros [= <-]|destruct (rustls_result _); [intros [= <-]; by eexists|done]|].
  unfold build_mtls_server_config, load_ca_bundle, read_file. destruct (load_cert_chain _ _); [|done]. destruct (load_private_key _ _); [|done].
  destruct (files ca) as [pem|]; [|done]. destruct (load_ca_bundle_from_bytes pem ca) as [roots|] eqn:Hca; [|done]. apply ca_bundle_Ok in Hca as [Hp Hne].
  destruct (rustls_result (verifier_build roots)); [|done]. destruct (rustls_result (with_single_cert _ _)); [|done].
  intros [= <-]. by eexists _, pem, roots.
Qed.

Lemma tonic_posture files mode g : tonic_server_tls files mode = Ok g ->
  match mode with
  | Plaintext => g = None
  | Tls _ _ => exists t, g = Some t /\ tt_client_ca t = None
  | Mtls _ _ ca => exists t pem roots, g = Some t /\ files ca = Ok pem /\ pem_certs pem = map Ok roots /\ roots <> [] /\ tt_client_ca t = Some pem
  end.
Proof.
  destruct mode as [|cert key|cert key ca]; cbn [tonic_server_tls]; unfold read_file; [by intros [= <-]| |];
    (destruct (files cert) as [cp|]; [|done]); (destruct (files key) as [kp|]; [|done]).
  - destruct (load_cert_chain_from_bytes cp cert); [|done]. destruct (load_private_key_from_bytes kp key); [|done]. intros [= <-]. by eexists.
  - destruct (files ca) as [pem|]; [|done]. destruct (load_cert_chain_from_bytes cp cert); [|done]. destruct (load_private_key_from_bytes kp key); [|done].
    destruct (load_ca_bundle_from_bytes pem ca) as [roots|] eqn:Hca; [|done]. apply ca_bundle_Ok in Hca as [Hp Hne]. intros [= <-]. by eexists _, pem, roots.
Qed.

(** A signal loads what a start would load, or changes nothing. *)
Lemma sighup_reloads c mode rest files : tls_mode c = Ok mode ->
  (exists files0, axum_rustls_config files0 mode = Ok rest) ->
  sighup c rest files = match axum_rustls_config files mode with Ok r => r | Err _ => rest end.
Proof.
  intros Hm [f0 H0]. pose proof (axum_posture _ _ _ H0) as Hp. unfold sighup. rewrite Hm.
  destruct mode as [|cert key|cert key ca]; [by subst rest| |]; cbn [axum_rustls_config reload_axum_rustls].
  - destruct Hp as (t & -> & _). by destruct (rustls_result _).
  - destruct Hp as (t & _ & _ & -> & _). by destruct (build_mtls_server_config _ _ _ _).
Qed.

(** The listener's material is that of the last state of the files that loads. *)
Lemma sighups_last c mode : tls_mode c = Ok mode -> forall hups files rest, axum_rustls_config files mode = Ok rest ->
  exists pre used post, files :: hups = pre ++ used :: post /\ axum_rustls_config used mode = Ok (fold_left (sighup c) hups rest) /\
    Forall (fun f => forall r, axum_rustls_config f mode <> Ok r) post.
Proof.
  intros Hm. induction hups as [|f hups IH]; intros files rest H0; [by exists [], files, []|]. cbn [fold_left].
  rewrite (sighup_reloads c mode rest f Hm) by eauto. destruct (axum_rustls_config f mode) as [r|e] eqn:Hf.
  - destruct (IH f r Hf) as (pre & used & post & Heq & Hu & Hp). exists (files :: pre), used, post. by rewrite Heq.
  - destruct (IH files rest H0) as (pre & used & post & Heq & Hu & Hp). destruct pre as [|p pre]; injection Heq as -> ->.
    + exists [], used, (f :: post). split_and!; [done..|]. constructor; [by rewrite Hf|done].
    + by exists (p :: f :: pre), used, post.
Qed.
End tls.

(** ** The signing key *)

(** [age_open] tells the plain text of a file sealed with a passphrase, or that
    it is sealed for recipients. *)
Class SignerOps (Signer : Type) := {
  signer_from_str : Str -> result Signer Str;
  age_open : bytes -> Str -> result (option bytes) Str
}.

Record SignerEnv := mkSignerEnv {
  se_read : Str -> result bytes Str;
  se_passphrase : option Str
}.

Section signer.
Context {Signer : Type} `{SO : !SignerOps Signer}.

(** [LocalTxSigner::from_hex] *)
Definition signer_from_hex (hex : Str) : result Signer SettlementError :=
  match signer_from_str (Pair.trim hex) with Ok s => Ok s | Err e => Err (SignerError e) end.

(** [LocalTxSigner::from_file]; [read_to_string] refuses what is not UTF-8. *)
Definition signer_from_file (env : SignerEnv) (path : Str) : result Signer SettlementError :=
  match se_read env path with
  | Err _ => Err SettlementIo
  | Ok b => match from_utf8 b with None => Err SettlementIo | Some raw => signer_from_hex (Pair.trim raw) end
  end.

Definition decrypt_age_file (env : SignerEnv) (path passphrase : Str) : result Str Str :=
  match se_read env path with
  | Err e => Err (str "read " ++ path ++ str ": " ++ e)
  | Ok b =>
    match age_open b passphrase with
    | Err e => Err e
    | Ok None => Err (str "age file uses recipient keys; passphrase-only supported")
    | Ok (Some out) => match from_utf8 out with Some s => Ok s | None => Err (str "non-utf8 plaintext") end
    end
  end.

Definition aws_kms_signer (key_id : Str) : result Signer SettlementError := Err (SignerError (str "aws-kms signer requires the `aws-kms` feature")).

Definition signer_from_uri (env : SignerEnv) (uri : Str) : result Signer SettlementError :=
  let uri := Pair.trim uri in
  match strip_prefix (str "file:") uri with
  | Some path => signer_from_file env path
  | None =>
    match strip_prefix (str "age:") uri with
    | Some path =>
      match se_passphrase env with
      | None => Err (SignerError (str "age: signer URI requires DARKPOOL_SIGNER_PASSPHRASE env var"))
      | Some pass =>
        match decrypt_age_file env path pass with
        | Err e => Err (SignerError (str "age signer: " ++ e))
        | Ok hex => signer_from_hex hex
        end
      end
    | None =>
      match strip_prefix (str "awskms:") uri with
      | Some rest => aws_kms_signer rest
      | None => Err (SignerError (str "unsupported signer URI scheme: " ++ uri))
      end
    end
  end.

(** What a signer was made of: a text in a file, plain or sealed with the
    passphrase. *)
Definition key_text (env : SignerEnv) (uri text : Str) : Prop :=
  exists path b, se_read env path = Ok b /\
    ((Pair.trim uri = str "file:" ++ path /\ from_utf8 b = Some text) \/
     (Pair.trim uri = str "age:" ++ path /\ exists pass out, se_passphrase env = Some pass /\ age_open b pass = Ok (Some out) /\ from_utf8 out = Some text)).

Lemma trim_start_spec s : Pair.trim_start s = [] \/ exists c s', Pair.trim_start s = c :: s' /\ Pair.is_whitespace c = false.
Proof. induction s as [|c s IH]; [by left|]. cbn [Pair.trim_start]. destruct (Pair.is_whitespace c) eqn:Hc; [done|]. right. eauto. Qed.

Lemma trim_start_suffix s : exists pre, s = pre ++ Pair.trim_start s.
Proof. induction s as [|c s [pre IH]]; [by exists []|]. cbn [Pair.trim_start]. destruct (Pair.is_whitespace c); [exists (c :: pre); cbn; by f_equal|by exists []]. Qed.

Lemma trim_idem s : Pair.trim (Pair.trim s) = Pair.trim s.
Proof.
  assert (forall l, (l = [] \/ exists c l', l = c :: l' /\ Pair.is_whitespace c = false) -> Pair.trim_start l = l) as Hfix.
  { intros l [->|(c & l' & -> & Hc)]; [done|]. cbn [Pair.trim_start]. by rewrite Hc. }
  unfold Pair.trim at 2 3. set (a := Pair.trim_start s). set (b := Pair.trim_start (reverse a)).
  unfold Pair.trim. rewrite (Hfix (reverse b)), reverse_involutive, (Hfix b); [done|apply trim_start_spec|].
  destruct (trim_start_suffix (reverse a)) as [pre Hpre]. fold b in Hpre. apply (f_equal reverse) in Hpre. rewrite reverse_involutive, reverse_app in Hpre.
  destruct (reverse b) as [|x l]; [by left|]. right. exists x, l. split; [done|]. destruct (trim_start_spec s) as [Ha|(c & s' & Ha & Hc)]; fold a in Ha; [by rewrite Ha in Hpre|].
  rewrite Ha in Hpre. by injection Hpre as <- _.
Qed.

Lemma signer_made env uri s : signer_from_uri env uri = Ok s -> exists text, key_text env uri text /\ signer_from_str (Pair.trim text) = Ok s.
Proof.
  unfold signer_from_uri, signer_from_file, signer_from_hex, decrypt_age_file. cbv zeta. destruct (strip_prefix _ _) as [path|] eqn:Hf.
  - apply strip_prefix_Some in Hf. destruct (se_read env path) as [b|] eqn:Hr; [|done]. destruct (from_utf8 b) as [text|] eqn:Hu; [|done].
    destruct (signer_from_str _) as [s'|] eqn:Hs; [|done]. intros [= <-]. rewrite !trim_idem in Hs. exists text. split; [|done].
    exists path, b. split; [done|by left].
  - destruct (strip_prefix (str "age:") _) as [path|] eqn:Ha; [|destruct (strip_prefix (str "awskms:") _); done].
    apply strip_prefix_Some in Ha. destruct (se_passphrase env) as [pass|] eqn:Hp; [|done]. destruct (se_read env path) as [b|] eqn:Hr; [|done].
    destruct (age_open b pass) as [[out|]|] eqn:Ho; [|done..]. destruct (from_utf8 out) as [text|] eqn:Hu; [|done].
    destruct (signer_from_str _) as [s'|] eqn:Hs; [|done]. intros [= <-]. exists text. split; [|done].
    exists path, b. split; [done|]. right. split; [done|]. by exists pass, out.
Qed.
End signer.

(** ** The start *)

Section started.
Context {D F St Sn N Cert Key Signer : Type} `{DO : !DecimalOps D, FO : !FieldOps F, POS : !Poseidon F, STO : !StoreOps D St, SH : !Sha256, HO : !HexOps, AO : !AddressOps,
  DP : !DecimalParse D, EO : !EciesOps, OJ : !OrderJson D, NO : !IpNetOps N, SNO : !SnapStoreOps Sn, BC : !BincodeOps (SerializableState D), AE : !Aead,
  PO : !PemOps Cert Key, SO : !SignerOps Signer} {HI : HashIter}.

(** Both listeners ask a client for a certificate under the roots of the file
    of authorities: gRPC as it was at the start, REST as it was at the start or
    at a signal. *)
Definition asks_clients (ca : Str) (grpc_files : Files) (later : list Files) (g : option TonicTls) (r : option (RestTls Cert Key)) : Prop :=
  (exists t pem roots, g = Some t /\ grpc_files ca = Ok pem /\ pem_certs pem = map Ok roots /\ roots <> [] /\ tt_client_ca t = Some pem) /\
  (exists files t pem roots, files ∈ later /\ r = Some t /\ files ca = Ok pem /\ pem_certs pem = map Ok roots /\ roots <> [] /\ rt_client_roots t = Some roots).

(** C31: The posture of the listeners outlives every reload.  If [main] reaches
    its listeners with the material of the files, then after any signals, with
    any files at each: the REST listener holds what a start would load from the
    last files that load; unless the flag for local development was set, or both
    listeners are on loopback, both speak TLS; if a file of authorities is
    configured both ask their clients for a certificate of it, the roots are
    never empty, and if none is configured no listener does. *)
Theorem posture_outlives_reloads fuel c (env : BootEnv (D:=D) (F:=F) (St:=St) (Sn:=Sn)) (b : Booted (N:=N)) text grpc_files rest_files hups :
  boot fuel c env = Ret (Some (Ok b)) -> be_tls env = boot_tls (Cert:=Cert) (Key:=Key) text grpc_files rest_files ->
  exists g r, tonic_server_tls (Cert:=Cert) (Key:=Key) grpc_files (bt_tls b) = Ok g /\ axum_rustls_config (Cert:=Cert) (Key:=Key) rest_files (bt_tls b) = Ok r /\
    let now := fold_left (sighup c) hups r in
    (exists pre used post, rest_files :: hups = pre ++ used :: post /\ axum_rustls_config used (bt_tls b) = Ok now /\
       Forall (fun f => forall r', axum_rustls_config (Cert:=Cert) (Key:=Key) f (bt_tls b) <> Ok r') post) /\
    (cf_insecure c = false -> is_loopback (cf_grpc_addr c) = false \/ is_loopback (cf_http_addr c) = false -> is_Some g /\ is_Some now) /\
    match opt (cf_tls_client_ca c) with
    | Some ca => asks_clients ca grpc_files (rest_files :: hups) g now
    | None => (forall t, g = Some t -> tt_client_ca t = None) /\ (forall t, now = Some t -> rt_client_roots t = None)
    end.
Proof.
  intros Hboot Htls. destruct (boot_Ok _ _ _ _ Hboot) as (w & Hw & Hb & _ & Hok). pose proof (wo_mode _ _ _ Hw) as Hmode. rewrite <- Hb in Hmode, Hok.
  rewrite Htls in Hok. unfold boot_tls in Hok. destruct (tonic_server_tls grpc_files (bt_tls b)) as [g|] eqn:Hg; [|done].
  destruct (axum_rustls_config rest_files (bt_tls b)) as [r|] eqn:Hr; [|done]. exists g, r. split_and!; [done..|]. cbv zeta.
  destruct (sighups_last c _ Hmode hups _ _ Hr) as (pre & used & post & Heq & Hused & Hpost). split; [by exists pre, used, post|].
  pose proof (tonic_posture _ _ _ Hg) as Hgp. pose proof (axum_posture _ _ _ Hused) as Hrp. split.
  - intros Hi Hl. pose proof (wo_bind _ _ _ Hw) as Hbind. rewrite <- Hb in Hbind. destruct (bt_tls b).
    + apply plaintext_bind_ok in Hbind as [|[]]; [|destruct Hl]; congruence.
    + destruct Hgp as (? & -> & _), Hrp as (? & -> & _). eauto.
    + destruct Hgp as (? & ? & ? & -> & _), Hrp as (? & ? & ? & -> & _). eauto.
  - assert (used ∈ rest_files :: hups) as Hin by (rewrite Heq; apply elem_of_app; right; by left).
    unfold tls_mode in Hmode. destruct (opt (cf_tls_cert c)), (opt (cf_tls_key c)), (opt (cf_tls_client_ca c)) as [ca|]; try done; injection Hmode as Hmode; rewrite <- Hmode in Hgp, Hrp.
    + split; [exact Hgp|]. destruct Hrp as (t & pem & roots & H). by exists used, t, pem, roots.
    + destruct Hgp as (? & -> & ?), Hrp as (? & -> & ?). split; by intros ? [= <-].
    + rewrite Hgp, Hrp. done.
Qed.

(** A server that settles on chain signs with a key it could read at the
    start: the URI names a file, plain or sealed with the passphrase of the
    environment, whose trimmed text is a key.  No other scheme starts, the
    managed keys of the cloud included. *)
Theorem settles_with_file_key fuel c (env : BootEnv (D:=D) (F:=F) (St:=St) (Sn:=Sn)) (b : Booted (N:=N)) senv text read_rpc submit_rpc contract transport :
  boot fuel c env = Ret (Some (Ok b)) -> bt_submitter b = OnChainSubmitter read_rpc submit_rpc contract transport ->
  be_signer env = (fun uri => match signer_from_uri (Signer:=Signer) senv uri with Ok _ => Ok tt | Err e => Err (text e) end) ->
  exists uri key s, opt (cf_signer_key_uri c) = Some uri /\ key_text (Signer:=Signer) senv uri key /\ signer_from_str (Signer:=Signer) (Pair.trim key) = Ok s.
Proof.
  intros Hboot Hs Hsig. destruct (boot_Ok _ _ _ _ Hboot) as (w & Hw & _ & Hb & _). pose proof (wo_submitter _ _ _ Hw) as H. rewrite <- Hb, Hs in H.
  destruct (submitter_signer _ _ _ _ _ _ _ H) as (uri & Hu & Hok). rewrite Hsig in Hok. destruct (signer_from_uri senv uri) as [s|] eqn:Hf; [|done].
  destruct (signer_made _ _ _ Hf) as (key & Hk & Hp). by exists uri, key, s.
Qed.
End started.
