(* ===== verification/Shipped.v ===== *)
(** * The shipped server

    What the aggregators that [main.rs] can install do to settlement.  The server
    installs [SubprocessAggregator], whose [fold_step] always fails, or keeps the
    [NoopAggregator] of a new engine, whose proofs have an initial state of zeros.
    The aggregator that folds, [InlineFoldingAggregator], is not installed by it.
    The fold loop itself, whatever the aggregator, keeps the matches of a chunk
    only when its round is one of the finalized ones. *)

From S2P Require Import Prelude Decimal Types Field Auction Events Book Merkle EngineState Engine Witness Tick.
From S2P Require Import Batch Circuit Folding Evm PoseidonBN254 DarkPool Boot.
Open Scope Z_scope.

Section shipped.
Context {D F St B : Type} `{!DecimalOps D, !FieldOps F, FL : !FieldLaws F, !Poseidon F, !StoreOps D St, HO : !HexOps} {HI : HashIter}.
Context `{BO : !BaseOps B, KE : !Keccak, P5 : !Poseidon5}.
Implicit Types (e : Engine D St) (k : AggregatorKind) (pool : DarkPool B).

(** The calls of the installed aggregator. *)
Definition shipped_fold_step k : Str -> AuctionExternalInputs F -> result unit AggregatorError :=
  match k with NoopAggregator => noop_fold_step | SubprocessAggregator _ _ => subprocess_fold_step end.
Definition shipped_finalize k : Str -> result (FinalProof F) AggregatorError :=
  match k with NoopAggregator => noop_finalize | SubprocessAggregator _ _ => subprocess_finalize end.

Definition shipped_env k (env : FoldEnv F) : FoldEnv F :=
  mkFoldEnv (shipped_fold_step k) (shipped_finalize k) (fe_folded_env env) (fe_submitted_env env) (fe_now env).

(** The payload of a batch that the no-op aggregator finalized. *)
Definition zero_payload : ProofPayload :=
  IvcFinal (replicate 32 0) (map fr_to_bytes32 (replicate 5 (fr_zero (F:=F)))) (map fr_to_bytes32 (replicate 5 (fr_zero (F:=F)))) 0
    (fr_to_bytes32 (fr_zero (F:=F))).

Definition holds_zero e (i : Uuid) : Prop :=
  exists pb, es_pending_batches (e_state e) !! i = Some pb /\ pb_ivc_payload pb = Some zero_payload.

Lemma finalize_pending_pending env e p proof inputs sm e' res :
  finalize_pending_batch env e p proof inputs sm = Ret (e', res) ->
  match res with
  | Ok _ => exists pb, es_pending_batches (e_state e') = <[pa_batch_id p := pb]> (es_pending_batches (e_state e))
  | Err _ => es_pending_batches (e_state e') = es_pending_batches (e_state e)
  end.
Proof.
  unfold finalize_pending_batch. destruct (st_append _ _ _) as [st [evs|err]]; [|by intros [= <- <-]].
  destruct (head evs) as [evt|]; [|done]. cbn.
  intros (book & _ & H)%outcome_bind_Ret. injection H as <- <-. eexists. reflexivity.
Qed.

Lemma finalize_pending_counters env e p proof inputs sm e' res :
  finalize_pending_batch env e p proof inputs sm = Ret (e', res) -> e_ivc_round e' = e_ivc_round e /\ e_finalize_every e' = e_finalize_every e.
Proof.
  unfold finalize_pending_batch. destruct (st_append _ _ _) as [st [evs|err]]; [|by intros [= <- <-]].
  destruct (head evs) as [evt|]; [|done]. cbn. intros (book & _ & H)%outcome_bind_Ret. by injection H as <- <-.
Qed.

Lemma finalize_noop env e p e' o :
  finalize_fold (shipped_env NoopAggregator env) e p = Ret (e', o) ->
  (forall i, holds_zero e i -> holds_zero e' i) /\ (forall i, o = Some i -> holds_zero e' i).
Proof.
  unfold finalize_fold. cbn. destruct (build_settlement_matches _ _ _) as [sm|]; [|by intros [= <- <-]].
  destruct (finalize_pending_batch _ _ _ _ _ _) as [[e1 [r|err]]|] eqn:Hf; [| |done]; cbn; intros [= <- <-];
    apply finalize_pending_pending in Hf.
  2: { unfold holds_zero. rewrite Hf. done. }
  destruct Hf as [pb0 Hf]. unfold holds_zero, update_pending. cbn. rewrite Hf. split.
  - intros i (pb & Hpb & Hz). destruct (decide (i = pa_batch_id p)) as [->|Hne].
    + rewrite lookup_alter_eq, lookup_insert_eq. eexists. split; [reflexivity|]. done.
    + rewrite lookup_alter_ne, lookup_insert_ne by done. eauto.
  - intros i [= <-]. rewrite lookup_alter_eq, lookup_insert_eq. eexists. split; [reflexivity|]. done.
Qed.

Lemma fold_pending_noop env e p e' o :
  fold_pending (shipped_env NoopAggregator env) e p = Ret (e', o) ->
  (forall i, holds_zero e i -> holds_zero e' i) /\ (forall i, o = Some i -> holds_zero e' i).
Proof.
  unfold fold_pending. destruct (fold_inputs e p) as [[ext|]|]; [|by intros [= <- <-]|done]. cbn [mbind outcome_bind shipped_env fe_fold shipped_fold_step noop_fold_step].
  destruct (record_fold _ _ _ _ _) as [e1 n] eqn:Hr. assert (forall i, holds_zero e i -> holds_zero e1 i) as Hsame.
  { unfold record_fold in Hr. destruct (st_append _ _ _). by injection Hr as <- <-. }
  destruct (e_finalize_every e1 =? 0); [done|]. destruct (_ =? 0); [|by intros [= <- <-]].
  intros [Hold Hnew]%finalize_noop. split; [|done]. intros i Hi. by apply Hold, Hsame.
Qed.

Lemma fold_pending_subprocess bin t env e p e' o :
  fold_pending (shipped_env (SubprocessAggregator bin t) env) e p = Ret (e', o) -> e' = e /\ o = None.
Proof.
  unfold fold_pending. destruct (fold_inputs e p) as [[ext|]|]; [..|done]; cbn; by intros [= <- <-].
Qed.

(** The contract refuses a session whose initial state is zero. *)
Lemma zero_session_refused env pool sid proof z0 zN n h :
  settlementDomain pool <> 0 -> word z0 3 = 0 -> exists err, submitSession env pool sid proof z0 zN n h = Err err.
Proof.
  intros Hd Hw. unfold submitSession. rewrite Hw.
  destruct (Z.eqb_spec 0 (settlementDomain pool)); [by destruct Hd|].
  repeat (case_match; [|eauto]). eauto.
Qed.

Lemma zero_word : be_value (fr_to_bytes32 (fr_zero (F:=F))) = 0.
Proof. unfold fr_to_bytes32. rewrite (be_value_be_bytes 32) by apply fr_to_Z_bytes. unfold fr_zero. by rewrite fr_of_Z_spec. Qed.

(** C40: no configuration of the server settles a batch.  With the subprocess
    aggregator the fold loop changes nothing and yields no batch; with the no-op
    aggregator every batch it yields is submitted as a session that a contract
    with a settlement domain other than zero refuses. *)
Theorem shipped_server_never_settles k (fenv : Uuid -> FoldEnv F) e ps e' ids :
  fold_all (fun i => shipped_env k (fenv i)) e ps = Ret (e', ids) ->
  match k with
  | SubprocessAggregator _ _ => e' = e /\ ids = []
  | NoopAggregator => forall i, i ∈ ids -> exists pb proof z0 zN n h,
      es_pending_batches (e_state e') !! i = Some pb /\
      submit_params i pb = SubmitSession i proof z0 zN n h (pb_auction_id pb) (pb_settlement_matches pb) /\
      forall env pool sid, settlementDomain pool <> 0 -> exists err, submitSession env pool sid proof z0 zN n (be_value h) = Err err
  end.
Proof.
  intros Hf. destruct k as [|bin t].
  - cut (forall i, i ∈ ids -> holds_zero e' i).
    { intros Hz i (pb & Hpb & Hpay)%Hz. exists pb. do 5 eexists. split; [done|].
      split; [unfold submit_params; rewrite Hpay; reflexivity|].
      intros env pool sid Hd. apply zero_session_refused; [done|]. apply zero_word. }
    refine (foldM_invariant (fun a => forall i, i ∈ snd a -> holds_zero (fst a) i) _ _ _ _ _ _ Hf); [|by intros i Hi%elem_of_nil].
    intros [e1 ids1] p [e2 ids2] _ Hz Hstep. simpl in *.
      destruct (fold_pending _ _ _) as [[e3 o]|] eqn:Hp; [|done]. injection Hstep as <- <-. simpl.
      apply fold_pending_noop in Hp as [Hold Hnew]. intros i [Hi|Hi]%elem_of_app; [by apply Hold, Hz|].
      apply Hnew. destruct o; [by apply list_elem_of_singleton in Hi as ->|by apply elem_of_nil in Hi].
  - cut (fst (e', ids) = e /\ snd (e', ids) = []); [done|].
    refine (foldM_invariant (fun a => fst a = e /\ snd a = []) _ _ _ _ _ _ Hf); [|done].
    intros [e1 ids1] p [e2 ids2] _ [He Hi] Hstep. simpl in *. subst e1 ids1.
    destruct (fold_pending _ _ _) as [[e3 o]|] eqn:Hp; [|done]. injection Hstep as <- <-.
    apply fold_pending_subprocess in Hp as [-> ->]. done.
Qed.

(** ** The cadence *)

Definition rounds_of e (pr : Str) : Z := default 0 (e_ivc_round e !! pr).

(** The rounds up to [r] that are finalized, at a cadence of [every]. *)
Lemma next_round_finalized r every : 0 < every -> (r + 1) / every = r / every + if (r + 1) mod every =? 0 then 1 else 0.
Proof.
  intros Hk. pose proof (Z.div_mod r every ltac:(lia)) as H1. pose proof (Z.mod_pos_bound r every Hk) as H2.
  pose proof (Z.div_mod (r + 1) every ltac:(lia)) as H3. pose proof (Z.mod_pos_bound (r + 1) every Hk) as H4.
  destruct (Z.eqb_spec ((r + 1) mod every) 0); nia.
Qed.

Lemma finalize_fold_frame env e p e' o :
  finalize_fold env e p = Ret (e', o) ->
  e_ivc_round e' = e_ivc_round e /\ e_finalize_every e' = e_finalize_every e /\
  (forall i, o <> Some i -> es_pending_batches (e_state e') !! i = es_pending_batches (e_state e) !! i).
Proof.
  unfold finalize_fold. destruct (fe_finalize env (pa_pair p)) as [fp|]; [|by intros [= <- <-]].
  destruct (build_settlement_matches _ _ _) as [sm|]; [|by intros [= <- <-]].
  intros ([e1 [u|err]] & Hf & H)%outcome_bind_Ret; injection H as <- <-; pose proof (finalize_pending_pending _ _ _ _ _ _ _ _ Hf) as Hp;
    apply finalize_pending_counters in Hf as [Hr Hk]; cbn in Hp.
  2: { split_and!; [done..|]. intros i _. by rewrite Hp. }
  destruct Hp as [pb Hp]. split_and!; [done..|]. intros i Hi. cbn. rewrite Hp, lookup_alter_ne, lookup_insert_ne by congruence. done.
Qed.

(** One chunk: its round counts, and its matches are kept only if it is
    finalized. *)
Lemma fold_pending_cadence env e p e' o :
  fold_pending env e p = Ret (e', o) -> 0 < e_finalize_every e -> 0 <= rounds_of e (pa_pair p) < u64_max ->
  e_finalize_every e' = e_finalize_every e /\ rounds_of e (pa_pair p) <= rounds_of e' (pa_pair p) <= rounds_of e (pa_pair p) + 1 /\
  rounds_of e (pa_pair p) / e_finalize_every e + (match o with Some _ => 1 | None => 0 end) <= rounds_of e' (pa_pair p) / e_finalize_every e /\
  (forall i, o <> Some i -> es_pending_batches (e_state e') !! i = es_pending_batches (e_state e) !! i).
Proof.
  intros (inputs & _ & H)%outcome_bind_Ret Hk Hr. destruct inputs as [ext|]; [|injection H as <- <-; split_and!; (done || lia)].
  destruct (fe_fold env (pa_pair p) ext); [|injection H as <- <-; split_and!; (done || lia)].
  destruct (record_fold _ _ _ _ _) as [e1 n] eqn:He. unfold record_fold in He. fold (rounds_of e (pa_pair p)) in He. rewrite wrap64_id in He by lia.
  destruct (st_append _ _ _) as [st evs]. injection He as <- <-.
  assert (Hone : forall e2 : Engine D St, e_ivc_round e2 = <[pa_pair p := rounds_of e (pa_pair p) + 1]> (e_ivc_round e) ->
    rounds_of e2 (pa_pair p) = rounds_of e (pa_pair p) + 1) by (intros e2 H2; unfold rounds_of; by rewrite H2, lookup_insert_eq).
  pose proof (next_round_finalized (rounds_of e (pa_pair p)) (e_finalize_every e) Hk) as Hn. cbn in H.
  destruct (Z.eqb_spec (e_finalize_every e) 0); [lia|]. destruct (Z.eqb_spec ((rounds_of e (pa_pair p) + 1) mod e_finalize_every e) 0).
  - apply finalize_fold_frame in H as (H1 & H2 & H3). cbn in H1, H2, H3. rewrite (Hone e') by done. split_and!; [done|lia|lia|destruct o; lia|done].
  - injection H as He' <-. rewrite (Hone e') by (by rewrite <- He'). rewrite <- He'. split_and!; (done || lia).
Qed.

Lemma fold_from_cadence (fenv : Uuid -> FoldEnv F) pr ps : forall e ids e' ids',
  0 < e_finalize_every e -> Forall (fun p => pa_pair p = pr) ps -> 0 <= rounds_of e pr -> rounds_of e pr + Z.of_nat (length ps) <= u64_max ->
  foldM (fun acc p => let '(e, ids) := acc in
    r ← fold_pending (fenv (pa_batch_id p)) e p; Ret (fst r, ids ++ match snd r with Some i => [i] | None => [] end)) (e, ids) ps = Ret (e', ids') ->
  exists new, ids' = ids ++ new /\ rounds_of e' pr <= rounds_of e pr + Z.of_nat (length ps) /\
    rounds_of e pr / e_finalize_every e + Z.of_nat (length new) <= rounds_of e' pr / e_finalize_every e /\
    (forall i, i ∉ new -> es_pending_batches (e_state e') !! i = es_pending_batches (e_state e) !! i).
Proof.
  induction ps as [|p ps IH]; intros e ids e' ids' Hk Hps H0 Hmax Hf; cbn [foldM length] in *.
  { injection Hf as <- <-. exists []. rewrite app_nil_r. split_and!; (done || cbn [length]; lia). }
  inversion Hps as [|? ? Hp Hps']; subst. apply outcome_bind_Ret in Hf as (acc & Hstep & Hf).
  apply outcome_bind_Ret in Hstep as ([e1 o] & Hone & Hret). injection Hret as <-. cbn [fst snd] in Hf.
  apply fold_pending_cadence in Hone as (H1 & H2 & H3 & H4); [|done|lia].
  apply IH in Hf as (new & -> & H5 & H6 & H7); [|rewrite H1; lia|done|lia|lia]. rewrite H1 in H6.
  exists (match o with Some i => [i] | None => [] end ++ new). rewrite app_assoc, length_app. split_and!; [done|lia|destruct o; simpl length; lia|].
  intros i [Hi1 Hi2]%not_elem_of_app. rewrite H7, H4; [done| |done]. intros ->. by destruct Hi1; left.
Qed.

(** The matches of most rounds are never submitted.  The rounds of a pair
    are counted, and a batch is kept only of a chunk whose count is a multiple
    of the cadence: of the chunks of a pair, however many are folded, at most
    one in [every] leaves a batch, and the pending batches gain nothing from
    the others. *)
Theorem cadence_drops_matches (fenv : Uuid -> FoldEnv F) e ps e' ids pr :
  0 < e_finalize_every e -> Forall (fun p => pa_pair p = pr) ps -> 0 <= rounds_of e pr -> rounds_of e pr + Z.of_nat (length ps) <= u64_max ->
  fold_all fenv e ps = Ret (e', ids) ->
  Z.of_nat (length ids) <= (rounds_of e pr + Z.of_nat (length ps)) / e_finalize_every e - rounds_of e pr / e_finalize_every e /\
  (forall i, i ∉ ids -> es_pending_batches (e_state e') !! i = es_pending_batches (e_state e) !! i).
Proof.
  intros Hk Hps H0 Hmax Hf. destruct (fold_from_cadence fenv pr ps e [] e' ids Hk Hps H0 Hmax Hf) as (new & -> & H1 & H2 & H3).
  split; [|done]. pose proof (Z.div_le_mono _ _ (e_finalize_every e) Hk H1). cbn [app]. lia.
Qed.
End shipped.
