(* ===== verification/ApiExamples.v ===== *)
(** * A concrete server

    Instances of what the API depends on — texts that carry their fields with
    their lengths in place of JSON, tokens and signed messages, a cipher that
    carries the public key it was made for — and requests to a server over the
    engine of the sample run.  They show that the hypotheses of the theorems on
    the API can hold. *)

From S2P Require Import Prelude Decimal Types Field Auction Events Book EngineState Engine Admission Witness Tick Batch Machine.
From S2P Require Import Rounds Provable Examples FileStore Snapshot Recover Text RateLimit Client Siwe Auth Keys Api Sse Server.
From S2P Require Import Merkle Circuit Folding Evm PoseidonBN254 DarkPool PoolExamples ApiSafety Boot Shipped.
Open Scope Z_scope.

#[local] Existing Instances fr_ops fr_laws small_poseidon canonical_iter sample_sha sample_hex sample_hex_laws sample_addr sample_addr_laws
  sample_base sample_keccak sample_poseidon5.

(** ** Fields with their lengths *)

Fixpoint pack (fields : list (list Z)) : list Z :=
  match fields with [] => [] | f :: fields' => Z.of_nat (length f) :: f ++ pack fields' end.

Fixpoint unpack (fuel : nat) (s : list Z) : list (list Z) :=
  match fuel, s with
  | S fuel', n :: s' => take (Z.to_nat n) s' :: unpack fuel' (drop (Z.to_nat n) s')
  | _, _ => []
  end.

Lemma unpack_pack fields fuel : (length (pack fields) <= fuel)%nat -> unpack fuel (pack fields) = fields.
Proof.
  revert fuel; induction fields as [|f fields IH]; intros fuel Hf; [by destruct fuel|].
  destruct fuel as [|fuel]; cbn [pack length] in Hf; [lia|]. rewrite length_app in Hf. cbn [unpack pack].
  rewrite Nat2Z.id, take_app_length, drop_app_length. f_equal. apply IH. lia.
Qed.

Definition fields_of (s : list Z) : list (list Z) := unpack (length s) s.

Lemma fields_of_pack fields : fields_of (pack fields) = fields.
Proof. by apply unpack_pack. Qed.

Lemma Ok_pack {E} fields (t : list Z) : @Ok _ E (pack fields) = Ok t -> fields_of t = fields.
Proof. intros H. assert (t = pack fields) as -> by congruence. apply fields_of_pack. Qed.

(** ** Instances *)

(** An object is its names and values in turn, a value its kind and content; a
    decimal is its digits as one number, an address its hexadecimal digits or,
    behind an equals sign, its bytes. *)
Definition value_fields (m : Str * JsonValue) : list (list Z) :=
  match snd m with JNum z => [fst m; [0; z]] | JText s => [fst m; 1 :: s] | JOther => [fst m; [2]] end.

Fixpoint read_members (fs : list (list Z)) : option (list (Str * JsonValue)) :=
  match fs with
  | [] => Some []
  | n :: (0 :: [z]) :: fs' => option_map (cons (n, JNum z)) (read_members fs')
  | n :: (1 :: s) :: fs' => option_map (cons (n, JText s)) (read_members fs')
  | n :: [2] :: fs' => option_map (cons (n, JOther)) (read_members fs')
  | _ => None
  end.

Lemma read_members_fields ms : read_members (flat_map value_fields ms) = Some ms.
Proof. induction ms as [|[n [z|s|]] ms IH]; [done|..]; cbn [flat_map value_fields snd fst app read_members]; by rewrite IH. Qed.

#[local] Instance sample_json : OrderJson Z := {|
  json_write doc := match doc with JObject ms => pack (flat_map value_fields ms) | JArray _ | JScalar => [] end;
  json_read b := option_map JObject (read_members (fields_of b));
  dec_json d := [d];
  dec_of_json v := match v with JText [d] => Some d | _ => None end;
  address_json a := char "=" :: a;
  address_of_json v :=
    match v with
    | JText (c :: t) => if c =? char "=" then Some t else strip_prefix (str "0x") (c :: t) ≫= hex_decode
    | _ => None
    end
|}.

#[local] Instance sample_json_laws : OrderJsonLaws Z.
Proof. split; [|done..]. intros ms _. cbn [json_read json_write sample_json]. by rewrite fields_of_pack, read_members_fields. Qed.

#[local] Instance sample_ecies : EciesOps := {|
  secret_parse sk := Ok tt;
  public_of_secret sk := map (fun b => b mod 256) sk;
  ecies_encrypt _ pk m := pack [pk; m];
  ecies_decrypt sk c :=
    match fields_of c with
    | [pk; m] => if bool_decide (map (fun b => b mod 256) sk = pk) then Ok m else Err (str "tag")
    | _ => Err (str "shape")
    end
|}.

#[local] Instance sample_ecies_laws : EciesLaws.
Proof.
  split.
  - intros rng sk m _. cbn [ecies_decrypt ecies_encrypt public_of_secret sample_ecies]. rewrite fields_of_pack. by rewrite bool_decide_true.
  - intros rng sk pk m _ Hne. cbn [ecies_decrypt ecies_encrypt public_of_secret sample_ecies] in *. rewrite fields_of_pack. rewrite bool_decide_false by done. eauto.
  - intros sk. cbn. induction sk; simpl; constructor; [|done]. unfold is_byte. pose proof (Z.mod_pos_bound a 256). lia.
Qed.

#[local] Instance sample_jwt : JwtOps := {|
  jwt_encode key c := Ok (pack [key; c_sub c; c_iss c; c_aud c; [c_iat c]; [c_exp c]]);
  jwt_decode key iss aud now t :=
    match fields_of t with
    | [k; sub; i; a; [iat]; [exp]] =>
      if bool_decide (k = key /\ i = iss /\ a = aud) then if now <=? exp + jwt_leeway then Ok (mkClaims sub i a iat exp) else Err (str "ExpiredSignature")
      else Err (str "InvalidToken")
    | _ => Err (str "InvalidToken")
    end
|}.

#[local] Instance sample_jwt_laws : JwtLaws.
Proof.
  split.
  - intros key iss aud now [sub i a iat exp] t. cbn [jwt_encode jwt_decode sample_jwt c_sub c_iss c_aud c_iat c_exp]. intros -> %Ok_pack -> -> Hn. rewrite bool_decide_true by done.
    destruct (Z.leb_spec now (exp + jwt_leeway)); [done|]. unfold jwt_leeway in *. lia.
  - intros key iss aud now [sub i a iat exp] t. cbn [jwt_encode jwt_decode sample_jwt c_sub c_iss c_aud c_iat c_exp]. intros -> %Ok_pack Hn. case_bool_decide; [|eauto].
    destruct (Z.leb_spec now (exp + jwt_leeway)); [lia|eauto].
  - intros key iss aud now c t. cbn [jwt_decode sample_jwt]. destruct (fields_of t) as [|? [|? [|? [|? [|[|iat []] [|[|exp []] []]]]]]]; try done.
    case_bool_decide as Hb; [|done]. destruct (Z.leb_spec now (exp + jwt_leeway)); [|done]. intros [= <-]. simpl. naive_solver.
Qed.

#[local] Instance sample_siwe : SiweOps := {|
  siwe_parse s :=
    match fields_of s with
    | [domain; a; [chain]; nonce; [issued]; [exp]] =>
      if (length a =? 20)%nat && forallb (fun b => (0 <=? b) && (b <? 256)) a then Ok (mkSiweMessage domain a chain nonce issued (Some exp) None)
      else Err (str "address")
    | _ => Err (str "shape")
    end;
  verify_eip191 m sig := if bool_decide (take 20 sig = sm_address m) then Ok tt else Err (str "signer")
|}.

#[local] Instance sample_siwe_laws : SiweLaws.
Proof.
  split. intros s m. cbn. destruct (fields_of s) as [|? [|a [|[|? []] [|? [|[|? []] [|[|? []] []]]]]]]; try done.
  destruct (Nat.eqb_spec (length a) 20) as [Hl|]; [|done]. destruct (forallb _ a) eqn:Hf; [|done]. intros [= <-]. split; [done|].
  apply Forall_forall. intros b Hb. rewrite forallb_forall in Hf. specialize (Hf b ltac:(by apply list_elem_of_In)).
  unfold is_byte. lia.
Qed.

#[local] Instance sample_net : IpNetOps IpAddr := {|
  net_parse s := match parse_ip s with Some a => Ok a | None => Err (str "net") end;
  net_host a := a;
  net_contains n a := bool_decide (n = a)
|}.

#[local] Instance sample_uuid : UuidOps := {|
  uuid_to_string u := [u];
  uuid_parse s := match s with [u] => Ok u | _ => Err (str "uuid") end
|}.

#[local] Instance sample_decimal_parse : DecimalParse Z := {| dec_from_str s := match s with [x] => Ok x | _ => Err (str "decimal") end |}.

#[local] Instance sample_state_codec : BincodeOps (SerializableState Z) := {| ser _ := None; de _ := None |}.

#[local] Instance sample_aead : Aead := {| aead_encrypt _ _ _ m := Some m; aead_decrypt _ _ _ m := Some m |}.

(** ** Limits *)

(** Ten requests a second, twenty at once. *)
Lemma limiter_bound_witness :
  let '(_, made, passed) := limiter_run (str "k") [LAllow 0 (str "k"); LAllow 1 (str "k"); LEvict 5; LAllow (secs 2) (str "k")]
    (limiter_new (10 * F64.one) (20 * F64.one) (secs 600)) in
  2 ^ 50 * 10 ^ 9 * (passed * F64.one) <=
    2 ^ 50 * 10 ^ 9 * (20 * F64.one + made * (2 * F64.ulp (20 * F64.one) + 2)) + (2 ^ 50 + 1) * ((secs 3 - 0) * (10 * F64.one)).
Proof. apply limiter_bound; [by vm_compute|by vm_compute|done|by vm_compute|by vm_compute]. Defined.

Definition proxy_ip : IpAddr := V4 167772161.
Definition forged_headers : Headers := fun name =>
  if bool_decide (name = str "x-forwarded-for") then [Some (str "1.2.3.4, 9.9.9.9")] else [].

Lemma client_ip_unforgeable_witness :
  resolve_client_ip [proxy_ip] forged_headers (Some (V4 5)) = Some (V4 5) /\
  resolve_client_ip [proxy_ip] forged_headers (Some proxy_ip) = Some (V4 151587081).
Proof.
  split.
  - apply (client_ip_unforgeable [proxy_ip] forged_headers (V4 5)). reflexivity.
  - apply (proj2 (client_ip_unforgeable [proxy_ip] forged_headers proxy_ip) [V4 16909060] (V4 151587081) []); [reflexivity|by vm_compute|reflexivity|constructor].
Defined.

(** Two streams of one client. *)
Definition sse1 : Sse := Eval vm_compute in fst (acquire_begin 1 7 (str "a") sse_new).
Definition sse2 : Sse := Eval vm_compute in fst (acquire_end 7 (mkTask (str "a") 0 Waiting) sse1).
Definition sse3 : Sse := Eval vm_compute in fst (acquire_begin 1 8 (str "a") sse2).

Lemma sse_run : rtc (sse_step 1) sse_new sse3.
Proof.
  apply (rtc_l _ _ sse1); [exact (step_begin 1 sse_new 7 (str "a") eq_refl)|].
  apply (rtc_l _ _ sse2); [exact (step_end 1 sse1 7 (mkTask (str "a") 0 Waiting) eq_refl eq_refl)|].
  apply rtc_once. exact (step_begin 1 sse2 8 (str "a") eq_refl).
Qed.

Lemma sse_streams_bounded_witness :
  (forall key, 0 <= open_streams sse3 key <= 1) /\
  (forall id t, sl_tasks sse3 !! id = Some t -> t_stage t = Waiting ->
    (snd (acquire_end id t sse3) = false <-> open_streams sse3 (t_key t) = 1)).
Proof. apply (sse_streams_bounded 1 sse3); [done|apply sse_run]. Defined.

(** ** Signing in *)

Definition siwe_conf : SiweState := mkSiweState NONCE_TTL (jwt_manager_new (str "a secret of more than thirty-two bytes") (secs 3600)) (Some 1) (Some (str "pool")).
Definition login_text : Str := pack [str "pool"; trader 1; [1]; str "n1"; [secs 500]; [secs 700]].
Definition login_sig : Str := hex_encode (trader 1 ++ replicate 45 0).
Definition nonces1 : NonceInner := Eval vm_compute in fst (generate_for (secs 1) (str "n1") (str "ip") nonces_new).
Definition login1 : NonceInner * result VerifyResponse Status := Eval vm_compute in rest_auth_verify siwe_conf (secs 510) (secs 11) login_text login_sig nonces1.
Definition session1 : VerifyResponse := Eval vm_compute in match snd login1 with Ok r => r | Err _ => mkVerifyResponse [] 0 [] end.

Lemma login_session_witness :
  exists m sig, siwe_parse login_text = Ok m /\ login_ok siwe_conf (secs 510) (secs 11) nonces1 m sig /\ ni_nonces (fst login1) !! sm_nonce m = None /\
    vr_expires_at session1 = unix_secs (secs 510) + jm_ttl (ss_jwt siwe_conf) / 1000000000 /\
    forall now' h, header h AUTHORIZATION = Some (Some (str "Bearer " ++ vr_token session1)) ->
      (unix_secs now' <= vr_expires_at session1 -> auth_check (auth_new_with_jwt [str "key"] (ss_jwt siwe_conf)) now' h = Ok (Wallet (sm_address m))) /\
      (vr_expires_at session1 + jwt_leeway < unix_secs now' ->
        exists e, auth_check (auth_new_with_jwt [str "key"] (ss_jwt siwe_conf)) now' h = Err (unauthenticated e)).
Proof.
  apply (login_session siwe_conf (auth_new_with_jwt [str "key"] (ss_jwt siwe_conf)) (secs 510) (secs 11) login_text login_sig nonces1 (fst login1) session1).
  - reflexivity.
  - by vm_compute.
  - by vm_compute.
  - by_run.
Defined.

(** ** Keys *)

Definition secret1 : bytes := replicate 32 1.
Definition secret2 : bytes := replicate 32 2.
Definition two_keys : list (@KeyEntry Z) :=
  [mkKeyEntry (str "old") KeyRotating (ecies_decrypter secret1); mkKeyEntry (str "new") KeyActive (ecies_decrypter secret2)].

Lemma two_keys_secret : Forall from_secret two_keys.
Proof. repeat constructor; [by exists secret1|by exists secret2]. Qed.

Lemma rotation_keeps_orders_witness :
  exists id sk pk, hex_decode (hex_encode secret2) = Some pk /\
    (forall ops rng o, Forall (keeps id sk) ops ->
      multi_decrypt (foldl (fun k op => key_exec (fun _ => []) op k) two_keys ops) (ecies_encrypt rng pk (order_to_json o)) = Ok o) /\
    (forall ops rng o, ~ holds_key pk (foldl (fun k op => key_exec (fun _ => []) op k) two_keys ops) ->
      exists e, multi_decrypt (foldl (fun k op => key_exec (fun _ => []) op k) two_keys ops) (ecies_encrypt rng pk (order_to_json o)) = Err e).
Proof. apply (rotation_keeps_orders (D:=Z) (fun _ => []) two_keys); [apply two_keys_secret|reflexivity]. Defined.

(** ** Requests *)

Definition sample_cfg : @ServerConfig IpAddr :=
  mkServerConfig (auth_new_with_jwt [str "key"] (ss_jwt siwe_conf)) (auth_new [str "operator"]) [] (Some siwe_conf) 1.

Definition sample_serve_env : @ServeEnv Z Fr (MemStore.Inner Z) :=
  mkServeEnv (secs 520) (secs 21) ok_store (fun _ _ _ => Ok (Examples.whole 1000, 0)) (Some (fun _ _ => true)) 77 (str "n2") 9 two_keys
    (mkKeyEnv (fun _ => None) None (fun _ _ => Err [])) (e_state eng3) (e_state eng3) eng3 [] [].

Definition sample_server : @Server Z (MemStore.Inner Z) :=
  mkServer eng3 two_keys nonces1 (limiter_new (10 * F64.one) (20 * F64.one) (secs 600)) sse_new.

Definition session_headers : Headers := fun name =>
  if bool_decide (name = AUTHORIZATION) then [Some (str "Bearer " ++ vr_token session1)] else [].

(** The first trader cancels the order of identifier [i]. *)
Definition cancel_request (i : Uuid) : Request := mkRequest (Public (RCancelOrder [i] [])) session_headers None.

Definition status_of (i : Uuid) : option Z :=
  match serve (N:=IpAddr) (F:=Fr) (fun _ => []) (fun _ => []) sample_cfg sample_serve_env (cancel_request i) sample_server with
  | Ret (_, r) => Some (rs_status r)
  | Panic => None
  end.

(** The owner may, another trader may not. *)
Lemma cancel_statuses : status_of 1 = Some 200 /\ status_of 2 = Some 404.
Proof. split; by_run. Qed.

Lemma api_authority_witness :
  exists s' resp, serve (N:=IpAddr) (F:=Fr) (fun _ => []) (fun _ => []) sample_cfg sample_serve_env (cancel_request 1) sample_server = Ret (s', resp) /\
    api_effect sample_cfg sample_serve_env (cancel_request 1) sample_server s' /\
    (forall r, rq_route (cancel_request 1) = Admin r -> ~ as_operator sample_cfg sample_serve_env (cancel_request 1) -> s' = sample_server /\ rs_status resp = 401).
Proof.
  apply (api_authority (F:=Fr) (N:=IpAddr) (fun _ => []) (fun _ => []) sample_cfg sample_serve_env (cancel_request 1) sample_server).
  - apply eng3_reachable.
  - exists []. done.
  - by_room.
  - by_run.
Defined.

(** The books of the run, as maps. *)
Lemma books_of_run :
  hm_values (books (es_book (e_state eng2))) = [mkPerPairBook {[1 := order_in eng2 1]} ∅] /\
  hm_values (books (es_book (e_state eng3))) = [mkPerPairBook {[1 := order_in eng2 1]} {[2 := order_in eng3 2]}].
Proof. split; by_run. Qed.

(** To the first trader the engine looks the same with and without the order of
    the second. *)
Lemma sample_same_view : same_view (trader 1) eng2 eng3.
Proof.
  split; [by_run|]. destruct books_of_run as [H2 H3]. intros i o Ho. unfold Book.find_order. rewrite H2, H3. clear H2 H3. cbn [find_in ppb_bids ppb_asks].
  assert (Ht : o_trader (order_in eng3 2) = trader 2) by by_run. revert Ht. generalize (order_in eng2 1) (order_in eng3 2). intros o1 o2 Ht.
  destruct (decide (i = 1)) as [->|H1]; [by rewrite lookup_singleton_eq|]. rewrite !lookup_singleton_ne, lookup_empty by done.
  destruct (decide (i = 2)) as [->|Hi2]; [rewrite lookup_singleton_eq|by rewrite lookup_singleton_ne].
  split; [done|]. intros [= <-]. rewrite Ht in Ho. discriminate.
Qed.

Lemma reads_reveal_own_witness :
  (forall order_id, api_get_order eng2 (Some (Wallet (trader 1))) order_id = api_get_order eng3 (Some (Wallet (trader 1))) order_id) /\
  (forall i, owned_order eng2 (Some (trader 1)) i = owned_order eng3 (Some (trader 1)) i) /\
  (forall pr, same_answer (list_orders eng2 (Some (Wallet (trader 1))) pr) (list_orders eng3 (Some (Wallet (trader 1))) pr)) /\
  (forall l oi, list_orders eng2 (Some (Wallet (trader 1))) [] = Ok l ->
    (oi ∈ l <-> exists i o, Book.find_order (es_book (e_state eng2)) i = Some o /\ o_trader o = trader 1 /\ oi = order_to_proto o)) /\
  (forall pr order_id i, list_orders eng2 (Some ApiKey) pr = Ok [] /\ owned_order eng2 (caller_address (Some ApiKey)) i = None /\
    api_get_order eng2 (Some ApiKey) order_id = api_get_order eng3 (Some ApiKey) order_id).
Proof. apply (reads_reveal_own (F:=Fr) (trader 1) eng2 eng3); [apply eng2_reachable|apply eng3_reachable|apply sample_same_view]. Defined.

(** ** Starting *)

(** A configuration without any of the development flags: keys, a private
    endpoint, sealed snapshots in a directory, listeners on loopback. *)
Definition safe_config : Config := {|
  cf_grpc_addr := V4 2130706433;
  cf_http_addr := V4 2130706433;
  cf_tls_cert := [];
  cf_tls_key := [];
  cf_tls_client_ca := [];
  cf_insecure := false;
  cf_auction_interval := secs 5;
  cf_api_keys_raw := str "key";
  cf_operator_api_keys_raw := str "operator, second";
  cf_allow_unauthenticated_admin := false;
  cf_pair_seed_json := str "seed";
  cf_rate_limit := 10 * F64.one;
  cf_rate_burst := 20 * F64.one;
  cf_rate_stale_after := 0;
  cf_request_timeout := secs 30;
  cf_max_concurrent_requests := 100;
  cf_http2_max_concurrent_streams := 100;
  cf_sse_streams_per_key := 4;
  cf_trusted_proxies := str "10.0.0.1";
  cf_event_log := str "/var/events";
  cf_event_db := [];
  cf_snapshot_enabled := true;
  cf_snapshot_dir := str "/var/snapshots";
  cf_snapshot_key_uri := str "file:/keys/snapshot";
  cf_operator_key := [];
  cf_operator_key_uris := str "file:/keys/a#a,file:/keys/b#b@sunset";
  cf_signer_key_uri := str "file:/keys/signer";
  cf_aggregator_bin := [];
  cf_aggregator_timeout := 0;
  cf_zk_proving_key := [];
  cf_order_proof_vk := str "/keys/vk";
  cf_allow_unverified_order_proofs := false;
  cf_zk_batch_size := 8;
  cf_submit_timeout := 0;
  cf_eth_rpc := str "http://node";
  cf_settlement_private_rpc := str "http://private";
  cf_allow_public_settlement := false;
  cf_contract_addr := trader 9;
  cf_chain_id := 1;
  cf_submit_gas := 0;
  cf_siwe_enabled := true;
  cf_session_secret_raw := str "a secret of more than thirty-two bytes";
  cf_session_ttl := secs 3600;
  cf_siwe_domain_raw := str "pool"
|}.

Definition seed_entry : PairSeedEntry := mkPairSeedEntry (str "eth/usdc") (trader 7) (trader 8) [] [] None None (Some 6).

Definition safe_env : BootEnv (D:=Z) (F:=Fr) (St:=MemStore.Inner Z) (Sn:=MemSnapshotStore.Snaps) := {|
  be_is_file := fun _ => true;
  be_is_dir := fun _ => true;
  be_key_env := mkKeyEnv (fun _ => Some (hex_encode secret1)) None (fun _ _ => Err []);
  be_open_store := fun _ => Ok tt;
  be_open_snapshots := fun _ => Ok tt;
  be_verifying_key := fun _ => Ok (fun _ _ => true);
  be_signer := fun _ => Ok tt;
  be_url := fun _ => true;
  be_snapshots := fun _ => MemSnapshotStore.new;
  be_ephemeral_key := replicate 32 3;
  be_aggregate := fun _ _ _ _ => Err (AggZk []);
  be_batch_id := fun i => i;
  be_append := fun _ => ok_store;
  be_seed_json := fun _ => Ok [seed_entry];
  be_tls := fun _ => Ok tt;
  be_empty_store := fun _ => MemStore.new;
  be_store_env := ok_store;
  be_now := secs 1
|}.

Definition booted : Booted (D:=Z) (F:=Fr) (St:=MemStore.Inner Z) (N:=IpAddr) :=
  match boot 2 safe_config safe_env with
  | Ret (Some (Ok b)) => b
  | _ => mkBooted Plaintext MemEvents None None None NoopAggregator NoopSubmitter InsecureDevOracle sample_cfg sample_server
  end.

Lemma boots : boot 2 safe_config safe_env = Ret (Some (Ok booted)).
Proof. vm_compute. reflexivity. Qed.

Lemma boot_fails_closed_witness :
  (cf_allow_unauthenticated_admin safe_config = false -> operator_only safe_config (sc_admin_auth (bt_config booted))) /\
  (bt_tls booted = Plaintext -> cf_insecure safe_config = true \/ (is_loopback (cf_grpc_addr safe_config) = true /\ is_loopback (cf_http_addr safe_config) = true)) /\
  match bt_submitter booted with
  | NoopSubmitter => True
  | OnChainSubmitter _ submit_rpc _ transport => (exists a, bt_oracle booted = ChainBalanceOracle a) /\
    match transport with
    | PrivateRpc => opt (cf_settlement_private_rpc safe_config) = Some submit_rpc
    | PublicMempool => cf_allow_public_settlement safe_config = true
    end
  end /\
  (bt_verifier booted = None -> cf_allow_unverified_order_proofs safe_config = true) /\
  match bt_snapshots booted with
  | None => bt_snapshot_key booted = None
  | Some MemSnapshots => is_Some (bt_snapshot_key booted)
  | Some _ => exists k, bt_snapshot_key booted = Some (KeyOfUri k) /\ length k = 32%nat
  end /\
  (forall siwe, sc_siwe (bt_config booted) = Some siwe -> (32 <= length (jm_key (ss_jwt siwe)))%nat) /\
  Forall from_secret (sv_keys (bt_server booted)).
Proof. apply (boot_fails_closed 2 safe_config safe_env booted), boots. Defined.

(** ** Settling *)

Definition shipped_folds (i : Uuid) : FoldEnv Fr :=
  shipped_env NoopAggregator (mkFoldEnv (fun _ _ => Ok tt) (fun _ => Err (AggZk [])) ok_store ok_store (secs 601)).

(** The engine of the run, finalizing after every round. *)
Definition eager : SampleEngine := set_finalize_every eng4 1.

Definition shipped_run : SampleEngine * list Uuid :=
  match fold_all shipped_folds eager [chunk1] with Ret r => r | Panic => (eager, []) end.

(** The batch of the run is yielded. *)
Lemma shipped_run_yields : snd shipped_run = [pa_batch_id chunk1].
Proof. by_run. Qed.

Lemma shipped_server_never_settles_witness :
  exists pb proof z0 zN n h,
    es_pending_batches (e_state (fst shipped_run)) !! pa_batch_id chunk1 = Some pb /\
    submit_params (pa_batch_id chunk1) pb =
      SubmitSession (pa_batch_id chunk1) proof z0 zN n h (pb_auction_id pb) (pb_settlement_matches pb) /\
    forall env (pool : DarkPool Base) sid, settlementDomain pool <> 0 -> exists err, submitSession env pool sid proof z0 zN n (be_value h) = Err err.
Proof.
  apply (shipped_server_never_settles (F:=Fr) (B:=Base) NoopAggregator
    (fun _ => mkFoldEnv (fun _ _ => Ok tt) (fun _ => Err (AggZk [])) ok_store ok_store (secs 601)) eager [chunk1] (fst shipped_run) (snd shipped_run)).
  - by_run.
  - rewrite shipped_run_yields. left.
Defined.

(** At the default cadence the chunk of the run is folded and forgotten. *)
Definition folding (i : Uuid) : FoldEnv Fr :=
  mkFoldEnv (fun _ _ => Ok tt) (fun _ => Ok (mkFinalProof [] [] [] 1 fr_zero)) ok_store ok_store (secs 601).

Definition cadence_run : SampleEngine * list Uuid :=
  match fold_all folding eng4 [chunk1] with Ret r => r | Panic => (eng4, []) end.

Lemma cadence_drops_matches_witness :
  Z.of_nat (length (snd cadence_run)) <= (rounds_of eng4 eth_usdc + 1) / 60 - rounds_of eng4 eth_usdc / 60 /\
  (forall i, i ∉ snd cadence_run -> es_pending_batches (e_state (fst cadence_run)) !! i = es_pending_batches (e_state eng4) !! i).
Proof.
  apply (cadence_drops_matches folding eng4 [chunk1] (fst cadence_run) (snd cadence_run) eth_usdc).
  - done.
  - by repeat constructor.
  - by vm_compute.
  - by vm_compute.
  - by_run.
Defined.
