(* ===== verification/OrderClientExamples.v ===== *)
(** * A submitted order

    The bid of the sample run, prepared by the client and read by the engine:
    the hypotheses of the theorems of [OrderClient.v] can hold. *)

From S2P Require Import Prelude Decimal Types Field Auction Events Book Merkle EngineState Engine Admission Witness Tick Batch Machine.
From S2P Require Import Examples Text Keys Api OrderProof ApiExamples OrderClient.
Open Scope Z_scope.

#[local] Existing Instances fr_ops fr_laws canonical_iter small_poseidon sample_sha sample_hex sample_hex_laws sample_addr
  sample_json sample_json_laws sample_decimal_parse.

(** A key is 65 bytes, and a ciphertext names the key it is for. *)
Definition public_key (sk : bytes) : bytes := take 65 (map (fun b => b mod 256) sk ++ replicate 65 0).

#[local] Instance padded_ecies : EciesOps := {|
  secret_parse sk := Ok tt;
  public_of_secret := public_key;
  ecies_encrypt _ pk m := pack [pk; m];
  ecies_decrypt sk c :=
    match fields_of c with
    | [pk; m] => if bool_decide (public_key sk = pk) then Ok m else Err (str "tag")
    | _ => Err (str "shape")
    end
|}.

#[local] Instance padded_ecies_laws : EciesLaws.
Proof.
  split.
  - intros rng sk m _. cbn [ecies_decrypt ecies_encrypt public_of_secret padded_ecies]. rewrite fields_of_pack. by rewrite bool_decide_true.
  - intros rng sk pk m _ Hne. cbn [ecies_decrypt ecies_encrypt public_of_secret padded_ecies] in *. rewrite fields_of_pack. rewrite bool_decide_false by done. eauto.
  - intros sk. apply Forall_take, Forall_app. split; [|by apply Forall_replicate]. induction sk; constructor; [|done]. unfold is_byte. pose proof (Z.mod_pos_bound a 256). lia.
Qed.

#[local] Instance padded_client : ClientOps := {|
  ecies_try_encrypt _ pk m := Ok (pack [pk; m]);
  b64_encode b := b
|}.

#[local] Instance padded_client_laws : ClientLaws Z.
Proof.
  split.
  - intros rng sk m _. split; [done|]. cbn [public_of_secret padded_ecies]. unfold public_key.
    rewrite length_take, length_app, length_replicate. lia.
  - intros [|c t] addr Ha _; [done|]. cbn [address_of_json sample_json]. destruct (Z.eqb_spec c (char "=")) as [->|]; [done|exact Ha].
Qed.

Definition secret : bytes := [1; 2; 3].

Definition bid_payload : OrderPayload Z :=
  mkOrderPayload (str "0x" ++ hex_encode (trader 1)) eth_usdc Buy (Examples.whole 100) (Examples.whole 5) (str "k") (hex64 101) (hex64 201) (secs 1000) 0.

Definition bid_submission : OrderSubmission := Eval vm_compute in
  match prepare_submission (F:=Fr) 0 (public_of_secret secret) bid_payload with Ok s => s | Err _ => mkOrderSubmission [] [] [] [] [] end.

Definition open_env : PlaceEnv Z Fr :=
  mkPlaceEnv (ecies_decrypter_decrypt secret) (fun _ _ _ => Ok (Examples.whole 1000, 0)) None (secs 500) 1.

Definition bid_spend : Address * Z := Eval vm_compute in
  match check_pair (e_state eng1) eth_usdc (order_of bid_payload (trader 1)) with Ret (Ok s) => s | _ => ([], 0) end.

Lemma submission_admitted_witness :
  ecies_decrypter_decrypt secret (os_encrypted_payload bid_submission) = Ok (order_of bid_payload (trader 1)) /\
  exists sec nonce, s_commitment sec = os_commitment bid_submission /\ s_trader_id sec = os_trader_id bid_submission /\ s_salt sec = os_salt bid_submission /\
    parse_order_nonce (D:=Z) (op_nonce bid_payload) = Ok nonce /\
    prepare_order open_env (e_state eng1) (e_state eng1) (os_proof bid_submission) (os_encrypted_payload bid_submission) (trader 1) =
    Ret (let? _ := check_proof (pe_verifier open_env) (os_proof bid_submission) sec in
         Ok (mkPrepared (new_order open_env eth_usdc (order_of bid_payload (trader 1)) (os_encrypted_payload bid_submission) (secs 1000)) sec
           (mkReplayProtection (s_nullifier sec) (order_nonce_digest (trader 1) nonce)))).
Proof.
  apply (submission_admitted (D:=Z) (F:=Fr) open_env (e_state eng1) (e_state eng1) 0 secret bid_payload bid_submission (trader 1) eth_usdc bid_spend
    (secs 1000) (Examples.whole 1000, 0)).
  - reflexivity.
  - reflexivity.
  - by_run.
  - by_run.
  - vm_compute. discriminate.
  - apply (bool_decide_eq_true_1 (ciphertext_digest (os_encrypted_payload bid_submission) ∉ es_seen_ciphertexts (e_state eng1))). by_run.
  - by_run.
  - by_run.
  - by_run.
  - reflexivity.
Defined.

(** The salt 101 is canonical. *)
Definition trade_args : TradeArgs (D:=Z) :=
  mkTradeArgs (str "0x" ++ hex_encode (trader 1)) eth_usdc Buy (Examples.whole 100) (Examples.whole 5) (str "k") (str "0x" ++ hex_encode (public_of_secret secret)).

Definition traded : OrderSubmission := Eval vm_compute in
  match trade (D:=Z) (F:=Fr) (fun _ => false) (fun _ => None) (Some (secs 500)) 0 (be_bytes 32 101) (be_bytes 32 201) trade_args (secs 500) with
  | Ok s => s | Err _ => mkOrderSubmission [] [] [] [] [] end.

Lemma trade_salt_canonical_witness :
  trade (D:=Z) (F:=Fr) (fun _ => false) (fun _ => None) (Some (secs 500)) 0 (be_bytes 32 101) (be_bytes 32 201) trade_args (secs 500) = Ok traded /\
  be_value (be_bytes 32 101) < FR /\ 5 * FR < 2 ^ 256.
Proof.
  split; [by_run|].
  apply (trade_salt_canonical (D:=Z) (F:=Fr) (fun _ => false) (fun _ => None) (Some (secs 500)) 0 (be_bytes 32 101) (be_bytes 32 201) trade_args (secs 500) traded).
  - apply be_bytes_bytes.
  - reflexivity.
  - by_run.
Defined.

Definition exported : Str := Eval vm_compute in
  match compute_commitment_wasm (F:=Fr) (str "k") 0 [Examples.whole 100] [Examples.whole 5] (hex64 101) with Ok t => t | Err _ => [] end.

Lemma exported_commitment_witness :
  exists addr fa fk inp, parse_trader_address (D:=Z) (op_trader bid_payload) = Ok addr /\
    bytes_to_scalar (D:=Z) addr = Ok fa /\ bytes_to_scalar (D:=Z) (as_bytes (op_commitment_key bid_payload)) = Ok fk /\
    os_commitment bid_submission = fr_to_bytes32 (F:=Fr) (commit_native inp) /\
    (exported = hex_encode (os_commitment bid_submission) ->
     fa = fk \/ collides [fa] [fk] \/ collides (as_field_elements inp) (poseidon [fk] :: drop 1 (as_field_elements inp))).
Proof.
  apply (exported_commitment (D:=Z) (F:=Fr) 0 (public_of_secret secret) bid_payload bid_submission [Examples.whole 100] [Examples.whole 5] exported).
  - by_run.
  - reflexivity.
  - reflexivity.
  - by_run.
Defined.
