(* ===== verification/SnapshotFilesExamples.v ===== *)
(** * A directory of snapshots

    The engine of the sample run snapshots into an empty directory: the
    hypotheses of the theorems of [SnapshotFiles.v] can hold. *)

From S2P Require Import Prelude Decimal Types Field Auction Events Book Merkle FileStore EngineState Engine Admission Witness Tick Batch Machine.
From S2P Require Import Examples Snapshot Recover Replay Recovery RecoveryExamples Text SnapshotFiles.
Open Scope Z_scope.

#[local] Existing Instances fr_ops fr_laws canonical_iter small_poseidon sample_sha sample_hex sample_addr write_only_codec plain_aead sound_ops.

Lemma empty_directory : represents (Some ∅) ∅.
Proof. split; [intros name sq [x Hx]; by rewrite lookup_empty in Hx|done|intros sq [x Hx]; by rewrite lookup_empty in Hx]. Qed.

(** One snapshot, and a sibling a crash left. *)
Definition two_files : gmap Str bytes := <[tmp_for 9 := [7]]> (<[path_for 8 := [1; 2]]> ∅).

Lemma two_files_represent : represents (Some two_files) {[8 := [1; 2]]}.
Proof.
  apply (holds_tmp (<[path_for 8 := [1; 2]]> ∅) _ _ 9).
  - apply holds_insert; [split; [lia|reflexivity]|apply empty_directory].
  - intros name Hne. unfold two_files. by rewrite lookup_insert_ne by congruence.
Qed.

Definition broken_write : DirEnv := mkDirEnv (Some (1%nat, 1%nat)) false (fun _ => false) (fun _ => false).

(** The write that follows the crash which left the sibling. *)
Lemma snapshot_directory_witness :
  file_list_seqs broken_write (Some two_files) = Ok [8] /\
  (forall g, crashed true {[tmp_for 9]} two_files (write_ops 9 [3]) g -> represents (Some g) (<[9 := [3]]> {[8 := [1; 2]]})).
Proof.
  pose proof (snapshot_directory broken_write (Some two_files) {[8 := [1; 2]]} two_files_represent) as (Hl & _ & _ & _ & _ & Hc). split.
  - destruct Hl as [Hl|[_ Hf]]; [exact Hl|discriminate Hf].
  - intros g Hg. destruct (Hc two_files {[tmp_for 9]} 9 [3]) as [_ Hcr]; [reflexivity|split; [lia|reflexivity]|intros name Hn%elem_of_singleton; by exists 9|].
    destruct (Hcr true g Hg) as [[Hf _]|H]; [discriminate Hf|exact H].
Defined.

Lemma engine_over_directory_witness :
  exists g, take_snapshot ok_store (Some zero_key) zero_nonce keep_nothing eng4 (Some ∅ : Dir) =
      Ret (fst (fst snapped), Some g, snd snapped) /\ represents (Some g) (snd (fst snapped)).
Proof.
  pose proof (engine_over_directory (F:=Fr) 20 restart_env ok_store (Some zero_key) zero_nonce keep_nothing eng4 ∅ ∅ empty_directory) as H.
  destruct H as (Ht & _ & _); [vm_compute; split; [discriminate|reflexivity]|]. apply Ht. by_run.
Defined.
