(* ===== verification/PgStoreExamples.v ===== *)
(** * The sample run over Postgres

    A codec for two kinds of events and the start of the run of [Examples.v]
    on a table: the hypotheses of the theorems of [PgStore.v] can hold, and a
    restart after a lost acknowledgement finds one order twice. *)

From S2P Require Import Prelude Decimal Types Field Auction Events Book Merkle EngineState Engine Admission Witness Tick Batch Machine.
From S2P Require Import FileStore Examples Snapshot Recover Replay RecoveryExamples ApiExamples PgStore.
Open Scope Z_scope.

#[local] Existing Instances fr_ops fr_laws canonical_iter small_poseidon sample_sha sample_hex sample_addr write_only_codec plain_aead.

#[local] Instance packed_codec : BincodeOps (Event Z) := {|
  ser e :=
    match ev_type e, ev_data e with
    | TOrderPlaced, OrderPlaced i c p ct => Some (pack [[1]; [ev_seq e]; [ev_timestamp e]; [i]; c; p; ct])
    | TPairRegistered, PairRegistered pr base quote sz tick interval bd qd =>
      Some (pack [[9]; [ev_seq e]; [ev_timestamp e]; pr; base; quote; [sz]; [tick]; option_list interval; [bd]; [qd]])
    | _, _ => None
    end;
  de b :=
    match fields_of b with
    | [[1]; [sq]; [ts]; [i]; c; p; ct] => Some (mkEvent sq TOrderPlaced ts (OrderPlaced i c p ct))
    | [[9]; [sq]; [ts]; pr; base; quote; [sz]; [tick]; interval; [bd]; [qd]] =>
      Some (mkEvent sq TPairRegistered ts (PairRegistered pr base quote sz tick (head interval) bd qd))
    | _ => None
    end
|}.

Lemma Some_pack fields (t : list Z) : Some (pack fields) = Some t -> t = pack fields.
Proof. congruence. Qed.

#[local] Instance packed_codec_laws : BincodeLaws (Event Z).
Proof.
  split; intros [sq ty ts d] b; cbn [ser de packed_codec ev_type ev_data ev_seq ev_timestamp]; destruct ty, d; try done; intros ->%Some_pack; try done;
    rewrite fields_of_pack; [done|]. by destruct auction_interval_ms.
Qed.

(** Microseconds. *)
#[local] Instance micros : PgTime := {| pg_time t := t / 1000 * 1000 |}.

Definition pg0 : Engine Z Pg := engine_new (mkPg [] 0 0) 0.

Definition pg1 : Engine Z Pg := Eval vm_compute in fst (register_pair_with_event ok_store (secs 1) pg0 (str "eth/usdc") sample_config).

Lemma pg1_wf : pg_wf (D:=Z) (e_store pg1).
Proof. split; cbn; repeat constructor; try lia; try done. Qed.

(** The commit is carried out, the answer is lost. *)
Definition lost_env : StoreEnv := mkStoreEnv (fun _ => 1) (Some (1%nat, 1%nat)).

Definition timed_out : Engine Z Pg := Eval vm_compute in
  match place_encrypted_order (sample_env 1 Buy 100 5 (whole 1000)) lost_env (e_state pg1) (e_state pg1) pg1 [1] [1] (trader 1) with
  | Ret (e, _) => e | Panic => pg1 end.

Lemma times_out :
  place_encrypted_order (sample_env 1 Buy 100 5 (whole 1000)) lost_env (e_state pg1) (e_state pg1) pg1 [1] [1] (trader 1) =
  Ret (timed_out, Err (EventErr EvTimeout)).
Proof. by_run. Qed.

(** The trader submits the same order again a second later; it gets the
    identifier 2. *)
Definition again_env : PlaceEnv Z Fr := resubmitted (sample_env 1 Buy 100 5 (whole 1000)) (secs 501) 2.

Definition again : Engine Z Pg * result (Order Z) (EngineError Z) := Eval vm_compute in
  match place_encrypted_order again_env ok_store (e_state timed_out) (e_state timed_out) timed_out [1] [1] (trader 1) with
  | Ret r => r | Panic => (pg1, Err (EventErr EvIo)) end.

Definition again_order : Order Z := Eval vm_compute in
  match snd again with Ok o => o | Err _ => order_in eng2 1 end.

Lemma again_accepted :
  place_encrypted_order again_env ok_store (e_state timed_out) (e_state timed_out) timed_out [1] [1] (trader 1) = Ret (fst again, Ok again_order).
Proof. by_run. Qed.

Definition restarted : Engine Z Pg := Eval vm_compute in
  match recover (F:=Fr) (Sn:=MemSnapshotStore.Snaps) 20 restart_env None None (engine_new (pg_open (e_store (fst again))) 0) with
  | Ret (Some (e, Ok _)) => e | _ => pg0 end.

(** The log has both, and so has the book after a restart. *)
Lemma lost_acknowledgement_admits_twice_witness :
  (e_state timed_out = e_state pg1 /\ e_secrets timed_out = e_secrets pg1 /\
   exists c ev1 ev2, pg_log (e_store (fst again)) = pg_log (e_store pg1) ++ [ev1; ev2] /\
     ev_data ev1 = OrderPlaced 1 c [1] [1] /\ ev_data ev2 = OrderPlaced 2 c [1] [1]) /\
  recover (F:=Fr) (Sn:=MemSnapshotStore.Snaps) 20 restart_env None None (engine_new (pg_open (e_store (fst again))) 0) = Ret (Some (restarted, Ok tt)) /\
  option_map o_encrypted_payload (Book.find_order (es_book (e_state restarted)) 1) = Some [1] /\
  option_map o_encrypted_payload (Book.find_order (es_book (e_state restarted)) 2) = Some [1].
Proof.
  split; [|split; [by_run|split; by_run]].
  destruct (lost_acknowledgement_admits_twice (sample_env 1 Buy 100 5 (whole 1000)) (secs 501) 2 lost_env ok_store pg1 timed_out [1] [1] (trader 1) 0 0)
    as (H1 & H2 & e2 & o & c & ev1 & ev2 & Hpl & Ho & _ & Hl & Hd1 & Hd2).
  - exact pg1_wf.
  - reflexivity.
  - exact times_out.
  - vm_compute. discriminate.
  - intros d Hd. injection Hd as <-. reflexivity.
  - discriminate.
  - reflexivity.
  - reflexivity.
  - intros ts c. eexists. reflexivity.
  - split; [exact H1|]. split; [exact H2|]. fold again_env in Hpl. rewrite again_accepted in Hpl. injection Hpl as <- <-.
    exists c, ev1, ev2. split; [exact Hl|]. split; [exact Hd1|]. rewrite Ho in Hd2. exact Hd2.
Defined.

Lemma pg_table_is_log_witness :
  append_contract (D:=Z) lost_env (e_store pg1) [new_event 0 (OrderPlaced 5 [] [] [])]
    (fst (pg_append lost_env (e_store pg1) [new_event 0 (OrderPlaced 5 [] [] [])])) (Err EvTimeout) /\
  pg_read_from (e_store pg1) 0 10 = Ret (Ok (pg_log (e_store pg1))).
Proof.
  destruct (pg_table_is_log (e_store pg1)) as (Ha & Hr & _).
  - exact pg1_wf.
  - split; [apply Ha; reflexivity|]. rewrite Hr by (vm_compute; split; done || discriminate). by vm_compute.
Defined.

Lemma pg_snapshots_are_map_witness :
  let env := mkPgSnapEnv None false (Some false) in
  snap_list_seqs (SnapStoreOps:=pg_snap_ops env) ({[3 := [1]]} : gmap Z bytes) = Ok [3] /\
  bigint_keys (fst (snap_write (SnapStoreOps:=pg_snap_ops env) ({[3 := [1]]} : gmap Z bytes) 5 [2])).
Proof.
  cbv zeta. destruct (pg_snapshots_are_map (mkPgSnapEnv None false (Some false)) {[3 := [1]]}) as (Hw & _ & _ & Hl & _).
  - intros k [x [<- _]%lookup_singleton_Some]. by split; vm_compute.
  - destruct Hl as [Hl|Hl]; [discriminate Hl|]. split; [rewrite Hl; by vm_compute|].
    destruct (snap_write _ 5 [2]) as [t r] eqn:Ht. apply (Hw 5 [2] t r); [split; vm_compute; discriminate|exact Ht].
Defined.
