(* ===== verification/ZkCliExamples.v ===== *)
(** * The command line on the sample run

    A setup, a demonstration proof and a restart that runs the repository's own
    prover: the hypotheses of the theorems of [ZkCli.v] can hold. *)

From S2P Require Import Prelude Decimal Types Field Auction Events Book Merkle FileStore EngineState Engine Admission Witness Tick Batch Machine.
From S2P Require Import Provable Examples Text Api Snapshot Recover Replay RecoveryExamples SnapshotFiles Prime Circuit OrderProof OrderProofExamples ZkCli.
Open Scope Z_scope.

#[local] Existing Instances fr_ops fr_laws canonical_iter small_poseidon sample_sha sample_hex sample_hex_laws sample_addr
  write_only_codec plain_aead single_decimal transparent transparent_laws.

(** ** The setup *)

Definition stepping_rng : RngEnv := mkRngEnv le_value 7 Z.succ.

Definition fresh_setup : Dir * result (Str * Str) SetupError := Eval vm_compute in
  match generate_and_write (D:=Z) (F:=Fr) (PF:=CommitmentPreimageCircuit Fr) stepping_rng true None None None with Ret r => r | Panic => (None, Err CreateDir) end.

Lemma setup_keys_paired_witness :
  snd fresh_setup = Ok (PK_FILENAME, VK_FILENAME) /\
  exists f pkb vkb, fst fresh_setup = Some f /\ f !! PK_FILENAME = Some pkb /\ f !! VK_FILENAME = Some vkb /\
    keys_work (D:=Z) (F:=Fr) (PK:=unit) (VK:=unit) (PVK:=unit) (PF:=CommitmentPreimageCircuit Fr) pkb vkb.
Proof.
  split; [reflexivity|].
  destruct (setup_keys_paired (D:=Z) (F:=Fr) (PF:=CommitmentPreimageCircuit Fr) stepping_rng true None None None
    (fst fresh_setup) (snd fresh_setup)) as [_ H].
  - by_run.
  - destruct H as [_ H]; [by intros f|exact H].
Defined.

(** ** The demonstration *)

Definition bid_input : ProveSingleInput Z :=
  mkProveSingleInput (hex64 101) 0 (Examples.whole 100) (Examples.whole 5) (Some (str "0x" ++ hex_encode (trader 1))) None.

Definition bid_circuit : CommitmentPreimageCircuit Fr :=
  match single_circuit bid_input with Ok c => c | Err _ => mkPreimage fr_zero fr_zero fr_zero fr_zero fr_zero fr_zero end.

Lemma fixture_proof_verifies_witness :
  exists out pfb x s, generate_proof (F:=Fr) stepping_rng bid_input None = Ret (Ok out) /\
    pso_proof out = hex_encode pfb /\ pso_verification_key out = hex_encode (wrap_key_envelope []) /\
    hex_decode (pso_commitment out) = Some (fr_to_bytes32 x) /\ hex_decode (so_salt (pso_scalars out)) = Some (fr_to_bytes32 s) /\
    verify_proof (wrap_key_envelope []) pfb (derive_publics x s) = Ok true /\
    compute_commitment (F:=Fr) (mkCommitInput (Some (so_trader_id (pso_scalars out))) (psi_salt bid_input) (psi_side bid_input)
      (psi_limit_price bid_input) (psi_size bid_input) None) = Ok (pso_commitment out).
Proof.
  apply (fixture_proof_verifies (D:=Z) (F:=Fr) stepping_rng bid_input bid_circuit None tt tt (wrap_key_envelope [])).
  - by_run.
  - by_run.
  - reflexivity.
Defined.

(** ** The restart *)

#[local] Instance plain_uuid : UuidOps := {| uuid_to_string u := [u]; uuid_parse s := match s with [u] => Ok u | _ => Err (str "uuid") end |}.

(** The payload is the batch. *)
#[local] Instance batch_json : AggregatorJson Z := {|
  agg_write w := Some (wr_batch_id w);
  agg_read b := Some (mkAggregatorInput b [] None None);
  utf8_lossy b := b
|}.

Definition own_child (payload : bytes) : ChildRun :=
  let '(out, err, code) := run_prover_io (Some payload) true in Exited out err (Some code).

Definition own_env : RecoverEnv Z := mkRecoverEnv sample_dec (aggregate own_child) (fun _ => 950) (fun _ => ok_store) (secs 700).

Definition own_replayed : RecAcc Z (MemStore.Inner Z) := Eval vm_compute in
  match replay_loop (F:=Fr) 20 sample_dec 0 (mkRecAcc (engine_new (e_store eng4) 0) ∅ ∅ ∅) with
  | Ret (Some (a, _)) => a | _ => mkRecAcc eng4 ∅ ∅ ∅ end.

(** The auction of the run has no batch in the log: it is an orphan. *)
Lemma own_binary_proves_nothing_witness :
  (forall batch_id auction_id ms witness, exists e, rv_aggregate own_env batch_id auction_id ms witness = Err e) /\
  exists a', recover_orphans own_env own_replayed [77] = Ret (a', Ok tt) /\ ra_engine a' = ra_engine own_replayed /\
    forall i, ra_matches_by_auction a' !! i = if bool_decide (i ∈ [77]) then None else ra_matches_by_auction own_replayed !! i.
Proof.
  apply (own_binary_proves_nothing own_child own_env own_replayed [77]).
  - intros payload out err code H. exists (Some payload), true. unfold own_child in H. destruct (run_prover_io _ _) as [[o e] c]. cbn [snd]. congruence.
  - reflexivity.
  - apply NoDup_singleton.
  - apply Forall_singleton. vm_compute. eauto.
Defined.
