(* ===== verification/TransportExamples.v ===== *)
(** * A server with certificates

    The server of [ApiExamples.v] on a public address, with certificates and a
    file of authorities: the hypotheses of the theorems of [Transport.v] can
    hold. *)

From S2P Require Import Prelude Decimal Types Field Auction Events Book EngineState Engine Admission Witness Tick Batch Machine.
From S2P Require Import Rounds Provable Examples FileStore Snapshot Recover Text RateLimit Client Siwe Auth Keys Api Sse Server.
From S2P Require Import Circuit Folding PoolExamples ApiSafety Boot Shipped ApiExamples Transport.
Open Scope Z_scope.

#[local] Existing Instances fr_ops fr_laws small_poseidon canonical_iter sample_sha sample_hex sample_hex_laws sample_addr sample_addr_laws
  sample_json sample_ecies sample_net sample_decimal_parse sample_state_codec sample_aead.

(** Every byte of a file is a certificate, and a key. *)
#[local] Instance byte_pem : PemOps Z Z := {|
  pem_certs b := map Ok b;
  pem_private_key b := Ok (head b);
  root_add _ := Ok tt;
  verifier_build _ := Ok tt;
  with_single_cert _ _ := Ok tt;
  pem_file_config files cert key := match files cert, files key with Ok b, Ok (k :: _) => Ok (b, k) | _, _ => Err [] end
|}.

Definition sample_files : Files := fun path => if bool_decide (path = str "ca") then Ok [7; 8] else Ok [1].

(** The file of authorities has been emptied. *)
Definition broken_files : Files := fun path => if bool_decide (path = str "ca") then Ok [] else Ok [1].

(** A new certificate. *)
Definition rotated_files : Files := fun path => if bool_decide (path = str "ca") then Ok [9] else Ok [2].

(** The signer is its key. *)
#[local] Instance text_signer : SignerOps Str := {| signer_from_str s := Ok s; age_open _ _ := Err [] |}.

Definition sample_signer_env : SignerEnv := mkSignerEnv (fun _ => Ok (str " 0xabc ")) None.

Definition public_config : Config := {|
  cf_grpc_addr := V4 0;
  cf_http_addr := V4 0;
  cf_tls_cert := str "cert";
  cf_tls_key := str "key";
  cf_tls_client_ca := str "ca";
  cf_insecure := cf_insecure safe_config;
  cf_auction_interval := cf_auction_interval safe_config;
  cf_api_keys_raw := cf_api_keys_raw safe_config;
  cf_operator_api_keys_raw := cf_operator_api_keys_raw safe_config;
  cf_allow_unauthenticated_admin := cf_allow_unauthenticated_admin safe_config;
  cf_pair_seed_json := cf_pair_seed_json safe_config;
  cf_rate_limit := cf_rate_limit safe_config;
  cf_rate_burst := cf_rate_burst safe_config;
  cf_rate_stale_after := cf_rate_stale_after safe_config;
  cf_request_timeout := cf_request_timeout safe_config;
  cf_max_concurrent_requests := cf_max_concurrent_requests safe_config;
  cf_http2_max_concurrent_streams := cf_http2_max_concurrent_streams safe_config;
  cf_sse_streams_per_key := cf_sse_streams_per_key safe_config;
  cf_trusted_proxies := cf_trusted_proxies safe_config;
  cf_event_log := cf_event_log safe_config;
  cf_event_db := cf_event_db safe_config;
  cf_snapshot_enabled := cf_snapshot_enabled safe_config;
  cf_snapshot_dir := cf_snapshot_dir safe_config;
  cf_snapshot_key_uri := cf_snapshot_key_uri safe_config;
  cf_operator_key := cf_operator_key safe_config;
  cf_operator_key_uris := cf_operator_key_uris safe_config;
  cf_signer_key_uri := cf_signer_key_uri safe_config;
  cf_aggregator_bin := cf_aggregator_bin safe_config;
  cf_aggregator_timeout := cf_aggregator_timeout safe_config;
  cf_zk_proving_key := cf_zk_proving_key safe_config;
  cf_order_proof_vk := cf_order_proof_vk safe_config;
  cf_allow_unverified_order_proofs := cf_allow_unverified_order_proofs safe_config;
  cf_zk_batch_size := cf_zk_batch_size safe_config;
  cf_submit_timeout := cf_submit_timeout safe_config;
  cf_eth_rpc := cf_eth_rpc safe_config;
  cf_settlement_private_rpc := cf_settlement_private_rpc safe_config;
  cf_allow_public_settlement := cf_allow_public_settlement safe_config;
  cf_contract_addr := trader 65;
  cf_chain_id := cf_chain_id safe_config;
  cf_submit_gas := cf_submit_gas safe_config;
  cf_siwe_enabled := cf_siwe_enabled safe_config;
  cf_session_secret_raw := cf_session_secret_raw safe_config;
  cf_session_ttl := cf_session_ttl safe_config;
  cf_siwe_domain_raw := cf_siwe_domain_raw safe_config
|}.

Definition public_env : BootEnv (D:=Z) (F:=Fr) (St:=MemStore.Inner Z) (Sn:=MemSnapshotStore.Snaps) := {|
  be_is_file := be_is_file safe_env;
  be_is_dir := be_is_dir safe_env;
  be_key_env := be_key_env safe_env;
  be_open_store := be_open_store safe_env;
  be_open_snapshots := be_open_snapshots safe_env;
  be_verifying_key := be_verifying_key safe_env;
  be_signer := fun uri => match signer_from_uri (Signer:=Str) sample_signer_env uri with Ok _ => Ok tt | Err _ => Err [] end;
  be_url := be_url safe_env;
  be_snapshots := be_snapshots safe_env;
  be_ephemeral_key := be_ephemeral_key safe_env;
  be_aggregate := be_aggregate safe_env;
  be_batch_id := be_batch_id safe_env;
  be_append := be_append safe_env;
  be_seed_json := be_seed_json safe_env;
  be_tls := boot_tls (Cert:=Z) (Key:=Z) (fun _ => []) sample_files sample_files;
  be_empty_store := be_empty_store safe_env;
  be_store_env := be_store_env safe_env;
  be_now := be_now safe_env
|}.

Definition public_booted : Booted (D:=Z) (F:=Fr) (St:=MemStore.Inner Z) (N:=IpAddr) :=
  match boot 2 public_config public_env with Ret (Some (Ok b)) => b | _ => booted end.

Lemma public_boots : boot 2 public_config public_env = Ret (Some (Ok public_booted)).
Proof. vm_compute. reflexivity. Qed.

Lemma posture_outlives_reloads_witness :
  exists g r, tonic_server_tls (Cert:=Z) (Key:=Z) sample_files (bt_tls public_booted) = Ok g /\
    axum_rustls_config (Cert:=Z) (Key:=Z) sample_files (bt_tls public_booted) = Ok r /\
    is_Some g /\ is_Some (fold_left (sighup public_config) [broken_files; rotated_files; broken_files] r) /\
    asks_clients (Cert:=Z) (Key:=Z) (str "ca") sample_files [sample_files; broken_files; rotated_files; broken_files] g
      (fold_left (sighup public_config) [broken_files; rotated_files; broken_files] r).
Proof.
  destruct (posture_outlives_reloads (Cert:=Z) (Key:=Z) 2 public_config public_env public_booted (fun _ => []) sample_files sample_files
    [broken_files; rotated_files; broken_files]) as (g & r & Hg & Hr & _ & Htls & Hca).
  - exact public_boots.
  - reflexivity.
  - exists g, r. destruct Htls as [H1 H2]; [reflexivity|left; reflexivity|]. exact (conj Hg (conj Hr (conj H1 (conj H2 Hca)))).
Defined.

Lemma settles_with_file_key_witness :
  exists uri key s, opt (cf_signer_key_uri public_config) = Some uri /\ key_text (Signer:=Str) sample_signer_env uri key /\
    signer_from_str (Signer:=Str) (Pair.trim key) = Ok s.
Proof.
  apply (settles_with_file_key (Signer:=Str) 2 public_config public_env public_booted sample_signer_env (fun _ => []) (str "http://node") (str "http://private")
    (trader 65) PrivateRpc).
  - exact public_boots.
  - vm_compute. reflexivity.
  - reflexivity.
Defined.
